(* ===== verification/_CoqProject ===== *)
-Q . S2P
Prelude.v
RustStr.v
Crates.v
CoreError.v
Routing.v
Auth.v
Ids.v
Tokens.v
ServerConfig.v
Registry.v
MemoryRegistry.v
CoreTests.v
RedisRegistry.v
Leases.v
Async.v
Proto.v
Http.v
Session.v
Control.v
Server.v
Ingress.v
Node.v
ServerTests.v
ClientConfig.v
Agent.v
Executables.v
ClientTests.v
Link.v
FlowControl.v
Delivery.v
Upload.v
Progress.v
AgentSession.v
EndToEnd.v
Exchange.v
