(* ===== verification/Prelude.v ===== *)
(** * Norupo: a verified model of a self-hosted tunnel edge and its agent

    An agent ([norupo-client]) opens one gRPC session to an edge node
    ([norupo-server]) and asks for public host names; the edge claims each name in
    a routing table the nodes of a cluster share ([norupo-core]), and relays public
    HTTP requests over the session, multiplexed as streams with credit-based flow
    control. Any node accepts a public request; one that does not own the session
    hands the request to the node that does.

    ** The files

    Each file opens with what it models; definitions keep the source's names.

    - Shared: [Prelude] (text, [result] and its notation, tactics, list and
      saturation lemmas), [RustStr] (the part of Rust's string and integer library
      the crates call, over bytes), [Async] (what is left of an [async fn] as a
      [task] that stops at its await points; pools of tasks, their interleavings and
      cancellation), [Crates] (the interfaces of code outside the repository).
    - [norupo-core/src]: [CoreError] (error.rs), [Routing] (routing.rs), [Auth]
      (auth.rs), [Ids] (ids.rs); of registry.rs, [Registry] has the route record, the
      trait as the class [RegistryOps] and its promise as the class
      [RegistryContract], and [MemoryRegistry] and [RedisRegistry] the two backends.
    - [norupo-server/src]: [Tokens] (tokens.rs), [ServerConfig] (config.rs), [Session]
      (session.rs), [Control] (control.rs, state.rs), [Http] (http.rs), [Ingress]
      (ingress.rs, peer.rs), [Server] (lib.rs and the accept loop of ingress.rs).
    - [norupo-client/src]: [ClientConfig] (config.rs), [Agent] (agent.rs).
    - [Executables]: both main.rs, from the parsed command line on.
    - [Proto] is proto/norupo/v1/tunnel.proto, the frames both sides exchange.
    - [Node] lists everything that may run on a node beside the read loop of one
      session, and [Link] runs an agent and a node, each with all its tasks, over a
      connection; a [Ledger] there is an amount to follow through both, and the class
      [Balanced] what the calls of both sides owe it.
    - [Leases], [FlowControl], [Delivery], [Upload], [Progress], [Exchange],
      [AgentSession] and [EndToEnd] have theorems: about the routing table whatever its
      backend, about the credit of a stream (two ledgers), about the response and the
      request of a stream in any interleaving, about panics and deadlocks of the read
      loops, about which response belongs to which request, about a session of the
      agent, and about agent and edge composed over the frames they exchange.
    - [CoreTests], [ServerTests] and [ClientTests] are the unit tests of the crates,
      run on the model.

    ** How the code is rendered

    - Text and payloads are lists of bytes; integers are [Z], with saturation,
      wrap-around or failure written where the code has it.
    - A synchronous method is a function on the state it is called on. An async
      function is a [task]: between two of its steps any other task may act, and a
      task may be dropped at an await point, where what its destructors do is a
      definition of its own.
    - What Rust shares behind an [Arc] is shared here: a node's state is one store of
      session objects, a session one store of stream objects, and handles are
      indices into them. A table entry that is removed leaves the object to those
      who still hold it.
    - A channel or semaphore is a value of the abstract types of the class [Tokio],
      whose operations and laws are tokio's documented behaviour; [try_send], [send],
      permits and closing are its operations. The laws have an instance, on which the
      witnesses run.
    - Time is in milliseconds. A call that reads the clock to stamp an expiry reads
      it again, later than the read it decides by.

    ** Parameters

    Code outside the repository is a class in [Crates] or an argument of the
    definitions that use it: [Rng], [RedisServer], [HttpCrate] (names and values of
    the header map), [MapIteration] (the order in which a [HashMap] is walked),
    [Tokio]; the JSON reader and writers, the URI parser, the HTTP clients, sockets
    and the connection to Redis. [public] is the set of requests that reach a node. A theorem that needs more than the class laws states
    it as a hypothesis, and its witness discharges it at a concrete instance.

    ** What the theorems show

    - The routing table. Both backends refine one contract of leases
      ([memory_registry_refines], [redis_registry_refines]), whatever connection faults
      Redis has, and give the same answers ([backends_equivalent]); a renewed lease
      cannot be taken over ([lease_held]), one that is not renewed becomes free
      ([expired_claim_is_free]); route records round-trip ([record_roundtrip]).
    - The control plane. No state before version check and authentication
      ([handshake_gate]); acceptance of a tunnel, heartbeat and teardown on every
      branch ([register_tunnel_spec], [heartbeat_spec], [teardown_spec]); reserved
      labels ([reserved_labels_protected]). They are proved against the contract, so
      hold for either backend.
    - Sessions. Under any interleaving and cancellation the stream counter is exact
      and nobody waits on a stream that is gone ([session_bookkeeping],
      [close_stream_releases]); uploads are paid for ([send_stream_data_paid]);
      opening on every branch ([open_http_stream_spec]); [small_window_stalls] is a
      limit of the flow control as it is. A session stays within its tunnel limit
      whatever runs beside it ([tunnel_limit_holds]).
    - Requests, both sides together. In every interleaving of all tasks of agent and
      edge, and whatever is dropped, the call made for a stream has the head of one of
      the requests that reached the node, and what the local service reads of its body
      is a prefix of what that client sent; while the stream is open nothing that was
      sent is missing, and a body that has ended is all of a body that did not fail
      ([request_delivered_in_order]). [cut_body_reads_as_complete] is a flaw: a
      reset in mid-body reads as an end.
    - Responses, both sides together. In every interleaving of all tasks of agent and
      edge, and whatever is dropped, what the public client reads of a stream is a
      prefix of what the local service answered to that stream's request, and while
      the stream is open nothing of it is missing ([response_delivered_in_order]).
    - Exchanges, both sides together. In every interleaving the head and the body a
      public client gets on a stream are what the local service answered to one call
      with the head of one public request, and a body whose end arrives is all of a
      body that did not fail ([response_answers_request]). It joins three invariants of
      the same runs: where heads are ([heads_match]), where chunks are ([on_the_way])
      and where requests are ([in_order]). [cut_response_reads_as_complete] is a flaw:
      a session that ends in mid-response gives the client's body no error.
    - Flow control, both sides together. In every interleaving of all tasks of agent
      and edge, the window left, the bytes under way and the credit under way of a
      stream never exceed what was granted ([credit_conserved] for responses,
      [upload_credit_conserved] for requests).
    - The read loops, both sides together. From any reachable state each of them
      finishes the frame it handles, waiting only for what it put out to be taken
      ([read_loops_go_on]); and no [WindowUpdate] makes one panic
      ([read_loops_never_panic]), as long as both sides run this code.
    - The ingress. Routing on every branch ([route_spec]), at most one hop between
      nodes ([at_most_one_hop]), a registered host reaches its owner from any node
      ([registered_host_reaches_owner]), the wait for a response
      ([response_wait_spec]); headers and pages ([forwarded_headers_exact],
      [agent_headers_safe], [html_escape_sound]); [forward_loses_authority] is a flaw.
    - The programs. Nothing is served unless everything could be
      ([start_all_or_nothing]); a node ends after the signal exactly when no call to
      its control plane is left ([server_main_spec]); what [norupo] prints and how it
      ends ([client_main_http], [doctor_reports_node]).
    - The agent. A stream's task sends a paid prefix of what it owes, and all of it
      unless aborted ([agent_answers_exactly]); the request the local service gets
      ([local_request_spec]); frames that follow an [Open] at once are kept and
      credited once ([early_frames_kept]); what the read loop sends ([read_loop_replies],
      [session_starts_with_hello]); the reconnect policy, its bounds and its end
      ([run_policy], [reconnect_delay_spec], [retries_exhausted]);
      [slow_service_stalls_session] is a limit.
    - Agent and edge. A hello is met by a welcome or a final refusal
      ([hello_meets_edge]); a tunnel is reported ready exactly when the edge holds its
      lease ([tunnel_comes_up]); the frames of an answer become that answer
      for the public client ([response_end_to_end]).
    - Text. Host names, labels, targets ([normalize_host_variants],
      [validate_subdomain_spec], [random_subdomain_valid], [forward_target_sound]).

    ** Recursion and fuel

    Loops over data are structural. The two loops that split a payload into chunks
    of at most 64 KiB, [split_loop] and [payload_chunks], take the length of the
    payload as fuel: a pass takes at least one byte, and the chunks are proved to
    concatenate to the payload. A loop that waits for messages consumes a list of
    what arrives, and ends, or stays in its await point, where the list ends. The
    agent's reconnect loop consumes a list of how its sessions end;
    [retries_exhausted] shows that with a retry limit it returns.

    ** Not modelled

    The wire encoding (generated by prost and tonic), HTTP parsing (hyper) and the
    transport's own flow control (a connection here takes every frame); the
    parsing of command lines (clap); dialling, TLS, keep-alive and sockets; logging,
    metrics and signal handling; the build script. *)

From Stdlib Require Export List ZArith Lia.
From Stdlib Require Ascii.
From stdpp Require Export base tactics list gmap strings.
From stdpp Require Import options.

(** ** Text

    A Rust [String], [&str] or [bytes::Bytes] is the list of its bytes (one
    [ascii] is one [u8]); a Rust string is the UTF-8 encoding of its characters.
    [lit] reads a source literal. *)

Export Stdlib.Strings.Ascii (ascii(..), ascii_of_N, N_of_ascii).
Export (notations) Stdlib.Strings.Ascii.
Abbreviation str := (list ascii).

Definition lit (s : string) : str := Stdlib.Strings.String.list_ascii_of_string s.
Arguments lit !s /.

(** ** Results: Rust's [Result], with [?] as a bind *)

Inductive result (T E : Type) : Type :=
| Ok (v : T)
| Err (e : E).
Arguments Ok {T E} v.
Arguments Err {T E} e.

Definition res_bind {T U E} (r : result T E) (k : T → result U E) : result U E :=
  match r with
  | Ok v => k v
  | Err e => Err e
  end.

Definition map_err {T E F} (f : E → F) (r : result T E) : result T F :=
  match r with
  | Ok v => Ok v
  | Err e => Err (f e)
  end.

Definition is_ok {T E} (r : result T E) : bool :=
  match r with Ok _ => true | Err _ => false end.

Definition res_ok {T E} (r : result T E) : option T :=
  match r with Ok v => Some v | Err _ => None end.

Declare Scope norupo_scope.
Delimit Scope norupo_scope with norupo.
Notation "'let?' x := r 'in' k" := (res_bind r (λ x, k))
  (at level 10, x name, r at level 100, k at level 200) : norupo_scope.
Notation "'let?' ' pat := r 'in' k" :=
  (res_bind r (λ x, match x with pat => k end))
  (at level 10, pat pattern, r at level 100, k at level 200) : norupo_scope.
Global Open Scope norupo_scope.

#[export] Instance result_eq_dec {T E} `{EqDecision T, EqDecision E} :
  EqDecision (result T E).
Proof. solve_decision. Defined.

(** ** Machine integers: a [uN] is a [Z] in [0, 2^N) *)

Definition u16_max : Z := 65535.
Definition u32_max : Z := 4294967295.
Definition u64_max : Z := 18446744073709551615.
Definition i64_max : Z := 9223372036854775807.

(** Wrapping [u64] addition and subtraction ([AtomicU64::fetch_add],
    [AtomicU64::fetch_sub]). *)
Definition u64_wrapping_add (a b : Z) : Z := (a + b) `mod` 2 ^ 64.
Definition u64_wrapping_sub (a b : Z) : Z := (a - b) `mod` 2 ^ 64.

(** [u32::try_from(n).unwrap_or(u32::MAX)] on a non-negative [n]. *)
Definition u32_saturate (n : Z) : Z := if (n <=? u32_max)%Z then n else u32_max.

Lemma u32_saturate_small n : (n ≤ u32_max)%Z → u32_saturate n = n.
Proof. unfold u32_saturate. by destruct (Z.leb_spec n u32_max); [|lia]. Qed.

Definition u32_saturating_add (a b : Z) : Z := Z.min (a + b) u32_max.
Definition u64_saturating_mul (a b : Z) : Z := Z.min (a * b) u64_max.

Definition byte_len {A} (s : list A) : Z := Z.of_nat (length s).

(** ** Automation *)

Create HintDb norupo discriminated.

(** Splits a monadic chain that is known to have produced a value. *)
Ltac res_inv :=
  repeat match goal with
  | H : res_bind ?r _ = Ok _ |- _ =>
      let E := fresh "E" in
      destruct r eqn:E; simpl in H; [|discriminate H]
  | H : res_bind ?r _ = Err _ |- _ =>
      let E := fresh "E" in
      destruct r eqn:E; simpl in H
  | H : Ok _ = Ok _ |- _ => injection H as H; subst
  | H : Err _ = Err _ |- _ => injection H as H; subst
  | H : Ok _ = Err _ |- _ => discriminate H
  | H : Err _ = Ok _ |- _ => discriminate H
  end.

(** Case analysis on the guards ([if b then .. else ..]) of a hypothesis. *)
Ltac guard_inv H :=
  repeat match type of H with
  | context [if ?b then _ else _] =>
      let E := fresh "G" in destruct b eqn:E; try discriminate H
  end.

Ltac bool_to_prop :=
  repeat match goal with
  | H : (_ && _)%bool = true |- _ => apply andb_true_iff in H as [? ?]
  | H : (_ || _)%bool = false |- _ => apply orb_false_iff in H as [? ?]
  | H : negb _ = true |- _ => apply negb_true_iff in H
  | H : negb _ = false |- _ => apply negb_false_iff in H
  | H : (_ <=? _)%Z = true |- _ => apply Z.leb_le in H
  | H : (_ <=? _)%Z = false |- _ => apply Z.leb_gt in H
  | H : (_ <? _)%Z = true |- _ => apply Z.ltb_lt in H
  | H : (_ <? _)%Z = false |- _ => apply Z.ltb_ge in H
  | H : (_ =? _)%Z = true |- _ => apply Z.eqb_eq in H
  | H : (_ =? _)%Z = false |- _ => apply Z.eqb_neq in H
  | H : bool_decide _ = true |- _ => apply bool_decide_eq_true in H
  | H : bool_decide _ = false |- _ => apply bool_decide_eq_false in H
  end.

(** ** Generic lemmas *)

Lemma res_bind_Ok {T U E} (r : result T E) (k : T → result U E) u :
  res_bind r k = Ok u ↔ ∃ t, r = Ok t ∧ k t = Ok u.
Proof. destruct r; simpl; naive_solver. Qed.

Lemma lit_app (a c : string) : lit (a +:+ c) = lit a ++ lit c.
Proof. unfold lit. induction a as [|x a IH]; [done|]. simpl. by f_equal. Qed.

Lemma forallb_app_iff {A} (p : A → bool) (l k : list A) :
  forallb p (l ++ k) = true ↔ forallb p l = true ∧ forallb p k = true.
Proof. rewrite forallb_app. apply andb_true_iff. Qed.

Lemma forallb_elem {A} (p : A → bool) (l : list A) :
  forallb p l = true ↔ ∀ x, x ∈ l → p x = true.
Proof.
  rewrite forallb_forall. split; intros H x Hx; apply H; by apply list_elem_of_In.
Qed.

Lemma existsb_elem {A} (p : A → bool) (l : list A) :
  existsb p l = true ↔ ∃ x, x ∈ l ∧ p x = true.
Proof.
  rewrite existsb_exists. split; intros (x & Hx & Hp); exists x; split; auto;
    by apply list_elem_of_In.
Qed.

Lemma existsb_false_elem {A} (p : A → bool) (l : list A) :
  existsb p l = false ↔ ∀ x, x ∈ l → p x = false.
Proof.
  split.
  - intros H x Hx. destruct (p x) eqn:E; [|done].
    assert (existsb p l = true) as Ht; [|congruence].
    apply existsb_elem. eauto.
  - intros H. destruct (existsb p l) eqn:E; [|done].
    apply existsb_elem in E as (x & Hx & Hp). by rewrite H in Hp.
Qed.

Lemma byte_len_app {A} (s t : list A) : byte_len (s ++ t) = (byte_len s + byte_len t)%Z.
Proof. unfold byte_len. rewrite length_app. lia. Qed.

Lemma byte_len_nonneg {A} (s : list A) : (0 ≤ byte_len s)%Z.
Proof. unfold byte_len. lia. Qed.

(** ** Sums over a list *)
Definition sum_of {A} (f : A → Z) (l : list A) : Z := foldr (λ x n, (f x + n)%Z) 0%Z l.

Lemma sum_of_app {A} (f : A → Z) l k : sum_of f (l ++ k) = (sum_of f l + sum_of f k)%Z.
Proof. induction l; simpl; lia. Qed.

Lemma sum_of_nonneg {A} (f : A → Z) l : Forall (λ x, 0 ≤ f x)%Z l → (0 ≤ sum_of f l)%Z.
Proof. induction 1; simpl in *; lia. Qed.

Lemma sum_of_zero {A} (f : A → Z) l : Forall (λ x, f x = 0%Z) l → sum_of f l = 0%Z.
Proof. induction 1; simpl; lia. Qed.

Lemma sum_of_ext {A} (f g : A → Z) l : (∀ x, x ∈ l → f x = g x) → sum_of f l = sum_of g l.
Proof.
  induction l as [|x l IH]; intros Hfg; simpl; [done|].
  rewrite (Hfg x) by left. rewrite IH; [done|]. intros y Hy. apply Hfg. by right.
Qed.

(** Two weights that agree except at one place. *)
Lemma sum_of_except {A} (f g : A → Z) l j x :
  l !! j = Some x → (∀ i y, l !! i = Some y → i ≠ j → f y = g y) →
  (sum_of f l + g x = sum_of g l + f x)%Z.
Proof.
  revert j. induction l as [|y l IH]; intros [|j] Hx Hfg; simplify_eq/=.
  - rewrite (sum_of_ext f g l); [lia|]. intros z [i Hi]%list_elem_of_lookup. by apply (Hfg (S i)).
  - rewrite (Hfg 0 y) by done. assert (∀ i z, l !! i = Some z → i ≠ j → f z = g z) as Hl.
    { intros i z Hz Hij. apply (Hfg (S i)); [done|lia]. }
    specialize (IH j Hx Hl). lia.
Qed.

Lemma sum_of_insert {A} (f : A → Z) l j x y :
  l !! j = Some x → (sum_of f (<[j := y]> l) + f x = sum_of f l + f y)%Z.
Proof.
  revert j. induction l as [|z l IH]; intros [|j] Hx; simplify_eq/=; [lia|]. specialize (IH j Hx). lia.
Qed.

Lemma sum_of_delete {A} (f : A → Z) l j :
  Forall (λ x, 0 ≤ f x)%Z l → (sum_of f (delete j l) ≤ sum_of f l)%Z.
Proof.
  intros Hf. revert j. induction Hf as [|z l Hz _ IH]; intros [|j]; unfold delete in *; simpl in *;
    [done..|lia|]. specialize (IH j). unfold delete. lia.
Qed.

Lemma sum_of_elem {A} (f : A → Z) l x : (∀ y, 0 ≤ f y)%Z → x ∈ l → (f x ≤ sum_of f l)%Z.
Proof.
  intros Hf. induction l as [|y l IH]; [by intros ?%not_elem_of_nil|].
  pose proof (sum_of_nonneg f l (Forall_true _ _ Hf)). pose proof (Hf y).
  intros [->|Hx]%elem_of_cons; simpl; [lia|]. specialize (IH Hx). lia.
Qed.

(** Two places that weigh one each, in a list that weighs no more, are the same. *)
Lemma sum_of_one {A} (f : A → Z) l i j x y :
  (∀ z, 0 ≤ f z)%Z → (sum_of f l ≤ 1)%Z → l !! i = Some x → l !! j = Some y →
  (1 ≤ f x)%Z → (1 ≤ f y)%Z → i = j.
Proof.
  intros Hf. revert i j. induction l as [|z l IH]; intros [|i] [|j] Hs Hx Hy H1 H2; simplify_eq/=; [done|..].
  - pose proof (sum_of_elem f l y Hf ltac:(by eapply list_elem_of_lookup_2)). lia.
  - pose proof (sum_of_elem f l x Hf ltac:(by eapply list_elem_of_lookup_2)). lia.
  - f_equal. pose proof (Hf z). apply IH; [lia|done..].
Qed.
