(* ===== verification/RustStr.v ===== *)
(** * The part of Rust's [str] and integer library the program calls

    Byte-level definitions of the standard-library functions used by the
    crates ([trim], [split_once], [strip_prefix], [to_ascii_lowercase],
    [u16::from_str], decimal formatting, ...) with the facts about them the
    component files share. *)

From S2P Require Import Prelude.

(** ** Bytes *)

Definition ord (a : ascii) : Z := Z.of_N (N_of_ascii a).
Definition chr (z : Z) : ascii := ascii_of_N (Z.to_N z).

Definition is_ascii (a : ascii) : bool := (ord a <? 128)%Z.
Definition is_ascii_digit (a : ascii) : bool := ((48 <=? ord a) && (ord a <=? 57))%Z.
Definition is_ascii_uppercase (a : ascii) : bool := ((65 <=? ord a) && (ord a <=? 90))%Z.
Definition is_ascii_lowercase (a : ascii) : bool := ((97 <=? ord a) && (ord a <=? 122))%Z.
Definition ascii_lower (a : ascii) : ascii :=
  if is_ascii_uppercase a then chr (ord a + 32) else a.

(** ASCII members of Unicode's White_Space class: U+0009..U+000D and U+0020. *)
Definition is_ascii_ws (a : ascii) : bool :=
  ((9 <=? ord a) && (ord a <=? 13) || (ord a =? 32))%Z.

Definition to_ascii_lowercase (s : str) : str := map ascii_lower s.
Definition str_is_ascii (s : str) : bool := forallb is_ascii s.
Definition eq_ignore_ascii_case (s t : str) : bool :=
  bool_decide (to_ascii_lowercase s = to_ascii_lowercase t).

(** ** Searching and splitting *)

Fixpoint strip_prefix (p s : str) : option str :=
  match p, s with
  | [], _ => Some s
  | a :: p', c :: s' => if decide (a = c) then strip_prefix p' s' else None
  | _ :: _, [] => None
  end.

Definition strip_suffix (p s : str) : option str :=
  (λ r, rev r) <$> strip_prefix (rev p) (rev s).

Definition starts_with (p s : str) : bool := bool_decide (is_Some (strip_prefix p s)).
Definition ends_with (p s : str) : bool := bool_decide (is_Some (strip_suffix p s)).

(** [s.split_once(c)] for an ASCII character [c]. *)
Fixpoint split_once (c : ascii) (s : str) : option (str * str) :=
  match s with
  | [] => None
  | a :: s' =>
      if decide (a = c) then Some ([], s')
      else '(l, r) ← split_once c s'; Some (a :: l, r)
  end.

Definition rsplit_once (c : ascii) (s : str) : option (str * str) :=
  '(l, r) ← split_once c (rev s); Some (rev r, rev l).

(** [s.split(c)]: never empty. *)
Fixpoint split (c : ascii) (s : str) : list str :=
  match s with
  | [] => [[]]
  | a :: s' =>
      if decide (a = c) then [] :: split c s'
      else match split c s' with
           | w :: ws => (a :: w) :: ws
           | [] => [[a]]
           end
  end.

Definition contains_char (c : ascii) (s : str) : bool := bool_decide (c ∈ s).

(** [s.trim_end_matches(f)] and [s.trim_start_matches(f)] for an ASCII predicate. *)
Fixpoint trim_start_matches (f : ascii → bool) (s : str) : str :=
  match s with
  | [] => []
  | a :: s' => if f a then trim_start_matches f s' else s
  end.
Definition trim_end_matches (f : ascii → bool) (s : str) : str :=
  rev (trim_start_matches f (rev s)).
Definition trim_matches (f : ascii → bool) (s : str) : str :=
  trim_end_matches f (trim_start_matches f s).

Definition is_char (c a : ascii) : bool := bool_decide (a = c).

(** ** [str::trim]: Unicode White_Space at both ends

    [ws_head s] is the number of bytes of the white-space character [s] starts
    with, 0 if it starts with another one; [ws_tail] reads the reversed bytes. *)

Definition ws3 (x y z : Z) : bool :=
  ((x =? 0xE1) && (y =? 0x9A) && (z =? 0x80)
   || (x =? 0xE2) && (y =? 0x80) && ((0x80 <=? z) && (z <=? 0x8A)
                                      || (z =? 0xA8) || (z =? 0xA9) || (z =? 0xAF))
   || (x =? 0xE2) && (y =? 0x81) && (z =? 0x9F)
   || (x =? 0xE3) && (y =? 0x80) && (z =? 0x80))%Z.
Definition ws2 (x y : Z) : bool := ((x =? 0xC2) && ((y =? 0x85) || (y =? 0xA0)))%Z.

Definition ws_head (s : str) : nat :=
  match s with
  | a :: b :: c :: _ =>
      if is_ascii_ws a then 1 else if ws2 (ord a) (ord b) then 2
      else if ws3 (ord a) (ord b) (ord c) then 3 else 0
  | [a; b] => if is_ascii_ws a then 1 else if ws2 (ord a) (ord b) then 2 else 0
  | [a] => if is_ascii_ws a then 1 else 0
  | [] => 0
  end.

Definition ws_tail (s : str) : nat :=
  match s with
  | c :: b :: a :: _ =>
      if is_ascii_ws c then 1 else if ws2 (ord b) (ord c) then 2
      else if ws3 (ord a) (ord b) (ord c) then 3 else 0
  | [b; a] => if is_ascii_ws b then 1 else if ws2 (ord a) (ord b) then 2 else 0
  | [a] => if is_ascii_ws a then 1 else 0
  | [] => 0
  end.

(** Fuel is the length: every round removes at least one byte. *)
Fixpoint strip_ws (h : str → nat) (fuel : nat) (s : str) : str :=
  match fuel with
  | O => s
  | S fuel' => match h s with
               | O => s
               | S k => strip_ws h fuel' (drop (S k) s)
               end
  end.

Definition trim_start (s : str) : str := strip_ws ws_head (length s) s.
Definition trim_end (s : str) : str := rev (strip_ws ws_tail (length s) (rev s)).
Definition trim (s : str) : str := trim_end (trim_start s).

(** ** Decimal text *)

Definition digit (d : Z) : ascii := chr (48 + d).

Fixpoint dec_go (fuel : nat) (n : Z) : str :=
  match fuel with
  | O => []
  | S f => if (n <? 10)%Z then [digit n] else dec_go f (n / 10) ++ [digit (n `mod` 10)]
  end.
(** [format!("{n}")] for an unsigned [n]; a [u64] has at most 20 digits. *)
Definition dec (n : Z) : str := dec_go 20 n.

Definition digits_value (s : str) : Z := fold_left (λ acc a, 10 * acc + (ord a - 48))%Z s 0%Z.

(** [s.parse::<u16>()]: an optional [+], then at least one digit, no overflow. *)
Definition parse_u16 (s : str) : option Z :=
  let ds := match s with
            | a :: (_ :: _) as r => if decide (a = "+"%char) then tail s else s
            | _ => s
            end in
  if bool_decide (ds = []) || negb (forallb is_ascii_digit ds) then None
  else if (digits_value ds <=? u16_max)%Z then Some (digits_value ds) else None.

(** ** Facts about bytes *)

(** Decides a closed boolean question about one byte by trying all 256. *)
Ltac byte_cases a := destruct a as [[][][][][][][][]]; vm_compute; intuition congruence.

Lemma ascii_lower_idem a : ascii_lower (ascii_lower a) = ascii_lower a.
Proof. byte_cases a. Qed.

Lemma ascii_lower_is_ascii a : is_ascii (ascii_lower a) = is_ascii a.
Proof. byte_cases a. Qed.

Lemma ascii_lower_not_upper a : is_ascii_uppercase (ascii_lower a) = false.
Proof. byte_cases a. Qed.

Lemma ascii_lower_ws a : is_ascii_ws (ascii_lower a) = is_ascii_ws a.
Proof. byte_cases a. Qed.

Lemma ascii_lower_digit a : is_ascii_digit (ascii_lower a) = is_ascii_digit a.
Proof. byte_cases a. Qed.

Lemma ascii_lower_id a : is_ascii_uppercase a = false → ascii_lower a = a.
Proof. unfold ascii_lower. by intros ->. Qed.

(** Lower-casing neither creates nor removes a byte that is not a letter. *)
Lemma ascii_lower_fixed a c :
  is_ascii_lowercase c = false → is_ascii_uppercase c = false →
  ascii_lower a = c ↔ a = c.
Proof.
  intros Hl Hu. split.
  - unfold ascii_lower. destruct (is_ascii_uppercase a) eqn:E; [|done].
    intros <-. clear Hu. revert Hl E. byte_cases a.
  - intros ->. by apply ascii_lower_id.
Qed.

Lemma to_lower_app s t :
  to_ascii_lowercase (s ++ t) = to_ascii_lowercase s ++ to_ascii_lowercase t.
Proof. apply map_app. Qed.

Lemma to_lower_length s : length (to_ascii_lowercase s) = length s.
Proof. apply length_map. Qed.

Lemma to_lower_idem s : to_ascii_lowercase (to_ascii_lowercase s) = to_ascii_lowercase s.
Proof.
  unfold to_ascii_lowercase. rewrite map_map. apply map_ext, ascii_lower_idem.
Qed.

Lemma to_lower_id s :
  forallb (λ a, negb (is_ascii_uppercase a)) s = true → to_ascii_lowercase s = s.
Proof.
  induction s as [|a s IH]; [done|]. simpl. intros [Ha Hs]%andb_true_iff.
  rewrite IH by done. f_equal. apply ascii_lower_id. by apply negb_true_iff.
Qed.

Lemma to_lower_not_upper s :
  forallb (λ a, negb (is_ascii_uppercase a)) (to_ascii_lowercase s) = true.
Proof.
  induction s as [|a s IH]; [done|]. simpl. by rewrite ascii_lower_not_upper, IH.
Qed.

Lemma to_lower_is_ascii s : str_is_ascii (to_ascii_lowercase s) = str_is_ascii s.
Proof.
  unfold str_is_ascii. induction s as [|a s IH]; [done|].
  simpl. by rewrite ascii_lower_is_ascii, IH.
Qed.

Lemma to_lower_elem c s :
  is_ascii_lowercase c = false → is_ascii_uppercase c = false →
  c ∈ to_ascii_lowercase s ↔ c ∈ s.
Proof.
  intros Hl Hu. unfold to_ascii_lowercase. rewrite !list_elem_of_In, in_map_iff.
  split.
  - intros (x & Hx & Hin). apply ascii_lower_fixed in Hx as ->; done.
  - intros Hin. exists c. split; [|done]. by apply ascii_lower_fixed.
Qed.

(** ** Facts about prefixes, suffixes and splitting *)

Lemma strip_prefix_Some p s r : strip_prefix p s = Some r ↔ s = p ++ r.
Proof.
  revert s. induction p as [|a p IH]; intros s; [simpl; naive_solver|].
  destruct s as [|c s]; simpl; [naive_solver|].
  case_decide; [subst; rewrite IH; naive_solver|naive_solver].
Qed.

Lemma strip_suffix_Some p s r : strip_suffix p s = Some r ↔ s = r ++ p.
Proof.
  unfold strip_suffix. rewrite fmap_Some. split.
  - intros (x & Hx%strip_prefix_Some & ->).
    apply (f_equal (@rev _)) in Hx. by rewrite rev_involutive, rev_app_distr, rev_involutive in Hx.
  - intros ->. exists (rev r). rewrite rev_involutive. split; [|done].
    apply strip_prefix_Some, rev_app_distr.
Qed.

Lemma starts_with_true p s : starts_with p s = true ↔ ∃ r, s = p ++ r.
Proof.
  unfold starts_with. rewrite bool_decide_eq_true. split.
  - intros [r Hr%strip_prefix_Some]. eauto.
  - intros [r ->]. exists r. by apply strip_prefix_Some.
Qed.

Lemma ends_with_true p s : ends_with p s = true ↔ ∃ r, s = r ++ p.
Proof.
  unfold ends_with. rewrite bool_decide_eq_true. split.
  - intros [r Hr%strip_suffix_Some]. eauto.
  - intros [r ->]. exists r. by apply strip_suffix_Some.
Qed.

Lemma split_once_Some c s l r :
  split_once c s = Some (l, r) ↔ s = l ++ c :: r ∧ c ∉ l.
Proof.
  revert l r. induction s as [|a s IH]; intros l r; simpl.
  { split; [done|]. intros [H _]. by destruct l. }
  case_decide as Hac; subst.
  - split.
    + intros [= <- <-]. split; [done|]. by apply not_elem_of_nil.
    + intros [Heq Hni]. destruct l as [|x l]; [by simplify_eq/=|].
      simplify_eq/=. by destruct Hni; left.
  - split.
    + intros H. destruct (split_once c s) as [[l' r']|]; simplify_eq/=.
      destruct (IH l' r) as [[-> Hni] _]; [done|]. split; [done|].
      rewrite not_elem_of_cons. naive_solver.
    + intros [Heq Hni]. destruct l as [|x l]; simplify_eq/=.
      apply not_elem_of_cons in Hni as [_ Hni].
      destruct (IH l r) as [_ ->]; naive_solver.
Qed.

Lemma split_once_None c s : split_once c s = None ↔ c ∉ s.
Proof.
  induction s as [|a s IH]; simpl; [split; [intros _; apply not_elem_of_nil|done]|].
  rewrite not_elem_of_cons. case_decide; [naive_solver|].
  destruct (split_once c s) as [[??]|]; simpl; naive_solver.
Qed.

Lemma rsplit_once_Some c s l r :
  rsplit_once c s = Some (l, r) ↔ s = l ++ c :: r ∧ c ∉ r.
Proof.
  unfold rsplit_once. split.
  - destruct (split_once c (rev s)) as [[x y]|] eqn:E; [|done].
    intros [= <- <-]. apply split_once_Some in E as [E Hni].
    apply (f_equal (@rev _)) in E. rewrite rev_involutive, rev_app_distr in E. simpl in E.
    rewrite E, <- app_assoc. split; [done|].
    by rewrite list_elem_of_In, <- in_rev, <- list_elem_of_In.
  - intros [-> Hni].
    assert (split_once c (rev (l ++ c :: r)) = Some (rev r, rev l)) as ->.
    { apply split_once_Some. rewrite rev_app_distr. simpl. rewrite <- app_assoc.
      split; [done|]. by rewrite list_elem_of_In, <- in_rev, <- list_elem_of_In. }
    simpl. by rewrite !rev_involutive.
Qed.

Lemma rsplit_once_None c s : rsplit_once c s = None ↔ c ∉ s.
Proof.
  unfold rsplit_once. destruct (split_once c (rev s)) as [[x y]|] eqn:E.
  - apply split_once_Some in E as [E _]. split; [done|]. intros Hni. destruct Hni.
    rewrite list_elem_of_In, in_rev, E, <- list_elem_of_In. apply elem_of_app; right; left.
  - split; [|done]. intros _. apply split_once_None in E.
    by rewrite list_elem_of_In, in_rev, <- list_elem_of_In.
Qed.

Lemma split_not_nil c s : split c s ≠ [].
Proof. destruct s as [|a s]; simpl; [done|]. case_decide; [done|]. by destruct (split c s). Qed.

Lemma split_single c s : c ∉ s → split c s = [s].
Proof.
  induction s as [|a s IH]; [done|]. rewrite not_elem_of_cons. intros [Hne Hni].
  simpl. rewrite decide_False by congruence. by rewrite IH.
Qed.

Lemma split_cons c l r : c ∉ l → split c (l ++ c :: r) = l :: split c r.
Proof.
  induction l as [|a l IH]; simpl; [by rewrite decide_True|].
  rewrite not_elem_of_cons. intros [Hne Hni].
  rewrite decide_False by congruence. by rewrite IH.
Qed.

Lemma split_elem c s w : w ∈ split c s → c ∉ w.
Proof.
  revert w. induction s as [|a s IH]; intros w; simpl.
  - intros ->%list_elem_of_singleton. apply not_elem_of_nil.
  - case_decide as Hd.
    + intros [->|Hw]%elem_of_cons; [apply not_elem_of_nil|eauto].
    + destruct (split c s) as [|x ws] eqn:E; [by apply split_not_nil in E|].
      intros [->|Hw]%elem_of_cons.
      * rewrite not_elem_of_cons. split; [congruence|]. apply IH. by left.
      * apply IH. by right.
Qed.

(** ** Facts about trimming *)

Lemma rev_last {A} (s : list A) a : last s = Some a ↔ ∃ l, s = l ++ [a].
Proof.
  destruct s as [|x s _] using rev_ind; [split; [done|by intros [[|] ?]]|].
  rewrite last_snoc. split; [intros [= ->]; eauto|].
  intros [l [_ ->]%app_inj_tail]. done.
Qed.

Lemma trim_start_matches_app f w s :
  forallb f w = true → trim_start_matches f (w ++ s) = trim_start_matches f s.
Proof. induction w as [|a w IH]; [done|]. simpl. by intros [-> Hw]%andb_true_iff; auto. Qed.

Lemma trim_start_matches_spec f s :
  ∃ w, s = w ++ trim_start_matches f s ∧ forallb f w = true
       ∧ ∀ a t, trim_start_matches f s = a :: t → f a = false.
Proof.
  induction s as [|a s (w & Hs & Hw & Hh)]; [by exists []|].
  simpl. destruct (f a) eqn:E.
  - exists (a :: w). simpl. rewrite E. split; [by f_equal|auto].
  - exists []. split; [done|]. split; [done|]. by intros ?? [= -> _].
Qed.

Lemma trim_end_matches_spec f s :
  ∃ w, s = trim_end_matches f s ++ w ∧ forallb f w = true
       ∧ ∀ a, last (trim_end_matches f s) = Some a → f a = false.
Proof.
  unfold trim_end_matches.
  destruct (trim_start_matches_spec f (rev s)) as (w & Hs & Hw & Hh).
  exists (rev w). split; [|split].
  - by rewrite <- rev_app_distr, <- Hs, rev_involutive.
  - apply forallb_elem. intros x Hx. rewrite forallb_elem in Hw. apply Hw.
    rewrite list_elem_of_In in Hx |- *. by apply in_rev.
  - intros a [l Hl]%rev_last. apply (Hh a (rev l)).
    apply (f_equal (@rev _)) in Hl. by rewrite rev_involutive, rev_app_distr in Hl.
Qed.

Lemma trim_end_matches_app f s w :
  forallb f w = true → trim_end_matches f (s ++ w) = trim_end_matches f s.
Proof.
  intros Hw. unfold trim_end_matches. rewrite rev_app_distr, trim_start_matches_app; [done|].
  apply forallb_elem. intros x Hx. rewrite forallb_elem in Hw. apply Hw.
  rewrite list_elem_of_In in Hx |- *. by apply in_rev.
Qed.

Lemma trim_end_matches_id f s :
  (∀ a, last s = Some a → f a = false) → trim_end_matches f s = s.
Proof.
  intros H. unfold trim_end_matches.
  destruct s as [|x s _] using rev_ind; [done|].
  rewrite rev_app_distr. simpl. rewrite H by apply last_snoc.
  simpl. by rewrite rev_involutive.
Qed.

Lemma ws_head_ascii a s : is_ascii a = true → ws_head (a :: s) = if is_ascii_ws a then 1 else 0.
Proof.
  intros Ha. destruct (is_ascii_ws a) eqn:E; destruct s as [|b [|c s]]; simpl; rewrite E; try done.
  all: assert (Hc : ws2 (ord a) (ord b) = false)
    by (unfold ws2; unfold is_ascii in Ha; apply andb_false_iff; left; lia).
  all: rewrite Hc; try done.
  assert (Hd : ws3 (ord a) (ord b) (ord c) = false); [|by rewrite Hd].
  unfold ws3; unfold is_ascii in Ha; rewrite !orb_false_iff, !andb_false_iff. lia.
Qed.

Lemma ws_tail_ascii a s : is_ascii a = true → ws_tail (a :: s) = if is_ascii_ws a then 1 else 0.
Proof.
  intros Ha. destruct (is_ascii_ws a) eqn:E; destruct s as [|b [|c s]]; simpl; rewrite E; try done.
  all: assert (Hc : ws2 (ord b) (ord a) = false)
    by (unfold ws2; unfold is_ascii in Ha; rewrite andb_false_iff, orb_false_iff; lia).
  all: rewrite Hc; try done.
  assert (Hd : ws3 (ord c) (ord b) (ord a) = false); [|by rewrite Hd].
  unfold ws3; unfold is_ascii in Ha.
  rewrite !orb_false_iff, !andb_false_iff, !orb_false_iff, !andb_false_iff. lia.
Qed.

Lemma is_ascii_ws_is_ascii a : is_ascii_ws a = true → is_ascii a = true.
Proof. byte_cases a. Qed.

(** What [ws_head] and [ws_tail] share, enough for the trimming loop. *)
Class WsScan (h : str → nat) : Prop := {
  ws_scan_nil : h [] = 0;
  ws_scan_le s : h s ≤ length s;
  ws_scan_ascii a s : is_ascii a = true → h (a :: s) = if is_ascii_ws a then 1 else 0;
  ws_scan_ws a s : h (a :: s) = 0 → is_ascii_ws a = false;
}.

#[export] Instance ws_head_scan : WsScan ws_head.
Proof.
  split; [done| |apply ws_head_ascii|].
  - intros [|a [|b [|c s]]]; simpl; repeat case_match; lia.
  - intros a s. destruct (is_ascii_ws a) eqn:E; [|done].
    rewrite ws_head_ascii, E by (by apply is_ascii_ws_is_ascii). done.
Qed.

#[export] Instance ws_tail_scan : WsScan ws_tail.
Proof.
  split; [done| |apply ws_tail_ascii|].
  - intros [|a [|b [|c s]]]; simpl; repeat case_match; lia.
  - intros a s. destruct (is_ascii_ws a) eqn:E; [|done].
    rewrite ws_tail_ascii, E by (by apply is_ascii_ws_is_ascii). done.
Qed.

Section strip_ws.
Context (h : str → nat) `{!WsScan h}.

Lemma strip_ws_drop fuel s : ∃ k, strip_ws h fuel s = drop k s.
Proof using Type.
  revert s. induction fuel as [|f IH]; intros s; simpl; [by exists 0|].
  destruct (h s) as [|k]; [by exists 0|].
  destruct (IH (drop (S k) s)) as [j ->]. exists (S k + j). by rewrite drop_drop.
Qed.

Lemma strip_ws_done fuel s : length s ≤ fuel → h (strip_ws h fuel s) = 0.
Proof using WsScan0.
  revert s. induction fuel as [|f IH]; intros s Hl; simpl.
  - destruct s; [apply ws_scan_nil|simpl in Hl; lia].
  - destruct (h s) as [|k] eqn:E; [done|]. apply IH.
    pose proof (ws_scan_le s). rewrite length_drop. lia.
Qed.

Lemma strip_ws_stop fuel s : h s = 0 → strip_ws h fuel s = s.
Proof using Type. destruct fuel; simpl; [done|]. by intros ->. Qed.

Lemma strip_ws_pad w s fuel :
  forallb is_ascii_ws w = true → h s = 0 → length w ≤ fuel →
  strip_ws h fuel (w ++ s) = s.
Proof using WsScan0.
  revert fuel. induction w as [|a w IH]; intros fuel Hw Hs Hf; simpl.
  - by apply strip_ws_stop.
  - simpl in Hw, Hf. apply andb_true_iff in Hw as [Ha Hw].
    destruct fuel as [|f]; [lia|]. simpl.
    rewrite ws_scan_ascii, Ha by (by apply is_ascii_ws_is_ascii).
    apply IH; [done..|lia].
Qed.
End strip_ws.

Lemma trim_sub s : ∃ l r, s = l ++ trim s ++ r.
Proof.
  unfold trim, trim_end, trim_start.
  destruct (strip_ws_drop ws_head (length s) s) as [k Hk]. rewrite Hk.
  set (t := drop k s).
  destruct (strip_ws_drop ws_tail (length t) (rev t)) as [j Hj]. rewrite Hj.
  exists (take k s), (rev (take j (rev t))).
  rewrite <- rev_app_distr, take_drop, rev_involutive. symmetry. apply take_drop.
Qed.

Lemma trim_prefix s : ∃ r, trim_start s = trim s ++ r.
Proof.
  unfold trim, trim_end. set (t := trim_start s).
  destruct (strip_ws_drop ws_tail (length t) (rev t)) as [j Hj]. rewrite Hj.
  exists (rev (take j (rev t))).
  by rewrite <- rev_app_distr, take_drop, rev_involutive.
Qed.

(** What is left after [trim] neither starts nor ends with ASCII white space. *)
Lemma trim_head s a t : trim s = a :: t → is_ascii_ws a = false.
Proof.
  intros Ht. destruct (trim_prefix s) as [r Hr]. rewrite Ht in Hr.
  eapply (ws_scan_ws (h:=ws_head)). rewrite <- app_comm_cons in Hr.
  rewrite <- Hr. unfold trim_start. apply strip_ws_done; [apply _|done].
Qed.

Lemma trim_last s a : last (trim s) = Some a → is_ascii_ws a = false.
Proof.
  unfold trim, trim_end. set (t := trim_start s). intros [l Hl]%rev_last.
  apply (f_equal (@rev _)) in Hl. rewrite rev_involutive, rev_app_distr in Hl. simpl in Hl.
  eapply (ws_scan_ws (h:=ws_tail)). rewrite <- Hl. apply strip_ws_done; [apply _|].
  by rewrite length_rev.
Qed.

(** A text whose first and last bytes are ASCII and not white space. *)
Definition tight (s : str) : Prop :=
  (∀ a t, s = a :: t → is_ascii a = true ∧ is_ascii_ws a = false) ∧
  (∀ a, last s = Some a → is_ascii a = true ∧ is_ascii_ws a = false).

Lemma trim_pad w1 s w2 :
  forallb is_ascii_ws w1 = true → forallb is_ascii_ws w2 = true →
  s ≠ [] → tight s → trim (w1 ++ s ++ w2) = s.
Proof.
  intros H1 H2 Hne [Hh Hl].
  assert (trim_start (w1 ++ s ++ w2) = s ++ w2) as Hs.
  { unfold trim_start. apply strip_ws_pad; [apply _|done| |rewrite length_app; lia].
    destruct s as [|a s]; [done|]. destruct (Hh a s eq_refl) as [Ha Hw].
    simpl app. by rewrite ws_head_ascii, Hw. }
  unfold trim, trim_end. rewrite Hs, rev_app_distr.
  rewrite strip_ws_pad; [apply rev_involutive|apply _| | |].
  - apply forallb_elem. intros x Hx. rewrite forallb_elem in H2. apply H2.
    rewrite list_elem_of_In in Hx |- *. by apply in_rev.
  - destruct s as [|x s _] using rev_ind; [done|]. rewrite rev_app_distr.
    change (rev [x] ++ rev s) with (x :: rev s).
    destruct (Hl x) as [Ha Hw]; [apply last_snoc|]. by rewrite ws_tail_ascii, Hw.
  - rewrite length_app, length_rev. lia.
Qed.

Lemma trim_tight s : tight s → trim s = s.
Proof.
  intros Ht. destruct s as [|a s]; [done|].
  rewrite <- (trim_pad [] (a :: s) []) at 2; [|done..]. simpl. by rewrite app_nil_r.
Qed.

(** ** Facts about decimal text *)

Lemma ord_chr z : (0 ≤ z < 256)%Z → ord (chr z) = z.
Proof.
  intros Hz. unfold ord, chr. rewrite Stdlib.Strings.Ascii.N_ascii_embedding; lia.
Qed.

Lemma digits_value_snoc s a : digits_value (s ++ [a]) = (10 * digits_value s + (ord a - 48))%Z.
Proof. unfold digits_value. by rewrite fold_left_app. Qed.

Lemma ord_digit d : (0 ≤ d < 10)%Z → ord (digit d) = (48 + d)%Z.
Proof. intros. apply ord_chr. lia. Qed.

Lemma is_ascii_digit_digit d : (0 ≤ d < 10)%Z → is_ascii_digit (digit d) = true.
Proof. intros. unfold is_ascii_digit. rewrite ord_digit by done. lia. Qed.

Lemma dec_go_spec f n :
  (0 ≤ n < 10 ^ Z.of_nat f)%Z → f ≠ O →
  digits_value (dec_go f n) = n ∧ forallb is_ascii_digit (dec_go f n) = true ∧ dec_go f n ≠ [].
Proof.
  revert n. induction f as [|f IH]; intros n Hn Hf; [done|]. simpl.
  destruct (Z.ltb_spec n 10).
  - split_and!; [|simpl; by rewrite is_ascii_digit_digit by lia|done].
    unfold digits_value; simpl. rewrite ord_digit by lia. lia.
  - destruct (decide (f = O)) as [->|Hf']; [simpl in Hn; lia|].
    assert (0 ≤ n / 10 < 10 ^ Z.of_nat f)%Z as Hq.
    { rewrite Nat2Z.inj_succ, Z.pow_succ_r in Hn by lia.
      split; [apply Z.div_pos; lia|]. apply Z.div_lt_upper_bound; lia. }
    destruct (IH _ Hq Hf') as (Hv & Hd & _).
    pose proof (Z.mod_pos_bound n 10 ltac:(lia)).
    split_and!.
    + rewrite digits_value_snoc, Hv, ord_digit by lia. pose proof (Z.div_mod n 10). lia.
    + rewrite forallb_app, Hd. simpl. by rewrite is_ascii_digit_digit by lia.
    + by destruct (dec_go f (n / 10)).
Qed.

Lemma dec_spec n :
  (0 ≤ n ≤ u64_max)%Z →
  digits_value (dec n) = n ∧ forallb is_ascii_digit (dec n) = true ∧ dec n ≠ [].
Proof. intros Hn. apply dec_go_spec; [|done]. unfold u64_max in Hn. simpl. lia. Qed.

Lemma dec_inj n m : (0 ≤ n ≤ u64_max)%Z → (0 ≤ m ≤ u64_max)%Z → dec n = dec m → n = m.
Proof.
  intros Hn Hm He. destruct (dec_spec n Hn) as [<- _]. destruct (dec_spec m Hm) as [<- _].
  by rewrite He.
Qed.

Lemma digits_not_plus s a t :
  forallb is_ascii_digit s = true → s = a :: t → a ≠ "+"%char.
Proof. intros Hd -> ->. simpl in Hd. by vm_compute in Hd. Qed.

Lemma parse_u16_digits s :
  forallb is_ascii_digit s = true → s ≠ [] →
  parse_u16 s = if (digits_value s <=? u16_max)%Z then Some (digits_value s) else None.
Proof.
  intros Hd Hne. unfold parse_u16.
  assert (match s with
          | a :: (_ :: _) as r => if decide (a = "+"%char) then tail s else s
          | _ => s end = s) as ->.
  { destruct s as [|a [|c t]]; [done|done|].
    rewrite decide_False; [done|]. by eapply digits_not_plus. }
  rewrite bool_decide_eq_false_2, Hd by done. done.
Qed.

(** Printing then parsing a port gives the port back. *)
Lemma parse_u16_dec p : (0 ≤ p ≤ u16_max)%Z → parse_u16 (dec p) = Some p.
Proof.
  intros Hp. destruct (dec_spec p) as (Hv & Hd & Hne); [unfold u16_max, u64_max in *; lia|].
  rewrite parse_u16_digits, Hv by done. destruct (Z.leb_spec p u16_max); [done|lia].
Qed.

Lemma digits_value_nonneg s : forallb is_ascii_digit s = true → (0 ≤ digits_value s)%Z.
Proof.
  induction s as [|a s IH] using rev_ind; [done|].
  rewrite forallb_app, andb_true_iff. simpl. intros [Hs Ha].
  rewrite digits_value_snoc. specialize (IH Hs). unfold is_ascii_digit in Ha. lia.
Qed.

Lemma parse_u16_bounds s p : parse_u16 s = Some p → (0 ≤ p ≤ u16_max)%Z.
Proof.
  unfold parse_u16. set (ds := match s with [] => _ | _ => _ end).
  destruct (bool_decide (ds = [])); [done|]. destruct (forallb is_ascii_digit ds) eqn:Hd; [|done].
  cbn [negb orb]. destruct (Z.leb_spec (digits_value ds) u16_max); [|done]. intros [= <-].
  split; [by apply digits_value_nonneg|done].
Qed.
