(* ===== verification/Crates.v ===== *)
(** * Interfaces of the crates the program calls

    Code outside the repository is a parameter here: a class with the
    operations the sources use, the documented behaviour the theorems rely on
    as its laws, and one concrete instance to run the witnesses on. *)

From S2P Require Import Prelude RustStr.

(** ** [rand]: the thread-local generator

    [random_range k n] is what the [k]-th call of [rng.random_range(0..n)]
    returns. *)
Class Rng := {
  random_range : nat → Z → Z;
  random_range_bounds k n : (0 < n)%Z → (0 ≤ random_range k n < n)%Z;
}.

Lemma modular_rng_bounds (k : nat) n : (0 < n)%Z → (0 ≤ (Z.of_nat k * 7) `mod` n < n)%Z.
Proof. intros Hn. by apply Z.mod_pos_bound. Qed.

Definition modular_rng : Rng := {|
  random_range k n := ((Z.of_nat k * 7) `mod` n)%Z;
  random_range_bounds := modular_rng_bounds;
|}.

(** ** [redis]: the server behind the shared routing table

    [rcontent s k] is the value of a key with the absolute time (in milliseconds)
    it expires at; the program never writes a key without one. [SET .. PX],
    [PEXPIRE] and [DEL] are documented by their effect on it; lifetimes reach the
    server through Lua's [tonumber], exact below 2^53. *)
Class RedisServer := {
  rstore : Type;
  rcontent : rstore → str → option (str * Z);
  rset_px : Z → str → str → Z → rstore → rstore;
  rpexpire : Z → str → Z → rstore → rstore;
  rdel : str → rstore → rstore;
  rset_px_content now k v px s k' :
    (0 < px < 2 ^ 53)%Z →
    rcontent (rset_px now k v px s) k' =
      if decide (k' = k) then Some (v, now + px)%Z else rcontent s k';
  rpexpire_content now k v e px s k' :
    (0 < px < 2 ^ 53)%Z → rcontent s k = Some (v, e) → (now < e)%Z →
    rcontent (rpexpire now k px s) k' =
      if decide (k' = k) then Some (v, now + px)%Z else rcontent s k';
  rdel_content k s k' :
    rcontent (rdel k s) k' = if decide (k' = k) then None else rcontent s k';
}.

(** [GET] at time [now]. *)
Definition rget `{RedisServer} (now : Z) (k : str) (s : rstore) : option str :=
  match rcontent s k with
  | Some (v, e) => if (now <? e)%Z then Some v else None
  | None => None
  end.

(** A server that keeps its keys in a finite map. *)
Lemma map_redis_set (now : Z) (k v : str) (px : Z) (s : gmap str (str * Z)) (k' : str) :
  (0 < px < 2 ^ 53)%Z →
  <[k := (v, (now + px)%Z)]> s !! k' = if decide (k' = k) then Some (v, now + px)%Z else s !! k'.
Proof. intros _. rewrite lookup_insert. repeat case_decide; congruence. Qed.

Lemma map_redis_pexpire (now : Z) (k v : str) (e px : Z) (s : gmap str (str * Z)) (k' : str) :
  (0 < px < 2 ^ 53)%Z → s !! k = Some (v, e) → (now < e)%Z →
  alter (λ p, (p.1, (now + px)%Z)) k s !! k' =
    if decide (k' = k) then Some (v, now + px)%Z else s !! k'.
Proof.
  intros _ Hk _. rewrite lookup_alter. repeat case_decide; try congruence. subst. by rewrite Hk.
Qed.

Lemma map_redis_del (k : str) (s : gmap str (str * Z)) (k' : str) :
  delete k s !! k' = if decide (k' = k) then None else s !! k'.
Proof. rewrite lookup_delete. repeat case_decide; congruence. Qed.

Definition map_redis : RedisServer := {|
  rstore := gmap str (str * Z);
  rcontent s k := s !! k;
  rset_px now k v px s := <[k := (v, (now + px)%Z)]> s;
  rpexpire now k px s := alter (λ p, (p.1, (now + px)%Z)) k s;
  rdel k s := delete k s;
  rset_px_content := map_redis_set;
  rpexpire_content := map_redis_pexpire;
  rdel_content := map_redis_del;
|}.

(** ** [http]: header maps and the validation of names, values and statuses

    [hm_iter] is the map's iteration; [get_all] and the other lookups read the
    values it yields for a name. A name is held in lower case; a name or value
    in a map was validated on the way in. A value's bytes are 32 to 255 without
    127, or a tab; [HeaderValue::to_str] needs visible ASCII or a tab. *)
Definition header_value_byte (a : ascii) : bool :=
  ((32 <=? ord a)%Z && negb (ord a =? 127)%Z) || (ord a =? 9)%Z.

Definition visible_byte (a : ascii) : bool :=
  ((32 <=? ord a)%Z && (ord a <? 127)%Z) || (ord a =? 9)%Z.

(** An HTTP token (RFC 9110), in lower case. *)
Definition token_byte (a : ascii) : bool :=
  is_ascii_digit a || is_ascii_lowercase a || is_ascii_uppercase a ||
  existsb (λ c, bool_decide (a = c))
    ["!"; "#"; "$"; "%"; "&"; "'"; "*"; "+"; "-"; "."; "^"; "_"; "`"; "|"; "~"]%char.

Definition token_name (s : str) : option str :=
  if forallb token_byte s && negb (bool_decide (s = []))
  then Some (to_ascii_lowercase s) else None.

Class HttpCrate := {
  HeaderMap : Type;
  hm_new : HeaderMap;
  hm_append : str → str → HeaderMap → HeaderMap;
  hm_insert : str → str → HeaderMap → HeaderMap;
  hm_iter : HeaderMap → list (str * str);
  header_name : str → option str;
  header_value : str → option str;
  value_to_str : str → option str;
  status_from_u16 : Z → option Z;
  hm_new_iter : hm_iter hm_new = [];
  hm_append_iter n v m n' :
    header_name n = Some n → header_value v = Some v →
    (filter (λ p, p.1 = n') (hm_iter (hm_append n v m))).*2 =
      (filter (λ p, p.1 = n') (hm_iter m)).*2 ++ (if decide (n' = n) then [v] else []);
  hm_insert_iter n v m n' :
    header_name n = Some n → header_value v = Some v →
    (filter (λ p, p.1 = n') (hm_iter (hm_insert n v m))).*2 =
      if decide (n' = n) then [v] else (filter (λ p, p.1 = n') (hm_iter m)).*2;
  hm_iter_valid m n v :
    (n, v) ∈ hm_iter m → header_name n = Some n ∧ header_value v = Some v;
  header_name_lower s n :
    header_name s = Some n → n = to_ascii_lowercase s ∧ header_name n = Some n;
  header_name_token s : (byte_len s ≤ 65535)%Z → header_name s = token_name s;
  header_value_spec v : header_value v = if forallb header_value_byte v then Some v else None;
  value_to_str_spec v : value_to_str v = if forallb visible_byte v then Some v else None;
  status_from_u16_spec n :
    status_from_u16 n = if ((100 <=? n)%Z && (n <? 1000)%Z) then Some n else None;
}.

Section headers.
Context `{HttpCrate}.

Definition hm_get_all (n : str) (m : HeaderMap) : list str :=
  (filter (λ p, p.1 = n) (hm_iter m)).*2.

Definition hm_get (n : str) (m : HeaderMap) : option str := head (hm_get_all n m).

Definition hm_contains_key (n : str) (m : HeaderMap) : bool :=
  negb (bool_decide (hm_get_all n m = [])).

Lemma hm_get_all_new n : hm_get_all n hm_new = [].
Proof using Type. unfold hm_get_all. by rewrite hm_new_iter. Qed.

Lemma hm_get_all_append n v m n' :
  header_name n = Some n → header_value v = Some v →
  hm_get_all n' (hm_append n v m) = hm_get_all n' m ++ (if decide (n' = n) then [v] else []).
Proof using Type. apply hm_append_iter. Qed.

Lemma hm_get_all_insert n v m n' :
  header_name n = Some n → header_value v = Some v →
  hm_get_all n' (hm_insert n v m) = if decide (n' = n) then [v] else hm_get_all n' m.
Proof using Type. apply hm_insert_iter. Qed.

Lemma hm_get_all_valid n m v :
  v ∈ hm_get_all n m → header_name n = Some n ∧ header_value v = Some v.
Proof using Type.
  unfold hm_get_all. intros [[n' v'] [-> Hp]]%list_elem_of_fmap.
  apply list_elem_of_filter in Hp as [Hn Hp]. simpl in *. subst. by eapply hm_iter_valid.
Qed.
End headers.

(** Header maps as lists of valid pairs in insertion order. *)
Definition valid_header (p : str * str) : bool :=
  bool_decide (token_name p.1 = Some p.1) && forallb header_value_byte p.2.

Definition header_list : Type := { l : list (str * str) | Is_true (forallb valid_header l) }.

Lemma header_list_snoc l p :
  Is_true (forallb valid_header l) → Is_true (valid_header p) →
  Is_true (forallb valid_header (l ++ [p])).
Proof. rewrite forallb_app. simpl. rewrite andb_true_r. intros ? ?. by apply andb_True. Qed.

Lemma header_list_filter P `{!∀ p, Decision (P p)} l :
  Is_true (forallb valid_header l) → Is_true (forallb valid_header (filter P l)).
Proof.
  intros Hl%Is_true_eq_true. apply Is_true_eq_left. apply forallb_elem. intros x Hx.
  apply list_elem_of_filter in Hx as [_ Hx]. by apply (proj1 (forallb_elem valid_header l) Hl).
Qed.

Definition header_list_append (n v : str) (m : header_list) : header_list :=
  match decide (Is_true (valid_header (n, v))) with
  | left Hv => exist _ (proj1_sig m ++ [(n, v)]) (header_list_snoc _ _ (proj2_sig m) Hv)
  | right _ => m
  end.

Definition header_list_insert (n v : str) (m : header_list) : header_list :=
  header_list_append n v
    (exist _ (filter (λ p, p.1 ≠ n) (proj1_sig m)) (header_list_filter _ _ (proj2_sig m))).

Lemma token_name_lower s n :
  token_name s = Some n → n = to_ascii_lowercase s ∧ token_name n = Some n.
Proof.
  unfold token_name. destruct (forallb token_byte s) eqn:Ht; [|done].
  case_bool_decide as Hs; [done|]. simpl. intros [= <-]. split; [done|].
  rewrite bool_decide_eq_false_2, to_lower_idem by (by destruct s).
  replace (forallb token_byte (to_ascii_lowercase s)) with true; [done|]. symmetry.
  apply forallb_elem. intros x [a [-> Ha]]%list_elem_of_fmap.
  apply (proj1 (forallb_elem _ _)) with (x := a) in Ht; [|done].
  revert Ht. clear. unfold token_byte. byte_cases a.
Qed.

Lemma valid_header_spec n v :
  Is_true (valid_header (n, v)) ↔
  token_name n = Some n ∧ (if forallb header_value_byte v then Some v else None) = Some v.
Proof.
  unfold valid_header. simpl. rewrite andb_True, bool_decide_spec.
  by destruct (forallb header_value_byte v); intuition.
Qed.

Lemma header_list_append_iter n v (m : header_list) n' :
  Is_true (valid_header (n, v)) →
  (filter (λ p, p.1 = n') (proj1_sig (header_list_append n v m))).*2 =
    (filter (λ p, p.1 = n') (proj1_sig m)).*2 ++ (if decide (n' = n) then [v] else []).
Proof.
  intros Hv. unfold header_list_append. destruct (decide _); [|done]. simpl.
  rewrite filter_app, fmap_app, filter_cons. simpl.
  destruct (decide (n = n')), (decide (n' = n)); congruence || done.
Qed.

Lemma header_list_append_law n v (m : header_list) n' :
  token_name n = Some n → (if forallb header_value_byte v then Some v else None) = Some v →
  (filter (λ p, p.1 = n') (proj1_sig (header_list_append n v m))).*2 =
    (filter (λ p, p.1 = n') (proj1_sig m)).*2 ++ (if decide (n' = n) then [v] else []).
Proof. intros Hn Hv. apply header_list_append_iter. by apply valid_header_spec. Qed.

Lemma header_list_insert_law n v (m : header_list) n' :
  token_name n = Some n → (if forallb header_value_byte v then Some v else None) = Some v →
  (filter (λ p, p.1 = n') (proj1_sig (header_list_insert n v m))).*2 =
    if decide (n' = n) then [v] else (filter (λ p, p.1 = n') (proj1_sig m)).*2.
Proof.
  intros Hn Hv. unfold header_list_insert.
  rewrite header_list_append_iter by (by apply valid_header_spec). simpl. case_decide as Hd.
  - replace (filter _ (filter _ _)) with (@nil (str * str)); [done|]. symmetry.
    subst n'. generalize (proj1_sig m). intros l.
    destruct (filter _ (filter _ l)) as [|p l'] eqn:E; [done|].
    assert (p ∈ filter (λ p, p.1 = n) (filter (λ p, p.1 ≠ n) l)) as Hp by (rewrite E; left).
    apply list_elem_of_filter in Hp as [? Hp]. by apply list_elem_of_filter in Hp as [? _].
  - rewrite app_nil_r, list_filter_filter_l; [done|]. intros [] ?; simpl in *; congruence.
Qed.

Lemma header_list_valid (m : header_list) n v :
  (n, v) ∈ proj1_sig m →
  token_name n = Some n ∧ (if forallb header_value_byte v then Some v else None) = Some v.
Proof.
  destruct m as [l Hl]. simpl. intros Hp. apply valid_header_spec. apply Is_true_eq_left.
  apply (proj1 (forallb_elem valid_header l)); [by apply Is_true_eq_true|done].
Qed.

Definition list_http : HttpCrate := {|
  HeaderMap := header_list;
  hm_new := exist _ [] I;
  hm_append := header_list_append;
  hm_insert := header_list_insert;
  hm_iter m := proj1_sig m;
  header_name := token_name;
  header_value v := if forallb header_value_byte v then Some v else None;
  value_to_str v := if forallb visible_byte v then Some v else None;
  status_from_u16 n := if ((100 <=? n)%Z && (n <? 1000)%Z) then Some n else None;
  hm_new_iter := eq_refl;
  hm_append_iter := header_list_append_law;
  hm_insert_iter := header_list_insert_law;
  hm_iter_valid := header_list_valid;
  header_name_lower := token_name_lower;
  header_name_token _ _ := eq_refl;
  header_value_spec _ := eq_refl;
  value_to_str_spec _ := eq_refl;
  status_from_u16_spec _ := eq_refl;
|}.

(** ** [dashmap]: iteration in an unspecified order *)
Class MapIteration := {
  map_iter {K} `{Countable K} {A} : gmap K A → list (K * A);
  map_iter_perm {K} `{Countable K} {A} (m : gmap K A) : map_iter m ≡ₚ map_to_list m;
}.

Definition sorted_iteration : MapIteration.
Proof. by refine {| map_iter _ _ _ _ m := map_to_list m |}. Defined.

(** ** [tokio::sync]: semaphores and channels

    A poll returns [None] while it has to wait. The types are opaque; what the
    theorems use is the effect of each call on the documented view of an object,
    given by the [_spec] functions. *)

(** [Semaphore]: available permits, and whether [close] was called. *)
Record sem_state := mkSem { sem_permits : Z; sem_closed : bool }.

(** [usize::MAX >> 3]. *)
Definition MAX_PERMITS : Z := 2305843009213693951.

(** [acquire_many(n)] then [forget]: the permits are gone, or the semaphore is closed. *)
Definition acquire_spec (n : Z) (s : sem_state) : option (sem_state * bool) :=
  if sem_closed s then Some (s, false)
  else if (n <=? sem_permits s)%Z then Some (mkSem (sem_permits s - n) false, true)
  else None.

(** [add_permits(n)] panics above [MAX_PERMITS]. *)
Definition add_permits_spec (n : Z) (s : sem_state) : option sem_state :=
  if (sem_permits s + n <=? MAX_PERMITS)%Z
  then Some (mkSem (sem_permits s + n) (sem_closed s)) else None.

Definition close_spec (s : sem_state) : sem_state := mkSem (sem_permits s) true.

(** [mpsc::channel]: what is queued, the capacity, the live senders, and whether
    the receiver is alive. *)
Record chan_state (A : Type) := mkChan {
  ch_queue : list A; ch_capacity : nat; ch_senders : nat; ch_receiver : bool }.
Arguments mkChan {A}.
Arguments ch_queue {A}.
Arguments ch_capacity {A}.
Arguments ch_senders {A}.
Arguments ch_receiver {A}.

Definition send_spec {A} (x : A) (c : chan_state A) : option (chan_state A * bool) :=
  if negb (ch_receiver c) then Some (c, false)
  else if decide (length (ch_queue c) < ch_capacity c)
  then Some (mkChan (ch_queue c ++ [x]) (ch_capacity c) (ch_senders c) true, true)
  else None.

(** [try_send] reports a full queue like a closed one. *)
Definition try_send_spec {A} (x : A) (c : chan_state A) : chan_state A * bool :=
  default (c, false) (send_spec x c).

Definition recv_spec {A} (c : chan_state A) : option (chan_state A * option A) :=
  match ch_queue c with
  | x :: q => Some (mkChan q (ch_capacity c) (ch_senders c) (ch_receiver c), Some x)
  | [] => if decide (ch_senders c = 0) then Some (c, None) else None
  end.

Definition clone_tx_spec {A} (c : chan_state A) : chan_state A :=
  mkChan (ch_queue c) (ch_capacity c) (S (ch_senders c)) (ch_receiver c).
Definition drop_tx_spec {A} (c : chan_state A) : chan_state A :=
  mkChan (ch_queue c) (ch_capacity c) (pred (ch_senders c)) (ch_receiver c).
Definition drop_rx_spec {A} (c : chan_state A) : chan_state A :=
  mkChan [] (ch_capacity c) (ch_senders c) false.

(** [oneshot::channel]: the value sent, and whether each end is alive. *)
Record oneshot_state (A : Type) := mkOneshot {
  os_value : option A; os_sender : bool; os_receiver : bool }.
Arguments mkOneshot {A}.
Arguments os_value {A}.
Arguments os_sender {A}.
Arguments os_receiver {A}.

Definition os_send_spec {A} (x : A) (c : oneshot_state A) : oneshot_state A :=
  mkOneshot (if os_receiver c then Some x else None) false (os_receiver c).
Definition os_drop_tx_spec {A} (c : oneshot_state A) : oneshot_state A :=
  mkOneshot (os_value c) false (os_receiver c).
Definition os_drop_rx_spec {A} (c : oneshot_state A) : oneshot_state A :=
  mkOneshot None (os_sender c) false.
(** Awaiting the receiver: the value, or an error once the sender is gone. *)
Definition os_recv_spec {A} (c : oneshot_state A) : option (option A) :=
  match os_value c with
  | Some x => Some (Some x)
  | None => if os_sender c then None else Some None
  end.

Class Tokio := {
  semaphore : Type;
  sem_view : semaphore → sem_state;
  sem_new : Z → semaphore;
  sem_acquire_many : Z → semaphore → option (semaphore * bool);
  sem_add_permits : Z → semaphore → option semaphore;
  sem_close : semaphore → semaphore;
  sem_new_view n : sem_view (sem_new n) = mkSem n false;
  sem_acquire_view n s :
    prod_map sem_view id <$> sem_acquire_many n s = acquire_spec n (sem_view s);
  sem_add_view n s : sem_view <$> sem_add_permits n s = add_permits_spec n (sem_view s);
  sem_close_view s : sem_view (sem_close s) = close_spec (sem_view s);

  mpsc : Type → Type;
  ch_view {A} : mpsc A → chan_state A;
  ch_channel {A} : nat → mpsc A;
  ch_send {A} : A → mpsc A → option (mpsc A * bool);
  ch_try_send {A} : A → mpsc A → mpsc A * bool;
  ch_recv {A} : mpsc A → option (mpsc A * option A);
  ch_clone_tx {A} : mpsc A → mpsc A;
  ch_drop_tx {A} : mpsc A → mpsc A;
  ch_drop_rx {A} : mpsc A → mpsc A;
  ch_channel_view {A} n : ch_view (ch_channel (A:=A) n) = mkChan [] n 1 true;
  ch_send_view {A} (x : A) c : prod_map ch_view id <$> ch_send x c = send_spec x (ch_view c);
  ch_try_send_view {A} (x : A) c :
    prod_map ch_view id (ch_try_send x c) = try_send_spec x (ch_view c);
  ch_recv_view {A} (c : mpsc A) : prod_map ch_view id <$> ch_recv c = recv_spec (ch_view c);
  ch_clone_view {A} (c : mpsc A) : ch_view (ch_clone_tx c) = clone_tx_spec (ch_view c);
  ch_drop_tx_view {A} (c : mpsc A) : ch_view (ch_drop_tx c) = drop_tx_spec (ch_view c);
  ch_drop_rx_view {A} (c : mpsc A) : ch_view (ch_drop_rx c) = drop_rx_spec (ch_view c);

  oneshot : Type → Type;
  os_view {A} : oneshot A → oneshot_state A;
  os_channel {A} : oneshot A;
  os_send {A} : A → oneshot A → oneshot A;
  os_drop_tx {A} : oneshot A → oneshot A;
  os_drop_rx {A} : oneshot A → oneshot A;
  os_recv {A} : oneshot A → option (option A);
  os_channel_view {A} : os_view (os_channel (A:=A)) = mkOneshot None true true;
  os_send_view {A} (x : A) c : os_view (os_send x c) = os_send_spec x (os_view c);
  os_drop_tx_view {A} (c : oneshot A) : os_view (os_drop_tx c) = os_drop_tx_spec (os_view c);
  os_drop_rx_view {A} (c : oneshot A) : os_view (os_drop_rx c) = os_drop_rx_spec (os_view c);
  os_recv_view {A} (c : oneshot A) : os_recv c = os_recv_spec (os_view c);
}.

(** A channel keeps the capacity it was made with. *)
Section capacity.
Context `{Tokio} {A : Type}.
Definition capacity (c : mpsc A) : nat := ch_capacity (ch_view c).

Lemma send_capacity x c c' ok : ch_send x c = Some (c', ok) → capacity c' = capacity c.
Proof using Type.
  intros Hs. pose proof (ch_send_view x c) as Hv. rewrite Hs in Hv. simpl in Hv. unfold capacity, send_spec in *.
  destruct (negb _); [by injection Hv as ->|]. destruct (decide _); [|done]. by injection Hv as ->.
Qed.

Lemma try_send_capacity x c : capacity (ch_try_send x c).1 = capacity c.
Proof using Type.
  pose proof (f_equal fst (ch_try_send_view x c)) as Hv. simpl in Hv. unfold capacity.
  rewrite Hv. unfold try_send_spec, send_spec. by repeat case_match.
Qed.

Lemma recv_capacity c c' x : ch_recv c = Some (c', x) → capacity c' = capacity c.
Proof using Type.
  intros Hr. pose proof (ch_recv_view c) as Hv. rewrite Hr in Hv. simpl in Hv. unfold capacity, recv_spec in *.
  destruct (ch_queue _); [|by injection Hv as ->]. destruct (decide _); [|done]. by injection Hv as ->.
Qed.

Lemma clone_capacity c : capacity (ch_clone_tx c) = capacity c.
Proof using Type. unfold capacity. by rewrite ch_clone_view. Qed.
Lemma drop_tx_capacity c : capacity (ch_drop_tx c) = capacity c.
Proof using Type. unfold capacity. by rewrite ch_drop_tx_view. Qed.
Lemma drop_rx_capacity c : capacity (ch_drop_rx c) = capacity c.
Proof using Type. unfold capacity. by rewrite ch_drop_rx_view. Qed.
End capacity.

(** The objects as their documented views. *)
Lemma view_option {A B} (o : option (A * B)) : prod_map id id <$> o = o.
Proof. by destruct o as [[]|]. Qed.

Lemma view_add n s : id <$> add_permits_spec n s = add_permits_spec n s.
Proof. by destruct (add_permits_spec n s). Qed.

Lemma view_pair {A B} (p : A * B) : prod_map id id p = p.
Proof. by destruct p. Qed.

Definition view_tokio : Tokio := {|
  semaphore := sem_state; sem_view := id; sem_new n := mkSem n false;
  sem_acquire_many := acquire_spec; sem_add_permits := add_permits_spec;
  sem_close := close_spec;
  sem_new_view _ := eq_refl;
  sem_acquire_view n s := view_option (acquire_spec n s);
  sem_add_view := view_add;
  sem_close_view _ := eq_refl;
  mpsc := chan_state; ch_view _ := id; ch_channel _ n := mkChan [] n 1 true;
  ch_send _ := send_spec; ch_try_send _ := try_send_spec; ch_recv _ := recv_spec;
  ch_clone_tx _ := clone_tx_spec; ch_drop_tx _ := drop_tx_spec; ch_drop_rx _ := drop_rx_spec;
  ch_channel_view _ _ := eq_refl;
  ch_send_view _ x c := view_option (send_spec x c);
  ch_try_send_view _ x c := view_pair (try_send_spec x c);
  ch_recv_view _ c := view_option (recv_spec c);
  ch_clone_view _ _ := eq_refl;
  ch_drop_tx_view _ _ := eq_refl;
  ch_drop_rx_view _ _ := eq_refl;
  oneshot := oneshot_state; os_view _ := id; os_channel _ := mkOneshot None true true;
  os_send _ := os_send_spec; os_drop_tx _ := os_drop_tx_spec;
  os_drop_rx _ := os_drop_rx_spec; os_recv _ := os_recv_spec;
  os_channel_view _ := eq_refl;
  os_send_view _ _ _ := eq_refl;
  os_drop_tx_view _ _ := eq_refl;
  os_drop_rx_view _ _ := eq_refl;
  os_recv_view _ _ := eq_refl;
|}.
