(* ===== verification/CoreError.v ===== *)
(** * [norupo-core/src/error.rs]: the shared error type *)

From S2P Require Import Prelude RustStr.

(** The payload of [Internal] is an [anyhow::Error], of which the crates only
    ever use the rendered text. *)
Inductive Error : Type :=
| RouteTaken (key : str)
| InvalidRoute (msg : str)
| Unauthorized (msg : str)
| LimitExceeded (msg : str)
| RegistryUnavailable (msg : str)
| Internal (msg : str).

#[export] Instance Error_eq_dec : EqDecision Error.
Proof. solve_decision. Defined.

Definition is_retryable (e : Error) : bool :=
  match e with
  | RegistryUnavailable _ | Internal _ => true
  | _ => false
  end.

Definition code (e : Error) : str :=
  match e with
  | RouteTaken _ => lit "route_taken"
  | InvalidRoute _ => lit "invalid_route"
  | Unauthorized _ => lit "unauthorized"
  | LimitExceeded _ => lit "limit_exceeded"
  | RegistryUnavailable _ => lit "registry_unavailable"
  | Internal _ => lit "internal"
  end.

(** The [Display] implementation derived by [thiserror]. *)
Definition error_to_string (e : Error) : str :=
  match e with
  | RouteTaken k => lit "routing key `" ++ k ++ lit "` is already claimed"
  | InvalidRoute m => lit "invalid routing target: " ++ m
  | Unauthorized m => lit "unauthorized: " ++ m
  | LimitExceeded m => lit "limit exceeded: " ++ m
  | RegistryUnavailable m => lit "routing table unavailable: " ++ m
  | Internal m => m
  end.

(** Number of bytes of the UTF-8 character that starts with byte [a]. *)
Definition utf8_len (a : ascii) : nat :=
  if (ord a <? 0x80)%Z then 1 else if (ord a <? 0xE0)%Z then 2
  else if (ord a <? 0xF0)%Z then 3 else 4.

(** [s.chars().take(n).collect()]. *)
Fixpoint take_chars (n : nat) (s : str) : str :=
  match n, s with
  | O, _ | _, [] => []
  | S n', a :: _ => take (utf8_len a) s ++ take_chars n' (drop (utf8_len a) s)
  end.

Definition redact (secret : str) : str :=
  take_chars 4 secret ++ lit "***(" ++ dec (byte_len secret) ++ lit " chars)".
