(* ===== verification/Routing.v ===== *)
(** * [norupo-core/src/routing.rs]: routing keys

    The canonical identity a public request is matched against: host
    normalisation, subdomain validation, and the public host names built from
    them. *)

From S2P Require Import Prelude RustStr Crates CoreError.

Definition MAX_LABEL_LEN : Z := 63.

Definition RESERVED_SUBDOMAINS : list str :=
  lit <$> ["www"; "api"; "admin"; "dashboard"; "app"; "status"; "docs"; "mail";
           "smtp"; "ns"; "ns1"; "ns2"; "mx"; "cdn"; "static"; "assets"; "edge";
           "control"; "grpc"; "internal"; "metrics"; "health"; "localhost";
           "test"; "support"; "billing"; "account"; "login"; "auth"; "security";
           "norupo"]%string.

Definition SUBDOMAIN_ALPHABET : str := lit "abcdefghijkmnpqrstuvwxyz23456789".
Definition GENERATED_SUBDOMAIN_LEN : nat := 12.

Inductive RoutingKey : Type :=
| Host (host : str)
| TcpPort (port : Z).

#[export] Instance RoutingKey_eq_dec : EqDecision RoutingKey.
Proof. solve_decision. Defined.

(** [Display], which [as_storage_key] renders. *)
Definition as_storage_key (k : RoutingKey) : str :=
  match k with
  | Host host => host
  | TcpPort port => lit "tcp:" ++ dec port
  end.

(** The [without_port] block of [normalize_host]. *)
Definition without_port (raw trimmed : str) : result str Error :=
  match strip_prefix (lit "[") trimmed with
  | Some rest =>
      match split_once "]" rest with
      | Some (addr, _) => Ok (take (length addr + 2) trimmed)
      | None => Err (InvalidRoute (lit "unterminated IPv6 host: " ++ raw))
      end
  | None =>
      match split_once ":" trimmed with
      | Some (host, port) =>
          if negb (bool_decide (port = [])) && negb (forallb is_ascii_digit port)
          then Err (InvalidRoute (lit "invalid port in host: " ++ raw))
          else Ok host
      | None => Ok trimmed
      end
  end.

Definition normalize_host (raw : str) : result str Error :=
  let trimmed := trim raw in
  if bool_decide (trimmed = []) then Err (InvalidRoute (lit "empty host")) else
  let? host := without_port raw trimmed in
  let without_root := trim_end_matches (is_char ".") host in
  if bool_decide (without_root = []) then Err (InvalidRoute (lit "empty host")) else
  let lowered := to_ascii_lowercase without_root in
  if negb (str_is_ascii lowered)
  then Err (InvalidRoute (lit "non-ASCII host (punycode it first): " ++ raw)) else
  if (253 <? byte_len lowered)%Z
  then Err (InvalidRoute (lit "host exceeds 253 characters")) else
  Ok lowered.

Definition routing_key_host (raw : str) : result RoutingKey Error :=
  let? h := normalize_host raw in Ok (Host h).

Definition is_reserved_subdomain (label : str) : bool :=
  existsb (λ reserved, eq_ignore_ascii_case reserved label) RESERVED_SUBDOMAINS.

Definition is_label_byte (b : ascii) : bool :=
  is_ascii_lowercase b || is_ascii_digit b || is_char "-" b.

Definition validate_subdomain_syntax (label : str) : result str Error :=
  let lowered := to_ascii_lowercase (trim label) in
  if bool_decide (lowered = [])
  then Err (InvalidRoute (lit "subdomain must not be empty")) else
  if (MAX_LABEL_LEN <? byte_len lowered)%Z
  then Err (InvalidRoute (lit "subdomain must be at most " ++ dec MAX_LABEL_LEN
                            ++ lit " characters")) else
  if negb (forallb is_label_byte lowered)
  then Err (InvalidRoute (lit "subdomain may only contain a-z, 0-9 and hyphen")) else
  if starts_with (lit "-") lowered || ends_with (lit "-") lowered
  then Err (InvalidRoute (lit "subdomain must not start or end with a hyphen")) else
  if starts_with (lit "xn--") lowered
  then Err (InvalidRoute (lit "subdomain must not use the punycode prefix")) else
  Ok lowered.

Definition validate_subdomain (label : str) : result str Error :=
  let? lowered := validate_subdomain_syntax label in
  if is_reserved_subdomain lowered
  then Err (InvalidRoute (lit "subdomain `" ++ lowered ++ lit "` is reserved"))
  else Ok lowered.

(** [seed] is the number of draws made before. *)
Definition random_subdomain `{Rng} (seed : nat) : str :=
  map (λ k, nth (Z.to_nat (random_range k (byte_len SUBDOMAIN_ALPHABET)))
                SUBDOMAIN_ALPHABET "a"%char)
      (seq seed GENERATED_SUBDOMAIN_LEN).

Definition public_host (subdomain base_domain : str) : result str Error :=
  let? label := validate_subdomain_syntax subdomain in
  let? base := normalize_host base_domain in
  let host := label ++ lit "." ++ base in
  if (253 <? byte_len host)%Z
  then Err (InvalidRoute (lit "resulting host is too long"))
  else Ok host.

Definition subdomain_of (host base_domain : str) : option str :=
  host ← res_ok (normalize_host host);
  base ← res_ok (normalize_host base_domain);
  rest ← strip_suffix base host;
  label ← strip_suffix (lit ".") rest;
  if bool_decide (label = []) || contains_char "." label then None else Some label.

(** ** Canonical hosts

    A host name as it is stored for a DNS tunnel: lower-case ASCII, at most 253
    bytes, no port, no root dot, no surrounding white space, not an IPv6
    literal. *)
Definition plain_host (h : str) : bool :=
  negb (bool_decide (h = [])) && str_is_ascii h
  && forallb (λ a, negb (is_ascii_uppercase a)) h
  && (byte_len h <=? 253)%Z
  && negb (contains_char ":" h)
  && match h with a :: _ => negb (is_char "[" a) && negb (is_ascii_ws a) | [] => false end
  && match last h with Some a => negb (is_char "." a) && negb (is_ascii_ws a) | None => false end.

(** The port suffix of a [Host] header: nothing, or a colon and digits. *)
Definition port_suffix (p : str) : bool :=
  match p with
  | [] => true
  | c :: ds => is_char ":" c && forallb is_ascii_digit ds
  end.

(** ** Lemmas *)

(** Splits the conjunction of tests [plain_host] is. *)
Lemma plain_host_inv h :
  plain_host h = true →
  h ≠ [] ∧ str_is_ascii h = true ∧ to_ascii_lowercase h = h ∧ (byte_len h ≤ 253)%Z ∧
  (":"%char ∉ h) ∧ tight h ∧ strip_prefix (lit "[") h = None ∧
  (∀ a, last h = Some a → is_char "." a = false).
Proof.
  unfold plain_host. rewrite !andb_true_iff. intros ((((((Hne & Ha) & Hu) & Hl) & Hc) & Hh) & Ht).
  assert (∀ x, x ∈ h → is_ascii x = true) as Hasc by (by apply forallb_elem).
  unfold contains_char in Hc. bool_to_prop. split_and!; try done.
  - by apply to_lower_id.
  - split; [intros a t ->|intros a Ha']; (split; [apply Hasc|]).
    + by left.
    + bool_to_prop. done.
    + apply last_Some_elem_of in Ha'. done.
    + rewrite Ha' in Ht. bool_to_prop. done.
  - destruct h as [|a h]; [done|]. simpl. bool_to_prop.
    unfold is_char in *. bool_to_prop. by rewrite decide_False by congruence.
  - intros a Ha'. rewrite Ha' in Ht. by bool_to_prop.
Qed.

Lemma plain_host_intro h :
  h ≠ [] → str_is_ascii h = true → to_ascii_lowercase h = h → (byte_len h ≤ 253)%Z →
  ":"%char ∉ h →
  (∀ a t, h = a :: t → a ≠ "["%char ∧ is_ascii_ws a = false) →
  (∀ a, last h = Some a → a ≠ "."%char ∧ is_ascii_ws a = false) →
  plain_host h = true.
Proof.
  intros Hne Ha Hu Hl Hc Hh Ht. unfold plain_host, contains_char.
  rewrite !andb_true_iff. split_and!; try done.
  - by rewrite bool_decide_eq_false_2.
  - rewrite <- Hu. apply to_lower_not_upper.
  - by apply Z.leb_le.
  - by rewrite bool_decide_eq_false_2.
  - destruct h as [|a h]; [done|]. destruct (Hh a h eq_refl) as [Hb Hw].
    unfold is_char. by rewrite bool_decide_eq_false_2, Hw.
  - destruct (last h) as [a|] eqn:E.
    + destruct (Ht a eq_refl) as [Hd Hw]. unfold is_char. by rewrite bool_decide_eq_false_2, Hw.
    + by apply last_None in E.
Qed.

(** What a successful normalisation went through. *)
Lemma normalize_host_inv raw h :
  normalize_host raw = Ok h →
  ∃ host, without_port raw (trim raw) = Ok host ∧ trim raw ≠ [] ∧
    h = to_ascii_lowercase (trim_end_matches (is_char ".") host) ∧
    h ≠ [] ∧ str_is_ascii h = true ∧ (byte_len h ≤ 253)%Z.
Proof.
  unfold normalize_host. intros H. guard_inv H. bool_to_prop.
  apply res_bind_Ok in H as (host & Hw & H). guard_inv H. bool_to_prop. res_inv.
  exists host. split_and!; try done.
  unfold to_ascii_lowercase. intros Hn. by apply map_eq_nil in Hn.
Qed.

Lemma normalize_host_compute raw host h :
  without_port raw (trim raw) = Ok host → trim raw ≠ [] →
  to_ascii_lowercase (trim_end_matches (is_char ".") host) = h →
  h ≠ [] → str_is_ascii h = true → (byte_len h ≤ 253)%Z →
  normalize_host raw = Ok h.
Proof.
  intros Hw Ht <- Hne Ha Hl. unfold normalize_host.
  rewrite bool_decide_eq_false_2 by done. rewrite Hw. simpl.
  rewrite bool_decide_eq_false_2 by (by intros E; rewrite E in Hne).
  rewrite Ha. simpl. by destruct (Z.ltb_spec 253 (byte_len
    (to_ascii_lowercase (trim_end_matches (is_char ".") host)))); [lia|].
Qed.

Lemma without_port_inv raw t host :
  without_port raw t = Ok host →
  (∃ a r, t = "["%char :: a ++ "]"%char :: r ∧ ("]"%char ∉ a) ∧ host = "["%char :: a ++ ["]"%char]) ∨
  (strip_prefix (lit "[") t = None ∧ (":"%char ∉ host) ∧ ∃ p, t = host ++ p ∧ port_suffix p = true).
Proof.
  unfold without_port. destruct (strip_prefix _ t) as [rest|] eqn:E.
  - apply strip_prefix_Some in E as ->. intros H.
    destruct (split_once "]" rest) as [[a r]|] eqn:Es; [|done]. res_inv.
    apply split_once_Some in Es as [-> Hni]. left. exists a, r. split_and!; [done|done|].
    replace (length a + 2) with (S (S (length a))) by lia. simpl. f_equal.
    change (a ++ "]"%char :: r) with (a ++ ["]"%char] ++ r). rewrite app_assoc, take_app_length'; [done|].
    rewrite length_app. simpl. lia.
  - intros H. right. split; [done|].
    destruct (split_once ":" t) as [[l p]|] eqn:Es.
    + guard_inv H. res_inv. apply split_once_Some in Es as [-> Hni].
      split; [done|]. exists (":"%char :: p). split; [done|].
      destruct p as [|c ds]; [done|]. cbn [port_suffix].
      destruct (forallb is_ascii_digit (c :: ds)) eqn:Ef; [|by rewrite bool_decide_eq_false_2 in G].
      done.
    + res_inv. split; [by apply split_once_None|]. exists []. by rewrite app_nil_r.
Qed.

(** A host [v] that differs from the canonical [h] only in case, followed by
    root dots and a port. *)
Section host_variant.
Context (h v dots port : str).
Context (Hplain : plain_host h = true) (Hlow : to_ascii_lowercase v = h).
Context (Hdots : forallb (is_char ".") dots = true) (Hport : port_suffix port = true).

Lemma variant_nonempty : v ≠ [].
Proof using All. intros ->. destruct (plain_host_inv h Hplain) as (Hne & _). by subst. Qed.

Lemma variant_ascii : str_is_ascii v = true.
Proof using All.
  destruct (plain_host_inv h Hplain) as (_ & Ha & _). by rewrite <- to_lower_is_ascii, Hlow.
Qed.

Lemma variant_head a t : v = a :: t → is_ascii_ws a = false ∧ a ≠ "["%char.
Proof using All.
  destruct (plain_host_inv h Hplain) as (_ & _ & _ & _ & _ & [Hth _] & Hbr & _).
  intros ->. simpl in Hlow. destruct (Hth _ _ (eq_sym Hlow)) as [_ Hw].
  rewrite ascii_lower_ws in Hw. split; [done|]. intros ->. by subst h.
Qed.

Lemma variant_last a :
  last v = Some a → is_ascii a = true ∧ is_ascii_ws a = false ∧ is_char "." a = false.
Proof using All.
  destruct (plain_host_inv h Hplain) as (_ & _ & _ & _ & _ & [_ Htl] & _ & Hdot).
  intros [l Hl]%rev_last. rewrite Hl, to_lower_app in Hlow. simpl in Hlow.
  assert (last h = Some (ascii_lower a)) as Hlast by (rewrite <- Hlow; apply last_snoc).
  destruct (Htl _ Hlast) as [Hx Hy]. specialize (Hdot _ Hlast).
  rewrite ascii_lower_is_ascii in Hx. rewrite ascii_lower_ws in Hy. split_and!; [done..|].
  unfold is_char in *. bool_to_prop. apply bool_decide_eq_false. intros ->. by destruct Hdot.
Qed.

Lemma variant_suffix_byte a :
  a ∈ dots ++ port → is_ascii a = true ∧ is_ascii_ws a = false.
Proof using All.
  intros [Hin|Hin]%elem_of_app.
  - rewrite forallb_elem in Hdots. apply Hdots in Hin. unfold is_char in Hin.
    bool_to_prop. by subst.
  - destruct port as [|c ds]; [by apply not_elem_of_nil in Hin|]. simpl in Hport.
    unfold is_char in Hport. bool_to_prop. apply elem_of_cons in Hin as [->|Hin]; [by subst|].
    match goal with H : forallb is_ascii_digit _ = true |- _ =>
      rewrite forallb_elem in H; apply H in Hin end.
    revert Hin. byte_cases a.
Qed.

Lemma variant_tight : tight (v ++ dots ++ port).
Proof using All.
  split.
  - intros a t Heq. pose proof variant_ascii as Ha. pose proof variant_nonempty as Hne.
    pose proof variant_head as Hh.
    destruct v as [|b v']; [done|]. injection Heq as -> _.
    simpl in Ha. bool_to_prop. split; [done|]. by destruct (Hh a v' eq_refl).
  - intros a [Hl|[_ Hr]]%last_app_Some.
    + by apply last_Some_elem_of, variant_suffix_byte in Hl.
    + apply variant_last in Hr. naive_solver.
Qed.

Lemma variant_no_colon : ":"%char ∉ v ++ dots.
Proof using All.
  destruct (plain_host_inv h Hplain) as (_ & _ & _ & _ & Hcol & _).
  rewrite not_elem_of_app. split.
  - by rewrite <- Hlow, to_lower_elem in Hcol.
  - intros Hin. rewrite forallb_elem in Hdots. by apply Hdots in Hin.
Qed.

Lemma variant_without_port raw : without_port raw (v ++ dots ++ port) = Ok (v ++ dots).
Proof using All.
  pose proof variant_no_colon as Hnc. pose proof variant_nonempty as Hne.
  pose proof variant_head as Hh. unfold without_port.
  assert (strip_prefix (lit "[") (v ++ dots ++ port) = None) as ->.
  { destruct v as [|b v']; [done|]. simpl. destruct (Hh b v' eq_refl).
    by rewrite decide_False by congruence. }
  destruct port as [|c ds].
  - rewrite app_nil_r. apply split_once_None in Hnc. by rewrite Hnc.
  - simpl in Hport. unfold is_char in Hport. bool_to_prop. subst c. rewrite app_assoc.
    assert (split_once ":" ((v ++ dots) ++ ":"%char :: ds) = Some (v ++ dots, ds)) as ->
      by (by apply split_once_Some).
    match goal with H : forallb is_ascii_digit ds = true |- _ => rewrite H end.
    by rewrite andb_false_r.
Qed.

(** Surrounded by white space, such a host normalises to [h]. *)
Lemma normalize_host_variant w1 w2 :
  forallb is_ascii_ws w1 = true → forallb is_ascii_ws w2 = true →
  normalize_host (w1 ++ (v ++ dots ++ port) ++ w2) = Ok h.
Proof using All.
  intros H1 H2.
  destruct (plain_host_inv h Hplain) as (Hne & Ha & _ & Hlen & _).
  assert (v ++ dots ++ port ≠ []) as Hvne.
  { intros [Hn _]%app_nil. by apply variant_nonempty. }
  assert (trim (w1 ++ (v ++ dots ++ port) ++ w2) = v ++ dots ++ port) as Htrim.
  { apply trim_pad; [done..|]. apply variant_tight. }
  apply (normalize_host_compute _ (v ++ dots)); [| | |done..].
  - rewrite Htrim. apply variant_without_port.
  - by rewrite Htrim.
  - rewrite trim_end_matches_app by done. rewrite trim_end_matches_id; [done|].
    intros a Hl%variant_last. naive_solver.
Qed.
End host_variant.

Lemma normalize_host_plain h : plain_host h = true → normalize_host h = Ok h.
Proof.
  intros Hp. destruct (plain_host_inv h Hp) as (_ & _ & Hl & _).
  pose proof (normalize_host_variant h h [] [] Hp Hl eq_refl eq_refl [] [] eq_refl eq_refl) as H.
  by rewrite !app_nil_r in H.
Qed.

(** The IPv6 literals: brackets kept, the address lower-cased. *)
Definition bracket_host (h : str) : Prop :=
  ∃ a, h = "["%char :: a ++ ["]"%char] ∧ ("]"%char ∉ a) ∧ to_ascii_lowercase a = a.

(** Every normal form is a literal, or a plain host, or ends in white space. *)
Lemma normalize_host_shape raw h :
  normalize_host raw = Ok h →
  bracket_host h ∨ plain_host h = true ∨ (∃ a, last h = Some a ∧ is_ascii_ws a = true).
Proof.
  intros (host & Hw & Ht & -> & Hne & Ha & Hl)%normalize_host_inv.
  apply without_port_inv in Hw as [(a & r & Htr & Hni & ->)|(Hbr & Hnc & p & Htr & Hp)].
  - left. exists (to_ascii_lowercase a). split_and!.
    + rewrite trim_end_matches_id; [by rewrite app_comm_cons, to_lower_app|].
      intros x. rewrite app_comm_cons, last_snoc. by intros [= <-].
    + by rewrite to_lower_elem.
    + apply to_lower_idem.
  - right. destruct (trim_end_matches_spec (is_char ".") host) as (w & Hs & _ & Hlast).
    set (root := trim_end_matches (is_char ".") host) in *.
    destruct (last root) as [z|] eqn:El; cycle 1.
    { apply last_None in El. by rewrite El in Hne. }
    assert (last (to_ascii_lowercase root) = Some (ascii_lower z)) as Hlz.
    { apply rev_last in El as [l ->]. rewrite to_lower_app. apply last_snoc. }
    destruct (is_ascii_ws z) eqn:Ez; [right; exists (ascii_lower z); by rewrite ascii_lower_ws|].
    left. apply plain_host_intro; [done|done|apply to_lower_idem|done| | |].
    + rewrite to_lower_elem by done. intros Hin. apply Hnc. rewrite Hs. apply elem_of_app. by left.
    + intros a t Heq. destruct root as [|b root']; [done|]. injection Heq as <- _.
      rewrite Hs in Htr. rewrite ascii_lower_ws. split.
      * intros Hb. apply ascii_lower_fixed in Hb as ->; [|done..]. by rewrite Htr in Hbr.
      * apply (trim_head raw b ((root' ++ w) ++ p)). by rewrite Htr.
    + intros a. rewrite Hlz. intros [= <-]. rewrite ascii_lower_ws. split; [|done].
      intros Hd. apply ascii_lower_fixed in Hd as ->; [|done..]. by specialize (Hlast _ eq_refl).
Qed.

Lemma normalize_bracket_host h :
  bracket_host h → str_is_ascii h = true → (byte_len h ≤ 253)%Z → normalize_host h = Ok h.
Proof.
  intros (a & -> & Hni & Hlow) Ha Hl.
  assert (trim ("["%char :: a ++ ["]"%char]) = "["%char :: a ++ ["]"%char]) as Ht.
  { apply trim_tight. split; [by intros ?? [= <- _]|].
    intros x. rewrite app_comm_cons, last_snoc. by intros [= <-]. }
  apply (normalize_host_compute _ ("["%char :: a ++ ["]"%char])); rewrite ?Ht; [|done| |done..].
  - unfold without_port.
    change (strip_prefix (lit "[") ("["%char :: a ++ ["]"%char])) with (Some (a ++ ["]"%char])).
    cbn match.
    assert (split_once "]" (a ++ ["]"%char]) = Some (a, [])) as -> by (by apply split_once_Some).
    f_equal. replace (length a + 2) with (S (S (length a))) by lia.
    rewrite take_ge; [done|]. simpl. rewrite length_app. simpl. lia.
  - rewrite trim_end_matches_id.
    + rewrite app_comm_cons, to_lower_app. simpl. by rewrite Hlow.
    + intros x. rewrite app_comm_cons, last_snoc. by intros [= <-].
Qed.

(** A valid label: 1 to 63 letters, digits and inner hyphens, not punycode. *)
Definition valid_label (l : str) : bool :=
  negb (bool_decide (l = [])) && (byte_len l <=? MAX_LABEL_LEN)%Z && forallb is_label_byte l
  && negb (starts_with (lit "-") l) && negb (ends_with (lit "-") l)
  && negb (starts_with (lit "xn--") l).

Lemma validate_subdomain_syntax_Ok label l :
  validate_subdomain_syntax label = Ok l ↔
  l = to_ascii_lowercase (trim label) ∧ valid_label l = true.
Proof.
  unfold validate_subdomain_syntax, valid_label.
  set (t := to_ascii_lowercase (trim label)). split.
  - intros H. guard_inv H. bool_to_prop. res_inv.
    rewrite !andb_true_iff, !negb_true_iff. split; [done|]. split_and!; try done.
    + by rewrite bool_decide_eq_false_2.
    + by apply Z.leb_le.
  - rewrite !andb_true_iff, !negb_true_iff. intros (-> & ((((Hne & Hl) & Hb) & Hs) & He) & Hx).
    rewrite Hne, Hb, Hs, He, Hx. apply Z.leb_le in Hl.
    destruct (Z.ltb_spec MAX_LABEL_LEN (byte_len t)); [lia|done].
Qed.

Lemma label_byte_facts a :
  is_label_byte a = true →
  is_ascii a = true ∧ is_ascii_ws a = false ∧ is_ascii_uppercase a = false ∧
  a ≠ ":"%char ∧ a ≠ "."%char ∧ a ≠ "["%char.
Proof. byte_cases a. Qed.

Lemma valid_label_inv l :
  valid_label l = true →
  l ≠ [] ∧ (1 ≤ byte_len l ≤ 63)%Z ∧ (∀ a, a ∈ l → is_label_byte a = true) ∧
  to_ascii_lowercase l = l ∧ tight l.
Proof.
  unfold valid_label. rewrite !andb_true_iff. intros (((((Hne & Hl) & Hb) & _) & _) & _).
  bool_to_prop. pose proof (proj1 (forallb_elem _ _) Hb) as Hb'.
  unfold MAX_LABEL_LEN in Hl. split_and!; [done| |done|done| |].
  - unfold byte_len in *. destruct l; simpl in *; [done|lia].
  - apply to_lower_id, forallb_elem. intros a Ha%Hb'%label_byte_facts.
    apply negb_true_iff. naive_solver.
  - split; [intros a t ->|intros a Ha%last_Some_elem_of].
    + specialize (Hb' a (list_elem_of_here _ _)). apply label_byte_facts in Hb'. naive_solver.
    + apply Hb', label_byte_facts in Ha. naive_solver.
Qed.

Lemma validate_label_id l : valid_label l = true → validate_subdomain_syntax l = Ok l.
Proof.
  intros Hv. apply validate_subdomain_syntax_Ok. split; [|done].
  destruct (valid_label_inv l Hv) as (_ & _ & _ & Hl & Ht).
  by rewrite trim_tight, Hl.
Qed.

Lemma public_host_Ok sub base h :
  public_host sub base = Ok h ↔
  ∃ l b, validate_subdomain_syntax sub = Ok l ∧ normalize_host base = Ok b ∧
         h = l ++ lit "." ++ b ∧ (byte_len h ≤ 253)%Z.
Proof.
  unfold public_host. split.
  - intros (l & Hl & (b & Hb & H)%res_bind_Ok)%res_bind_Ok.
    guard_inv H. bool_to_prop. res_inv. by exists l, b.
  - intros (l & b & Hl & Hb & -> & Hlen). rewrite Hl, Hb. cbn [res_bind].
    by destruct (Z.ltb_spec 253 (byte_len (l ++ lit "." ++ b))); [lia|].
Qed.

(** A label under a plain base domain is a plain host. *)
Lemma plain_subdomain_host l b :
  valid_label l = true → plain_host b = true → (byte_len (l ++ lit "." ++ b) ≤ 253)%Z →
  plain_host (l ++ lit "." ++ b) = true.
Proof.
  intros Hv Hb Hlen.
  destruct (valid_label_inv l Hv) as (Hne & _ & Hbytes & Hlow & Ht).
  destruct (plain_host_inv b Hb) as (Hbne & Hba & Hblow & _ & Hbc & [_ Hbt] & _ & Hbd).
  apply plain_host_intro; [by destruct l| | |done| | |].
  - apply forallb_app_iff. split; [|done].
    apply forallb_elem. intros a Ha%Hbytes%label_byte_facts. naive_solver.
  - rewrite !to_lower_app, Hlow, Hblow. done.
  - rewrite !not_elem_of_app. split_and!; [|by cbn; intros Hin%list_elem_of_singleton|done].
    intros Ha%Hbytes%label_byte_facts. naive_solver.
  - intros a t Heq. destruct l as [|x l]; [done|]. injection Heq as <- _.
    specialize (Hbytes x (list_elem_of_here _ _)). apply label_byte_facts in Hbytes. naive_solver.
  - intros a Ha. rewrite app_assoc, last_app in Ha.
    destruct (last b) as [z|] eqn:E; [|by apply last_None in E].
    injection Ha as <-. specialize (Hbd _ eq_refl). specialize (Hbt _ eq_refl).
    unfold is_char in Hbd. bool_to_prop. naive_solver.
Qed.

(** The DNS-label rules, spelled out. *)
Definition dns_label (l : str) : Prop :=
  (1 ≤ byte_len l ≤ 63)%Z ∧
  (∀ a, a ∈ l → a ∈ lit "abcdefghijklmnopqrstuvwxyz0123456789-") ∧
  head l ≠ Some "-"%char ∧ last l ≠ Some "-"%char ∧
  (∀ r, l ≠ lit "xn--" ++ r).

Lemma is_label_byte_elem a :
  is_label_byte a = true ↔ a ∈ lit "abcdefghijklmnopqrstuvwxyz0123456789-".
Proof.
  rewrite <- (bool_decide_eq_true (a ∈ lit "abcdefghijklmnopqrstuvwxyz0123456789-")).
  byte_cases a.
Qed.

Lemma starts_with_false p s : starts_with p s = false ↔ ∀ r, s ≠ p ++ r.
Proof.
  split.
  - intros H r ->. assert (starts_with p (p ++ r) = true); [apply starts_with_true; eauto|congruence].
  - intros H. destruct (starts_with p s) eqn:E; [|done].
    apply starts_with_true in E as [r ->]. by destruct (H r).
Qed.

Lemma ends_with_false p s : ends_with p s = false ↔ ∀ r, s ≠ r ++ p.
Proof.
  split.
  - intros H r ->. assert (ends_with p (r ++ p) = true); [apply ends_with_true; eauto|congruence].
  - intros H. destruct (ends_with p s) eqn:E; [|done].
    apply ends_with_true in E as [r ->]. by destruct (H r).
Qed.

Lemma valid_label_dns l : valid_label l = true ↔ dns_label l.
Proof.
  unfold valid_label, dns_label, MAX_LABEL_LEN.
  rewrite !andb_true_iff, !negb_true_iff, !starts_with_false, ends_with_false,
    forallb_elem, bool_decide_eq_false, Z.leb_le.
  setoid_rewrite is_label_byte_elem. split.
  - intros (((((Hne & Hl) & Hb) & Hs) & He) & Hx). split_and!; [|done|done| | |done].
    + unfold byte_len in *. destruct l; simpl in *; [done|lia].
    + destruct l as [|a l]; [done|]. intros [= ->]. by destruct (Hs l).
    + intros [r ->]%rev_last. by destruct (He r).
  - intros ([H1 H2] & Hb & Hh & Ht & Hx). split_and!; [by intros ->|done|done| | |done].
    + intros r ->. by destruct Hh.
    + intros r ->. destruct Ht. apply last_snoc.
Qed.

Lemma reserved_lower r : r ∈ RESERVED_SUBDOMAINS → to_ascii_lowercase r = r.
Proof.
  intros Hr.
  assert (forallb (λ r, bool_decide (to_ascii_lowercase r = r)) RESERVED_SUBDOMAINS = true) as H
    by (vm_compute; reflexivity).
  rewrite forallb_elem in H. apply H in Hr. by apply bool_decide_eq_true in Hr.
Qed.

Lemma is_reserved_lower l :
  to_ascii_lowercase l = l → is_reserved_subdomain l = bool_decide (l ∈ RESERVED_SUBDOMAINS).
Proof.
  intros Hl. unfold is_reserved_subdomain. apply eq_true_iff_eq.
  rewrite existsb_elem, bool_decide_eq_true. unfold eq_ignore_ascii_case. split.
  - intros (r & Hr & He). apply bool_decide_eq_true in He.
    rewrite Hl, reserved_lower in He by done. by subst.
  - intros Hin. exists l. split; [done|]. by apply bool_decide_eq_true.
Qed.

Lemma validate_subdomain_Ok label l :
  validate_subdomain label = Ok l ↔
  l = to_ascii_lowercase (trim label) ∧ valid_label l = true ∧ l ∉ RESERVED_SUBDOMAINS.
Proof.
  unfold validate_subdomain. rewrite res_bind_Ok. split.
  - intros (t & (-> & Hv)%validate_subdomain_syntax_Ok & H).
    rewrite is_reserved_lower in H by apply to_lower_idem.
    guard_inv H. bool_to_prop. by injection H as <-.
  - intros (-> & Hv & Hr). eexists. rewrite validate_subdomain_syntax_Ok. split; [done|].
    rewrite is_reserved_lower by apply to_lower_idem. by rewrite bool_decide_eq_false_2.
Qed.

Section random.
Context `{Rng}.

Lemma random_subdomain_elem seed a :
  a ∈ random_subdomain seed → a ∈ SUBDOMAIN_ALPHABET.
Proof using Type.
  unfold random_subdomain. rewrite list_elem_of_In, in_map_iff. intros (k & <- & _).
  rewrite list_elem_of_In. apply nth_In.
  pose proof (random_range_bounds k (byte_len SUBDOMAIN_ALPHABET) ltac:(vm_compute; done)).
  unfold byte_len in *. lia.
Qed.

Lemma random_subdomain_length seed : length (random_subdomain seed) = 12.
Proof using Type. unfold random_subdomain. by rewrite length_map, length_seq. Qed.
End random.

#[export] Hint Resolve normalize_host_plain validate_label_id plain_subdomain_host : norupo.

(** A generated label is valid and, having 12 characters, not reserved. *)
Lemma random_subdomain_ok `{Rng} seed :
  validate_subdomain (random_subdomain seed) = Ok (random_subdomain seed) ∧
  length (random_subdomain seed) = 12.
Proof.
  split; [|apply random_subdomain_length].
  assert (∀ a, a ∈ random_subdomain seed → is_label_byte a = true ∧ a ≠ "-"%char) as Hb.
  { intros a Ha%random_subdomain_elem.
    assert (forallb (λ a, is_label_byte a && negb (bool_decide (a = "-"%char)))
              SUBDOMAIN_ALPHABET = true) as Hall by (vm_compute; reflexivity).
    rewrite forallb_elem in Hall. apply Hall in Ha. by bool_to_prop. }
  assert (valid_label (random_subdomain seed) = true) as Hv.
  { apply valid_label_dns. split_and!.
    - unfold byte_len. rewrite random_subdomain_length. lia.
    - unfold byte_len. rewrite random_subdomain_length. lia.
    - intros a Ha%Hb. apply is_label_byte_elem. naive_solver.
    - intros Hh%head_Some_elem_of%Hb. naive_solver.
    - intros Hh%last_Some_elem_of%Hb. naive_solver.
    - intros r Hr. destruct (Hb "-"%char) as [_ Hn]; [|done]. rewrite Hr.
      do 2 apply list_elem_of_further. by left. }
  destruct (valid_label_inv _ Hv) as (_ & _ & _ & Hl & Ht).
  apply validate_subdomain_Ok. rewrite trim_tight, Hl by done. split_and!; [done..|].
  intros Hr.
  assert (forallb (λ r, length r <? 12) RESERVED_SUBDOMAINS = true) as Hall
    by (vm_compute; reflexivity).
  rewrite forallb_elem in Hall. apply Hall in Hr. by rewrite random_subdomain_length in Hr.
Qed.

(** ** Properties *)

(** C36: a registered (plain) host is found again by every form a request's
    [Host] header can take: any letter case, root dots, a port, surrounding
    white space all normalise to the registered key. *)
Theorem normalize_host_variants h v w1 w2 dots port :
  plain_host h = true → to_ascii_lowercase v = h →
  forallb is_ascii_ws w1 = true → forallb is_ascii_ws w2 = true →
  forallb (is_char ".") dots = true → port_suffix port = true →
  normalize_host (w1 ++ (v ++ dots ++ port) ++ w2) = Ok h.
Proof. intros. by apply normalize_host_variant. Qed.

Lemma normalize_host_variants_witness :
  normalize_host (lit "  API.Tunnel.Com.:8080 ") = Ok (lit "api.tunnel.com").
Proof.
  apply (normalize_host_variants (lit "api.tunnel.com") (lit "API.Tunnel.Com")
           (lit "  ") (lit " ") (lit ".") (lit ":8080")); vm_compute; reflexivity.
Defined.

(** Normalisation is idempotent on every result that does not end in white
    space, IPv6 literals included. *)
Theorem normalize_host_idempotent raw h :
  normalize_host raw = Ok h →
  (∀ a, last h = Some a → is_ascii_ws a = false) →
  normalize_host h = Ok h.
Proof.
  intros Hn Hw. pose proof (normalize_host_inv _ _ Hn) as (_ & _ & _ & _ & _ & Ha & Hl).
  destruct (normalize_host_shape _ _ Hn) as [Hb|[Hp|(a & Hl' & Ha')]].
  - by apply normalize_bracket_host.
  - auto with norupo.
  - by rewrite (Hw a Hl') in Ha'.
Qed.

Lemma normalize_host_idempotent_witness :
  normalize_host (lit "[::1]:8080") = Ok (lit "[::1]") ∧
  normalize_host (lit "[::1]") = Ok (lit "[::1]").
Proof.
  split; [vm_compute; reflexivity|].
  apply (normalize_host_idempotent (lit "[::1]:8080")); [vm_compute; reflexivity|].
  intros a [= <-]. reflexivity.
Defined.

(** White space before the port survives normalisation, so such a host
    yields a key that is not a normal form: normalising the key again gives a
    different one. *)
Theorem normalize_host_keeps_space_before_port h ds :
  plain_host h = true → (byte_len h < 253)%Z → forallb is_ascii_digit ds = true →
  normalize_host (h ++ lit " :" ++ ds) = Ok (h ++ lit " ") ∧
  normalize_host (h ++ lit " ") = Ok h.
Proof.
  intros Hp Hlen Hds.
  destruct (plain_host_inv h Hp) as (Hne & Ha & Hlow & _ & Hcol & [Hth _] & Hbr & _).
  split; cycle 1.
  { pose proof (normalize_host_variant h h [] [] Hp Hlow eq_refl eq_refl [] (lit " ")) as Hv.
    rewrite !app_nil_r in Hv. by apply Hv. }
  assert (trim (h ++ lit " :" ++ ds) = h ++ lit " :" ++ ds) as Ht.
  { apply trim_tight. split; [intros a t Heq|intros a [l Hl]%rev_last].
    - destruct h as [|b h']; [done|]. injection Heq as <- _. by apply (Hth b h').
    - destruct ds as [|d ds' _] using rev_ind.
      + rewrite app_nil_r in Hl. change (lit " :") with (lit " " ++ [":"%char]) in Hl.
        rewrite app_assoc in Hl. by apply app_inj_tail in Hl as [_ <-].
      + rewrite !app_assoc in Hl. apply app_inj_tail in Hl as [_ <-].
        apply forallb_app_iff in Hds as [_ Hd]. revert Hd. simpl. byte_cases d. }
  apply (normalize_host_compute _ (h ++ lit " ")); rewrite ?Ht.
  - unfold without_port.
    assert (strip_prefix (lit "[") (h ++ lit " :" ++ ds) = None) as ->.
    { destruct h as [|b h']; [done|]. simpl in Hbr |- *. by case_decide. }
    change (lit " :" ++ ds) with (lit " " ++ ":"%char :: ds). rewrite app_assoc.
    assert (split_once ":" ((h ++ lit " ") ++ ":"%char :: ds) = Some (h ++ lit " ", ds)) as ->.
    { apply split_once_Some. split; [done|]. rewrite not_elem_of_app. split; [done|].
      cbn. by intros ?%list_elem_of_singleton. }
    rewrite Hds. by rewrite andb_false_r.
  - by destruct h.
  - rewrite trim_end_matches_id, to_lower_app, Hlow; [done|].
    intros a Hl. change (lit " ") with [" "%char] in Hl. rewrite last_snoc in Hl.
    by injection Hl as <-.
  - by destruct h.
  - apply forallb_app_iff. by split.
  - rewrite byte_len_app. unfold byte_len at 2. simpl. lia.
Qed.

Lemma normalize_host_keeps_space_before_port_witness :
  normalize_host (lit "a.com :80") = Ok (lit "a.com ") ∧
  normalize_host (lit "a.com ") = Ok (lit "a.com").
Proof.
  apply (normalize_host_keeps_space_before_port (lit "a.com") (lit "80"));
    vm_compute; reflexivity.
Defined.

(** The keys the control plane builds. *)
Definition wf_key (k : RoutingKey) : Prop :=
  match k with
  | Host h => (∃ raw, normalize_host raw = Ok h) ∨ (∃ sub base, public_host sub base = Ok h)
  | TcpPort p => (0 ≤ p ≤ u16_max)%Z
  end.

Lemma host_not_tcp h p :
  wf_key (Host h) → (0 ≤ p ≤ u16_max)%Z → h ≠ as_storage_key (TcpPort p).
Proof.
  intros Hh Hp ->. destruct (dec_spec p) as (_ & Hd & Hne); [unfold u16_max, u64_max in *; lia|].
  simpl in Hh. destruct Hh as [[raw Hn]|(sub & base & Hn)].
  - destruct (normalize_host_shape _ _ Hn) as [(a & Heq & _)|[Hpl|(z & Hz & Hw)]].
    + done.
    + apply plain_host_inv in Hpl as (_ & _ & _ & _ & Hc & _). apply Hc.
      change (":"%char ∈ lit "tcp:" ++ dec p). apply elem_of_app. left.
      repeat constructor.
    + change (last (lit "tcp:" ++ dec p) = Some z) in Hz.
      rewrite last_app in Hz. destruct (last (dec p)) as [y|] eqn:E;
        [|by apply last_None in E]. injection Hz as ->.
      apply last_Some_elem_of in E. rewrite forallb_elem in Hd. apply Hd in E.
      revert Hw E. byte_cases z.
  - apply public_host_Ok in Hn as (l & b & _ & _ & Heq & _).
    assert ("."%char ∈ lit "tcp:" ++ dec p) as Hin.
    { change ("."%char ∈ "t"%char :: "c"%char :: "p"%char :: ":"%char :: dec p).
      rewrite Heq. apply elem_of_app. right. by left. }
    apply elem_of_app in Hin as [Hin|Hin]; [by repeat (apply elem_of_cons in Hin as [?|Hin]);
      [..|apply not_elem_of_nil in Hin]|].
    rewrite forallb_elem in Hd. by apply Hd in Hin.
Qed.

(** Different routing keys never share a storage key: the string the table
    is indexed by determines the tunnel's identity, hosts and ports included. *)
Theorem storage_key_injective k1 k2 :
  wf_key k1 → wf_key k2 → as_storage_key k1 = as_storage_key k2 → k1 = k2.
Proof.
  destruct k1 as [h1|p1], k2 as [h2|p2]; intros H1 H2 He.
  - simpl in He. by subst.
  - by destruct (host_not_tcp h1 p2 H1 H2).
  - symmetry in He. by destruct (host_not_tcp h2 p1 H2 H1).
  - simpl in He, H1, H2. f_equal. injection He. unfold u16_max, u64_max in *.
    apply dec_inj; unfold u64_max; lia.
Qed.

Lemma storage_key_injective_witness :
  wf_key (Host (lit "a.com")) ∧ wf_key (TcpPort 41235) ∧
  Host (lit "a.com") = Host (lit "a.com").
Proof.
  split; [left; exists (lit "A.com:80"); vm_compute; reflexivity|].
  split; [simpl; unfold u16_max; lia|].
  apply storage_key_injective; [| |reflexivity]; left.
  - exists (lit "A.com:80"). vm_compute. reflexivity.
  - exists (lit "a.com."). vm_compute. reflexivity.
Defined.

(** [validate_subdomain] accepts exactly the DNS labels (1 to 63 of [a-z0-9-],
    no outer hyphen, no punycode prefix) that are not reserved, in any letter
    case, returns their lower-case form, and leaves that form unchanged. *)
Theorem validate_subdomain_spec label l :
  (validate_subdomain label = Ok l ↔
   l = to_ascii_lowercase (trim label) ∧ dns_label l ∧ l ∉ RESERVED_SUBDOMAINS) ∧
  (validate_subdomain label = Ok l → validate_subdomain l = Ok l).
Proof.
  rewrite <- valid_label_dns. split; [apply validate_subdomain_Ok|].
  rewrite !validate_subdomain_Ok. intros (_ & Hv & Hr).
  destruct (valid_label_inv l Hv) as (_ & _ & _ & Hl & Ht).
  by rewrite trim_tight, Hl.
Qed.

(** C40: whatever the generator draws, a generated subdomain is a valid,
    non-reserved label of 12 characters: the [debug_assert!] never fires. *)
Theorem random_subdomain_valid `{Rng} seed :
  validate_subdomain (random_subdomain seed) = Ok (random_subdomain seed) ∧
  length (random_subdomain seed) = 12.
Proof. apply random_subdomain_ok. Qed.

(** Under a plain base domain, the host built for a subdomain is its own
    normal form and [subdomain_of] recovers the validated label from it. *)
Theorem public_host_subdomain_of sub base b h :
  normalize_host base = Ok b → plain_host b = true → public_host sub base = Ok h →
  ∃ l, validate_subdomain_syntax sub = Ok l ∧ h = l ++ lit "." ++ b ∧
       normalize_host h = Ok h ∧ subdomain_of h base = Some l.
Proof.
  intros Hb Hp (l & b' & Hl & Hb' & -> & Hlen)%public_host_Ok. exists l.
  rewrite Hb in Hb'. injection Hb' as <-.
  apply validate_subdomain_syntax_Ok in Hl as Hl'. destruct Hl' as [_ Hv].
  assert (normalize_host (l ++ lit "." ++ b) = Ok (l ++ lit "." ++ b)) as Hn
    by auto with norupo.
  split_and!; [done..|]. unfold subdomain_of. rewrite Hn, Hb. simpl.
  assert (strip_suffix b (l ++ lit "." ++ b) = Some (l ++ lit ".")) as Hs
    by (apply strip_suffix_Some; by rewrite <- app_assoc).
  simpl in Hs. rewrite Hs. simpl.
  assert (strip_suffix (lit ".") (l ++ lit ".") = Some l) as Hs' by (by apply strip_suffix_Some).
  simpl in Hs'. rewrite Hs'. simpl.
  destruct (valid_label_inv l Hv) as (Hne & _ & Hbytes & _).
  rewrite bool_decide_eq_false_2 by done. unfold contains_char.
  rewrite bool_decide_eq_false_2; [done|]. intros Hd%Hbytes. by vm_compute in Hd.
Qed.

Lemma public_host_subdomain_of_witness :
  ∃ l, validate_subdomain_syntax (lit "My-App") = Ok l ∧
       lit "my-app.tunnel.com" = l ++ lit "." ++ lit "tunnel.com" ∧
       normalize_host (lit "my-app.tunnel.com") = Ok (lit "my-app.tunnel.com") ∧
       subdomain_of (lit "my-app.tunnel.com") (lit "Tunnel.com.") = Some l.
Proof.
  apply (public_host_subdomain_of (lit "My-App") (lit "Tunnel.com.") (lit "tunnel.com"));
    vm_compute; reflexivity.
Defined.

(** [subdomain_of] recognises exactly the direct children of the base domain:
    deeper hosts, the base itself and look-alike suffixes are refused. *)
Theorem subdomain_of_direct_child host base l :
  subdomain_of host base = Some l ↔
  ∃ b, normalize_host base = Ok b ∧ normalize_host host = Ok (l ++ lit "." ++ b) ∧
       l ≠ [] ∧ "."%char ∉ l.
Proof.
  unfold subdomain_of. split.
  - destruct (normalize_host host) as [h|]; [|done].
    destruct (normalize_host base) as [b|]; [|done]. cbn -[lit].
    destruct (strip_suffix b h) as [r|] eqn:E1; [|done]. cbn -[lit].
    destruct (strip_suffix (lit ".") r) as [l'|] eqn:E2; [|done]. cbn -[lit].
    intros H. guard_inv H. unfold contains_char in *. bool_to_prop. injection H as <-.
    apply strip_suffix_Some in E1 as ->. apply strip_suffix_Some in E2 as ->.
    exists b. by rewrite <- app_assoc.
  - intros (b & -> & -> & Hne & Hd). cbn -[lit].
    assert (strip_suffix b (l ++ lit "." ++ b) = Some (l ++ lit ".")) as ->
      by (apply strip_suffix_Some; by rewrite <- app_assoc). cbn -[lit].
    assert (strip_suffix (lit ".") (l ++ lit ".") = Some l) as -> by (by apply strip_suffix_Some).
    cbn -[lit]. unfold contains_char. by rewrite !bool_decide_eq_false_2.
Qed.
