(* ===== verification/Auth.v ===== *)
(** * [norupo-core/src/auth.rs]: principals, quotas and the static token table *)

From S2P Require Import Prelude RustStr Crates CoreError Routing.

(** [u32], [u32] and [u64] fields. *)
Record Limits := mkLimits {
  max_tunnels : Z;
  max_concurrent_streams : Z;
  max_bytes_per_second : Z;
}.

#[export] Instance Limits_eq_dec : EqDecision Limits.
Proof. solve_decision. Defined.

Definition default_limits : Limits := mkLimits 8 512 0.

Record Principal := mkPrincipal {
  account_id : str;
  display_name : str;
  reserved_subdomains : list str;
  custom_domains : list str;
  limits : Limits;
}.

#[export] Instance Principal_eq_dec : EqDecision Principal.
Proof. solve_decision. Defined.

Definition may_claim_subdomain (p : Principal) (subdomain : str) : bool :=
  existsb (λ s, eq_ignore_ascii_case s subdomain) (reserved_subdomains p).

(** One entry of [custom_domains] against a domain. *)
Definition domain_entry_matches (domain allowed : str) : bool :=
  match strip_prefix (lit "*.") allowed with
  | Some suffix =>
      match strip_suffix suffix domain with
      | Some head => ends_with (lit ".") head && (1 <? byte_len head)%Z
      | None => false
      end
  | None => eq_ignore_ascii_case allowed domain
  end.

Definition may_use_custom_domain (p : Principal) (domain : str) : bool :=
  existsb (domain_entry_matches domain) (custom_domains p).

(** The [AuthProvider] trait: resolving a bearer token. *)
Class AuthProvider (A : Type) := authenticate : A → str → result Principal Error.

Record StaticTokenAuth := mkStaticTokenAuth {
  tokens : gmap str Principal;
  allow_anonymous : bool;
}.

Definition static_token_auth_new (tokens : gmap str Principal) : StaticTokenAuth :=
  mkStaticTokenAuth tokens false.

Definition static_token_auth_anonymous : StaticTokenAuth := mkStaticTokenAuth ∅ true.

Definition anonymous_principal : Principal :=
  mkPrincipal (lit "anonymous") (lit "anonymous") [] [] default_limits.

Definition static_authenticate (auth : StaticTokenAuth) (token : str) : result Principal Error :=
  match tokens auth !! token with
  | Some principal => Ok principal
  | None =>
      if allow_anonymous auth then Ok anonymous_principal
      else Err (Unauthorized (lit "unknown or revoked token"))
  end.

#[export] Instance StaticTokenAuth_provider : AuthProvider StaticTokenAuth := static_authenticate.

(** ** Lemmas *)

Lemma domain_entry_matches_true domain allowed :
  domain_entry_matches domain allowed = true ↔
  (∃ sfx sub, allowed = lit "*." ++ sfx ∧ domain = sub ++ lit "." ++ sfx ∧ sub ≠ []) ∨
  ((∀ sfx, allowed ≠ lit "*." ++ sfx) ∧
   to_ascii_lowercase allowed = to_ascii_lowercase domain).
Proof.
  unfold domain_entry_matches.
  destruct (strip_prefix (lit "*.") allowed) as [sfx|] eqn:E.
  - apply strip_prefix_Some in E as ->. split; cycle 1.
    + intros [(sfx' & sub & Heq & -> & Hne)|[Hn _]]; [|by destruct (Hn sfx)].
      apply app_inj_1 in Heq as [_ <-]; [|done].
      assert (strip_suffix sfx (sub ++ lit "." ++ sfx) = Some (sub ++ lit ".")) as ->
        by (apply strip_suffix_Some; by rewrite <- app_assoc).
      assert (ends_with (lit ".") (sub ++ lit ".") = true) as ->
        by (apply ends_with_true; eauto).
      apply Z.ltb_lt. rewrite byte_len_app. unfold byte_len.
      destruct sub; [done|]. simpl. lia.
    + intros H. left. destruct (strip_suffix sfx domain) as [h|] eqn:Es; [|done].
      apply strip_suffix_Some in Es as ->. bool_to_prop.
      match goal with H : ends_with _ _ = true |- _ => apply ends_with_true in H as [r ->] end.
      exists sfx, r. rewrite <- app_assoc. split_and!; [done..|]. by intros ->.
  - unfold eq_ignore_ascii_case. rewrite bool_decide_eq_true. split.
    + intros H. right. split; [|done]. intros sfx ->.
      assert (strip_prefix (lit "*.") (lit "*." ++ sfx) = Some sfx); [|congruence].
      by apply strip_prefix_Some.
    + intros [(sfx & _ & -> & _)|[_ H]]; [|done].
      assert (strip_prefix (lit "*.") (lit "*." ++ sfx) = Some sfx); [|congruence].
      by apply strip_prefix_Some.
Qed.

Lemma normalize_host_lower raw h :
  normalize_host raw = Ok h → to_ascii_lowercase h = h.
Proof. intros (host & _ & _ & -> & _)%normalize_host_inv. apply to_lower_idem. Qed.

(** ** Properties *)

(** A custom domain is granted exactly when some verified entry covers it: a
    wildcard [*.s] covers the strict children [x.s] with [x] non-empty, any other
    entry only itself up to ASCII case. *)
Theorem may_use_custom_domain_spec p domain :
  may_use_custom_domain p domain = true ↔
  ∃ allowed, allowed ∈ custom_domains p ∧
    ((∃ sfx sub, allowed = lit "*." ++ sfx ∧ domain = sub ++ lit "." ++ sfx ∧ sub ≠ []) ∨
     ((∀ sfx, allowed ≠ lit "*." ++ sfx) ∧
      to_ascii_lowercase allowed = to_ascii_lowercase domain)).
Proof.
  unfold may_use_custom_domain. rewrite existsb_elem.
  by setoid_rewrite domain_entry_matches_true.
Qed.

(** A wildcard entry written with a capital letter grants nothing: every
    domain the control plane asks about is normalised, and the comparison of a
    wildcard's suffix is case-sensitive, unlike that of an exact entry. *)
Theorem wildcard_suffix_case_sensitive p sfx raw d :
  custom_domains p = [lit "*." ++ sfx] → to_ascii_lowercase sfx ≠ sfx →
  normalize_host raw = Ok d → may_use_custom_domain p d = false.
Proof.
  intros Hc Hup Hd%normalize_host_lower. unfold may_use_custom_domain. rewrite Hc.
  apply existsb_false_elem. intros x ->%list_elem_of_singleton.
  destruct (domain_entry_matches d (lit "*." ++ sfx)) eqn:E; [|done].
  apply domain_entry_matches_true in E as [(s & sub & Heq & -> & _)|[Hn _]]; [|by destruct (Hn sfx)].
  apply app_inj_1 in Heq as [_ <-]; [|done].
  rewrite !to_lower_app in Hd. rewrite !app_assoc in Hd.
  apply app_inj_2 in Hd as [_ Hs]; [done|]. apply to_lower_length.
Qed.

Lemma wildcard_suffix_case_sensitive_witness :
  may_use_custom_domain
    (mkPrincipal (lit "acct") (lit "Ada") [] [lit "*.Dev.example.com"] default_limits)
    (lit "a.dev.example.com") = false.
Proof.
  apply (wildcard_suffix_case_sensitive _ (lit "Dev.example.com") (lit "A.Dev.example.com"));
    [reflexivity|by vm_compute|vm_compute; reflexivity].
Defined.

(** A token table accepts exactly its tokens, each with its own principal;
    every other token gets one and the same non-retryable error, and the
    anonymous mode gives every unknown token the principal without grants. *)
Theorem static_authenticate_spec toks :
  (∀ t p, toks !! t = Some p → static_authenticate (static_token_auth_new toks) t = Ok p) ∧
  (∃ e, is_retryable e = false ∧ code e = lit "unauthorized" ∧
     ∀ t, toks !! t = None → static_authenticate (static_token_auth_new toks) t = Err e) ∧
  (∀ t, ∃ p, static_authenticate static_token_auth_anonymous t = Ok p ∧
     (∀ s, may_claim_subdomain p s = false) ∧ ∀ d, may_use_custom_domain p d = false).
Proof.
  split_and!.
  - intros t p Ht. unfold static_authenticate. simpl. by rewrite Ht.
  - exists (Unauthorized (lit "unknown or revoked token")). split_and!; [done..|].
    intros t Ht. unfold static_authenticate. simpl. by rewrite Ht.
  - intros t. exists anonymous_principal. split; [|done].
    unfold static_authenticate. simpl. by rewrite lookup_empty.
Qed.
