(* ===== verification/Ids.v ===== *)
(** * [norupo-core/src/ids.rs]: opaque identifiers *)

From S2P Require Import Prelude RustStr Crates.

Definition ALPHABET : str := lit "0123456789abcdefghijklmnopqrstuvwxyz".
Definition RANDOM_LEN : nat := 16.

Section ids.
Context `{Rng}.

(** [seed] is the number of draws made before: the [k]-th character of the
    suffix comes from draw [seed + k]. *)
Definition random_suffix (seed : nat) : str :=
  map (λ k, nth (Z.to_nat (random_range k (byte_len ALPHABET))) ALPHABET "0"%char)
      (seq seed RANDOM_LEN).

Definition session_id (seed : nat) : str := lit "sess_" ++ random_suffix seed.
Definition tunnel_id (seed : nat) : str := lit "tun_" ++ random_suffix seed.
Definition node_id (seed : nat) : str := lit "node_" ++ random_suffix seed.

Lemma random_suffix_elem seed a : a ∈ random_suffix seed → a ∈ ALPHABET.
Proof using Type.
  unfold random_suffix. rewrite list_elem_of_In, in_map_iff. intros (k & <- & _).
  rewrite list_elem_of_In. apply nth_In.
  pose proof (random_range_bounds k (byte_len ALPHABET) ltac:(vm_compute; done)).
  unfold byte_len in *. lia.
Qed.
End ids.

(** Bytes an id may contain. *)
Definition id_byte (a : ascii) : bool :=
  is_ascii_lowercase a || is_ascii_digit a || is_char "_" a.

Lemma id_byte_prefix `{Rng} pre seed a :
  forallb id_byte pre = true → a ∈ pre ++ random_suffix seed → id_byte a = true.
Proof.
  intros Hp [Ha|Ha%random_suffix_elem]%elem_of_app.
  - rewrite forallb_elem in Hp. by apply Hp.
  - assert (forallb id_byte ALPHABET = true) as Hall by (vm_compute; reflexivity).
    rewrite forallb_elem in Hall. by apply Hall.
Qed.

(** Every id has its kind's prefix and 16 random characters, all URL-safe;
    none holds a tab, so an id never breaks the tab-separated route record. *)
Theorem ids_url_safe `{Rng} seed i :
  i = session_id seed ∨ i = tunnel_id seed ∨ i = node_id seed →
  (∀ a, a ∈ i → id_byte a = true) ∧ ("009"%char ∉ i) ∧
  ∃ pre suf, i = pre ++ suf ∧ length suf = 16 ∧
             pre ∈ [lit "sess_"; lit "tun_"; lit "node_"].
Proof.
  intros Hi.
  assert (∃ pre, i = pre ++ random_suffix seed ∧ pre ∈ [lit "sess_"; lit "tun_"; lit "node_"])
    as (pre & -> & Hpre).
  { destruct Hi as [ -> | [ -> | -> ] ]; eexists; (split; [reflexivity|]); set_solver. }
  assert (∀ a, a ∈ pre ++ random_suffix seed → id_byte a = true) as Hb.
  { intros a. apply id_byte_prefix.
    repeat (apply elem_of_cons in Hpre as [ -> |Hpre]; [by vm_compute|]).
    by apply not_elem_of_nil in Hpre. }
  split_and!; [done|by intros Ht%Hb|].
  exists pre, (random_suffix seed). split_and!; [done| |done].
  unfold random_suffix. by rewrite length_map, length_seq.
Qed.

Lemma ids_url_safe_witness :
  let i := @session_id modular_rng 0 in
  (∀ a, a ∈ i → id_byte a = true) ∧ ("009"%char ∉ i) ∧
  ∃ pre suf, i = pre ++ suf ∧ length suf = 16 ∧
             pre ∈ [lit "sess_"; lit "tun_"; lit "node_"].
Proof. apply (@ids_url_safe modular_rng 0). left. reflexivity. Defined.
