(* ===== verification/Tokens.v ===== *)
(** * [norupo-server/src/tokens.rs]: static credentials from a JSON file

    The JSON text is read by [serde_json], a parameter: what is modelled is the
    shape it is asked for and the conversion into principals. *)

From S2P Require Import Prelude RustStr Crates CoreError Routing Auth.

(** [#[serde(default)]] fields are [None] or empty when absent. *)
Record LimitsFile := mkLimitsFile {
  lf_max_tunnels : option Z;
  lf_max_concurrent_streams : option Z;
  lf_max_bytes_per_second : option Z;
}.

Record PrincipalFile := mkPrincipalFile {
  pf_account_id : str;
  pf_display_name : option str;
  pf_reserved_subdomains : list str;
  pf_custom_domains : list str;
  pf_limits : option LimitsFile;
}.

(** [impl From<PrincipalFile> for Principal]. *)
Definition principal_of_file (file : PrincipalFile) : Principal :=
  let defaults := default_limits in
  let limits :=
    match pf_limits file with
    | None => defaults
    | Some l =>
        mkLimits (default (max_tunnels defaults) (lf_max_tunnels l))
                 (default (max_concurrent_streams defaults) (lf_max_concurrent_streams l))
                 (default (max_bytes_per_second defaults) (lf_max_bytes_per_second l))
    end in
  mkPrincipal (pf_account_id file) (default (pf_account_id file) (pf_display_name file))
              (pf_reserved_subdomains file) (pf_custom_domains file) limits.

Section tokens.
(** [serde_json::from_str] at [HashMap<String, PrincipalFile>] and
    [std::fs::read_to_string], with the rendered error. *)
Context (from_json : str → result (gmap str PrincipalFile) str).
Context (read_to_string : str → result str str).

Definition parse (raw : str) : result (gmap str Principal) str :=
  let? parsed := from_json raw in Ok (principal_of_file <$> parsed).

Definition load (path : str) : result (gmap str Principal) str :=
  let? raw := read_to_string path in parse raw.
End tokens.

(** Loading keeps exactly the tokens of the file, fails exactly when the
    file or its JSON does, and fills every absent field: the display name from
    the account id, each limit on its own from the defaults (so a partial
    [limits] object never turns an unset limit into zero). *)
Theorem load_spec from_json read_to_string path :
  (∀ e, read_to_string path = Err e → load from_json read_to_string path = Err e) ∧
  (∀ raw, read_to_string path = Ok raw →
     (∀ e, from_json raw = Err e → load from_json read_to_string path = Err e) ∧
     (∀ m, from_json raw = Ok m → ∃ ps, load from_json read_to_string path = Ok ps ∧
        dom ps = dom m ∧
        ∀ t f, m !! t = Some f → ∃ p, ps !! t = Some p ∧
          account_id p = pf_account_id f ∧
          (pf_display_name f = None → display_name p = pf_account_id f) ∧
          (pf_limits f = None → limits p = default_limits) ∧
          (∀ l, pf_limits f = Some l →
             (lf_max_tunnels l = None → max_tunnels (limits p) = 8%Z) ∧
             (∀ n, lf_max_tunnels l = Some n → max_tunnels (limits p) = n) ∧
             (lf_max_concurrent_streams l = None → max_concurrent_streams (limits p) = 512%Z) ∧
             (∀ n, lf_max_concurrent_streams l = Some n → max_concurrent_streams (limits p) = n)))).
Proof.
  unfold load, parse. split; [by intros e ->|]. intros raw ->. cbn [res_bind].
  split; [by intros e ->|]. intros m ->. cbn [res_bind]. eexists; split; [done|].
  split; [by rewrite dom_fmap_L|]. intros t f Hf. exists (principal_of_file f).
  rewrite lookup_fmap, Hf. split; [done|].
  unfold principal_of_file. simpl. split_and!; [done|by intros ->|by intros ->|].
  intros l ->. destruct l as [[] [] []]; simpl; split_and!; intros; congruence.
Qed.
