(* ===== verification/ServerConfig.v ===== *)
(** * [norupo-server/src/config.rs] and the authentication choice of [lib.rs]

    A [Duration] is its number of milliseconds; a [SocketAddr] its address text
    and port; command-line parsing is [clap]'s. *)

From S2P Require Import Prelude RustStr Crates CoreError Routing Auth Tokens.

Inductive SocketAddr :=
| V4 (ip : str) (port : Z)
| V6 (ip : str) (port : Z).

Definition socket_addr_to_string (a : SocketAddr) : str :=
  match a with
  | V4 ip port => ip ++ lit ":" ++ dec port
  | V6 ip port => lit "[" ++ ip ++ lit "]:" ++ dec port
  end.

Record ServerConfig := mkServerConfig {
  control_addr : SocketAddr;
  http_addr : SocketAddr;
  peer_addr : SocketAddr;
  advertise_addr : option str;
  base_domain : str;
  public_scheme : str;
  redis_url : option str;
  redis_prefix : str;
  cfg_node_id : option str;
  cfg_allow_anonymous : bool;
  tokens_file : option str;
  heartbeat_ms : Z;
  response_timeout_ms : Z;
  window_bytes : Z;
  log_filter : str;
}.

(** The attribute defaults, which [ServerConfig::default()] parses. *)
Definition DEFAULT_WINDOW : Z := 256 * 1024.

Definition default_config : ServerConfig :=
  mkServerConfig (V4 (lit "0.0.0.0") 7000) (V4 (lit "0.0.0.0") 8080) (V4 (lit "0.0.0.0") 7100)
    None (lit "localhost") (lit "https") None (lit "norupo:") None false None
    15000 30000 DEFAULT_WINDOW (lit "info").

Definition heartbeat (c : ServerConfig) : Z := heartbeat_ms c.
Definition route_ttl (c : ServerConfig) : Z := heartbeat c * 3.
Definition response_timeout (c : ServerConfig) : Z := response_timeout_ms c.
Definition advertised_peer_addr (c : ServerConfig) : str :=
  default (socket_addr_to_string (peer_addr c)) (advertise_addr c).
Definition public_url (c : ServerConfig) (host : str) : str :=
  public_scheme c ++ lit "://" ++ host.

(** [control.rs] exports the same policy. *)
Definition default_route_ttl (heartbeat : Z) : Z := heartbeat * 3.

Section build_auth.
Context (from_json : str → result (gmap str PrincipalFile) str).
Context (read_to_string : str → result str str).

(** An [anyhow] error with context is its [{:#}] rendering, context first. *)
Definition build_auth (config : ServerConfig) : result StaticTokenAuth str :=
  match tokens_file config with
  | Some path =>
      let? principals :=
        map_err (λ e, lit "loading tokens from " ++ path ++ lit ": " ++ e)
                (load from_json read_to_string path) in
      Ok (static_token_auth_new principals)
  | None =>
      if cfg_allow_anonymous config then Ok static_token_auth_anonymous
      else Err (lit "no authentication configured: pass --tokens-file, or --allow-anonymous for local development")
  end.
End build_auth.

(** The edge fails closed: it accepts a token that is in no token file only
    when it was started without a token file and with [--allow-anonymous]; a
    token file always wins over the flag, and with neither it does not start. *)
Theorem build_auth_fails_closed from_json read_to_string config auth :
  build_auth from_json read_to_string config = Ok auth →
  (tokens_file config = None ∧ cfg_allow_anonymous config = true) ∨
  (∃ path ps, tokens_file config = Some path ∧ load from_json read_to_string path = Ok ps ∧
     ∀ t p, static_authenticate auth t = Ok p ↔ ps !! t = Some p).
Proof.
  unfold build_auth. destruct (tokens_file config) as [path|].
  - intros H. right. exists path. destruct (load from_json read_to_string path) as [ps|e]; [|done].
    simpl in H. injection H as <-. exists ps. split_and!; [done..|].
    intros t p. unfold static_authenticate. simpl. destruct (ps !! t); naive_solver.
  - intros H. left. guard_inv H. done.
Qed.

Lemma build_auth_fails_closed_witness :
  let from_json := λ _, Ok {[ lit "tok" := mkPrincipalFile (lit "a") None [] [] None ]} in
  let config := mkServerConfig (V4 [] 1) (V4 [] 2) (V4 [] 3) None [] [] None [] None true
                  (Some (lit "tokens.json")) 1 1 1 [] in
  ∃ auth, build_auth from_json Ok config = Ok auth ∧
  ((tokens_file config = None ∧ cfg_allow_anonymous config = true) ∨
   (∃ path ps, tokens_file config = Some path ∧ load from_json Ok path = Ok ps ∧
     ∀ t p, static_authenticate auth t = Ok p ↔ ps !! t = Some p)).
Proof.
  eexists. split; [reflexivity|].
  apply (build_auth_fails_closed _ Ok). reflexivity.
Defined.
