(* ===== verification/Registry.v ===== *)
(** * [norupo-core/src/registry.rs]: the routing table's records and interface

    Time is a number of milliseconds. A call reads the clock up to twice, first
    at [now] and then, to stamp an expiry, at [later]. *)

From S2P Require Import Prelude RustStr Crates CoreError.

Record RouteRecord := mkRouteRecord {
  routing_key : str;
  rec_node_id : str;
  rec_node_addr : str;
  rec_session_id : str;
  rec_tunnel_id : str;
  rec_account_id : str;
}.

#[export] Instance RouteRecord_eq_dec : EqDecision RouteRecord.
Proof. solve_decision. Defined.

Definition TAB : ascii := "009"%char.

Definition encode (r : RouteRecord) : str :=
  routing_key r ++ TAB :: rec_node_id r ++ TAB :: rec_node_addr r ++ TAB ::
  rec_session_id r ++ TAB :: rec_tunnel_id r ++ TAB :: rec_account_id r.

(** The [next] closure of [decode]: one more field of the split. *)
Definition next_field (field : str) (parts : list str) : result (str * list str) Error :=
  match parts with
  | p :: rest => Ok (p, rest)
  | [] => Err (RegistryUnavailable (lit "record missing field `" ++ field ++ lit "`"))
  end.

Definition decode (raw : str) : result RouteRecord Error :=
  let parts := split TAB raw in
  let? '(k, parts) := next_field (lit "routing_key") parts in
  let? '(n, parts) := next_field (lit "node_id") parts in
  let? '(a, parts) := next_field (lit "node_addr") parts in
  let? '(s, parts) := next_field (lit "session_id") parts in
  let? '(t, parts) := next_field (lit "tunnel_id") parts in
  let? '(c, parts) := next_field (lit "account_id") parts in
  Ok (mkRouteRecord k n a s t c).

Inductive Claim :=
| Acquired
| Taken (owner : RouteRecord).

#[export] Instance Claim_eq_dec : EqDecision Claim.
Proof. solve_decision. Defined.

(** The [Registry] trait. Every call returns the new table and its result. *)
Class RegistryOps (R : Type) := {
  reg_claim : Z → Z → RouteRecord → Z → R → R * result Claim Error;
  reg_lookup : Z → str → R → R * result (option RouteRecord) Error;
  reg_renew : Z → Z → str → str → Z → R → R * result bool Error;
  reg_release : Z → str → str → R → R * result unit Error;
}.

(** ** The contract: a table of leases

    [reg_view t s k] is the record key [k] is leased to at time [t] if nothing
    happens between now and then; [reg_wf] and [reg_ttl] are the records and the
    lifetimes a backend can store. *)
Class RegistryView (R : Type) := {
  reg_view : Z → R → str → option RouteRecord;
  reg_inv : R → Prop;
  reg_wf : RouteRecord → Prop;
  reg_ttl : Z → Prop;
}.

Section contract.
Context {R : Type} `{RegistryView R}.

(** Two tables with the same leases from [now] on. *)
Definition agree_from (now : Z) (s s' : R) : Prop :=
  ∀ t k, (now ≤ t)%Z → reg_view t s k = reg_view t s' k.

#[export] Instance agree_from_equivalence now : Equivalence (agree_from now).
Proof.
  split; red; unfold agree_from; [done|intros; symmetry; auto|].
  intros s1 s2 s3 H1 H2 t k Ht. by rewrite H1, H2.
Qed.

#[export] Instance reg_view_proper now :
  Proper (agree_from now ==> eq ==> eq) (reg_view now).
Proof. intros s s' Hs k ? <-. by apply Hs. Qed.

Lemma agree_from_later now t s s' : (now ≤ t)%Z → agree_from now s s' → agree_from t s s'.
Proof. intros Ht Ha u k Hu. apply Ha. lia. Qed.

(** In [s'] key [k] is leased to [r] until [e] and every other key is as in [s]. *)
Definition leased (now : Z) (k : str) (r : RouteRecord) (e : Z) (s s' : R) : Prop :=
  ∀ t k', (now ≤ t)%Z →
    reg_view t s' k' =
      if decide (k' = k) then (if (t <? e)%Z then Some r else None) else reg_view t s k'.

(** In [s'] key [k] is free and every other key is as in [s]. *)
Definition freed (now : Z) (k : str) (s s' : R) : Prop :=
  ∀ t k', (now ≤ t)%Z →
    reg_view t s' k' = if decide (k' = k) then None else reg_view t s k'.

(** [session_id] may take or touch [k]: nobody else holds it. *)
Definition claimable (now : Z) (k session_id : str) (s : R) : Prop :=
  ∀ o, reg_view now s k = Some o → rec_session_id o = session_id.

Definition owned (now : Z) (k session_id : str) (s : R) (r : RouteRecord) : Prop :=
  reg_view now s k = Some r ∧ rec_session_id r = session_id.
End contract.

(** What every implementation promises. An unreachable backend ([Err]) may or may
    not have executed the call. *)
Class RegistryContract (R : Type) `{RegistryOps R, RegistryView R} : Prop := {
  claim_contract now later rec ttl s s' res :
    reg_inv s → reg_wf rec → reg_ttl ttl → (now ≤ later)%Z →
    reg_claim now later rec ttl s = (s', res) →
    reg_inv s' ∧
    let acquired := claimable now (routing_key rec) (rec_session_id rec) s ∧
      ∃ e, (now + ttl ≤ e ≤ later + ttl)%Z ∧ leased now (routing_key rec) rec e s s' in
    match res with
    | Ok Acquired => acquired
    | Ok (Taken o) => reg_view now s (routing_key rec) = Some o ∧
                      rec_session_id o ≠ rec_session_id rec ∧ agree_from now s s'
    | Err _ => agree_from now s s' ∨ acquired
    end;
  lookup_contract now k s s' res :
    reg_inv s → reg_lookup now k s = (s', res) →
    reg_inv s' ∧ agree_from now s s' ∧ ∀ o, res = Ok o → o = reg_view now s k;
  renew_contract now later k sid ttl s s' res :
    reg_inv s → reg_ttl ttl → (now ≤ later)%Z →
    reg_renew now later k sid ttl s = (s', res) →
    reg_inv s' ∧
    let renewed := ∃ r e, owned now k sid s r ∧
      (now + ttl ≤ e ≤ later + ttl)%Z ∧ leased now k r e s s' in
    match res with
    | Ok true => renewed
    | Ok false => (∀ r, ¬ owned now k sid s r) ∧ agree_from now s s'
    | Err _ => agree_from now s s' ∨ renewed
    end;
  release_contract now k sid s s' res :
    reg_inv s → reg_release now k sid s = (s', res) →
    reg_inv s' ∧
    let released := (∃ r, owned now k sid s r) ∧ freed now k s s' ∨
                    (∀ r, ¬ owned now k sid s r) ∧ agree_from now s s' in
    match res with
    | Ok _ => released
    | Err _ => agree_from now s s' ∨ released
    end;
}.

(** ** Logs of calls on a shared table *)

Inductive reg_op :=
| OpClaim (rec : RouteRecord) (ttl : Z)
| OpLookup (k : str)
| OpRenew (k sid : str) (ttl : Z)
| OpRelease (k sid : str).

Inductive reg_res :=
| RClaim (r : result Claim Error)
| RLookup (r : result (option RouteRecord) Error)
| RRenew (r : result bool Error)
| RRelease (r : result unit Error).

(** A call with its two clock readings. *)
Record event := mkEvent { ev_now : Z; ev_later : Z; ev_op : reg_op }.

Section log.
Context {R : Type} `{RegistryContract R}.

Definition reg_exec (ev : event) (s : R) : R * reg_res :=
  let '(mkEvent now later op) := ev in
  match op with
  | OpClaim rec ttl => let '(s', r) := reg_claim now later rec ttl s in (s', RClaim r)
  | OpLookup k => let '(s', r) := reg_lookup now k s in (s', RLookup r)
  | OpRenew k sid ttl => let '(s', r) := reg_renew now later k sid ttl s in (s', RRenew r)
  | OpRelease k sid => let '(s', r) := reg_release now k sid s in (s', RRelease r)
  end.

Fixpoint reg_run (log : list event) (s : R) : R * list reg_res :=
  match log with
  | [] => (s, [])
  | ev :: log' =>
      let '(s', r) := reg_exec ev s in
      let '(s'', rs) := reg_run log' s' in (s'', r :: rs)
  end.

(** A call that may not touch the lease of [sid] on [k], except to renew it. *)
Definition respects (k sid : str) (op : reg_op) : Prop :=
  match op with
  | OpClaim rec ttl =>
      (routing_key rec = k → rec_session_id rec ≠ sid) ∧ reg_wf rec ∧ reg_ttl ttl
  | OpLookup _ => True
  | OpRenew _ _ ttl => reg_ttl ttl
  | OpRelease k' sid' => k' = k → sid' ≠ sid
  end.

(** How long the lease is known to last after a call. *)
Definition next_expiry (k sid : str) (e : Z) (ev : event) (r : reg_res) : Z :=
  match ev_op ev, r with
  | OpRenew k' sid' ttl, RRenew (Ok _) =>
      if decide (k' = k ∧ sid' = sid) then (ev_now ev + ttl)%Z else e
  | OpRenew k' sid' ttl, RRenew (Err _) =>
      if decide (k' = k ∧ sid' = sid) then Z.min e (ev_now ev + ttl) else e
  | _, _ => e
  end.

(** The log is in time order, every call comes before the lease runs out, and
    only the owner's renewals touch the lease. *)
Fixpoint kept_alive (k sid : str) (t e : Z) (log : list event) (rs : list reg_res) : Prop :=
  match log, rs with
  | ev :: log', r :: rs' =>
      (t ≤ ev_now ev < e)%Z ∧ (ev_now ev ≤ ev_later ev)%Z ∧ respects k sid (ev_op ev) ∧
      kept_alive k sid (ev_now ev) (next_expiry k sid e ev r) log' rs'
  | [], [] => True
  | _, _ => False
  end.

Fixpoint final_expiry (k sid : str) (e : Z) (log : list event) (rs : list reg_res) : Z :=
  match log, rs with
  | ev :: log', r :: rs' => final_expiry k sid (next_expiry k sid e ev r) log' rs'
  | _, _ => e
  end.

(** The owner [r] was not disturbed: nobody else acquired the key, lookups saw
    the owner, and the owner's renewals never reported a lost lease. *)
Definition undisturbed (k : str) (r : RouteRecord) (ev : event) (res : reg_res) : Prop :=
  match ev_op ev, res with
  | OpClaim rec _, RClaim (Ok c) => routing_key rec = k → c = Taken r
  | OpLookup k', RLookup (Ok o) => k' = k → o = Some r
  | OpRenew k' sid _, RRenew (Ok b) => k' = k → b = bool_decide (sid = rec_session_id r)
  | _, _ => True
  end.

(** The lease of [k] to [r] lasts at least until [e], seen from time [t]. *)
Definition holds_until (k : str) (r : RouteRecord) (t e : Z) (s : R) : Prop :=
  ∃ e', (e ≤ e')%Z ∧ ∀ u, (t ≤ u)%Z → reg_view u s k = if (u <? e')%Z then Some r else None.

Lemma holds_until_view k r t e s u :
  holds_until k r t e s → (t ≤ u < e)%Z → reg_view u s k = Some r.
Proof using Type.
  intros (e' & He & Hv) Hu. rewrite Hv by lia. by destruct (Z.ltb_spec u e'); [|lia].
Qed.

Lemma holds_until_weaken k r t t' e e' s :
  holds_until k r t e s → (t ≤ t')%Z → (e' ≤ e)%Z → holds_until k r t' e' s.
Proof using Type. intros (x & Hx & Hv) Ht He. exists x. split; [lia|]. intros u Hu. apply Hv. lia. Qed.

Lemma holds_until_agree k r t e s s' :
  agree_from t s s' → holds_until k r t e s → holds_until k r t e s'.
Proof using Type. intros Ha (x & Hx & Hv). exists x. split; [done|]. intros u Hu. by rewrite <- Ha, Hv. Qed.

Lemma holds_until_leased_other k k' r r' t e e' s s' :
  leased t k' r' e' s s' → k ≠ k' → holds_until k r t e s → holds_until k r t e s'.
Proof using Type.
  intros Hl Hk (x & Hx & Hv). exists x. split; [done|]. intros u Hu.
  by rewrite (Hl u k Hu), decide_False, Hv.
Qed.

Lemma holds_until_freed_other k k' r t e s s' :
  freed t k' s s' → k ≠ k' → holds_until k r t e s → holds_until k r t e s'.
Proof using Type.
  intros Hl Hk (x & Hx & Hv). exists x. split; [done|]. intros u Hu.
  by rewrite (Hl u k Hu), decide_False, Hv.
Qed.

Lemma holds_until_leased k r t e e' s s' :
  leased t k r e s s' → (e' ≤ e)%Z → holds_until k r t e' s'.
Proof using Type.
  intros Hl He. exists e. split; [done|]. intros u Hu. by rewrite (Hl u k Hu), decide_True.
Qed.

(** One call of each kind: the table's invariant and the lease survive it. *)
Section call.
Context (k : str) (r : RouteRecord) (now later e : Z) (s s' : R).
Context (Hinv : reg_inv s) (Hheld : holds_until k r now e s) (Hnow : (now < e)%Z).
Context (Hlater : (now ≤ later)%Z).

Lemma held_view : reg_view now s k = Some r.
Proof using All. eapply holds_until_view; [done|lia]. Qed.

Lemma held_claim rec ttl res :
  reg_claim now later rec ttl s = (s', res) →
  (routing_key rec = k → rec_session_id rec ≠ rec_session_id r) → reg_wf rec → reg_ttl ttl →
  reg_inv s' ∧ holds_until k r now e s' ∧
  ∀ c, res = Ok c → routing_key rec = k → c = Taken r.
Proof using All.
  intros E Hk Hwf Httl. pose proof held_view as Hv.
  destruct (claim_contract _ _ _ _ _ _ _ Hinv Hwf Httl Hlater E) as [Hi Hres].
  assert (∀ e', claimable now (routing_key rec) (rec_session_id rec) s →
            leased now (routing_key rec) rec e' s s' →
            routing_key rec ≠ k ∧ holds_until k r now e s') as Hacq.
  { intros e' Hc Hl. assert (routing_key rec ≠ k) as Hne.
    { intros <-. apply Hk; [done|]. symmetry. by apply Hc. }
    split; [done|]. by eapply holds_until_leased_other. }
  split; [done|]. destruct res as [[|o]|err].
  - destruct Hres as (Hc & e' & _ & Hl). destruct (Hacq e' Hc Hl) as [Hne Hh].
    split; [done|]. by intros c _ <-.
  - destruct Hres as (Hvo & _ & Ha). split; [by eapply holds_until_agree|].
    intros c [= <-] Heq. rewrite Heq, Hv in Hvo. by injection Hvo as <-.
  - split; [|done]. destruct Hres as [Ha|(Hc & e' & _ & Hl)].
    + by eapply holds_until_agree.
    + by apply (Hacq e' Hc Hl).
Qed.

Lemma held_lookup k' res :
  reg_lookup now k' s = (s', res) →
  reg_inv s' ∧ holds_until k r now e s' ∧ ∀ o, res = Ok o → k' = k → o = Some r.
Proof using All.
  intros E. pose proof held_view as Hv.
  destruct (lookup_contract _ _ _ _ _ Hinv E) as (Hi & Ha & Ho).
  split_and!; [done|by eapply holds_until_agree|]. intros o Hres ->. by rewrite (Ho o Hres).
Qed.

Lemma held_renew k' sid ttl res :
  reg_renew now later k' sid ttl s = (s', res) → reg_ttl ttl →
  reg_inv s' ∧
  holds_until k r now (next_expiry k (rec_session_id r) e
                         (mkEvent now later (OpRenew k' sid ttl)) (RRenew res)) s' ∧
  ∀ b, res = Ok b → k' = k → b = bool_decide (sid = rec_session_id r).
Proof using All.
  intros E Httl. pose proof held_view as Hv.
  destruct (renew_contract _ _ _ _ _ _ _ _ Hinv Httl Hlater E) as [Hi Hres].
  split; [done|]. unfold next_expiry. simpl.
  assert (∀ r' e', owned now k' sid s r' → leased now k' r' e' s s' → (now + ttl ≤ e')%Z →
    holds_until k r now (if decide (k' = k ∧ sid = rec_session_id r)
                         then now + ttl else e)%Z s' ∧
    (k' = k → sid = rec_session_id r)) as Hren.
  { intros r' e' [Hvo Hs] Hl He'. destruct (decide (k' = k)) as [->|Hne].
    - rewrite Hv in Hvo. injection Hvo as <-. rewrite decide_True by done.
      split; [|done]. by eapply holds_until_leased.
    - rewrite decide_False by naive_solver. split; [|done]. by eapply holds_until_leased_other. }
  destruct res as [[]|err].
  - destruct Hres as (r' & e' & Ho & He' & Hl). destruct (Hren r' e' Ho Hl) as [Hh Hk]; [lia|].
    split; [done|]. intros b [= <-] ->. by rewrite bool_decide_eq_true_2 by auto.
  - destruct Hres as [Hno Ha]. split.
    + rewrite decide_False; [by eapply holds_until_agree|]. intros [-> ->]. by apply (Hno r).
    + intros b [= <-] ->. rewrite bool_decide_eq_false_2; [done|]. intros ->. by apply (Hno r).
  - split; [|done]. destruct Hres as [Ha|(r' & e' & Ho & He' & Hl)].
    + case_decide; eapply holds_until_weaken; try (by eapply holds_until_agree); lia.
    + destruct (Hren r' e' Ho Hl) as [Hh _]; [lia|].
      case_decide; eapply holds_until_weaken; try done; lia.
Qed.

Lemma held_release k' sid res :
  reg_release now k' sid s = (s', res) → (k' = k → sid ≠ rec_session_id r) →
  reg_inv s' ∧ holds_until k r now e s'.
Proof using All.
  intros E Hk. pose proof held_view as Hv.
  destruct (release_contract _ _ _ _ _ _ Hinv E) as [Hi Hres]. split; [done|].
  assert (((∃ r', owned now k' sid s r') ∧ freed now k' s s') ∨ agree_from now s s') as Hr.
  { destruct res; [|destruct Hres as [Ha|Hres]; [by right|]]; naive_solver. }
  destruct Hr as [[[r' [Hvo Hs]] Hf]|Ha]; [|by eapply holds_until_agree].
  eapply holds_until_freed_other; [done| |done].
  intros <-. rewrite Hv in Hvo. injection Hvo as <-. by apply Hk.
Qed.
End call.

Lemma reg_exec_respects k r t e ev s s' res :
  reg_inv s → holds_until k r t e s → (t ≤ ev_now ev < e)%Z → (ev_now ev ≤ ev_later ev)%Z →
  respects k (rec_session_id r) (ev_op ev) → reg_exec ev s = (s', res) →
  reg_inv s' ∧ undisturbed k r ev res ∧
  holds_until k r (ev_now ev) (next_expiry k (rec_session_id r) e ev res) s'.
Proof using All.
  destruct ev as [now later op]. simpl. intros Hi Hh Ht Hl Hr Hx.
  apply (holds_until_weaken _ _ _ now _ e) in Hh; [|lia..].
  assert (now < e)%Z as Hn by lia.
  destruct op as [rec ttl|k'|k' sid' ttl|k' sid']; simpl in *;
    [destruct (reg_claim now later rec ttl s) as [s1 c] eqn:E
    |destruct (reg_lookup now k' s) as [s1 o] eqn:E
    |destruct (reg_renew now later k' sid' ttl s) as [s1 b] eqn:E
    |destruct (reg_release now k' sid' s) as [s1 u] eqn:E]; injection Hx as <- <-;
    unfold undisturbed; simpl.
  - destruct Hr as (Hk & Hwf & Httl).
    destruct (held_claim k r now later e s s1 Hi Hh Hn Hl _ _ _ E Hk Hwf Httl) as (? & ? & Hc).
    split_and!; [done| |done]. destruct c; auto.
  - destruct (held_lookup k r now later e s s1 Hi Hh Hn Hl _ _ E) as (? & ? & Ho).
    split_and!; [done| |done]. destruct o; auto.
  - destruct (held_renew k r now later e s s1 Hi Hh Hn Hl _ _ _ _ E Hr) as (? & ? & Hb).
    split_and!; [done| |done]. destruct b; auto.
  - destruct (held_release k r now later e s s1 Hi Hh Hn Hl _ _ _ E Hr) as (? & ?).
    split_and!; [done|by destruct u|done].
Qed.

Lemma reg_run_respects k r log t e s s' rs :
  reg_inv s → holds_until k r t e s → reg_run log s = (s', rs) →
  kept_alive k (rec_session_id r) t e log rs →
  reg_inv s' ∧ Forall2 (undisturbed k r) log rs ∧
  ∃ t', holds_until k r t' (final_expiry k (rec_session_id r) e log rs) s' ∧
        t' = default t (ev_now <$> last log).
Proof using All.
  revert t e s s' rs. induction log as [|ev log IH]; intros t e s s' rs Hi Hh Hrun Hk; simpl in *.
  - injection Hrun as <- <-. split_and!; [done|constructor|]. by exists t.
  - destruct (reg_exec ev s) as [s1 res] eqn:E. destruct (reg_run log s1) as [s2 rs2] eqn:E2.
    injection Hrun as <- <-. destruct Hk as (Ht & Hl & Hr & Hk).
    destruct (reg_exec_respects _ _ _ _ _ _ _ _ Hi Hh Ht Hl Hr E) as (Hi1 & Hu & Hh1).
    destruct (IH _ _ _ _ _ Hi1 Hh1 E2 Hk) as (Hi2 & Hf & t' & Hh2 & ->).
    split_and!; [done|by constructor|]. eexists; split; [exact Hh2|].
    destruct log as [|x l]; [done|]. rewrite last_cons_cons.
    destruct (last (x :: l)) eqn:El; [done|by apply last_None in El].
Qed.
End log.

(** ** The record codec *)

Definition tab_free (r : RouteRecord) : Prop :=
  (TAB ∉ routing_key r) ∧ (TAB ∉ rec_node_id r) ∧ (TAB ∉ rec_node_addr r) ∧
  (TAB ∉ rec_session_id r) ∧ (TAB ∉ rec_tunnel_id r) ∧ (TAB ∉ rec_account_id r).

#[export] Instance tab_free_dec r : Decision (tab_free r).
Proof. unfold tab_free. apply _. Defined.

Lemma split_encode r :
  tab_free r →
  split TAB (encode r) = [routing_key r; rec_node_id r; rec_node_addr r;
                          rec_session_id r; rec_tunnel_id r; rec_account_id r].
Proof.
  intros (H1 & H2 & H3 & H4 & H5 & H6). unfold encode.
  rewrite !split_cons, split_single by done. done.
Qed.

Lemma decode_Ok raw r :
  decode raw = Ok r ↔
  ∃ rest, split TAB raw = [routing_key r; rec_node_id r; rec_node_addr r;
                           rec_session_id r; rec_tunnel_id r; rec_account_id r] ++ rest.
Proof.
  unfold decode. destruct r as [k n a s t c].
  destruct (split TAB raw) as [|x1 [|x2 [|x3 [|x4 [|x5 [|x6 rest]]]]]]; cbn -[lit];
    split; try done; try (by intros [? ?]).
  - intros [= <- <- <- <- <- <-]. by exists rest.
  - intros [rest' [= -> -> -> -> -> -> _]]. done.
Qed.

Lemma decode_Err raw :
  length (split TAB raw) < 6 → ∃ field, decode raw = Err (RegistryUnavailable field).
Proof.
  unfold decode. intros Hl.
  destruct (split TAB raw) as [|x1 [|x2 [|x3 [|x4 [|x5 [|x6 rest]]]]]];
    simpl in Hl; try lia; eexists; reflexivity.
Qed.

Lemma decode_encode r : tab_free r → decode (encode r) = Ok r.
Proof. intros Hr. apply decode_Ok. exists []. by rewrite split_encode. Qed.

(** C37: a record without tabs survives the table's text form, so two such records
    with one text are equal; a text with fewer than six fields is a retryable
    backend fault, and anything after the sixth field is ignored. *)
Theorem record_roundtrip r raw :
  (tab_free r → decode (encode r) = Ok r) ∧
  (∀ r', tab_free r → tab_free r' → encode r = encode r' → r = r') ∧
  (length (split TAB raw) < 6 → ∃ e, decode raw = Err e ∧ is_retryable e = true) ∧
  (∀ x, decode raw = Ok r → decode (raw ++ TAB :: x) = Ok r).
Proof.
  split_and!.
  - apply decode_encode.
  - intros r' H H' He%(f_equal decode). rewrite !decode_encode in He by done. congruence.
  - intros [f Hf]%decode_Err. rewrite Hf. by eexists.
  - intros x [rest Hr]%decode_Ok. apply decode_Ok.
    assert (∀ s y, split TAB (s ++ TAB :: y) = split TAB s ++ split TAB y) as Hs.
    { intros s y. induction s as [|a s IH]; simpl; [done|].
      rewrite IH. case_decide; [done|].
      destruct (split TAB s) as [|w ws] eqn:E; [by apply split_not_nil in E|done]. }
    rewrite Hs, Hr. exists (rest ++ split TAB x). done.
Qed.
