(* ===== verification/MemoryRegistry.v ===== *)
(** * [norupo-core/src/registry.rs]: the process-local routing table *)

From S2P Require Import Prelude RustStr Crates CoreError Registry.

(** [Mutex<HashMap<String, (RouteRecord, Instant)>>]: every method holds the lock
    for its whole body. *)
Record MemoryRegistry := mkMemoryRegistry { inner : gmap str (RouteRecord * Z) }.

Definition memory_registry_new : MemoryRegistry := mkMemoryRegistry ∅.

Definition evict_expired (now : Z) (map : gmap str (RouteRecord * Z)) : gmap str (RouteRecord * Z) :=
  filter (λ p : str * (RouteRecord * Z), (now < p.2.2)%Z) map.

Definition mem_claim (now later : Z) (record : RouteRecord) (ttl : Z) (reg : MemoryRegistry)
  : MemoryRegistry * result Claim Error :=
  let map := evict_expired now (inner reg) in
  let insert := (mkMemoryRegistry (<[routing_key record := (record, (later + ttl)%Z)]> map),
                 Ok Acquired) in
  match map !! routing_key record with
  | Some (existing, _) =>
      if negb (bool_decide (rec_session_id existing = rec_session_id record))
      then (mkMemoryRegistry map, Ok (Taken existing))
      else insert
  | None => insert
  end.

Definition mem_lookup (now : Z) (routing_key : str) (reg : MemoryRegistry)
  : MemoryRegistry * result (option RouteRecord) Error :=
  let map := evict_expired now (inner reg) in
  (mkMemoryRegistry map, Ok (fst <$> map !! routing_key)).

Definition mem_renew (now later : Z) (routing_key session_id : str) (ttl : Z)
    (reg : MemoryRegistry) : MemoryRegistry * result bool Error :=
  let map := evict_expired now (inner reg) in
  match map !! routing_key with
  | Some (record, _) =>
      if bool_decide (rec_session_id record = session_id)
      then (mkMemoryRegistry (<[routing_key := (record, (later + ttl)%Z)]> map), Ok true)
      else (mkMemoryRegistry map, Ok false)
  | None => (mkMemoryRegistry map, Ok false)
  end.

(** [release] does not evict, and reads no clock. *)
Definition mem_release (routing_key session_id : str) (reg : MemoryRegistry)
  : MemoryRegistry * result unit Error :=
  match inner reg !! routing_key with
  | Some (record, _) =>
      if bool_decide (rec_session_id record = session_id)
      then (mkMemoryRegistry (delete routing_key (inner reg)), Ok tt)
      else (reg, Ok tt)
  | None => (reg, Ok tt)
  end.

#[export] Instance MemoryRegistry_ops : RegistryOps MemoryRegistry := {
  reg_claim := mem_claim;
  reg_lookup := mem_lookup;
  reg_renew := mem_renew;
  reg_release _ := mem_release;
}.

(** An entry counts until its expiry. *)
Definition mem_view (t : Z) (reg : MemoryRegistry) (k : str) : option RouteRecord :=
  match inner reg !! k with
  | Some (r, e) => if (t <? e)%Z then Some r else None
  | None => None
  end.

(** Every entry sits under its own routing key. *)
Definition mem_inv (reg : MemoryRegistry) : Prop :=
  map_Forall (λ k p, routing_key p.1 = k) (inner reg).

#[export] Instance MemoryRegistry_view : RegistryView MemoryRegistry := {
  reg_view := mem_view;
  reg_inv := mem_inv;
  reg_wf _ := True;
  reg_ttl _ := True;
}.

(** ** Lemmas *)

Lemma evict_lookup now m k :
  evict_expired now m !! k =
  match m !! k with
  | Some (r, e) => if (now <? e)%Z then Some (r, e) else None
  | None => None
  end.
Proof.
  unfold evict_expired. destruct (filter _ m !! k) as [[r e]|] eqn:E.
  - apply map_lookup_filter_Some in E as [-> Hp]. simpl in Hp.
    by destruct (Z.ltb_spec now e); [|lia].
  - apply map_lookup_filter_None in E as [->|Hn]; [done|].
    destruct (m !! k) as [[r e]|]; [|done]. specialize (Hn _ eq_refl). simpl in Hn.
    by destruct (Z.ltb_spec now e); [lia|].
Qed.

Lemma evict_view now m k : fst <$> evict_expired now m !! k = mem_view now (mkMemoryRegistry m) k.
Proof.
  rewrite evict_lookup. unfold mem_view. simpl. destruct (m !! k) as [[r e]|]; [|done].
  by destruct (now <? e)%Z.
Qed.

Lemma evict_agree now reg : agree_from now reg (mkMemoryRegistry (evict_expired now (inner reg))).
Proof.
  intros t k Ht. simpl. unfold mem_view. simpl. rewrite evict_lookup.
  destruct (inner reg !! k) as [[r e]|]; [|done].
  destruct (Z.ltb_spec now e); [done|]. by destruct (Z.ltb_spec t e); [lia|].
Qed.

Lemma evict_inv now reg : mem_inv reg → mem_inv (mkMemoryRegistry (evict_expired now (inner reg))).
Proof. intros Hi k p Hp. apply map_lookup_filter_Some in Hp as [Hp _]. by apply Hi. Qed.

Lemma insert_inv m k r e :
  mem_inv (mkMemoryRegistry m) → routing_key r = k → mem_inv (mkMemoryRegistry (<[k := (r, e)]> m)).
Proof. intros Hi Hk. apply map_Forall_insert_2; done. Qed.

Lemma insert_leased now k r e reg :
  leased now k r e reg (mkMemoryRegistry (<[k := (r, e)]> (evict_expired now (inner reg)))).
Proof.
  intros t k' Ht. simpl. case_decide as Hk.
  - subst. unfold mem_view. simpl. by rewrite lookup_insert_eq.
  - pose proof (evict_agree now reg t k' Ht) as Ha. simpl in Ha. rewrite Ha.
    unfold mem_view. simpl. by rewrite lookup_insert_ne.
Qed.

Lemma mem_claim_view now later record ttl reg :
  mem_claim now later record ttl reg =
  match mem_view now reg (routing_key record) with
  | Some o => if decide (rec_session_id o = rec_session_id record)
              then (mkMemoryRegistry (<[routing_key record := (record, (later + ttl)%Z)]>
                      (evict_expired now (inner reg))), Ok Acquired)
              else (mkMemoryRegistry (evict_expired now (inner reg)), Ok (Taken o))
  | None => (mkMemoryRegistry (<[routing_key record := (record, (later + ttl)%Z)]>
               (evict_expired now (inner reg))), Ok Acquired)
  end.
Proof.
  unfold mem_claim. rewrite evict_lookup. unfold mem_view.
  destruct (inner reg !! routing_key record) as [[o e]|]; [|done].
  destruct (now <? e)%Z; [|done]. case_decide.
  - by rewrite bool_decide_eq_true_2.
  - by rewrite bool_decide_eq_false_2.
Qed.

Lemma mem_renew_view now later k sid ttl reg :
  mem_renew now later k sid ttl reg =
  match mem_view now reg k with
  | Some r => if decide (rec_session_id r = sid)
              then (mkMemoryRegistry (<[k := (r, (later + ttl)%Z)]>
                      (evict_expired now (inner reg))), Ok true)
              else (mkMemoryRegistry (evict_expired now (inner reg)), Ok false)
  | None => (mkMemoryRegistry (evict_expired now (inner reg)), Ok false)
  end.
Proof.
  unfold mem_renew. rewrite evict_lookup. unfold mem_view.
  destruct (inner reg !! k) as [[o e]|]; [|done].
  destruct (now <? e)%Z; [|done]. case_decide.
  - by rewrite bool_decide_eq_true_2.
  - by rewrite bool_decide_eq_false_2.
Qed.

Lemma mem_view_key now reg k r : mem_inv reg → mem_view now reg k = Some r → routing_key r = k.
Proof.
  unfold mem_view. intros Hi Hv. destruct (inner reg !! k) as [[o e]|] eqn:E; [|done].
  destruct (now <? e)%Z; [|done]. injection Hv as <-. by apply (Hi k (o, e)).
Qed.

Lemma mem_release_contract now k sid reg :
  let s' := (mem_release k sid reg).1 in
  (mem_inv reg → mem_inv s') ∧
  ((∃ r, owned now k sid reg r) ∧ freed now k reg s' ∨
   (∀ r, ¬ owned now k sid reg r) ∧ agree_from now reg s').
Proof.
  unfold mem_release, owned. simpl.
  destruct (inner reg !! k) as [[r e]|] eqn:E; simpl; cycle 1.
  { split; [done|]. right. split; [|reflexivity].
    intros r [Hv _]. unfold mem_view in Hv. by rewrite E in Hv. }
  assert (mem_view now reg k = if (now <? e)%Z then Some r else None) as Hview
    by (unfold mem_view; by rewrite E).
  case_bool_decide as Hs; simpl; cycle 1.
  { split; [done|]. right. split; [|reflexivity].
    intros r' [Hr' Hs']. rewrite Hview in Hr'.
    destruct (now <? e)%Z; [|done]. by injection Hr' as <-. }
  split; [intros Hi; by apply map_Forall_delete|].
  assert (freed now k reg (mkMemoryRegistry (delete k (inner reg)))) as Hf.
  { intros t k' Ht. simpl. unfold mem_view. simpl. rewrite lookup_delete.
    destruct (decide (k' = k)); case_decide; simplify_eq; done. }
  rewrite Hview. destruct (Z.ltb_spec now e); [left; split; [by exists r|done]|].
  right. split; [by intros r' [? _]|]. intros t k' Ht. rewrite (Hf t k' Ht).
  case_decide; [subst|done]. simpl. unfold mem_view. rewrite E.
  by destruct (Z.ltb_spec t e); [lia|].
Qed.

#[export] Instance MemoryRegistry_contract : RegistryContract MemoryRegistry.
Proof.
  split.
  - intros now later rec ttl s s' res Hi _ Httl Hl. simpl. rewrite mem_claim_view.
    destruct (mem_view now s (routing_key rec)) as [o|] eqn:Hv; [case_decide as Hs|];
      intros [= <- <-].
    + split; [apply insert_inv; [by apply evict_inv|done]|]. split; [|exists (later + ttl)%Z; split; [lia|]].
      * intros o'. simpl. rewrite Hv. by intros [= <-].
      * apply insert_leased.
    + split; [by apply evict_inv|]. split_and!; [done..|apply evict_agree].
    + split; [apply insert_inv; [by apply evict_inv|done]|]. split; [|exists (later + ttl)%Z; split; [lia|]].
      * intros o'. simpl. by rewrite Hv.
      * apply insert_leased.
  - intros now k s s' res Hi. simpl. unfold mem_lookup. intros [= <- <-].
    split_and!; [by apply evict_inv|apply evict_agree|].
    intros o [= <-]. by rewrite evict_view; destruct s.
  - intros now later k sid ttl s s' res Hi Httl Hl. simpl. rewrite mem_renew_view.
    destruct (mem_view now s k) as [r|] eqn:Hv; [case_decide as Hs|]; intros [= <- <-].
    + split; [apply insert_inv; [by apply evict_inv|by eapply mem_view_key]|].
      exists r, (later + ttl)%Z. split_and!; [by split|lia|lia|apply insert_leased].
    + split; [by apply evict_inv|]. split; [|apply evict_agree].
      intros r' [Hr' Hs']. simpl in Hr'. rewrite Hv in Hr'. by injection Hr' as <-.
    + split; [by apply evict_inv|]. split; [|apply evict_agree].
      intros r' [Hr' _]. simpl in Hr'. by rewrite Hv in Hr'.
  - intros now k sid s s' res Hi. simpl. intros Hr.
    destruct (mem_release_contract now k sid s) as [Hinv Hrel].
    rewrite Hr in Hinv, Hrel. simpl in *. split; [auto|].
    assert (res = Ok tt) as ->; [|done].
    revert Hr. unfold mem_release. repeat case_match; congruence.
Qed.
