(* ===== verification/CoreTests.v ===== *)
(** * The unit tests of [norupo-core], run on the model

    Each [#[test]] function whose outcome is determined is a boolean here, with the
    source's name and the source's assertions in order; the examples evaluate it. The
    tests of uniqueness are left out: they are about the random generator. *)

From S2P Require Import Prelude RustStr Crates CoreError Routing Auth Ids Registry MemoryRegistry.

(** [assert_eq!(r.unwrap(), v)] and the like. *)
Definition ok_and {T E} (r : result T E) (p : T → bool) : bool :=
  match r with Ok v => p v | Err _ => false end.
Definition some_and {T} (r : option T) (p : T → bool) : bool :=
  match r with Some v => p v | None => false end.
Definition is_err {T E} (r : result T E) : bool := negb (is_ok r).
Definition is_some {T} (r : option T) : bool := some_and r (λ _, true).
Declare Scope test_scope.
Notation "x =? y" := (bool_decide (x = y)) : test_scope.

(** ** [routing.rs] *)
Module RoutingTests.
Local Open Scope test_scope.

Definition host_normalization_collapses_equivalent_forms : bool :=
  forallb (λ raw, normalize_host raw =? Ok (lit "api.tunnel.com"))
    [lit "api.tunnel.com"; lit "API.Tunnel.Com"; lit "api.tunnel.com:8080"; lit "api.tunnel.com.";
     lit "  api.tunnel.com  "].

Definition ipv6_literals_keep_their_colons : bool :=
  (normalize_host (lit "[::1]:8080") =? Ok (lit "[::1]")) &&
  (normalize_host (lit "[::1]") =? Ok (lit "[::1]")).

Definition host_normalization_rejects_junk : bool :=
  forallb (λ raw, is_err (normalize_host raw))
    [[]; lit "   "; lit "api.tunnel.com:http"; lit "[::1";
     "t"%char :: chr 195 :: chr 188 :: lit "nnel.com"] &&
  is_err (normalize_host (replicate 260 "a"%char ++ lit ".com")).

Definition subdomain_validation_enforces_dns_label_rules : bool :=
  (validate_subdomain (lit "My-App") =? Ok (lit "my-app")) &&
  (validate_subdomain (lit "a") =? Ok (lit "a")) &&
  forallb (λ bad, is_err (validate_subdomain bad))
    [[]; lit "-lead"; lit "trail-"; lit "has_underscore"; lit "has.dot"; lit "xn--fancy";
     lit "api"; lit "ADMIN"; replicate 64 "a"%char].

Definition public_host_and_subdomain_of_are_inverses : bool :=
  ok_and (public_host (lit "my-app") (lit "tunnel.com")) (λ host,
    (host =? lit "my-app.tunnel.com") &&
    (subdomain_of host (lit "tunnel.com") =? Some (lit "my-app"))) &&
  is_err (public_host (lit "-bad") (lit "tunnel.com")) &&
  (public_host (lit "api") (lit "tunnel.com") =? Ok (lit "api.tunnel.com")).

Definition subdomain_of_rejects_non_children : bool :=
  (subdomain_of (lit "a.b.tunnel.com") (lit "tunnel.com") =? None) &&
  (subdomain_of (lit "tunnel.com") (lit "tunnel.com") =? None) &&
  (subdomain_of (lit "eviltunnel.com") (lit "tunnel.com") =? None).

Definition reserved_labels_pass_syntax_but_fail_full_validation : bool :=
  is_ok (validate_subdomain_syntax (lit "api")) &&
  is_err (validate_subdomain (lit "api")) &&
  is_reserved_subdomain (lit "API") &&
  negb (is_reserved_subdomain (lit "my-app")) &&
  is_err (validate_subdomain_syntax (lit "-nope")).

Definition routing_key_display_is_stable : bool :=
  ok_and (routing_key_host (lit "API.tunnel.com:443")) (λ key, as_storage_key key =? lit "api.tunnel.com") &&
  (as_storage_key (TcpPort 41235) =? lit "tcp:41235").
End RoutingTests.

(** ** [registry.rs] *)
Module RegistryTests.
Local Open Scope test_scope.

Definition record (key session : str) : RouteRecord :=
  mkRouteRecord key (lit "node_a") (lit "10.0.0.1:7100") session (lit "tun_1") (lit "acct_1").
Definition api : str := lit "api.tunnel.com".
Definition sess_1 : str := lit "sess_1".
Definition sess_2 : str := lit "sess_2".

Definition records_round_trip : bool :=
  let original := record api sess_1 in
  decode (encode original) =? Ok original.

Definition session_id_sits_where_the_lua_scripts_expect_it : bool :=
  let encoded := encode (record api (lit "sess_owner")) in
  split TAB encoded !! 3 =? Some (lit "sess_owner").

(** Calls without a delay between them read the clock at 0. *)
Definition first_claimer_wins_and_the_loser_learns_the_owner : bool :=
  let reg := memory_registry_new in
  let ttl := 30000%Z in
  let '(reg, first) := mem_claim 0 0 (record api sess_1) ttl reg in
  let '(reg, outcome) := mem_claim 0 0 (record api sess_2) ttl reg in
  (first =? Ok Acquired) &&
  ok_and outcome (λ c, match c with
                       | Taken owner => rec_session_id owner =? sess_1
                       | Acquired => false
                       end).

Definition reclaiming_your_own_key_is_idempotent : bool :=
  let reg := memory_registry_new in
  let ttl := 30000%Z in
  let rec := record api sess_1 in
  let '(reg, first) := mem_claim 0 0 rec ttl reg in
  let '(reg, second) := mem_claim 0 0 rec ttl reg in
  (first =? Ok Acquired) && (second =? Ok Acquired).

Definition expired_claims_free_themselves : bool :=
  let reg := memory_registry_new in
  let '(reg, first) := mem_claim 0 0 (record api sess_1) 30 reg in
  let '(reg, found) := mem_lookup 60 api reg in
  let '(reg, second) := mem_claim 60 60 (record api sess_2) 30000 reg in
  is_ok first && (found =? Ok None) && (second =? Ok Acquired).

Definition renew_requires_ownership : bool :=
  let reg := memory_registry_new in
  let ttl := 30000%Z in
  let '(reg, claimed) := mem_claim 0 0 (record api sess_1) ttl reg in
  let '(reg, mine) := mem_renew 0 0 api sess_1 ttl reg in
  let '(reg, theirs) := mem_renew 0 0 api sess_2 ttl reg in
  let '(reg, nobodys) := mem_renew 0 0 (lit "nonexistent.tunnel.com") sess_1 ttl reg in
  is_ok claimed && (mine =? Ok true) && (theirs =? Ok false) && (nobodys =? Ok false).

Definition a_stale_node_cannot_release_someone_elses_claim : bool :=
  let reg := memory_registry_new in
  let ttl := 30000%Z in
  let '(reg, claimed) := mem_claim 0 0 (record api sess_2) ttl reg in
  let '(reg, released) := mem_release api sess_1 reg in
  let '(reg, found) := mem_lookup 0 api reg in
  is_ok claimed && is_ok released &&
  ok_and found (λ o, some_and o (λ still_there, rec_session_id still_there =? sess_2)).

Definition release_by_the_owner_frees_the_key : bool :=
  let reg := memory_registry_new in
  let '(reg, claimed) := mem_claim 0 0 (record api sess_1) 30000 reg in
  let '(reg, released) := mem_release api sess_1 reg in
  let '(reg, found) := mem_lookup 0 api reg in
  is_ok claimed && is_ok released && (found =? Ok None).
End RegistryTests.

(** ** [auth.rs] *)
Module AuthTests.
Local Open Scope test_scope.

Definition principal : Principal :=
  mkPrincipal (lit "acct_1") (lit "Ada") [lit "ada"] [lit "hooks.example.com"; lit "*.dev.example.com"]
    default_limits.

Definition static_auth_accepts_known_tokens_and_rejects_others : bool :=
  let auth := static_token_auth_new {[ lit "tok_good" := principal ]} in
  ok_and (static_authenticate auth (lit "tok_good")) (λ p, account_id p =? lit "acct_1") &&
  match static_authenticate auth (lit "tok_bad") with
  | Err err => (code err =? lit "unauthorized") && negb (is_retryable err)
  | Ok _ => false
  end.

Definition anonymous_mode_accepts_anything : bool :=
  let auth := static_token_auth_anonymous in
  ok_and (static_authenticate auth []) (λ p, account_id p =? lit "anonymous").

Definition reserved_subdomain_matching_is_case_insensitive : bool :=
  may_claim_subdomain principal (lit "ADA") && negb (may_claim_subdomain principal (lit "grace")).

Definition wildcard_domains_do_not_leak_to_siblings : bool :=
  let p := principal in
  may_use_custom_domain p (lit "hooks.example.com") &&
  may_use_custom_domain p (lit "a.dev.example.com") &&
  negb (may_use_custom_domain p (lit "dev.example.com")) &&
  negb (may_use_custom_domain p (lit "evildev.example.com")) &&
  negb (may_use_custom_domain p (lit "other.example.com")).
End AuthTests.

(** ** [error.rs] and [ids.rs] *)
Module ErrorTests.
Local Open Scope test_scope.

Definition retryable_classification_matches_reconnect_policy : bool :=
  is_retryable (RegistryUnavailable (lit "redis down")) &&
  negb (is_retryable (Unauthorized (lit "bad token"))) &&
  negb (is_retryable (RouteTaken (lit "api.tunnel.com"))).

Fixpoint contains (pattern s : str) : bool :=
  is_some (strip_prefix pattern s) || match s with [] => false | _ :: s => contains pattern s end.

Definition redact_never_prints_the_whole_secret : bool :=
  let out := redact (lit "supersecrettoken") in
  negb (contains (lit "supersecrettoken") out) && is_some (strip_prefix (lit "supe") out).

Definition ids_are_url_safe : bool :=
  let id := @Ids.tunnel_id modular_rng 0 in
  forallb (λ b, is_ascii_uppercase b || is_ascii_lowercase b || is_ascii_digit b || (b =? "_"%char)) id.
End ErrorTests.

(** ** They pass *)

Example routing_tests_pass :
  RoutingTests.host_normalization_collapses_equivalent_forms && RoutingTests.ipv6_literals_keep_their_colons &&
  RoutingTests.host_normalization_rejects_junk && RoutingTests.subdomain_validation_enforces_dns_label_rules &&
  RoutingTests.public_host_and_subdomain_of_are_inverses && RoutingTests.subdomain_of_rejects_non_children &&
  RoutingTests.reserved_labels_pass_syntax_but_fail_full_validation &&
  RoutingTests.routing_key_display_is_stable = true.
Proof. vm_compute. reflexivity. Qed.

Example registry_tests_pass :
  RegistryTests.records_round_trip && RegistryTests.session_id_sits_where_the_lua_scripts_expect_it &&
  RegistryTests.first_claimer_wins_and_the_loser_learns_the_owner &&
  RegistryTests.reclaiming_your_own_key_is_idempotent && RegistryTests.expired_claims_free_themselves &&
  RegistryTests.renew_requires_ownership && RegistryTests.a_stale_node_cannot_release_someone_elses_claim &&
  RegistryTests.release_by_the_owner_frees_the_key = true.
Proof. vm_compute. reflexivity. Qed.

Example auth_tests_pass :
  AuthTests.static_auth_accepts_known_tokens_and_rejects_others && AuthTests.anonymous_mode_accepts_anything &&
  AuthTests.reserved_subdomain_matching_is_case_insensitive &&
  AuthTests.wildcard_domains_do_not_leak_to_siblings = true.
Proof. vm_compute. reflexivity. Qed.

Example error_tests_pass :
  ErrorTests.retryable_classification_matches_reconnect_policy &&
  ErrorTests.redact_never_prints_the_whole_secret && ErrorTests.ids_are_url_safe = true.
Proof. vm_compute. reflexivity. Qed.
