(* ===== verification/RedisRegistry.v ===== *)
(** * [norupo-core/src/registry.rs]: the Redis-backed routing table

    The three Lua scripts run atomically on the server. A call either gets the
    server's answer or a connection error, and an error does not tell whether the
    script ran. *)

From S2P Require Import Prelude RustStr Crates CoreError Registry.

(** How the next call ends: answered, or failed with an error before or after
    the server executed it. *)
Inductive outcome :=
| Answered
| Failed (executed : bool) (error : str).

(** The scripts' [string.match(current, P)] with [P] the pattern of three fields
    and their tabs followed by a captured fourth field: that field, or [nil]. *)
Definition lua_owner (current : str) : option str :=
  match split TAB current with
  | _ :: _ :: _ :: owner :: _ => Some owner
  | _ => None
  end.

Section redis_registry.
Context `{RedisServer}.

(** The connection's state is the server's store and how its next calls end. *)
Record RedisRegistry := mkRedisRegistry {
  conn : rstore;
  outcomes : list outcome;
  prefix : str;
}.

(** [CLAIM_SCRIPT]. *)
Definition claim_script (now : Z) (key value : str) (ttl : Z) (sid : str) (s : rstore)
  : rstore * str :=
  match rget now key s with
  | Some current =>
      if negb (bool_decide (lua_owner current = Some sid)) then (s, current)
      else (rset_px now key value ttl s, [])
  | None => (rset_px now key value ttl s, [])
  end.

(** [RENEW_SCRIPT]. *)
Definition renew_script (now : Z) (key : str) (ttl : Z) (sid : str) (s : rstore) : rstore * Z :=
  match rget now key s with
  | None => (s, 0%Z)
  | Some current =>
      if negb (bool_decide (lua_owner current = Some sid)) then (s, 0%Z)
      else (rpexpire now key ttl s, 1%Z)
  end.

(** [RELEASE_SCRIPT]. *)
Definition release_script (now : Z) (key sid : str) (s : rstore) : rstore * Z :=
  match rget now key s with
  | None => (s, 0%Z)
  | Some current =>
      if negb (bool_decide (lua_owner current = Some sid)) then (s, 0%Z)
      else (rdel key s, 1%Z)
  end.

(** [RedisRegistry::connect]: [open_client] checks the URL, [manager] connects. *)
Definition redis_connect (open_client : str → result str str)
    (manager : str → result (rstore * list outcome) str) (url table_prefix : str)
  : result RedisRegistry Error :=
  let? client := map_err (λ e, RegistryUnavailable (lit "bad redis url: " ++ e)) (open_client url) in
  let? c := map_err (λ e, RegistryUnavailable (lit "redis connect failed: " ++ e)) (manager client) in
  Ok (mkRedisRegistry c.1 c.2 table_prefix).

Definition redis_key (reg : RedisRegistry) (routing_key : str) : str :=
  prefix reg ++ lit "route:" ++ routing_key.

Definition unavailable (op e : str) : Error :=
  RegistryUnavailable (lit "redis " ++ op ++ lit " failed: " ++ e).

(** [u64::try_from(ttl.as_millis()).unwrap_or(u64::MAX)]. *)
Definition ttl_millis (ttl : Z) : Z := if (ttl <=? u64_max)%Z then ttl else u64_max.

(** One round trip: runs [script] on the server as the next outcome says. *)
Definition invoke {A} (op : str) (script : rstore → rstore * A) (reg : RedisRegistry)
  : RedisRegistry * result A Error :=
  let rest := tail (outcomes reg) in
  let '(s', a) := script (conn reg) in
  match outcomes reg with
  | Failed executed e :: _ =>
      (mkRedisRegistry (if executed then s' else conn reg) rest (prefix reg),
       Err (unavailable op e))
  | _ => (mkRedisRegistry s' rest (prefix reg), Ok a)
  end.

Definition redis_claim (now : Z) (record : RouteRecord) (ttl : Z) (reg : RedisRegistry)
  : RedisRegistry * result Claim Error :=
  let '(reg', res) :=
    invoke (lit "claim")
      (claim_script now (redis_key reg (routing_key record)) (encode record)
                    (ttl_millis ttl) (rec_session_id record)) reg in
  (reg', let? current := res in
         if bool_decide (current = []) then Ok Acquired
         else let? owner := decode current in Ok (Taken owner)).

Definition redis_lookup (now : Z) (routing_key : str) (reg : RedisRegistry)
  : RedisRegistry * result (option RouteRecord) Error :=
  let '(reg', res) :=
    invoke (lit "lookup") (λ s, (s, rget now (redis_key reg routing_key) s)) reg in
  (reg', let? raw := res in
         match raw with
         | None => Ok None
         | Some text => let? r := decode text in Ok (Some r)
         end).

Definition redis_renew (now : Z) (routing_key session_id : str) (ttl : Z) (reg : RedisRegistry)
  : RedisRegistry * result bool Error :=
  let '(reg', res) :=
    invoke (lit "renew")
      (renew_script now (redis_key reg routing_key) (ttl_millis ttl) session_id) reg in
  (reg', let? renewed := res in Ok (bool_decide (renewed = 1%Z))).

Definition redis_release (now : Z) (routing_key session_id : str) (reg : RedisRegistry)
  : RedisRegistry * result unit Error :=
  let '(reg', res) :=
    invoke (lit "release") (release_script now (redis_key reg routing_key) session_id) reg in
  (reg', let? _ := res in Ok tt).

(** The server reads one clock per call. *)
#[export] Instance RedisRegistry_ops : RegistryOps RedisRegistry := {
  reg_claim now _ := redis_claim now;
  reg_lookup := redis_lookup;
  reg_renew now _ := redis_renew now;
  reg_release := redis_release;
}.

(** Every key of the table's own namespace holds a tab-free record under its own
    routing key. *)
Definition redis_inv (reg : RedisRegistry) : Prop :=
  ∀ k v e, rcontent (conn reg) (redis_key reg k) = Some (v, e) →
    ∃ r, tab_free r ∧ v = encode r ∧ routing_key r = k.

Definition redis_view (t : Z) (reg : RedisRegistry) (k : str) : option RouteRecord :=
  text ← rget t (redis_key reg k) (conn reg); res_ok (decode text).

#[export] Instance RedisRegistry_view : RegistryView RedisRegistry := {
  reg_view := redis_view;
  reg_inv := redis_inv;
  reg_wf := tab_free;
  reg_ttl ttl := (0 < ttl < 2 ^ 53)%Z;
}.

(** ** Lemmas *)

Lemma redis_key_inj reg k k' : redis_key reg k = redis_key reg k' → k = k'.
Proof using Type. unfold redis_key. intros He%app_inv_head%app_inv_head. done. Qed.

Lemma ttl_millis_id ttl : (0 < ttl < 2 ^ 53)%Z → ttl_millis ttl = ttl.
Proof using Type. unfold ttl_millis, u64_max. intros Ht. destruct (Z.leb_spec ttl 18446744073709551615); lia. Qed.

Lemma lua_owner_encode r : tab_free r → lua_owner (encode r) = Some (rec_session_id r).
Proof using Type. intros Hr. unfold lua_owner. by rewrite split_encode. Qed.

Lemma encode_not_nil r : encode r ≠ [].
Proof using Type. unfold encode. by destruct (routing_key r). Qed.

(** What [GET] sees in a well-formed table. *)
Lemma rget_view now reg k :
  redis_inv reg →
  match redis_view now reg k with
  | Some r => rget now (redis_key reg k) (conn reg) = Some (encode r) ∧ tab_free r ∧
              routing_key r = k ∧
              ∃ e, rcontent (conn reg) (redis_key reg k) = Some (encode r, e) ∧ (now < e)%Z
  | None => rget now (redis_key reg k) (conn reg) = None
  end.
Proof using Type.
  intros Hi. unfold redis_view, rget.
  destruct (rcontent (conn reg) (redis_key reg k)) as [[v e]|] eqn:E; [|done].
  destruct (Z.ltb_spec now e) as [Hlt|]; [|done].
  destruct (Hi _ _ _ E) as (r & Hr & -> & Hk). cbn. rewrite decode_encode by done. cbn.
  split_and!; try done. by exists e.
Qed.

Lemma redis_same_store reg o : 
  redis_inv reg → redis_inv (mkRedisRegistry (conn reg) o (prefix reg)) ∧
  ∀ now, agree_from now reg (mkRedisRegistry (conn reg) o (prefix reg)).
Proof using Type. by destruct reg. Qed.

(** Writing a record's text under its own key leases the key. *)
Lemma redis_set_leased now reg k r e s' o :
  redis_inv reg → tab_free r → routing_key r = k →
  (∀ key, rcontent s' key = if decide (key = redis_key reg k) then Some (encode r, e)
                            else rcontent (conn reg) key) →
  redis_inv (mkRedisRegistry s' o (prefix reg)) ∧
  leased now k r e reg (mkRedisRegistry s' o (prefix reg)).
Proof using Type.
  intros Hi Hr Hk Hs. split.
  - intros k' v e'. simpl. rewrite Hs. change (redis_key (mkRedisRegistry s' o (prefix reg)) k')
      with (redis_key reg k'). case_decide as Hd; [|apply Hi].
    intros [= <- <-]. apply redis_key_inj in Hd as ->. by exists r.
  - intros t k' Ht. simpl. unfold redis_view, rget. simpl. rewrite Hs.
    change (redis_key (mkRedisRegistry s' o (prefix reg)) k') with (redis_key reg k').
    destruct (decide (k' = k)) as [->|Hne].
    + rewrite decide_True by done. destruct (t <? e)%Z; [|done]. cbn.
      by rewrite decode_encode.
    + rewrite decide_False; [done|]. by intros ?%redis_key_inj.
Qed.

Lemma redis_del_freed now reg k s' o :
  redis_inv reg →
  (∀ key, rcontent s' key = if decide (key = redis_key reg k) then None
                            else rcontent (conn reg) key) →
  redis_inv (mkRedisRegistry s' o (prefix reg)) ∧
  freed now k reg (mkRedisRegistry s' o (prefix reg)).
Proof using Type.
  intros Hi Hs. split.
  - intros k' v e'. simpl. rewrite Hs. case_decide; [done|apply Hi].
  - intros t k' Ht. simpl. unfold redis_view, rget. simpl. rewrite Hs.
    change (redis_key (mkRedisRegistry s' o (prefix reg)) k') with (redis_key reg k').
    destruct (decide (k' = k)) as [->|Hne].
    + by rewrite decide_True.
    + rewrite decide_False; [done|]. by intros ?%redis_key_inj.
Qed.

(** The claim script on a well-formed table. *)
Lemma claim_script_effect now reg rec ttl o s' cur :
  redis_inv reg → tab_free rec → (0 < ttl < 2 ^ 53)%Z →
  claim_script now (redis_key reg (routing_key rec)) (encode rec) (ttl_millis ttl)
    (rec_session_id rec) (conn reg) = (s', cur) →
  redis_inv (mkRedisRegistry s' o (prefix reg)) ∧
  ((∃ r, cur = encode r ∧ tab_free r ∧ s' = conn reg ∧
      redis_view now reg (routing_key rec) = Some r ∧ rec_session_id r ≠ rec_session_id rec) ∨
   (cur = [] ∧ claimable now (routing_key rec) (rec_session_id rec) reg ∧
      leased now (routing_key rec) rec (now + ttl) reg (mkRedisRegistry s' o (prefix reg)))).
Proof using Type.
  intros Hi Hr Ht. unfold claim_script. rewrite ttl_millis_id by done.
  pose proof (rget_view now reg (routing_key rec) Hi) as Hg.
  destruct (redis_set_leased now reg (routing_key rec) rec (now + ttl)
              (rset_px now (redis_key reg (routing_key rec)) (encode rec) ttl (conn reg)) o
              Hi Hr eq_refl) as [Hi' Hl]; [intros key; by apply rset_px_content|].
  destruct (redis_view now reg (routing_key rec)) as [r|] eqn:Hv.
  - destruct Hg as (-> & Hf & Hk & _). rewrite lua_owner_encode by done.
    case_bool_decide as Hs; intros [= <- <-].
    + split; [done|]. right. split_and!; [done| |done].
      intros r'. simpl. rewrite Hv. intros [= <-]. by injection Hs as ->.
    + split; [by apply redis_same_store|]. left. exists r. split_and!; [done..|].
      intros He. apply Hs. by rewrite He.
  - rewrite Hg. intros [= <- <-]. split; [done|]. right. split_and!; [done| |done].
    intros r'. simpl. by rewrite Hv.
Qed.

Lemma renew_script_effect now reg k ttl sid o s' n :
  redis_inv reg → (0 < ttl < 2 ^ 53)%Z →
  renew_script now (redis_key reg k) (ttl_millis ttl) sid (conn reg) = (s', n) →
  redis_inv (mkRedisRegistry s' o (prefix reg)) ∧
  ((n = 1%Z ∧ ∃ r, owned now k sid reg r ∧
      leased now k r (now + ttl) reg (mkRedisRegistry s' o (prefix reg))) ∨
   (n = 0%Z ∧ (∀ r, ¬ owned now k sid reg r) ∧ s' = conn reg)).
Proof using Type.
  intros Hi Ht. unfold renew_script, owned. simpl. rewrite ttl_millis_id by done.
  pose proof (rget_view now reg k Hi) as Hg.
  destruct (redis_view now reg k) as [r|] eqn:Hv.
  - destruct Hg as (-> & Hf & Hk & e & Hc & He). rewrite lua_owner_encode by done.
    case_bool_decide as Hs; intros [= <- <-]; simpl.
    + destruct (redis_set_leased now reg k r (now + ttl)
                  (rpexpire now (redis_key reg k) ttl (conn reg)) o Hi Hf Hk) as [Hi' Hl];
        [intros key; by apply rpexpire_content with (e := e)|].
      split; [done|]. left. split; [done|]. exists r. split; [|done].
      split; [done|]. by injection Hs.
    + split; [by apply redis_same_store|]. right. split_and!; [done| |done].
      intros r' [Hr' <-]. injection Hr' as <-. by apply Hs.
  - rewrite Hg. intros [= <- <-]. split; [by apply redis_same_store|]. right.
    split_and!; [done| |done]. by intros r' [? _].
Qed.

Lemma release_script_effect now reg k sid o s' n :
  redis_inv reg →
  release_script now (redis_key reg k) sid (conn reg) = (s', n) →
  redis_inv (mkRedisRegistry s' o (prefix reg)) ∧
  ((∃ r, owned now k sid reg r) ∧ freed now k reg (mkRedisRegistry s' o (prefix reg)) ∨
   (∀ r, ¬ owned now k sid reg r) ∧ s' = conn reg).
Proof using Type.
  intros Hi. unfold release_script, owned. simpl.
  pose proof (rget_view now reg k Hi) as Hg.
  destruct (redis_view now reg k) as [r|] eqn:Hv.
  - destruct Hg as (-> & Hf & Hk & _). rewrite lua_owner_encode by done.
    case_bool_decide as Hs; intros [= <- <-]; simpl.
    + destruct (redis_del_freed now reg k (rdel (redis_key reg k) (conn reg)) o Hi)
        as [Hi' Hl]; [intros key; apply rdel_content|].
      split; [done|]. left. split; [|done]. exists r. split; [done|]. by injection Hs.
    + split; [by apply redis_same_store|]. right. split; [|done].
      intros r' [Hr' <-]. injection Hr' as <-. by apply Hs.
  - rewrite Hg. intros [= <- <-]. split; [by apply redis_same_store|]. right.
    split; [|done]. by intros r' [? _].
Qed.

(** A round trip runs the script, or not, and answers only after running it. *)
Lemma invoke_effect {A} op (script : rstore → rstore * A) reg reg' res :
  invoke op script reg = (reg', res) →
  ∃ s' a, script (conn reg) = (s', a) ∧
    ((reg' = mkRedisRegistry s' (tail (outcomes reg)) (prefix reg) ∧
      (res = Ok a ∨ ∃ e, res = Err e)) ∨
     (reg' = mkRedisRegistry (conn reg) (tail (outcomes reg)) (prefix reg) ∧ ∃ e, res = Err e)).
Proof using Type.
  unfold invoke. destruct (script (conn reg)) as [s' a]. intros Hi. exists s', a.
  split; [done|]. destruct (outcomes reg) as [|[|[] e] rest]; injection Hi as <- <-; eauto 6.
Qed.

Lemma redis_claim_contract now rec ttl s s' res :
  redis_inv s → tab_free rec → (0 < ttl < 2 ^ 53)%Z →
  redis_claim now rec ttl s = (s', res) →
  redis_inv s' ∧
  let acquired := claimable now (routing_key rec) (rec_session_id rec) s ∧
    leased now (routing_key rec) rec (now + ttl) s s' in
  match res with
  | Ok Acquired => acquired
  | Ok (Taken o) => redis_view now s (routing_key rec) = Some o ∧
                    rec_session_id o ≠ rec_session_id rec ∧ agree_from now s s'
  | Err _ => agree_from now s s' ∨ acquired
  end.
Proof using Type.
  intros Hi Hwf Ht. unfold redis_claim.
  destruct (invoke _ _ s) as [s1 r1] eqn:E. intros [= <- <-].
  apply invoke_effect in E as (store & cur & Hs & Hcase).
  destruct (redis_same_store s (tail (outcomes s)) Hi) as [Hi0 Ha].
  destruct (claim_script_effect _ _ _ _ (tail (outcomes s)) _ _ Hi Hwf Ht Hs) as [Hi1 Hcur].
  destruct Hcase as [[-> Hres]|[-> [e ->]]]; [|by split; [|left]].
  split; [done|]. destruct Hcur as [(r & -> & Hr & -> & Hv & Hne)|(-> & Hc & Hl)].
  - destruct Hres as [->|[e ->]]; [|by left]. cbn [res_bind].
    rewrite bool_decide_eq_false_2 by apply encode_not_nil. by rewrite decode_encode.
  - destruct Hres as [->|[e ->]]; [done|by right].
Qed.

Lemma redis_renew_contract now k sid ttl s s' res :
  redis_inv s → (0 < ttl < 2 ^ 53)%Z → redis_renew now k sid ttl s = (s', res) →
  redis_inv s' ∧
  let renewed := ∃ r, owned now k sid s r ∧ leased now k r (now + ttl) s s' in
  match res with
  | Ok true => renewed
  | Ok false => (∀ r, ¬ owned now k sid s r) ∧ agree_from now s s'
  | Err _ => agree_from now s s' ∨ renewed
  end.
Proof using Type.
  intros Hi Ht. unfold redis_renew.
  destruct (invoke _ _ s) as [s1 r1] eqn:E. intros [= <- <-].
  apply invoke_effect in E as (store & n & Hs & Hcase).
  destruct (redis_same_store s (tail (outcomes s)) Hi) as [Hi0 Ha].
  destruct (renew_script_effect _ _ _ _ _ (tail (outcomes s)) _ _ Hi Ht Hs) as [Hi1 Hn].
  destruct Hcase as [[-> Hres]|[-> [e ->]]]; [|by split; [|left]].
  split; [done|]. destruct Hn as [[-> Hr]|(-> & Hno & ->)].
  - destruct Hres as [->|[e ->]]; [done|by right].
  - destruct Hres as [->|[e ->]]; [by split|by left].
Qed.

Lemma redis_release_contract now k sid s s' res :
  redis_inv s → redis_release now k sid s = (s', res) →
  redis_inv s' ∧
  let released := (∃ r, owned now k sid s r) ∧ freed now k s s' ∨
                  (∀ r, ¬ owned now k sid s r) ∧ agree_from now s s' in
  match res with
  | Ok _ => released
  | Err _ => agree_from now s s' ∨ released
  end.
Proof using Type.
  intros Hi. unfold redis_release.
  destruct (invoke _ _ s) as [s1 r1] eqn:E. intros [= <- <-].
  apply invoke_effect in E as (store & n & Hs & Hcase).
  destruct (redis_same_store s (tail (outcomes s)) Hi) as [Hi0 Ha].
  destruct (release_script_effect now _ _ _ (tail (outcomes s)) _ _ Hi Hs) as [Hi1 Hn].
  destruct Hcase as [[-> Hres]|[-> [e ->]]]; [|by split; [|left]].
  split; [done|].
  assert ((∃ r, owned now k sid s r) ∧
            freed now k s (mkRedisRegistry store (tail (outcomes s)) (prefix s)) ∨
          (∀ r, ¬ owned now k sid s r) ∧
            agree_from now s (mkRedisRegistry store (tail (outcomes s)) (prefix s))) as Hrel.
  { destruct Hn as [Hn|[Hno ->]]; [by left|right]. by split. }
  destruct Hres as [->|[e ->]]; [done|by right].
Qed.

#[export] Instance RedisRegistry_contract : RegistryContract RedisRegistry.
Proof using Type.
  split.
  - intros now later rec ttl s s' res Hi Hwf Ht Hl Hc.
    destruct (redis_claim_contract _ _ _ _ _ _ Hi Hwf Ht Hc) as [Hi' Hres]. split; [done|].
    assert (now + ttl ≤ now + ttl ≤ later + ttl)%Z by lia.
    destruct res as [[|o]|e]; naive_solver.
  - intros now k s s' res Hi. simpl. unfold redis_lookup.
    destruct (invoke _ _ s) as [s1 r1] eqn:E. intros [= <- <-].
    apply invoke_effect in E as (store & raw & [= <- Hraw] & Hcase).
    destruct (redis_same_store s (tail (outcomes s)) Hi) as [Hi0 Ha].
    assert (s1 = mkRedisRegistry (conn s) (tail (outcomes s)) (prefix s)) as ->
      by (by destruct Hcase as [[-> _]|[-> _]]).
    split_and!; [done..|]. intros o Ho. pose proof (rget_view now s k Hi) as Hg.
    destruct Hcase as [[_ [->|[e ->]]]|[_ [e ->]]]; [|done..]. simpl in Ho. subst raw.
    destruct (redis_view now s k) as [r|].
    + destruct Hg as (Hg & Hf & _). rewrite Hg, decode_encode in Ho by done. by injection Ho.
    + rewrite Hg in Ho. by injection Ho.
  - intros now later k sid ttl s s' res Hi Ht Hl Hc.
    destruct (redis_renew_contract _ _ _ _ _ _ _ Hi Ht Hc) as [Hi' Hres]. split; [done|].
    assert (now + ttl ≤ now + ttl ≤ later + ttl)%Z by lia.
    destruct res as [[]|e]; naive_solver.
  - intros now k sid s s' res Hi Hc. exact (redis_release_contract _ _ _ _ _ _ Hi Hc).
Qed.
End redis_registry.
