(* ===== verification/Leases.v ===== *)
(** * What the routing table guarantees, whichever backend holds it

    Theorems about every implementation of the [RegistryContract], and the
    comparison of the two the program has. *)

From S2P Require Import Prelude RustStr Crates CoreError Registry MemoryRegistry RedisRegistry.

(** ** Results of answered calls *)

Definition reg_answered (r : reg_res) : Prop :=
  match r with
  | RClaim (Err _) | RLookup (Err _) | RRenew (Err _) | RRelease (Err _) => False
  | _ => True
  end.

Definition plain_op (op : reg_op) : Prop :=
  match op with
  | OpClaim rec ttl => tab_free rec ∧ (0 < ttl < 2 ^ 53)%Z
  | OpRenew _ _ ttl => (0 < ttl < 2 ^ 53)%Z
  | _ => True
  end.

(** The log is in time order from [t] on, every call reads one time, and every
    record and lifetime is one both backends can store. *)
Fixpoint plain_log (t : Z) (log : list event) : Prop :=
  match log with
  | [] => True
  | ev :: log' =>
      (t ≤ ev_now ev)%Z ∧ ev_later ev = ev_now ev ∧
      plain_op (ev_op ev) ∧ plain_log (ev_now ev) log'
  end.

(** What [plain_op] asks, for a backend's own notion of storable. *)
Definition op_storable {R} `{RegistryView R} (op : reg_op) : Prop :=
  match op with
  | OpClaim rec ttl => reg_wf (R:=R) rec ∧ reg_ttl (R:=R) ttl
  | OpRenew _ _ ttl => reg_ttl (R:=R) ttl
  | _ => True
  end.

(** ** Two backends side by side *)

Section side_by_side.
Context {R1 R2 : Type} `{C1 : RegistryContract R1} `{C2 : RegistryContract R2}.

Definition same_leases (now : Z) (s1 : R1) (s2 : R2) : Prop :=
  ∀ t k, (now ≤ t)%Z → reg_view t s1 k = reg_view t s2 k.

Lemma same_leases_later now t s1 s2 : (now ≤ t)%Z → same_leases now s1 s2 → same_leases t s1 s2.
Proof using Type. intros Ht Hs u k Hu. apply Hs. lia. Qed.

Lemma same_leases_agree now s1 s1' s2 s2' :
  agree_from now s1 s1' → agree_from now s2 s2' → same_leases now s1 s2 → same_leases now s1' s2'.
Proof using Type. intros A1 A2 Hs t k Ht. by rewrite <- A1, <- A2, Hs. Qed.

Lemma same_leases_leased now k r e s1 s1' s2 s2' :
  leased now k r e s1 s1' → leased now k r e s2 s2' →
  same_leases now s1 s2 → same_leases now s1' s2'.
Proof using Type. intros A1 A2 Hs t k' Ht. rewrite (A1 t k' Ht), (A2 t k' Ht). case_decide; auto. Qed.

Lemma same_leases_freed now k s1 s1' s2 s2' :
  freed now k s1 s1' → freed now k s2 s2' → same_leases now s1 s2 → same_leases now s1' s2'.
Proof using Type. intros A1 A2 Hs t k' Ht. rewrite (A1 t k' Ht), (A2 t k' Ht). case_decide; auto. Qed.

Context (now : Z) (s1 s1' : R1) (s2 s2' : R2).
Context (I1 : reg_inv s1) (I2 : reg_inv s2) (Hsame : same_leases now s1 s2).

Lemma same_view k : reg_view now s1 k = reg_view now s2 k.
Proof using Hsame. apply Hsame. lia. Qed.

Lemma same_claim rec ttl c1 c2 :
  reg_wf (R:=R1) rec → reg_wf (R:=R2) rec → reg_ttl (R:=R1) ttl → reg_ttl (R:=R2) ttl →
  reg_claim now now rec ttl s1 = (s1', Ok c1) → reg_claim now now rec ttl s2 = (s2', Ok c2) →
  c1 = c2 ∧ reg_inv s1' ∧ reg_inv s2' ∧ same_leases now s1' s2'.
Proof using All.
  intros W1 W2 T1 T2 E1 E2.
  destruct (claim_contract _ _ _ _ _ _ _ I1 W1 T1 (Z.le_refl now) E1) as [J1 P1].
  destruct (claim_contract _ _ _ _ _ _ _ I2 W2 T2 (Z.le_refl now) E2) as [J2 P2].
  pose proof (same_view (routing_key rec)) as Hv. unfold claimable in *.
  destruct c1 as [|o1], c2 as [|o2].
  - destruct P1 as (_ & e1 & He1 & L1). destruct P2 as (_ & e2 & He2 & L2).
    assert (e1 = e2) as -> by lia. split_and!; [done..|]. by eapply same_leases_leased.
  - destruct P1 as [Hc _]. destruct P2 as (Hv2 & Hne & _). destruct Hne. apply Hc. congruence.
  - destruct P2 as [Hc _]. destruct P1 as (Hv1 & Hne & _). destruct Hne. apply Hc. congruence.
  - destruct P1 as (Hv1 & _ & A1). destruct P2 as (Hv2 & _ & A2).
    split_and!; [congruence|done..|]. by eapply same_leases_agree.
Qed.

Lemma same_lookup k o1 o2 :
  reg_lookup now k s1 = (s1', Ok o1) → reg_lookup now k s2 = (s2', Ok o2) →
  o1 = o2 ∧ reg_inv s1' ∧ reg_inv s2' ∧ same_leases now s1' s2'.
Proof using All.
  intros E1 E2.
  destruct (lookup_contract _ _ _ _ _ I1 E1) as (J1 & A1 & P1).
  destruct (lookup_contract _ _ _ _ _ I2 E2) as (J2 & A2 & P2).
  split_and!; [by rewrite (P1 _ eq_refl), (P2 _ eq_refl), same_view|done..|].
  by eapply same_leases_agree.
Qed.

Lemma same_owned k sid r : owned now k sid s1 r ↔ owned now k sid s2 r.
Proof using Hsame. unfold owned. by rewrite same_view. Qed.

Lemma same_renew k sid ttl b1 b2 :
  reg_ttl (R:=R1) ttl → reg_ttl (R:=R2) ttl →
  reg_renew now now k sid ttl s1 = (s1', Ok b1) → reg_renew now now k sid ttl s2 = (s2', Ok b2) →
  b1 = b2 ∧ reg_inv s1' ∧ reg_inv s2' ∧ same_leases now s1' s2'.
Proof using All.
  intros T1 T2 E1 E2.
  destruct (renew_contract _ _ _ _ _ _ _ _ I1 T1 (Z.le_refl now) E1) as [J1 P1].
  destruct (renew_contract _ _ _ _ _ _ _ _ I2 T2 (Z.le_refl now) E2) as [J2 P2].
  destruct b1, b2.
  - destruct P1 as (r1 & e1 & O1 & He1 & L1). destruct P2 as (r2 & e2 & O2 & He2 & L2).
    assert (e1 = e2) as -> by lia. apply same_owned in O1. destruct O1 as [V1 _], O2 as [V2 _].
    rewrite V1 in V2. injection V2 as ->. split_and!; [done..|]. by eapply same_leases_leased.
  - destruct P1 as (r1 & _ & O1 & _). destruct P2 as [N2 _]. by apply same_owned, N2 in O1.
  - destruct P2 as (r2 & _ & O2 & _). destruct P1 as [N1 _]. by apply same_owned, N1 in O2.
  - destruct P1 as [_ A1], P2 as [_ A2]. split_and!; [done..|]. by eapply same_leases_agree.
Qed.

Lemma same_release k sid u1 u2 :
  reg_release now k sid s1 = (s1', Ok u1) → reg_release now k sid s2 = (s2', Ok u2) →
  u1 = u2 ∧ reg_inv s1' ∧ reg_inv s2' ∧ same_leases now s1' s2'.
Proof using All.
  intros E1 E2.
  destruct (release_contract _ _ _ _ _ _ I1 E1) as [J1 P1].
  destruct (release_contract _ _ _ _ _ _ I2 E2) as [J2 P2].
  split_and!; [by destruct u1, u2|done..|].
  destruct P1 as [[[r1 O1] F1]|[N1 A1]], P2 as [[[r2 O2] F2]|[N2 A2]].
  - by eapply same_leases_freed.
  - by apply same_owned, N2 in O1.
  - by apply same_owned, N1 in O2.
  - by eapply same_leases_agree.
Qed.

(** Both backends answer, so they answer the same. *)
Lemma same_call op r1 r2 :
  op_storable (R:=R1) op → op_storable (R:=R2) op →
  reg_exec (mkEvent now now op) s1 = (s1', r1) → reg_exec (mkEvent now now op) s2 = (s2', r2) →
  reg_answered r1 → reg_answered r2 →
  r1 = r2 ∧ reg_inv s1' ∧ reg_inv s2' ∧ same_leases now s1' s2'.
Proof using All.
  intros O1 O2. destruct op as [rec ttl|k|k sid ttl|k sid]; simpl in *.
  - destruct (reg_claim _ _ _ _ s1) as [x1 [c1|]] eqn:F1, (reg_claim _ _ _ _ s2) as [x2 [c2|]] eqn:F2;
      intros [= -> <-] [= -> <-] A1 A2; [|done..].
    destruct O1, O2. by destruct (same_claim rec ttl c1 c2) as [-> ?].
  - destruct (reg_lookup _ _ s1) as [x1 [c1|]] eqn:F1, (reg_lookup _ _ s2) as [x2 [c2|]] eqn:F2;
      intros [= -> <-] [= -> <-] A1 A2; [|done..]. by destruct (same_lookup k c1 c2) as [-> ?].
  - destruct (reg_renew _ _ _ _ _ s1) as [x1 [c1|]] eqn:F1, (reg_renew _ _ _ _ _ s2) as [x2 [c2|]] eqn:F2;
      intros [= -> <-] [= -> <-] A1 A2; [|done..]. by destruct (same_renew k sid ttl c1 c2) as [-> ?].
  - destruct (reg_release _ _ _ s1) as [x1 [c1|]] eqn:F1, (reg_release _ _ _ s2) as [x2 [c2|]] eqn:F2;
      intros [= -> <-] [= -> <-] A1 A2; [|done..]. by destruct (same_release k sid c1 c2) as [-> ?].
Qed.
End side_by_side.

(** Without connection errors the Redis table answers every call. *)
Section redis_answers.
Context `{RedisServer}.

Lemma invoke_answered {A} op (script : rstore → rstore * A) reg :
  outcomes reg = [] →
  invoke op script reg = (mkRedisRegistry (script (conn reg)).1 [] (prefix reg),
                          Ok (script (conn reg)).2).
Proof using Type. intros Ho. unfold invoke. rewrite Ho. by destruct (script (conn reg)). Qed.

Lemma redis_answered ev reg reg' r :
  redis_inv reg → outcomes reg = [] →
  plain_op (ev_op ev) →
  reg_exec ev reg = (reg', r) → reg_answered r ∧ outcomes reg' = [].
Proof using Type.
  intros Hi Ho Hop. destruct ev as [now later op]. destruct op as [rec ttl|k|k sid ttl|k sid];
    simpl in *; unfold redis_claim, redis_lookup, redis_renew, redis_release;
    rewrite invoke_answered by done; intros [= <- <-]; (split; [|done]).
  - destruct Hop as [Hwf Ht].
    destruct (claim_script _ _ _ _ _ _) as [s' cur] eqn:E. simpl.
    destruct (claim_script_effect _ _ _ _ [] _ _ Hi Hwf Ht E)
      as [_ [(x & -> & Hx & _)|[-> _]]]; [|done].
    rewrite bool_decide_eq_false_2 by apply encode_not_nil. by rewrite decode_encode.
  - simpl. pose proof (rget_view now reg k Hi) as Hg.
    destruct (redis_view now reg k); [destruct Hg as (-> & Hf & _)|by rewrite Hg].
    by rewrite decode_encode.
  - done.
  - done.
Qed.

Lemma memory_answered ev (reg reg' : MemoryRegistry) r : reg_exec ev reg = (reg', r) → reg_answered r.
Proof using Type.
  destruct ev as [now later [rec ttl|k|k sid ttl|k sid]]; simpl;
    [unfold mem_claim|..|unfold mem_release]; try unfold mem_renew;
    repeat case_match; intros [= <- <-]; simplify_eq; done.
Qed.

Lemma same_exec ev (m m' : MemoryRegistry) (s s' : RedisRegistry) r1 r2 t :
  mem_inv m → redis_inv s → outcomes s = [] → same_leases t m s →
  (t ≤ ev_now ev)%Z → ev_later ev = ev_now ev →
  plain_op (ev_op ev) →
  reg_exec ev m = (m', r1) → reg_exec ev s = (s', r2) →
  r1 = r2 ∧ mem_inv m' ∧ redis_inv s' ∧ outcomes s' = [] ∧ same_leases (ev_now ev) m' s'.
Proof using Type.
  intros I1 I2 Ho Hs Ht Hl Hop E1 E2. eapply same_leases_later in Hs; [|exact Ht].
  pose proof (memory_answered _ _ _ _ E1) as A1.
  destruct (redis_answered _ _ _ _ I2 Ho Hop E2) as [A2 Ho'].
  destruct ev as [now later op]. simpl in Hl, Ht, Hs, Hop |- *. subst later.
  destruct (same_call (C1:=MemoryRegistry_contract) (C2:=RedisRegistry_contract) now m m' s s' I1 I2 Hs op r1 r2)
    as (-> & ? & ? & ?); [by destruct op..|done].
Qed.

Lemma same_run t log (m m' : MemoryRegistry) (s s' : RedisRegistry) rs1 rs2 :
  mem_inv m → redis_inv s → outcomes s = [] → same_leases t m s → plain_log t log →
  reg_run log m = (m', rs1) → reg_run log s = (s', rs2) → rs1 = rs2.
Proof using Type.
  revert t m m' s s' rs1 rs2.
  induction log as [|ev log IH]; intros t m m' s s' rs1 rs2 I1 I2 Ho Hs Hp R1 R2; simpl in *.
  { by injection R1 as <- <-; injection R2 as <- <-. }
  destruct (reg_exec ev m) as [m1 r1] eqn:E1. destruct (reg_run log m1) as [m2 q1] eqn:Q1.
  destruct (reg_exec ev s) as [x1 r2] eqn:E2. destruct (reg_run log x1) as [x2 q2] eqn:Q2.
  injection R1 as <- <-. injection R2 as <- <-. destruct Hp as (Ht & Hl & Hop & Hp).
  destruct (same_exec ev m m1 s x1 r1 r2 t) as (-> & J1 & J2 & Ho' & Hs'); try done.
  f_equal. by apply (IH _ _ _ _ _ _ _ J1 J2 Ho' Hs' Hp Q1 Q2).
Qed.
End redis_answers.

Lemma memory_new_view t k : reg_view t memory_registry_new k = None.
Proof. done. Qed.

Lemma redis_empty_view `{RedisServer} reg :
  (∀ key, rcontent (conn reg) key = None) →
  reg_inv reg ∧ ∀ t k, reg_view t reg k = None.
Proof.
  intros He. split; [intros k v e Hc; by rewrite He in Hc|].
  intros t k. simpl. unfold redis_view, rget. by rewrite He.
Qed.

(** ** The properties *)

(** C11: the process-local table implements the lease contract (a claim is acquired
    exactly when no other session holds the key and then lasts its lifetime, a
    lookup reports the holder, renew and release act only for the holder), never
    fails, and starts with no leases. *)
Theorem memory_registry_refines :
  RegistryContract MemoryRegistry ∧
  (∀ ev (reg : MemoryRegistry), reg_answered (reg_exec ev reg).2) ∧
  reg_inv memory_registry_new ∧ ∀ t k, reg_view t memory_registry_new k = None.
Proof.
  split_and!; [apply MemoryRegistry_contract| |done|apply memory_new_view].
  intros ev reg. by destruct (reg_exec ev reg) eqn:E; eapply memory_answered.
Qed.

(** C12: the Redis-backed table implements the same lease contract through its three
    scripts, with connection errors before or after a script ran at any call; an
    empty store holds no leases. *)
Theorem redis_registry_refines `{RedisServer} (reg : RedisRegistry) :
  (∀ key, rcontent (conn reg) key = None) →
  RegistryContract RedisRegistry ∧ reg_inv reg ∧ ∀ t k, reg_view t reg k = None.
Proof. intros He. split; [apply RedisRegistry_contract|by apply redis_empty_view]. Qed.

Lemma redis_registry_refines_witness :
  let reg := @mkRedisRegistry map_redis ∅ [Failed true (lit "reset")] (lit "norupo:") in
  @RegistryContract (@RedisRegistry map_redis) _ _ ∧ reg_inv reg ∧
  ∀ t k, reg_view t reg k = None.
Proof. intros reg. apply (@redis_registry_refines map_redis reg). intros key. reflexivity. Defined.

(** C10: on every backend, once a session has acquired a key, then as long as it
    renews before each expiry no other session's claim, renewal or release takes
    the key away: rivals are told who holds it, lookups find the holder, and the
    holder's own renewals succeed. *)
Theorem lease_held {R} `{RegistryContract R} now later ttl rec log s s1 s2 rs :
  reg_inv s → reg_wf rec → reg_ttl ttl → (now ≤ later)%Z →
  reg_claim now later rec ttl s = (s1, Ok Acquired) →
  reg_run log s1 = (s2, rs) →
  kept_alive (routing_key rec) (rec_session_id rec) now (now + ttl) log rs →
  Forall2 (undisturbed (routing_key rec) rec) log rs ∧
  ∀ t, (default now (ev_now <$> last log) ≤ t <
          final_expiry (routing_key rec) (rec_session_id rec) (now + ttl) log rs)%Z →
    reg_view t s2 (routing_key rec) = Some rec.
Proof.
  intros Hi Hwf Httl Hl Hc Hrun Hk.
  destruct (claim_contract _ _ _ _ _ _ _ Hi Hwf Httl Hl Hc) as (Hi1 & _ & e & He & Hleased).
  assert (holds_until (routing_key rec) rec now (now + ttl) s1) as Hh
    by (eapply holds_until_leased; [exact Hleased|lia]).
  destruct (reg_run_respects _ _ _ _ _ _ _ _ Hi1 Hh Hrun Hk) as (_ & Hu & t' & Hh' & ->).
  split; [done|]. intros t Ht. by eapply holds_until_view.
Qed.

Definition demo_record (session : str) : RouteRecord :=
  mkRouteRecord (lit "h:app.norupo.io") (lit "node-a") (lit "10.0.0.1:7000") session
    (lit "tun_1") (lit "acct").

(** A 30-second lease, renewed once, under a rival's claim and release. *)
Definition demo_log : list event :=
  [mkEvent 5000 5000 (OpClaim (demo_record (lit "ses_b")) 30000);
   mkEvent 20000 20001 (OpRenew (lit "h:app.norupo.io") (lit "ses_a") 30000);
   mkEvent 40000 40000 (OpRelease (lit "h:app.norupo.io") (lit "ses_b"));
   mkEvent 49999 49999 (OpLookup (lit "h:app.norupo.io"))].

Lemma lease_held_witness :
  let s1 := (reg_claim 0 0 (demo_record (lit "ses_a")) 30000 memory_registry_new).1 in
  Forall2 (undisturbed (lit "h:app.norupo.io") (demo_record (lit "ses_a"))) demo_log
    (reg_run demo_log s1).2 ∧
  ∀ t, (49999 ≤ t < 50000)%Z →
    reg_view t (reg_run demo_log s1).1 (lit "h:app.norupo.io") = Some (demo_record (lit "ses_a")).
Proof.
  intros s1.
  destruct (lease_held 0 0 30000 (demo_record (lit "ses_a")) demo_log memory_registry_new s1
              (reg_run demo_log s1).1 (reg_run demo_log s1).2) as [Hu Hv].
  - done.
  - done.
  - done.
  - lia.
  - vm_compute. reflexivity.
  - by destruct (reg_run demo_log s1).
  - vm_compute. repeat split; try discriminate; try lia; by intros.
  - split; [exact Hu|]. intros t Ht. apply Hv. vm_compute. vm_compute in Ht. exact Ht.
Defined.

(** C28: on every backend, a lease that is not renewed is gone when its lifetime has
    passed: the key then looks free and the next answered claim acquires it. *)
Theorem expired_claim_is_free {R} `{RegistryContract R} now later ttl rec s s1 t :
  reg_inv s → reg_wf rec → reg_ttl ttl → (now ≤ later)%Z →
  reg_claim now later rec ttl s = (s1, Ok Acquired) → (later + ttl ≤ t)%Z → (now ≤ t)%Z →
  reg_view t s1 (routing_key rec) = None ∧
  ∀ later' rec' ttl' s2 c,
    routing_key rec' = routing_key rec → reg_wf rec' → reg_ttl ttl' → (t ≤ later')%Z →
    reg_claim t later' rec' ttl' s1 = (s2, Ok c) → c = Acquired.
Proof.
  intros Hi Hwf Httl Hl Hc Ht Hn.
  destruct (claim_contract _ _ _ _ _ _ _ Hi Hwf Httl Hl Hc) as (Hi1 & _ & e & He & Hleased).
  assert (reg_view t s1 (routing_key rec) = None) as Hv.
  { rewrite (Hleased t (routing_key rec)), decide_True by done.
    by destruct (Z.ltb_spec t e); [lia|]. }
  split; [done|]. intros later' rec' ttl' s2 c Hk Hwf' Httl' Hl' Hc'.
  destruct (claim_contract _ _ _ _ _ _ _ Hi1 Hwf' Httl' Hl' Hc') as [_ Hres].
  destruct c as [|o]; [done|]. destruct Hres as [Hvo _]. rewrite Hk in Hvo. congruence.
Qed.

Lemma expired_claim_is_free_witness :
  let s1 := (reg_claim 0 5 (demo_record (lit "ses_a")) 30000 memory_registry_new).1 in
  reg_view 30005 s1 (lit "h:app.norupo.io") = None ∧
  (reg_claim 30005 30005 (demo_record (lit "ses_b")) 30000 s1).2 = Ok Acquired.
Proof.
  intros s1.
  destruct (expired_claim_is_free 0 5 30000 (demo_record (lit "ses_a")) memory_registry_new s1 30005)
    as [Hv _]; [done|done|done|lia|vm_compute; reflexivity|lia|lia|].
  split; [exact Hv|]. vm_compute. reflexivity.
Defined.

(** C17: the two backends are interchangeable: started empty, the process-local
    table and a fault-free Redis answer every well-timed sequence of claims,
    lookups, renewals and releases with the same results. *)
Theorem backends_equivalent `{RedisServer} store pfx t log :
  (∀ key, rcontent store key = None) → plain_log t log →
  (reg_run log memory_registry_new).2 = (reg_run log (mkRedisRegistry store [] pfx)).2.
Proof.
  intros He Hp. destruct (redis_empty_view (mkRedisRegistry store [] pfx) He) as [Hi Hv].
  destruct (reg_run log memory_registry_new) as [m rs1] eqn:R1.
  destruct (reg_run log (mkRedisRegistry store [] pfx)) as [s rs2] eqn:R2.
  eapply (same_run t log memory_registry_new m (mkRedisRegistry store [] pfx) s); try done.
  intros u k _. by rewrite Hv.
Qed.

Lemma backends_equivalent_witness :
  (reg_run (R:=MemoryRegistry) [mkEvent 1 1 (OpClaim (demo_record (lit "ses_a")) 100);
                   mkEvent 50 50 (OpClaim (demo_record (lit "ses_b")) 100);
                   mkEvent 101 101 (OpLookup (lit "h:app.norupo.io"))] memory_registry_new).2 =
  [RClaim (Ok Acquired); RClaim (Ok (Taken (demo_record (lit "ses_a")))); RLookup (Ok None)].
Proof.
  rewrite (@backends_equivalent map_redis ∅ (lit "norupo:") 0).
  - vm_compute. reflexivity.
  - intros key. reflexivity.
  - split_and!; try done; try (by vm_compute); by eapply bool_decide_unpack; vm_compute.
Defined.
