(* ===== verification/Async.v ===== *)
(** * Rust's [async fn]: computations that stop at their await points

    A task is what is left of an async function: it has returned, or its next
    step acts on the shared state, or has to wait ([None]) and is polled again
    later. Other tasks may change the state between two steps, so a step is the
    unit of interleaving. *)

From S2P Require Import Prelude.

#[warnings="-register-all"]
Inductive task (S R : Type) : Type :=
| Ret (r : R)
| Step (f : S → option (S * task S R)).
Arguments Ret {S R} r.
Arguments Step {S R} f.

Fixpoint task_bind {S A B} (t : task S A) (k : A → task S B) : task S B :=
  match t with
  | Ret a => k a
  | Step f => Step (λ s, match f s with
                         | Some (s', t') => Some (s', task_bind t' k)
                         | None => None
                         end)
  end.

Notation "'let!' x := t 'in' k" := (task_bind t (λ x, k))
  (at level 10, x name, t at level 100, k at level 200) : norupo_scope.
Notation "'let!' ' pat := t 'in' k" :=
  (task_bind t (λ x, match x with pat => k end))
  (at level 10, pat pattern, t at level 100, k at level 200) : norupo_scope.
Notation "t ';;!' k" := (task_bind t (λ _, k)) (at level 100, right associativity) : norupo_scope.

(** [.await] on something that is polled, and a step that never waits. *)
Definition await {S A} (f : S → option (S * A)) : task S A :=
  Step (λ s, match f s with Some (s', a) => Some (s', Ret a) | None => None end).
Definition atomic {S A} (f : S → S * A) : task S A :=
  Step (λ s, let '(s', a) := f s in Some (s', Ret a)).
Definition modify {S} (f : S → S) : task S unit := atomic (λ s, (f s, tt)).
Definition query {S A} (f : S → A) : task S A := atomic (λ s, (s, f s)).

(** One poll of a task, and the task alone until it returns or waits. *)
Definition poll {S R} (t : task S R) (s : S) : option (S * task S R) :=
  match t with Ret _ => None | Step f => f s end.

Fixpoint run {S R} (t : task S R) (s : S) : S * task S R :=
  match t with
  | Ret r => (s, Ret r)
  | Step f => match f s with
              | Some (s', t') => run t' s'
              | None => (s, Step f)
              end
  end.

(** Running a task whose state is a part of [S]; the part may be missing. *)
Fixpoint zoom {S T R} (get : S → option T) (put : T → S → S) (t : task T R) : task S R :=
  match t with
  | Ret r => Ret r
  | Step f => Step (λ s, match get s with
                         | Some x => match f x with
                                     | Some (x', t') => Some (put x' s, zoom get put t')
                                     | None => None
                                     end
                         | None => None
                         end)
  end.

(** ** Interleavings

    [exec E t s tr t' s']: [t] ran from [s] to [s'] and is now [t'], with [E]
    between its own steps, which are listed in [tr]. *)
Inductive exec {S R} (E : S → S → Prop) : task S R → S → list (S * S) → task S R → S → Prop :=
| exec_stop t s : exec E t s [] t s
| exec_env t s s1 tr t' s' : E s s1 → exec E t s1 tr t' s' → exec E t s tr t' s'
| exec_step t s s1 t1 tr t' s' :
    poll t s = Some (s1, t1) → exec E t1 s1 tr t' s' → exec E t s ((s, s1) :: tr) t' s'.

(** Induction on what a task may still do. *)
Fixpoint task_induction {S R} (P : task S R → Prop) (Hret : ∀ r, P (Ret r))
    (Hstep : ∀ f, (∀ s s' t', f s = Some (s', t') → P t') → P (Step f)) (t : task S R) : P t.
Proof.
  destruct t as [r|f]; [apply Hret|]. apply Hstep. intros s s' t' Hf.
  destruct (f s) as [[s1 t1]|]; [|discriminate Hf].
  pose proof (task_induction S R P Hret Hstep t1) as IH. by injection Hf as _ ->.
Qed.

(** Every step a task may take, whatever happens in between, is in [G]. *)
Fixpoint obeys {S R} (G : S → S → Prop) (t : task S R) : Prop :=
  match t with
  | Ret _ => True
  | Step f => ∀ s, match f s with
                   | Some (s', t') => G s s' ∧ obeys G t'
                   | None => True
                   end
  end.

Section obeys.
Context {S : Type} (G : S → S → Prop).

Lemma obeys_step {A} (f : S → option (S * task S A)) :
  (∀ s s' t', f s = Some (s', t') → G s s' ∧ obeys G t') → obeys G (Step f).
Proof using Type. intros Hf s. destruct (f s) as [[s' t']|] eqn:E; [by apply (Hf s)|done]. Qed.

Lemma obeys_step_inv {A} (f : S → option (S * task S A)) s s' t' :
  obeys G (Step f) → f s = Some (s', t') → G s s' ∧ obeys G t'.
Proof using Type. intros Ho Hf. specialize (Ho s). by rewrite Hf in Ho. Qed.

Lemma obeys_bind {A B} (t : task S A) (k : A → task S B) :
  obeys G t → (∀ a, obeys G (k a)) → obeys G (task_bind t k).
Proof using Type.
  intros Ht Hk. revert Ht. induction t as [a|f IH] using task_induction; intros Ht; [apply Hk|].
  apply obeys_step. intros s s' t'. destruct (f s) as [[s1 t1]|] eqn:E; [|done].
  intros [= <- <-]. destruct (obeys_step_inv _ _ _ _ Ht E). eauto.
Qed.

Lemma obeys_assoc {A B C} (t : task S A) (k : A → task S B) (h : B → task S C) :
  obeys G (task_bind t (λ a, task_bind (k a) h)) → obeys G (task_bind (task_bind t k) h).
Proof using Type.
  induction t as [a|f IH] using task_induction; [done|]. intros Ht.
  apply obeys_step. intros s s' t'. simpl. destruct (f s) as [[s1 t1]|] eqn:E; [|done].
  intros [= <- <-]. specialize (Ht s). simpl in Ht. rewrite E in Ht. destruct Ht. eauto.
Qed.

Lemma obeys_await {A} (f : S → option (S * A)) :
  (∀ s s' a, f s = Some (s', a) → G s s') → obeys G (await f).
Proof using Type.
  intros Hf. apply obeys_step. intros s s' t'. destruct (f s) as [[s1 a]|] eqn:E; [|done].
  intros [= <- <-]. split; [by eapply Hf|done].
Qed.

Lemma obeys_atomic {A} (f : S → S * A) : (∀ s, G s (f s).1) → obeys G (atomic f).
Proof using Type.
  intros Hf. apply obeys_step. intros s s' t'. destruct (f s) as [s1 a] eqn:E.
  intros [= <- <-]. split; [|done]. specialize (Hf s). by rewrite E in Hf.
Qed.

Lemma obeys_modify f : (∀ s, G s (f s)) → obeys G (modify f).
Proof using Type. intros Hf. by apply obeys_atomic. Qed.

Lemma obeys_query {A} (f : S → A) : (∀ s, G s s) → obeys G (query f).
Proof using Type. intros Hf. by apply obeys_atomic. Qed.

Lemma obeys_poll {A} (t t' : task S A) s s' :
  obeys G t → poll t s = Some (s', t') → G s s' ∧ obeys G t'.
Proof using Type. destruct t as [a|f]; [done|]. apply obeys_step_inv. Qed.

(** Rely-guarantee: with an environment in [E], the whole history is in the
    closure of [E] and [G]. *)
Lemma obeys_exec {A} (E : S → S → Prop) (t t' : task S A) s s' tr :
  exec E t s tr t' s' → obeys G t →
  rtc (λ x y, E x y ∨ G x y) s s' ∧ Forall (λ p, G p.1 p.2) tr ∧ obeys G t'.
Proof using Type.
  induction 1 as [t s|t s s1 tr t' s' HE _ IH|t s s1 t1 tr t' s' Hp _ IH]; intros Ht.
  - split_and!; [constructor|constructor|done].
  - destruct (IH Ht) as (Hr & Hf & Ht'). split_and!; [|done..].
    eapply rtc_l; [by left|done].
  - destruct (obeys_poll _ _ _ _ Ht Hp) as [Hg Ht1]. destruct (IH Ht1) as (Hr & Hf & Ht').
    split_and!; [|by constructor|done]. eapply rtc_l; [by right|done].
Qed.

Lemma obeys_run {A} (t : task S A) s : obeys G t → rtc G s (run t s).1.
Proof using Type.
  revert s. induction t as [r|f IH] using task_induction; intros s Ht; simpl; [constructor|].
  destruct (f s) as [[s' t']|] eqn:E; [|constructor].
  destruct (obeys_step_inv _ _ _ _ Ht E) as [Hg Ht']. eapply rtc_l; [exact Hg|]. eauto.
Qed.
End obeys.

Lemma obeys_weaken {S R} (G G' : S → S → Prop) (t : task S R) :
  (∀ x y, G x y → G' x y) → obeys G t → obeys G' t.
Proof.
  intros HG. induction t as [r|f IH] using task_induction; intros Ht; [done|].
  apply obeys_step. intros s s' t' E. destruct (obeys_step_inv _ _ _ _ _ Ht E). eauto.
Qed.

(** A part of the state changes by [G], so the whole changes by [G']. *)
Lemma obeys_zoom {S T R} (get : S → option T) put (G : T → T → Prop) (G' : S → S → Prop)
    (t : task T R) :
  (∀ s x x', get s = Some x → G x x' → G' s (put x' s)) → obeys G t → obeys G' (zoom get put t).
Proof.
  intros HG. induction t as [r|f IH] using task_induction; intros Ht; [done|].
  apply obeys_step. intros s s' t'. simpl. destruct (get s) as [x|] eqn:Eg; [|done].
  destruct (f x) as [[x' t1]|] eqn:E; [|done]. intros [= <- <-].
  destruct (obeys_step_inv _ _ _ _ _ Ht E). eauto.
Qed.

(** ** Tasks with an account

    A task holds an amount that its steps change by [G], whatever happens in
    between; what it holds when it returns is in [Q]. *)
Fixpoint follows {N S R} (G : N → S → N → S → Prop) (Q : R → N → Prop) (n : N) (t : task S R) : Prop :=
  match t with
  | Ret r => Q r n
  | Step f => ∀ s, match f s with
                   | Some (s', t') => ∃ n', G n s n' s' ∧ follows G Q n' t'
                   | None => True
                   end
  end.

Section follows.
Context {N S : Type} (G : N → S → N → S → Prop).

Lemma follows_step {A} Q n (f : S → option (S * task S A)) :
  (∀ s s' t', f s = Some (s', t') → ∃ n', G n s n' s' ∧ follows G Q n' t') → follows G Q n (Step f).
Proof using Type. intros Hf s. destruct (f s) as [[s' t']|] eqn:E; [by apply (Hf s)|done]. Qed.

Lemma follows_poll {A} Q n (t t' : task S A) s s' :
  follows G Q n t → poll t s = Some (s', t') → ∃ n', G n s n' s' ∧ follows G Q n' t'.
Proof using Type. destruct t as [a|f]; [done|]. intros Hf Hs. specialize (Hf s). simpl in Hs. by rewrite Hs in Hf. Qed.

Lemma follows_mono {A} (Q Q' : A → N → Prop) n (t : task S A) :
  (∀ a m, Q a m → Q' a m) → follows G Q n t → follows G Q' n t.
Proof using Type.
  intros HQ. revert n. induction t as [a|f IH] using task_induction; intros n Ht; [by apply HQ|].
  apply follows_step. intros s s' t' E. destruct (follows_poll Q n (Step f) t' s s' Ht E) as (m & ? & ?).
  eauto.
Qed.

Lemma follows_bind {A B} (Q : A → N → Prop) (Q' : B → N → Prop) n (t : task S A) (k : A → task S B) :
  follows G Q n t → (∀ a m, Q a m → follows G Q' m (k a)) → follows G Q' n (task_bind t k).
Proof using Type.
  intros Ht Hk. revert n Ht. induction t as [a|f IH] using task_induction; intros n Ht; [by apply Hk|].
  apply follows_step. intros s s' t'. destruct (f s) as [[s1 t1]|] eqn:E; [|done].
  intros [= <- <-]. destruct (follows_poll Q n (Step f) t1 s s1 Ht E) as (m & ? & ?). eauto.
Qed.

Lemma follows_assoc {A B C} Q n (t : task S A) (k : A → task S B) (h : B → task S C) :
  follows G Q n (task_bind t (λ a, task_bind (k a) h)) → follows G Q n (task_bind (task_bind t k) h).
Proof using Type.
  revert n. induction t as [a|f IH] using task_induction; [done|]. intros n Ht.
  apply follows_step. intros s s' t'. simpl. destruct (f s) as [[s1 t1]|] eqn:E; [|done].
  intros [= <- <-]. specialize (Ht s). simpl in Ht. rewrite E in Ht. destruct Ht as (m & ? & ?). eauto.
Qed.

Lemma follows_await {A} (Q : A → N → Prop) n (f : S → option (S * A)) :
  (∀ s s' a, f s = Some (s', a) → ∃ m, G n s m s' ∧ Q a m) → follows G Q n (await f).
Proof using Type.
  intros Hf. apply follows_step. intros s s' t'. destruct (f s) as [[s1 a]|] eqn:E; [|done].
  intros [= <- <-]. by apply (Hf s).
Qed.

Lemma follows_atomic {A} (Q : A → N → Prop) n (f : S → S * A) :
  (∀ s, ∃ m, G n s m (f s).1 ∧ Q (f s).2 m) → follows G Q n (atomic f).
Proof using Type.
  intros Hf. apply follows_step. intros s s' t'. specialize (Hf s). destruct (f s) as [s1 a].
  by intros [= <- <-].
Qed.

(** A task whose steps leave the account alone keeps what it holds. *)
Lemma follows_obeys {A} (G0 : S → S → Prop) n (t : task S A) :
  (∀ s s', G0 s s' → G n s n s') → obeys G0 t → follows G (λ _ m, m = n) n t.
Proof using Type.
  intros HG. induction t as [a|f IH] using task_induction; intros Ht; [done|].
  apply follows_step. intros s s' t' E. destruct (obeys_step_inv _ _ _ _ _ Ht E). eauto.
Qed.
End follows.

Lemma follows_then {N S A B} (G : N → S → N → S → Prop) (G0 : S → S → Prop) Q n
    (t : task S A) (k : A → task S B) :
  (∀ s s', G0 s s' → G n s n s') → obeys G0 t → (∀ a, follows G Q n (k a)) →
  follows G Q n (task_bind t k).
Proof.
  intros HG Ht Hk. eapply follows_bind; [by eapply follows_obeys|]. by intros a m ->.
Qed.

(** While an account stays in [I], the steps of its holder are in [G0]. *)
Lemma follows_within {N S A} (G : N → S → N → S → Prop) (G0 : S → S → Prop) (I : N → Prop) Q n (t : task S A) :
  (∀ n s n' s', I n → G n s n' s' → G0 s s' ∧ I n') → I n → follows G Q n t → obeys G0 t.
Proof.
  intros HG. revert n. induction t as [a|f IH] using task_induction; intros n Hn Ht; [done|].
  apply obeys_step. intros s s' t' E. destruct (follows_poll G Q n (Step f) t' s s' Ht E) as (m & Hm & Ht').
  destruct (HG _ _ _ _ Hn Hm). eauto.
Qed.

Lemma follows_zoom {N S T R} (get : S → option T) put (G : N → T → N → T → Prop)
    (G' : N → S → N → S → Prop) Q n (t : task T R) :
  (∀ n s x n' x', get s = Some x → G n x n' x' → G' n s n' (put x' s)) →
  follows G Q n t → follows G' Q n (zoom get put t).
Proof.
  intros HG. revert n. induction t as [r|f IH] using task_induction; intros n Ht; [done|].
  apply follows_step. intros s s' t'. simpl. destruct (get s) as [x|] eqn:Eg; [|done].
  destruct (f x) as [[x' t1]|] eqn:E; [|done]. intros [= <- <-].
  destruct (follows_poll G Q n (Step f) t1 x x' Ht E) as (m & ? & ?). eauto.
Qed.

(** A step that some call from [api] may take, after any history. *)
Definition steps_of {S} (api : task S unit → Prop) (s s' : S) : Prop :=
  ∃ t s0 tr u u', api t ∧ exec (λ _ _, True) t s0 tr u s ∧ poll u s = Some (s', u').

Lemma steps_of_obeys {S} (G : S → S → Prop) api s s' :
  (∀ t, api t → obeys G t) → steps_of api s s' → G s s'.
Proof.
  intros HG (t & s0 & tr & u & u' & Ht & Hx & Hp).
  destruct (obeys_exec G _ _ _ _ _ _ Hx (HG t Ht)) as (_ & _ & Hu).
  by apply (obeys_poll G u u').
Qed.

(** An invariant of the state and the account, in an environment that keeps it. *)
Lemma follows_exec {N S R} (E : S → S → Prop) (I : N → S → Prop) G Q (t t' : task S R) n s tr s' :
  (∀ n s s', E s s' → I n s → I n s') → (∀ n s n' s', G n s n' s' → I n s → I n' s') →
  exec E t s tr t' s' → I n s → follows G Q n t → ∃ n', I n' s' ∧ follows G Q n' t'.
Proof.
  intros HE HG Hx. revert n.
  induction Hx as [t s|t s s1 tr t' s' He _ IH|t s s1 t1 tr t' s' Hp _ IH]; intros n HI Ht.
  - by exists n.
  - eauto.
  - destruct (follows_poll G Q n t t1 s s1 Ht Hp) as (m & Hg & Ht1). eauto.
Qed.

(** ** Tasks that always get on

    [G] relates a state to what it may become; [H] are the steps of those a task may
    wait for. A task is [able] when, whatever state it is resumed in, steps in [H]
    lead to one where it goes on. *)
Section able.
Context {S : Type} (G H : S → S → Prop).

Fixpoint able {A} (s : S) (t : task S A) : Prop :=
  match t with
  | Ret _ => True
  | Step f => ∀ s1, G s s1 → (∃ s2, rtc H s1 s2 ∧ is_Some (f s2)) ∧
                match f s1 with Some (s2, t') => G s1 s2 → able s2 t' | None => True end
  end.

Lemma able_step {A} s (f : S → option (S * task S A)) :
  (∀ s1, G s s1 → ∃ s2, rtc H s1 s2 ∧ is_Some (f s2)) →
  (∀ s1 s2 t', G s s1 → f s1 = Some (s2, t') → G s1 s2 → able s2 t') → able s (Step f).
Proof using Type.
  intros Hon Hgo s1 Hs. split; [by apply Hon|]. destruct (f s1) as [[s2 t']|] eqn:E; [|done]. by eapply Hgo.
Qed.

Lemma able_poll {A} s s1 s2 (t t' : task S A) :
  able s t → G s s1 → poll t s1 = Some (s2, t') → G s1 s2 → able s2 t'.
Proof using Type.
  destruct t as [a|f]; [done|]. intros Ht Hs Hp. destruct (Ht s1 Hs) as [_ Hgo]. simpl in Hp.
  rewrite Hp in Hgo. exact Hgo.
Qed.

Context `{!Transitive G}.

Lemma able_later {A} s s1 (t : task S A) : able s t → G s s1 → able s1 t.
Proof using Type*.
  destruct t as [a|f]; [done|]. intros Ht Hs. apply able_step.
  - intros s2 Hs2. apply Ht. by etrans.
  - intros s2 s3 t' Hs2 E Hg. eapply (able_poll s s2 s3 (Step f)); [exact Ht|by etrans|done|done].
Qed.

Lemma able_bind {A B} s (t : task S A) (k : A → task S B) :
  (∀ x y, G x y → G y y) → G s s → able s t → (∀ a s1, G s s1 → able s1 (k a)) → able s (task_bind t k).
Proof using Type*.
  intros HG. revert s. induction t as [a|f IH] using task_induction; intros s Hs Ht Hk; [by apply Hk|].
  apply able_step.
  - intros s1 Hs1. destruct (Ht s1 Hs1) as [(s2 & Hr & [[s3 t'] E]) _]. exists s2. split; [done|]. by rewrite E.
  - intros s1 s2 t' Hs1. destruct (f s1) as [[s3 t1]|] eqn:E; [|done]. intros [= <- <-] Hg.
    eapply IH; [exact E|by eapply HG|by eapply (able_poll s s1 _ (Step f))|].
    intros a s4 Hs4. apply Hk. etrans; [exact Hs1|]. by etrans.
Qed.

(** A step that never waits. *)
Lemma able_atomic {A} s (f : S → S * A) : able s (atomic f).
Proof using Type.
  apply able_step; intros s1; [|intros s2 t' _; destruct (f s1); by intros [= <- <-]].
  intros _. exists s1. split; [done|]. by destruct (f s1).
Qed.

Lemma able_then {A B} s (f : S → S * A) (k : A → task S B) :
  (∀ s1, G s s1 → G s1 (f s1).1 → able (f s1).1 (k (f s1).2)) → able s (task_bind (atomic f) k).
Proof using Type.
  intros Hk. apply able_step; intros s1; [|intros s2 t' Hs1; specialize (Hk s1 Hs1)].
  - intros _. exists s1. split; [done|]. by destruct (f s1).
  - destruct (f s1) as [s3 a]. intros [= <- <-]. exact Hk.
Qed.

Lemma able_await {A} s (f : S → option (S * A)) :
  (∀ s1, G s s1 → ∃ s2, rtc H s1 s2 ∧ is_Some (f s2)) → able s (await f).
Proof using Type.
  intros Hon. apply able_step.
  - intros s1 Hs1. destruct (Hon s1 Hs1) as (s2 & ? & [[] E]). exists s2. by rewrite E.
  - intros s1 s2 t' _. by destruct (f s1) as [[]|]; [intros [= <- <-]|].
Qed.

(** With the help of [H], an able task returns. *)
Inductive helped {A} : S * task S A → S * task S A → Prop :=
| helped_by s s' t : H s s' → helped (s, t) (s', t)
| helped_poll s s' t t' : poll t s = Some (s', t') → helped (s, t) (s', t').

Lemma able_returns {A} (G0 : S → S → Prop) s (t : task S A) :
  (∀ x y, G x y → G y y) → (∀ x y, G x x → H x y → G x y) → (∀ x y, G x x → G0 x y → G x y) →
  G s s → obeys G0 t → able s t → ∃ s' r, rtc helped (s, t) (s', Ret r) ∧ G s s'.
Proof using Type*.
  intros HG HH HO. revert s. induction t as [a|f IH] using task_induction; intros s Hs Ho Ht; [by exists s, a|].
  assert (∀ s1 s2, rtc H s1 s2 → G s1 s1 → rtc helped (s1, Step f) (s2, Step f) ∧ G s1 s2) as Hhelp.
  { intros s1 s2. induction 1 as [x|x y z Hxy _ IHr]; intros Hx; [done|].
    specialize (HH _ _ Hx Hxy). destruct IHr as [IHh IHg]; [by eapply HG|].
    split; [|etrans; [exact HH|exact IHg]]. eapply rtc_l; [|exact IHh]. by constructor. }
  destruct (Ht s Hs) as [(s1 & Hr & [[s2 t'] E]) _]. destruct (Hhelp _ _ Hr Hs) as [Hh Hs1].
  destruct (obeys_step_inv _ _ _ _ _ Ho E) as [Hg Ho']. apply HO in Hg; [|by eapply HG].
  destruct (IH _ _ _ E s2) as (s' & r & Hh' & Hs'); [by eapply HG|done|by eapply (able_poll s s1 _ (Step f))|].
  exists s', r. split; [|etrans; [exact Hs1|]; etrans; [exact Hg|exact Hs']].
  etrans; [exact Hh|]. eapply rtc_l; [|exact Hh']. by constructor.
Qed.
End able.

(** A call on a part of the state. *)
Lemma able_zoom {S T A} (get : S → option T) put (G H : S → S → Prop) (G' H' : T → T → Prop) s x (t : task T A) :
  Transitive G' →
  (∀ s s1 x, G s s1 → get s = Some x → ∃ x1, get s1 = Some x1 ∧ G' x x1) →
  (∀ s x y, get s = Some x → get (put y s) = Some y) →
  (∀ s x y, get s = Some x → H' x y → H s (put y s)) →
  get s = Some x → able G' H' x t → able G H s (zoom get put t).
Proof.
  intros HT HG Hget HH. revert s x. induction t as [a|f IH] using task_induction; intros s x Hx Ht; [done|].
  assert (∀ x1 x2, rtc H' x1 x2 → ∀ s1, get s1 = Some x1 → ∃ s2, rtc H s1 s2 ∧ get s2 = Some x2) as Hlift.
  { induction 1 as [y|y y1 z Hy _ IHr]; intros s1 Hs1; [by exists s1|].
    destruct (IHr (put y1 s1)) as (s2 & Hr & Hs2); [by eapply Hget|]. exists s2. split; [|done].
    eapply rtc_l; [by eapply HH|done]. }
  apply able_step.
  - intros s1 Hs1. destruct (HG s s1 x Hs1 Hx) as (x1 & Hx1 & Hg).
    destruct (Ht x1 Hg) as [(x2 & Hr & [[x3 t'] E]) _].
    destruct (Hlift _ _ Hr s1 Hx1) as (s2 & Hr' & Hs2). exists s2. split; [done|]. by rewrite Hs2, E.
  - intros s1 s2 t' Hs1. destruct (HG s s1 x Hs1 Hx) as (x1 & Hx1 & Hg). rewrite Hx1.
    destruct (f x1) as [[x2 t1]|] eqn:E; [|done]. intros [= <- <-] Hs2.
    destruct (HG _ _ _ Hs2 Hx1) as (x2' & Hx2 & Hg2). rewrite (Hget _ _ _ Hx1) in Hx2. injection Hx2 as <-.
    eapply IH; [exact E|by eapply Hget|]. by eapply (able_poll G' H' x x1 x2 (Step f)).
Qed.

(** ** Running a task alone *)

Lemma run_bind {S A B} (t : task S A) (k : A → task S B) s s' a :
  run t s = (s', Ret a) → run (task_bind t k) s = run (k a) s'.
Proof.
  revert s. induction t as [r|f IH] using task_induction; intros s; simpl.
  - by intros [= <- <-].
  - destruct (f s) as [[s1 t1]|] eqn:E; [|done]. eauto.
Qed.

Lemma run_bind_inv {S A B} (t : task S A) (k : A → task S B) s s' r :
  run (task_bind t k) s = (s', Ret r) →
  ∃ s1 a, run t s = (s1, Ret a) ∧ run (k a) s1 = (s', Ret r).
Proof.
  revert s. induction t as [a|f IH] using task_induction; intros s; simpl; [by exists s, a|].
  destruct (f s) as [[s1 t1]|] eqn:E; [eauto|done].
Qed.

Lemma run_assoc {S A B C} (t : task S A) (k : A → task S B) (l : B → task S C) s s' r :
  run (task_bind (task_bind t k) l) s = (s', Ret r) →
  run (task_bind t (λ a, task_bind (k a) l)) s = (s', Ret r).
Proof.
  revert s. induction t as [a|f IH] using task_induction; intros s; simpl; [done|].
  destruct (f s) as [[s1 t1]|] eqn:E; [eauto|done].
Qed.

Lemma run_zoom {S T R} (get : S → option T) put (t : task T R) s x x' r :
  (∀ s x y, get s = Some x → get (put y s) = Some y) → (∀ s y z, put z (put y s) = put z s) →
  (∀ s x, get s = Some x → put x s = s) →
  get s = Some x → run t x = (x', Ret r) → run (zoom get put t) s = (put x' s, Ret r).
Proof.
  intros Hgp Hpp Hpg. revert s x. induction t as [a|f IH] using task_induction; intros s x Hx; simpl.
  - intros [= -> ->]. by rewrite Hpg.
  - rewrite Hx. destruct (f x) as [[y t1]|] eqn:E; [|done]. intros Hr.
    rewrite (IH _ _ _ E (put y s) y) by eauto. by rewrite Hpp.
Qed.

Lemma run_atomic {S A B} (f : S → S * A) (k : A → task S B) s :
  run (task_bind (atomic f) k) s = run (k (f s).2) (f s).1.
Proof. simpl. by destruct (f s). Qed.

Lemma run_exec {S R} E (t : task S R) s : ∃ tr, exec E t s tr (run t s).2 (run t s).1.
Proof.
  revert s. induction t as [r|f IH] using task_induction; intros s; simpl; [by exists []; constructor|].
  destruct (f s) as [[s' t']|] eqn:Ef; [|by exists []; constructor].
  destruct (IH _ _ _ Ef s') as [tr Htr]. exists ((s, s') :: tr). by econstructor.
Qed.

(** ** Histories of one task *)

Lemma exec_Ret {S R} (E : S → S → Prop) (r : R) s tr t' s' :
  exec E (Ret r) s tr t' s' → tr = [] ∧ t' = Ret r ∧ rtc E s s'.
Proof.
  remember (Ret r) as t eqn:Ht.
  induction 1 as [t s|t s s1 tr t' s' HE _ IH|t s s1 t1 tr t' s' Hp _ _]; subst.
  - split_and!; [done..|constructor].
  - destruct IH as (-> & -> & Hr); [done|]. split_and!; [done..|by eapply rtc_l].
  - done.
Qed.

(** Either the first step is still to come, or it happened after the environment
    had moved, and the rest of the history is the rest of the task. *)
Lemma exec_Step {S R} (E : S → S → Prop) f (t' : task S R) s tr s' :
  exec E (Step f) s tr t' s' →
  (tr = [] ∧ t' = Step f ∧ rtc E s s') ∨
  ∃ s1 s2 t1 tr', rtc E s s1 ∧ f s1 = Some (s2, t1) ∧ tr = (s1, s2) :: tr' ∧ exec E t1 s2 tr' t' s'.
Proof.
  remember (Step f) as t eqn:Ht.
  induction 1 as [t s|t s s1 tr t' s' HE _ IH|t s s1 t1 tr t' s' Hp Hx _]; subst.
  - left. split_and!; [done..|constructor].
  - destruct IH as [(-> & -> & Hr)|(s2 & s3 & t1 & tr' & Hr & Hf & -> & Hx)]; [done|left|right].
    + split_and!; [done..|by eapply rtc_l].
    + exists s2, s3, t1, tr'. split_and!; [by eapply rtc_l|done..].
  - right. exists s, s1, t1, tr. split_and!; [constructor|done..].
Qed.

Lemma exec_await {S A B} (E : S → S → Prop) f (k : A → task S B) t' s tr s' :
  exec E (task_bind (await f) k) s tr t' s' →
  (tr = [] ∧ t' = task_bind (await f) k ∧ rtc E s s') ∨
  ∃ s1 s2 a tr', rtc E s s1 ∧ f s1 = Some (s2, a) ∧ tr = (s1, s2) :: tr' ∧ exec E (k a) s2 tr' t' s'.
Proof.
  intros [Hl|(s1 & s2 & t1 & tr' & Hr & Hf & -> & Hx)]%exec_Step; [by left|right].
  destruct (f s1) as [[s3 a]|] eqn:Ef; [|done]. injection Hf as -> <-.
  by exists s1, s2, a, tr'.
Qed.

Lemma exec_atomic {S A B} (E : S → S → Prop) (f : S → S * A) (k : A → task S B) t' s tr s' :
  exec E (task_bind (atomic f) k) s tr t' s' →
  (tr = [] ∧ t' = task_bind (atomic f) k ∧ rtc E s s') ∨
  ∃ s1 tr', rtc E s s1 ∧ tr = (s1, (f s1).1) :: tr' ∧ exec E (k (f s1).2) (f s1).1 tr' t' s'.
Proof.
  intros [Hl|(s1 & s2 & t1 & tr' & Hr & Hf & -> & Hx)]%exec_Step; [by left|right].
  destruct (f s1) as [s3 a] eqn:Ef. injection Hf as -> <-. exists s1, tr'. rewrite Ef. done.
Qed.

(** A sequence is in its first part, or in the second after the first returned. *)
Lemma exec_bind {S A B} (E : S → S → Prop) (t : task S A) (k : A → task S B) s tr t' s' :
  exec E (task_bind t k) s tr t' s' →
  (∃ f, exec E t s tr (Step f) s' ∧ t' = task_bind (Step f) k) ∨
  ∃ a s1 tr1 tr2, exec E t s tr1 (Ret a) s1 ∧ exec E (k a) s1 tr2 t' s' ∧ tr = tr1 ++ tr2.
Proof.
  remember (task_bind t k) as T eqn:HT. intros Hx. revert t HT.
  induction Hx as [T s|T s s1 tr T' s' HE Hx IH|T s s1 T1 tr T' s' Hp Hx IH]; intros t ->.
  - destruct t as [a|f]; [right|left].
    + exists a, s, [], []. by split_and!; [constructor|constructor|].
    + exists f. by split; [constructor|].
  - destruct (IH t eq_refl) as [(f & H1 & ->)|(a & s2 & tr1 & tr2 & H1 & H2 & ->)]; [left|right].
    + exists f. by split; [eapply exec_env|].
    + exists a, s2, tr1, tr2. split_and!; [by eapply exec_env|done..].
  - destruct t as [a|f].
    + right. exists a, s, [], ((s, s1) :: tr). split_and!; [constructor|by eapply exec_step|done].
    + simpl in Hp. destruct (f s) as [[s2 t2]|] eqn:Ef; [|done]. injection Hp as -> <-.
      destruct (IH t2 eq_refl) as [(g & H1 & ->)|(a & s3 & tr1 & tr2 & H1 & H2 & ->)]; [left|right].
      * exists g. by split; [eapply exec_step|].
      * exists a, s3, ((s, s1) :: tr1), tr2. split_and!; [by eapply exec_step|done..].
Qed.

Lemma exec_bind_inv {S A B} (E : S → S → Prop) (t : task S A) (k : A → task S B) s tr r s' :
  exec E (task_bind t k) s tr (Ret r) s' →
  ∃ a s1 tr1 tr2, exec E t s tr1 (Ret a) s1 ∧ exec E (k a) s1 tr2 (Ret r) s' ∧ tr = tr1 ++ tr2.
Proof. by intros [(f & _ & ?)|Hx]%exec_bind. Qed.

Lemma exec_seq {S A B} (E : S → S → Prop) (t : task S A) (k : A → task S B) s tr1 a s1 tr2 t' s' :
  exec E t s tr1 (Ret a) s1 → exec E (k a) s1 tr2 t' s' →
  exec E (task_bind t k) s (tr1 ++ tr2) t' s'.
Proof.
  remember (Ret a) as R eqn:HR.
  induction 1 as [t s|t s s1 tr T' s2 HE Hx IH|t s s1 t1 tr T' s2 Hp Hx IH]; intros Hk; subst.
  - done.
  - eapply exec_env; eauto.
  - destruct t as [b|f]; [done|]. simpl in Hp |- *. eapply exec_step; [|by apply IH].
    simpl. by rewrite Hp.
Qed.

(** ** A pool of tasks

    New calls from [api] may start at any time, any live task may be polled, and a
    task may be dropped at an await point. *)
Section pool.
Context {S : Type} (api : task S unit → Prop).

Inductive pool_step : S * list (task S unit) → S * list (task S unit) → Prop :=
| pool_call s ts t : api t → pool_step (s, ts) (s, ts ++ [t])
| pool_poll s ts i t s' t' :
    ts !! i = Some t → poll t s = Some (s', t') → pool_step (s, ts) (s', <[i := t']> ts)
| pool_drop s ts i : pool_step (s, ts) (s, delete i ts).

Lemma pool_obeys (G : S → S → Prop) c c' :
  (∀ t, api t → obeys G t) → rtc pool_step c c' →
  Forall (obeys G) c.2 → Forall (obeys G) c'.2 ∧ rtc G c.1 c'.1.
Proof using Type.
  intros Hapi Hr. induction Hr as [c|c1 c2 c3 Hs _ IH]; intros Hc; [by split; [|constructor]|].
  destruct Hs as [s ts t Ht|s ts i t s' t' Hi Hp|s ts i]; simpl in *.
  - destruct IH as [? ?]; [|done]. apply Forall_app. split; [done|]. constructor; eauto.
  - pose proof (proj1 (Forall_lookup _ _) Hc _ _ Hi) as Ht.
    destruct (obeys_poll _ _ _ _ _ Ht Hp) as [Hg Ht']. destruct IH as [? ?].
    + by apply Forall_insert.
    + split; [done|]. by eapply rtc_l.
  - apply IH. by apply Forall_delete.
Qed.
End pool.
