(* ===== verification/Proto.v ===== *)
(** * [proto/norupo/v1/tunnel.proto]: the frames both sides exchange

    The Rust types are generated from these messages. Integers are within their
    declared width; an enumeration travels as an [i32]. *)

From S2P Require Import Prelude RustStr.

Definition PROTOCOL_VERSION : Z := 1.

Record Header := mkHeader { h_name : str; h_value : str }.

#[export] Instance Header_eq_dec : EqDecision Header.
Proof. solve_decision. Defined.

Inductive ResetCode :=
| ResetUnspecified
| LocalUnreachable
| PeerClosed
| ProtocolError
| ResetTimeout
| ResetInternal
| Refused.

#[export] Instance ResetCode_eq_dec : EqDecision ResetCode.
Proof. solve_decision. Defined.

Definition reset_code_i32 (c : ResetCode) : Z :=
  match c with
  | ResetUnspecified => 0
  | LocalUnreachable => 1
  | PeerClosed => 2
  | ProtocolError => 3
  | ResetTimeout => 4
  | ResetInternal => 5
  | Refused => 6
  end.

(** [ResetCode::try_from(code).unwrap_or(ResetCode::Unspecified)]. *)
Definition reset_code_of (code : Z) : ResetCode :=
  match code with
  | 1 => LocalUnreachable
  | 2 => PeerClosed
  | 3 => ProtocolError
  | 4 => ResetTimeout
  | 5 => ResetInternal
  | 6 => Refused
  | _ => ResetUnspecified
  end%Z.

Inductive StreamKind := KindUnspecified | KindHttp | KindTcp.

Record HttpRequestHead := mkRequestHead {
  rq_method : str;
  rq_path : str;
  rq_authority : str;
  rq_headers : list Header;
  rq_version : str;
  rq_upgrade : str;
}.

Record HttpResponseHead := mkResponseHead {
  rs_stream_id : Z;
  rs_status : Z;
  rs_headers : list Header;
}.

Record Hello := mkHello {
  hello_token : str;
  hello_agent_version : str;
  hello_protocol_version : Z;
  hello_metadata : gmap str str;
}.

Record HttpTunnelSpec := mkHttpSpec {
  spec_subdomain : str;
  spec_custom_domain : str;
  spec_forward_to : str;
  spec_rewrite_host_header : bool;
}.

Record TcpTunnelSpec := mkTcpSpec { spec_remote_port : Z; spec_tcp_forward_to : str }.

Inductive TunnelSpec :=
| SpecHttp (spec : HttpTunnelSpec)
| SpecTcp (spec : TcpTunnelSpec).

Record OpenTunnel := mkOpenTunnel { ot_request_id : str; ot_spec : option TunnelSpec }.

Record ProtoLimits := mkProtoLimits {
  pl_max_tunnels : Z;
  pl_max_concurrent_streams : Z;
  pl_max_bytes_per_second : Z;
}.

Record Welcome := mkWelcome {
  w_session_id : str;
  w_server_version : str;
  w_node_id : str;
  w_heartbeat_interval_ms : Z;
  w_initial_window : Z;
  w_limits : option ProtoLimits;
}.

Record TunnelStatus := mkTunnelStatus {
  ts_request_id : str;
  ts_tunnel_id : str;
  ts_accepted : bool;
  ts_error : str;
  ts_public_url : str;
  ts_routing_key : str;
}.

Record StreamOpen := mkStreamOpen {
  so_stream_id : Z;
  so_tunnel_id : str;
  so_kind : StreamKind;
  so_http : option HttpRequestHead;
  so_remote_addr : str;
  so_initial_window : Z;
}.

Inductive ClientPayload :=
| CHello (hello : Hello)
| COpenTunnel (open : OpenTunnel)
| CCloseTunnel (tunnel_id : str)
| CResponseHead (head : HttpResponseHead)
| CData (stream_id : Z) (payload : str)
| CEnd (stream_id : Z) (trailers : list Header)
| CReset (stream_id code : Z) (message : str)
| CWindowUpdate (stream_id increment : Z)
| CPong (nonce client_time_ms : Z).

Inductive ServerPayload :=
| SWelcome (welcome : Welcome)
| STunnelStatus (status : TunnelStatus)
| SOpen (open : StreamOpen)
| SResponseHead (head : HttpResponseHead)
| SData (stream_id : Z) (payload : str)
| SEnd (stream_id : Z) (trailers : list Header)
| SReset (stream_id code : Z) (message : str)
| SWindowUpdate (stream_id increment : Z)
| SPing (nonce server_time_ms : Z)
| SShutdown (reason : str) (drain_ms : Z) (reconnect_to : str).

(** A frame is its optional payload. *)
Definition ClientFrame : Type := option ClientPayload.
Definition ServerFrame : Type := option ServerPayload.

(** [tonic::Status], as far as the program builds and classifies it. *)
Inductive Code := FailedPrecondition | Unauthenticated | PermissionDenied | Unavailable | OtherCode.

Record Status := mkStatus { st_code : Code; st_message : str }.

Lemma reset_code_roundtrip c : reset_code_of (reset_code_i32 c) = c.
Proof. by destruct c. Qed.
