(* ===== verification/Http.v ===== *)
(** * [norupo-server/src/http.rs]: headers, error pages, escaping *)

From S2P Require Import Prelude RustStr Crates Proto.

Definition HOP_BY_HOP : list str :=
  [lit "connection"; lit "keep-alive"; lit "proxy-authenticate"; lit "proxy-authorization";
   lit "te"; lit "trailer"; lit "transfer-encoding"; lit "upgrade"].

Definition HOP_HEADER : str := lit "x-norupo-hop".

Definition html_escape_char (ch : ascii) : str :=
  match ch with
  | "&"%char => lit "&amp;"
  | "<"%char => lit "&lt;"
  | ">"%char => lit "&gt;"
  | "034"%char => lit "&quot;"
  | "'"%char => lit "&#x27;"
  | _ => [ch]
  end.

(** The special characters are ASCII, so working on bytes is working on [chars]. *)
Definition html_escape (raw : str) : str := raw ≫= html_escape_char.

Section http.
Context `{HttpCrate}.

(** The names a map's [Connection] headers nominate. *)
Definition connection_listed (headers : HeaderMap) : list str :=
  hm_get_all (lit "connection") headers ≫= λ value,
    match value_to_str value with
    | Some text => map (λ t, to_ascii_lowercase (trim t)) (split "," text)
    | None => []
    end.

Definition sanitize_headers (headers : HeaderMap) : list Header :=
  let listed := connection_listed headers in
  map (λ p, mkHeader p.1 p.2)
    (filter (λ p : str * str,
       let lower := to_ascii_lowercase p.1 in
       (lower ∉ HOP_BY_HOP) ∧ (lower ∉ listed)) (hm_iter headers)).

(** The loop body of [to_header_map]. *)
Definition append_header (map : HeaderMap) (header : Header) : HeaderMap :=
  if decide (to_ascii_lowercase (h_name header) ∈ HOP_BY_HOP) then map
  else match header_name (h_name header), header_value (h_value header) with
       | Some name, Some value => hm_append name value map
       | _, _ => map
       end.

Definition to_header_map (headers : list Header) : HeaderMap :=
  fold_left append_header headers hm_new.

(** Bytes the edge sends itself, or a body produced elsewhere. *)
Inductive ResponseBody (B : Type) :=
| FullBody (bytes : str)
| OtherBody (b : B).
#[global] Arguments FullBody {B}.
#[global] Arguments OtherBody {B}.

Record Response (B : Type) := mkResponse {
  status : Z;
  headers : HeaderMap;
  body : ResponseBody B;
}.
#[global] Arguments mkResponse {B}.
#[global] Arguments status {B}.
#[global] Arguments headers {B}.
#[global] Arguments body {B}.

Definition quote : str := ["034"%char].

Definition error_page_body (code : Z) (title detail : str) : str :=
  lit "<!doctype html>" ++ ["010"%char] ++ lit "<html><head><meta charset=" ++ quote ++
  lit "utf-8" ++ quote ++ lit "><title>" ++ dec code ++ lit " " ++ html_escape title ++
  lit "</title><style>body{font:16px/1.6 system-ui,sans-serif;max-width:40rem;margin:6rem auto;padding:0 1.5rem;color:#1a1a1a}h1{font-size:1.4rem;margin:0 0 .5rem}code{background:#f4f4f5;padding:.1rem .3rem;border-radius:.2rem}footer{margin-top:2rem;color:#71717a;font-size:.85rem}</style></head><body><h1>" ++
  dec code ++ lit " &middot; " ++ html_escape title ++ lit "</h1><p>" ++ detail ++
  lit "</p><footer>norupo edge</footer></body></html>" ++ ["010"%char].

Definition error_page {B} (status : Z) (title detail : str) : Response B :=
  mkResponse status
    (hm_append (lit "cache-control") (lit "no-store")
       (hm_append (lit "content-type") (lit "text/html; charset=utf-8") hm_new))
    (FullBody (error_page_body status title detail)).

(** ** Lemmas *)

Lemma append_header_get n map h :
  hm_get_all n (append_header map h) =
  hm_get_all n map ++
    (if decide ((n ∉ HOP_BY_HOP) ∧ header_name (h_name h) = Some n)
     then option_list (header_value (h_value h)) else []).
Proof using Type.
  unfold append_header. destruct (header_name (h_name h)) as [n'|] eqn:En.
  - pose proof (header_name_lower _ _ En) as [Hl Hn]. rewrite <- Hl.
    rewrite header_value_spec. case_decide as Hhop.
    + rewrite decide_False, app_nil_r by (intros [? [= <-]]; done). done.
    + destruct (forallb header_value_byte (h_value h)) eqn:Ev; simpl.
      * rewrite hm_get_all_append by (first [done|by rewrite header_value_spec, Ev]).
        f_equal. repeat case_decide; naive_solver.
      * by case_decide; rewrite app_nil_r.
  - rewrite (decide_False (P := _ ∧ _)), app_nil_r by (by intros [_ ?]).
    by case_decide.
Qed.

(** What [value_to_str] accepts is a header value. *)
Lemma visible_header_byte a : visible_byte a = true → header_value_byte a = true.
Proof using Type. unfold visible_byte, header_value_byte. byte_cases a. Qed.

Lemma visible_header_value v t : value_to_str v = Some t → header_value t = Some t.
Proof using Type.
  rewrite value_to_str_spec, header_value_spec. destruct (forallb visible_byte v) eqn:E; [|done].
  intros [= <-]. replace (forallb header_value_byte v) with true; [done|]. symmetry.
  apply forallb_elem. intros a Ha. apply visible_header_byte. by apply (proj1 (forallb_elem _ _) E).
Qed.

(** The values of [n] a list of headers carries past [to_header_map]. *)
Definition kept_values (n : str) (hs : list Header) : list str :=
  hs ≫= λ h, if decide (header_name (h_name h) = Some n)
             then option_list (header_value (h_value h)) else [].

Lemma to_header_map_get n hs :
  hm_get_all n (to_header_map hs) = if decide (n ∈ HOP_BY_HOP) then [] else kept_values n hs.
Proof using Type.
  unfold to_header_map.
  enough (∀ m, hm_get_all n (fold_left append_header hs m) =
            hm_get_all n m ++ if decide (n ∈ HOP_BY_HOP) then [] else kept_values n hs) as He.
  { rewrite He, hm_get_all_new. done. }
  induction hs as [|h hs IH]; intros m; cbn [fold_left].
  { case_decide; by rewrite app_nil_r. }
  rewrite IH, append_header_get, <- app_assoc. f_equal. unfold kept_values. cbn [mbind list_bind].
  repeat case_decide; naive_solver.
Qed.

(** What may not be forwarded: hop-by-hop names, and those a visible [Connection]
    value nominates between its commas. *)
Definition nominated (headers : HeaderMap) (n : str) : Prop :=
  ∃ value text token, value ∈ hm_get_all (lit "connection") headers ∧
    value_to_str value = Some text ∧ token ∈ split "," text ∧ n = to_ascii_lowercase (trim token).

Definition strips (headers : HeaderMap) (n : str) : Prop := n ∈ HOP_BY_HOP ∨ nominated headers n.

Lemma connection_listed_nominated headers n : n ∈ connection_listed headers ↔ nominated headers n.
Proof using Type.
  unfold connection_listed, nominated. rewrite list_elem_of_bind. split.
  - intros (value & Hn & Hv). destruct (value_to_str value) as [text|] eqn:E; [|by apply elem_of_nil in Hn].
    apply list_elem_of_fmap in Hn as (token & -> & Ht). by exists value, text, token.
  - intros (value & text & token & Hv & E & Ht & ->). exists value. split; [|done]. rewrite E.
    apply list_elem_of_fmap. by exists token.
Qed.

#[export] Instance strips_dec headers n : Decision (strips headers n).
Proof using Type.
  destruct (decide (n ∈ HOP_BY_HOP ∨ n ∈ connection_listed headers)) as [Hs|Hs]; [left|right];
    unfold strips; by rewrite <- connection_listed_nominated.
Defined.

(** The values a list of headers, as it goes over the wire, carries under [n]. *)
Definition wire_values (n : str) (hs : list Header) : list str :=
  hs ≫= λ h, if decide (h_name h = n) then [h_value h] else [].

Lemma sanitize_keeps headers (p : str * str) :
  (to_ascii_lowercase p.1 ∉ HOP_BY_HOP) ∧ (to_ascii_lowercase p.1 ∉ connection_listed headers) ↔
  ¬ strips headers (to_ascii_lowercase p.1).
Proof using Type. unfold strips. rewrite <- connection_listed_nominated. tauto. Qed.

Lemma sanitized_values n headers :
  wire_values n (sanitize_headers headers) =
  if decide (strips headers n) then [] else hm_get_all n headers.
Proof using Type.
  unfold wire_values, sanitize_headers, hm_get_all.
  assert (∀ p, p ∈ hm_iter headers → to_ascii_lowercase p.1 = p.1) as Hlow.
  { intros [n' v] Hp. destruct (hm_iter_valid _ _ _ Hp) as [Hn _].
    symmetry. by apply (header_name_lower _ _ Hn). }
  induction (hm_iter headers) as [|[n' v] l IH]; [by case_decide|].
  specialize (IH ltac:(intros p Hp; apply Hlow; by right)).
  pose proof (Hlow (n', v) ltac:(left)) as Hn. pose proof (sanitize_keeps headers (n', v)) as Hk.
  rewrite !filter_cons. cbn [fst snd] in *. rewrite Hn in Hk |- *.
  destruct (decide ((n' ∉ HOP_BY_HOP) ∧ n' ∉ connection_listed headers)) as [Hd|Hd]; cbn [map];
    rewrite ?bind_cons; cbn [h_name h_value fst snd]; destruct (decide (n' = n)) as [->|Hne]; rewrite IH; try done.
  - case_decide; [tauto|done].
  - case_decide; [done|tauto].
Qed.

Lemma sanitized_order headers :
  map (λ h, (h_name h, h_value h)) (sanitize_headers headers) `sublist_of` hm_iter headers.
Proof using Type.
  unfold sanitize_headers. rewrite map_map. cbn [h_name h_value].
  rewrite (map_ext _ (λ p, p)), map_id; [apply sublist_filter|by intros []].
Qed.

Lemma sanitized_name headers h :
  h ∈ sanitize_headers headers → ¬ strips headers (to_ascii_lowercase (h_name h)).
Proof using Type.
  unfold sanitize_headers. intros ([n v] & -> & [Hk _]%list_elem_of_filter)%list_elem_of_fmap.
  by apply (sanitize_keeps headers (n, v)).
Qed.
End http.

(** ** Escaping *)

(** The inverse of [html_escape]: what a browser reads. *)
Definition html_entities : list (str * ascii) :=
  [(lit "&amp;", "&"%char); (lit "&lt;", "<"%char); (lit "&gt;", ">"%char);
   (lit "&quot;", "034"%char); (lit "&#x27;", "'"%char)].

Fixpoint read_entity (table : list (str * ascii)) (s : str) : option (ascii * str) :=
  match table with
  | [] => None
  | (e, c) :: table' =>
      match strip_prefix e s with
      | Some rest => Some (c, rest)
      | None => read_entity table' s
      end
  end.

Fixpoint html_unescape (fuel : nat) (s : str) : str :=
  match fuel, s with
  | S fuel, a :: s' =>
      match read_entity html_entities s with
      | Some (c, rest) => c :: html_unescape fuel rest
      | None => a :: html_unescape fuel s'
      end
  | _, _ => []
  end.

Definition html_special (a : ascii) : bool :=
  existsb (λ c, bool_decide (a = c)) ["<"; ">"; "034"; "'"]%char.

Lemma html_escape_cons a s : html_escape (a :: s) = html_escape_char a ++ html_escape s.
Proof. done. Qed.

Lemma read_entity_escape a s :
  read_entity html_entities (html_escape_char a ++ s) =
  (if bool_decide (html_escape_char a = [a]) then None else Some (a, s)).
Proof. destruct a as [[][][][][][][][]]; reflexivity. Qed.

Lemma html_unescape_escape fuel s : length s ≤ fuel → html_unescape fuel (html_escape s) = s.
Proof.
  revert fuel. induction s as [|a s IH]; intros [|fuel] Hf; simpl in Hf; try lia; try done.
  rewrite html_escape_cons. pose proof (read_entity_escape a (html_escape s)) as Hr.
  case_bool_decide as Ha.
  - rewrite Ha in *. simpl app in *. cbn [html_unescape]. rewrite Hr. f_equal. apply IH. lia.
  - destruct (html_escape_char a) as [|b e] eqn:Ee; [by destruct a as [[][][][][][][][]]|].
    simpl app in *. cbn [html_unescape]. rewrite Hr. f_equal. apply IH. lia.
Qed.

Lemma html_escape_char_safe a b : b ∈ html_escape_char a → html_special b = false.
Proof.
  intros Hb. assert (forallb (λ b, negb (html_special b)) (html_escape_char a) = true) as Hall
    by (destruct a as [[][][][][][][][]]; reflexivity).
  apply negb_true_iff. by apply (proj1 (forallb_elem _ _) Hall).
Qed.

(** ** Properties *)

(** C34: the headers of a public request that the edge sends to the agent: every field
    whose name is hop-by-hop, or nominated by a [Connection] header, is gone, so no
    [Transfer-Encoding] or other field of this hop is relayed; every other field is
    sent with all its values, and the fields stay in the order the map yields. *)
Theorem forwarded_headers_exact `{HttpCrate} (m : HeaderMap) :
  (∀ n, wire_values n (sanitize_headers m) = if decide (strips m n) then [] else hm_get_all n m) ∧
  (∀ h, h ∈ sanitize_headers m → ¬ strips m (to_ascii_lowercase (h_name h))) ∧
  map (λ h, (h_name h, h_value h)) (sanitize_headers m) `sublist_of` hm_iter m.
Proof. split_and!; [intros n; apply sanitized_values|apply sanitized_name|apply sanitized_order]. Qed.

(** A request that nominates [X-Secret] and asks for chunked transfer. *)
Definition hop_headers : @HeaderMap list_http :=
  @hm_append list_http (lit "accept") (lit "text/html")
    (@hm_append list_http (lit "x-secret") (lit "1")
       (@hm_append list_http (lit "transfer-encoding") (lit "chunked")
          (@hm_append list_http (lit "connection") (lit "close, X-Secret") (@hm_new list_http)))).

Lemma forwarded_headers_exact_witness :
  @wire_values (lit "accept") (@sanitize_headers list_http hop_headers) = [lit "text/html"] ∧
  ∀ h, h ∈ @sanitize_headers list_http hop_headers → to_ascii_lowercase (h_name h) ≠ lit "transfer-encoding".
Proof.
  destruct (@forwarded_headers_exact list_http hop_headers) as (_ & Hno & _).
  split; [vm_compute; reflexivity|]. intros h Hh Hn. apply (Hno h Hh). rewrite Hn. left.
  apply (bool_decide_unpack _). vm_compute. exact I.
Defined.

(** C35: headers built from an agent's frame cannot split the response or smuggle
    a hop: a value in the map has no control byte except tab, none of the names is
    hop-by-hop, and nothing appears that the frame did not list. *)
Theorem agent_headers_safe `{HttpCrate} (hs : list Header) n v :
  v ∈ hm_get_all n (to_header_map hs) →
  forallb header_value_byte v = true ∧ (n ∉ HOP_BY_HOP) ∧ n = to_ascii_lowercase n ∧
  ∃ h, h ∈ hs ∧ to_ascii_lowercase (h_name h) = n ∧ h_value h = v.
Proof.
  intros Hv. pose proof (hm_get_all_valid _ _ _ Hv) as [Hn Hval].
  rewrite header_value_spec in Hval. rewrite to_header_map_get in Hv.
  case_decide as Hhop; [by apply elem_of_nil in Hv|].
  split_and!; [by destruct (forallb header_value_byte v)|done|by apply header_name_lower|].
  apply list_elem_of_bind in Hv as (h & Hv & Hh). exists h. split; [done|].
  case_decide as He; [|by apply elem_of_nil in Hv]. apply header_name_lower in He as [He _].
  rewrite header_value_spec in Hv.
  destruct (forallb header_value_byte (h_value h)); simpl in Hv; [|by apply elem_of_nil in Hv].
  apply list_elem_of_singleton in Hv. by subst.
Qed.

Lemma agent_headers_safe_witness :
  let hs := [mkHeader (lit "X-Good") (lit "1");
             mkHeader (lit "x-bad") (lit "a" ++ ["013"; "010"]%char ++ lit "Injected: yes");
             mkHeader (lit "Transfer-Encoding") (lit "chunked")] in
  @hm_get_all list_http (lit "x-good") (@to_header_map list_http hs) = [lit "1"] ∧
  @hm_get_all list_http (lit "x-bad") (@to_header_map list_http hs) = [] ∧
  (lit "x-good" ∉ HOP_BY_HOP).
Proof.
  intros hs. split_and!; [vm_compute; reflexivity..|].
  apply (@agent_headers_safe list_http hs (lit "x-good") (lit "1")).
  replace (@hm_get_all list_http (lit "x-good") (@to_header_map list_http hs)) with [lit "1"]
    by (vm_compute; reflexivity).
  left.
Defined.

(** Escaped text cannot open a tag or close an attribute (none of the four
    delimiters survives) and shows the reader exactly the original text. *)
Theorem html_escape_sound raw :
  forallb (λ a, negb (html_special a)) (html_escape raw) = true ∧
  html_unescape (length raw) (html_escape raw) = raw.
Proof.
  split; [|by apply html_unescape_escape].
  apply forallb_elem. intros b (a & Hb & Ha)%list_elem_of_bind.
  apply negb_true_iff. by eapply html_escape_char_safe.
Qed.
