(* ===== verification/Session.v ===== *)
(** * [norupo-server/src/session.rs]: agent sessions and their streams

    A stream object is allocated once and shared: the stream table, the writer of
    the request body and the task awaiting the response refer to it by its index
    in [stream_objs]. It also holds both ends of the stream's two channels. *)

From S2P Require Import Prelude RustStr Crates Async Auth Proto.

Definition MAX_CHUNK : Z := 64 * 1024.
Definition STREAM_BUFFER_FRAMES : nat := 16.
Definition OUTBOUND_QUEUE : nat := 1024.

Inductive Chunk :=
| ChunkData (bytes : str)
| ChunkEnd (trailers : list Header)
| ChunkReset (code : ResetCode) (message : str).

Record Tunnel := mkTunnel {
  tun_tunnel_id : str;
  tun_routing_key : str;
  tun_public_url : str;
}.

#[export] Instance Tunnel_eq_dec : EqDecision Tunnel.
Proof. solve_decision. Defined.

Inductive OpenError :=
| SessionGone
| TooManyStreams (limit : Z).

(** [head] and [body] are the receiving ends of the channels of one object. *)
Record StreamResponse := mkStreamResponse { resp_stream_id : Z; resp_object : nat }.

(** The [while] loop of [split_chunks]; every turn takes [MAX_CHUNK] bytes off. *)
Fixpoint split_loop (fuel : nat) (payload : str) : list str :=
  match fuel with
  | O => [payload]
  | S fuel =>
      if (MAX_CHUNK <? byte_len payload)%Z
      then take (Z.to_nat MAX_CHUNK) payload :: split_loop fuel (drop (Z.to_nat MAX_CHUNK) payload)
      else [payload]
  end.

Definition split_chunks (payload : str) : list str :=
  if (byte_len payload <=? MAX_CHUNK)%Z then [payload]
  else split_loop (length payload) payload.

Section session.
Context `{Tokio} `{MapIteration}.

(** [head_tx] tells whether the sender is still in its slot. *)
Record Stream := mkStream {
  head_tx : bool;
  head_ch : oneshot HttpResponseHead;
  body_ch : mpsc Chunk;
  send_credit : semaphore;
  stream_closed : bool;
}.

Record Session := mkSession {
  ses_id : str;
  ses_node_id : str;
  ses_principal : Principal;
  outbound : mpsc (result ServerFrame Status);
  streams : gmap Z nat;
  stream_objs : list Stream;
  tunnels : gmap str Tunnel;
  next_stream_id : Z;
  initial_window : Z;
  open_streams : Z;
}.

Definition with_outbound (o : mpsc (result ServerFrame Status)) (s : Session) : Session :=
  mkSession (ses_id s) (ses_node_id s) (ses_principal s) o (streams s) (stream_objs s)
    (tunnels s) (next_stream_id s) (initial_window s) (open_streams s).
Definition with_tunnels (m : gmap str Tunnel) (s : Session) : Session :=
  mkSession (ses_id s) (ses_node_id s) (ses_principal s) (outbound s) (streams s)
    (stream_objs s) m (next_stream_id s) (initial_window s) (open_streams s).
Definition with_streams (m : gmap Z nat) (objs : list Stream) (next count : Z) (s : Session)
  : Session :=
  mkSession (ses_id s) (ses_node_id s) (ses_principal s) (outbound s) m objs
    (tunnels s) next (initial_window s) count.
Definition update_stream (l : nat) (f : Stream → Stream) (s : Session) : Session :=
  with_streams (streams s) (alter f l (stream_objs s)) (next_stream_id s) (open_streams s) s.

Definition with_head (tx : bool) (c : oneshot HttpResponseHead) (st : Stream) : Stream :=
  mkStream tx c (body_ch st) (send_credit st) (stream_closed st).
Definition with_body (c : mpsc Chunk) (st : Stream) : Stream :=
  mkStream (head_tx st) (head_ch st) c (send_credit st) (stream_closed st).
Definition with_credit (c : semaphore) (st : Stream) : Stream :=
  mkStream (head_tx st) (head_ch st) (body_ch st) c (stream_closed st).

(** [Session::new]; the receiver is the other end of [outbound]. *)
Definition session_new (id node_id : str) (principal : Principal) (window : Z) : Session :=
  mkSession id node_id principal (ch_channel OUTBOUND_QUEUE) ∅ [] ∅ 1 window 0.

Definition send (frame : ServerFrame) : task Session bool :=
  await (λ s, match ch_send (Ok frame) (outbound s) with
              | Some (o, ok) => Some (with_outbound o s, ok)
              | None => None
              end).

Definition try_send (frame : ServerFrame) (s : Session) : Session * bool :=
  let '(o, ok) := ch_try_send (Ok frame) (outbound s) in (with_outbound o s, ok).

Definition session_tunnels (s : Session) : list Tunnel := (map_iter (tunnels s)).*2.
Definition session_tunnel_count (s : Session) : Z := Z.of_nat (size (tunnels s)).
Definition insert_tunnel (t : Tunnel) (s : Session) : Session :=
  with_tunnels (<[tun_tunnel_id t := t]> (tunnels s)) s.
Definition remove_tunnel (tunnel_id : str) (s : Session) : Session * option Tunnel :=
  match tunnels s !! tunnel_id with
  | Some t => (with_tunnels (delete tunnel_id (tunnels s)) s, Some t)
  | None => (s, None)
  end.
Definition open_stream_count (s : Session) : Z := open_streams s.

(** Removing the table's entry drops the last handle to the object, and with it
    the senders it holds. *)
Definition end_stream (st : Stream) : Stream :=
  mkStream false (if head_tx st then os_drop_tx (head_ch st) else head_ch st)
    (ch_drop_tx (body_ch st)) (sem_close (send_credit st)) true.

Definition remove_entry (stream_id : Z) (l : nat) (s : Session) : Session :=
  with_streams (delete stream_id (streams s)) (alter end_stream l (stream_objs s))
    (next_stream_id s) (open_streams s) s.

(** The counter: [fetch_sub] and [fetch_add] wrap. *)
Definition count_closed (s : Session) : Session :=
  with_streams (streams s) (stream_objs s) (next_stream_id s) (u64_wrapping_sub (open_streams s) 1) s.
Definition count_opened (s : Session) : Session :=
  with_streams (streams s) (stream_objs s) (next_stream_id s) (u64_wrapping_add (open_streams s) 1) s.

(** No await point lies between the table's change and the counter's. That another
    thread may run there is the matter of [counted_step] below. *)
Definition close_stream (stream_id : Z) (s : Session) : Session :=
  match streams s !! stream_id with
  | Some l => count_closed (remove_entry stream_id l s)
  | None => s
  end.

Fixpoint close_streams (ids : list Z) : task Session unit :=
  match ids with
  | [] => Ret tt
  | id :: rest => modify (close_stream id) ;;! close_streams rest
  end.

(** The ids are collected first, then closed one by one. *)
Definition close_all_streams : task Session unit :=
  let! ids := query (λ s, (map_iter (streams s)).*1) in close_streams ids.

(** The table insertion of [open_http_stream], under a new id, and then the counting:
    from one to the other there is no await point. *)
Definition insert_entry (s : Session) : Session * (Z * nat) :=
  let stream_id := next_stream_id s in
  let l := length (stream_objs s) in
  let st := mkStream true os_channel (ch_channel STREAM_BUFFER_FRAMES)
              (sem_new (initial_window s)) false in
  (with_streams (<[stream_id := l]> (streams s)) (stream_objs s ++ [st])
     (u64_wrapping_add stream_id 1) (open_streams s) s, (stream_id, l)).

Definition register_stream (s : Session) : Session * (Z * nat) :=
  (count_opened (insert_entry s).1, (insert_entry s).2).

Definition drop_receivers (l : nat) : Session → Session :=
  update_stream l (λ st, with_body (ch_drop_rx (body_ch st))
                           (with_head (head_tx st) (os_drop_rx (head_ch st)) st)).

(** The limit check reads the counter before, and not together with, the
    registration. *)
Definition open_http_stream (tunnel_id : str) (head : HttpRequestHead) (remote_addr : str)
  : task Session (result StreamResponse OpenError) :=
  let! '(limit, count) :=
    query (λ s, (max_concurrent_streams (limits (ses_principal s)), open_streams s)) in
  if ((0 <? limit)%Z && (limit <=? count)%Z) then Ret (Err (TooManyStreams limit))
  else
    let! '(stream_id, l) := atomic register_stream in
    let! window := query initial_window in
    let! opened := send (Some (SOpen (mkStreamOpen stream_id tunnel_id KindHttp (Some head)
                                        remote_addr window))) in
    if negb opened
    then modify (close_stream stream_id) ;;! modify (drop_receivers l) ;;! Ret (Err SessionGone)
    else Ret (Ok (mkStreamResponse stream_id l)).

(** [credit.acquire_many(n).await] and [permit.forget()]. *)
Definition acquire_credit (l : nat) (n : Z) : task Session bool :=
  await (λ s, match stream_objs s !! l with
              | Some st =>
                  match sem_acquire_many n (send_credit st) with
                  | Some (c, ok) => Some (update_stream l (with_credit c) s, ok)
                  | None => None
                  end
              | None => None
              end).

Fixpoint send_chunks (stream_id : Z) (l : nat) (chunks : list str) : task Session bool :=
  match chunks with
  | [] => Ret true
  | chunk :: rest =>
      let! permit := acquire_credit l (u32_saturate (byte_len chunk)) in
      if negb permit then Ret false
      else
        let! sent := send (Some (SData stream_id chunk)) in
        if negb sent then Ret false else send_chunks stream_id l rest
  end.

Definition send_stream_data (stream_id : Z) (payload : str) : task Session bool :=
  let! credit := query (λ s, streams s !! stream_id) in
  match credit with
  | Some l => send_chunks stream_id l (split_chunks payload)
  | None => Ret false
  end.

Definition send_stream_end (stream_id : Z) : task Session bool := send (Some (SEnd stream_id [])).

Definition grant_window (stream_id increment : Z) : task Session bool :=
  if (increment =? 0)%Z then Ret true else send (Some (SWindowUpdate stream_id increment)).

Definition reset_stream (stream_id : Z) (code : ResetCode) (message : str) : task Session unit :=
  modify (close_stream stream_id) ;;!
  send (Some (SReset stream_id (reset_code_i32 code) message)) ;;! Ret tt.

Definition on_response_head (head : HttpResponseHead) (s : Session) : Session :=
  match streams s !! rs_stream_id head with
  | Some l =>
      update_stream l (λ st, if head_tx st then with_head false (os_send head (head_ch st)) st
                             else st) s
  | None => s
  end.

(** A clone of the body sender of a stream that is open. *)
Definition stream_body_sender (stream_id : Z) (s : Session) : Session * option nat :=
  match streams s !! stream_id with
  | Some l =>
      match stream_objs s !! l with
      | Some st =>
          if negb (stream_closed st)
          then (update_stream l (with_body (ch_clone_tx (body_ch st))) s, Some l)
          else (s, None)
      | None => (s, None)
      end
  | None => (s, None)
  end.

Definition send_body (l : nat) (chunk : Chunk) : task Session bool :=
  await (λ s, match stream_objs s !! l with
              | Some st =>
                  match ch_send chunk (body_ch st) with
                  | Some (c, ok) => Some (update_stream l (with_body c) s, ok)
                  | None => None
                  end
              | None => None
              end).

Definition drop_body_sender (l : nat) : Session → Session :=
  update_stream l (λ st, with_body (ch_drop_tx (body_ch st)) st).

Definition on_stream_data (stream_id : Z) (payload : str) : task Session Z :=
  let! tx := atomic (stream_body_sender stream_id) in
  match tx with
  | None => Ret 0%Z
  | Some l =>
      let! ok := send_body l (ChunkData payload) in
      if negb ok
      then modify (close_stream stream_id) ;;! modify (drop_body_sender l) ;;! Ret 0%Z
      else modify (drop_body_sender l) ;;! Ret (byte_len payload)
  end.

(** [on_stream_end] and [on_stream_reset]: a last chunk, then the stream closes. *)
Definition finish_stream (stream_id : Z) (chunk : Chunk) : task Session unit :=
  let! tx := atomic (stream_body_sender stream_id) in
  match tx with
  | Some l => send_body l chunk ;;! modify (drop_body_sender l)
  | None => Ret tt
  end ;;! modify (close_stream stream_id).

Definition on_stream_end (stream_id : Z) (trailers : list Header) : task Session unit :=
  finish_stream stream_id (ChunkEnd trailers).

Definition on_stream_reset (stream_id : Z) (code : ResetCode) (message : str) : task Session unit :=
  finish_stream stream_id (ChunkReset code message).

(** [None]: [add_permits] panics. *)
Definition on_window_update (stream_id increment : Z) (s : Session) : option Session :=
  match streams s !! stream_id with
  | Some l =>
      match stream_objs s !! l with
      | Some st => c ← sem_add_permits increment (send_credit st);
                   Some (update_stream l (with_credit c) s)
      | None => Some s
      end
  | None => Some s
  end.

(** ** The bookkeeping invariant *)

(** A stream object is consistent: the sender in its slot is the live one, and a
    closed stream has a closed semaphore and no sender. *)
Definition stream_ok (st : Stream) : Prop :=
  head_tx st = os_sender (os_view (head_ch st)) ∧
  sem_closed (sem_view (send_credit st)) = stream_closed st ∧
  (stream_closed st = true → head_tx st = false).

Definition stream_evolves (st st' : Stream) : Prop :=
  stream_closed st' = stream_closed st ∧ capacity (body_ch st') = capacity (body_ch st) ∧
  (stream_ok st → stream_ok st').

#[export] Instance stream_evolves_preorder : PreOrder stream_evolves.
Proof using Type. split; unfold stream_evolves; [done|]. intros x y z (? & ? & ?) (? & ? & ?). split_and!; [congruence..|auto]. Qed.

(** Nothing the table tracks changes: only queues, tunnels and objects move. *)
Definition quiet (s s' : Session) : Prop :=
  ses_id s' = ses_id s ∧ ses_node_id s' = ses_node_id s ∧ ses_principal s' = ses_principal s ∧
  streams s' = streams s ∧ next_stream_id s' = next_stream_id s ∧
  initial_window s' = initial_window s ∧ open_streams s' = open_streams s ∧
  capacity (outbound s') = capacity (outbound s) ∧
  Forall2 stream_evolves (stream_objs s) (stream_objs s').

Definition session_step (s s' : Session) : Prop :=
  quiet s s' ∨ s' = (register_stream s).1 ∨ ∃ id, s' = close_stream id s.

Record session_wf (s : Session) : Prop := {
  wf_next : next_stream_id s = ((1 + Z.of_nat (length (stream_objs s))) `mod` 2 ^ 64)%Z;
  wf_ids id l : streams s !! id = Some l → l < length (stream_objs s) ∧ id = (1 + Z.of_nat l)%Z;
  wf_count : open_streams s = Z.of_nat (size (streams s));
  wf_size : size (streams s) ≤ length (stream_objs s);
  wf_objs l st : stream_objs s !! l = Some st →
    stream_ok st ∧ (stream_closed st = false ↔ streams s !! (1 + Z.of_nat l)%Z = Some l);
}.

Lemma quiet_objs (s s' : Session) :
  ses_id s' = ses_id s → ses_node_id s' = ses_node_id s → ses_principal s' = ses_principal s →
  streams s' = streams s → next_stream_id s' = next_stream_id s →
  initial_window s' = initial_window s → open_streams s' = open_streams s →
  capacity (outbound s') = capacity (outbound s) →
  Forall2 stream_evolves (stream_objs s) (stream_objs s') → quiet s s'.
Proof using Type. done. Qed.

Lemma quiet_refl s : quiet s s.
Proof using Type. by apply quiet_objs. Qed.

Lemma quiet_outbound o s : capacity o = capacity (outbound s) → quiet s (with_outbound o s).
Proof using Type. intros Hc. by apply quiet_objs. Qed.

Lemma quiet_send f s o ok : ch_send f (outbound s) = Some (o, ok) → quiet s (with_outbound o s).
Proof using Type. eauto using quiet_outbound, send_capacity. Qed.
Lemma quiet_recv s o f : ch_recv (outbound s) = Some (o, f) → quiet s (with_outbound o s).
Proof using Type. eauto using quiet_outbound, recv_capacity. Qed.

Lemma quiet_tunnels m s : quiet s (with_tunnels m s).
Proof using Type. by apply quiet_objs. Qed.

Lemma quiet_update l f s :
  (∀ st, stream_objs s !! l = Some st → stream_evolves st (f st)) → quiet s (update_stream l f s).
Proof using Type.
  intros Hf. apply quiet_objs; try done. simpl. apply Forall2_same_length_lookup.
  split; [by rewrite length_alter|]. intros k x y Hx. destruct (decide (k = l)) as [->|Hk].
  - rewrite list_lookup_alter_eq, Hx. intros [= <-]. by apply Hf.
  - rewrite list_lookup_alter_ne by done. intros Hy. rewrite Hx in Hy. by injection Hy as <-.
Qed.

Lemma evolves_body c st : capacity c = capacity (body_ch st) → stream_evolves st (with_body c st).
Proof using Type. intros Hc. by split. Qed.

Lemma evolves_credit c st :
  sem_closed (sem_view c) = sem_closed (sem_view (send_credit st)) → stream_evolves st (with_credit c st).
Proof using Type. intros Hc. split_and!; [done..|]. intros (H1 & H2 & H3). split_and!; simpl; congruence || done. Qed.

Lemma evolves_sent head st :
  stream_evolves st (if head_tx st then with_head false (os_send head (head_ch st)) st else st).
Proof using Type.
  split_and!; [by destruct (head_tx st)..|]. intros Hok. destruct (head_tx st); [|done].
  destruct Hok as (H1 & H2 & H3). split_and!; simpl; [by rewrite os_send_view|done|done].
Qed.

Lemma evolves_drop_receivers st :
  stream_evolves st (with_body (ch_drop_rx (body_ch st))
                       (with_head (head_tx st) (os_drop_rx (head_ch st)) st)).
Proof using Type.
  split_and!; [done|apply drop_rx_capacity|]. intros (H1 & H2 & H3).
  split_and!; simpl; [by rewrite os_drop_rx_view|done|done].
Qed.

(** ** The invariant survives every step *)

Lemma step_objs s s' :
  session_step s s' → length (stream_objs s) ≤ length (stream_objs s').
Proof using Type.
  intros [(_ & _ & _ & _ & _ & _ & _ & _ & Ho)|[->|[id ->]]].
  - by rewrite (Forall2_length _ _ _ Ho).
  - simpl. rewrite length_app. lia.
  - unfold close_stream. case_match; [simpl; by rewrite length_alter|done].
Qed.

Lemma steps_objs (x x' : Session) :
  rtc session_step x x' → length (stream_objs x) ≤ length (stream_objs x').
Proof using Type. induction 1 as [x|x y z Hs _ IH]; [done|]. apply step_objs in Hs. lia. Qed.

Lemma wf_quiet s s' : quiet s s' → session_wf s → session_wf s'.
Proof using Type.
  intros (_ & _ & _ & Hs & Hn & _ & Hc & _ & Ho) [W1 W2 W3 W4 W5].
  pose proof (Forall2_length _ _ _ Ho) as Hl. split; rewrite ?Hs, ?Hn, ?Hc, <- ?Hl; try done.
  intros l st' Hst'. destruct (Forall2_lookup_r _ _ _ _ _ Ho Hst') as (st & Hst & Hcl & _ & Hok).
  destruct (W5 _ _ Hst) as [Hso Hiff]. split; [auto|]. by rewrite Hcl.
Qed.

(** There is room in every channel, once it is empty. *)
Definition roomy (s : Session) : Prop :=
  0 < capacity (outbound s) ∧ Forall (λ st, 0 < capacity (body_ch st)) (stream_objs s).

Lemma roomy_step s s' : session_step s s' → roomy s → roomy s'.
Proof using Type.
  intros Hs [Ho Hb]. destruct Hs as [(_ & _ & _ & _ & _ & _ & _ & Hc & He)|[->|[id ->]]].
  - split; [by rewrite Hc|]. apply Forall_lookup. intros l st' Hst'.
    destruct (Forall2_lookup_r _ _ _ _ _ He Hst') as (st & Hst & _ & -> & _).
    exact (proj1 (Forall_lookup _ _) Hb l st Hst).
  - split; [done|]. simpl. apply Forall_app. split; [done|]. constructor; [|done].
    unfold capacity. cbn. rewrite ch_channel_view. apply Nat.lt_0_succ.
  - unfold close_stream. destruct (streams s !! id) as [l|]; [|done]. split; [done|]. simpl.
    apply Forall_alter; [done|]. intros st Hst Hst'. simpl. by rewrite drop_tx_capacity.
Qed.

Lemma roomy_steps s s' : rtc session_step s s' → roomy s → roomy s'.
Proof using Type. induction 1; eauto using roomy_step. Qed.

Lemma wf_register s :
  session_wf s → (Z.of_nat (length (stream_objs s)) + 1 < 2 ^ 64)%Z →
  session_wf (register_stream s).1.
Proof using Type.
  intros [W1 W2 W3 W4 W5] Hl. rewrite Z.mod_small in W1 by lia.
  assert (streams s !! next_stream_id s = None) as Hfresh.
  { destruct (streams s !! next_stream_id s) as [l|] eqn:E; [|done].
    destruct (W2 _ _ E) as [? ?]. lia. }
  split; simpl.
  - rewrite length_app, W1. simpl. unfold u64_wrapping_add. f_equal. lia.
  - intros id l. rewrite length_app. simpl.
    intros [[<- <-]|[_ Hs]]%lookup_insert_Some; [lia|]. destruct (W2 _ _ Hs). lia.
  - rewrite map_size_insert_None, W3 by done. unfold u64_wrapping_add.
    rewrite Z.mod_small; lia.
  - rewrite map_size_insert_None, length_app by done. simpl. lia.
  - intros l st [Hst|[Hge Hst]]%lookup_app_Some.
    + pose proof (lookup_lt_Some _ _ _ Hst) as Hlt.
      rewrite lookup_insert_ne by lia. by apply W5.
    + apply list_lookup_singleton_Some in Hst as [Hz <-]. rewrite W1.
      replace l with (length (stream_objs s)) by lia. rewrite lookup_insert_eq.
      split; [|done]. split_and!; simpl; [by rewrite os_channel_view|by rewrite sem_new_view|done].
Qed.

Lemma end_stream_ok st : stream_ok st → stream_ok (end_stream st).
Proof using Type.
  intros (H1 & H2 & H3). split_and!; simpl; [|by rewrite sem_close_view|done].
  destruct (head_tx st); [by rewrite os_drop_tx_view|done].
Qed.

Lemma wf_close id s :
  session_wf s → (Z.of_nat (length (stream_objs s)) < 2 ^ 64)%Z → session_wf (close_stream id s).
Proof using Type.
  intros [W1 W2 W3 W4 W5] Hl. unfold close_stream. destruct (streams s !! id) as [l|] eqn:E; [|done].
  destruct (W2 _ _ E) as [Hlt ->].
  pose proof (map_size_ne_0_lookup_2 (streams s) _ ltac:(by rewrite E)) as Hne.
  pose proof (map_size_delete (1 + Z.of_nat l)%Z (streams s)) as Hsz. rewrite E in Hsz.
  split; simpl; rewrite ?length_alter.
  - done.
  - intros id l' [_ Hs]%lookup_delete_Some. by apply W2.
  - rewrite W3, Hsz. unfold u64_wrapping_sub. rewrite Z.mod_small; lia.
  - lia.
  - intros l' st Hst. destruct (decide (l' = l)) as [->|Hne'].
    + rewrite list_lookup_alter_eq in Hst. apply fmap_Some in Hst as (st0 & Hst0 & ->).
      destruct (W5 _ _ Hst0) as [Hok _]. rewrite lookup_delete_eq.
      split; [by apply end_stream_ok|done].
    + rewrite list_lookup_alter_ne in Hst by done. rewrite lookup_delete_ne by lia. by apply W5.
Qed.

Lemma wf_step s s' :
  session_step s s' → (Z.of_nat (length (stream_objs s')) < 2 ^ 64)%Z →
  session_wf s → session_wf s'.
Proof using Type.
  intros Hs Hl Hw. pose proof (step_objs _ _ Hs). destruct Hs as [Hq|[->|[id ->]]].
  - by eapply wf_quiet.
  - apply wf_register; [done|]. simpl in Hl. rewrite length_app in Hl. simpl in Hl. lia.
  - apply wf_close; [done|lia].
Qed.

Lemma wf_rtc s s' :
  rtc session_step s s' → (Z.of_nat (length (stream_objs s')) < 2 ^ 64)%Z →
  session_wf s → session_wf s'.
Proof using Type.
  induction 1 as [s|s s1 s2 Hs Hr IH]; intros Hl Hw; [done|]. apply IH; [done|].
  eapply wf_step; [done| |done].
  assert (length (stream_objs s1) ≤ length (stream_objs s2)); [|lia].
  clear -Hr. induction Hr as [|x y z Hs _ IH]; [lia|]. apply step_objs in Hs. lia.
Qed.

Lemma wf_new id node_id principal window : session_wf (session_new id node_id principal window).
Proof using Type. split; simpl; try done. Qed.

(** ** Every method takes such steps *)

Lemma step_quiet s s' : quiet s s' → session_step s s'.
Proof using Type. by left. Qed.
Lemma step_close id s : session_step s (close_stream id s).
Proof using Type. right. right. by exists id. Qed.
Lemma step_refl s : session_step s s.
Proof using Type. apply step_quiet, quiet_refl. Qed.

Lemma obeys_send frame : obeys session_step (send frame).
Proof using Type.
  apply obeys_await. intros s s' a. destruct (ch_send _ _) as [[o ok]|] eqn:E; [|done].
  intros [= <- <-]. by eapply step_quiet, quiet_send.
Qed.

Lemma quiet_try_send frame s : quiet s (try_send frame s).1.
Proof using Type.
  unfold try_send. pose proof (try_send_capacity (Ok frame) (outbound s)) as Hc.
  destruct (ch_try_send _ _). by apply quiet_outbound.
Qed.

Lemma obeys_close id : obeys session_step (modify (close_stream id)).
Proof using Type. apply obeys_modify. intros s. apply step_close. Qed.

Lemma obeys_get {A} (f : Session → A) : obeys session_step (query f).
Proof using Type. apply obeys_query, step_refl. Qed.

Lemma obeys_update l (f : Stream → Stream) :
  (∀ st, stream_evolves st (f st)) → obeys session_step (modify (update_stream l f)).
Proof using Type. intros Hf. apply obeys_modify. intros s. by apply step_quiet, quiet_update. Qed.

Lemma acquire_closed n c c' ok :
  sem_acquire_many n c = Some (c', ok) → sem_closed (sem_view c') = sem_closed (sem_view c).
Proof using Type.
  intros Ha. pose proof (sem_acquire_view n c) as Hv. rewrite Ha in Hv. simpl in Hv.
  unfold acquire_spec in Hv. destruct (sem_closed (sem_view c)) eqn:Hc.
  - injection Hv as -> _. done.
  - destruct (n <=? _)%Z; [|done]. by injection Hv as -> _.
Qed.

Lemma obeys_acquire l n : obeys session_step (acquire_credit l n).
Proof using Type.
  apply obeys_await. intros s s' a. destruct (stream_objs s !! l) as [st|] eqn:E; [|done].
  destruct (sem_acquire_many n (send_credit st)) as [[c ok]|] eqn:Ea; [|done].
  intros [= <- <-]. apply step_quiet, quiet_update. intros st' Hst'. rewrite E in Hst'.
  injection Hst' as <-. apply evolves_credit. by eapply acquire_closed.
Qed.

Lemma obeys_send_body l chunk : obeys session_step (send_body l chunk).
Proof using Type.
  apply obeys_await. intros s s' a. destruct (stream_objs s !! l) as [st|] eqn:E; [|done].
  destruct (ch_send _ _) as [[c ok]|] eqn:Es; [|done].
  intros [= <- <-]. apply step_quiet, quiet_update. intros st' [= <-]%(eq_trans (eq_sym E)).
  eauto using evolves_body, send_capacity.
Qed.

Lemma quiet_body_sender id s : quiet s (stream_body_sender id s).1.
Proof using Type.
  unfold stream_body_sender. destruct (streams s !! id); [|apply quiet_refl].
  destruct (stream_objs s !! _) as [st|] eqn:E; [|apply quiet_refl]. case_match; [|apply quiet_refl].
  apply quiet_update. intros st' [= <-]%(eq_trans (eq_sym E)). apply evolves_body, clone_capacity.
Qed.

Lemma obeys_body_sender id : obeys session_step (atomic (stream_body_sender id)).
Proof using Type. apply obeys_atomic. intros s. apply step_quiet, quiet_body_sender. Qed.

Lemma obeys_drop_body l : obeys session_step (modify (drop_body_sender l)).
Proof using Type.
  apply obeys_modify. intros s. apply step_quiet, quiet_update. intros st _. apply evolves_body, drop_tx_capacity.
Qed.

Lemma quiet_response_head head s : quiet s (on_response_head head s).
Proof using Type.
  unfold on_response_head. case_match; [|apply quiet_refl].
  apply quiet_update. intros st _. apply evolves_sent.
Qed.

Lemma quiet_window_update id inc s s' : on_window_update id inc s = Some s' → quiet s s'.
Proof using Type.
  unfold on_window_update. destruct (streams s !! id) as [l|]; [|intros [= <-]; apply quiet_refl].
  destruct (stream_objs s !! l) as [st|] eqn:E; [|intros [= <-]; apply quiet_refl].
  destruct (sem_add_permits inc (send_credit st)) as [c|] eqn:Ea; [|done]. intros [= <-].
  apply quiet_update. intros st' Hst'. rewrite E in Hst'. injection Hst' as <-.
  apply evolves_credit. pose proof (sem_add_view inc (send_credit st)) as Hv. rewrite Ea in Hv.
  simpl in Hv. unfold add_permits_spec in Hv. destruct (_ <=? _)%Z; [|done]. by injection Hv as ->.
Qed.

Lemma obeys_open tunnel_id head remote_addr :
  obeys session_step (open_http_stream tunnel_id head remote_addr).
Proof using Type.
  apply obeys_bind; [apply obeys_get|]. intros [limit count]. destruct (_ && _)%bool; [done|].
  apply obeys_bind; [apply obeys_atomic; intros s; right; by left|]. intros [id l].
  apply obeys_bind; [apply obeys_get|]. intros window.
  apply obeys_bind; [apply obeys_send|]. intros []; [done|].
  apply obeys_bind; [apply obeys_close|]. intros _.
  apply obeys_bind; [|done]. apply obeys_update, evolves_drop_receivers.
Qed.

Lemma obeys_send_chunks id l chunks : obeys session_step (send_chunks id l chunks).
Proof using Type.
  induction chunks as [|chunk rest IH]; [done|].
  apply obeys_bind; [apply obeys_acquire|]. intros []; [|done].
  apply obeys_bind; [apply obeys_send|]. by intros [].
Qed.

Lemma obeys_send_data id payload : obeys session_step (send_stream_data id payload).
Proof using Type.
  apply obeys_bind; [apply obeys_get|]. intros [l|]; [apply obeys_send_chunks|done].
Qed.

Lemma obeys_stream_data id payload : obeys session_step (on_stream_data id payload).
Proof using Type.
  apply obeys_bind; [apply obeys_body_sender|]. intros [l|]; [|done].
  apply obeys_bind; [apply obeys_send_body|]. intros [].
  - by apply obeys_bind; [apply obeys_drop_body|].
  - apply obeys_bind; [apply obeys_close|]. intros _. by apply obeys_bind; [apply obeys_drop_body|].
Qed.

Lemma obeys_finish id chunk : obeys session_step (finish_stream id chunk).
Proof using Type.
  apply obeys_bind; [apply obeys_body_sender|]. intros [l|];
    (apply obeys_bind; [|intros _; apply obeys_close]); [|done].
  apply obeys_bind; [apply obeys_send_body|]. intros _. apply obeys_drop_body.
Qed.

Lemma obeys_close_all : obeys session_step close_all_streams.
Proof using Type.
  apply obeys_bind; [apply obeys_get|]. intros ids. induction ids as [|id ids IH]; [done|].
  by apply obeys_bind; [apply obeys_close|].
Qed.

Definition discard {A} (t : task Session A) : task Session unit := let! _ := t in Ret tt.

(** What the agent's connection calls for a body: only the session's read loop does,
    and its task is never aborted. *)
Inductive inbound_api : task Session unit → Prop :=
| api_on_data id payload : inbound_api (discard (on_stream_data id payload))
| api_on_end id trailers : inbound_api (on_stream_end id trailers)
| api_on_reset id code message : inbound_api (on_stream_reset id code message).

(** A receiver's poll of the session's queue and of a body. *)
Definition recv_outbound : task Session (option (result ServerFrame Status)) :=
  await (λ s, '(o, f) ← ch_recv (outbound s); Some (with_outbound o s, f)).
Definition recv_body (l : nat) : task Session (option Chunk) :=
  await (λ s, st ← stream_objs s !! l; '(c, f) ← ch_recv (body_ch st);
              Some (update_stream l (with_body c) s, f)).

(** The other calls tasks make on a session; a panicking call changes nothing. *)
Inductive outer_api : task Session unit → Prop :=
| api_open tunnel_id head addr : outer_api (discard (open_http_stream tunnel_id head addr))
| api_send frame : outer_api (discard (send frame))
| api_try_send frame : outer_api (discard (atomic (try_send frame)))
| api_insert t : outer_api (modify (insert_tunnel t))
| api_remove id : outer_api (discard (atomic (remove_tunnel id)))
| api_data id payload : outer_api (discard (send_stream_data id payload))
| api_reset id code message : outer_api (reset_stream id code message)
| api_on_head head : outer_api (modify (on_response_head head))
| api_on_window id inc : outer_api (modify (λ s, default s (on_window_update id inc s)))
| api_close id : outer_api (modify (close_stream id))
| api_close_all : outer_api close_all_streams
| api_drop_receivers l : outer_api (modify (drop_receivers l))
| api_recv : outer_api (discard recv_outbound)
| api_read l : outer_api (discard (recv_body l)).

Definition session_api (t : task Session unit) : Prop := inbound_api t ∨ outer_api t.

Lemma obeys_discard {A} (t : task Session A) :
  obeys session_step t → obeys session_step (discard t).
Proof using Type. intros Ht. by apply obeys_bind. Qed.

Lemma obeys_inbound t : inbound_api t → obeys session_step t.
Proof using Type. intros []; [apply obeys_discard, obeys_stream_data|apply obeys_finish..]. Qed.

Lemma obeys_outer t : outer_api t → obeys session_step t.
Proof using Type.
  intros Ht. destruct Ht; try (apply obeys_discard).
  - apply obeys_open.
  - apply obeys_send.
  - apply obeys_atomic. intros s. apply step_quiet, quiet_try_send.
  - apply obeys_modify. intros s. apply step_quiet, quiet_tunnels.
  - apply obeys_atomic. intros s. unfold remove_tunnel.
    case_match; [apply step_quiet, quiet_tunnels|apply step_refl].
  - apply obeys_send_data.
  - apply obeys_bind; [apply obeys_close|]. intros _. by apply obeys_bind; [apply obeys_send|].
  - apply obeys_modify. intros s. apply step_quiet, quiet_response_head.
  - apply obeys_modify. intros s. destruct (on_window_update id inc s) eqn:E; [|apply step_refl].
    by eapply step_quiet, quiet_window_update.
  - apply obeys_close.
  - apply obeys_close_all.
  - apply obeys_update, evolves_drop_receivers.
  - apply obeys_await. intros s s' a. destruct (ch_recv (outbound s)) as [[o f]|] eqn:E; [|done].
    intros [= <- <-]. by eapply step_quiet, quiet_recv.
  - apply obeys_await. intros s s' a. destruct (stream_objs s !! l) as [st|] eqn:El; [|done]. simpl.
    destruct (ch_recv (body_ch st)) as [[c f]|] eqn:E; [|done]. intros [= <- <-].
    apply step_quiet, quiet_update. intros st' [= <-]%(eq_trans (eq_sym El)).
    by eapply evolves_body, recv_capacity.
Qed.

Lemma obeys_api t : session_api t → obeys session_step t.
Proof using Type. intros [?|?]; [by apply obeys_inbound|by apply obeys_outer]. Qed.

Lemma reachable_wf id node_id principal window s ts :
  rtc (pool_step session_api) (session_new id node_id principal window, []) (s, ts) →
  (Z.of_nat (length (stream_objs s)) < 2 ^ 64)%Z → session_wf s.
Proof using Type.
  intros Hr Hl. destruct (pool_obeys session_api session_step _ _ obeys_api Hr) as [_ Hs]; [constructor|].
  eapply wf_rtc; [exact Hs|done|apply wf_new].
Qed.

(** ** Who holds the sender of a body

    Besides the stream's own, the senders of a body are the clones that handlers of
    inbound frames hold while they run. *)
Definition senders (st : Stream) : nat := ch_senders (ch_view (body_ch st)).
Definition own_sender (st : Stream) : nat := if stream_closed st then 0 else 1.

Definition same_senders (s s' : Session) : Prop :=
  Forall2 (λ st st', senders st' = senders st) (stream_objs s) (stream_objs s').

(** A step of a call, with the object whose sender the call holds before and after. *)
Inductive hands : option nat → Session → option nat → Session → Prop :=
| hands_keep h s s' : quiet s s' → same_senders s s' → hands h s h s'
| hands_register h s : hands h s h (register_stream s).1
| hands_close h id s : hands h s h (close_stream id s)
| hands_clone id l s : (stream_body_sender id s).2 = Some l →
    hands None s (Some l) (stream_body_sender id s).1
| hands_drop l s : hands (Some l) s None (drop_body_sender l s).

(** A handler that holds [h]: it ends holding nothing, and waits only with a clone
    and for room in the body it belongs to. *)
Fixpoint handler (h : option nat) (t : task Session unit) : Prop :=
  match t with
  | Ret _ => h = None
  | Step f => ∀ s, match f s with
      | Some (s', t') => ∃ h', hands h s h' s' ∧ handler h' t'
      | None => ∃ l, h = Some l ∧ ∀ st, stream_objs s !! l = Some st →
          capacity (body_ch st) ≤ length (ch_queue (ch_view (body_ch st)))
      end
  end.

Definition outer_step (s s' : Session) : Prop := hands None s None s'.

Lemma hands_step h s h' s' : hands h s h' s' → session_step s s'.
Proof using Type.
  intros [? x y Hq _|? x|? id x|id l x _|l x].
  - by apply step_quiet.
  - right. by left.
  - apply step_close.
  - apply step_quiet, quiet_body_sender.
  - apply step_quiet, quiet_update. intros st _. apply evolves_body, drop_tx_capacity.
Qed.

Lemma same_senders_refl s : same_senders s s.
Proof using Type. by apply Forall_Forall2_diag, Forall_true. Qed.

Lemma same_senders_update l f s :
  (∀ st, stream_objs s !! l = Some st → senders (f st) = senders st) → same_senders s (update_stream l f s).
Proof using Type.
  intros Hf. apply Forall2_same_length_lookup. simpl.
  split; [by rewrite length_alter|]. intros k x y Hx. destruct (decide (k = l)) as [->|Hk].
  - rewrite list_lookup_alter_eq, Hx. intros [= <-]. by apply Hf.
  - rewrite list_lookup_alter_ne by done. intros Hy. rewrite Hx in Hy. by injection Hy as <-.
Qed.

Lemma outer_objs s s' : quiet s s' → stream_objs s' = stream_objs s → outer_step s s'.
Proof using Type.
  intros Hq Ho. apply hands_keep; [done|]. unfold same_senders. rewrite Ho. apply same_senders_refl.
Qed.

Lemma outer_refl s : outer_step s s.
Proof using Type. by apply outer_objs; [apply quiet_refl|]. Qed.

Lemma outer_update l f s :
  (∀ st, stream_objs s !! l = Some st → stream_evolves st (f st) ∧ senders (f st) = senders st) →
  outer_step s (update_stream l f s).
Proof using Type.
  intros Hf. apply hands_keep; [apply quiet_update|apply same_senders_update]; intros st Hst; by apply Hf.
Qed.

Lemma outer_send frame : obeys outer_step (send frame).
Proof using Type.
  apply obeys_await. intros s s' a. destruct (ch_send _ _) as [[o ok]|] eqn:E; [|done].
  intros [= <- <-]. apply outer_objs; [by eapply quiet_send|done].
Qed.

Lemma outer_close id : obeys outer_step (modify (close_stream id)).
Proof using Type. apply obeys_modify. intros s. apply hands_close. Qed.

Lemma outer_chunks id l chunks : obeys outer_step (send_chunks id l chunks).
Proof using Type.
  induction chunks as [|chunk rest IH]; [done|].
  apply obeys_bind; [|intros []; [|done]; apply obeys_bind; [apply outer_send|by intros []]].
  apply obeys_await. intros s s' a. destruct (stream_objs s !! l) as [st|] eqn:E; [|done].
  destruct (sem_acquire_many _ _) as [[c ok]|] eqn:Ea; [|done]. intros [= <- <-]. apply outer_update.
  intros st' [= <-]%(eq_trans (eq_sym E)). split; [|done]. eapply evolves_credit, acquire_closed, Ea.
Qed.

Lemma outer_drop_receivers l : obeys outer_step (modify (drop_receivers l)).
Proof using Type.
  apply obeys_modify. intros s. apply outer_update. intros st _. split; [apply evolves_drop_receivers|].
  unfold senders. simpl. by rewrite ch_drop_rx_view.
Qed.

Lemma recv_senders c c' (x : option Chunk) :
  ch_recv c = Some (c', x) → ch_senders (ch_view c') = ch_senders (ch_view c).
Proof using Type.
  intros Hr. pose proof (ch_recv_view c) as Hv. rewrite Hr in Hv. simpl in Hv. unfold recv_spec in Hv.
  destruct (ch_queue _); [|by injection Hv as ->]. destruct (decide _); [|done]. by injection Hv as ->.
Qed.

Lemma outer_window id inc s : outer_step s (default s (on_window_update id inc s)).
Proof using Type.
  destruct (on_window_update id inc s) as [s'|] eqn:E; [|apply outer_refl]. simpl.
  pose proof (quiet_window_update _ _ _ _ E) as Hq. apply hands_keep; [done|]. revert E.
  unfold on_window_update. destruct (streams s !! id) as [l|]; [|by intros [= <-]; apply same_senders_refl].
  destruct (stream_objs s !! l) as [st|] eqn:El; [|by intros [= <-]; apply same_senders_refl].
  destruct (sem_add_permits _ _) as [c|]; [|done]. intros [= <-]. by apply same_senders_update.
Qed.

(** No call but a handler of inbound frames touches the senders of a body. *)
Lemma obeys_outer_step t : outer_api t → obeys outer_step t.
Proof using Type.
  intros Ht. destruct Ht; try (apply obeys_bind; [|done]).
  - apply obeys_bind; [apply obeys_query, outer_refl|]. intros [limit count]. destruct (_ && _)%bool; [done|].
    apply obeys_bind; [apply obeys_atomic; intros s; apply hands_register|]. intros [id l].
    apply obeys_bind; [apply obeys_query, outer_refl|]. intros window.
    apply obeys_bind; [apply outer_send|]. intros []; [done|].
    apply obeys_bind; [apply outer_close|]. intros _. by apply obeys_bind; [apply outer_drop_receivers|].
  - apply outer_send.
  - apply obeys_atomic. intros s. apply outer_objs; [apply quiet_try_send|].
    unfold try_send. by destruct (ch_try_send _ _).
  - apply obeys_modify. intros s. by apply outer_objs; [apply quiet_tunnels|].
  - apply obeys_atomic. intros s. unfold remove_tunnel.
    case_match; [by apply outer_objs; [apply quiet_tunnels|]|apply outer_refl].
  - apply obeys_bind; [apply obeys_query, outer_refl|]. intros [l|]; [apply outer_chunks|done].
  - apply obeys_bind; [apply outer_close|]. intros _. by apply obeys_bind; [apply outer_send|].
  - apply obeys_modify. intros s. unfold on_response_head. case_match; [|apply outer_refl].
    apply outer_update. intros st _. split; [apply evolves_sent|by destruct (head_tx st)].
  - apply obeys_modify. intros s. apply outer_window.
  - apply outer_close.
  - apply obeys_bind; [apply obeys_query, outer_refl|]. intros ids. induction ids as [|id ids IH]; [done|].
    by apply obeys_bind; [apply outer_close|].
  - apply outer_drop_receivers.
  - apply obeys_await. intros s s' a. destruct (ch_recv (outbound s)) as [[o f]|] eqn:E; [|done].
    intros [= <- <-]. apply outer_objs; [by eapply quiet_recv|done].
  - apply obeys_await. intros s s' a. destruct (stream_objs s !! l) as [st|] eqn:El; [|done]. simpl.
    destruct (ch_recv (body_ch st)) as [[c f]|] eqn:E; [|done]. intros [= <- <-]. apply outer_update.
    intros st' [= <-]%(eq_trans (eq_sym El)). split; [by eapply evolves_body, recv_capacity|].
    by eapply recv_senders.
Qed.

Lemma handler_atomic {A} h (f : Session → Session * A) (k : A → task Session unit) :
  (∀ s, ∃ h', hands h s h' (f s).1 ∧ handler h' (k (f s).2)) → handler h (task_bind (atomic f) k).
Proof using Type. intros Hf s. simpl. specialize (Hf s). by destruct (f s). Qed.

Lemma handler_modify h h' (f : Session → Session) (k : unit → task Session unit) :
  (∀ s, hands h s h' (f s)) → handler h' (k tt) → handler h (task_bind (modify f) k).
Proof using Type. intros Hf Hk. apply handler_atomic. intros s. by exists h'. Qed.

Lemma handler_assoc {A B} h (t : task Session A) (k : A → task Session B) (g : B → task Session unit) :
  handler h (task_bind t (λ a, task_bind (k a) g)) → handler h (task_bind (task_bind t k) g).
Proof using Type.
  revert h. induction t as [a|f IH] using task_induction; [done|]. intros h Ht s. specialize (Ht s).
  simpl in *. destruct (f s) as [[s' t']|] eqn:E; [|done]. destruct Ht as (h' & Hh & Ht).
  exists h'. split; [done|]. by eapply IH.
Qed.

Lemma send_senders x (c c' : mpsc Chunk) ok :
  ch_send x c = Some (c', ok) → ch_senders (ch_view c') = ch_senders (ch_view c).
Proof using Type.
  intros Hs. pose proof (ch_send_view x c) as Hv. rewrite Hs in Hv. simpl in Hv. unfold send_spec in Hv.
  destruct (negb _); [by injection Hv as ->|]. destruct (decide _); [|done]. by injection Hv as ->.
Qed.

Lemma handler_send l chunk (k : bool → task Session unit) :
  (∀ ok, handler (Some l) (k ok)) → handler (Some l) (task_bind (send_body l chunk) k).
Proof using Type.
  intros Hk s. simpl. destruct (stream_objs s !! l) as [st|] eqn:El;
    [|exists l; split; [done|]; intros st; by rewrite El].
  destruct (ch_send chunk (body_ch st)) as [[c ok]|] eqn:Es.
  - exists (Some l). split; [|apply Hk]. apply hands_keep; [apply quiet_update|apply same_senders_update];
      intros st' [= <-]%(eq_trans (eq_sym El)); [by eapply evolves_body, send_capacity|by eapply send_senders].
  - exists l. split; [done|]. intros st' [= <-]%(eq_trans (eq_sym El)).
    pose proof (ch_send_view chunk (body_ch st)) as Hv. rewrite Es in Hv. simpl in Hv.
    unfold send_spec in Hv. destruct (negb _); [done|]. destruct (decide _); [done|]. unfold capacity. lia.
Qed.

Lemma handler_close h id (k : unit → task Session unit) :
  handler h (k tt) → handler h (task_bind (modify (close_stream id)) k).
Proof using Type. apply handler_modify. intros s. apply hands_close. Qed.

Lemma handler_drop l (k : unit → task Session unit) :
  handler None (k tt) → handler (Some l) (task_bind (modify (drop_body_sender l)) k).
Proof using Type. apply handler_modify. intros s. apply hands_drop. Qed.

Lemma handler_sender id (k : option nat → task Session unit) :
  handler None (k None) → (∀ l, handler (Some l) (k (Some l))) →
  handler None (task_bind (atomic (stream_body_sender id)) k).
Proof using Type.
  intros Hn Hs. apply handler_atomic. intros s. destruct (stream_body_sender id s).2 as [l|] eqn:E.
  - exists (Some l). split; [by apply hands_clone|done].
  - exists None. split; [|done]. unfold stream_body_sender in *.
    repeat case_match; simpl in *; try discriminate; apply outer_refl.
Qed.

Lemma handler_finish id chunk : handler None (finish_stream id chunk).
Proof using Type.
  apply handler_sender.
  - simpl. apply (handler_close None id Ret). done.
  - intros l. apply handler_assoc, handler_send. intros _. apply handler_drop.
    apply (handler_close None id Ret). done.
Qed.

Lemma handler_inbound t : inbound_api t → handler None t.
Proof using Type.
  intros []; [|apply handler_finish..]. apply handler_assoc, handler_sender; [done|]. intros l.
  apply handler_assoc, handler_send. intros []; cbn [negb].
  - apply handler_assoc. by apply handler_drop.
  - apply handler_assoc, handler_close, handler_assoc. by apply handler_drop.
Qed.

(** *** The tally of senders *)
Definition held (h : option nat) (l : nat) : nat := if decide (h = Some l) then 1 else 0.
Definition all_held (hs : list (option nat)) (l : nat) : nat := sum_list_with (λ h, held h l) hs.

(** Every body has its stream's own sender, while that is open, and [n] clones. *)
Definition tallied (n : nat → nat) (s : Session) : Prop :=
  (∀ l st, stream_objs s !! l = Some st → senders st = own_sender st + n l) ∧
  (∀ l, length (stream_objs s) ≤ l → n l = 0).

Lemma tallied_ext n n' s : (∀ l, n l = n' l) → tallied n s → tallied n' s.
Proof using Type. intros Hn [T1 T2]. split; intros l *; rewrite <- Hn; auto. Qed.

Lemma tallied_update n d l f s :
  tallied n s →
  (∀ st, stream_objs s !! l = Some st → stream_closed (f st) = stream_closed st ∧
     senders (f st) = own_sender st + d) →
  tallied (λ k, if decide (k = l) then (if decide (l < length (stream_objs s)) then d else 0) else n k)
    (update_stream l f s).
Proof using Type.
  intros [T1 T2] Hf. split; intros k.
  - intros st. simpl. destruct (decide (k = l)) as [->|Hk].
    + rewrite list_lookup_alter_eq. intros (st0 & Hst0 & ->)%fmap_Some. destruct (Hf _ Hst0) as [Hc ->].
      rewrite decide_True by (eapply lookup_lt_Some, Hst0). unfold own_sender. by rewrite Hc.
    + rewrite list_lookup_alter_ne by done. apply T1.
  - simpl. rewrite length_alter. intros Hk. case_decide; [|by apply T2]. subst. by rewrite decide_False by lia.
Qed.

Lemma hands_tallied c h s h' s' :
  hands h s h' s' → session_wf s →
  tallied (λ l, held h l + c l) s → tallied (λ l, held h' l + c l) s'.
Proof using Type.
  intros Hh Hwf Ht. destruct Hh as [h x y Hq Hs|h x|h id x|id l x Hid|l x].
  - destruct Ht as [T1 T2]. destruct Hq as (_ & _ & _ & _ & _ & _ & _ & _ & Ho).
    split; intros l; [|rewrite <- (Forall2_length _ _ _ Ho); apply T2].
    intros st' Hst'. destruct (Forall2_lookup_r _ _ _ _ _ Ho Hst') as (st & Hst & Hc & _).
    destruct (Forall2_lookup_r _ _ _ _ _ Hs Hst') as (st0 & Hst0 & Hse). rewrite Hst in Hst0.
    injection Hst0 as <-. rewrite Hse, (T1 _ _ Hst). unfold own_sender. by rewrite Hc.
  - destruct Ht as [T1 T2]. split; intros l; simpl.
    + intros st [Hst|[Hge Hst]]%lookup_app_Some; [by apply T1|].
      apply list_lookup_singleton_Some in Hst as [_ <-]. rewrite T2 by done. unfold senders. simpl.
      by rewrite ch_channel_view.
    + rewrite length_app. intros Hl. apply T2. lia.
  - unfold close_stream. destruct (streams x !! id) as [l|] eqn:E; [|done]. destruct Ht as [T1 T2].
    split; intros k; simpl; [|by rewrite length_alter; apply T2].
    intros st. destruct (decide (k = l)) as [->|Hk]; [|rewrite list_lookup_alter_ne by done; apply T1].
    rewrite list_lookup_alter_eq. intros (st0 & Hst0 & ->)%fmap_Some.
    destruct (wf_ids _ Hwf _ _ E) as [_ ->]. destruct (wf_objs _ Hwf _ _ Hst0) as [_ Hiff].
    apply Hiff in E. specialize (T1 _ _ Hst0). unfold senders, own_sender in *. simpl.
    rewrite ch_drop_tx_view. unfold drop_tx_spec. rewrite E in T1. simpl. lia.
  - unfold stream_body_sender in *. destruct (streams x !! id) as [l0|]; [|done].
    destruct (stream_objs x !! l0) as [st|] eqn:El; [|done]. destruct (negb _); [|done].
    simpl in Hid |- *. injection Hid as ->. pose proof (lookup_lt_Some _ _ _ El) as Hlt.
    eapply tallied_ext; [|apply (tallied_update _ (S (c l)) _ _ _ Ht)].
    + intros k. simpl. unfold held. destruct (decide (k = l)) as [->|].
      * by rewrite !decide_True.
      * rewrite !decide_False by congruence. done.
    + intros st' [= <-]%(eq_trans (eq_sym El)). split; [done|]. unfold senders. simpl.
      rewrite ch_clone_view. simpl. fold (senders st). rewrite (proj1 Ht _ _ El). simpl. lia.
  - pose proof (proj2 Ht l) as Hlen. unfold held in Hlen at 1. rewrite decide_True in Hlen by done.
    assert (l < length (stream_objs x)) as Hlt by (destruct (decide (l < length (stream_objs x))); [done|lia]).
    eapply tallied_ext; [|apply (tallied_update _ (c l) _ _ _ Ht)].
    + intros k. simpl. unfold held. destruct (decide (k = l)) as [->|].
      * by rewrite decide_True.
      * rewrite decide_False by congruence. done.
    + intros st Hst. split; [done|]. unfold senders. simpl. rewrite ch_drop_tx_view.
      unfold drop_tx_spec. simpl. fold (senders st). rewrite (proj1 Ht _ _ Hst).
      unfold held. rewrite decide_True by done. lia.
Qed.

Lemma all_held_delete hs k h l :
  hs !! k = Some h → all_held hs l = held h l + all_held (delete k hs) l.
Proof using Type.
  intros Hk. rewrite delete_take_drop. rewrite <- (take_drop_middle _ _ _ Hk) at 1.
  unfold all_held. rewrite !sum_list_with_app. simpl. lia.
Qed.

Lemma all_held_insert hs k h h' l :
  hs !! k = Some h → all_held (<[k:=h']> hs) l = held h' l + all_held (delete k hs) l.
Proof using Type.
  intros Hk. pose proof (lookup_lt_Some _ _ _ Hk) as Hlt.
  rewrite (all_held_delete (<[k:=h']> hs) k h') by (by apply list_lookup_insert_eq).
  f_equal. by rewrite !delete_take_drop, take_insert_ge, drop_insert_lt by lia.
Qed.

Lemma rtc_preserves {A} (E : A → A → Prop) (P : A → Prop) x y :
  (∀ x y, E x y → P x → P y) → rtc E x y → P x → P y.
Proof using Type. intros HE. induction 1; eauto. Qed.

(** ** A session at work

    Handlers of inbound frames, which always run to their end, beside a pool of
    other calls, each of which may be abandoned. *)
Inductive served_step : Session * list (task Session unit) * list (task Session unit) →
    Session * list (task Session unit) * list (task Session unit) → Prop :=
| served_inbound s hs ts t : inbound_api t → served_step (s, hs, ts) (s, hs ++ [t], ts)
| served_handle s hs ts k t s' t' :
    hs !! k = Some t → poll t s = Some (s', t') → served_step (s, hs, ts) (s', <[k := t']> hs, ts)
| served_other s hs ts s' ts' :
    pool_step outer_api (s, ts) (s', ts') → served_step (s, hs, ts) (s', hs, ts').

(** The handlers hold [accs], and those are the clones there are. *)
Definition served_inv (c : Session * list (task Session unit) * list (task Session unit)) : Prop :=
  let '(s, hs, ts) := c in
  Forall (obeys outer_step) ts ∧ ∃ accs, Forall2 handler accs hs ∧
    ((Z.of_nat (length (stream_objs s)) < 2 ^ 64)%Z → session_wf s ∧ roomy s ∧ tallied (all_held accs) s).

Lemma hands_served h s h' s' c :
  hands h s h' s' →
  ((Z.of_nat (length (stream_objs s)) < 2 ^ 64)%Z → session_wf s ∧ roomy s ∧ tallied (λ l, held h l + c l) s) →
  (Z.of_nat (length (stream_objs s')) < 2 ^ 64)%Z →
  session_wf s' ∧ roomy s' ∧ tallied (λ l, held h' l + c l) s'.
Proof using Type.
  intros Hh Hi Hl. pose proof (hands_step _ _ _ _ Hh) as Hs. pose proof (step_objs _ _ Hs).
  destruct Hi as (Hw & Hr & Ht); [lia|].
  split_and!; [by eapply wf_step|by eapply roomy_step|by eapply hands_tallied].
Qed.

Lemma served_inv_step c c' : served_step c c' → served_inv c → served_inv c'.
Proof using Type.
  intros Hs. destruct Hs as [s hs ts t Hin|s hs ts k t s' t' Hk Hp|s hs ts s' ts' Ho];
    intros (Ht & accs & Hh & Hn).
  - split; [done|]. exists (accs ++ [None]). split.
    + apply Forall2_app; [done|]. constructor; [by apply handler_inbound|done].
    + intros (Hw & Hr & Hn')%Hn. split_and!; [done..|].
      eapply tallied_ext; [|exact Hn']. intros l. unfold all_held. rewrite sum_list_with_app. simpl. lia.
  - destruct (Forall2_lookup_r _ _ _ _ _ Hh Hk) as (h & Ha & Hh'). destruct t as [r|f]; [done|].
    specialize (Hh' s). simpl in Hp. rewrite Hp in Hh'. destruct Hh' as (h' & Hh' & Ht').
    split; [done|]. exists (<[k:=h']> accs). split; [by apply Forall2_insert|]. intros Hl.
    destruct (hands_served h s h' s' (all_held (delete k accs)) Hh') as (Hw' & Hr' & Hn'); [|done|].
    { intros (Hw & Hr & Hn')%Hn. split_and!; [done..|]. eapply tallied_ext; [|exact Hn'].
      intros l. by apply all_held_delete. }
    split_and!; [done..|]. eapply tallied_ext; [|exact Hn']. intros l.
    by rewrite (all_held_insert _ _ _ _ _ Ha).
  - inversion Ho as [? ? t Ho'|? ? i t ? t' Hi Hp|]; subst.
    + split; [|by exists accs]. apply Forall_app. split; [done|].
      constructor; [by apply obeys_outer_step|done].
    + destruct (obeys_poll _ _ _ _ _ (proj1 (Forall_lookup _ _) Ht _ _ Hi) Hp) as [Hg Ht'].
      split; [by apply Forall_insert|]. exists accs. split; [done|].
      by apply (hands_served None s None s' (all_held accs)).
    + split; [by apply Forall_delete|by exists accs].
Qed.

Lemma served_reachable id node_id principal window c :
  rtc served_step (session_new id node_id principal window, [], []) c → served_inv c.
Proof using Type.
  intros Hr. eapply rtc_preserves; [apply served_inv_step|exact Hr|].
  split; [done|]. exists []. split; [done|]. intros _. split_and!; [apply wf_new| |].
  - split; [|done]. unfold capacity. simpl. rewrite ch_channel_view. apply Nat.lt_0_succ.
  - split; [|done]. intros l st Hst. by destruct l.
Qed.

(** A handler that holds the sender of a body can go on, or the body has something to read. *)
Lemma handler_goes_on l s st t :
  handler (Some l) t → stream_objs s !! l = Some st → 0 < capacity (body_ch st) →
  is_Some (poll t s) ∨ ch_queue (ch_view (body_ch st)) ≠ [].
Proof using Type.
  intros Hh Hst Hc. destruct t as [r|f]; [done|]. specialize (Hh s). simpl in *.
  destruct (f s) as [p|]; [by left; eexists|right]. destruct Hh as (k & [= <-] & Hfull).
  specialize (Hfull _ Hst). intros Hq. rewrite Hq in Hfull. simpl in Hfull. lia.
Qed.

Lemma all_held_zero accs l : all_held accs l ≠ 0 → Some l ∈ accs.
Proof using Type.
  induction accs as [|h accs IH]; [done|]. unfold all_held, held at 1. simpl. fold (all_held accs l).
  destruct (decide (h = Some l)) as [->|]; [by left|]. intros Hn. right. apply IH. exact Hn.
Qed.

(** ** The counter between the steps of other threads

    A stream is inserted and then counted, removed and then discounted; other
    threads run in between. With the session go the numbers of streams that are
    inserted and not yet counted, and removed and still counted. *)
Inductive counted_step : Session * nat * nat → Session * nat * nat → Prop :=
| counted_quiet s s' n m : quiet s s' → counted_step (s, n, m) (s', n, m)
| counted_insert s n m : counted_step (s, n, m) ((insert_entry s).1, S n, m)
| counted_opened s n m : counted_step (s, S n, m) (count_opened s, n, m)
| counted_remove s id l n m : streams s !! id = Some l →
    counted_step (s, n, m) (remove_entry id l s, n, S m)
| counted_closed s n m : counted_step (s, n, S m) (count_closed s, n, m).

Definition counted_inv (c : Session * nat * nat) : Prop :=
  let '(s, n, m) := c in
  (Z.of_nat (length (stream_objs s)) < 2 ^ 64)%Z →
  next_stream_id s = ((1 + Z.of_nat (length (stream_objs s))) `mod` 2 ^ 64)%Z ∧
  (∀ id l, streams s !! id = Some l → l < length (stream_objs s) ∧ id = (1 + Z.of_nat l)%Z) ∧
  open_streams s = ((Z.of_nat (size (streams s)) + Z.of_nat m - Z.of_nat n) `mod` 2 ^ 64)%Z.

Lemma counted_inv_step c c' : counted_step c c' → counted_inv c → counted_inv c'.
Proof using Type.
  intros Hs. destruct Hs as [s s' n m Hq|s n m|s n m|s id l n m Hid|s n m]; intros Hi Hl.
  - destruct Hq as (_ & _ & _ & Hst & Hn & _ & Hc & _ & Ho). apply Forall2_length in Ho.
    rewrite Hst, Hn, Hc, <- Ho. apply Hi. by rewrite Ho.
  - simpl in Hl |- *. rewrite length_app in Hl |- *. simpl in Hl |- *.
    destruct Hi as (Hn & Hid & Hc); [lia|]. rewrite Z.mod_small in Hn by lia.
    assert (streams s !! next_stream_id s = None) as Hfresh.
    { destruct (streams s !! next_stream_id s) as [l|] eqn:E; [|done]. destruct (Hid _ _ E). lia. }
    split_and!.
    + unfold u64_wrapping_add. f_equal. lia.
    + intros id l [[<- <-]|[_ Hs]]%lookup_insert_Some; [lia|]. destruct (Hid _ _ Hs). lia.
    + rewrite map_size_insert_None, Hc by done. f_equal. lia.
  - destruct (Hi Hl) as (Hn & Hid & Hc). split_and!; [done..|]. simpl. rewrite Hc.
    unfold u64_wrapping_add. rewrite Zplus_mod_idemp_l. f_equal. lia.
  - simpl in Hl |- *. rewrite length_alter in Hl |- *. destruct (Hi Hl) as (Hn & Hids & Hc).
    split_and!; [done| |].
    + intros k l' [_ Hs]%lookup_delete_Some. by apply Hids.
    + pose proof (map_size_ne_0_lookup_2 (streams s) id ltac:(by rewrite Hid)).
      rewrite map_size_delete, Hid, Hc. f_equal. lia.
  - destruct (Hi Hl) as (Hn & Hid & Hc). split_and!; [done..|]. simpl. rewrite Hc.
    unfold u64_wrapping_sub. rewrite Zminus_mod_idemp_l. f_equal. lia.
Qed.

(** A call's steps are such steps, with nothing left to count. *)
Lemma session_step_counted s s' n m :
  session_step s s' → rtc counted_step (s, n, m) (s', n, m).
Proof using Type.
  intros [Hq|[->|[id ->]]].
  - by apply rtc_once, counted_quiet.
  - eapply rtc_l; [apply counted_insert|]. apply rtc_once, counted_opened.
  - unfold close_stream. destruct (streams s !! id) as [l|] eqn:E; [|done].
    eapply rtc_l; [by apply (counted_remove s id l)|]. apply rtc_once, counted_closed.
Qed.

(** ** Histories of the writer of a request body *)

(** The step took [n] bytes of credit of object [l]; or it queued a frame; or it
    found the semaphore or the queue closed. *)
Definition acquired (l : nat) (n : Z) (p : Session * Session) : Prop :=
  ∃ st c, stream_objs p.1 !! l = Some st ∧ p.2 = update_stream l (with_credit c) p.1 ∧
    sem_closed (sem_view (send_credit st)) = false ∧
    (n ≤ sem_permits (sem_view (send_credit st)))%Z ∧
    sem_view c = mkSem (sem_permits (sem_view (send_credit st)) - n) false.

Definition queued (frame : ServerFrame) (p : Session * Session) : Prop :=
  ∃ o, p.2 = with_outbound o p.1 ∧
    ch_queue (ch_view o) = ch_queue (ch_view (outbound p.1)) ++ [Ok frame].

Definition refused (p : Session * Session) : Prop :=
  ch_queue (ch_view (outbound p.2)) = ch_queue (ch_view (outbound p.1)).

(** What [send_chunks] may have done so far: for every chunk in turn, first the
    whole credit, then the frame. *)
Fixpoint writer_history (id : Z) (l : nat) (chunks : list str) (tr : list (Session * Session))
  : Prop :=
  match chunks, tr with
  | _, [] => True
  | [], _ => False
  | c :: _, [p] => acquired l (byte_len c) p ∨ refused p
  | c :: rest, p :: q :: tr' =>
      acquired l (byte_len c) p ∧
      (queued (Some (SData id c)) q ∧ writer_history id l rest tr' ∨ refused q ∧ tr' = [])
  end.

(** A finished writer's history: exactly one acquisition and one frame per chunk. *)
Definition writer_trace (id : Z) (l : nat) (chunks : list str) : list (Session * Session → Prop) :=
  chunks ≫= λ c, [acquired l (byte_len c); queued (Some (SData id c))].

Lemma send_inv frame s s' ok :
  (match ch_send (Ok frame) (outbound s) with
   | Some (o, ok) => Some (with_outbound o s, ok)
   | None => None
   end) = Some (s', ok) →
  if ok then queued frame (s, s') else refused (s, s').
Proof using Type.
  pose proof (ch_send_view (Ok frame : result ServerFrame Status) (outbound s)) as Hv.
  destruct (ch_send (Ok frame) (outbound s)) as [[o b]|]; [|done]. intros [= <- <-].
  simpl in Hv. unfold send_spec in Hv. destruct (ch_receiver (ch_view (outbound s))); simpl in Hv.
  - destruct (decide _); [|done]. injection Hv as Ho ->. exists o. by rewrite Ho.
  - injection Hv as Ho ->. unfold refused. simpl. by rewrite Ho.
Qed.

Lemma acquire_inv l n s s' ok :
  (match stream_objs s !! l with
   | Some st => match sem_acquire_many n (send_credit st) with
                | Some (c, ok) => Some (update_stream l (with_credit c) s, ok)
                | None => None
                end
   | None => None
   end) = Some (s', ok) →
  if ok then acquired l n (s, s') else refused (s, s').
Proof using Type.
  destruct (stream_objs s !! l) as [st|] eqn:El; [|done].
  pose proof (sem_acquire_view n (send_credit st)) as Hv.
  destruct (sem_acquire_many n (send_credit st)) as [[c b]|]; [|done]. intros [= <- <-].
  simpl in Hv. unfold acquire_spec in Hv.
  destruct (sem_closed (sem_view (send_credit st))) eqn:Ec; [by injection Hv as _ ->|].
  destruct (Z.leb_spec n (sem_permits (sem_view (send_credit st)))); [|done].
  injection Hv as Hc ->. exists st, c. by split_and!.
Qed.

Lemma send_chunks_history E id l chunks s tr t' s' :
  Forall (λ c, (byte_len c ≤ u32_max)%Z) chunks →
  exec E (send_chunks id l chunks) s tr t' s' →
  writer_history id l chunks tr ∧
  (t' = Ret true → Forall2 (λ (P : Session * Session → Prop) p, P p) (writer_trace id l chunks) tr).
Proof using Type.
  intros Hc. revert s tr. induction Hc as [|c rest Hc _ IH]; intros s tr Hx.
  { apply exec_Ret in Hx as (-> & -> & _). split; [done|constructor]. }
  cbn [send_chunks] in Hx. rewrite u32_saturate_small in Hx by done.
  apply exec_await in Hx as [(-> & -> & _)|(s1 & s2 & ok & tr1 & _ & Ha & -> & Hx)]; [done|].
  apply acquire_inv in Ha. destruct ok; simpl in Hx; cycle 1.
  { apply exec_Ret in Hx as (-> & -> & _). split; [by right|done]. }
  apply exec_await in Hx as [(-> & -> & _)|(s3 & s4 & ok & tr2 & _ & Hs & -> & Hx)].
  { split; [by left|done]. }
  apply send_inv in Hs. destruct ok; simpl in Hx; cycle 1.
  { apply exec_Ret in Hx as (-> & -> & _). split; [|done]. split; [done|by right]. }
  destruct (IH _ _ Hx) as [Hh Ht]. split; [split; [done|by left]|].
  intros ->. unfold writer_trace. rewrite bind_cons. constructor; [done|].
  constructor; [done|]. by apply Ht.
Qed.

(** A writer short of credit, and why it stays so. *)
Definition starved (l : nat) (n : Z) (s : Session) : Prop :=
  ∃ st, stream_objs s !! l = Some st ∧ sem_closed (sem_view (send_credit st)) = false ∧
    (sem_permits (sem_view (send_credit st)) < n)%Z.

Lemma starved_waits l n s :
  starved l n s →
  (match stream_objs s !! l with
   | Some st => match sem_acquire_many n (send_credit st) with
                | Some (c, ok) => Some (update_stream l (with_credit c) s, ok)
                | None => None
                end
   | None => None
   end) = None.
Proof using Type.
  intros (st & -> & Hc & Hn). pose proof (sem_acquire_view n (send_credit st)) as Hv.
  unfold acquire_spec in Hv. rewrite Hc in Hv.
  destruct (Z.leb_spec n (sem_permits (sem_view (send_credit st)))); [lia|].
  by destruct (sem_acquire_many n (send_credit st)) as [[]|].
Qed.

Lemma starved_stuck (E : Session → Session → Prop) id l c rest s tr t' s' :
  (∀ x y, E x y → starved l (u32_saturate (byte_len c)) x → starved l (u32_saturate (byte_len c)) y) →
  starved l (u32_saturate (byte_len c)) s →
  exec E (send_chunks id l (c :: rest)) s tr t' s' →
  tr = [] ∧ t' = send_chunks id l (c :: rest) ∧ starved l (u32_saturate (byte_len c)) s'.
Proof using Type.
  intros HE Hs Hx. cbn [send_chunks] in Hx |- *.
  apply exec_await in Hx as [(-> & -> & Hr)|(s1 & s2 & ok & tr1 & Hr & Ha & _ & _)].
  - split_and!; [done..|]. by eapply rtc_preserves.
  - rewrite starved_waits in Ha; [done|]. by eapply rtc_preserves.
Qed.

(** ** [open_http_stream] alone *)

Lemma register_fresh s :
  session_wf s → (Z.of_nat (length (stream_objs s)) + 1 < 2 ^ 64)%Z →
  streams s !! next_stream_id s = None.
Proof using Type.
  intros [W1 W2 _ _ _] Hl. rewrite Z.mod_small in W1 by lia.
  destruct (streams s !! next_stream_id s) as [l|] eqn:E; [|done]. destruct (W2 _ _ E). lia.
Qed.

Lemma close_registered o s :
  session_wf s → (Z.of_nat (length (stream_objs s)) + 1 < 2 ^ 64)%Z →
  let s' := close_stream (next_stream_id s) (with_outbound o (register_stream s).1) in
  streams s' = streams s ∧ open_streams s' = open_streams s.
Proof using Type.
  intros Hw Hl. pose proof (register_fresh s Hw Hl) as Hf. destruct Hw as [_ _ W3 W4 _].
  unfold close_stream. simpl. rewrite lookup_insert_eq. simpl.
  split; [by apply delete_insert_id|].
  rewrite W3. unfold u64_wrapping_sub, u64_wrapping_add.
  rewrite (Z.mod_small (_ + 1)) by lia. rewrite Z.mod_small; lia.
Qed.

(** The table and the counter after registering a stream whose [Open] frame met
    the queue [o] and was, or was not, accepted. *)
Lemma run_open_sent tunnel_id head addr s o (ok : bool) :
  (0 <? max_concurrent_streams (limits (ses_principal s)))%Z &&
    (max_concurrent_streams (limits (ses_principal s)) <=? open_streams s)%Z = false →
  let frame : ServerFrame := Some (SOpen (mkStreamOpen (next_stream_id s) tunnel_id KindHttp
                                            (Some head) addr (initial_window s))) in
  ch_send (Ok frame) (outbound s) = Some (o, ok) →
  run (open_http_stream tunnel_id head addr) s =
  if ok then (with_outbound o (register_stream s).1,
              Ret (Ok (mkStreamResponse (next_stream_id s) (length (stream_objs s)))))
  else (drop_receivers (length (stream_objs s))
          (close_stream (next_stream_id s) (with_outbound o (register_stream s).1)),
        Ret (Err SessionGone)).
Proof using Type.
  intros Hl frame Hs. unfold open_http_stream. simpl. rewrite Hl. simpl. fold frame.
  rewrite Hs. by destruct ok.
Qed.

(** Deliveries to a stream that is gone find nothing to act on. *)
Lemma gone_sender id s : streams s !! id = None → stream_body_sender id s = (s, None).
Proof using Type. intros Hs. unfold stream_body_sender. by rewrite Hs. Qed.

Lemma close_gone id s : streams s !! id = None → close_stream id s = s.
Proof using Type. intros Hs. unfold close_stream. by rewrite Hs. Qed.

(** The step put [chunk] in the body queue of object [l]; or it left it alone. *)
Definition enqueued (l : nat) (chunk : Chunk) (p : Session * Session) : Prop :=
  ∃ st c, stream_objs p.1 !! l = Some st ∧ p.2 = update_stream l (with_body c) p.1 ∧
    ch_queue (ch_view c) = ch_queue (ch_view (body_ch st)) ++ [chunk].

Definition body_untouched (l : nat) (p : Session * Session) : Prop :=
  ∀ st, stream_objs p.1 !! l = Some st → ∃ st', stream_objs p.2 !! l = Some st' ∧
    ch_queue (ch_view (body_ch st')) = ch_queue (ch_view (body_ch st)).

Lemma update_untouched l f s :
  (∀ st, ch_queue (ch_view (body_ch (f st))) = ch_queue (ch_view (body_ch st))) →
  body_untouched l (s, update_stream l f s).
Proof using Type.
  intros Hf st Hst. exists (f st). split; [|done]. simpl in *.
  by rewrite list_lookup_alter_eq, Hst.
Qed.

Lemma sender_untouched l id s : body_untouched l (s, (stream_body_sender id s).1).
Proof using Type.
  unfold stream_body_sender. destruct (streams s !! id) as [k|]; [|by intros st ?; eauto].
  destruct (stream_objs s !! k) as [st0|] eqn:E; [|by intros st ?; eauto].
  destruct (negb (stream_closed st0)); [|by intros st ?; eauto]. simpl.
  intros st Hst. simpl in *. destruct (decide (k = l)) as [->|Hne].
  - rewrite list_lookup_alter_eq, E. simpl. eexists; split; [reflexivity|]. simpl.
    rewrite ch_clone_view. rewrite E in Hst. by injection Hst as <-.
  - rewrite list_lookup_alter_ne by done. eauto.
Qed.

Lemma close_untouched l id s : body_untouched l (s, close_stream id s).
Proof using Type.
  unfold close_stream. destruct (streams s !! id) as [k|]; [|by intros st ?; eauto].
  intros st Hst. simpl in *. destruct (decide (k = l)) as [->|Hne].
  - rewrite list_lookup_alter_eq, Hst. simpl. eexists; split; [reflexivity|]. simpl.
    by rewrite ch_drop_tx_view.
  - rewrite list_lookup_alter_ne by done. eauto.
Qed.

Lemma drop_untouched l s : body_untouched l (s, drop_body_sender l s).
Proof using Type.
  intros st Hst. simpl in *. unfold drop_body_sender. simpl.
  rewrite list_lookup_alter_eq, Hst. simpl. eexists; split; [reflexivity|]. simpl.
  by rewrite ch_drop_tx_view.
Qed.

Lemma send_body_inv l chunk s s' ok :
  (match stream_objs s !! l with
   | Some st => match ch_send chunk (body_ch st) with
                | Some (c, ok) => Some (update_stream l (with_body c) s, ok)
                | None => None
                end
   | None => None
   end) = Some (s', ok) →
  if ok then enqueued l chunk (s, s') else body_untouched l (s, s').
Proof using Type.
  destruct (stream_objs s !! l) as [st|] eqn:El; [|done].
  pose proof (ch_send_view chunk (body_ch st)) as Hv.
  destruct (ch_send chunk (body_ch st)) as [[c b]|]; [|done]. intros [= <- <-].
  simpl in Hv. unfold send_spec in Hv. destruct (ch_receiver (ch_view (body_ch st))); simpl in Hv.
  - destruct (decide _); [|done]. injection Hv as Ho ->. exists st, c. by rewrite Ho.
  - injection Hv as Ho ->. intros st' Hst'. simpl in *. rewrite list_lookup_alter_eq, El. simpl.
    eexists; split; [reflexivity|]. simpl. rewrite Ho. rewrite El in Hst'. by injection Hst' as <-.
Qed.

Lemma iter_drop_view {A} n (c : mpsc A) :
  ch_view (Nat.iter n ch_drop_tx c) =
  mkChan (ch_queue (ch_view c)) (capacity c) (ch_senders (ch_view c) - n) (ch_receiver (ch_view c)).
Proof using Type.
  induction n as [|n IH]; simpl.
  - unfold capacity. rewrite Nat.sub_0_r. by destruct (ch_view c).
  - rewrite ch_drop_tx_view, IH. unfold drop_tx_spec. simpl. f_equal. lia.
Qed.

(** What a closed stream does to those who wait on it. *)
Lemma closed_released st :
  stream_ok st → stream_closed st = true →
  os_recv (head_ch st) ≠ None ∧ ∀ n, (snd <$> sem_acquire_many n (send_credit st)) = Some false.
Proof using Type.
  intros (H1 & H2 & H3) Hc. split.
  - rewrite os_recv_view. unfold os_recv_spec. rewrite <- H1, H3 by done. by case_match.
  - intros n. pose proof (sem_acquire_view n (send_credit st)) as Hv.
    unfold acquire_spec in Hv. rewrite H2, Hc in Hv.
    destruct (sem_acquire_many n (send_credit st)) as [[c b]|]; [|done]. simpl in *. congruence.
Qed.

Lemma recv_ready {A} (c : mpsc A) :
  ch_queue (ch_view c) ≠ [] ∨ ch_senders (ch_view c) = 0 → ch_recv c ≠ None.
Proof using Type.
  intros Hq Hr. pose proof (ch_recv_view c) as Hv. rewrite Hr in Hv. unfold recv_spec in Hv. simpl in Hv.
  destruct (ch_queue (ch_view c)); [|done]. destruct Hq as [|Hq]; [done|].
  by rewrite decide_True in Hv.
Qed.

(** ** A response through one stream, nothing else happening

    [open_at id l q h s]: stream [id] is object [l], open, with [q] queued in its
    body channel, one sender and a live receiver, and head channel [h]. *)
Definition open_at (id : Z) (l : nat) (q : list Chunk) (h : oneshot_state HttpResponseHead)
    (s : Session) : Prop :=
  streams s !! id = Some l ∧ ∃ st, stream_objs s !! l = Some st ∧ stream_closed st = false ∧
    ch_view (body_ch st) = mkChan q STREAM_BUFFER_FRAMES 1 true ∧
    os_view (head_ch st) = h ∧ head_tx st = os_sender h.

Lemma open_at_head head id l q s :
  open_at id l q (mkOneshot None true true) s → rs_stream_id head = id →
  open_at id l q (mkOneshot (Some head) false true) (on_response_head head s).
Proof using Type.
  intros (Hs & st & Hst & Hc & Hb & Hh & Ht) Hid. unfold on_response_head. rewrite Hid, Hs.
  split; [done|]. simpl. rewrite list_lookup_alter_eq, Hst. eexists; split; [reflexivity|].
  simpl in Ht. rewrite Ht. split_and!; simpl; try done. by rewrite os_send_view, Hh.
Qed.

(** Sending one more chunk through a cloned sender. *)
Lemma open_at_chunk id l q h chunk s :
  open_at id l q h s → length q < STREAM_BUFFER_FRAMES →
  ∃ s1 s2, stream_body_sender id s = (s1, Some l) ∧
    run (send_body l chunk) s1 = (s2, Ret true) ∧
    open_at id l (q ++ [chunk]) h (drop_body_sender l s2) ∧ outbound s2 = outbound s.
Proof using Type.
  intros (Hs & st & Hst & Hc & Hb & Hh & Ht) Hq. unfold stream_body_sender.
  rewrite Hs, Hst, Hc. simpl. eexists _. 
  pose proof (ch_send_view chunk (ch_clone_tx (body_ch st))) as Hv.
  rewrite ch_clone_view, Hb in Hv. unfold clone_tx_spec, send_spec in Hv. simpl in Hv.
  rewrite decide_True in Hv by done.
  destruct (ch_send chunk (ch_clone_tx (body_ch st))) as [[c b]|] eqn:Es; [|done].
  simpl in Hv. injection Hv as Hv ->.
  eexists. split_and!; [reflexivity| | |].
  - unfold send_body. simpl. rewrite list_lookup_alter_eq, Hst. simpl. rewrite Es. reflexivity.
  - split; [done|]. simpl. rewrite list_lookup_alter_eq, list_lookup_alter_eq, list_lookup_alter_eq, Hst.
    simpl. eexists; split; [reflexivity|]. split_and!; simpl; try done.
    by rewrite ch_drop_tx_view, Hv.
  - reflexivity.
Qed.

Lemma open_at_data id l q h payload s :
  open_at id l q h s → length q < STREAM_BUFFER_FRAMES →
  ∃ s', run (on_stream_data id payload) s = (s', Ret (byte_len payload)) ∧
    open_at id l (q ++ [ChunkData payload]) h s' ∧ outbound s' = outbound s.
Proof using Type.
  intros Ho Hq. destruct (open_at_chunk _ _ _ _ (ChunkData payload) _ Ho Hq)
    as (s1 & s2 & H1 & H2 & H3 & H4).
  exists (drop_body_sender l s2). split; [|done]. unfold on_stream_data.
  rewrite run_atomic, H1. cbn [fst snd]. by rewrite (run_bind _ _ _ _ _ H2).
Qed.

Fixpoint deliver_data (id : Z) (payloads : list str) : task Session unit :=
  match payloads with
  | [] => Ret tt
  | p :: rest => on_stream_data id p ;;! deliver_data id rest
  end.

Lemma open_at_datas id l q h payloads s :
  open_at id l q h s → length q + length payloads ≤ STREAM_BUFFER_FRAMES →
  ∃ s', run (deliver_data id payloads) s = (s', Ret tt) ∧
    open_at id l (q ++ map ChunkData payloads) h s'.
Proof using Type.
  revert q s. induction payloads as [|p rest IH]; intros q s Ho Hq;
    cbn [deliver_data map length] in *.
  { exists s. by rewrite app_nil_r. }
  destruct (open_at_data _ _ _ _ p _ Ho ltac:(lia)) as (s1 & H1 & Ho1 & _).
  destruct (IH _ _ Ho1) as (s2 & H2 & Ho2); [rewrite length_app; simpl; lia|].
  exists s2. rewrite (run_bind _ _ _ _ _ H1), H2. split; [done|]. by rewrite <- app_assoc in Ho2.
Qed.

Lemma open_at_end id l q h chunk s :
  open_at id l q h s → length q < STREAM_BUFFER_FRAMES →
  ∃ s', run (finish_stream id chunk) s = (s', Ret tt) ∧ streams s' !! id = None ∧
    ∃ st, stream_objs s' !! l = Some st ∧
      ch_view (body_ch st) = mkChan (q ++ [chunk]) STREAM_BUFFER_FRAMES 0 true ∧
      os_value (os_view (head_ch st)) = os_value h ∧ os_sender (os_view (head_ch st)) = false.
Proof using Type.
  intros Ho Hq. destruct (open_at_chunk _ _ _ _ chunk _ Ho Hq) as (s1 & s2 & H1 & H2 & H3 & _).
  eexists. split.
  - unfold finish_stream. rewrite run_atomic, H1. cbn [fst snd].
    erewrite run_bind; [reflexivity|]. by rewrite (run_bind _ _ _ _ _ H2).
  - destruct H3 as (Hs & st & Hst & Hc & Hb & Hh & Ht). unfold close_stream. rewrite Hs.
    split; [apply lookup_delete_eq|]. cbn [stream_objs with_streams count_closed remove_entry].
    rewrite list_lookup_alter_eq, Hst. eexists; split; [reflexivity|]. cbn [body_ch head_ch end_stream]. rewrite ch_drop_tx_view, Hb. split; [done|].
    destruct (head_tx st); rewrite ?os_drop_tx_view, Hh; [by split|by rewrite <- Ht].
Qed.

(** The public side: what the receiver yields until the channel ends ([true]) or
    would block ([false]). *)
Fixpoint drain (fuel : nat) (c : mpsc Chunk) : list Chunk * bool :=
  match fuel with
  | O => ([], false)
  | S fuel =>
      match ch_recv c with
      | Some (c', Some x) => let '(xs, e) := drain fuel c' in (x :: xs, e)
      | Some (_, None) => ([], true)
      | None => ([], false)
      end
  end.

Lemma drain_closed q cap alive c fuel :
  ch_view c = mkChan q cap 0 alive → length q < fuel → drain fuel c = (q, true).
Proof using Type.
  revert c fuel. induction q as [|x q IH]; intros c [|fuel] Hc Hf; simpl in *; try lia;
    pose proof (ch_recv_view c) as Hv; rewrite Hc in Hv; unfold recv_spec in Hv; simpl in Hv;
    destruct (ch_recv c) as [[c' [y|]]|]; try done.
  simpl in Hv. injection Hv as Hc' ->. by rewrite (IH c' fuel Hc') by lia.
Qed.

Lemma run_close_streams ids (x : Session) :
  ∃ x', run (close_streams ids) x = (x', Ret tt) ∧ tunnels x' = tunnels x ∧ ses_id x' = ses_id x ∧
    ∀ id, streams x' !! id = if decide (id ∈ ids) then None else streams x !! id.
Proof using Type.
  revert x. induction ids as [|id ids IH]; intros x.
  { exists x. split_and!; [done..|]. intros id. by rewrite decide_False by apply not_elem_of_nil. }
  cbn [close_streams]. unfold modify. rewrite run_atomic. cbn [fst snd].
  destruct (IH (close_stream id x)) as (x' & Hr & Ht & Hid & Hs). exists x'. split; [done|].
  unfold close_stream in Ht, Hid. split; [rewrite Ht; by case_match|]. split; [rewrite Hid; by case_match|].
  intros k. rewrite Hs. unfold close_stream. destruct (streams x !! id) as [l|] eqn:E; simpl.
  - rewrite lookup_delete. repeat case_decide; set_solver.
  - destruct (decide (k = id)) as [->|Hk]; repeat case_decide; set_solver.
Qed.

Lemma run_close_all (x : Session) :
  ∃ x', run close_all_streams x = (x', Ret tt) ∧ tunnels x' = tunnels x ∧ ses_id x' = ses_id x ∧
    streams x' = ∅.
Proof using Type.
  destruct (run_close_streams (map_iter (streams x)).*1 x) as (x' & Hr & Ht & Hid & Hs).
  exists x'. split; [exact Hr|]. split_and!; [done..|]. apply map_eq. intros id. rewrite Hs, lookup_empty.
  case_decide as Hin; [done|]. destruct (streams x !! id) as [l|] eqn:E; [|done]. destruct Hin.
  apply list_elem_of_fmap. exists (id, l). split; [done|].
  rewrite map_iter_perm. by apply elem_of_map_to_list.
Qed.

Lemma body_sender_some id s l :
  (stream_body_sender id s).2 = Some l → streams s !! id = Some l.
Proof using Type. unfold stream_body_sender. repeat case_match; simpl; congruence. Qed.
End session.

(** ** [split_chunks] *)

Lemma MAX_CHUNK_pos : (0 < MAX_CHUNK)%Z.
Proof. done. Qed.

#[local] Opaque MAX_CHUNK.

Lemma byte_len_take_max (p : str) :
  (MAX_CHUNK < byte_len p)%Z → byte_len (take (Z.to_nat MAX_CHUNK) p) = MAX_CHUNK.
Proof. intros Hp. unfold byte_len in *. rewrite length_take. pose proof MAX_CHUNK_pos. lia. Qed.

Lemma byte_len_drop_max (p : str) :
  (MAX_CHUNK < byte_len p)%Z →
  byte_len (drop (Z.to_nat MAX_CHUNK) p) = (byte_len p - MAX_CHUNK)%Z.
Proof. intros Hp. unfold byte_len in *. rewrite length_drop. pose proof MAX_CHUNK_pos. lia. Qed.

(** Full chunks, then one that is not longer (and empty only for no bytes). *)
Inductive full_but_last : list str → Prop :=
| full_last c : (byte_len c ≤ MAX_CHUNK)%Z → full_but_last [c]
| full_cons c d rest :
    byte_len c = MAX_CHUNK → d ≠ [] → full_but_last (d :: rest) → full_but_last (c :: d :: rest).

Lemma split_loop_head fuel p c rest : split_loop fuel p = c :: rest → p ≠ [] → c ≠ [].
Proof.
  destruct fuel; simpl; [by intros [= <- _]|]. case_match eqn:E; intros [= <- _] Hp; [|done].
  intros Hc. apply Z.ltb_lt, byte_len_take_max in E. rewrite Hc in E. done.
Qed.

Lemma split_loop_full fuel p : length p ≤ fuel → full_but_last (split_loop fuel p).
Proof.
  revert p. induction fuel as [|fuel IH]; intros p Hf; simpl.
  { constructor. unfold byte_len. pose proof MAX_CHUNK_pos. lia. }
  destruct (Z.ltb_spec MAX_CHUNK (byte_len p)) as [Hlt|Hge]; [|by constructor].
  pose proof (byte_len_drop_max p Hlt) as Hd. pose proof MAX_CHUNK_pos.
  assert (length (drop (Z.to_nat MAX_CHUNK) p) ≤ fuel) as Hle by (unfold byte_len in *; lia).
  specialize (IH _ Hle). destruct (split_loop fuel _) as [|d rest] eqn:E; [by inversion IH|].
  constructor; [by apply byte_len_take_max| |done].
  eapply split_loop_head; [done|]. intros Hn. rewrite Hn in Hd. unfold byte_len in Hd, Hlt. simpl length in Hd. lia.
Qed.

Lemma split_loop_concat fuel p : concat (split_loop fuel p) = p.
Proof.
  revert p. induction fuel as [|fuel IH]; intros p; simpl; [apply app_nil_r|].
  case_match; simpl; [|apply app_nil_r]. by rewrite IH, take_drop.
Qed.

Lemma split_chunks_concat p : concat (split_chunks p) = p.
Proof. unfold split_chunks. case_match; [apply app_nil_r|apply split_loop_concat]. Qed.

Lemma split_chunks_full p : full_but_last (split_chunks p).
Proof.
  unfold split_chunks. destruct (Z.leb_spec (byte_len p) MAX_CHUNK); [by constructor|].
  by apply split_loop_full.
Qed.

Lemma full_bound cs : full_but_last cs → Forall (λ c, (byte_len c ≤ MAX_CHUNK)%Z) cs.
Proof. induction 1; constructor; [done|done|lia|done]. Qed.

Lemma full_count cs :
  full_but_last cs →
  Z.of_nat (length cs) = Z.max 1 ((byte_len (concat cs) + MAX_CHUNK - 1) / MAX_CHUNK).
Proof.
  pose proof MAX_CHUNK_pos as HM. induction 1 as [c Hc|c d rest Hc Hd Hf IH].
  - simpl. rewrite app_nil_r. pose proof (byte_len_nonneg c).
    assert ((byte_len c + MAX_CHUNK - 1) / MAX_CHUNK < 2)%Z by (apply Z.div_lt_upper_bound; lia).
    lia.
  - change (concat (c :: d :: rest)) with (c ++ concat (d :: rest)). rewrite byte_len_app, Hc.
    replace (MAX_CHUNK + byte_len (concat (d :: rest)) + MAX_CHUNK - 1)%Z
      with (byte_len (concat (d :: rest)) + MAX_CHUNK - 1 + 1 * MAX_CHUNK)%Z by lia.
    rewrite Z.div_add by lia. cbn [length] in *.
    assert (1 ≤ (byte_len (concat (d :: rest)) + MAX_CHUNK - 1) / MAX_CHUNK)%Z; [|lia].
    apply Z.div_le_lower_bound; [lia|]. simpl concat. rewrite byte_len_app.
    pose proof (byte_len_nonneg (concat rest)). destruct d; [done|].
    unfold byte_len in *. simpl in *. lia.
Qed.

#[local] Transparent MAX_CHUNK.

(** ** Properties *)


Definition demo_principal (streams : Z) : Principal :=
  mkPrincipal (lit "acct_1") (lit "test") [] [] (mkLimits 8 streams 0).
Definition demo_head : HttpRequestHead :=
  mkRequestHead (lit "GET") (lit "/") (lit "api.tunnel.com") [] (lit "HTTP/1.1") [].
Definition demo_session (streams window : Z) : @Session view_tokio :=
  @session_new view_tokio (lit "sess_1") (lit "node_1") (demo_principal streams) window.
Definition demo_open : task (@Session view_tokio) (result StreamResponse OpenError) :=
  @open_http_stream view_tokio (lit "tun_1") demo_head (lit "1.2.3.4:5678").


(** Whatever the threads do, the counter is the number of registered streams, plus
    those that are removed and not yet discounted, less those that are registered
    and not yet counted, modulo the counter's width. *)
Theorem counter_tracks_table `{Tokio} `{MapIteration} id node_id principal window s n m :
  rtc counted_step (session_new id node_id principal window, 0, 0) (s, n, m) →
  (Z.of_nat (length (stream_objs s)) < 2 ^ 64)%Z →
  open_stream_count s = ((Z.of_nat (size (streams s)) + Z.of_nat m - Z.of_nat n) `mod` 2 ^ 64)%Z.
Proof.
  intros Hr Hl. assert (counted_inv (s, n, m)) as Hi; [|by apply Hi].
  eapply rtc_preserves; [apply counted_inv_step|exact Hr|]. done.
Qed.

(** Opening a stream (no other task in between): refused without any change
    exactly when a non-zero limit is reached; otherwise it gets an id no open
    stream has, is registered with the agent's window as credit, and the agent is
    told in one [Open] frame at the end of its queue; if the agent has gone the
    registration is undone, and if its queue is full the call waits registered. *)
Theorem open_http_stream_spec `{Tokio} tunnel_id head addr s :
  session_wf s → (Z.of_nat (length (stream_objs s)) + 1 < 2 ^ 64)%Z →
  let limit := max_concurrent_streams (limits (ses_principal s)) in
  let id := next_stream_id s in
  let frame : ServerFrame :=
    Some (SOpen (mkStreamOpen id tunnel_id KindHttp (Some head) addr (initial_window s))) in
  let '(s', t) := run (open_http_stream tunnel_id head addr) s in
  streams s !! id = None ∧
  if (0 <? limit)%Z && (limit <=? Z.of_nat (size (streams s)))%Z
  then s' = s ∧ t = Ret (Err (TooManyStreams limit))
  else match send_spec (Ok frame) (ch_view (outbound s)) with
       | Some (_, true) =>
           let l := length (stream_objs s) in
           t = Ret (Ok (mkStreamResponse id l)) ∧
           streams s' = <[id := l]> (streams s) ∧
           open_stream_count s' = (open_stream_count s + 1)%Z ∧
           (∃ st, stream_objs s' !! l = Some st ∧ head_tx st = true ∧
              sem_view (send_credit st) = mkSem (initial_window s) false ∧
              ch_view (body_ch st) = mkChan [] STREAM_BUFFER_FRAMES 1 true) ∧
           ch_queue (ch_view (outbound s')) = ch_queue (ch_view (outbound s)) ++ [Ok frame]
       | Some (_, false) =>
           t = Ret (Err SessionGone) ∧ streams s' = streams s ∧
           open_stream_count s' = open_stream_count s
       | None => (∃ f, t = Step f) ∧ streams s' = <[id := length (stream_objs s)]> (streams s)
       end.
Proof.
  intros Hw Hl limit id frame. pose proof (register_fresh s Hw Hl) as Hf.
  pose proof (λ o, close_registered o s Hw Hl) as Hcl. destruct Hw as [_ _ W3 W4 _].
  pose proof (ch_send_view (Ok frame : result ServerFrame Status) (outbound s)) as Hv.
  destruct ((0 <? limit)%Z && (limit <=? Z.of_nat (size (streams s)))%Z) eqn:Hlim.
  { rewrite <- W3 in Hlim. unfold open_http_stream. simpl. fold limit. by rewrite Hlim. }
  rewrite <- W3 in Hlim. rewrite <- Hv.
  destruct (ch_send (Ok frame) (outbound s)) as [[o ok]|] eqn:Es.
  - rewrite (run_open_sent _ _ _ _ o ok) by done. simpl in Hv. unfold send_spec in Hv.
    destruct ok; simpl; (split; [done|]).
    + split_and!; try done.
      * unfold open_stream_count, u64_wrapping_add. simpl. apply Z.mod_small. lia.
      * eexists. split; [by apply list_lookup_middle|]. simpl.
        by rewrite sem_new_view, ch_channel_view.
      * destruct (ch_receiver (ch_view (outbound s))); [|done]. simpl in Hv.
        destruct (decide _); [|done]. injection Hv as Hv. by rewrite Hv.
    + split; [done|apply (Hcl o)].
  - unfold open_http_stream. simpl. fold limit. rewrite Hlim. simpl.
    fold id frame. rewrite Es. simpl. by split_and!; [|eexists|].
Qed.

Lemma open_http_stream_spec_witness :
  let s := demo_session 1 65536 in
  (run demo_open s).2 = Ret (Ok (mkStreamResponse 1 0)) ∧
  (run demo_open (run demo_open s).1).2 = Ret (Err (TooManyStreams 1)).
Proof.
  intros s. pose proof (@open_http_stream_spec view_tokio (lit "tun_1") demo_head
    (lit "1.2.3.4:5678") s (@wf_new view_tokio _ _ _ _) ltac:(vm_compute; reflexivity)) as P.
  split; [|reflexivity]. fold demo_open in P.
  destruct (run demo_open s) as [s' t]. exact (proj1 (proj2 P)).
Defined.

(** Splitting a payload loses and reorders nothing; every frame but the last
    is exactly [MAX_CHUNK] bytes, the last is not longer, and there are as few
    frames as that allows (one for an empty payload). *)
Theorem split_chunks_spec payload :
  concat (split_chunks payload) = payload ∧ full_but_last (split_chunks payload) ∧
  Z.of_nat (length (split_chunks payload)) =
    Z.max 1 ((byte_len payload + MAX_CHUNK - 1) / MAX_CHUNK).
Proof.
  split_and!; [apply split_chunks_concat|apply split_chunks_full|].
  by rewrite (full_count _ (split_chunks_full payload)), split_chunks_concat.
Qed.

(** C23: whatever else happens on the session while [send_stream_data] runs, it puts
    a chunk on the wire only after taking the chunk's length off the stream's
    credit, so the agent never gets more bytes than it granted; and when it
    reports success it has queued the chunks of the payload, all of them, in
    order, each paid for once. *)
Theorem send_stream_data_paid `{Tokio} (E : Session → Session → Prop) id payload s tr t' s' :
  exec E (send_stream_data id payload) s tr t' s' →
  match tr with
  | [] => t' ≠ Ret true
  | first :: rest =>
      match streams first.1 !! id with
      | Some l =>
          writer_history id l (split_chunks payload) rest ∧
          (t' = Ret true →
           Forall2 (λ (P : Session * Session → Prop) p, P p)
             (writer_trace id l (split_chunks payload)) rest)
      | None => rest = [] ∧ t' = Ret false
      end
  end.
Proof.
  intros Hx. apply exec_atomic in Hx as [(-> & -> & _)|(s1 & tr' & _ & -> & Hx)]; [done|].
  simpl in *. destruct (streams s1 !! id) as [l|].
  - eapply send_chunks_history; [|done]. eapply Forall_impl; [apply full_bound, split_chunks_full|].
    intros c Hc. simpl in *. unfold MAX_CHUNK, u32_max in *. lia.
  - by apply exec_Ret in Hx as (-> & -> & _).
Qed.

Lemma send_stream_data_paid_witness :
  let s := (run demo_open (demo_session 0 65536)).1 in
  (run (@send_stream_data view_tokio 1 (lit "abc")) s).2 = Ret true ∧
  ∃ tr : list (@Session view_tokio * @Session view_tokio),
    length tr = 3 ∧
    match tr with
    | first :: rest =>
        Forall2 (λ P p, P p) (@writer_trace view_tokio 1 0 [lit "abc"]) rest
    | [] => False
    end.
Proof.
  intros s. split; [reflexivity|].
  destruct (run_exec (λ _ _, False) (@send_stream_data view_tokio 1 (lit "abc")) s) as [tr Htr].
  pose proof (@send_stream_data_paid view_tokio _ _ _ _ _ _ _ Htr) as P.
  inversion Htr as [| |? ? s1 t1 tr1 ? ? Hp Hx]; subst; try done.
  injection Hp as <- <-. simpl in P. destruct P as [_ P].
  exists ((s, s) :: tr1). split; [|exact (P eq_refl)].
  pose proof (Forall2_length _ _ _ (P eq_refl)) as Hl. simpl. by rewrite <- Hl.
Defined.

(** Credit is taken for a whole chunk at once, so a window smaller than the
    chunk that is due stalls the upload for ever: as long as nobody grants credit
    the writer takes no step, whatever else the session does. *)
Theorem small_window_stalls `{Tokio} (E : Session → Session → Prop) id l chunk rest s tr t' s' :
  (∀ x y, E x y → starved l (u32_saturate (byte_len chunk)) x →
                  starved l (u32_saturate (byte_len chunk)) y) →
  starved l (u32_saturate (byte_len chunk)) s →
  exec E (send_chunks id l (chunk :: rest)) s tr t' s' →
  tr = [] ∧ ∀ ok, t' ≠ Ret ok.
Proof.
  intros HE Hs Hx. by destruct (starved_stuck E id l chunk rest s tr t' s' HE Hs Hx) as (-> & -> & _).
Qed.

Lemma small_window_stalls_witness :
  let s := (run demo_open (demo_session 0 2)).1 in
  (run (@send_stream_data view_tokio 1 (lit "abc")) s).1 = s ∧
  ∀ ok, (run (@send_stream_data view_tokio 1 (lit "abc")) s).2 ≠ Ret ok.
Proof.
  intros s. split; [reflexivity|].
  destruct (run_exec (λ _ _, False) (@send_chunks view_tokio 1 0 [lit "abc"]) s) as [tr Htr].
  refine (proj2 (@small_window_stalls view_tokio (λ _ _, False) 1 0 (lit "abc") [] s tr _ _ _ _ Htr)).
  - done.
  - eexists. split; [reflexivity|]. by split.
Defined.

(** C32: closing a stream stops its writer, however long it has been waiting for
    credit, ends the wait for its response head, and takes the stream's own sender
    off its body without losing what is queued: once the handlers that hold a clone,
    if any, have dropped it, the reader gets the queued chunks and then the end.
    Closing the stream again, and every frame that still arrives for it, changes
    nothing. *)
Theorem close_stream_releases `{Tokio} id l st s :
  streams s !! id = Some l → stream_objs s !! l = Some st → stream_ok st →
  let s' := close_stream id s in
  let queue := ch_queue (ch_view (body_ch st)) in
  (∀ chunk rest, (run (send_chunks id l (chunk :: rest)) s').2 = Ret false) ∧
  (∃ st', stream_objs s' !! l = Some st' ∧ os_recv (head_ch st') ≠ None ∧
     ch_queue (ch_view (body_ch st')) = queue ∧ senders st' = pred (senders st) ∧
     ∀ clones, senders st = S clones →
       drain (S (length queue)) (Nat.iter clones ch_drop_tx (body_ch st')) = (queue, true)) ∧
  close_stream id s' = s' ∧
  (∀ payload, run (send_stream_data id payload) s' = (s', Ret false)) ∧
  (∀ payload, run (on_stream_data id payload) s' = (s', Ret 0%Z)) ∧
  (∀ trailers, run (on_stream_end id trailers) s' = (s', Ret tt)) ∧
  (∀ code message, run (on_stream_reset id code message) s' = (s', Ret tt)) ∧
  (∀ status headers, on_response_head (mkResponseHead id status headers) s' = s') ∧
  (∀ inc, on_window_update id inc s' = Some s').
Proof.
  intros Hid Hst Hok s' queue.
  assert (streams s' !! id = None) as Hgone.
  { unfold s', close_stream. rewrite Hid. apply lookup_delete_eq. }
  assert (stream_objs s' !! l = Some (end_stream st)) as Hobj.
  { unfold s', close_stream. rewrite Hid. simpl. by rewrite list_lookup_alter_eq, Hst. }
  clearbody s'. pose proof (end_stream_ok _ Hok) as Hend.
  destruct (closed_released _ Hend eq_refl) as [Hhead Hcredit]. split_and!.
  - intros chunk rest. simpl. rewrite Hobj. specialize (Hcredit (u32_saturate (byte_len chunk))).
    simpl in Hcredit. destruct (sem_acquire_many _ _) as [[c b]|]; [|done].
    simpl in Hcredit. by injection Hcredit as ->.
  - exists (end_stream st). unfold senders. cbn [body_ch end_stream]. rewrite ch_drop_tx_view.
    split_and!; [done..|]. intros clones Hn. eapply (drain_closed _ (capacity (body_ch st)) (ch_receiver (ch_view (body_ch st)))); [|lia].
    rewrite iter_drop_view, drop_tx_capacity, ch_drop_tx_view. unfold drop_tx_spec. simpl. f_equal. lia.
  - by apply close_gone.
  - intros payload. simpl. by rewrite Hgone.
  - intros payload. simpl. by rewrite gone_sender.
  - intros trailers. simpl. rewrite gone_sender by done. simpl. by rewrite close_gone.
  - intros code message. simpl. rewrite gone_sender by done. simpl. by rewrite close_gone.
  - intros status headers. unfold on_response_head. simpl. by rewrite Hgone.
  - intros inc. unfold on_window_update. by rewrite Hgone.
Qed.

(** A stream with a chunk in its body, whose writer wants more than its credit. *)
Lemma close_stream_releases_witness :
  let s := (run (@on_stream_data view_tokio 1 (lit "hello")) (run demo_open (demo_session 0 2)).1).1 in
  (run (@send_chunks view_tokio 1 0 [lit "abc"]) (@close_stream view_tokio 1 s)).2 = Ret false ∧
  ∃ st', @stream_objs view_tokio (@close_stream view_tokio 1 s) !! 0 = Some st' ∧
    @drain view_tokio 2 (@body_ch view_tokio st') = ([ChunkData (lit "hello")], true).
Proof.
  intros s.
  destruct (@close_stream_releases view_tokio 1 0 (default (@mkStream view_tokio true os_channel
           (ch_channel 16) (sem_new 2) false) (@stream_objs view_tokio s !! 0)) s)
    as (Hw & (st' & Hst & _ & _ & _ & Hd) & _); [reflexivity..|by split_and!|].
  split; [apply Hw|]. exists st'. split; [exact Hst|]. exact (Hd 0 eq_refl).
Defined.

(** Body bytes from the agent: the number [on_stream_data] returns, which
    becomes the credit granted back, is the payload's length exactly if this call
    put the payload in the stream's queue, and 0 if it put nothing there. *)
Theorem on_stream_data_accounting `{Tokio} (E : Session → Session → Prop) id payload s tr n s' :
  exec E (on_stream_data id payload) s tr (Ret n) s' →
  (∃ l p q rest, tr = p :: q :: rest ∧ streams p.1 !! id = Some l ∧ n = byte_len payload ∧
     enqueued l (ChunkData payload) q ∧ Forall (body_untouched l) (p :: rest)) ∨
  (n = 0%Z ∧ ∀ l, streams (default (s, s) (head tr)).1 !! id = Some l →
               Forall (body_untouched l) tr).
Proof.
  intros Hx. apply exec_atomic in Hx as [(_ & ? & _)|(s1 & tr1 & _ & -> & Hx)]; [done|].
  destruct ((stream_body_sender id s1).2) as [l|] eqn:El; cycle 1.
  { apply exec_Ret in Hx as (-> & [= ->] & _). right. split; [done|]. intros l Hl. simpl.
    constructor; [apply sender_untouched|done]. }
  apply body_sender_some in El.
  apply exec_await in Hx as [(_ & ? & _)|(s2 & s3 & ok & tr2 & _ & Hs & -> & Hx)]; [done|].
  apply send_body_inv in Hs. destruct ok; cbn [negb] in Hx.
  - apply exec_atomic in Hx as [(_ & ? & _)|(s4 & tr3 & _ & -> & Hx)]; [done|].
    apply exec_Ret in Hx as (-> & [= ->] & _). left.
    eexists l, _, _, _. split_and!; [reflexivity|done..| |].
    + done.
    + repeat constructor; [apply sender_untouched|apply drop_untouched].
  - apply exec_atomic in Hx as [(_ & ? & _)|(s4 & tr3 & _ & -> & Hx)]; [done|].
    apply exec_atomic in Hx as [(_ & ? & _)|(s5 & tr4 & _ & -> & Hx)]; [done|].
    apply exec_Ret in Hx as (-> & [= ->] & _). right. split; [done|].
    simpl. intros l' Hl'. rewrite El in Hl'. injection Hl' as <-.
    repeat constructor; [apply sender_untouched|done|apply close_untouched|apply drop_untouched].
Qed.

Lemma on_stream_data_accounting_witness :
  let s := (run demo_open (demo_session 0 2)).1 in
  ∃ tr n s', exec (λ _ _, False) (@on_stream_data view_tokio 1 (lit "hello")) s tr (Ret n) s' ∧
    n = 5%Z ∧
    ((∃ l p q rest, tr = p :: q :: rest ∧ @streams view_tokio p.1 !! 1%Z = Some l ∧ n = 5%Z ∧
       @enqueued view_tokio l (ChunkData (lit "hello")) q ∧
       Forall (@body_untouched view_tokio l) (p :: rest)) ∨
     (n = 0%Z ∧ ∀ l, @streams view_tokio (default (s, s) (head tr)).1 !! 1%Z = Some l →
                  Forall (@body_untouched view_tokio l) tr)).
Proof.
  intros s. destruct (run_exec (λ _ _, False) (@on_stream_data view_tokio 1 (lit "hello")) s) as [tr Htr].
  exists tr, 5%Z, (run (@on_stream_data view_tokio 1 (lit "hello")) s).1.
  split; [exact Htr|]. split; [reflexivity|].
  exact (@on_stream_data_accounting view_tokio (λ _ _, False) 1 (lit "hello") s tr 5%Z _ Htr).
Defined.

(** A response delivered over an open stream reaches the public side whole:
    the waiting request sees the head, then exactly the agent's body chunks in
    order and the end, and the channel ends there; the stream is then closed. *)
Theorem response_delivered `{Tokio} id l head payloads trailers s :
  open_at id l [] (mkOneshot None true true) s → rs_stream_id head = id →
  length payloads < STREAM_BUFFER_FRAMES →
  let '(s', r) := run (deliver_data id payloads ;;! on_stream_end id trailers)
                      (on_response_head head s) in
  r = Ret tt ∧ streams s' !! id = None ∧
  ∃ st, stream_objs s' !! l = Some st ∧ os_recv (head_ch st) = Some (Some head) ∧
    drain (S (S (length payloads))) (body_ch st) =
      (map ChunkData payloads ++ [ChunkEnd trailers], true).
Proof.
  intros Ho Hid Hlen. eapply open_at_head in Ho; [|done].
  destruct (open_at_datas _ _ _ _ payloads _ Ho) as (s1 & H1 & Ho1); [simpl; lia|].
  destruct (open_at_end _ _ _ _ (ChunkEnd trailers) _ Ho1) as (s2 & H2 & Hs & st & Hst & Hb & Hv & Hx).
  { simpl. by rewrite length_map. }
  rewrite (run_bind _ _ _ _ _ H1). unfold on_stream_end. rewrite H2.
  split; [done|]. split; [done|]. exists st. split; [done|]. split.
  - rewrite os_recv_view. unfold os_recv_spec. by rewrite Hv.
  - eapply drain_closed; [exact Hb|]. simpl. rewrite length_app, length_map. simpl. lia.
Qed.

Lemma response_delivered_witness :
  let s := (run demo_open (demo_session 0 2)).1 in
  (run (@deliver_data view_tokio 1 [lit "hello"; lit "world"] ;;! @on_stream_end view_tokio 1 [])
       (@on_response_head view_tokio (mkResponseHead 1 204 []) s)).2 = Ret tt.
Proof.
  intros s.
  pose proof (@response_delivered view_tokio 1 0 (mkResponseHead 1 204 []) [lit "hello"; lit "world"]
                [] s) as P.
  assert (@open_at view_tokio 1 0 [] (mkOneshot None true true) s) as Ho.
  { split; [reflexivity|]. eexists. split; [reflexivity|]. by split_and!. }
  specialize (P Ho eq_refl ltac:(unfold STREAM_BUFFER_FRAMES; simpl; lia)).
  destruct (run (@deliver_data view_tokio 1 [lit "hello"; lit "world"] ;;!
                 @on_stream_end view_tokio 1 []) _) as [s' r]. exact (proj1 P).
Defined.

(** A close that falls between a stream's insertion and its counting makes the
    counter wrap: a limited session without any stream refuses the next one. *)
Definition inserted_session : @Session view_tokio := (@insert_entry view_tokio (demo_session 100 65536)).1.
Definition wrapped_session : @Session view_tokio :=
  @count_closed view_tokio (@remove_entry view_tokio 1 0 inserted_session).

Theorem counter_wraps :
  rtc (@counted_step view_tokio) (demo_session 100 65536, 0, 0) (wrapped_session, 1, 0) ∧
  @streams view_tokio wrapped_session = ∅ ∧ @open_stream_count view_tokio wrapped_session = u64_max ∧
  (run demo_open wrapped_session).2 = Ret (Err (TooManyStreams 100)).
Proof.
  assert (@streams view_tokio inserted_session !! 1%Z = Some 0) as H1 by reflexivity.
  split; [|split; [|split]]; [|reflexivity..].
  apply (rtc_l _ _ (inserted_session, 1, 0)); [exact (@counted_insert view_tokio (demo_session 100 65536) 0 0)|].
  apply (rtc_l _ _ (@remove_entry view_tokio 1 0 inserted_session, 1, 1));
    [exact (@counted_remove view_tokio inserted_session 1 0 1 0 H1)|].
  apply rtc_once. exact (@counted_closed view_tokio (@remove_entry view_tokio 1 0 inserted_session) 1 0).
Qed.

(** The limit check and the registration are separate steps, so two requests
    that check at the same time both pass: a session limited to one stream has
    two open. *)
Theorem stream_limit_is_not_atomic :
  ∃ s ts, rtc (pool_step (@session_api view_tokio sorted_iteration)) (demo_session 1 65536, []) (s, ts) ∧
    max_concurrent_streams (limits (@ses_principal view_tokio s)) = 1%Z ∧
    @open_stream_count view_tokio s = 2%Z ∧
    @open_stream_count view_tokio s = Z.of_nat (size (@streams view_tokio s)).
Proof.
  eexists _, _. split.
  - do 2 (eapply rtc_l; [apply pool_call; right; apply (@api_open view_tokio sorted_iteration (lit "tun_1")
                           demo_head (lit "1.2.3.4:5678"))|]).
    eapply rtc_l; [eapply (pool_poll _ _ _ 0); [reflexivity|reflexivity]|].
    eapply rtc_l; [eapply (pool_poll _ _ _ 1); [reflexivity|reflexivity]|].
    eapply rtc_l; [eapply (pool_poll _ _ _ 0); [reflexivity|reflexivity]|].
    eapply rtc_l; [eapply (pool_poll _ _ _ 1); [reflexivity|reflexivity]|].
    apply rtc_refl.
  - split_and!; vm_compute; reflexivity.
Qed.
