(* ===== verification/Control.v ===== *)
(** * [norupo-server/src/control.rs], [state.rs]: the control plane of one edge node

    The node's state holds its sessions as objects; [sessions] is the
    [SessionManager], from session ids to objects. The clock is read twice by a
    call that stamps an expiry, first [clock], then [clock_later]. [draws] is the
    position of the random generator. *)

From S2P Require Import Prelude RustStr Crates CoreError Routing Auth Ids ServerConfig.
From S2P Require Import Registry MemoryRegistry RedisRegistry Async Proto Session.

Definition CARGO_PKG_VERSION : str := lit "0.1.1".

(** ** What a tunnel request resolves to *)

Section resolve.
Context `{Rng}.

(** [seed]: the generator's position, for a random subdomain. *)
Definition resolve_http_target (config : ServerConfig) (principal : Principal) (seed : nat)
    (spec : HttpTunnelSpec) : result (RoutingKey * str) Error :=
  let? host :=
    (if negb (bool_decide (spec_custom_domain spec = [])) then
       let? domain := normalize_host (spec_custom_domain spec) in
       if negb (may_use_custom_domain principal domain)
       then Err (Unauthorized (lit "custom domain `" ++ domain ++
                               lit "` is not verified for this account"))
       else Ok domain
     else if bool_decide (spec_subdomain spec = []) then
       public_host (random_subdomain seed) (base_domain config)
     else
       let? label := validate_subdomain_syntax (spec_subdomain spec) in
       if is_reserved_subdomain label && negb (may_claim_subdomain principal label)
       then Err (Unauthorized (lit "subdomain `" ++ label ++ lit "` is reserved"))
       else public_host label (base_domain config)) in
  Ok (Host host, public_url config host).

Definition resolve_tcp_target (config : ServerConfig) (spec : TcpTunnelSpec)
  : result (RoutingKey * str) Error :=
  let? port :=
    (if (spec_remote_port spec <=? u16_max)%Z then Ok (spec_remote_port spec)
     else Err (InvalidRoute (lit "port " ++ dec (spec_remote_port spec) ++ lit " is out of range"))) in
  if (port =? 0)%Z
  then Err (InvalidRoute (lit "automatic TCP port assignment is not implemented yet; pass --remote-port"))
  else Ok (TcpPort port, lit "tcp://" ++ base_domain config ++ lit ":" ++ dec port).
End resolve.

Section control.
Context `{Tokio} `{MapIteration} `{Rng}.
Context {R : Type} `{RegistryOps R} {A : Type} `{AuthProvider A}.

Record AppState := mkAppState {
  config : ServerConfig;
  st_node_id : str;
  st_node_addr : str;
  registry : R;
  auth : A;
  sessions : gmap str nat;
  session_objs : list Session;
  clock : Z;
  clock_later : Z;
  draws : nat;
}.

Definition with_registry (r : R) (s : AppState) : AppState :=
  mkAppState (config s) (st_node_id s) (st_node_addr s) r (auth s) (sessions s)
    (session_objs s) (clock s) (clock_later s) (draws s).
Definition with_sessions (m : gmap str nat) (objs : list Session) (s : AppState) : AppState :=
  mkAppState (config s) (st_node_id s) (st_node_addr s) (registry s) (auth s) m
    objs (clock s) (clock_later s) (draws s).
Definition with_draws (n : nat) (s : AppState) : AppState :=
  mkAppState (config s) (st_node_id s) (st_node_addr s) (registry s) (auth s) (sessions s)
    (session_objs s) (clock s) (clock_later s) n.
Definition put_session (i : nat) (x : Session) (s : AppState) : AppState :=
  with_sessions (sessions s) (<[i := x]> (session_objs s)) s.

(** [SessionManager]. *)
Definition manager_insert (id : str) (i : nat) (s : AppState) : AppState :=
  with_sessions (<[id := i]> (sessions s)) (session_objs s) s.
Definition manager_get (id : str) (s : AppState) : option nat := sessions s !! id.
Definition manager_remove (id : str) (s : AppState) : AppState :=
  with_sessions (delete id (sessions s)) (session_objs s) s.
Definition manager_len (s : AppState) : Z := Z.of_nat (size (sessions s)).
Definition manager_tunnel_count (s : AppState) : Z :=
  foldr (λ p n, (n + match session_objs s !! p.2 with
                     | Some x => session_tunnel_count x
                     | None => 0
                     end)%Z) 0%Z (map_iter (sessions s)).
Definition manager_snapshot (s : AppState) : gmap str (list Tunnel) :=
  omap (λ i, session_tunnels <$> session_objs s !! i) (sessions s).

Definition manager_is_empty (s : AppState) : bool := bool_decide (sessions s = ∅).

(** What [snapshot_json] renders of each session. *)
Record SessionSnapshot := mkSessionSnapshot {
  snap_session_id : str;
  snap_account_id : str;
  snap_open_streams : Z;
  snap_tunnels : list Tunnel;
}.
Definition manager_snapshot_json (s : AppState) : list SessionSnapshot :=
  map_iter (sessions s) ≫= λ p,
    match session_objs s !! p.2 with
    | Some x => [mkSessionSnapshot (ses_id x) (account_id (ses_principal x)) (open_stream_count x)
                   (session_tunnels x)]
    | None => []
    end.

(** A method call on session object [i]. *)
Definition on_session {B} (i : nat) (t : task Session B) : task AppState B :=
  zoom (λ s, session_objs s !! i) (put_session i) t.

Definition call_registry {B} (f : Z → Z → R → R * B) : task AppState B :=
  atomic (λ s, let '(r, b) := f (clock s) (clock_later s) (registry s) in (with_registry r s, b)).

(** [n] draws from the generator, whether or not they are then used. *)
Definition draw (n : nat) : task AppState nat :=
  atomic (λ s, (with_draws (draws s + n) s, draws s)).

Definition allocate_session (x : Session) : task AppState nat :=
  atomic (λ s, (with_sessions (sessions s) (session_objs s ++ [x]) s, length (session_objs s))).

(** ** The handshake: [TunnelControl::session] *)

Definition welcome_frame (s : AppState) (id : str) (l : Limits) : ServerFrame :=
  Some (SWelcome (mkWelcome id CARGO_PKG_VERSION (st_node_id s)
    (u32_saturate (heartbeat_ms (config s))) (window_bytes (config s))
    (Some (mkProtoLimits (max_tunnels l) (max_concurrent_streams l) (max_bytes_per_second l))))).

Definition accept_session (hello : Hello) : task AppState (result nat Status) :=
  if negb (hello_protocol_version hello =? PROTOCOL_VERSION)%Z
  then Ret (Err (mkStatus FailedPrecondition
         (lit "unsupported protocol version " ++ dec (hello_protocol_version hello) ++
          lit " (server speaks " ++ dec PROTOCOL_VERSION ++ lit "); upgrade the norupo CLI")))
  else
    let! answer := query (λ s, authenticate (auth s) (hello_token hello)) in
    match answer with
    | Err e => Ret (Err (mkStatus Unauthenticated (error_to_string e)))
    | Ok principal =>
        let! seed := draw RANDOM_LEN in
        let id := session_id seed in
        let! s := query (λ s : AppState, s) in
        let! i := allocate_session
          (session_new id (st_node_id s) principal (window_bytes (config s))) in
        let! sent := on_session i (send (welcome_frame s id (limits principal))) in
        if negb sent
        then Ret (Err (mkStatus Unavailable (lit "agent hung up during handshake")))
        else modify (manager_insert id i) ;;! Ret (Ok i)
    end.

(** [session] up to spawning [run_session]; the items are what the agent's side of
    the RPC yields. *)
Definition session (inbound : list (result ClientFrame Status)) : task AppState (result nat Status) :=
  match inbound with
  | Ok (Some (CHello hello)) :: _ => accept_session hello
  | Ok _ :: _ => Ret (Err (mkStatus FailedPrecondition (lit "first frame must be Hello")))
  | Err status :: _ => Ret (Err status)
  | [] => Ret (Err (mkStatus FailedPrecondition (lit "stream closed before Hello")))
  end.

Record HealthResponse := mkHealthResponse {
  health_ok : bool; health_node_id : str; health_version : str;
  active_sessions : Z; active_tunnels : Z }.

Definition health (s : AppState) : HealthResponse :=
  mkHealthResponse true (st_node_id s) CARGO_PKG_VERSION (manager_len s) (manager_tunnel_count s).

(** ** Registering a tunnel *)

Definition rejected (request_id error : str) : TunnelStatus :=
  mkTunnelStatus request_id [] false error [] [].

Definition tunnel_record (s : AppState) (x : Session) (key : RoutingKey) (tunnel_id : str)
  : RouteRecord :=
  mkRouteRecord (as_storage_key key) (st_node_id s) (st_node_addr s) (ses_id x) tunnel_id
    (account_id (ses_principal x)).

Definition resolve_target (config : ServerConfig) (principal : Principal) (seed : nat)
    (spec : TunnelSpec) : result (RoutingKey * str) Error :=
  match spec with
  | SpecHttp spec => resolve_http_target config principal seed spec
  | SpecTcp spec => resolve_tcp_target config spec
  end.

Definition claim_tunnel (i : nat) (request_id : str) (record : RouteRecord) (public_url : str)
  : task AppState TunnelStatus :=
  let! ttl := query (λ s, route_ttl (config s)) in
  let! claim := call_registry (λ now later, reg_claim now later record ttl) in
  match claim with
  | Ok Acquired =>
      on_session i (modify (insert_tunnel
        (mkTunnel (rec_tunnel_id record) (routing_key record) public_url))) ;;!
      Ret (mkTunnelStatus request_id (rec_tunnel_id record) true [] public_url (routing_key record))
  | Ok (Taken owner) =>
      Ret (rejected request_id (error_to_string (RouteTaken
        (routing_key record ++ lit " (held by session " ++ rec_session_id owner ++
         lit " on node " ++ rec_node_id owner ++ lit ")"))))
  | Err e => Ret (rejected request_id (error_to_string e))
  end.

Definition register_tunnel (i : nat) (open : OpenTunnel) : task AppState TunnelStatus :=
  let request_id := ot_request_id open in
  let! x := on_session i (query (λ x, x)) in
  let max := max_tunnels (limits (ses_principal x)) in
  if (0 <? max)%Z && (max <=? session_tunnel_count x)%Z
  then Ret (rejected request_id
              (lit "account is limited to " ++ dec max ++ lit " concurrent tunnels"))
  else
    match ot_spec open with
    | None => Ret (rejected request_id (lit "OpenTunnel is missing a spec"))
    | Some spec =>
        let! seed := draw GENERATED_SUBDOMAIN_LEN in
        let! s := query (λ s : AppState, s) in
        match resolve_target (config s) (ses_principal x) seed spec with
        | Err e => Ret (rejected request_id (error_to_string e))
        | Ok (key, public_url) =>
            let! seed := draw RANDOM_LEN in
            claim_tunnel i request_id (tunnel_record s x key (tunnel_id seed)) public_url
        end
    end.

(** ** Frames from the agent *)

Definition close_tunnel (i : nat) (tunnel_id : str) : task AppState unit :=
  let! removed := on_session i (atomic (remove_tunnel tunnel_id)) in
  match removed with
  | Some tunnel =>
      let! x := on_session i (query (λ x, x)) in
      call_registry (λ now _, reg_release now (tun_routing_key tunnel) (ses_id x)) ;;! Ret tt
  | None => Ret tt
  end.

(** [false]: the handler panicked. *)
Definition handle_client_frame (i : nat) (frame : ClientFrame) : task AppState bool :=
  match frame with
  | None => Ret true
  | Some payload =>
      match payload with
      | CHello _ => Ret true
      | COpenTunnel open =>
          let! status := register_tunnel i open in
          on_session i (send (Some (STunnelStatus status))) ;;! Ret true
      | CCloseTunnel tunnel_id => close_tunnel i tunnel_id ;;! Ret true
      | CResponseHead head => on_session i (modify (on_response_head head)) ;;! Ret true
      | CData stream_id payload =>
          let! accepted := on_session i (on_stream_data stream_id payload) in
          (if (0 <? accepted)%Z
           then on_session i (grant_window stream_id (u32_saturate accepted))
           else Ret true) ;;! Ret true
      | CEnd stream_id trailers => on_session i (on_stream_end stream_id trailers) ;;! Ret true
      | CReset stream_id code message =>
          on_session i (on_stream_reset stream_id (reset_code_of code) message) ;;! Ret true
      | CWindowUpdate stream_id increment =>
          on_session i (atomic (λ x, match on_window_update stream_id increment x with
                                     | Some x' => (x', true)
                                     | None => (x, false)
                                     end))
      | CPong _ _ => Ret true
      end
  end.

(** ** The session's two tasks *)

Fixpoint release_tunnels (session_id : str) (tunnels : list Tunnel) : task AppState unit :=
  match tunnels with
  | [] => Ret tt
  | t :: rest =>
      call_registry (λ now _, reg_release now (tun_routing_key t) session_id) ;;!
      release_tunnels session_id rest
  end.

Definition teardown (i : nat) : task AppState unit :=
  let! x := on_session i (query (λ x, x)) in
  release_tunnels (ses_id x) (session_tunnels x) ;;!
  on_session i close_all_streams ;;!
  modify (manager_remove (ses_id x)).

(** The read loop over what the RPC yields, ended by an error or the end of the
    list; [false]: a handler panicked, and with it the task. *)
Fixpoint read_loop (i : nat) (inbound : list (result ClientFrame Status)) : task AppState bool :=
  match inbound with
  | Ok frame :: rest =>
      let! alive := handle_client_frame i frame in
      if alive then read_loop i rest else Ret false
  | _ => Ret true
  end.

Definition run_session (i : nat) (inbound : list (result ClientFrame Status)) : task AppState unit :=
  let! finished := read_loop i inbound in
  if finished then teardown i else Ret tt.

Definition notify_tunnel_lost (i : nat) (tunnel : Tunnel) : task AppState unit :=
  on_session i (send (Some (STunnelStatus
    (mkTunnelStatus [] (tun_tunnel_id tunnel) false
       (lit "routing claim lost; reconnect to re-register")
       (tun_public_url tunnel) (tun_routing_key tunnel))))) ;;! Ret tt.

Fixpoint renew_tunnels (i : nat) (session_id : str) (ttl : Z) (tunnels : list Tunnel)
  : task AppState unit :=
  match tunnels with
  | [] => Ret tt
  | tunnel :: rest =>
      let! renewed := call_registry (λ now later,
        reg_renew now later (tun_routing_key tunnel) session_id ttl) in
      match renewed with
      | Ok true | Err _ => Ret tt
      | Ok false =>
          on_session i (atomic (remove_tunnel (tun_tunnel_id tunnel))) ;;!
          notify_tunnel_lost i tunnel
      end ;;! renew_tunnels i session_id ttl rest
  end.

(** One beat, with the nonce and the time it carries; [false]: the agent is gone. *)
Definition heartbeat_tick (i : nat) (ttl nonce server_time_ms : Z) : task AppState bool :=
  let! sent := on_session i (send (Some (SPing nonce server_time_ms))) in
  if negb sent then Ret false
  else
    let! x := on_session i (query (λ x, x)) in
    renew_tunnels i (ses_id x) ttl (session_tunnels x) ;;! Ret true.

Fixpoint heartbeat_loop (i : nat) (ttl : Z) (beats : list (Z * Z)) : task AppState unit :=
  match beats with
  | [] => Ret tt
  | (nonce, time) :: rest =>
      let! alive := heartbeat_tick i ttl nonce time in
      if alive then heartbeat_loop i ttl rest else Ret tt
  end.

(** The beats until the task is aborted; an interval of zero makes
    [tokio::time::interval] panic before the first. *)
Definition spawn_heartbeat (i : nat) (beats : list (Z * Z)) : task AppState unit :=
  let! c := query config in
  if (heartbeat c =? 0)%Z then Ret tt else heartbeat_loop i (route_ttl c) beats.
End control.

(** ** Lemmas: running on one session *)
Section facts.
Context `{Tokio} `{MapIteration} `{Rng}.
Context {R : Type} `{RegistryOps R} {A : Type}.
Notation AppState := (AppState (R:=R) (A:=A)).

Lemma put_session_get i (s : AppState) x y :
  session_objs s !! i = Some x → session_objs (put_session i y s) !! i = Some y.
Proof using Type. intros Hx. simpl. apply list_lookup_insert_eq. by eapply lookup_lt_Some. Qed.

Lemma put_session_put i y z (s : AppState) : put_session i z (put_session i y s) = put_session i z s.
Proof using Type. unfold put_session, with_sessions. simpl. by rewrite list_insert_insert_eq. Qed.

Lemma put_session_same i x (s : AppState) : session_objs s !! i = Some x → put_session i x s = s.
Proof using Type.
  intros Hx. unfold put_session, with_sessions. rewrite list_insert_id by done. by destruct s.
Qed.

Lemma run_on_session {B} i (t : task Session B) (s : AppState) x x' r :
  session_objs s !! i = Some x → run t x = (x', Ret r) →
  run (on_session i t) s = (put_session i x' s, Ret r).
Proof using Type.
  intros Hx Hr. unfold on_session.
  apply (run_zoom (λ s : AppState, session_objs s !! i) (put_session i) t s x x' r);
    eauto using put_session_get, put_session_put, put_session_same.
Qed.

Lemma run_query_session i (s : AppState) x :
  session_objs s !! i = Some x → run (on_session i (query (λ x, x))) s = (s, Ret x).
Proof using Type.
  intros Hx. rewrite (run_on_session i (query (λ x, x)) s x x x Hx eq_refl). by rewrite put_session_same.
Qed.

Lemma run_call_registry {B C} (f : Z → Z → R → R * B) (k : B → task AppState C) (s : AppState) r b :
  f (clock s) (clock_later s) (registry s) = (r, b) →
  run (task_bind (call_registry f) k) s = run (k b) (with_registry r s).
Proof using Type. intros Hf. unfold call_registry. rewrite run_atomic, Hf. done. Qed.

Lemma run_draw {C} n (k : nat → task AppState C) (s : AppState) :
  run (task_bind (draw n) k) s = run (k (draws s)) (with_draws (draws s + n) s).
Proof using Type. unfold draw. by rewrite run_atomic. Qed.

Lemma run_query {B C} (f : AppState → B) (k : B → task AppState C) (s : AppState) :
  run (task_bind (query f) k) s = run (k (f s)) s.
Proof using Type. unfold query. by rewrite run_atomic. Qed.

(** ** Registering a tunnel *)
Context `{!RegistryView R} `{!RegistryContract R}.

(** The lease of [record] was taken at the clock readings of [s]. *)
Definition acquired_lease (record : RouteRecord) (s s' : AppState) : Prop :=
  claimable (clock s) (routing_key record) (rec_session_id record) (registry s) ∧
  ∃ e, (clock s + route_ttl (config s) ≤ e ≤ clock_later s + route_ttl (config s))%Z ∧
    leased (clock s) (routing_key record) record e (registry s) (registry s').

(** Nothing but the routing table and the generator moved, and the table only if
    its backend failed after executing the claim. *)
Definition rejected_cleanly (record : option RouteRecord) (s s' : AppState) : Prop :=
  session_objs s' = session_objs s ∧ sessions s' = sessions s ∧
  (agree_from (clock s) (registry s) (registry s') ∨
   ∃ r, record = Some r ∧ acquired_lease r s s').

Lemma run_claim_tunnel i rid record url (s : AppState) x :
  session_objs s !! i = Some x → reg_inv (registry s) → reg_wf record →
  reg_ttl (route_ttl (config s)) → (clock s ≤ clock_later s)%Z →
  ∃ s' st, run (claim_tunnel i rid record url) s = (s', Ret st) ∧ reg_inv (registry s') ∧
    if ts_accepted st
    then st = mkTunnelStatus rid (rec_tunnel_id record) true [] url (routing_key record) ∧
         acquired_lease record s s' ∧ sessions s' = sessions s ∧
         session_objs s' = <[i := insert_tunnel
           (mkTunnel (rec_tunnel_id record) (routing_key record) url) x]> (session_objs s)
    else st = rejected rid (ts_error st) ∧ rejected_cleanly (Some record) s s'.
Proof using Type*.
  intros Hx Hinv Hwf Httl Hc. unfold claim_tunnel. rewrite run_query.
  destruct (reg_claim (clock s) (clock_later s) record (route_ttl (config s)) (registry s))
    as [r res] eqn:E.
  rewrite (run_call_registry _ _ _ r res) by exact E.
  destruct (claim_contract _ _ _ _ _ _ _ Hinv Hwf Httl Hc E) as [Hi Hres].
  destruct res as [[|owner]|err].
  - eexists _, _. split.
    { erewrite run_bind; [reflexivity|]. apply (run_on_session i _ _ x); [done|reflexivity]. }
    split; [done|]. simpl. by split_and!.
  - eexists _, _. split; [reflexivity|]. split; [done|]. simpl. split; [done|].
    split_and!; [done..|]. left. apply Hres.
  - eexists _, _. split; [reflexivity|]. split; [done|]. simpl. split; [done|].
    split_and!; [done..|]. destruct Hres as [?|?]; [by left|right; eauto].
Qed.

(** The record a request asks for, if it resolves. *)
Definition requested_record (s : AppState) (x : Session) (open : OpenTunnel)
  : result (RouteRecord * str) Error :=
  match ot_spec open with
  | None => Err (InvalidRoute [])
  | Some spec =>
      let? '(key, url) := resolve_target (config s) (ses_principal x) (draws s) spec in
      Ok (tunnel_record s x key (tunnel_id (draws s + GENERATED_SUBDOMAIN_LEN)), url)
  end.

Definition at_tunnel_limit (x : Session) : bool :=
  let max := max_tunnels (limits (ses_principal x)) in
  (0 <? max)%Z && (max <=? session_tunnel_count x)%Z.

Lemma run_register_tunnel i open (s : AppState) x :
  session_objs s !! i = Some x → reg_inv (registry s) →
  (∀ record url, requested_record s x open = Ok (record, url) → reg_wf record) →
  reg_ttl (route_ttl (config s)) → (clock s ≤ clock_later s)%Z →
  ∃ s' st, run (register_tunnel i open) s = (s', Ret st) ∧ reg_inv (registry s') ∧
    if ts_accepted st
    then ∃ record url, requested_record s x open = Ok (record, url) ∧ at_tunnel_limit x = false ∧
         st = mkTunnelStatus (ot_request_id open) (rec_tunnel_id record) true [] url
                (routing_key record) ∧
         acquired_lease record s s' ∧ sessions s' = sessions s ∧
         session_objs s' = <[i := insert_tunnel
           (mkTunnel (rec_tunnel_id record) (routing_key record) url) x]> (session_objs s)
    else st = rejected (ot_request_id open) (ts_error st) ∧
         rejected_cleanly (fst <$> res_ok (requested_record s x open)) s s'.
Proof using Type*.
  intros Hx Hinv Hwf Httl Hc. unfold register_tunnel.
  rewrite (run_bind _ _ _ _ _ (run_query_session i s x Hx)). fold (at_tunnel_limit x).
  assert (∀ n r, rejected_cleanly r s (with_draws n s)) as Hclean by (intros n r; by split_and!; [..|left]).
  unfold requested_record in *. destruct (at_tunnel_limit x) eqn:Hlim.
  { eexists _, _. split; [reflexivity|]. split; [done|]. simpl. split; [done|].
    by split_and!; [..|left]. }
  destruct (ot_spec open) as [spec|].
  2: { eexists _, _. split; [reflexivity|]. split; [done|]. simpl. split; [done|].
       by split_and!; [..|left]. }
  rewrite run_draw, run_query. simpl config. 
  destruct (resolve_target (config s) (ses_principal x) (draws s) spec) as [[key url]|e].
  2: { eexists _, _. split; [reflexivity|]. split; [done|]. simpl. by split. }
  rewrite run_draw.
  edestruct (run_claim_tunnel i (ot_request_id open)) as (s' & st & Hr & Hi & Hst);
    [| | | | |exists s', st; split; [exact Hr|]; split; [done|]]; [done..| |done|done|].
  { by apply (Hwf _ url). }
  destruct (ts_accepted st); [|exact Hst].
  destruct Hst as (Hst & Hl & Hs & Ho). eexists _, url. by split_and!.
Qed.

(** ** Tearing a session down *)

(** From [r] to [r'] every key is as before from [now] on, except keys of [keys]
    that session [sid] held: those are free. *)
Definition only_own_released (sid : str) (now : Z) (keys : list str) (r r' : R) : Prop :=
  ∀ k, (∀ t, (now ≤ t)%Z → reg_view t r' k = reg_view t r k) ∨
       (k ∈ keys ∧ (∃ rec, owned now k sid r rec) ∧ ∀ t, (now ≤ t)%Z → reg_view t r' k = None).

Lemma only_own_refl sid now keys r : only_own_released sid now keys r r.
Proof using Type. by left. Qed.

Lemma only_own_trans sid now k keys r r1 r2 :
  only_own_released sid now [k] r r1 → only_own_released sid now keys r1 r2 →
  only_own_released sid now (k :: keys) r r2.
Proof using Type.
  intros H12 H23 j.
  destruct (H12 j) as [E1|(Hk & Ho & E1)]; destruct (H23 j) as [E2|(Hk2 & (rec & Hv & Hs) & E2)].
  - left. intros t Ht. by rewrite E2, E1.
  - right. split; [by right|]. split; [|done]. exists rec. split; [|done].
    by rewrite <- E1 by lia.
  - right. split; [|split; [done|]].
    + apply list_elem_of_singleton in Hk as ->. left.
    + intros t Ht. by rewrite E2, E1.
  - right. split; [by right|]. by split.
Qed.

Lemma only_own_not_owned sid now keys r r' k :
  only_own_released sid now keys r r' → (∀ rec, ¬ owned now k sid r rec) →
  ∀ rec, ¬ owned now k sid r' rec.
Proof using Type.
  intros Ho Hn rec [Hv Hs]. destruct (Ho k) as [E|(_ & _ & E)]; rewrite E in Hv by lia; [|done].
  by apply (Hn rec).
Qed.

(** The backend answers every release. *)
Definition releases_answered : Prop :=
  ∀ now k sid (r : R), ∃ r', reg_release now k sid r = (r', Ok tt).

Lemma release_step now k sid r r' res :
  reg_inv r → reg_release now k sid r = (r', res) →
  reg_inv r' ∧ only_own_released sid now [k] r r' ∧
  (res = Ok tt → ∀ rec, ¬ owned now k sid r' rec).
Proof using Type*.
  intros Hi E. destruct (release_contract _ _ _ _ _ _ Hi E) as [Hi' Hres]. split; [done|].
  assert (∀ b : bool, ((∃ r0, owned now k sid r r0) ∧ freed now k r r') →
    only_own_released sid now [k] r r' ∧ ∀ rec, ¬ owned now k sid r' rec) as Hfreed.
  { intros _ [Ho Hf]. split.
    - intros j. destruct (decide (j = k)) as [->|Hj].
      + right. split; [left|]. split; [done|]. intros t Ht. by rewrite (Hf t k Ht), decide_True.
      + left. intros t Ht. by rewrite (Hf t j Ht), decide_False.
    - intros rec [Hv _]. rewrite (Hf now k), decide_True in Hv by (done || lia). done. }
  assert (agree_from now r r' → only_own_released sid now [k] r r') as Hag
    by (intros Ha j; left; intros t Ht; symmetry; by apply Ha).
  destruct res as [[]|e].
  - destruct Hres as [Hf|[Hno Ha]].
    + destruct (Hfreed true Hf). by split.
    + split; [auto|]. intros _ rec [Hv Hs]. rewrite <- Ha in Hv by lia. by apply (Hno rec).
  - split; [|done]. destruct Hres as [Ha|[Hf|[_ Ha]]]; [auto|by apply (Hfreed true)|auto].
Qed.

Lemma run_release_tunnels sid ts (s : AppState) :
  reg_inv (registry s) →
  ∃ r, run (release_tunnels sid ts) s = (with_registry r s, Ret tt) ∧ reg_inv r ∧
    only_own_released sid (clock s) (map tun_routing_key ts) (registry s) r ∧
    (releases_answered → ∀ t, t ∈ ts → ∀ rec, ¬ owned (clock s) (tun_routing_key t) sid r rec).
Proof using Type*.
  revert s. induction ts as [|t ts IH]; intros s Hi.
  { exists (registry s). split; [by destruct s|]. split; [done|].
    split; [apply only_own_refl|]. by intros _ t ?%elem_of_nil. }
  cbn [release_tunnels map].
  destruct (reg_release (clock s) (tun_routing_key t) sid (registry s)) as [r1 res] eqn:E.
  rewrite (run_call_registry _ _ _ r1 res) by exact E.
  destruct (release_step _ _ _ _ _ _ Hi E) as (Hi1 & Ho1 & Hn1).
  destruct (IH (with_registry r1 s) Hi1) as (r2 & Hr & Hi2 & Ho2 & Hn2).
  exists r2. split; [by rewrite Hr|]. split; [done|]. split; [by eapply only_own_trans|].
  intros Ha t' [->|Ht']%elem_of_cons; [|by apply Hn2].
  eapply only_own_not_owned; [exact Ho2|]. apply Hn1.
  destruct (Ha (clock s) (tun_routing_key t) sid (registry s)) as [r' Hr']. congruence.
Qed.

Lemma run_teardown i (s : AppState) x :
  session_objs s !! i = Some x → reg_inv (registry s) →
  ∃ s' x', run (teardown i) s = (s', Ret tt) ∧
    session_objs s' = <[i := x']> (session_objs s) ∧ streams x' = ∅ ∧
    sessions s' = delete (ses_id x) (sessions s) ∧
    only_own_released (ses_id x) (clock s) (map tun_routing_key (session_tunnels x))
      (registry s) (registry s') ∧
    (releases_answered → ∀ t, t ∈ session_tunnels x →
       ∀ rec, ¬ owned (clock s) (tun_routing_key t) (ses_id x) (registry s') rec).
Proof using Type*.
  intros Hx Hi. unfold teardown. rewrite (run_bind _ _ _ _ _ (run_query_session i s x Hx)).
  destruct (run_release_tunnels (ses_id x) (session_tunnels x) s Hi) as (r & Hr & _ & Ho & Hn).
  rewrite (run_bind _ _ _ _ _ Hr).
  destruct (run_close_all x) as (x' & Hc & _ & _ & Hs).
  rewrite (run_bind _ _ _ _ _ (run_on_session i _ (with_registry r s) x x' tt Hx Hc)).
  eexists _, x'. split; [reflexivity|]. simpl. by split_and!.
Qed.

(** ** Closing a tunnel *)
Lemma run_close_tunnel i tid (s : AppState) x t :
  session_objs s !! i = Some x → reg_inv (registry s) → tunnels x !! tid = Some t →
  ∃ s' r, run (close_tunnel i tid) s = (s', Ret tt) ∧ registry s' = r ∧ reg_inv r ∧
    session_objs s' = <[i := with_tunnels (delete tid (tunnels x)) x]> (session_objs s) ∧
    only_own_released (ses_id x) (clock s) [tun_routing_key t] (registry s) r ∧
    (releases_answered → ∀ rec, ¬ owned (clock s) (tun_routing_key t) (ses_id x) r rec).
Proof using Type*.
  intros Hx Hi Ht. unfold close_tunnel.
  set (x' := with_tunnels (delete tid (tunnels x)) x).
  erewrite run_bind.
  2: { apply (run_on_session i _ s x x' (Some t)); [done|]. simpl. unfold remove_tunnel. by rewrite Ht. }
  cbv beta iota. erewrite run_bind by (apply run_query_session; by eapply put_session_get).
  destruct (reg_release (clock s) (tun_routing_key t) (ses_id x) (registry s)) as [r res] eqn:E.
  rewrite (run_call_registry _ _ _ r res) by exact E.
  destruct (release_step _ _ _ _ _ _ Hi E) as (Hi' & Ho & Hn).
  eexists _, r. split; [reflexivity|]. split; [done|]. split; [done|]. split; [done|].
  split; [done|]. intros Ha. apply Hn.
  destruct (Ha (clock s) (tun_routing_key t) (ses_id x) (registry s)) as [r' Hr']. congruence.
Qed.

(** ** A heartbeat *)

(** The agent's queue takes the frame at once, refuses it, or makes the call wait. *)
Lemma run_session_send {C} i frame (k : bool → task AppState C) (s : AppState) x :
  session_objs s !! i = Some x →
  run (task_bind (on_session i (send frame)) k) s =
  match ch_send (Ok frame) (outbound x) with
  | Some (o, ok) => run (k ok) (put_session i (with_outbound o x) s)
  | None => (s, task_bind (on_session i (send frame)) k)
  end.
Proof using Type.
  intros Hx. unfold on_session, send, await. simpl. rewrite Hx.
  by destruct (ch_send (Ok frame) (outbound x)) as [[o ok]|].
Qed.

Definition owns (s : AppState) (sid : str) (t : Tunnel) : Prop :=
  ∃ rec, owned (clock s) (tun_routing_key t) sid (registry s) rec.

(** The calls that renew the leases of [ts], one after the other, with their answers. *)
Fixpoint renewals (now later : Z) (sid : str) (ttl : Z) (ts : list Tunnel) (r : R)
  : R * list (Tunnel * result bool Error) :=
  match ts with
  | [] => (r, [])
  | t :: rest =>
      let '(r1, res) := reg_renew now later (tun_routing_key t) sid ttl r in
      let '(r2, answers) := renewals now later sid ttl rest r1 in (r2, (t, res) :: answers)
  end.

(** The tunnels a backend has said are lost; an error says nothing. *)
Definition lost_tunnels (answers : list (Tunnel * result bool Error)) : list Tunnel :=
  omap (λ a, match a.2 with Ok false => Some a.1 | _ => None end) answers.

Definition lost_frame (t : Tunnel) : result ServerFrame Status :=
  Ok (Some (STunnelStatus
    (mkTunnelStatus [] (tun_tunnel_id t) false (lit "routing claim lost; reconnect to re-register")
       (tun_public_url t) (tun_routing_key t)))).

(** From [x] to [x']: [lost] tunnels are dropped, and [frames] are queued for the agent. *)
Definition dropped (lost : list Tunnel) (frames : list (result ServerFrame Status)) (x x' : Session) : Prop :=
  ses_id x' = ses_id x ∧
  (∀ id t, tunnels x' !! id = Some t ↔
     tunnels x !! id = Some t ∧ ∀ t', t' ∈ lost → tun_tunnel_id t' ≠ id) ∧
  ch_queue (ch_view (outbound x')) = ch_queue (ch_view (outbound x)) ++ frames ∧
  ch_receiver (ch_view (outbound x')) = ch_receiver (ch_view (outbound x)).

Lemma dropped_nil x : dropped [] [] x x.
Proof using Type.
  split_and!; [done| |by rewrite app_nil_r|done].
  intros id t. split; [|by intros [? _]]. intros Hx. split; [done|]. by intros t' ?%elem_of_nil.
Qed.

Lemma dropped_trans l1 l2 q1 q2 x x1 x' :
  dropped l1 q1 x x1 → dropped l2 q2 x1 x' → dropped (l1 ++ l2) (q1 ++ q2) x x'.
Proof using Type.
  intros (I1 & T1 & Q1 & R1) (I2 & T2 & Q2 & R2).
  split_and!; [congruence| |by rewrite Q2, Q1, app_assoc|congruence].
  intros id t. rewrite T2, T1. setoid_rewrite elem_of_app. naive_solver.
Qed.

Lemma dropped_one t x : dropped [t] [] x (remove_tunnel (tun_tunnel_id t) x).1.
Proof using Type.
  assert ((remove_tunnel (tun_tunnel_id t) x).1 = with_tunnels (delete (tun_tunnel_id t) (tunnels x)) x) as ->.
  { unfold remove_tunnel. destruct (tunnels x !! tun_tunnel_id t) eqn:Et; [done|].
    rewrite delete_id by done. by destruct x. }
  split_and!; [done| |by rewrite app_nil_r|done]. intros id t0. simpl. rewrite lookup_delete_Some.
  setoid_rewrite list_elem_of_singleton. naive_solver.
Qed.

Lemma dropped_sent frame x o :
  ch_send frame (outbound x) = Some (o, true) → dropped [] [frame] x (with_outbound o x).
Proof using Type.
  intros Hs. pose proof (ch_send_view frame (outbound x)) as Hv. rewrite Hs in Hv. simpl in Hv.
  unfold send_spec in Hv. destruct (ch_receiver _) eqn:Er; [|done]. simpl in Hv.
  case_decide; [|done]. injection Hv as Hv. split_and!; [done| |simpl; by rewrite Hv..].
  apply (dropped_nil x).
Qed.

Lemma send_received frame x o ok :
  ch_receiver (ch_view (outbound x)) = true → ch_send frame (outbound x) = Some (o, ok) → ok = true.
Proof using Type.
  intros Hr Hs. pose proof (ch_send_view frame (outbound x)) as Hv. rewrite Hs in Hv. simpl in Hv.
  unfold send_spec in Hv. rewrite Hr in Hv. simpl in Hv. case_decide; [by injection Hv|done].
Qed.

Lemma sent_received frame x o :
  ch_send frame (outbound x) = Some (o, true) → ch_receiver (ch_view (outbound x)) = true.
Proof using Type.
  intros Hs. pose proof (ch_send_view frame (outbound x)) as Hv. rewrite Hs in Hv.
  unfold send_spec in Hv. by destruct (ch_receiver _).
Qed.

(** Renewing drops the tunnels reported lost, and only those, and tells the agent. *)
Lemma run_renew_tunnels i ttl ts (s : AppState) x s' :
  session_objs s !! i = Some x → ch_receiver (ch_view (outbound x)) = true →
  run (renew_tunnels i (ses_id x) ttl ts) s = (s', Ret tt) →
  let '(r, answers) := renewals (clock s) (clock_later s) (ses_id x) ttl ts (registry s) in
  ∃ x', s' = put_session i x' (with_registry r s) ∧
        dropped (lost_tunnels answers) (lost_frame <$> lost_tunnels answers) x x'.
Proof using Type.
  revert s x. induction ts as [|t ts IH]; intros s x Hx Hrx Hr; cbn [renew_tunnels renewals] in *.
  { injection Hr as <-. exists x. split; [|apply dropped_nil].
    destruct s; unfold put_session, with_registry, with_sessions; simpl in *. by rewrite list_insert_id. }
  destruct (reg_renew (clock s) (clock_later s) (tun_routing_key t) (ses_id x) ttl (registry s))
    as [r1 res] eqn:E.
  rewrite (run_call_registry _ _ _ r1 res) in Hr by exact E.
  assert (∀ y, ses_id y = ses_id x → ch_receiver (ch_view (outbound y)) = true →
    run (renew_tunnels i (ses_id x) ttl ts) (put_session i y (with_registry r1 s)) = (s', Ret tt) →
    let '(r, answers) := renewals (clock s) (clock_later s) (ses_id x) ttl ts r1 in
    ∃ x', s' = put_session i x' (with_registry r s) ∧
          dropped (lost_tunnels answers) (lost_frame <$> lost_tunnels answers) y x') as IH'.
  { intros y Hid Hy Hry. specialize (IH (put_session i y (with_registry r1 s)) y). rewrite Hid in IH.
    specialize (IH ltac:(by eapply (put_session_get i _ x)) Hy Hry). simpl in IH.
    destruct (renewals _ _ _ _ _ r1) as [r answers]. destruct IH as (x' & -> & Hd). exists x'.
    split; [|done]. unfold put_session, with_registry, with_sessions. simpl. by rewrite list_insert_insert_eq. }
  assert (put_session i x (with_registry r1 s) = with_registry r1 s) as Hsame
    by (by apply put_session_same).
  destruct (decide (res = Ok false)) as [->|Hres]; cycle 1.
  { specialize (IH' x eq_refl Hrx). rewrite Hsame in IH'. destruct (renewals _ _ _ _ _ r1) as [r answers].
    destruct res as [[]|]; [| done|]; by apply IH'. }
  apply run_assoc in Hr. set (x1 := (remove_tunnel (tun_tunnel_id t) x).1).
  pose proof (dropped_one t x) as D1. fold x1 in D1. destruct (id D1) as (Hid1 & _ & _ & Hr1).
  erewrite run_bind in Hr; [|by apply (run_on_session i _ _ x x1
      (remove_tunnel (tun_tunnel_id t) x).2); [|simpl; unfold x1; by destruct (remove_tunnel _ x)]].
  apply run_assoc in Hr.
  erewrite (run_session_send _ _ _ _ x1) in Hr by (by eapply (put_session_get i _ x)).
  destruct (ch_send _ (outbound x1)) as [[o ok]|] eqn:Es; [|done]. cbn [task_bind] in Hr.
  rewrite put_session_put in Hr.
  assert (ok = true) as -> by (eapply send_received; [|exact Es]; congruence).
  pose proof (dropped_trans _ _ _ _ _ _ _ D1 (dropped_sent _ _ _ Es)) as D2.
  specialize (IH' (with_outbound o x1) Hid1 ltac:(destruct D2 as (_ & _ & _ & ->); done) Hr).
  destruct (renewals _ _ _ _ _ r1) as [r answers]. destruct IH' as (x' & Hs' & Hd).
  exists x'. split; [done|]. exact (dropped_trans _ _ _ _ _ _ _ D2 Hd).
Qed.

(** What one renewal, answered or not, does to the leases of its session and of others. *)
Lemma renew_step ttl now later k sid r r' res :
  reg_inv r → reg_ttl ttl → (0 < ttl)%Z → (now ≤ later)%Z →
  reg_renew now later k sid ttl r = (r', res) →
  reg_inv r' ∧ (∀ b, res = Ok b → b = true ↔ ∃ rec, owned now k sid r rec) ∧
  (∀ j rec, owned now j sid r rec ↔ owned now j sid r' rec) ∧
  (∀ rec u, res = Ok true → owned now k sid r rec → (now ≤ u < now + ttl)%Z → reg_view u r' k = Some rec) ∧
  (∀ j rec u, (now ≤ u < now + ttl)%Z → reg_view u r j = Some rec → owned now j sid r rec →
     reg_view u r' j = Some rec) ∧
  (∀ j u, (now ≤ u)%Z → j ≠ k ∨ (∀ rec, ¬ owned now k sid r rec) → reg_view u r' j = reg_view u r j).
Proof using Type*.
  intros Hi Ht Hpos Hl E. destruct (renew_contract _ _ _ _ _ _ _ _ Hi Ht Hl E) as [Hi' Hres].
  split; [done|].
  assert (∀ rec e, owned now k sid r rec → (now + ttl ≤ e)%Z → leased now k rec e r r' →
    ∀ u, (now ≤ u < now + ttl)%Z → reg_view u r' k = Some rec) as Hnew.
  { intros rec e Ho He Hle u Hu. rewrite (Hle u k), decide_True by (done || lia).
    by destruct (Z.ltb_spec u e); [|lia]. }
  assert (agree_from now r r' ∨ ∃ rec e, owned now k sid r rec ∧ (now + ttl ≤ e)%Z ∧
    leased now k rec e r r') as Hcases.
  { destruct res as [[]|err]; [|left; apply Hres|destruct Hres as [|Hres]; [by left|]];
      right; destruct Hres as (rec & x & ? & ? & ?); exists rec, x; split_and!; (done || lia). }
  split; [|split; [|split; [|split]]].
  - intros b ->. destruct b.
    + destruct Hres as (rec & e & Ho & _). split; eauto.
    + destruct Hres as [Hno _]. split; [done|]. intros [rec Ho]. by destruct (Hno rec).
  - intros j rec. destruct Hcases as [Ha|(rec0 & e & Ho & He & Hle)]; unfold owned.
    { by rewrite (Ha now j) by lia. }
    destruct (decide (j = k)) as [->|Hj]; [|by rewrite (Hle now j), decide_False by (done || lia)].
    destruct Ho as [Hv Hs]. by rewrite (Hnew rec0 e), Hv by (done || lia).
  - intros rec u -> Ho Hu. destruct Hres as (rec0 & e & Ho0 & He & Hle).
    assert (rec0 = rec) as -> by (destruct Ho, Ho0; congruence). apply (Hnew rec e); (done || lia).
  - intros j rec u Hu Hv Ho. destruct Hcases as [Ha|(rec0 & e & Ho0 & He & Hle)].
    { rewrite <- Ha by lia. done. }
    destruct (decide (j = k)) as [->|Hj]; [|by rewrite (Hle u j), decide_False by (done || lia)].
    assert (rec0 = rec) as -> by (destruct Ho, Ho0; congruence). by apply (Hnew rec e).
  - intros j u Hu Hj. destruct Hcases as [Ha|(rec0 & e & Ho0 & He & Hle)].
    { symmetry. by apply Ha. }
    destruct Hj as [Hj|Hno]; [|by destruct (Hno rec0)]. by rewrite (Hle u j), decide_False.
Qed.

(** What renewing the tunnels of session [sid] does to the leases, from [r] to [r']. *)
Record renewed (now ttl : Z) (sid : str) (r r' : R) (answers : list (Tunnel * result bool Error)) : Prop := {
  rn_inv : reg_inv r';
  rn_told t b : (t, Ok b) ∈ answers → b = true ↔ ∃ rec, owned now (tun_routing_key t) sid r rec;
  rn_owned k rec : owned now k sid r rec ↔ owned now k sid r' rec;
  rn_extended t rec u : (t, Ok true) ∈ answers → owned now (tun_routing_key t) sid r rec →
    (now ≤ u < now + ttl)%Z → reg_view u r' (tun_routing_key t) = Some rec;
  rn_kept k rec u : owned now k sid r rec → (now ≤ u < now + ttl)%Z → reg_view u r k = Some rec →
    reg_view u r' k = Some rec;
  rn_others k u : (∀ rec, ¬ owned now k sid r rec) ∨ (k ∉ map tun_routing_key answers.*1) →
    (now ≤ u)%Z → reg_view u r' k = reg_view u r k;
}.

Lemma renewals_renewed now later ttl sid ts r :
  reg_inv r → reg_ttl ttl → (0 < ttl)%Z → (now ≤ later)%Z →
  let '(r', answers) := renewals now later sid ttl ts r in renewed now ttl sid r r' answers.
Proof using Type*.
  intros Hi Ht Hpos Hl. revert r Hi. induction ts as [|t ts IH]; intros r Hi; cbn [renewals].
  { by split; try done; intros * ?%elem_of_nil. }
  destruct (reg_renew now later (tun_routing_key t) sid ttl r) as [r1 res] eqn:E.
  destruct (renew_step _ _ _ _ _ _ _ _ Hi Ht Hpos Hl E) as (Hi1 & Hb & Ho & Hx & Hk & Hn).
  specialize (IH r1 Hi1). destruct (renewals _ _ _ _ ts r1) as [r' answers].
  destruct IH as [Q1 Q2 Q3 Q4 Q5 Q6]. split.
  - done.
  - intros t' b [[= -> Hres]|Hin]%elem_of_cons; [by apply Hb|]. rewrite (Q2 t' b Hin).
    split; intros [rec Hr]; exists rec; by apply Ho.
  - intros k rec. by rewrite Ho.
  - intros t' rec u [[= -> Hres]|Hin]%elem_of_cons Hr Hu; [|apply (Q4 _ _ _ Hin); [by apply Ho|done]].
    apply Q5; [by apply Ho|done|by apply Hx].
  - intros k rec u Hr Hu Hv. apply Q5; [by apply Ho|done|by apply Hk].
  - intros k u Hno Hu. simpl in Hno. rewrite not_elem_of_cons in Hno. rewrite Q6; [| |done].
    + apply Hn; [done|]. destruct (decide (k = tun_routing_key t)) as [->|]; [right|by left].
      destruct Hno as [Hno|[? _]]; done.
    + destruct Hno as [Hno|[_ ?]]; [left|by right]. intros rec Hr. by apply (Hno rec), Ho.
Qed.

Lemma renewals_tunnels now later ttl sid ts r : (renewals now later sid ttl ts r).2.*1 = ts.
Proof using Type.
  revert r. induction ts as [|t ts IH]; intros r; cbn [renewals]; [done|].
  destruct (reg_renew _ _ _ _ _ _) as [r1 res]. specialize (IH r1).
  destruct (renewals _ _ _ _ ts r1). simpl in *. by f_equal.
Qed.

Lemma run_heartbeat_tick i ttl nonce time (s : AppState) x s' :
  session_objs s !! i = Some x → run (heartbeat_tick i ttl nonce time) s = (s', Ret true) →
  let '(r, answers) := renewals (clock s) (clock_later s) (ses_id x) ttl (session_tunnels x) (registry s) in
  ∃ x', s' = put_session i x' (with_registry r s) ∧
    dropped (lost_tunnels answers) (Ok (Some (SPing nonce time)) :: (lost_frame <$> lost_tunnels answers)) x x'.
Proof using Type.
  intros Hx Hr. unfold heartbeat_tick in Hr. erewrite run_session_send in Hr by done.
  destruct (ch_send _ (outbound x)) as [[o ok]|] eqn:Es; [|done]. destruct ok; [|done]. cbn [negb] in Hr.
  pose proof (dropped_sent _ _ _ Es) as D1.
  assert (ch_receiver (ch_view (outbound (with_outbound o x))) = true) as Hrx.
  { destruct D1 as (_ & _ & _ & ->). by eapply sent_received. }
  erewrite run_bind in Hr by (apply run_query_session; by eapply put_session_get).
  apply run_bind_inv in Hr as (s1 & [] & E & [= <-]).
  pose proof (run_renew_tunnels i ttl _ _ (with_outbound o x) s1 ltac:(by eapply put_session_get) Hrx E) as Hn.
  simpl in Hn. destruct (renewals _ _ _ _ _ _) as [r answers]. destruct Hn as (x' & -> & D2).
  exists x'. split; [|by apply (dropped_trans [] _ [_] _ _ _ _ D1 D2)].
  unfold put_session, with_registry, with_sessions. simpl. by rewrite list_insert_insert_eq.
Qed.
End facts.

(** ** Properties *)

(** What a session object is when it is accepted. *)
Definition fresh_session_object `{Tokio} `{Rng} {R A} (s : AppState (R:=R) (A:=A)) (principal : Principal)
    (x : Session) : Prop :=
  let id := session_id (draws s) in
  ses_id x = id ∧ ses_principal x = principal ∧ streams x = ∅ ∧ tunnels x = ∅ ∧
  initial_window x = window_bytes (config s) ∧
  ch_view (outbound x) = mkChan [Ok (welcome_frame s id (limits principal))] OUTBOUND_QUEUE 1 true.

Lemma run_accept_session `{Tokio} `{Rng} {R A} `{AuthProvider A} hello principal (s : AppState (R:=R) (A:=A)) :
  (hello_protocol_version hello =? PROTOCOL_VERSION)%Z = true →
  authenticate (auth s) (hello_token hello) = Ok principal →
  ∃ s' x, run (accept_session hello) s = (s', Ret (Ok (length (session_objs s)))) ∧
    registry s' = registry s ∧
    (config s' = config s ∧ clock s' = clock s ∧ clock_later s' = clock_later s ∧
     st_node_addr s' = st_node_addr s) ∧
    sessions s' = <[session_id (draws s) := length (session_objs s)]> (sessions s) ∧
    session_objs s' = session_objs s ++ [x] ∧ fresh_session_object s principal x.
Proof.
  intros Hver Hauth. unfold accept_session. rewrite Hver. cbn [negb].
  rewrite run_query, Hauth.
  rewrite run_draw, run_query. set (s0 := with_draws (draws s + RANDOM_LEN) s).
  set (x0 := session_new _ _ _ _). unfold allocate_session. rewrite run_atomic. cbn [fst snd].
  set (s1 := with_sessions (sessions s0) (session_objs s0 ++ [x0]) s0).
  assert (session_objs s1 !! length (session_objs s0) = Some x0) as Hx by (by apply list_lookup_middle).
  rewrite (run_session_send _ _ _ _ _ Hx).
  pose proof (ch_send_view (Ok (welcome_frame s0 (session_id (draws s)) (limits principal)))
                (outbound x0)) as Hv.
  assert (ch_view (outbound x0) = mkChan [] OUTBOUND_QUEUE 1 true) as Hq by apply ch_channel_view.
  rewrite Hq in Hv. unfold send_spec in Hv. cbn [ch_receiver ch_queue ch_capacity negb] in Hv.
  rewrite decide_True in Hv by (unfold OUTBOUND_QUEUE; simpl; lia).
  destruct (ch_send _ (outbound x0)) as [[o ok]|]; [|done].
  injection Hv as Ho ->. cbn [negb]. unfold modify. rewrite run_atomic. simpl.
  eexists _, (with_outbound o x0). split; [reflexivity|].
  split_and!; try done. simpl. by rewrite insert_app_r_alt, Nat.sub_diag by lia.
Qed.

(** C19: nothing is allocated for a peer that has not authenticated: unless the
    first frame is a [Hello] of the server's protocol version with a token the
    provider accepts, the node's state is unchanged and the call fails with the
    matching status; otherwise exactly one empty session of that principal exists
    and is registered, and its first frame to the agent is the [Welcome] with the
    principal's limits. *)
Theorem handshake_gate `{Tokio} `{Rng} {R A} `{AuthProvider A}
    inbound (s : AppState (R:=R) (A:=A)) :
  let '(s', t) := run (session inbound) s in
  match inbound with
  | Ok (Some (CHello hello)) :: _ =>
      match (hello_protocol_version hello =? PROTOCOL_VERSION)%Z,
            authenticate (auth s) (hello_token hello) with
      | true, Ok principal =>
          let id := session_id (draws s) in
          t = Ret (Ok (length (session_objs s))) ∧ registry s' = registry s ∧
          sessions s' = <[id := length (session_objs s)]> (sessions s) ∧
          ∃ x, session_objs s' = session_objs s ++ [x] ∧ ses_id x = id ∧
            ses_principal x = principal ∧ streams x = ∅ ∧ tunnels x = ∅ ∧
            initial_window x = window_bytes (config s) ∧
            ch_queue (ch_view (outbound x)) = [Ok (welcome_frame s id (limits principal))]
      | true, Err e => s' = s ∧ t = Ret (Err (mkStatus Unauthenticated (error_to_string e)))
      | false, _ => s' = s ∧ ∃ message, t = Ret (Err (mkStatus FailedPrecondition message))
      end
  | _ => s' = s ∧ ∃ status, t = Ret (Err status)
  end.
Proof.
  destruct inbound as [|[[[hello| | | | | | | |]|]|status] rest]; try (split; [done|]; by eexists).
  unfold session.
  destruct (hello_protocol_version hello =? PROTOCOL_VERSION)%Z eqn:Hv;
    [|unfold accept_session; rewrite Hv; split; [done|by eexists]].
  destruct (authenticate (auth s) (hello_token hello)) as [principal|e] eqn:Ha;
    [|unfold accept_session; rewrite Hv; cbn [negb]; rewrite run_query, Ha; done].
  destruct (run_accept_session hello principal s Hv Ha) as (s' & x & -> & Hr & _ & Hs & Ho & Hx).
  split_and!; [done..|]. exists x. destruct Hx as (? & ? & ? & ? & ? & Hq). split_and!; try done.
  by rewrite Hq.
Qed.

(** C29: nobody serves a reserved name of the base domain without being granted
    it: when a request resolves to the host of a reserved label, the principal
    holds that label or a custom-domain grant for the very host. *)
Theorem reserved_labels_protected `{Rng} config principal seed spec h url l b :
  resolve_http_target config principal seed spec = Ok (Host h, url) →
  normalize_host (base_domain config) = Ok b → h = l ++ lit "." ++ b →
  is_reserved_subdomain l = true →
  may_claim_subdomain principal l = true ∨ may_use_custom_domain principal h = true.
Proof.
  intros Hr Hb Hh Hres. unfold resolve_http_target in Hr.
  apply res_bind_Ok in Hr as (h' & Hr & [= -> _]).
  assert (∀ sub, public_host sub (base_domain config) = Ok h → validate_subdomain_syntax sub = Ok l) as Hpub.
  { intros sub (l' & b' & Hl & Hb' & He & _)%public_host_Ok. rewrite Hb in Hb'.
    injection Hb' as <-. rewrite Hh in He. apply app_inj_2 in He as [<- _]; [done|].
    rewrite !length_app. lia. }
  destruct (bool_decide (spec_custom_domain spec = [])); simpl in Hr.
  - destruct (bool_decide (spec_subdomain spec = [])).
    + apply Hpub in Hr. destruct (random_subdomain_ok seed) as [Hrand _].
      apply validate_subdomain_Ok in Hrand as (He & Hv & Hnr).
      apply validate_subdomain_syntax_Ok in Hr as [-> Hv']. rewrite <- He in Hres.
      rewrite is_reserved_lower in Hres; [by apply bool_decide_eq_true in Hres|].
      by destruct (valid_label_inv _ Hv) as (_ & _ & _ & ? & _).
    + apply res_bind_Ok in Hr as (label & Hlab & Hr).
      destruct (is_reserved_subdomain label && negb (may_claim_subdomain principal label)) eqn:G; [done|].
      apply Hpub in Hr. apply validate_subdomain_syntax_Ok in Hlab as [_ Hv].
      rewrite (validate_label_id _ Hv) in Hr. injection Hr as ->. rewrite Hres in G. left.
      by destruct (may_claim_subdomain principal l).
  - apply res_bind_Ok in Hr as (d & Hd & Hr).
    destruct (may_use_custom_domain principal d) eqn:G; [|done]. simpl in Hr.
    injection Hr as ->. by right.
Qed.

Definition demo_admin : Principal :=
  mkPrincipal (lit "acct_1") (lit "test") [lit "admin"] [] default_limits.

Lemma reserved_labels_protected_witness :
  (∃ url, @resolve_http_target modular_rng default_config demo_admin 0
     (mkHttpSpec (lit "Admin") [] [] false) = Ok (Host (lit "admin.localhost"), url)) ∧
  (may_claim_subdomain demo_admin (lit "admin") = true ∨
   may_use_custom_domain demo_admin (lit "admin.localhost") = true).
Proof.
  split; [eexists; vm_compute; reflexivity|].
  eapply (@reserved_labels_protected modular_rng default_config demo_admin 0
            (mkHttpSpec (lit "Admin") [] [] false) _ _ (lit "admin") (lit "localhost"));
    vm_compute; reflexivity.
Defined.

(** C18: registering a tunnel (on any backend): accepted exactly with the lease of
    the resolved key taken in this session's name, the tunnel recorded on the
    session within its limit, and the status naming both; rejected with the
    session untouched and, unless the backend failed after executing the claim,
    no lease changed. *)
Theorem register_tunnel_spec `{Tokio} `{Rng} {R A} `{RegistryContract R} i open
    (s : AppState (R:=R) (A:=A)) x :
  session_objs s !! i = Some x → reg_inv (registry s) →
  (∀ record url, requested_record s x open = Ok (record, url) → reg_wf record) →
  reg_ttl (route_ttl (config s)) → (clock s ≤ clock_later s)%Z →
  ∃ s' st, run (register_tunnel i open) s = (s', Ret st) ∧ reg_inv (registry s') ∧
    if ts_accepted st
    then ∃ record url, requested_record s x open = Ok (record, url) ∧ at_tunnel_limit x = false ∧
         st = mkTunnelStatus (ot_request_id open) (rec_tunnel_id record) true [] url
                (routing_key record) ∧
         acquired_lease record s s' ∧ sessions s' = sessions s ∧
         session_objs s' = <[i := insert_tunnel
           (mkTunnel (rec_tunnel_id record) (routing_key record) url) x]> (session_objs s)
    else st = rejected (ot_request_id open) (ts_error st) ∧
         rejected_cleanly (fst <$> res_ok (requested_record s x open)) s s'.
Proof. apply run_register_tunnel. Qed.

(** A node on the process-local table with one session, which wants [sub]. *)
Definition demo_node (tuns : gmap str Tunnel) (reg : MemoryRegistry)
  : @AppState view_tokio MemoryRegistry StaticTokenAuth :=
  @mkAppState view_tokio _ _ default_config (lit "node_1") (lit "10.0.0.1:7100") reg
    static_token_auth_anonymous {[ lit "sess_1" := 0 ]}
    [@with_tunnels view_tokio tuns (demo_session 0 65536)] 1000 1000 0.
Definition demo_request (sub : str) : OpenTunnel :=
  mkOpenTunnel (lit "req_1") (Some (SpecHttp (mkHttpSpec sub [] (lit "127.0.0.1:3000") false))).

Lemma register_tunnel_spec_witness :
  ∃ s' st, run (@register_tunnel view_tokio modular_rng _ _ _ 0 (demo_request (lit "myapp")))
             (demo_node ∅ memory_registry_new) = (s', Ret st) ∧
    ts_accepted st = true ∧ reg_inv (@registry view_tokio _ _ s').
Proof.
  destruct (@register_tunnel_spec view_tokio modular_rng MemoryRegistry StaticTokenAuth _ _ _ 0
              (demo_request (lit "myapp")) (demo_node ∅ memory_registry_new)
              (@with_tunnels view_tokio ∅ (demo_session 0 65536)))
    as (s' & st & Hr & Hi & _); [reflexivity|done|done|done|done|].
  exists s', st. split; [exact Hr|]. split; [|exact Hi].
  transitivity (match (run (@register_tunnel view_tokio modular_rng _ _ _ 0 (demo_request (lit "myapp")))
             (demo_node ∅ memory_registry_new)).2 with Ret st => ts_accepted st | _ => false end).
  - by rewrite Hr.
  - vm_compute. reflexivity.
Defined.

(** C22: when a session ends, its streams are all closed, it leaves the session
    table, and the routing table changes only by giving up what this session held
    under its own tunnels' keys: a key a newer session has taken over keeps its
    lease. If the backend answers, none of its tunnels' keys stays with it. *)
Theorem teardown_spec `{Tokio} `{MapIteration} {R A} `{RegistryContract R} i
    (s : AppState (R:=R) (A:=A)) x :
  session_objs s !! i = Some x → reg_inv (registry s) →
  ∃ s' x', run (teardown i) s = (s', Ret tt) ∧
    session_objs s' = <[i := x']> (session_objs s) ∧ streams x' = ∅ ∧
    sessions s' = delete (ses_id x) (sessions s) ∧
    only_own_released (ses_id x) (clock s) (map tun_routing_key (session_tunnels x))
      (registry s) (registry s') ∧
    (releases_answered (R:=R) → ∀ t, t ∈ session_tunnels x →
       ∀ rec, ¬ owned (clock s) (tun_routing_key t) (ses_id x) (registry s') rec).
Proof. apply run_teardown. Qed.

Lemma memory_releases_answered : releases_answered (R:=MemoryRegistry).
Proof. intros now k sid r. simpl. unfold mem_release. repeat case_match; eauto. Qed.

(** Two tunnels of the session on one host, the second registered last. *)
Definition twin_key : str := lit "myapp.localhost".
Definition twin_tunnels : gmap str Tunnel :=
  {[ lit "tun_a" := mkTunnel (lit "tun_a") twin_key (lit "https://myapp.localhost");
     lit "tun_b" := mkTunnel (lit "tun_b") twin_key (lit "https://myapp.localhost") ]}.
Definition twin_registry : MemoryRegistry :=
  mkMemoryRegistry {[ twin_key := (mkRouteRecord twin_key (lit "node_1") (lit "10.0.0.1:7100")
                                     (lit "sess_1") (lit "tun_b") (lit "acct_1"), 46000%Z) ]}.
Definition twin_node := demo_node twin_tunnels twin_registry.
Definition twin_session : @Session view_tokio :=
  @with_tunnels view_tokio twin_tunnels (demo_session 0 65536).

Lemma twin_registry_inv : mem_inv twin_registry.
Proof. by apply map_Forall_singleton. Qed.

Lemma teardown_spec_witness :
  ∃ s', run (@teardown view_tokio sorted_iteration MemoryRegistry _ StaticTokenAuth 0) twin_node
          = (s', Ret tt) ∧
    @sessions view_tokio _ _ s' = ∅ ∧ reg_view 1000 (@registry view_tokio _ _ s') twin_key = None.
Proof.
  destruct (@teardown_spec view_tokio sorted_iteration MemoryRegistry StaticTokenAuth _ _ _ 0
              twin_node twin_session) as (s' & x' & Hr & _ & _ & Hs & Ho & Hn);
    [reflexivity|apply twin_registry_inv|].
  exists s'. split; [exact Hr|]. split; [rewrite Hs; vm_compute; reflexivity|].
  destruct (Ho twin_key) as [E|(_ & _ & E)]; [|by apply E].
  specialize (Hn memory_releases_answered
                (mkTunnel (lit "tun_a") twin_key (lit "https://myapp.localhost"))).
  destruct (reg_view 1000 (@registry view_tokio _ _ s') twin_key) as [rec|] eqn:Ev; [|done].
  destruct (Hn ltac:(apply (bool_decide_unpack _); vm_compute; exact I) rec).
  split; [exact Ev|]. rewrite E in Ev by done. vm_compute in Ev. by injection Ev as <-.
Defined.

(** C21: one heartbeat of a session, whether or not the backend answers: its tunnels
    are renewed one by one; exactly those whose renewal was answered "lost" are
    dropped, which happens only when the session does not hold the key, and the
    agent is told of each; a call that fails drops nothing. An answered renewal of a
    held key makes its lease last at least another lifetime; no renewal shortens a
    lease within that time; the session gains no key and loses none, and nobody
    else's lease changes. *)
Theorem heartbeat_spec `{Tokio} `{MapIteration} {R A} `{RegistryContract R} i ttl nonce time
    (s : AppState (R:=R) (A:=A)) x s' :
  session_objs s !! i = Some x → reg_inv (registry s) →
  reg_ttl ttl → (0 < ttl)%Z → (clock s ≤ clock_later s)%Z →
  run (heartbeat_tick i ttl nonce time) s = (s', Ret true) →
  let '(r, answers) := renewals (clock s) (clock_later s) (ses_id x) ttl (session_tunnels x) (registry s) in
  answers.*1 = session_tunnels x ∧ renewed (clock s) ttl (ses_id x) (registry s) r answers ∧
  ∃ x', s' = put_session i x' (with_registry r s) ∧
    dropped (lost_tunnels answers) (Ok (Some (SPing nonce time)) :: (lost_frame <$> lost_tunnels answers)) x x'.
Proof.
  intros Hx Hi Ht Hpos Hl Hr.
  pose proof (run_heartbeat_tick i ttl nonce time s x s' Hx Hr) as Hd.
  pose proof (renewals_renewed (clock s) (clock_later s) ttl (ses_id x) (session_tunnels x) (registry s)
                Hi Ht Hpos Hl) as Hn.
  pose proof (renewals_tunnels (clock s) (clock_later s) ttl (ses_id x) (session_tunnels x) (registry s)) as Ha.
  by destruct (renewals _ _ _ _ _ _).
Qed.

(** A session with three tunnels on Redis: the first renewal fails, the second finds
    the key with another session, the third succeeds. *)
Definition beat_record (host session : str) : RouteRecord :=
  mkRouteRecord host (lit "node_1") (lit "10.0.0.1:7100") session (lit "tun") (lit "acct_1").
Definition beat_entry (host session : str) (m : gmap str (str * Z)) : gmap str (str * Z) :=
  <[lit "norupo:" ++ lit "route:" ++ host := (encode (beat_record host session), 46000%Z)]> m.
Definition beat_registry : @RedisRegistry map_redis :=
  @mkRedisRegistry map_redis
    (beat_entry (lit "a.localhost") (lit "sess_1")
       (beat_entry (lit "b.localhost") (lit "sess_9") (beat_entry (lit "c.localhost") (lit "sess_1") ∅)))
    [Failed false (lit "timeout")] (lit "norupo:").
Definition beat_tunnel (id host : str) : Tunnel := mkTunnel id host (lit "https://" ++ host).
Definition beat_tunnels : gmap str Tunnel :=
  {[ lit "tun_a" := beat_tunnel (lit "tun_a") (lit "a.localhost");
     lit "tun_b" := beat_tunnel (lit "tun_b") (lit "b.localhost");
     lit "tun_c" := beat_tunnel (lit "tun_c") (lit "c.localhost") ]}.
Definition beat_session : @Session view_tokio := @with_tunnels view_tokio beat_tunnels (demo_session 0 65536).
Definition beat_node : @AppState view_tokio (@RedisRegistry map_redis) StaticTokenAuth :=
  @mkAppState view_tokio _ _ default_config (lit "node_1") (lit "10.0.0.1:7100") beat_registry
    static_token_auth_anonymous {[ lit "sess_1" := 0 ]} [beat_session] 1000 1000 0.

Lemma beat_registry_inv : reg_inv beat_registry.
Proof.
  assert (∀ host session, tab_free (beat_record host session) → ∀ k v e,
    lit "norupo:" ++ lit "route:" ++ host = lit "norupo:" ++ lit "route:" ++ k →
    (encode (beat_record host session), 46000%Z) = (v, e) →
    ∃ r, tab_free r ∧ v = encode r ∧ routing_key r = k) as Hentry.
  { intros host session Hf k v e Hk [= <- <-]. apply app_inv_head, app_inv_head in Hk as <-.
    by exists (beat_record host session). }
  intros k v e. simpl. unfold beat_entry, redis_key. cbn [prefix beat_registry].
  rewrite !lookup_insert_Some. intros [[Hk Hv]|[_ [[Hk Hv]|[_ [[Hk Hv]|[_ ?]]]]]]; [..|done];
    (eapply Hentry; [|exact Hk|exact Hv]); apply (bool_decide_unpack _); vm_compute; exact I.
Qed.

Lemma heartbeat_spec_witness :
  ∃ s' x', run (@heartbeat_tick view_tokio sorted_iteration (@RedisRegistry map_redis)
                   (@RedisRegistry_ops map_redis) StaticTokenAuth 0 45000 7 1000) beat_node
             = (s', Ret true) ∧ @session_objs view_tokio _ _ s' !! 0 = Some x' ∧
    @tunnels view_tokio x' !! lit "tun_a" = Some (beat_tunnel (lit "tun_a") (lit "a.localhost")) ∧
    @tunnels view_tokio x' !! lit "tun_b" = None ∧
    @tunnels view_tokio x' !! lit "tun_c" = Some (beat_tunnel (lit "tun_c") (lit "c.localhost")) ∧
    reg_view 45999 (@registry view_tokio _ _ s') (lit "a.localhost") =
      Some (beat_record (lit "a.localhost") (lit "sess_1")).
Proof.
  assert (match (run (@heartbeat_tick view_tokio sorted_iteration (@RedisRegistry map_redis)
                   (@RedisRegistry_ops map_redis) StaticTokenAuth 0 45000 7 1000) beat_node).2 with Ret b => b | Step _ => false end = true)
    as Hb by (vm_compute; reflexivity).
  destruct (run _ beat_node) as [s' [b|f]] eqn:E; [|discriminate Hb]. simpl in Hb. subst b.
  assert (@session_objs view_tokio _ _ beat_node !! 0 = Some beat_session) as Hx by reflexivity.
  assert (@reg_ttl (@RedisRegistry map_redis) _ 45000) as Ht45 by (split; reflexivity).
  assert (@clock view_tokio _ _ beat_node ≤ @clock_later view_tokio _ _ beat_node)%Z as Hclock by done.
  pose proof (@heartbeat_spec view_tokio sorted_iteration (@RedisRegistry map_redis) StaticTokenAuth
    (@RedisRegistry_ops map_redis) (@RedisRegistry_view map_redis) (@RedisRegistry_contract map_redis) 0
    45000 7 1000 beat_node beat_session s' Hx beat_registry_inv Ht45 ltac:(lia) Hclock E) as Hn.
  destruct (renewals _ _ _ _ _ _) as [r answers] eqn:Er in Hn.
  assert (answers = [(beat_tunnel (lit "tun_c") (lit "c.localhost"),
                      Err (unavailable (lit "renew") (lit "timeout")));
                     (beat_tunnel (lit "tun_b") (lit "b.localhost"), Ok false);
                     (beat_tunnel (lit "tun_a") (lit "a.localhost"), Ok true)]) as ->
    by (apply (f_equal snd) in Er; symmetry; etransitivity; [|exact Er]; vm_compute; reflexivity).
  destruct Hn as (_ & Hren & x' & -> & _ & Ht & _).
  exists (@put_session view_tokio _ _ 0 x' (@with_registry view_tokio _ _ r beat_node)), x'.
  assert (∀ id t, beat_tunnels !! id = Some t → id ≠ lit "tun_b" → @tunnels view_tokio x' !! id = Some t) as Hkept.
  { intros id t Hid Hne. apply Ht. split; [exact Hid|]. intros t' ->%list_elem_of_singleton.
    intros Heq. apply Hne. symmetry. exact Heq. }
  split_and!; [done|reflexivity|apply Hkept; [vm_compute; reflexivity|done]| |
               apply Hkept; [vm_compute; reflexivity|done]|].
  - destruct (@tunnels view_tokio x' !! lit "tun_b") as [t|] eqn:Et; [|done].
    apply Ht in Et as [_ Hno]. destruct (Hno (beat_tunnel (lit "tun_b") (lit "b.localhost"))); [left|done].
  - apply (rn_extended _ _ _ _ _ _ Hren (beat_tunnel (lit "tun_a") (lit "a.localhost")));
      [right; right; left|split; vm_compute; reflexivity|simpl; lia].
Defined.

(** A host is one lease however many tunnels name it: when a session holds two
    tunnels on one key, closing either frees the key while the other stays listed
    as live. *)
Theorem close_tunnel_orphans_twin `{Tokio} {R A} `{RegistryContract R} i a b t1 t2
    (s : AppState (R:=R) (A:=A)) x rec :
  session_objs s !! i = Some x → reg_inv (registry s) → a ≠ b →
  tunnels x !! a = Some t1 → tunnels x !! b = Some t2 →
  tun_routing_key t1 = tun_routing_key t2 →
  owned (clock s) (tun_routing_key t1) (ses_id x) (registry s) rec →
  releases_answered (R:=R) →
  ∃ s' x', run (close_tunnel i a) s = (s', Ret tt) ∧ session_objs s' !! i = Some x' ∧
    tunnels x' !! b = Some t2 ∧ reg_view (clock s) (registry s') (tun_routing_key t2) = None.
Proof.
  intros Hx Hi Hab Ha Hb Hk [Hv Hs] Hans.
  destruct (run_close_tunnel i a s x t1 Hx Hi Ha) as (s' & r & Hr & <- & _ & Ho & Hrel & Hn).
  eexists s', _. split; [exact Hr|]. rewrite Ho.
  split; [apply list_lookup_insert_eq; by eapply lookup_lt_Some|].
  split; [simpl; by rewrite lookup_delete_ne|]. rewrite <- Hk.
  destruct (Hrel (tun_routing_key t1)) as [E|(_ & _ & E)]; [|by apply E].
  destruct (Hn Hans rec). split; [|done]. by rewrite E.
Qed.

Lemma close_tunnel_orphans_twin_witness :
  ∃ s' x', run (@close_tunnel view_tokio MemoryRegistry _ StaticTokenAuth 0 (lit "tun_a")) twin_node
             = (s', Ret tt) ∧
    @session_objs view_tokio _ _ s' !! 0 = Some x' ∧
    @tunnels view_tokio x' !! lit "tun_b" =
      Some (mkTunnel (lit "tun_b") twin_key (lit "https://myapp.localhost")) ∧
    reg_view 1000 (@registry view_tokio _ _ s') twin_key = None.
Proof.
  eapply (@close_tunnel_orphans_twin view_tokio MemoryRegistry StaticTokenAuth _ _ _ 0
            (lit "tun_a") (lit "tun_b")
            (mkTunnel (lit "tun_a") twin_key (lit "https://myapp.localhost"))
            (mkTunnel (lit "tun_b") twin_key (lit "https://myapp.localhost"))
            twin_node twin_session).
  - reflexivity.
  - apply twin_registry_inv.
  - done.
  - vm_compute. reflexivity.
  - vm_compute. reflexivity.
  - reflexivity.
  - split; vm_compute; reflexivity.
  - exact memory_releases_answered.
Defined.
