(* ===== verification/Server.v ===== *)
(** * [norupo-server/src/lib.rs]: assembling a node, and the accept loop of [ingress.rs]

    Binding a socket and connecting to Redis are the environment's; what was bound
    and spawned, in order, is recorded. *)

From S2P Require Import Prelude RustStr Crates CoreError Routing Auth Ids Tokens ServerConfig.
From S2P Require Import Registry MemoryRegistry Async Proto Session Control.

Inductive Listener := PublicHttp | PeerHttp | ControlPlane.

Inductive StartEffect :=
| BoundListener (l : Listener) (addr : SocketAddr)
| SpawnedListener (l : Listener).

Section registry_choice.
Context {Redis : Type} (redis_feature : bool) (connect : str → str → result Redis str).

Definition build_registry (config : ServerConfig) : result (MemoryRegistry + Redis) str :=
  match redis_url config with
  | Some url =>
      if redis_feature then
        let? registry := map_err (λ e, lit "connecting to redis at " ++ url ++ lit ": " ++ e)
                                 (connect url (redis_prefix config)) in
        Ok (inr registry)
      else Err (lit "this build has the `redis-registry` feature disabled; rebuild with it to use --redis-url")
  | None => Ok (inl memory_registry_new)
  end.
End registry_choice.

Section server.
Context `{Tokio} `{Rng} {R : Type}.
Context (from_json : str → result (gmap str PrincipalFile) str) (read_to_string : str → result str str).
Context (bind : SocketAddr → result SocketAddr str).
Notation AppState := (AppState (R:=R) (A:=StaticTokenAuth)).

Record RunningServer := mkRunningServer {
  srv_http_addr : SocketAddr;
  srv_control_addr : SocketAddr;
  srv_peer_addr : SocketAddr;
  srv_state : AppState;
  srv_tasks : list Listener;
}.

Definition bind_listener (l : Listener) (what : str) (addr : SocketAddr)
    (k : SocketAddr → list StartEffect * result RunningServer str)
  : list StartEffect * result RunningServer str :=
  match bind addr with
  | Ok bound => let '(effects, r) := k bound in (BoundListener l bound :: effects, r)
  | Err e => ([], Err (what ++ socket_addr_to_string addr ++ lit ": " ++ e))
  end.

(** [seed] is the generator's position, [now] and [later] the clock. *)
Definition start_with_registry (config : ServerConfig) (registry : R) (seed : nat) (now later : Z)
  : list StartEffect * result RunningServer str :=
  let '(node_id, seed) := match cfg_node_id config with
                          | Some id => (id, seed)
                          | None => (node_id seed, seed + RANDOM_LEN)
                          end in
  match build_auth from_json read_to_string config with
  | Err e => ([], Err e)
  | Ok auth =>
      bind_listener PublicHttp (lit "binding public HTTP listener on ") (ServerConfig.http_addr config) (λ http_addr,
      bind_listener PeerHttp (lit "binding peer listener on ") (ServerConfig.peer_addr config) (λ peer_addr,
      bind_listener ControlPlane (lit "binding gRPC control listener on ") (ServerConfig.control_addr config) (λ control_addr,
        let node_addr := default (socket_addr_to_string peer_addr) (advertise_addr config) in
        let state := mkAppState config node_id node_addr registry auth ∅ [] now later seed in
        ([SpawnedListener PublicHttp; SpawnedListener PeerHttp; SpawnedListener ControlPlane],
         Ok (mkRunningServer http_addr control_addr peer_addr state [PublicHttp; PeerHttp; ControlPlane])))))
  end.
End server.

(** ** [ingress::serve] *)

(** What the accept loop's [select!] yields. *)
Inductive AcceptEvent (C : Type) := Accepted (connection : C) | AcceptFailed (e : str) | ShutdownChanged.
Arguments Accepted {C}.
Arguments AcceptFailed {C}.
Arguments ShutdownChanged {C}.

(** The connections that get a task of their own, and whether the loop returned. *)
Fixpoint serve {C} (events : list (AcceptEvent C)) : list C * bool :=
  match events with
  | [] => ([], false)
  | ShutdownChanged :: _ => ([], true)
  | AcceptFailed _ :: rest => serve rest
  | Accepted connection :: rest => let '(conns, finished) := serve rest in (connection :: conns, finished)
  end.

(** ** Properties *)

(** A node starts whole or not at all: nothing is spawned unless authentication is
    configured and all three listeners are bound; then the three are spawned, in
    order, over one state that has the configured identity (or a fresh one), no
    session, and an address siblings can be told: the one to advertise, else the one
    the peer listener was actually bound to, not the one that was asked for. *)
Theorem start_all_or_nothing `{Tokio} `{Rng} {R} from_json read_to_string bind config (registry : R)
    seed now later :
  let '(effects, r) := start_with_registry from_json read_to_string bind config registry seed now later in
  match r with
  | Err _ => ∀ l, SpawnedListener l ∉ effects
  | Ok server =>
      bind (ServerConfig.http_addr config) = Ok (srv_http_addr server) ∧
      bind (ServerConfig.peer_addr config) = Ok (srv_peer_addr server) ∧
      bind (ServerConfig.control_addr config) = Ok (srv_control_addr server) ∧
      effects = [BoundListener PublicHttp (srv_http_addr server);
                 BoundListener PeerHttp (srv_peer_addr server);
                 BoundListener ControlPlane (srv_control_addr server);
                 SpawnedListener PublicHttp; SpawnedListener PeerHttp; SpawnedListener ControlPlane] ∧
      build_auth from_json read_to_string config = Ok (auth (srv_state server)) ∧
      sessions (srv_state server) = ∅ ∧ session_objs (srv_state server) = [] ∧
      Control.registry (srv_state server) = registry ∧ Control.config (srv_state server) = config ∧
      st_node_id (srv_state server) = default (node_id seed) (cfg_node_id config) ∧
      st_node_addr (srv_state server) =
        default (socket_addr_to_string (srv_peer_addr server)) (advertise_addr config)
  end.
Proof.
  unfold start_with_registry, bind_listener.
  destruct (cfg_node_id config) as [id|];
    (destruct (build_auth from_json read_to_string config) as [auth|e]; [|intros l; apply not_elem_of_nil]);
    (destruct (bind (ServerConfig.http_addr config)) as [ha|e]; [|intros l; apply not_elem_of_nil]);
    (destruct (bind (ServerConfig.peer_addr config)) as [pa|e]; [|set_solver]);
    (destruct (bind (ServerConfig.control_addr config)) as [ca|e]; [|set_solver]);
    by split_and!.
Qed.

(** The accept loop outlives failed accepts: it hands every connection accepted
    before the shutdown to a task, in order, whatever fails in between, and returns
    exactly when the shutdown is signalled. *)
Lemma serve_spec {C} (events : list (AcceptEvent C)) (more : list (AcceptEvent C)) :
  (∀ e, e ∈ events → e ≠ ShutdownChanged) →
  serve (events ++ ShutdownChanged :: more) =
    (omap (λ e, match e with Accepted c => Some c | _ => None end) events, true) ∧
  serve events = (omap (λ e, match e with Accepted c => Some c | _ => None end) events, false).
Proof.
  induction events as [|e events IH]; intros He; [done|].
  destruct IH as [IH1 IH2]; [intros e' He'; apply He; by right|].
  destruct e as [c|err|]; cbn [serve app omap list_omap]; rewrite ?IH1, ?IH2; [done..|].
  by destruct (He ShutdownChanged (list_elem_of_here _ _)).
Qed.
