(* ===== verification/Ingress.v ===== *)
(** * [norupo-server/src/ingress.rs] and [peer.rs]: routing public requests

    A request's body is the sequence of frames its client will send. The body
    pump that [forward_local] spawns is a task of its own. A response's body is
    bytes, an agent's stream, or what a sibling node answered. *)

From S2P Require Import Prelude RustStr Crates CoreError Routing Auth Ids ServerConfig.
From S2P Require Import Registry MemoryRegistry RedisRegistry Async Proto Http Session Control.

Definition INTERNAL_PREFIX : str := lit "/__norupo/".

Inductive Role := Public | Peer.

#[export] Instance Role_eq_dec : EqDecision Role.
Proof. solve_decision. Defined.

(** [http::Uri], as far as the sources read it. *)
Record Uri := mkUri {
  uri_authority : option str;
  uri_path : str;
  uri_path_and_query : option str;
}.

(** A frame of a request body: data, trailers, or the client failing. *)
Inductive BodyFrame := DataFrame (bytes : str) | TrailersFrame | FailedFrame.

(** What the body of an agent's response yields. *)
Inductive OutFrame {T : Type} := OutData (bytes : str) | OutTrailers (trailers : T) | OutError (message : str).
Arguments OutFrame : clear implicits.

Inductive EdgeBody (U : Type) :=
| AgentBody (session : nat) (stream_id : Z) (object : nat)
| UpstreamBody (u : U).
Arguments AgentBody {U}.
Arguments UpstreamBody {U}.

Section ingress.
Context `{Tokio} `{MapIteration} `{HttpCrate} {R : Type} `{RegistryOps R} {A : Type} {U : Type}.
Notation AppState := (AppState (R:=R) (A:=A)).
Notation Response := (Response (EdgeBody U)).

Record Request := mkRequest {
  req_method : str;
  req_uri : Uri;
  req_version : str;
  req_headers : HeaderMap;
  req_body : list BodyFrame;
}.

Definition request_host (req : Request) : option str :=
  match uri_authority (req_uri req) with
  | Some authority => Some authority
  | None => v ← hm_get (lit "host") (req_headers req); value_to_str v
  end.

Definition request_host_from_parts (parts : Request) : option str :=
  match uri_authority (req_uri parts) with
  | Some authority => Some authority
  | None => v ← hm_get (lit "host") (req_headers parts); value_to_str v
  end.

Definition tunnel_not_found (routing_key : str) : Response :=
  let page := error_page 404 (lit "Tunnel not found")
    (lit "No agent is serving <code>" ++ html_escape routing_key ++
     lit "</code>. Start one with <code>norupo http 3000 --subdomain &lt;name&gt;</code>.") in
  mkResponse (status page)
    (hm_insert (lit "x-norupo-error") (lit "tunnel_not_found") (headers page)) (body page).

(** ** The edge's own endpoints; JSON rendering is serde's *)
Context (health_json : HealthResponse → str → str) (tunnels_json : list SessionSnapshot → str).

Definition plain_response (content_type body : str) : Response :=
  mkResponse 200 (hm_append (lit "content-type") content_type hm_new) (FullBody body).

Definition internal_endpoint (s : AppState) (role : Role) (path : str) : Response :=
  let path := trim_end_matches (is_char "/") path in
  if bool_decide (path = lit "/__norupo/healthz") then
    match role with
    | Public => plain_response (lit "text/plain; charset=utf-8") (lit "ok" ++ ["010"%char])
    | Peer => plain_response (lit "application/json") (health_json (health s) (st_node_addr s))
    end
  else if bool_decide (path = lit "/__norupo/tunnels") && bool_decide (role = Peer) then
    plain_response (lit "application/json") (tunnels_json (manager_snapshot_json s))
  else error_page 404 (lit "Not found") (lit "Unknown edge endpoint.").

(** ** Forwarding over a session of this node *)

Definition request_head (req : Request) : HttpRequestHead :=
  mkRequestHead (req_method req) (default (lit "/") (uri_path_and_query (req_uri req)))
    (default [] (request_host_from_parts req)) (sanitize_headers (req_headers req)) (req_version req)
    (default [] (v ← hm_get (lit "upgrade") (req_headers req); value_to_str v)).

(** The spawned body pump. *)
Fixpoint pump_body (i : nat) (stream_id : Z) (frames : list BodyFrame) : task AppState unit :=
  match frames with
  | [] => on_session i (send_stream_end stream_id) ;;! Ret tt
  | DataFrame data :: rest =>
      if bool_decide (data = []) then pump_body i stream_id rest
      else
        let! sent := on_session i (send_stream_data stream_id data) in
        if negb sent then Ret tt else pump_body i stream_id rest
  | TrailersFrame :: rest => pump_body i stream_id rest
  | FailedFrame :: _ => on_session i (reset_stream stream_id PeerClosed (lit "client body error"))
  end.

(** How the wait for the response head ends. *)
Inductive HeadWait := HeadArrived (head : HttpResponseHead) | HeadDropped | HeadTimedOut.

Definition await_head (i l : nat) (deadline : Z) : task AppState HeadWait :=
  await (λ s, x ← session_objs s !! i; st ← stream_objs x !! l;
              match os_recv (head_ch st) with
              | Some (Some head) => Some (s, HeadArrived head)
              | Some None => Some (s, HeadDropped)
              | None => if (deadline <=? clock s)%Z then Some (s, HeadTimedOut) else None
              end).

Definition response_status (n : Z) : Z :=
  default 502%Z (status_from_u16 (if (n <=? u16_max)%Z then n else 502%Z)).

Definition build_response (i : nat) (stream_id : Z) (l : nat) (head : HttpResponseHead) : Response :=
  mkResponse (response_status (rs_status head))
    (hm_insert (lit "x-norupo-stream") (dec stream_id) (to_header_map (rs_headers head)))
    (OtherBody (AgentBody i stream_id l)).

(** The frames an [AgentBody] yields, chunk by chunk. *)
Definition body_frame (reset_code_text : ResetCode → str) (chunk : Chunk) : OutFrame HeaderMap :=
  match chunk with
  | ChunkData bytes => OutData bytes
  | ChunkEnd trailers => OutTrailers (to_header_map trailers)
  | ChunkReset code message =>
      OutError (lit "tunnel stream reset: " ++ reset_code_text code ++ lit ": " ++ message)
  end.

(** [StreamGuard::drop], when the body of an agent's response is dropped. *)
Definition drop_guard (stream_id : Z) (x : Session) : Session :=
  (try_send (Some (SReset stream_id (reset_code_i32 PeerClosed) (lit "public client finished")))
     (close_stream stream_id x)).1.

(** [duration_debug] is the [Debug] text of a [Duration]. *)
Context (duration_debug : Z → str).

Definition finish_local (i : nat) (opened : StreamResponse) : task AppState Response :=
  let stream_id := resp_stream_id opened in
  let l := resp_object opened in
  let! '(start, timeout) := query (λ s, (clock s, response_timeout (config s))) in
  let! waited := await_head i l (start + timeout) in
  match waited with
  | HeadArrived head => Ret (build_response i stream_id l head)
  | HeadDropped =>
      on_session i (modify (close_stream stream_id)) ;;!
      on_session i (modify (drop_receivers l)) ;;!
      Ret (error_page 502 (lit "Local service unreachable")
             (lit "The agent could not reach the local service it is forwarding to."))
  | HeadTimedOut =>
      on_session i (reset_stream stream_id ResetTimeout (lit "edge response timeout")) ;;!
      on_session i (modify (drop_receivers l)) ;;!
      Ret (error_page 504 (lit "Tunnel timed out")
             (lit "The local service did not respond within " ++ duration_debug timeout ++ lit "."))
  end.

(** What a request becomes: an answer, or, from the [tokio::spawn] of the body pump
    on, two concurrent tasks, the second of which answers. *)
Inductive Served :=
| Answered (response : Response)
| Forked (pump : task AppState unit) (answer : task AppState Response).

Definition forward_local (i : nat) (record : RouteRecord) (req : Request) (remote_addr : str)
  : task AppState Served :=
  let! opened := on_session i (open_http_stream (rec_tunnel_id record) (request_head req) remote_addr) in
  match opened with
  | Err SessionGone => Ret (Answered (tunnel_not_found (routing_key record)))
  | Err (TooManyStreams limit) =>
      Ret (Answered (error_page 503 (lit "Too many concurrent requests")
             (lit "This tunnel is limited to " ++ dec limit ++ lit " concurrent requests.")))
  | Ok opened =>
      Ret (Forked (pump_body i (resp_stream_id opened) (req_body req)) (finish_local i opened))
  end.

(** ** Handing a request to a sibling: [PeerClient::forward]

    [parse_uri] is [str::parse::<Uri>]; [upstream] is the pooled HTTP client, its
    error an unreachable node. *)
Context (parse_uri : str → option Uri) (upstream : Request → result Response str).

(** The request as it is sent: the peer's URI, and the hop marked with this node's
    id ([HeaderValue::from_str] takes visible ASCII). *)
Definition hop_request (node_id : str) (uri : Uri) (req : Request) : Request :=
  mkRequest (req_method req) uri (req_version req)
    (hm_insert HOP_HEADER (default (lit "unknown") (value_to_str node_id)) (req_headers req))
    (req_body req).

Definition peer_uri (record : RouteRecord) (req : Request) : str :=
  lit "http://" ++ rec_node_addr record ++ default (lit "/") (uri_path_and_query (req_uri req)).

Definition forward (node_id : str) (record : RouteRecord) (req : Request) : Response :=
  match parse_uri (peer_uri record req) with
  | None => error_page 502 (lit "Bad peer address")
              (lit "The routing table names an edge node the cluster cannot address.")
  | Some uri =>
      match upstream (hop_request node_id uri req) with
      | Ok response => response
      | Err _ => error_page 502 (lit "Edge node unreachable")
                   (lit "The edge node holding this tunnel did not answer. It may have just restarted; retry shortly.")
      end
  end.

(** ** [handle]: first where a request goes, then going there *)
Inductive Decision :=
| Respond (response : Response)
| ServeLocally (session : nat) (record : RouteRecord)
| HandOff (record : RouteRecord).

Definition route_record (role : Role) (req : Request) (routing_key : str) (record : RouteRecord)
  : task AppState Decision :=
  let! s := query (λ s : AppState, s) in
  if bool_decide (rec_node_id record = st_node_id s) then
    match manager_get (rec_session_id record) s with
    | Some i => Ret (ServeLocally i record)
    | None =>
        call_registry (λ now _, reg_release now routing_key (rec_session_id record)) ;;!
        Ret (Respond (tunnel_not_found routing_key))
    end
  else if bool_decide (role = Peer) || hm_contains_key HOP_HEADER (req_headers req) then
    Ret (Respond (error_page 508 (lit "Routing loop")
      (lit "The edge cluster disagreed about which node owns this tunnel. Retry in a moment.")))
  else Ret (HandOff record).

Definition route (role : Role) (req : Request) : task AppState Decision :=
  if starts_with INTERNAL_PREFIX (uri_path (req_uri req)) then
    let! s := query (λ s : AppState, s) in
    Ret (Respond (internal_endpoint s role (uri_path (req_uri req))))
  else
    match request_host req with
    | None => Ret (Respond (error_page 400 (lit "Missing host")
        (lit "The request did not carry a <code>Host</code> header, so the edge cannot tell which tunnel it belongs to.")))
    | Some host =>
        match normalize_host host with
        | Err e => Ret (Respond (error_page 400 (lit "Invalid host") (html_escape (error_to_string e))))
        | Ok routing_key =>
            let! found := call_registry (λ now _, reg_lookup now routing_key) in
            match found with
            | Ok (Some record) => route_record role req routing_key record
            | Ok None => Ret (Respond (tunnel_not_found routing_key))
            | Err _ => Ret (Respond (error_page 502 (lit "Routing unavailable")
                (lit "The edge could not reach its routing table. This is a server-side problem; retry shortly.")))
            end
        end
    end.

Definition handle (peer_node_id : str) (role : Role) (req : Request) (remote_addr : str)
  : task AppState Served :=
  let! decision := route role req in
  match decision with
  | Respond response => Ret (Answered response)
  | ServeLocally i record => forward_local i record req remote_addr
  | HandOff record => Ret (Answered (forward peer_node_id record req))
  end.
End ingress.

(** ** Lemmas *)
Section routing_facts.
Context `{Tokio} `{MapIteration} `{HttpCrate} {R : Type} `{RegistryContract R} {A : Type} {U : Type}.
Context (health_json : HealthResponse → str → str) (tunnels_json : list SessionSnapshot → str).
Notation AppState := (AppState (R:=R) (A:=A)).
Notation route := (route (A:=A) (U:=U) health_json tunnels_json).

(** May the request be handed to another node? *)
Definition may_hop (role : Role) (req : Request) : bool :=
  negb (bool_decide (role = Peer) || hm_contains_key HOP_HEADER (req_headers req)).

(** Where a record sends a request. *)
Definition record_decision (s : AppState) (role : Role) (req : Request) (key : str)
    (record : RouteRecord) (d : Decision) : Prop :=
  if decide (rec_node_id record = st_node_id s) then
    match sessions s !! rec_session_id record with
    | Some i => d = ServeLocally (U:=U) i record
    | None => d = Respond (tunnel_not_found key)
    end
  else if may_hop role req then d = HandOff record
  else ∃ page, d = Respond page ∧ status page = 508%Z.

(** A record of this node whose session is gone. *)
Definition stale_here (s : AppState) (record : RouteRecord) : bool :=
  bool_decide (rec_node_id record = st_node_id s) &&
  bool_decide (sessions s !! rec_session_id record = None).

(** The table [r] after a request was routed by [record]: a stale record is given up. *)
Definition routed_table (s : AppState) (key : str) (record : RouteRecord) (r : R) : R :=
  if stale_here s record then (reg_release (clock s) key (rec_session_id record) r).1 else r.

(** What giving a stale record up does to the leases. *)
Definition stale_given_up (s : AppState) (key : str) (record : RouteRecord) (r r' : R) : Prop :=
  only_own_released (rec_session_id record) (clock s) [key] (registry s) r' ∧
  (is_ok (reg_release (clock s) key (rec_session_id record) r).2 = true →
   reg_view (clock s) r' key = None).

Lemma run_route_record role req key record (s : AppState) :
  ∃ d, run (route_record (U:=U) role req key record) s =
         (with_registry (routed_table s key record (registry s)) s, Ret d) ∧
       record_decision s role req key record d.
Proof using Type.
  unfold route_record, record_decision, may_hop, routed_table, stale_here. rewrite run_query.
  assert (with_registry (registry s) s = s) as Hs by (by destruct s).
  destruct (decide (rec_node_id record = st_node_id s)) as [Hn|Hn].
  - rewrite bool_decide_eq_true_2 by done. unfold manager_get.
    destruct (sessions s !! rec_session_id record) as [i|].
    + rewrite bool_decide_eq_false_2 by done. cbn [andb]. rewrite Hs. by eexists.
    + rewrite bool_decide_eq_true_2 by done. cbn [andb]. destruct (reg_release (clock s) key (rec_session_id record) (registry s)) as [r res] eqn:E.
      rewrite (run_call_registry _ _ _ r res) by exact E. by eexists.
  - rewrite bool_decide_eq_false_2 by done. cbn [andb]. rewrite Hs.
    destruct (bool_decide (role = Peer) || hm_contains_key HOP_HEADER (req_headers req)); simpl;
      eexists; (split; [reflexivity|]); [by eexists|done].
Qed.

(** What a lookup's answer makes of a request. *)
Definition lookup_decides (s : AppState) (role : Role) (req : Request) (key : str)
    (s' : AppState) (d : Decision) : Prop :=
  let '(r, found) := reg_lookup (clock s) key (registry s) in
  match found with
  | Err _ => s' = with_registry r s ∧ ∃ page, d = Respond page ∧ status page = 502%Z
  | Ok None => s' = with_registry r s ∧ d = Respond (tunnel_not_found key)
  | Ok (Some record) =>
      s' = with_registry (routed_table s key record r) s ∧ record_decision s role req key record d
  end.

Lemma run_route_host role req raw key (s : AppState) :
  starts_with INTERNAL_PREFIX (uri_path (req_uri req)) = false →
  request_host req = Some raw → normalize_host raw = Ok key →
  ∃ s' d, run (route role req) s = (s', Ret d) ∧ lookup_decides s role req key s' d.
Proof using Type.
  intros Hint Hhost Hkey. unfold Ingress.route, lookup_decides. rewrite Hint, Hhost, Hkey.
  destruct (reg_lookup (clock s) key (registry s)) as [r res] eqn:E.
  rewrite (run_call_registry _ _ _ r res) by exact E.
  destruct res as [[record|]|e]; [|by eexists _, _|eexists _, _; split; [done|]; split; [done|by eexists]].
  destruct (run_route_record role req key record (with_registry r s)) as (d & Hr & Hd).
  by eexists _, d.
Qed.

(** What the lookup of a routed request does to the leases, and what it says of them. *)
Lemma lookup_leases key (s : AppState) r found :
  reg_inv (registry s) → reg_lookup (clock s) key (registry s) = (r, found) →
  reg_inv r ∧ agree_from (clock s) (registry s) r ∧
  match found with
  | Err _ => True
  | Ok None => reg_view (clock s) (registry s) key = None
  | Ok (Some record) => reg_view (clock s) (registry s) key = Some record ∧
      (stale_here s record = true → stale_given_up s key record r (routed_table s key record r))
  end.
Proof using Type*.
  intros Hi E. destruct (lookup_contract _ _ _ _ _ Hi E) as (Hi' & Ha & Hres).
  split_and!; [done..|]. destruct found as [[record|]|]; [|by rewrite (Hres _ eq_refl)|done].
  pose proof (Hres _ eq_refl) as Hv. split; [done|]. intros Hst. unfold routed_table. rewrite Hst.
  destruct (reg_release (clock s) key (rec_session_id record) r) as [r1 res] eqn:Er.
  destruct (release_step _ _ _ _ _ _ Hi' Er) as (_ & Ho & Hn). unfold stale_given_up. rewrite Er.
  cbn [fst snd]. split.
  - intros k. destruct (Ho k) as [Hk|(Hk & (rec & Hv' & Hrs) & Hf)].
    + left. intros t Ht. rewrite (Hk t Ht). symmetry. by apply Ha.
    + right. split; [done|]. split; [|done]. exists rec. split; [|done]. rewrite <- Hv'. by apply Ha.
  - intros Hok. destruct res as [[]|]; [|done].
    destruct (Ho key) as [Hk|(_ & _ & Hf)]; [|by apply Hf].
    exfalso. apply (Hn eq_refl record). split; [|done]. rewrite Hk by done. rewrite Hv. symmetry. by apply Ha.
Qed.

(** The request is routed to [d]; when the table does not answer, it gets 502.
    Either way the leases are as before. *)
Definition routed_to (role : Role) (req : Request) (key : str) (s : AppState) (d : Decision) : Prop :=
  ∃ s' d', run (route role req) s = (s', Ret d') ∧
    (agree_from (clock s) (registry s) (registry s')) ∧
    match (reg_lookup (clock s) key (registry s)).2 with
    | Ok _ => d' = d
    | Err _ => ∃ page, d' = Respond page ∧ status page = 502%Z
    end.

(** A key that the table leases to [record] is routed by [record]. *)
Lemma run_route_leased role req raw record (s : AppState) d :
  starts_with INTERNAL_PREFIX (uri_path (req_uri req)) = false →
  request_host req = Some raw → normalize_host raw = Ok (routing_key record) →
  reg_inv (registry s) → reg_view (clock s) (registry s) (routing_key record) = Some record →
  stale_here s record = false →
  (∀ d', record_decision s role req (routing_key record) record d' → d' = d) →
  routed_to role req (routing_key record) s d.
Proof using Type*.
  intros Hint Hhost Hkey Hi Hv Hst Hd.
  destruct (run_route_host role req raw _ s Hint Hhost Hkey) as (s' & d' & Hr & Hl).
  exists s', d'. split; [done|]. unfold lookup_decides in Hl.
  destruct (reg_lookup (clock s) (routing_key record) (registry s)) as [r found] eqn:E.
  destruct (lookup_leases _ s _ _ Hi E) as (_ & Ha & Hf).
  destruct found as [[record'|]|]; cbn [snd].
  - destruct Hf as [Hv' _]. rewrite Hv in Hv'. injection Hv' as <-. destruct Hl as [-> Hl].
    unfold routed_table. rewrite Hst. split; [done|]. by apply Hd.
  - by rewrite Hv in Hf.
  - by destruct Hl as [-> Hl].
Qed.

(** The table of [s] is [r0] after calls that leave the lease which [record] took
    at [t0] for [ttl] alone, except its owner's renewals, and the lease is running. *)
Definition within_lease (record : RouteRecord) (t0 ttl : Z) (r0 : R) (s : AppState) : Prop :=
  let key := routing_key record in
  let sid := rec_session_id record in
  ∃ log rs, reg_run log r0 = (registry s, rs) ∧ kept_alive key sid t0 (t0 + ttl) log rs ∧
    (default t0 (ev_now <$> last log) ≤ clock s < final_expiry key sid (t0 + ttl) log rs)%Z.

Lemma within_lease_view record t0 ttl r0 (s : AppState) :
  reg_inv r0 → holds_until (routing_key record) record t0 (t0 + ttl) r0 →
  within_lease record t0 ttl r0 s →
  reg_inv (registry s) ∧ reg_view (clock s) (registry s) (routing_key record) = Some record.
Proof using Type*.
  intros Hi Hh (log & rs & Hrun & Hk & Ht).
  destruct (reg_run_respects _ _ _ _ _ _ _ _ Hi Hh Hrun Hk) as (Hi' & _ & t' & Hh' & ->).
  split; [done|]. by eapply holds_until_view.
Qed.

(** ** The marked request *)
Lemma hop_request_headers node_id uri req n :
  hm_get_all n (req_headers (hop_request node_id uri req)) =
  if decide (n = HOP_HEADER) then [default (lit "unknown") (value_to_str node_id)]
  else hm_get_all n (req_headers req).
Proof using Type.
  apply hm_get_all_insert.
  - rewrite header_name_token by done. done.
  - destruct (value_to_str node_id) as [v|] eqn:E; [by eapply visible_header_value|].
    rewrite header_value_spec. done.
Qed.

Lemma hop_request_marked node_id uri req :
  hm_contains_key HOP_HEADER (req_headers (hop_request node_id uri req)) = true.
Proof using Type.
  unfold hm_contains_key. by rewrite hop_request_headers, decide_True.
Qed.

(** What a sibling receives: origin form, with the path and the headers that were sent. *)
Definition received_as (sent received : Request) : Prop :=
  uri_authority (req_uri received) = None ∧
  uri_path (req_uri received) = uri_path (req_uri sent) ∧
  req_headers received = req_headers sent.

Lemma received_host node_id uri req received :
  uri_authority (req_uri req) = None → received_as (hop_request node_id uri req) received →
  request_host received = request_host req.
Proof using Type.
  intros Hn (Hr & _ & Hh). unfold request_host. rewrite Hn, Hr, Hh. unfold hm_get.
  by rewrite hop_request_headers, decide_False.
Qed.
End routing_facts.

(** ** Waiting for the response head *)
Section head_wait.
Context `{Tokio} `{MapIteration} `{HttpCrate} {R : Type} `{RegistryOps R} {A : Type} {U : Type}.
Notation AppState := (AppState (R:=R) (A:=A)).

Lemma response_status_spec n :
  (0 ≤ n)%Z → response_status n = if ((100 <=? n) && (n <? 1000))%Z then n else 502%Z.
Proof using Type.
  intros Hn. unfold response_status. rewrite status_from_u16_spec. unfold u16_max.
  destruct (Z.leb_spec n 65535).
  - by destruct (_ && _)%bool.
  - destruct (Z.ltb_spec n 1000); [lia|]. by rewrite andb_false_r.
Qed.

(** The waiting end of object [l] of session [i], as it was at some point. *)
Definition head_channel (i l : nat) (s : AppState) : option (oneshot_state HttpResponseHead) :=
  x ← session_objs s !! i; st ← stream_objs x !! l; Some (os_view (head_ch st)).

(** A step that closes stream [id] of session [i]. *)
Definition closes (i : nat) (id : Z) (p : AppState * AppState) : Prop :=
  ∃ x, session_objs p.1 !! i = Some x ∧ p.2 = put_session i (close_stream id x) p.1.

Lemma exec_modify_session {B} (E : AppState → AppState → Prop) i f (k : unit → task AppState B)
    (s : AppState) tr r s' :
  exec E (task_bind (on_session i (modify f)) k) s tr (Ret r) s' →
  ∃ s1 x tr', session_objs s1 !! i = Some x ∧ tr = (s1, put_session i (f x) s1) :: tr' ∧
    exec E (k tt) (put_session i (f x) s1) tr' (Ret r) s'.
Proof using Type.
  intros [(_ & ? & _)|(s1 & s2 & t1 & tr' & _ & Hf & -> & Hx)]%exec_Step; [done|].
  cbn in Hf. destruct (session_objs s1 !! i) as [x|] eqn:Ex; [|done].
  injection Hf as <- <-. by exists s1, x, tr'.
Qed.

Lemma exec_await_head {B} (E : AppState → AppState → Prop) i l deadline (k : HeadWait → task AppState B)
    (s : AppState) tr r s' :
  exec E (task_bind (await_head i l deadline) k) s tr (Ret r) s' →
  ∃ s1 c w tr', head_channel i l s1 = Some c ∧ tr = (s1, s1) :: tr' ∧
    exec E (k w) s1 tr' (Ret r) s' ∧
    match w with
    | HeadArrived head => os_value c = Some head
    | HeadDropped => os_value c = None ∧ os_sender c = false
    | HeadTimedOut => os_value c = None ∧ (deadline ≤ clock s1)%Z
    end.
Proof using Type.
  intros [(_ & ? & _)|(s1 & s2 & w & tr' & _ & Hf & -> & Hx)]%exec_await; [done|].
  unfold head_channel. destruct (session_objs s1 !! i) as [x|] eqn:Ex; [|done]. cbn in Hf |- *.
  destruct (stream_objs x !! l) as [st|] eqn:El; [|done]. cbn in Hf |- *.
  rewrite os_recv_view in Hf. unfold os_recv_spec in Hf.
  assert (s2 = s1) as -> by (repeat case_match; by simplify_eq).
  exists s1, (os_view (head_ch st)), w, tr'. rewrite Ex. cbn. rewrite El. split_and!; [done..|].
  destruct (os_value _) as [head|]; [by injection Hf as <-|].
  destruct (os_sender _); [|by injection Hf as <-].
  destruct (Z.leb_spec deadline (clock s1)); [|done]. by injection Hf as <-.
Qed.
End head_wait.

(** ** Properties *)

(** C16: where a request goes, on every branch: an internal path is answered by the
    edge; a request without a usable host gets 400; otherwise the answer of the
    table's lookup of the normalised host decides, and it alone: an error gives 502;
    no record, 404; a record of this node goes to the session that holds it, or,
    when that session is gone, its stale lease is given up and the answer is 404; a
    record of another node is handed off, unless the request may not hop again
    (508). An answered lookup reports the host's lease, and no lease but such a
    stale one changes. *)
Theorem route_spec `{Tokio} `{MapIteration} `{HttpCrate} {R A U} `{RegistryContract R}
    health_json tunnels_json role req (s : AppState (R:=R) (A:=A)) :
  reg_inv (registry s) →
  ∃ s' (d : Decision (U:=U)), run (route health_json tunnels_json role req) s = (s', Ret d) ∧
    if starts_with INTERNAL_PREFIX (uri_path (req_uri req))
    then s' = s ∧ d = Respond (internal_endpoint health_json tunnels_json s role (uri_path (req_uri req)))
    else match request_host req with
         | None => s' = s ∧ ∃ page, d = Respond page ∧ status page = 400%Z
         | Some host =>
             match normalize_host host with
             | Err _ => s' = s ∧ ∃ page, d = Respond page ∧ status page = 400%Z
             | Ok key =>
                 let '(r, found) := reg_lookup (clock s) key (registry s) in
                 agree_from (clock s) (registry s) r ∧
                 match found with
                 | Err _ => s' = with_registry r s ∧ ∃ page, d = Respond page ∧ status page = 502%Z
                 | Ok None => s' = with_registry r s ∧ d = Respond (tunnel_not_found key) ∧
                     reg_view (clock s) (registry s) key = None
                 | Ok (Some record) =>
                     s' = with_registry (routed_table s key record r) s ∧
                     record_decision s role req key record d ∧
                     reg_view (clock s) (registry s) key = Some record ∧
                     (stale_here s record = true →
                        stale_given_up s key record r (registry s'))
                 end
             end
         end.
Proof.
  intros Hi. destruct (starts_with INTERNAL_PREFIX (uri_path (req_uri req))) eqn:Hint.
  { eexists s, _. split; [unfold route; rewrite Hint; reflexivity|]. done. }
  destruct (request_host req) as [host|] eqn:Hhost; cycle 1.
  { eexists s, _. split; [unfold route; rewrite Hint, Hhost; reflexivity|]. split; [done|by eexists]. }
  destruct (normalize_host host) as [key|e] eqn:Hkey; cycle 1.
  { eexists s, _. split; [unfold route; rewrite Hint, Hhost, Hkey; reflexivity|].
    split; [done|by eexists]. }
  destruct (run_route_host (U:=U) health_json tunnels_json role req host key s Hint Hhost Hkey)
    as (s' & d & Hr & Hl).
  exists s', d. split; [done|]. unfold lookup_decides in Hl.
  destruct (reg_lookup (clock s) key (registry s)) as [r found] eqn:E.
  destruct (lookup_leases _ s _ _ Hi E) as (_ & Ha & Hf). split; [done|].
  destruct found as [[record|]|]; [|by destruct Hl|done].
  destruct Hl as [-> Hd], Hf as [Hv Hst]. by split_and!.
Qed.

(** A request for [app] at the node of [twin_node]. *)
Definition demo_uri : Uri := mkUri None (lit "/hello") (Some (lit "/hello?a=1")).
Definition host_headers (host : str) : @HeaderMap list_http :=
  @hm_append list_http (lit "host") host (@hm_new list_http).
Definition host_request (host : str) : @Request list_http :=
  @mkRequest list_http (lit "GET") demo_uri (lit "HTTP/1.1") (host_headers host) [].
Definition no_json1 (h : HealthResponse) (addr : str) : str := [].
Definition no_json2 (m : list SessionSnapshot) : str := [].

Definition twin_record : RouteRecord :=
  mkRouteRecord twin_key (lit "node_1") (lit "10.0.0.1:7100") (lit "sess_1") (lit "tun_b") (lit "acct_1").

Lemma route_spec_witness :
  ∃ s', run (@route view_tokio sorted_iteration list_http MemoryRegistry _ StaticTokenAuth unit
               no_json1 no_json2 Public (host_request (lit "MyApp.localhost:8080"))) twin_node
          = (s', Ret (ServeLocally 0 twin_record)).
Proof.
  destruct (@route_spec view_tokio sorted_iteration list_http MemoryRegistry StaticTokenAuth unit
              MemoryRegistry_ops MemoryRegistry_view MemoryRegistry_contract no_json1 no_json2 Public (host_request (lit "MyApp.localhost:8080")) twin_node
              twin_registry_inv) as (s' & d & Hr & Hd).
  exists s'. rewrite Hr. do 2 f_equal.
  set (host := request_host _) in Hd. vm_compute in host. subst host. cbv beta iota in Hd.
  set (key := normalize_host _) in Hd. vm_compute in key. subst key. cbv beta iota in Hd.
  change (starts_with INTERNAL_PREFIX _) with false in Hd. cbv iota in Hd.
  destruct (reg_lookup _ _ _) as [r found] eqn:E in Hd. apply (f_equal snd) in E. vm_compute in E.
  subst found. destruct Hd as (_ & _ & Hd & _). exact Hd.
Defined.

(** C25: a request crosses at most one node boundary: on the peer listener, or once
    it carries the hop header, it is never handed off, whatever the table says and
    whatever else happens; and everything a node hands off carries that header. *)
Theorem at_most_one_hop `{Tokio} `{MapIteration} `{HttpCrate} {R A U} `{RegistryOps R}
    health_json tunnels_json E role req (s : AppState (R:=R) (A:=A)) tr (d : Decision (U:=U)) s' :
  exec E (route health_json tunnels_json role req) s tr (Ret d) s' →
  (∀ node_id uri original, hm_contains_key HOP_HEADER
     (req_headers (hop_request node_id uri original)) = true) ∧
  (may_hop role req = false → ∀ record, d ≠ HandOff record).
Proof.
  intros Hx. split; [intros; apply hop_request_marked|]. intros Hhop record ->.
  unfold may_hop in Hhop. apply negb_false_iff in Hhop. unfold route in Hx.
  destruct (starts_with _ _).
  { apply exec_atomic in Hx as [(_ & ? & _)|(s1 & tr1 & _ & -> & Hx)]; [done|].
    by apply exec_Ret in Hx as (_ & ? & _). }
  destruct (request_host req) as [host|]; [|by apply exec_Ret in Hx as (_ & ? & _)].
  destruct (normalize_host host) as [key|e]; [|by apply exec_Ret in Hx as (_ & ? & _)].
  apply exec_atomic in Hx as [(_ & ? & _)|(s1 & tr1 & _ & -> & Hx)]; [done|].
  destruct (_.2) as [[rec|]|e]; [|by apply exec_Ret in Hx as (_ & ? & _)..].
  unfold route_record in Hx.
  apply exec_atomic in Hx as [(_ & ? & _)|(s2 & tr2 & _ & -> & Hx)]; [done|]. cbn [fst snd] in Hx.
  destruct (bool_decide _).
  - destruct (manager_get _ _); [by apply exec_Ret in Hx as (_ & ? & _)|].
    apply exec_atomic in Hx as [(_ & ? & _)|(s3 & tr3 & _ & -> & Hx)]; [done|].
    by apply exec_Ret in Hx as (_ & ? & _).
  - rewrite Hhop in Hx. by apply exec_Ret in Hx as (_ & ? & _).
Qed.

Lemma at_most_one_hop_witness :
  ∃ tr d s', exec (λ _ _, False)
      (@route view_tokio sorted_iteration list_http MemoryRegistry _ StaticTokenAuth unit
         no_json1 no_json2 Peer (host_request (lit "MyApp.localhost:8080")))
      twin_node tr (Ret d) s' ∧ ∀ record, d ≠ HandOff record.
Proof.
  destruct (run_exec (λ _ _, False)
      (@route view_tokio sorted_iteration list_http MemoryRegistry _ StaticTokenAuth unit
         no_json1 no_json2 Peer (host_request (lit "MyApp.localhost:8080"))) twin_node) as [tr Htr].
  destruct (run _ twin_node) as [s' [d|f]] eqn:E.
  - exists tr, d, s'. split; [exact Htr|].
    exact (proj2 (@at_most_one_hop view_tokio sorted_iteration list_http MemoryRegistry
             StaticTokenAuth unit _ no_json1 no_json2 (λ _ _, False) Peer
             (host_request (lit "MyApp.localhost:8080")) twin_node tr d s' Htr) eq_refl).
  - exfalso.
    assert (match (run (@route view_tokio sorted_iteration list_http MemoryRegistry _ StaticTokenAuth
                unit no_json1 no_json2 Peer (host_request (lit "MyApp.localhost:8080")))
              twin_node).2 with Ret _ => true | Step _ => false end = true) as Hb
      by (vm_compute; reflexivity).
    rewrite E in Hb. discriminate Hb.
Defined.


Lemma routed_answered `{Tokio} `{MapIteration} `{HttpCrate} {R A U} `{RegistryContract R}
    health_json tunnels_json role req key (s : AppState (R:=R) (A:=A)) (d : Decision (U:=U)) :
  routed_to health_json tunnels_json role req key s d →
  is_ok (reg_lookup (clock s) key (registry s)).2 = true →
  ∃ s', run (route health_json tunnels_json role req) s = (s', Ret d).
Proof.
  intros (s' & d' & Hr & _ & Hd) Hok. exists s'.
  destruct (reg_lookup _ _ _).2; [by rewrite Hr, Hd|done].
Qed.

(** A node that has a session and no tunnels yet. *)
Definition fresh_node : @AppState view_tokio MemoryRegistry StaticTokenAuth :=
  demo_node ∅ memory_registry_new.
Definition fresh_session : @Session view_tokio := @with_tunnels view_tokio ∅ (demo_session 0 65536).

(** Nodes on one Redis. [node_1] accepts [myapp]; then a rival claims the host and a
    lookup fails. *)
Definition redis_node (id : str) (now : Z) (reg : @RedisRegistry map_redis)
  : @AppState view_tokio (@RedisRegistry map_redis) StaticTokenAuth :=
  @mkAppState view_tokio _ _ default_config id (lit "10.0.0.1:7100") reg
    static_token_auth_anonymous {[ lit "sess_1" := 0 ]} [fresh_session] now now 0.
Definition redis_before := redis_node (lit "node_1") 1000
  (@mkRedisRegistry map_redis ∅ [RedisRegistry.Answered; RedisRegistry.Answered; Failed true (lit "reset")]
     (lit "norupo:")).
Definition redis_after :=
  (run (@register_tunnel view_tokio modular_rng _ _ _ 0 (demo_request (lit "myapp"))) redis_before).1.
Definition redis_record : RouteRecord :=
  match @requested_record view_tokio modular_rng _ _ redis_before fresh_session (demo_request (lit "myapp")) with
  | Ok (record, _) => record
  | Err _ => twin_record
  end.
Definition rival_log : list event :=
  [mkEvent 2000 2000 (OpClaim (mkRouteRecord twin_key (lit "node_2") (lit "10.0.0.2:7100")
                                 (lit "sess_9") (lit "tun_9") (lit "acct_9")) 45000);
   mkEvent 2500 2500 (OpLookup twin_key)].
Definition redis_later := (reg_run rival_log (@registry view_tokio _ _ redis_after)).1.
Definition handed_off : @Request list_http :=
  @hop_request list_http (lit "node_2") demo_uri (host_request (lit "MyApp.localhost:8080")).

Lemma redis_record_storable : tab_free redis_record.
Proof. apply (bool_decide_unpack _). vm_compute. exact I. Qed.

Lemma redis_alive id :
  within_lease redis_record 1000 45000 (@registry view_tokio _ _ redis_after)
    (redis_node id 3000 redis_later).
Proof.
  exists rival_log, (reg_run rival_log (@registry view_tokio _ _ redis_after)).2.
  split; [by destruct (reg_run rival_log (@registry view_tokio _ _ redis_after)) eqn:E; unfold redis_later; rewrite E|].
  split; [|by vm_compute; split].
  cbn [rival_log]. destruct (reg_run _ _).2 as [|r1 [|r2 [|]]] eqn:E; try (by vm_compute in E).
  split; [by vm_compute|]. split; [by vm_compute|]. split; [|by split; [vm_compute|]].
  split; [intros _ Hs; vm_compute in Hs; discriminate Hs|].
  split; [apply (bool_decide_unpack _)|]; by vm_compute.
Qed.


(** C24: the wait for a response ends in one of three ways, whatever else runs: the
    agent's head had arrived, and the answer is its status (out of range: 502), its
    headers and the stream's body; or the agent gave the stream up, and the answer
    is 502; or the timeout had passed without a head, and the answer is 504. In the
    last two cases the stream has been closed. *)
Theorem response_wait_spec `{Tokio} `{MapIteration} `{HttpCrate} {R A U} `{RegistryOps R}
    duration_debug (E : AppState (R:=R) (A:=A) → AppState (R:=R) (A:=A) → Prop) i opened
    (s : AppState (R:=R) (A:=A)) tr response s' :
  exec E (finish_local (U:=U) duration_debug i opened) s tr (Ret response) s' →
  ∃ s0 s1 c, (s0, s0) ∈ tr ∧ (s1, s1) ∈ tr ∧ head_channel i (resp_object opened) s1 = Some c ∧
    match os_value c with
    | Some head =>
        response = build_response i (resp_stream_id opened) (resp_object opened) head ∧
        ((0 ≤ rs_status head)%Z → status response =
           if ((100 <=? rs_status head) && (rs_status head <? 1000))%Z then rs_status head else 502%Z)
    | None =>
        (∃ p, p ∈ tr ∧ closes i (resp_stream_id opened) p) ∧
        ((status response = 502%Z ∧ os_sender c = false) ∨
         (status response = 504%Z ∧ (clock s0 + response_timeout (config s0) ≤ clock s1)%Z))
    end.
Proof.
  unfold finish_local.
  intros [(_ & ? & _)|(s0 & tr0 & _ & -> & Hx)]%exec_atomic; [done|]. cbn [fst snd] in Hx.
  apply exec_await_head in Hx as (s1 & c & w & tr1 & Hc & -> & Hx & Hw).
  exists s0, s1, c. split_and!; [left|right; left|done|]. destruct w as [head| |].
  - rewrite Hw. apply exec_Ret in Hx as (-> & [= ->] & _). split; [done|]. apply response_status_spec.
  - destruct Hw as [-> Hw].
    apply exec_modify_session in Hx as (s2 & x & tr2 & Hx2 & -> & Hx).
    apply exec_modify_session in Hx as (s3 & y & tr3 & _ & -> & Hx).
    apply exec_Ret in Hx as (-> & [= ->] & _).
    split; [|by left]. eexists. split; [right; right; left|]. by exists x.
  - destruct Hw as [-> Hw].
    apply exec_bind_inv in Hx as (? & s2 & tr2 & tr3 & Hr & Hx & ->).
    apply exec_modify_session in Hx as (s3 & y & tr4 & _ & -> & Hx).
    apply exec_Ret in Hx as (-> & [= ->] & _). split; [|by right].
    apply exec_Step in Hr as [(_ & ? & _)|(s4 & s5 & t1 & tr5 & _ & Hf & -> & _)]; [done|].
    cbn in Hf. destruct (session_objs s4 !! i) as [x'|] eqn:Ex; [|done].
    injection Hf as <- <-. eexists. split; [right; right; left|]. by exists x'.
Qed.

(** A node whose agent has given up stream 1 while the edge waits. *)
Definition no_debug (ms : Z) : str := [].
Definition gone_node : @AppState view_tokio MemoryRegistry StaticTokenAuth :=
  @put_session view_tokio _ _ 0
    (@close_stream view_tokio 1 (@register_stream view_tokio fresh_session).1) fresh_node.

Lemma response_wait_spec_witness :
  ∃ tr response s', exec (λ _ _, False)
      (@finish_local view_tokio list_http MemoryRegistry StaticTokenAuth unit no_debug 0
         (mkStreamResponse 1 0)) gone_node tr (Ret response) s' ∧
    ∃ s1 c, (s1, s1) ∈ tr ∧ @head_channel view_tokio _ _ 0 0 s1 = Some c.
Proof.
  destruct (run_exec (λ _ _, False) (@finish_local view_tokio list_http MemoryRegistry StaticTokenAuth
      unit no_debug 0 (mkStreamResponse 1 0)) gone_node) as [tr Htr].
  assert (match (run (@finish_local view_tokio list_http MemoryRegistry StaticTokenAuth
      unit no_debug 0 (mkStreamResponse 1 0)) gone_node).2
    with Ret _ => true | Step _ => false end = true) as Hb by (vm_compute; reflexivity).
  destruct (run _ gone_node) as [s' [response|f]]; [|discriminate Hb].
  exists tr, response, s'. split; [exact Htr|].
  destruct (@response_wait_spec view_tokio sorted_iteration list_http MemoryRegistry StaticTokenAuth
    unit _ no_debug (λ _ _, False) 0 (mkStreamResponse 1 0) gone_node tr response s' Htr)
    as (_ & s1 & c & _ & H1 & Hc & _).
  exists s1, c. by split.
Defined.

Definition public_answer `{HttpCrate} {U} (path : str) : Response (EdgeBody U) :=
  if bool_decide (trim_end_matches (is_char "/") path = lit "/__norupo/healthz")
  then plain_response (lit "text/plain; charset=utf-8") (lit "ok" ++ ["010"%char])
  else error_page 404 (lit "Not found") (lit "Unknown edge endpoint.").

Lemma public_internal `{Tokio} `{MapIteration} `{HttpCrate} {R A U} health_json tunnels_json
    (s : AppState (R:=R) (A:=A)) path :
  internal_endpoint (U:=U) health_json tunnels_json s Public path = public_answer path.
Proof.
  unfold internal_endpoint, public_answer. destruct (bool_decide (_ = lit "/__norupo/healthz")); [done|].
  by rewrite (bool_decide_eq_false_2 (Public = Peer)), andb_false_r.
Qed.

(** The public listener's answer to an internal path is the same whatever the
    node's state: probing it tells nothing about nodes, sessions or tunnels. *)
Theorem public_endpoint_hides_topology `{Tokio} `{MapIteration} `{HttpCrate} {R A U} `{RegistryOps R}
    health_json tunnels_json duration_debug parse_uri (upstream : Request → result (Response (EdgeBody U)) str)
    node_id req remote_addr :
  starts_with INTERNAL_PREFIX (uri_path (req_uri req)) = true →
  ∃ response, ∀ s : AppState (R:=R) (A:=A),
    run (handle health_json tunnels_json duration_debug parse_uri upstream node_id Public req
           remote_addr) s = (s, Ret (Answered response)).
Proof.
  intros Hint. exists (public_answer (uri_path (req_uri req))). intros s. unfold handle, route.
  rewrite Hint, <- (public_internal health_json tunnels_json s). reflexivity.
Qed.

Definition internal_request : @Request list_http :=
  @mkRequest list_http (lit "GET") (mkUri None (lit "/__norupo/healthz") None) (lit "HTTP/1.1")
    (host_headers (lit "MyApp.localhost:8080")) [].
Definition no_uri (text : str) : option Uri := None.
Definition no_upstream (req : @Request list_http)
  : result (@Response list_http (EdgeBody unit)) str := Err [].

Lemma public_endpoint_hides_topology_witness :
  ∃ response, ∀ s, run (@handle view_tokio sorted_iteration list_http MemoryRegistry _ StaticTokenAuth
      unit no_json1 no_json2 no_debug no_uri no_upstream (lit "node_1") Public internal_request
      (lit "1.2.3.4:5")) s = (s, Ret (Answered response)).
Proof.
  exact (@public_endpoint_hides_topology view_tokio sorted_iteration list_http MemoryRegistry
    StaticTokenAuth unit _ no_json1 no_json2 no_debug no_uri no_upstream (lit "node_1")
    internal_request (lit "1.2.3.4:5") eq_refl).
Defined.

(** The same request with its authority replaced. *)
Definition with_authority `{HttpCrate} (a : option str) (req : Request) : Request :=
  mkRequest (req_method req)
    (mkUri a (uri_path (req_uri req)) (uri_path_and_query (req_uri req)))
    (req_version req) (req_headers req) (req_body req).

(** A handed-off request does not carry the authority of the original: two HTTP/2
    requests for different hosts, with the host in [:authority] only, are routed by
    their hosts at the first node, but what the owning node receives, and therefore
    the answer, is the same for both. *)
Theorem forward_loses_authority `{HttpCrate} {U} parse_uri
    (upstream : Request → result (Response (EdgeBody U)) str) node_id record req a b uri :
  request_host (with_authority (Some a) req) = Some a ∧
  request_host (with_authority (Some b) req) = Some b ∧
  hop_request node_id uri (with_authority (Some a) req) =
    hop_request node_id uri (with_authority (Some b) req) ∧
  forward parse_uri upstream node_id record (with_authority (Some a) req) =
    forward parse_uri upstream node_id record (with_authority (Some b) req).
Proof. split_and!; reflexivity. Qed.
