(* ===== verification/Node.v ===== *)
(** * All the tasks of one edge node

    What runs on a node beside the read loop of one session: handshakes, other
    sessions, heartbeats, public requests with their body pumps and response
    bodies, and the clock. Any number of them run at once, in any interleaving. *)

From S2P Require Import Prelude RustStr Crates CoreError Routing Auth Ids ServerConfig.
From S2P Require Import Registry MemoryRegistry Async Proto Http Session Control Ingress.

(** ** What most calls on a session leave alone

    Frames are only added to the queue to the agent, each in [P]; no tunnel is
    added; if [V], no stream's upload credit changes; if [K], nothing is put in or
    read from the body channel of a stream, although its receiver may be dropped;
    if [D], no response head is put in a slot; the streams change as the methods of [Session] change them. *)
Section tame.
Context `{Tokio} `{MapIteration}.

Definition frame_queue (x : Session) : list (result ServerFrame Status) := ch_queue (ch_view (outbound x)).

Definition stream_credit (st : Stream) : Z := sem_permits (sem_view (send_credit st)).
Definition upload_credit (l : nat) (x : Session) : Z :=
  match stream_objs x !! l with Some st => stream_credit st | None => 0 end.

(** The body channel of an object, its contents, and whether someone may read it. *)
Definition body_chan (l : nat) (x : Session) : option (chan_state Chunk) :=
  (λ st, ch_view (body_ch st)) <$> stream_objs x !! l.
Definition buffered (l : nat) (x : Session) : list Chunk := from_option ch_queue [] (body_chan l x).
Definition listening (l : nat) (x : Session) : bool := from_option ch_receiver true (body_chan l x).

Definition untouched (l : nat) (x x' : Session) : Prop :=
  (listening l x' = listening l x ∧ buffered l x' = buffered l x) ∨
  (listening l x' = false ∧ buffered l x' = []).
Definition chan_kept {B} (v v' : chan_state B) : Prop :=
  (ch_receiver v' = ch_receiver v ∧ ch_queue v' = ch_queue v) ∨
  (ch_receiver v' = false ∧ ch_queue v' = []).

(** The head waiting in the slot of an object. *)
Definition head_in (l : nat) (x : Session) : option HttpResponseHead :=
  st ← stream_objs x !! l; os_value (os_view (head_ch st)).
Definition no_new_head (l : nat) (x x' : Session) : Prop := ∀ h, head_in l x' = Some h → head_in l x = Some h.

Definition tame (P : result ServerFrame Status → Prop) (V K D : Prop) (x x' : Session) : Prop :=
  rtc session_step x x' ∧ size (tunnels x') ≤ size (tunnels x) ∧
  ses_principal x' = ses_principal x ∧ (V → ∀ l, upload_credit l x' = upload_credit l x) ∧
  (K → ∀ l, untouched l x x') ∧ (D → ∀ l, no_new_head l x x') ∧
  ∃ fs, frame_queue x' = frame_queue x ++ fs ∧ Forall P fs.

Lemma untouched_trans l x y z : untouched l x y → untouched l y z → untouched l x z.
Proof using Type. intros [[]|[]] [[]|[]]; [left; split; congruence|right; split; congruence..]. Qed.

Lemma untouched_objs l x x' : stream_objs x' = stream_objs x → untouched l x x'.
Proof using Type. intros Ho. left. unfold listening, buffered, body_chan. by rewrite Ho. Qed.

Lemma untouched_alter l k f x x' :
  stream_objs x' = alter f k (stream_objs x) →
  (∀ st, stream_objs x !! k = Some st → chan_kept (ch_view (body_ch st)) (ch_view (body_ch (f st)))) →
  untouched l x x'.
Proof using Type.
  intros Ho Hf. unfold untouched, listening, buffered, body_chan. rewrite Ho.
  destruct (decide (l = k)) as [->|]; [|rewrite list_lookup_alter_ne by done; by left].
  rewrite list_lookup_alter_eq. destruct (stream_objs x !! k) as [st|]; [|by left]. by apply Hf.
Qed.

Lemma no_head_objs l x x' : stream_objs x' = stream_objs x → no_new_head l x x'.
Proof using Type. intros Ho h. unfold head_in. by rewrite Ho. Qed.

Lemma no_head_alter l k f x x' :
  stream_objs x' = alter f k (stream_objs x) →
  (∀ st h, os_value (os_view (head_ch (f st))) = Some h → os_value (os_view (head_ch st)) = Some h) →
  no_new_head l x x'.
Proof using Type.
  intros Ho Hf h. unfold head_in. rewrite Ho. destruct (decide (l = k)) as [->|].
  - rewrite list_lookup_alter_eq. destruct (stream_objs x !! k); [apply Hf|done].
  - by rewrite list_lookup_alter_ne.
Qed.

Lemma tame_silent {D : Prop} P V K x x' :
  session_step x x' → tunnels x' = tunnels x → ses_principal x' = ses_principal x →
  outbound x' = outbound x → (V → ∀ l, upload_credit l x' = upload_credit l x) →
  (K → ∀ l, untouched l x x') → (D → ∀ l, no_new_head l x x') → tame P V K D x x'.
Proof using Type.
  intros Hs Ht Hp Ho Hc Hk Hd. split_and!; [by apply rtc_once|by rewrite Ht|done..|].
  exists []. unfold frame_queue. by rewrite Ho, app_nil_r.
Qed.

#[export] Instance tame_preorder P V K D : PreOrder (tame P V K D).
Proof using Type.
  split.
  - intros x. apply tame_silent; [apply step_refl|done..|intros _ l; by apply untouched_objs|intros _ l; by apply no_head_objs].
  - intros x y z (Hs1 & Ht1 & Hp1 & Hc1 & Hk1 & Hd1 & fs1 & Hq1 & HP1)
      (Hs2 & Ht2 & Hp2 & Hc2 & Hk2 & Hd2 & fs2 & Hq2 & HP2).
    split_and!; [by etrans|lia|congruence|by intros HV l; rewrite Hc2, Hc1| |by intros HD l h ?; apply Hd1, Hd2|].
    { intros HK l. eapply untouched_trans; eauto. }
    exists (fs1 ++ fs2).
    rewrite Hq2, Hq1, app_assoc. split; [done|]. by apply Forall_app.
Qed.

Lemma tame_close {D : Prop} P V K id x : tame P V K D x (close_stream id x).
Proof using Type.
  apply tame_silent; [apply step_close|unfold close_stream; by case_match..| | |]; intros _ l.
  3: { unfold close_stream. destruct (streams x !! id) as [l'|]; [|by apply no_head_objs].
       eapply no_head_alter; [done|]. intros st h. cbn. destruct (head_tx st); [|done]. by rewrite os_drop_tx_view. }
  2: { unfold close_stream. destruct (streams x !! id) as [l'|]; [|by apply untouched_objs].
       eapply untouched_alter; [done|]. intros st _. left. cbn. by rewrite ch_drop_tx_view. }
  unfold close_stream. destruct (streams x !! id) as [l'|]; [|done]. unfold upload_credit. simpl.
  destruct (decide (l = l')) as [->|].
  - rewrite list_lookup_alter_eq. destruct (stream_objs x !! l'); [|done]. simpl.
    unfold stream_credit. simpl. by rewrite sem_close_view.
  - by rewrite list_lookup_alter_ne.
Qed.

Lemma tame_update {D : Prop} P (V K : Prop) l f x :
  quiet x (update_stream l f x) → (V → ∀ st, stream_credit (f st) = stream_credit st) →
  (K → ∀ st, stream_objs x !! l = Some st → chan_kept (ch_view (body_ch st)) (ch_view (body_ch (f st)))) →
  (D → ∀ st h, os_value (os_view (head_ch (f st))) = Some h → os_value (os_view (head_ch st)) = Some h) →
  tame P V K D x (update_stream l f x).
Proof using Type.
  intros Hq Hc Hk Hd. apply tame_silent; [by apply step_quiet|done..| | |].
  3: { intros HD k. eapply no_head_alter; [done|by apply Hd]. }
  2: { intros HK k. eapply untouched_alter; [done|by apply Hk]. }
  intros HV k. unfold upload_credit. simpl. destruct (decide (k = l)) as [->|].
  - rewrite list_lookup_alter_eq. destruct (stream_objs x !! l); [|done]. by apply Hc.
  - by rewrite list_lookup_alter_ne.
Qed.

Lemma tame_register {D : Prop} P K x : tame P False K D x (register_stream x).1.
Proof using Type.
  apply tame_silent; [right; by left|done..| |]; intros _ l.
  2: { intros h. unfold head_in, register_stream.
       cbn [stream_objs with_streams count_opened insert_entry fst]. intros Hh.
       apply bind_Some in Hh as (st & [Hst|[_ [_ <-]%list_lookup_singleton_Some]]%lookup_app_Some & Hh).
       - by rewrite Hst.
       - cbn in Hh. by rewrite os_channel_view in Hh. }
  left.
  unfold listening, buffered, body_chan, register_stream.
  cbn [stream_objs with_streams count_opened insert_entry fst].
  destruct (decide (l < length (stream_objs x))); [by rewrite lookup_app_l|].
  rewrite (lookup_ge_None_2 (stream_objs x)), lookup_app_r by lia.
  destruct (l - length (stream_objs x)) as [|[]]; [|done..]. cbn. by rewrite ch_channel_view.
Qed.

Lemma tame_queue {D : Prop} P V K f o x :
  P f → capacity o = capacity (outbound x) → (frame_queue (with_outbound o x) = frame_queue x ∨
         frame_queue (with_outbound o x) = frame_queue x ++ [f]) →
  tame P V K D x (with_outbound o x).
Proof using Type.
  intros Hf Hc Hq.
  split_and!; [by apply rtc_once, step_quiet, quiet_outbound|done..|intros _ l; by apply untouched_objs
    |intros _ l; by apply no_head_objs|].
  destruct Hq as [->| ->]; [exists []; by rewrite app_nil_r|exists [f]]. split; [done|by constructor].
Qed.

(** What [send] does to the queue. *)
Lemma send_queue (f : result ServerFrame Status) x o ok :
  ch_send f (outbound x) = Some (o, ok) →
  frame_queue (with_outbound o x) = if ok then frame_queue x ++ [f] else frame_queue x.
Proof using Type.
  intros Hs. pose proof (ch_send_view f (outbound x)) as Hv. rewrite Hs in Hv. simpl in Hv.
  unfold send_spec in Hv. unfold frame_queue. simpl.
  destruct (negb _); [by injection Hv as -> ->|].
  destruct (decide _); [|done]. by injection Hv as -> ->.
Qed.

(** A receiver takes what is first in the queue. *)
Lemma recv_front {B} (c o : mpsc B) f :
  ch_recv c = Some (o, Some f) → ch_queue (ch_view c) = f :: ch_queue (ch_view o).
Proof using Type.
  intros Hr. pose proof (ch_recv_view c) as Hv. rewrite Hr in Hv. simpl in Hv. unfold recv_spec in Hv.
  destruct (ch_queue (ch_view c)) as [|g q]; [by case_decide|]. by injection Hv as -> ->.
Qed.

Lemma tame_try_send {D : Prop} (P : result ServerFrame Status → Prop) V K frame x :
  P (Ok frame) → tame P V K D x (try_send frame x).1.
Proof using Type.
  intros Hf. unfold try_send. pose proof (ch_try_send_view (Ok frame : result ServerFrame Status) (outbound x)) as Hv.
  pose proof (try_send_capacity (Ok frame) (outbound x)) as Hc.
  destruct (ch_try_send (Ok frame) (outbound x)) as [o ok]. simpl in *.
  apply (tame_queue P V K (Ok frame)); [done..|]. unfold frame_queue. simpl.
  apply (f_equal fst) in Hv. simpl in Hv. rewrite Hv. unfold try_send_spec, send_spec.
  destruct (negb _); [by left|]. destruct (decide _); [by right|by left].
Qed.

(** ** The calls *)

Lemma follow_tame {D : Prop} (P : result ServerFrame Status → Prop) V K frame :
  P (Ok frame) → obeys (tame P V K D) (send frame).
Proof using Type.
  intros Hf. apply obeys_await. intros x x' a. destruct (ch_send _ _) as [[o ok]|] eqn:E; [|done].
  intros [= <- <-]. apply (tame_queue P V K (Ok frame)); [done|by eapply send_capacity|].
  rewrite (send_queue _ _ _ _ E). destruct ok; eauto.
Qed.

Lemma tame_query {A} {D : Prop} P V K (f : Session → A) : obeys (tame P V K D) (query f).
Proof using Type. by apply obeys_query. Qed.

Lemma tame_modify_close {D : Prop} P V K id : obeys (tame P V K D) (modify (close_stream id)).
Proof using Type. apply obeys_modify. intros x. apply tame_close. Qed.

Lemma tame_modify_update {D : Prop} P V K l (f : Stream → Stream) :
  (∀ st, stream_evolves st (f st)) → (V → ∀ st, stream_credit (f st) = stream_credit st) →
  (K → ∀ st, chan_kept (ch_view (body_ch st)) (ch_view (body_ch (f st)))) →
  (D → ∀ st h, os_value (os_view (head_ch (f st))) = Some h → os_value (os_view (head_ch st)) = Some h) →
  obeys (tame P V K D) (modify (update_stream l f)).
Proof using Type.
  intros Hf Hc Hk Hd. apply obeys_modify. intros x. apply tame_update; [by apply quiet_update|done| |done].
  intros HK st _. by apply Hk.
Qed.

Lemma tame_remove {D : Prop} P V K id : obeys (tame P V K D) (atomic (remove_tunnel id)).
Proof using Type.
  apply obeys_atomic. intros x. unfold remove_tunnel. destruct (tunnels x !! id) eqn:E; [|done].
  split_and!; [by apply rtc_once, step_quiet, quiet_tunnels| |done|done|intros _ l; by apply untouched_objs
    |intros _ l; by apply no_head_objs|].
  - simpl. rewrite map_size_delete, E. lia.
  - exists []. by rewrite app_nil_r.
Qed.

Lemma tame_close_all {D : Prop} P V K : obeys (tame P V K D) close_all_streams.
Proof using Type.
  apply obeys_bind; [apply tame_query|]. intros ids. induction ids as [|id ids IH]; [done|].
  by apply obeys_bind; [apply tame_modify_close|].
Qed.

Lemma tame_acquire {D : Prop} P K l n : obeys (tame P False K D) (acquire_credit l n).
Proof using Type.
  apply obeys_await. intros s s' a. destruct (stream_objs s !! l) as [st|] eqn:E; [|done].
  destruct (sem_acquire_many n (send_credit st)) as [[c ok]|] eqn:Ea; [|done].
  intros [= <- <-]. apply tame_update; [|done|by left|done]. apply quiet_update. intros st' Hst'. rewrite E in Hst'.
  injection Hst' as <-. apply evolves_credit. by eapply acquire_closed.
Qed.

Lemma tame_data {D : Prop} (P : result ServerFrame Status → Prop) K id payload :
  (∀ chunk, P (Ok (Some (SData id chunk)))) → obeys (tame P False K D) (send_stream_data id payload).
Proof using Type.
  intros HP. apply obeys_bind; [apply tame_query|]. intros [l|]; [|done].
  induction (split_chunks payload) as [|c cs IH]; [done|].
  apply obeys_bind; [apply tame_acquire|]. intros []; [|done].
  apply obeys_bind; [by apply follow_tame|]. by intros [].
Qed.

Lemma tame_reset {D : Prop} (P : result ServerFrame Status → Prop) V K id code message :
  (∀ c m, P (Ok (Some (SReset id c m)))) → obeys (tame P V K D) (reset_stream id code message).
Proof using Type.
  intros HP. apply obeys_bind; [apply tame_modify_close|]. intros _.
  by apply obeys_bind; [by apply follow_tame|].
Qed.

Lemma tame_grant {D : Prop} (P : result ServerFrame Status → Prop) V K id increment :
  P (Ok (Some (SWindowUpdate id increment))) → obeys (tame P V K D) (grant_window id increment).
Proof using Type. intros HP. unfold grant_window. case_match; [done|]. by apply follow_tame. Qed.

Lemma tame_body_sender {D : Prop} P V K id : obeys (tame P V K D) (atomic (stream_body_sender id)).
Proof using Type.
  apply obeys_atomic. intros x. unfold stream_body_sender.
  destruct (streams x !! id) as [l|]; [|reflexivity].
  destruct (stream_objs x !! l) as [st|] eqn:E; [|reflexivity].
  destruct (negb _); [|reflexivity]. apply tame_update; [|done| |done].
  - apply quiet_update. intros st' [= <-]%(eq_trans (eq_sym E)). apply evolves_body, clone_capacity.
  - intros _ st' [= <-]%(eq_trans (eq_sym E)). left. cbn. by rewrite ch_clone_view.
Qed.

Lemma tame_send_body {D : Prop} P V l chunk : obeys (tame P V False D) (send_body l chunk).
Proof using Type.
  apply obeys_await. intros x x' a. destruct (stream_objs x !! l) as [st|] eqn:E; [|done].
  destruct (ch_send _ _) as [[c ok]|] eqn:Es; [|done].
  intros [= <- <-]. apply tame_update; [|done..]. apply quiet_update.
  intros st' [= <-]%(eq_trans (eq_sym E)). eauto using evolves_body, send_capacity.
Qed.

Lemma tame_drop_body {D : Prop} P V K l : obeys (tame P V K D) (modify (drop_body_sender l)).
Proof using Type.
  apply tame_modify_update; [|done| |done].
  - intros st. apply evolves_body, drop_tx_capacity.
  - intros _ st. left. cbn. by rewrite ch_drop_tx_view.
Qed.

Lemma tame_on_data {D : Prop} P V id payload : obeys (tame P V False D) (on_stream_data id payload).
Proof using Type.
  apply obeys_bind; [apply tame_body_sender|]. intros [l|]; [|done].
  apply obeys_bind; [apply tame_send_body|]. intros [].
  - by apply obeys_bind; [apply tame_drop_body|].
  - apply obeys_bind; [apply tame_modify_close|]. intros _. by apply obeys_bind; [apply tame_drop_body|].
Qed.

Lemma tame_finish {D : Prop} P V id chunk : obeys (tame P V False D) (finish_stream id chunk).
Proof using Type.
  apply obeys_bind; [apply tame_body_sender|]. intros [l|];
    (apply obeys_bind; [|intros _; apply tame_modify_close]); [|done].
  apply obeys_bind; [apply tame_send_body|]. intros _. apply tame_drop_body.
Qed.

Lemma tame_on_head P V K head : obeys (tame P V K False) (modify (on_response_head head)).
Proof using Type.
  apply obeys_modify. intros x. unfold on_response_head. case_match; [|done].
  apply tame_update; [apply quiet_update; intros st _; apply evolves_sent| | |done].
  - intros _ st. by destruct (head_tx st).
  - intros _ st _. left. by destruct (head_tx st).
Qed.

Lemma tame_window {D : Prop} P K id increment : obeys (tame P False K D)
  (atomic (λ x, match on_window_update id increment x with Some x' => (x', true) | None => (x, false) end)).
Proof using Type.
  apply obeys_atomic. intros x. destruct (on_window_update id increment x) as [x'|] eqn:E; [|done].
  pose proof (quiet_window_update _ _ _ _ E) as Hq. unfold on_window_update in E.
  repeat (case_match; simplify_eq; try done). destruct (sem_add_permits _ _); [|done]. simpl in E.
  injection E as <-. apply tame_update; [done..| |done]. by left.
Qed.

Lemma tame_receivers {D : Prop} P V K l : obeys (tame P V K D) (modify (drop_receivers l)).
Proof using Type.
  apply tame_modify_update; [apply evolves_drop_receivers|done|intros _ st; right; cbn; by rewrite ch_drop_rx_view|].
  intros _ st h. cbn. by rewrite os_drop_rx_view.
Qed.

(** The public client's side of an agent's response: reading a chunk, and dropping
    the body. *)
Definition next_chunk (l : nat) : task Session (option Chunk) :=
  await (λ x, st ← stream_objs x !! l; '(c, chunk) ← ch_recv (body_ch st);
              Some (update_stream l (with_body c) x, chunk)).
Definition drop_response (id : Z) (l : nat) : task Session unit :=
  modify (drop_receivers l) ;;! modify (drop_guard id).

Lemma tame_next {D : Prop} P V l : obeys (tame P V False D) (next_chunk l).
Proof using Type.
  apply obeys_await. intros x x' a. destruct (stream_objs x !! l) as [st|] eqn:E; [|done]. simpl.
  destruct (ch_recv (body_ch st)) as [[c chunk]|] eqn:Er; [|done]. intros [= <- <-].
  apply tame_update; [|done..]. apply quiet_update.
  intros st' [= <-]%(eq_trans (eq_sym E)). eauto using evolves_body, recv_capacity.
Qed.

Lemma tame_response {D : Prop} (P : result ServerFrame Status → Prop) V K id l :
  (∀ c m, P (Ok (Some (SReset id c m)))) → obeys (tame P V K D) (drop_response id l).
Proof using Type.
  intros HP. apply obeys_bind; [apply tame_receivers|]. intros _. apply obeys_modify. intros x.
  unfold drop_guard. etrans; [apply (tame_close P V K id)|]. by apply tame_try_send.
Qed.
End tame.

Create HintDb tame.
#[export] Hint Resolve tame_query tame_modify_close tame_modify_update tame_remove tame_close_all
  tame_data tame_reset tame_grant follow_tame tame_receivers tame_next tame_response
  tame_on_data tame_finish tame_on_head tame_window : tame.
#[export] Hint Extern 1 (obeys _ (on_stream_end _ _)) => apply tame_finish : tame.
#[export] Hint Extern 1 (obeys _ (on_stream_reset _ _ _)) => apply tame_finish : tame.

(** Frames that are not about the contents of a stream: no data, no end, no credit;
    nor an error, which ends the session's response. *)
Definition creditless (f : result ServerFrame Status) : Prop :=
  match f with
  | Ok (Some (SOpen _)) | Ok (Some (SWindowUpdate _ _)) | Ok (Some (SData _ _)) | Ok (Some (SEnd _ _)) | Err _ => False
  | _ => True
  end.
#[export] Hint Extern 0 (creditless _) => exact I : tame.

(** ** One session of a node *)
Section at_node.
Context `{Tokio} {R : Type} {A : Type}.
Notation AppState := (AppState (R:=R) (A:=A)).

(** Session object [i] stays, and changes by [G]. *)
Definition at_session (i : nat) (G : Session → Session → Prop) (s s' : AppState) : Prop :=
  ∀ x, session_objs s !! i = Some x → ∃ x', session_objs s' !! i = Some x' ∧ G x x'.

Section at_session.
Context (i : nat) (G : Session → Session → Prop) {HG : Reflexive G}.

Lemma at_objs (s s' : AppState) : session_objs s' = session_objs s → at_session i G s s'.
Proof using HG. intros Ho x Hx. exists x. by rewrite Ho. Qed.

Lemma at_query {B} (f : AppState → B) : obeys (at_session i G) (query f).
Proof using HG. apply obeys_query. intros s. by apply at_objs. Qed.

Lemma at_modify f : (∀ s, session_objs (f s) = session_objs s) → obeys (at_session i G) (modify f).
Proof using HG. intros Hf. apply obeys_modify. intros s. by apply at_objs. Qed.

Lemma at_registry {B} (f : Z → Z → R → R * B) : obeys (at_session i G) (call_registry f).
Proof using HG. apply obeys_atomic. intros s. apply at_objs. by destruct (f _ _ _). Qed.

Lemma at_draw n : obeys (at_session i G) (draw n).
Proof using HG. apply obeys_atomic. intros s. by apply at_objs. Qed.

Lemma at_allocate x : obeys (at_session i G) (allocate_session x).
Proof using HG.
  apply obeys_atomic. intros s y Hy. exists y. split; [|done]. simpl.
  apply lookup_app_l_Some. exact Hy.
Qed.

Lemma at_head j l deadline : obeys (at_session i G) (await_head (A:=A) (R:=R) j l deadline).
Proof using HG.
  apply obeys_await. intros s s' w Hw.
  destruct (session_objs s !! j) as [x|]; [|done]. simpl in Hw.
  destruct (stream_objs x !! l) as [st|]; [|done]. simpl in Hw.
  apply at_objs. repeat case_match; by simplify_eq.
Qed.

(** A call on some session, which either is not [i] or behaves. *)
Lemma at_call {B} j (t : task Session B) :
  j ≠ i ∨ obeys G t → obeys (at_session i G) (on_session j t).
Proof using HG.
  intros Ht. destruct (decide (j = i)) as [->|Hne].
  - destruct Ht as [?|Ht]; [done|]. apply (obeys_zoom _ _ G); [|exact Ht].
    intros s x x' Hx Hg y Hy. exists x'. split; [by apply (put_session_get i s x)|].
    rewrite Hx in Hy. by injection Hy as <-.
  - apply (obeys_zoom _ _ (λ _ _, True)).
    + intros s x x' _ _ y Hy. exists y. split; [|done]. simpl. by rewrite list_lookup_insert_ne.
    + clear Ht. induction t as [r|f IH] using task_induction; [done|].
      apply obeys_step. intros s s' t' E. split; [done|]. by eapply IH.
Qed.
End at_session.
End at_node.

(** Goes through a task call by call. *)
Ltac node_calls :=
  repeat match goal with
    | |- obeys _ (Ret _) => exact I
    | |- obeys _ (task_bind _ _) => apply obeys_bind; [|intros ?]
    | |- obeys _ (match ?x with _ => _ end) => destruct x
    | |- obeys _ (query _) => apply at_query; exact _
    | |- obeys _ (call_registry _) => apply at_registry; exact _
    | |- obeys _ (draw _) => apply at_draw; exact _
    | |- obeys _ (allocate_session _) => apply at_allocate; exact _
    | |- obeys _ (await_head _ _ _) => apply at_head; exact _
    | |- obeys _ (modify _) => apply at_modify; [exact _|done]
    | |- obeys _ (on_session _ _) =>
        apply at_call; [exact _|first [left; assumption|right; solve [eauto with tame]]]
    | |- obeys _ _ => eassumption
    end.

(** ** The tasks of a node *)
Section node.
Context `{Tokio} `{MapIteration} `{HttpCrate} `{Rng}.
Context {R : Type} `{RegistryOps R} {A : Type} `{AuthProvider A} {U : Type}.
Notation AppState := (AppState (R:=R) (A:=A)).
Context (health_json : HealthResponse → str → str) (tunnels_json : list SessionSnapshot → str).
Context (duration_debug : Z → str).
Context (parse_uri : str → option Uri) (upstream : Request → result (Response (EdgeBody U)) str).
Context (public : Request → Prop).

(** A public request: it is answered at once, or its body is sent; what awaits the
    answer beside that is [nt_answer]. *)
Definition serve_request (node_id : str) (role : Role) (req : Request) (addr : str) : task AppState unit :=
  let! served := handle health_json tunnels_json duration_debug parse_uri upstream node_id role req addr in
  match served with
  | Answered _ => Ret tt
  | Forked pump _ => pump
  end.

(** What may run beside the read loop of session [i], when the requests that reach
    the node are [public]; [nt_world] is the clock, and other nodes' calls on the
    routing table. *)
Inductive node_task (i : nat) : task AppState unit → Prop :=
| nt_handshake inbound : node_task i (session inbound ;;! Ret tt)
| nt_session j inbound : j ≠ i → node_task i (run_session j inbound)
| nt_teardown : node_task i (teardown i)
| nt_heartbeat j beats : node_task i (spawn_heartbeat j beats)
| nt_request node_id role req addr : public req → node_task i (serve_request node_id role req addr)
| nt_answer j opened : node_task i (finish_local (U:=U) duration_debug j opened ;;! Ret tt)
| nt_read j l : node_task i (on_session j (next_chunk l) ;;! Ret tt)
| nt_drop j id l : node_task i (on_session j (drop_response id l))
| nt_world f : (∀ s, session_objs (f s) = session_objs s) → node_task i (modify f).

(** ** Every one of them leaves session [i] tame

    A request also opens a stream, and a body pump sends data; only the reader of a
    response takes from a body channel. *)
Section tame_tasks.
Context (i : nat) (P : result ServerFrame Status → Prop) (V K D : Prop) (HP : ∀ f, creditless f → P f).

Lemma tame_run_session j inbound :
  j ≠ i → obeys (at_session (R:=R) (A:=A) i (tame P V K D)) (run_session (A:=A) j inbound).
Proof using HP.
  intros Hj. unfold run_session. apply obeys_bind.
  - induction inbound as [|[frame|e] rest IH]; [done| |done]. cbn [read_loop].
    apply obeys_bind; [|by intros []]. clear IH. unfold handle_client_frame, register_tunnel,
      claim_tunnel, close_tunnel. node_calls.
  - intros []; [|done]. unfold teardown. node_calls. generalize (session_tunnels a). intros ts.
    induction ts as [|t ts IH]; cbn [release_tunnels]; node_calls.
Qed.

Lemma tame_teardown j : obeys (at_session (R:=R) (A:=A) i (tame P V K D)) (teardown (A:=A) j).
Proof using HP.
  unfold teardown. node_calls. generalize (session_tunnels a). intros ts.
  induction ts as [|t ts IH]; cbn [release_tunnels]; node_calls.
Qed.

Lemma tame_heartbeat j beats : obeys (at_session (R:=R) (A:=A) i (tame P V K D)) (spawn_heartbeat (A:=A) j beats).
Proof using HP.
  unfold spawn_heartbeat. apply obeys_bind; [node_calls|]. intros c. destruct (_ =? _)%Z; [done|].
  generalize (route_ttl c). intros ttl. induction beats as [|[nonce time] beats IH]; [done|].
  cbn [heartbeat_loop]. unfold heartbeat_tick, notify_tunnel_lost. node_calls.
  generalize (session_tunnels a0), (ses_id a0). intros ts id.
  induction ts as [|t ts IHt]; cbn [renew_tunnels]; unfold notify_tunnel_lost; node_calls.
Qed.

Lemma tame_handshake inbound : obeys (at_session (R:=R) (A:=A) i (tame P V K D)) (session (A:=A) inbound).
Proof using HP. unfold session, accept_session. node_calls. Qed.

Lemma tame_pump j id frames :
  (∀ chunk, P (Ok (Some (SData id chunk)))) → (∀ trailers, P (Ok (Some (SEnd id trailers)))) →
  obeys (at_session (R:=R) (A:=A) i (tame P False K D)) (pump_body (A:=A) j id frames).
Proof using HP.
  intros Hdata Hend.
  induction frames as [|[data| |] frames IH]; cbn [pump_body]; unfold send_stream_end; node_calls.
Qed.

Lemma tame_answer j opened :
  obeys (at_session (R:=R) (A:=A) i (tame P V K D)) (finish_local (A:=A) (U:=U) duration_debug j opened).
Proof using HP.
  unfold finish_local. node_calls.
Qed.

Lemma tame_read j l : obeys (at_session (R:=R) (A:=A) i (tame P V False D)) (on_session (A:=A) (R:=R) j (next_chunk l)).
Proof using HP. node_calls. Qed.

Lemma tame_drop j id l : obeys (at_session (R:=R) (A:=A) i (tame P V K D)) (on_session (A:=A) (R:=R) j (drop_response id l)).
Proof using HP. node_calls. Qed.

Lemma tame_route role req :
  obeys (at_session (R:=R) (A:=A) i (tame P V K D)) (route (A:=A) (U:=U) health_json tunnels_json role req).
Proof using HP. unfold route, route_record. node_calls. Qed.

(** Opening a stream queues an [Open] frame. *)
Lemma tame_open tunnel_id head addr :
  (∀ open, P (Ok (Some (SOpen open)))) → obeys (tame P False K D) (open_http_stream tunnel_id head addr).
Proof using HP.
  intros Ho. unfold open_http_stream. apply obeys_bind; [apply tame_query|]. intros [limit count].
  destruct (_ && _)%bool; [done|]. apply obeys_bind.
  { apply obeys_atomic. intros x. apply tame_register. }
  intros [id l]. apply obeys_bind; [apply tame_query|]. intros window.
  apply obeys_bind; [by apply follow_tame|]. intros []; [done|].
  apply obeys_bind; [apply tame_modify_close|]. intros _.
  by apply obeys_bind; [apply tame_receivers|].
Qed.
End tame_tasks.

(** What a request, and the rest of a node's tasks, may queue: anything but credit. *)
Definition creditable (f : result ServerFrame Status) : Prop :=
  match f with Ok (Some (SWindowUpdate _ _)) | Err _ => False | _ => True end.

Lemma creditless_creditable (P : result ServerFrame Status → Prop) :
  (∀ f, creditable f → P f) → ∀ f, creditless f → P f.
Proof using Type. intros HP f Hf. apply HP. by destruct f as [[[]|]|]. Qed.

Lemma tame_request i (P : result ServerFrame Status → Prop) K D node_id role req addr :
  (∀ f, creditable f → P f) →
  obeys (at_session (R:=R) (A:=A) i (tame P False K D)) (serve_request node_id role req addr).
Proof using Type.
  intros HP. pose proof (creditless_creditable P HP) as HP'.
  apply obeys_assoc, obeys_bind; [by apply tame_route|].
  intros [response|j record|record]; [done| |done]. apply obeys_assoc, obeys_bind.
  - apply at_call; [exact _|right; apply tame_open; [done|intros; by apply HP]].
  - intros [opened|[]]; [|done..]. apply tame_pump; [done|intros; by apply HP..].
Qed.

Lemma node_task_tame (P : result ServerFrame Status → Prop) D i t :
  (∀ f, creditable f → P f) → node_task i t → obeys (at_session i (tame P False False D)) t.
Proof using Type.
  intros HP Ht. pose proof (creditless_creditable P HP) as HP'. destruct Ht; try (apply obeys_bind; [|done]).
  - by apply tame_handshake.
  - by apply tame_run_session.
  - by apply tame_teardown.
  - by apply tame_heartbeat.
  - by apply tame_request.
  - by apply tame_answer.
  - by apply tame_read.
  - by apply tame_drop.
  - by apply at_modify; [exact _|].
Qed.

(** ** What the read loop queues *)
Definition queues (P : result ServerFrame Status → Prop) (x x' : Session) : Prop :=
  rtc session_step x x' ∧ ∃ fs, frame_queue x' = frame_queue x ++ fs ∧ Forall P fs.

#[export] Instance queues_refl P : Reflexive (queues P).
Proof using Type. intros x. split; [done|]. exists []. by rewrite app_nil_r. Qed.

Lemma tame_queues P V K D x x' : tame P V K D x x' → queues P x x'.
Proof using Type. by intros (Hs & _ & _ & _ & _ & _ & Hq). Qed.

Lemma obeys_queues {B} P V K D (t : task Session B) : obeys (tame P V K D) t → obeys (queues P) t.
Proof using Type. apply obeys_weaken. intros x x'. apply tame_queues. Qed.

Lemma queues_insert P t : obeys (queues P) (modify (insert_tunnel t)).
Proof using Type.
  apply obeys_modify. intros x. split; [by apply rtc_once, step_quiet, quiet_tunnels|].
  exists []. by rewrite app_nil_r.
Qed.

#[local] Hint Resolve queues_insert : tame.
#[local] Hint Extern 3 (obeys (queues _) _) => eapply (obeys_queues _ False False False); solve [eauto with tame] : tame.

(** No data, no opening, no end; and the credit for one frame's bytes. *)
Lemma queues_frame i (P : result ServerFrame Status → Prop) f :
  (∀ f, creditless f → P f) →
  (∀ id increment, (0 ≤ increment ≤ u32_max)%Z → P (Ok (Some (SWindowUpdate id increment)))) →
  obeys (at_session i (queues P)) (handle_client_frame (A:=A) (R:=R) i f).
Proof using Type.
  intros HP HW. destruct f as [payload|]; [|done]. destruct payload; cbn [handle_client_frame];
    unfold close_tunnel, register_tunnel, claim_tunnel; [..|node_calls|node_calls|node_calls|node_calls];
    try (node_calls; fail).
  apply obeys_bind; [node_calls|]. intros a. apply obeys_bind; [|done].
  destruct (Z.ltb_spec 0 a); [|done]. apply at_call; [exact _|right].
  eapply (obeys_queues _ False False False), tame_grant, HW. unfold u32_saturate, u32_max.
  destruct (Z.leb_spec a 4294967295); lia.
Qed.

(** ** The tunnel limit

    A registration holds a ticket for one tunnel from the check of the limit to the
    insertion; tunnels and tickets stay within the limit. *)
Definition tunnel_limit (x : Session) : Z := max_tunnels (limits (ses_principal x)).

Definition ticket (n : Z) (x : Session) (n' : Z) (x' : Session) : Prop :=
  ses_principal x' = ses_principal x ∧
  ((0 ≤ n → 0 ≤ n' ∧
    (0 < tunnel_limit x → session_tunnel_count x + n ≤ tunnel_limit x →
     session_tunnel_count x' + n' ≤ tunnel_limit x))%Z).

Definition account_at {N} (i : nat) (G : N → Session → N → Session → Prop) (n : N) (s : AppState)
    (n' : N) (s' : AppState) : Prop :=
  ∀ x, session_objs s !! i = Some x → ∃ x', session_objs s' !! i = Some x' ∧ G n x n' x'.

Lemma tame_ticket i n (s s' : AppState) :
  at_session i (tame (λ _, True) False False False) s s' → account_at i ticket n s n s'.
Proof using Type.
  intros Ha x Hx. destruct (Ha x Hx) as (x' & Hx' & _ & Ht & Hp & _). exists x'.
  split; [done|]. split; [done|]. intros Hn. split; [done|]. unfold session_tunnel_count. lia.
Qed.

Lemma call_account {N B} i (G : N → Session → N → Session → Prop) (Q : B → N → Prop) n
    (t : task Session B) :
  follows G Q n t → follows (account_at i G) Q n (on_session (A:=A) (R:=R) i t).
Proof using Type.
  apply follows_zoom. intros m s x m' x' Hx Hg y Hy. exists x'.
  split; [by apply (put_session_get i s x)|]. rewrite Hx in Hy. by injection Hy as <-.
Qed.

(** A call of session [i] that leaves it tame keeps the tickets. *)
Lemma tickets_kept {B C} i Q n (t : task AppState B) (k : B → task AppState C) :
  obeys (at_session i (tame (λ _, True) False False False)) t → (∀ a, follows (account_at i ticket) Q n (k a)) →
  follows (account_at i ticket) Q n (task_bind t k).
Proof using Type. apply follows_then. intros s s'. apply tame_ticket. Qed.

(** A registration, from the check of the limit to the insertion. *)
Lemma follows_register i open n :
  follows (account_at i ticket) (λ _ n, 0 ≤ n)%Z n (register_tunnel (A:=A) (R:=R) i open).
Proof using Type.
  unfold register_tunnel. eapply follows_bind.
  { apply (call_account i ticket (λ x n, n = (if at_tunnel_limit x then 0 else 1)%Z)).
    apply follows_atomic. intros x. exists (if at_tunnel_limit x then 0 else 1)%Z.
    split; [|done]. unfold ticket, tunnel_limit, at_tunnel_limit. simpl.
    destruct (Z.leb_spec (max_tunnels (limits (ses_principal x))) (session_tunnel_count x));
      destruct (Z.ltb_spec 0 (max_tunnels (limits (ses_principal x)))); simpl; (split; [done|]); lia. }
  intros x m ->. fold (at_tunnel_limit x). destruct (at_tunnel_limit x); [done|].
  destruct (ot_spec open) as [spec|]; [|done].
  apply tickets_kept; [apply at_draw; exact _|]. intros seed.
  apply tickets_kept; [apply at_query; exact _|]. intros s.
  destruct (resolve_target _ _ _ _) as [[key url]|e]; [|done].
  apply tickets_kept; [apply at_draw; exact _|]. intros seed'. unfold claim_tunnel.
  apply tickets_kept; [apply at_query; exact _|]. intros ttl.
  apply tickets_kept; [apply at_registry; exact _|]. intros [[|owner]|e]; [|done|done].
  eapply (follows_bind _ (λ _ n, n = 0%Z)); [|by intros _ m ->].
  apply call_account, follows_atomic. intros x'. exists 0%Z. split; [|done]. split_and!; [done..|].
  unfold session_tunnel_count. cbn [tunnels insert_tunnel with_tunnels fst].
  rewrite map_size_insert. case_match; simpl; lia.
Qed.

Lemma follows_frame i frame n :
  (0 ≤ n)%Z → follows (account_at i ticket) (λ _ n, 0 ≤ n)%Z n
                (handle_client_frame (A:=A) (R:=R) i frame).
Proof using Type.
  intros Hn. destruct frame as [payload|]; [|done].
  assert (∀ n (t : task AppState bool), (0 ≤ n)%Z → obeys (at_session i (tame (λ _, True) False False False)) t →
    follows (account_at i ticket) (λ _ n, 0 ≤ n)%Z n t) as Htame.
  { intros m t Hm Ht. eapply follows_mono; [|eapply follows_obeys, Ht; apply tame_ticket].
    by intros b m' ->. }
  destruct payload; cbn [handle_client_frame]; try (by apply Htame).
  { eapply follows_bind; [apply follows_register|]. intros status m Hm. simpl in Hm.
       apply Htame; [done|]. node_calls. }
  all: apply Htame; [done|]; unfold close_tunnel; node_calls.
Qed.

Lemma follows_run_session i inbound :
  follows (account_at i ticket) (λ _ n, 0 ≤ n)%Z 0%Z (run_session (A:=A) (R:=R) i inbound).
Proof using Type.
  unfold run_session. eapply (follows_bind _ (λ _ n, 0 ≤ n)%Z).
  - enough (∀ n, (0 ≤ n)%Z → follows (account_at i ticket) (λ _ n, 0 ≤ n)%Z n (read_loop i inbound))
      as Hloop by by apply Hloop.
    induction inbound as [|[frame|e] rest IH]; intros n Hn; [done| |done]. cbn [read_loop].
    eapply follows_bind; [by apply follows_frame|]. intros [] m Hm; [by apply IH|done].
  - intros [] n Hn; [|done].
    eapply follows_mono; [|eapply follows_obeys; [apply tame_ticket|by apply tame_teardown]].
    by intros b m ->.
Qed.

Lemma tunnel_limit_invariant i inbound (s s' : AppState) tr t' x :
  session_objs s !! i = Some x → (0 < tunnel_limit x)%Z →
  (session_tunnel_count x ≤ tunnel_limit x)%Z →
  exec (steps_of (node_task i)) (run_session i inbound) s tr t' s' →
  ∃ x', session_objs s' !! i = Some x' ∧ ses_principal x' = ses_principal x ∧
    (session_tunnel_count x' ≤ tunnel_limit x')%Z.
Proof using Type.
  intros Hx Hpos Hle Hr.
  edestruct (@follows_exec Z AppState unit (steps_of (node_task i))
    (λ n s, 0 ≤ n ∧ ∃ x', session_objs s !! i = Some x' ∧
       ses_principal x' = ses_principal x ∧ session_tunnel_count x' + n ≤ tunnel_limit x)%Z
    (account_at i ticket) (λ _ n, 0 ≤ n)%Z) as (n & (Hn & x' & Hx' & Hp & Hc) & _);
    [| |exact Hr| |apply follows_run_session|].
  - intros n s1 s2 Hs (Hn & x1 & Hx1 & Hp & Hc). split; [done|].
    apply (steps_of_obeys _ _ _ _ (λ t, node_task_tame (λ _, True) False i t (λ _ _, I))), (tame_ticket i n) in Hs.
    destruct (Hs x1 Hx1) as (x2 & Hx2 & Hp2 & Ht). exists x2.
    split_and!; [done|congruence|]. unfold tunnel_limit in *. rewrite Hp in Ht. by apply Ht.
  - intros n s1 m s2 Hs (Hn & x1 & Hx1 & Hp & Hc).
    destruct (Hs x1 Hx1) as (x2 & Hx2 & Hp2 & Ht). destruct (Ht Hn) as [Hm Hk].
    split; [done|]. exists x2. split_and!; [done|congruence|].
    unfold tunnel_limit in *. rewrite Hp in Hk. by apply Hk.
  - split; [done|]. exists x. by rewrite Z.add_0_r.
  - exists x'. split_and!; [done..|]. unfold tunnel_limit in *. rewrite Hp. lia.
Qed.
End node.

(** C20: the limit on tunnels holds for each session, whatever runs beside it: while
    the read loop of a session handles any frames, interleaved with heartbeats that
    drop tunnels, requests, other sessions and other nodes, the session never has
    more tunnels than its account may have. (The check and the insertion are apart,
    with the claim between them; it is the one read loop that makes this safe.) *)
Theorem tunnel_limit_holds `{Tokio} `{MapIteration} `{HttpCrate} `{Rng} {R} `{RegistryOps R}
    {A} `{AuthProvider A} {U} health_json tunnels_json duration_debug parse_uri upstream public
    i inbound s s' tr t' x :
  session_objs s !! i = Some x → (0 < tunnel_limit x)%Z →
  (session_tunnel_count x ≤ tunnel_limit x)%Z →
  exec (steps_of (node_task (R:=R) (A:=A) (U:=U) health_json tunnels_json duration_debug parse_uri
          upstream public i)) (run_session i inbound) s tr t' s' →
  ∃ x', session_objs s' !! i = Some x' ∧ ses_principal x' = ses_principal x ∧
    (session_tunnel_count x' ≤ tunnel_limit x')%Z.
Proof. apply tunnel_limit_invariant. Qed.

(** Ten names are asked for, and the account may have eight. *)
Definition greedy_frames : list (result ClientFrame Status) :=
  (λ n, Ok (Some (COpenTunnel (demo_request (lit "app" ++ dec n))))) <$>
    [1; 2; 3; 4; 5; 6; 7; 8; 9; 10]%Z.

Definition greedy_loop : task (@AppState view_tokio MemoryRegistry StaticTokenAuth) bool :=
  @read_loop view_tokio modular_rng MemoryRegistry _ StaticTokenAuth 0 greedy_frames.
Definition greedy_session : task (@AppState view_tokio MemoryRegistry StaticTokenAuth) unit :=
  @run_session view_tokio sorted_iteration modular_rng MemoryRegistry _ StaticTokenAuth 0 greedy_frames.

Lemma tunnel_limit_holds_witness :
  (0 < @tunnel_limit view_tokio fresh_session)%Z ∧
  (@session_tunnel_count view_tokio <$>
     @session_objs view_tokio _ _ (run greedy_loop fresh_node).1 !! 0) = Some 8%Z ∧
  ∃ x', @session_objs view_tokio _ _ (run greedy_session fresh_node).1 !! 0 = Some x' ∧
    (@session_tunnel_count view_tokio x' ≤ @tunnel_limit view_tokio x')%Z.
Proof.
  split; [done|]. split; [vm_compute; reflexivity|].
  destruct (run_exec (steps_of (@node_task view_tokio sorted_iteration list_http modular_rng
      MemoryRegistry _ StaticTokenAuth _ unit no_json1 no_json2 dec (λ _, None)
      (λ _, Err (lit "down")) (λ _, True) 0)) greedy_session fresh_node) as [tr Htr].
  destruct (@tunnel_limit_holds view_tokio sorted_iteration list_http modular_rng MemoryRegistry _
      StaticTokenAuth _ unit no_json1 no_json2 dec (λ _, None) (λ _, Err (lit "down"))
      (λ _, True) 0 greedy_frames fresh_node (run greedy_session fresh_node).1 tr (run greedy_session fresh_node).2
      fresh_session) as (x' & Hx' & _ & Hle);
    [reflexivity|done|done|exact Htr|].
  exists x'. split; [exact Hx'|exact Hle].
Defined.
