(* ===== verification/ServerTests.v ===== *)
(** * The unit tests of [norupo-server], run on the model

    As in [CoreTests]. An async test is a task over the session it makes, run with the
    channels and semaphores of [view_tokio]; a task it spawns is run as far as it
    gets, and resumed where the test waits for it. What the JSON parser makes of a
    literal is the argument of [parse]. Tests of [clap] and of the network are left out. *)

From S2P Require Import Prelude RustStr Crates CoreError Routing Auth Ids Tokens ServerConfig.
From S2P Require Import Registry MemoryRegistry Async Proto Http Session Control Ingress Node CoreTests.

(** ** [config.rs] *)
Module ConfigTests.
Local Open Scope test_scope.

(** [ServerConfig { field: value, ..Default::default() }]. *)
Definition with_heartbeat_ms (ms : Z) (d : ServerConfig) : ServerConfig :=
  mkServerConfig (control_addr d) (http_addr d) (peer_addr d) (advertise_addr d) (base_domain d)
    (public_scheme d) (redis_url d) (redis_prefix d) (cfg_node_id d) (cfg_allow_anonymous d) (tokens_file d)
    ms (response_timeout_ms d) (window_bytes d) (log_filter d).
Definition ttl_is_three_heartbeats : bool :=
  let cfg := with_heartbeat_ms 1000 default_config in
  route_ttl cfg =? 3000%Z.

Definition with_advertise_addr (a : option str) (d : ServerConfig) : ServerConfig :=
  mkServerConfig (control_addr d) (http_addr d) (peer_addr d) a (base_domain d)
    (public_scheme d) (redis_url d) (redis_prefix d) (cfg_node_id d) (cfg_allow_anonymous d) (tokens_file d)
    (heartbeat_ms d) (response_timeout_ms d) (window_bytes d) (log_filter d).
Definition advertise_addr_falls_back_to_the_peer_listener : bool :=
  let cfg := default_config in
  (advertised_peer_addr cfg =? socket_addr_to_string (peer_addr cfg)) &&
  let cfg := with_advertise_addr (Some (lit "10.0.0.7:7100")) default_config in
  advertised_peer_addr cfg =? lit "10.0.0.7:7100".

Definition with_public_scheme (s : str) (d : ServerConfig) : ServerConfig :=
  mkServerConfig (control_addr d) (http_addr d) (peer_addr d) (advertise_addr d) (base_domain d)
    s (redis_url d) (redis_prefix d) (cfg_node_id d) (cfg_allow_anonymous d) (tokens_file d)
    (heartbeat_ms d) (response_timeout_ms d) (window_bytes d) (log_filter d).
Definition public_urls_respect_the_configured_scheme : bool :=
  let cfg := with_public_scheme (lit "http") default_config in
  public_url cfg (lit "a.localhost") =? lit "http://a.localhost".
End ConfigTests.

(** ** [tokens.rs] *)
Module TokensTests.
Local Open Scope test_scope.

Definition minimal_entries_get_sensible_defaults : bool :=
  let from_json (_ : str) := Ok {[ lit "tok_a" := mkPrincipalFile (lit "acct_a") None [] [] None ]} in
  ok_and (parse from_json []) (λ parsed,
    some_and (parsed !! lit "tok_a") (λ principal,
      (account_id principal =? lit "acct_a") && (display_name principal =? lit "acct_a") &&
      (limits principal =? default_limits) && (reserved_subdomains principal =? []))).

Definition full_entries_are_parsed_and_partial_limits_fall_back : bool :=
  let from_json (_ : str) := Ok {[ lit "tok_b" := mkPrincipalFile (lit "acct_b") (Some (lit "Ada"))
    [lit "ada"] [lit "*.dev.example.com"] (Some (mkLimitsFile (Some 64%Z) None None)) ]} in
  ok_and (parse from_json []) (λ parsed,
    some_and (parsed !! lit "tok_b") (λ principal,
      (display_name principal =? lit "Ada") && (reserved_subdomains principal =? [lit "ada"]) &&
      (max_tunnels (limits principal) =? 64%Z) &&
      (max_concurrent_streams (limits principal) =? max_concurrent_streams default_limits))).
End TokensTests.

(** ** [http.rs] *)
Module HttpTests.
Local Open Scope test_scope.
#[local] Existing Instance list_http.

Definition hop_by_hop_headers_are_stripped : bool :=
  let headers := hm_new in
  let headers := hm_insert (lit "host") (lit "api.tunnel.com") headers in
  let headers := hm_insert (lit "transfer-encoding") (lit "chunked") headers in
  let headers := hm_insert (lit "connection") (lit "keep-alive, x-custom") headers in
  let headers := hm_insert (lit "x-custom") (lit "nominated-by-connection") headers in
  let headers := hm_insert (lit "accept") (lit "*/*") headers in
  let names := h_name <$> sanitize_headers headers in
  bool_decide (lit "host" ∈ names) && bool_decide (lit "accept" ∈ names) &&
  negb (bool_decide (lit "transfer-encoding" ∈ names)) && negb (bool_decide (lit "connection" ∈ names)) &&
  negb (bool_decide (lit "x-custom" ∈ names)).

Definition malformed_agent_headers_are_dropped_not_propagated : bool :=
  let map := to_header_map
    [mkHeader (lit "x-good") (lit "1");
     mkHeader (lit "x-bad") ("a"%char :: chr 13 :: chr 10 :: lit "Injected: yes");
     mkHeader (lit "bad name") (lit "1");
     mkHeader (lit "Transfer-Encoding") (lit "chunked")] in
  (length (hm_iter map) =? 1) && (hm_get (lit "x-good") map =? Some (lit "1")) &&
  (hm_get (lit "injected") map =? None) && (hm_get (lit "transfer-encoding") map =? None).

Definition repeated_headers_survive_the_round_trip : bool :=
  let map := to_header_map [mkHeader (lit "set-cookie") (lit "a=1"); mkHeader (lit "set-cookie") (lit "b=2")] in
  length (hm_get_all (lit "set-cookie") map) =? 2.

Definition error_pages_escape_interpolated_values : bool :=
  let page := error_page (B:=unit) 404 (lit "Tunnel not found") (html_escape (lit "<script>alert(1)</script>")) in
  (status page =? 404%Z) && negb (bool_decide ("<"%char ∈ html_escape (lit "<script>"))).
End HttpTests.

(** ** [ingress.rs] *)
Module IngressTests.
Local Open Scope test_scope.
#[local] Existing Instance list_http.

Definition request (host : option str) : Request :=
  let headers := match host with Some host => hm_append (lit "host") host hm_new | None => hm_new end in
  mkRequest (lit "GET") (mkUri None (lit "/hello") (Some (lit "/hello?a=1"))) (lit "HTTP/1.1") headers [].

Definition host_comes_from_the_header_on_http1 : bool :=
  (request_host (request (Some (lit "api.tunnel.com"))) =? Some (lit "api.tunnel.com")) &&
  (request_host (request None) =? None).

Definition host_prefers_the_authority_on_http2 : bool :=
  let req := mkRequest (lit "GET") (mkUri (Some (lit "h2.tunnel.com")) (lit "/hello") (Some (lit "/hello")))
    (lit "HTTP/1.1") (hm_append (lit "host") (lit "ignored.tunnel.com") hm_new) [] in
  request_host req =? Some (lit "h2.tunnel.com").

Definition not_found_pages_are_labelled_for_clients : bool :=
  let response := tunnel_not_found (U:=unit) (lit "api.tunnel.com") in
  (status response =? 404%Z) &&
  (hm_get (lit "x-norupo-error") (headers response) =? Some (lit "tunnel_not_found")).
End IngressTests.

(** ** [session.rs] *)
Module SessionTests.
Local Open Scope test_scope.
#[local] Existing Instance view_tokio.
#[local] Existing Instance sorted_iteration.

Definition principal (max_streams : Z) : Principal :=
  mkPrincipal (lit "acct_1") (lit "test") [] []
    (mkLimits (max_tunnels default_limits) max_streams (max_bytes_per_second default_limits)).
Definition head : HttpRequestHead :=
  mkRequestHead (lit "GET") (lit "/") (lit "api.tunnel.com") [] (lit "HTTP/1.1") [].
Definition new (max_streams window : Z) : Session :=
  session_new (lit "sess_1") (lit "node_1") (principal max_streams) window.

(** [rx.recv().await]. *)
Definition recv_frame : task Session (option (result ServerFrame Status)) :=
  await (λ s, match ch_recv (outbound s) with
              | Some (o, frame) => Some (with_outbound o s, frame)
              | None => None
              end).
(** What a task returned, if it did. *)
Definition returned {R} (c : Session * task Session R) : option R :=
  match c.2 with Ret r => Some r | _ => None end.
Definition completes (test : task Session bool) (s : Session) : bool :=
  default false (returned (run test s)).

Definition chunking_splits_on_the_frame_boundary_without_losing_bytes : bool :=
  let payload := replicate (Z.to_nat (Session.MAX_CHUNK * 2 + 13)) (chr 7) in
  let chunks := split_chunks payload in
  ((byte_len <$> chunks) =? [Session.MAX_CHUNK; Session.MAX_CHUNK; 13%Z]) && (concat chunks =? payload).

Definition small_payloads_are_not_split : bool :=
  (length (split_chunks (lit "hi")) =? 1) &&
  (length (split_chunks (replicate (Z.to_nat Session.MAX_CHUNK) (chr 0))) =? 1).

Definition opening_a_stream_emits_an_open_frame_to_the_agent : bool :=
  completes (
    let! opened := open_http_stream (lit "tun_1") head (lit "1.2.3.4:5678") in
    let! frame := recv_frame in
    Ret (ok_and opened (λ opened,
      match frame with
      | Some (Ok (Some (SOpen open))) =>
          (so_stream_id open =? resp_stream_id opened) && (so_tunnel_id open =? lit "tun_1") &&
          match so_kind open with KindHttp => true | _ => false end &&
          (so_remote_addr open =? lit "1.2.3.4:5678")
      | _ => false
      end))) (new 0 65536).

Definition concurrent_stream_limits_are_enforced : bool :=
  completes (
    let! first := open_http_stream (lit "tun_1") head (lit "1.2.3.4:1") in
    let! err := open_http_stream (lit "tun_1") head (lit "1.2.3.4:2") in
    Ret (is_ok first &&
      match err with Err (TooManyStreams limit) => limit =? 1%Z | _ => false end)) (new 1 65536).

Definition response_head_and_body_reach_the_waiting_ingress_task : bool :=
  completes (
    let! opened := open_http_stream (lit "tun_1") head (lit "1.2.3.4:1") in
    match opened with
    | Err _ => Ret false
    | Ok opened =>
        let id := resp_stream_id opened in
        modify (on_response_head (mkResponseHead id 204 [])) ;;!
        let! answered := await (λ s, match stream_objs s !! resp_object opened with
                                     | Some st => r ← os_recv (head_ch st); Some (s, r)
                                     | None => None
                                     end) in
        let! accepted := on_stream_data id (lit "hello") in
        on_stream_end id [] ;;!
        let! data := next_chunk (resp_object opened) in
        let! last := next_chunk (resp_object opened) in
        Ret (some_and answered (λ h, rs_status h =? 204%Z) && (accepted =? 5%Z) &&
             match data with Some (ChunkData b) => b =? lit "hello" | _ => false end &&
             match last with Some (ChunkEnd _) => true | _ => false end)
    end) (new 0 65536).

Definition flow_control_blocks_once_credit_is_exhausted_and_resumes_on_update : bool :=
  let '(s, opened) := run (open_http_stream (lit "tun_1") head (lit "1.2.3.4:1")) (new 0 4) in
  match opened with
  | Ret (Ok opened) =>
      let id := resp_stream_id opened in
      let '(s, _open_frame) := run recv_frame s in
      let writer := send_stream_data id (lit "abcd") ;;! send_stream_data id (lit "efgh") ;;! Ret tt in
      let '(s, writer) := run writer s in
      let '(s, first) := run recv_frame s in
      let '(s, parked) := run recv_frame s in
      match on_window_update id 4 s with
      | Some s =>
          let '(s, writer) := run writer s in
          let '(s, second) := run recv_frame s in
          let '(s, writer) := run writer s in
          match first, second with
          | Ret (Some (Ok (Some (SData _ a)))), Ret (Some (Ok (Some (SData _ b)))) =>
              (a =? lit "abcd") && (b =? lit "efgh")
          | _, _ => false
          end &&
          negb (is_some (returned (s, parked))) && is_some (returned (s, writer))
      | None => false
      end
  | _ => false
  end.

Definition closing_a_stream_unparks_a_blocked_writer : bool :=
  let '(s, opened) := run (open_http_stream (lit "tun_1") head (lit "1.2.3.4:1")) (new 0 2) in
  match opened with
  | Ret (Ok opened) =>
      let '(s, _) := run recv_frame s in
      let id := resp_stream_id opened in
      let '(s, writer) := run (send_stream_data id (replicate 64 (chr 0))) s in
      let s := close_stream id s in
      let result := returned (run writer s) in
      some_and result negb
  | _ => false
  end.

Definition session_manager_tracks_sessions_and_tunnels : bool :=
  let session := insert_tunnel (mkTunnel (lit "tun_1") (lit "api.tunnel.com") (lit "https://api.tunnel.com"))
    (new 0 65536) in
  let manager : AppState (R:=MemoryRegistry) (A:=StaticTokenAuth) :=
    mkAppState default_config (lit "node_1") [] memory_registry_new static_token_auth_anonymous
      ∅ [session] 0 0 0 in
  let manager := manager_insert (lit "sess_1") 0 manager in
  (manager_len manager =? 1%Z) && (manager_tunnel_count manager =? 1%Z) &&
  is_some (manager_get (lit "sess_1") manager) &&
  let manager := manager_remove (lit "sess_1") manager in
  manager_is_empty manager && negb (is_some (manager_get (lit "sess_1") manager)).
End SessionTests.

(** ** They pass *)

Example server_config_tests_pass :
  ConfigTests.ttl_is_three_heartbeats && ConfigTests.advertise_addr_falls_back_to_the_peer_listener &&
  ConfigTests.public_urls_respect_the_configured_scheme = true.
Proof. vm_compute. reflexivity. Qed.

Example tokens_tests_pass :
  TokensTests.minimal_entries_get_sensible_defaults &&
  TokensTests.full_entries_are_parsed_and_partial_limits_fall_back = true.
Proof. vm_compute. reflexivity. Qed.

Example http_tests_pass :
  HttpTests.hop_by_hop_headers_are_stripped && HttpTests.malformed_agent_headers_are_dropped_not_propagated &&
  HttpTests.repeated_headers_survive_the_round_trip && HttpTests.error_pages_escape_interpolated_values = true.
Proof. vm_compute. reflexivity. Qed.

Example ingress_tests_pass :
  IngressTests.host_comes_from_the_header_on_http1 && IngressTests.host_prefers_the_authority_on_http2 &&
  IngressTests.not_found_pages_are_labelled_for_clients = true.
Proof. vm_compute. reflexivity. Qed.

Example session_tests_pass :
  SessionTests.chunking_splits_on_the_frame_boundary_without_losing_bytes &&
  SessionTests.small_payloads_are_not_split &&
  SessionTests.opening_a_stream_emits_an_open_frame_to_the_agent &&
  SessionTests.concurrent_stream_limits_are_enforced &&
  SessionTests.response_head_and_body_reach_the_waiting_ingress_task &&
  SessionTests.flow_control_blocks_once_credit_is_exhausted_and_resumes_on_update &&
  SessionTests.closing_a_stream_unparks_a_blocked_writer &&
  SessionTests.session_manager_tracks_sessions_and_tunnels = true.
Proof. vm_compute. reflexivity. Qed.
