(* ===== verification/ClientConfig.v ===== *)
(** * [norupo-client/src/config.rs]: forward targets and the reconnect schedule *)

From S2P Require Import Prelude RustStr.

Definition port_error (raw port : str) : str :=
  lit "`" ++ port ++ lit "` in `" ++ raw ++ lit "` is not a valid port".

(** The text after a pasted scheme, up to the path. *)
Definition target_authority (trimmed : str) : str :=
  let without_scheme :=
    match strip_prefix (lit "http://") trimmed with
    | Some rest => rest
    | None => default trimmed (strip_prefix (lit "https://") trimmed)
    end in
  default without_scheme (head (split "/" without_scheme)).

Definition parse_forward_target (raw : str) : result str str :=
  let trimmed := trim raw in
  if bool_decide (trimmed = []) then Err (lit "forward target must not be empty")
  else
    match parse_u16 trimmed with
    | Some port =>
        if (port =? 0)%Z then Err (lit "port 0 is not a valid forward target")
        else Ok (lit "127.0.0.1:" ++ dec port)
    | None =>
        let authority := target_authority trimmed in
        match rsplit_once ":" authority with
        | None => Err (lit "could not parse `" ++ raw ++
            lit "` as a forward target; use a port (3000) or host:port (127.0.0.1:3000)")
        | Some (host, port) =>
            if bool_decide (host = []) then Err (lit "forward target `" ++ raw ++ lit "` is missing a host")
            else match parse_u16 port with
                 | None => Err (port_error raw port)
                 | Some _ => Ok authority
                 end
        end
    end.

Record HttpArgs := mkHttpArgs {
  arg_target : str;
  arg_subdomain : option str;
  arg_domain : option str;
  arg_rewrite_host : bool;
  arg_max_retries : Z;
}.

Definition forward_addr (args : HttpArgs) : result str str := parse_forward_target (arg_target args).

(** Milliseconds before reconnect [attempt]; all arithmetic is on [u64]. *)
Definition BASE_MS : Z := 250.
Definition MAX_MS : Z := 30000.
Definition reconnect_delay (attempt : Z) : Z :=
  Z.min (Z.min (BASE_MS * Z.shiftl 1 (Z.min attempt 8)) u64_max) MAX_MS.

(** ** Lemmas *)

Lemma slash_free_head l r : "/"%char ∉ l → head (split "/" (l ++ r)) =
  Some (l ++ default [] (head (split "/" r))).
Proof.
  induction l as [|a l IH]; intros Hl; simpl.
  { destruct (split "/" r) eqn:E; [by apply split_not_nil in E|done]. }
  apply not_elem_of_cons in Hl as [Ha Hl]. rewrite decide_False by congruence.
  specialize (IH Hl). destruct (split "/" (l ++ r)) as [|w ws]; [done|]. by injection IH as ->.
Qed.

Lemma authority_no_slash t : "/"%char ∉ target_authority t.
Proof.
  unfold target_authority. set (u := match strip_prefix _ t with Some r => r | None => _ end).
  destruct (split "/" u) as [|w ws] eqn:E; [by apply split_not_nil in E|]. simpl.
  apply (split_elem "/" u). rewrite E. left.
Qed.

Lemma digits_no_char c s :
  forallb is_ascii_digit s = true → is_ascii_digit c = false → c ∉ s.
Proof. intros Hs Hc Hin. apply (proj1 (forallb_elem _ _) Hs) in Hin. congruence. Qed.

Lemma parse_u16_colon l r : parse_u16 (l ++ ":"%char :: r) = None.
Proof.
  unfold parse_u16. set (ds := match l ++ _ with [] => _ | _ => _ end).
  assert (":"%char ∈ ds) as Hin.
  { subst ds. destruct l as [|a l]; [|destruct (l ++ ":"%char :: r) as [|b t] eqn:E].
    - destruct r; left.
    - by destruct l.
    - simpl. rewrite E. assert (":"%char ∈ b :: t) by (rewrite <- E; apply elem_of_app; right; left).
      case_decide; [done|by right]. }
  destruct (forallb is_ascii_digit ds) eqn:Hd; [|by rewrite orb_true_r].
  by apply (proj1 (forallb_elem _ _) Hd) in Hin.
Qed.

(** ** Properties *)

(** The schemes a user may paste, and what may follow the authority. *)
Definition pasted_scheme (s : str) : Prop := s = [] ∨ s = lit "http://" ∨ s = lit "https://".
Definition url_path (p : str) : Prop := p = [] ∨ (∃ rest, p = "/"%char :: rest) ∧ tight p.
Definition plain_target_host (h : str) : Prop :=
  ("/"%char ∉ h) ∧ ∃ a t, h = a :: t ∧ is_ascii a = true ∧ is_ascii_ws a = false.

Lemma dec_tight p : (0 ≤ p ≤ u64_max)%Z → tight (dec p).
Proof.
  intros Hp. destruct (dec_spec p Hp) as (_ & Hd & _).
  assert (∀ a, a ∈ dec p → is_ascii a = true ∧ is_ascii_ws a = false) as Ha.
  { intros a Hin. apply (proj1 (forallb_elem _ _) Hd) in Hin. revert Hin. byte_cases a. }
  split; [intros a t E; apply Ha; rewrite E; left|].
  intros a [l E]%rev_last. apply Ha. rewrite E. apply elem_of_app; right; left.
Qed.

Lemma tight_app l r : tight l → tight r → tight (l ++ r).
Proof.
  intros [Hl1 Hl2] [Hr1 Hr2]. split.
  - intros a t E. destruct l as [|b l]; [by apply (Hr1 a t)|]. injection E as -> <-. by eapply Hl1.
  - intros a E. destruct r as [|b r] using rev_ind; [rewrite app_nil_r in E; by apply Hl2|].
    apply Hr2. rewrite app_assoc, last_snoc in E. by rewrite last_snoc.
Qed.

Lemma authority_of scheme host p path :
  pasted_scheme scheme → "/"%char ∉ host → (0 ≤ p ≤ u64_max)%Z → url_path path →
  target_authority (scheme ++ host ++ ":"%char :: dec p ++ path) = host ++ ":"%char :: dec p.
Proof.
  intros Hs Hh Hp Hpath. destruct (dec_spec p Hp) as (_ & Hd & Hne).
  assert ("/"%char ∉ host ++ ":"%char :: dec p) as Hni.
  { rewrite not_elem_of_app, not_elem_of_cons. split_and!; [done..|by apply digits_no_char]. }
  assert (∀ u, u = (host ++ ":"%char :: dec p) ++ path →
            default u (head (split "/" u)) = host ++ ":"%char :: dec p) as Hsp.
  { intros u ->. rewrite slash_free_head by done.
    destruct Hpath as [->|[[rest ->] _]]; simpl; by rewrite app_nil_r. }
  assert (host ++ ":"%char :: dec p ++ path = (host ++ ":"%char :: dec p) ++ path) as Ha
    by (by rewrite <- app_assoc).
  unfold target_authority. destruct Hs as [->|[->| ->]]; [|by apply Hsp..].
  assert (∀ q, q = lit "http://" ∨ q = lit "https://" →
            strip_prefix q (host ++ ":"%char :: dec p ++ path) = None) as Hq.
  { intros q Hq. destruct (strip_prefix q _) as [r|] eqn:E; [|done]. exfalso.
    apply strip_prefix_Some in E. rewrite Ha in E.
    assert (∃ w v, q ++ r = (w ++ [":"%char]) ++ "/"%char :: v ∧ "/"%char ∉ w ++ [":"%char])
      as (w & v & Ew & Hw).
    { destruct Hq as [-> | ->]; [exists (lit "http"), ("/"%char :: r)|exists (lit "https"), ("/"%char :: r)];
      (split; [done|]; cbn; rewrite !not_elem_of_cons; split_and!; try done; apply not_elem_of_nil). }
    rewrite Ew in E. destruct Hpath as [->|[[rest ->] _]].
    - rewrite app_nil_r in E. apply Hni. rewrite E. apply elem_of_app; right; left.
    - assert (split_once "/" ((host ++ ":"%char :: dec p) ++ "/"%char :: rest)
                = Some (host ++ ":"%char :: dec p, rest)) as H1 by (by apply split_once_Some).
      assert (split_once "/" ((w ++ [":"%char]) ++ "/"%char :: v)
                = Some (w ++ [":"%char], v)) as H2 by (by apply split_once_Some).
      rewrite E, H2 in H1. injection H1 as H1 _.
      destruct (dec p) as [|c ds _] using rev_ind; [done|].
      change (host ++ ":"%char :: ds ++ [c]) with (host ++ (":"%char :: ds) ++ [c]) in H1.
      rewrite app_assoc in H1. apply app_inj_2 in H1 as [_ [= <-]]; [|done].
      rewrite forallb_app in Hd. by apply andb_true_iff in Hd as [_ ?]. }
  cbn [app]. rewrite !Hq by auto. cbn [default from_option]. by apply Hsp.
Qed.

(** The forms users type all resolve: a port becomes a loopback address, and
    [host:port], alone or inside a URL, is itself, whatever surrounds it. *)
Theorem forward_target_forms p w1 w2 host scheme path :
  (1 ≤ p ≤ u16_max)%Z → forallb is_ascii_ws w1 = true → forallb is_ascii_ws w2 = true →
  plain_target_host host → pasted_scheme scheme → url_path path →
  parse_forward_target (w1 ++ dec p ++ w2) = Ok (lit "127.0.0.1:" ++ dec p) ∧
  parse_forward_target (w1 ++ (scheme ++ host ++ ":"%char :: dec p ++ path) ++ w2) =
    Ok (host ++ ":"%char :: dec p).
Proof.
  intros Hp Hw1 Hw2 [Hslash (a & t & -> & Ha & Haw)] Hs Hpath.
  assert (0 ≤ p ≤ u64_max)%Z as Hp' by (unfold u16_max, u64_max in *; lia).
  pose proof (dec_tight p Hp') as Ht. destruct (dec_spec p Hp') as (_ & Hd & Hne).
  pose proof (parse_u16_dec p ltac:(lia)) as Hparse. unfold parse_forward_target. split.
  - rewrite trim_pad, bool_decide_eq_false_2, Hparse by done.
    by rewrite (proj2 (Z.eqb_neq p 0)) by lia.
  - rewrite trim_pad; [|done|done| |].
    + rewrite bool_decide_eq_false_2 by (destruct scheme; done).
      rewrite (app_assoc scheme), parse_u16_colon, <- app_assoc, authority_of by done.
      rewrite (proj2 (rsplit_once_Some ":" _ (a :: t) (dec p)))
        by (split; [done|by apply digits_no_char]).
      by rewrite bool_decide_eq_false_2, Hparse.
    + by destruct scheme.
    + split.
      * intros b u E. destruct Hs as [-> | [-> | ->]]; [|by injection E as <- _..].
        injection E as <- _. done.
      * intros b E. destruct Hpath as [->|[_ Hpath]].
        -- rewrite app_nil_r in E. apply Ht.
           destruct (dec p) as [|c ds _] using rev_ind; [done|].
           rewrite last_snoc. rewrite <- E. symmetry.
           change (":"%char :: ds ++ [c]) with ((":"%char :: ds) ++ [c]).
           by rewrite !app_assoc, last_snoc.
        -- destruct (tight_app (dec p) path Ht Hpath) as [_ Hl]. apply Hl. rewrite <- E.
           destruct (dec p ++ path) as [|c ds _] eqn:? using rev_ind; [by destruct (dec p)|].
           rewrite last_snoc. symmetry.
           change (":"%char :: ds ++ [c]) with ((":"%char :: ds) ++ [c]).
           by rewrite !app_assoc, last_snoc.
Qed.

Lemma forward_target_forms_witness :
  parse_forward_target (lit " " ++ lit "8080" ++ lit " ") = Ok (lit "127.0.0.1:8080") ∧
  parse_forward_target (lit " " ++ lit "http://localhost:8080/ignored" ++ lit " ")
    = Ok (lit "localhost:8080").
Proof.
  apply (forward_target_forms 8080 (lit " ") (lit " ") (lit "localhost") (lit "http://") (lit "/ignored"));
    [done|done|done| |right; by left| ].
  - split; [by apply (bool_decide_eq_true_1 _)|]. by exists "l"%char, (lit "ocalhost").
  - right. split; [by eexists|]. split; [by intros ? ? [= <- <-]|by intros ? [= <-]].
Defined.

(** Whatever is accepted names a host and a port: [host:port] with a non-empty
    host, no path, and a port that parses; everything else is refused. The port is
    only checked to be non-zero in the bare form. *)
Theorem forward_target_sound raw :
  match parse_forward_target raw with
  | Ok addr => ∃ host port n, addr = host ++ ":"%char :: port ∧ host ≠ [] ∧
      ("/"%char ∉ addr) ∧ (":"%char ∉ port) ∧ parse_u16 port = Some n ∧
      (parse_u16 (trim raw) ≠ None → host = lit "127.0.0.1" ∧ n ≠ 0%Z)
  | Err _ =>
      trim raw = [] ∨ parse_u16 (trim raw) = Some 0%Z ∨
      parse_u16 (trim raw) = None ∧
        ∀ host port, target_authority (trim raw) = host ++ ":"%char :: port → ":"%char ∉ port →
          host = [] ∨ parse_u16 port = None
  end.
Proof.
  unfold parse_forward_target. case_bool_decide as Ht; [by left|].
  destruct (parse_u16 (trim raw)) as [p|] eqn:Hp.
  { destruct (Z.eqb_spec p 0) as [->|Hz]; [by right; left|].
    assert (0 ≤ p ≤ u16_max)%Z as Hb by (by eapply parse_u16_bounds).
    assert (0 ≤ p ≤ u64_max)%Z as Hb' by (unfold u16_max, u64_max in *; lia).
    destruct (dec_spec p Hb') as (_ & Hd & _).
    exists (lit "127.0.0.1"), (dec p), p. split_and!; [done|done| |by apply digits_no_char| |done].
    - apply not_elem_of_app. split; [by apply (bool_decide_eq_true_1 _)|by apply digits_no_char].
    - by apply parse_u16_dec. }
  pose proof (authority_no_slash (trim raw)) as Hs.
  destruct (rsplit_once ":" (target_authority (trim raw))) as [[host port]|] eqn:E.
  - apply rsplit_once_Some in E as [E Hc].
    assert (∀ host' port', target_authority (trim raw) = host' ++ ":"%char :: port' →
              ":"%char ∉ port' → host' = host ∧ port' = port) as Hu.
    { intros h q H1 H2. pose proof (proj2 (rsplit_once_Some _ _ _ _) (conj H1 H2)) as H3.
      pose proof (proj2 (rsplit_once_Some _ _ _ _) (conj E Hc)) as H4.
      rewrite H3 in H4. by injection H4. }
    case_bool_decide as Hh.
    { right; right. split; [done|]. intros h q H1 H2. left. by destruct (Hu h q H1 H2) as [-> _]. }
    destruct (parse_u16 port) as [n|] eqn:Hn.
    + exists host, port, n. by rewrite <- E.
    + right; right. split; [done|]. intros h q H1 H2. right. by destruct (Hu h q H1 H2) as [_ ->].
  - right; right. split; [done|]. intros h q H1 H2. exfalso.
    apply rsplit_once_None in E. apply E. rewrite H1. apply elem_of_app; right; left.
Qed.

(** The port of [host:port] may be 0 or signed, although a bare 0 is refused. *)
Lemma odd_ports_accepted :
  is_ok (parse_forward_target (lit "0")) = false ∧
  parse_forward_target (lit "localhost:0") = Ok (lit "localhost:0") ∧
  parse_forward_target (lit "localhost:+80") = Ok (lit "localhost:+80").
Proof. by vm_compute. Qed.

(** C39: the backoff starts at 250 ms, doubles with every attempt up to the ceiling of
    30 s and stays there, never decreasing and never overflowing. *)
Theorem reconnect_delay_spec attempt :
  (0 ≤ attempt ≤ u32_max)%Z →
  reconnect_delay attempt = (if (attempt <=? 6)%Z then 250 * 2 ^ attempt else 30000)%Z ∧
  (BASE_MS ≤ reconnect_delay attempt ≤ MAX_MS)%Z ∧
  (∀ later, attempt ≤ later → reconnect_delay attempt ≤ reconnect_delay later)%Z.
Proof.
  assert (∀ n, (0 ≤ n)%Z → reconnect_delay n = (if (n <=? 6)%Z then 250 * 2 ^ n else 30000)%Z) as Hspec.
  { intros n Hn. unfold reconnect_delay, BASE_MS, MAX_MS, u64_max. rewrite Z.shiftl_1_l.
    destruct (Z.leb_spec n 6) as [H|H].
    - assert (n = 0 ∨ n = 1 ∨ n = 2 ∨ n = 3 ∨ n = 4 ∨ n = 5 ∨ n = 6)%Z as Hc by lia.
      by repeat destruct Hc as [->|Hc]; [done..|subst].
    - assert (2 ^ 7 ≤ 2 ^ Z.min n 8)%Z by (apply Z.pow_le_mono_r; lia).
      assert (2 ^ Z.min n 8 ≤ 2 ^ 8)%Z by (apply Z.pow_le_mono_r; lia). lia. }
  intros Ha.
  assert (∀ n, (0 ≤ n)%Z → (250 ≤ reconnect_delay n ≤ 30000)%Z) as Hb.
  { intros n Hn. rewrite Hspec by lia. destruct (Z.leb_spec n 6); [|lia].
    assert (2 ^ 0 ≤ 2 ^ n)%Z by (apply Z.pow_le_mono_r; lia).
    assert (2 ^ n ≤ 2 ^ 6)%Z by (apply Z.pow_le_mono_r; lia). lia. }
  split_and!; [apply Hspec; lia|apply Hb; lia|apply Hb; lia|].
  intros later Hl. destruct (Z.leb_spec later 6).
  - rewrite !Hspec by lia. destruct (Z.leb_spec attempt 6), (Z.leb_spec later 6); [|lia..].
    apply Z.mul_le_mono_nonneg_l, Z.pow_le_mono_r; lia.
  - rewrite (Hspec later) by lia. destruct (Z.leb_spec later 6); [lia|]. apply Hb. lia.
Qed.

Lemma reconnect_delay_spec_witness : reconnect_delay 100 = 30000%Z.
Proof. exact (proj1 (reconnect_delay_spec 100 ltac:(by vm_compute))). Defined.
