(* ===== verification/Agent.v ===== *)
(** * [norupo-client/src/agent.rs]: the agent

    The agent's session is a shared state: the frame queue to the edge, the stream
    table, and, as objects, the request-body channels and the send windows that
    the table and the streams' tasks share. [options] and the HTTP client never
    change, so they are arguments. *)

From S2P Require Import Prelude RustStr Crates Async Proto Http ClientConfig.

Definition MAX_CHUNK : Z := 64 * 1024.
Definition OUTBOUND_QUEUE : nat := 1024.
Definition BODY_QUEUE : nat := 16.
Definition AGENT_VERSION : str := lit "0.1.1".

Record AgentOptions := mkAgentOptions {
  opt_server : str;
  opt_token : str;
  opt_forward_addr : str;
  opt_subdomain : option str;
  opt_domain : option str;
  opt_rewrite_host : bool;
  opt_max_retries : Z;
}.

(** The [http] command of [main.rs]; [server] and [token] are global options. *)
Definition agent_options (server token : str) (args : HttpArgs) : result AgentOptions str :=
  let? addr := forward_addr args in
  Ok (mkAgentOptions server token addr (arg_subdomain args) (arg_domain args)
        (arg_rewrite_host args) (arg_max_retries args)).

(** [env] reads an environment variable. *)
Definition agent_metadata (os arch : str) (env : str → option str) : gmap str str :=
  let hostname := match env (lit "HOSTNAME") with
                  | Some h => h
                  | None => default (lit "unknown") (env (lit "COMPUTERNAME"))
                  end in
  <[lit "hostname" := hostname]> (<[lit "arch" := arch]> {[lit "os" := os]}).

(** [since_epoch]: milliseconds, or nothing if the clock is before the epoch. *)
Definition now_ms (since_epoch : option Z) : Z :=
  match since_epoch with
  | Some ms => if (ms <=? i64_max)%Z then ms else i64_max
  | None => 0
  end.

Inductive AgentEvent :=
| Connected (session_id node_id : str)
| TunnelReady (status : TunnelStatus)
| TunnelRejected (reason : str)
| Disconnected (reason : str).

Inductive SessionError :=
| Transient (e : str)
| Fatal (e : str).

(** ** Talking to the local service *)

(** How a request builder of the [http] crate fails. *)
Inductive BuildError := BadMethod | BadUri | BadHeader.

(** A frame of the local service's body, or its failure. *)
Inductive LocalFrame {T : Type} := LocalData (bytes : str) | LocalTrailers (trailers : T) | LocalFailed (e : str).
Arguments LocalFrame : clear implicits.

Section local.
Context `{HttpCrate}.

Record LocalRequest := mkLocalRequest {
  lq_method : str;
  lq_uri : str;
  lq_headers : HeaderMap;
}.

Record LocalResponse := mkLocalResponse {
  lr_status : Z;
  lr_headers : HeaderMap;
  lr_frames : list (LocalFrame HeaderMap);
}.

(** One turn of the header loop of [serve_stream]. *)
Definition add_client_header (rewrite_host : bool) (map : HeaderMap) (header : Header) : HeaderMap :=
  let lower := to_ascii_lowercase (h_name header) in
  if bool_decide (lower = lit "host") && rewrite_host then map
  else match header_name (h_name header), header_value (h_value header) with
       | Some name, Some value => hm_append name value map
       | _, _ => map
       end.

(** [Builder::header] with a [&str] value; [HeaderValue] takes visible ASCII. *)
Definition builder_header (name value : str) (map : HeaderMap) : result HeaderMap BuildError :=
  match value_to_str value with
  | Some v => Ok (hm_append name v map)
  | None => Err BadHeader
  end.

Definition forwarded_for (remote_addr : str) : option str :=
  '(ip, _) ← rsplit_once ":" remote_addr;
  Some (trim_matches (λ a, is_char "[" a || is_char "]" a) ip).

(** The builder calls of [serve_stream]; the parsers of methods and URIs are the
    [http] crate's. *)
Definition local_request (valid_method valid_uri : str → bool) (options : AgentOptions)
    (open : StreamOpen) (head : HttpRequestHead) : result LocalRequest BuildError :=
  let uri := lit "http://" ++ opt_forward_addr options ++ rq_path head in
  let? _ := (if valid_method (rq_method head) then Ok tt else Err BadMethod) in
  let? _ := (if valid_uri uri then Ok tt else Err BadUri) in
  let map := fold_left (add_client_header (opt_rewrite_host options)) (rq_headers head) hm_new in
  let? map := (if opt_rewrite_host options
               then builder_header (lit "host") (opt_forward_addr options) map else Ok map) in
  let? map := (match forwarded_for (so_remote_addr open) with
               | Some ip => builder_header (lit "x-forwarded-for") ip map
               | None => Ok map
               end) in
  let? map := builder_header (lit "x-forwarded-host") (rq_authority head) map in
  let? map := builder_header (lit "x-forwarded-proto") (lit "https") map in
  Ok (mkLocalRequest (rq_method head) uri map).

Definition wire_headers (map : HeaderMap) : list Header :=
  (λ p, mkHeader p.1 p.2) <$> hm_iter map.
End local.

(** The turns of the loop of [send_payload]; each takes at least one byte. *)
Fixpoint payload_chunks (fuel : nat) (payload : str) : list str :=
  match fuel with
  | O => []
  | S fuel =>
      if bool_decide (payload = []) then []
      else take (Z.to_nat MAX_CHUNK) payload :: payload_chunks fuel (drop (Z.to_nat MAX_CHUNK) payload)
  end.

(** ** The session *)
Section agent.
Context `{Tokio} `{HttpCrate}.
Context (valid_method valid_uri : str → bool) (http_error : BuildError → str).
Context (local_service : LocalRequest → result LocalResponse str).
Context (options : AgentOptions).

(** Indices of the objects: a body channel, a send window. *)
Record StreamState := mkStreamState { st_body_tx : nat; st_send_credit : nat }.

(** [ctx_spawned] lists the calls of [serve_stream] that were spawned; [ctx_now] is
    the wall clock, as [now_ms] reads it. *)
Record SessionCtx := mkSessionCtx {
  ctx_outbound : mpsc ClientFrame;
  ctx_streams : gmap Z StreamState;
  ctx_bodies : list (mpsc str);
  ctx_credits : list semaphore;
  ctx_events : mpsc AgentEvent;
  ctx_spawned : list (StreamOpen * nat * nat);
  ctx_now : Z;
}.

Definition ctx_new (events : mpsc AgentEvent) (now : Z) : SessionCtx :=
  mkSessionCtx (ch_channel OUTBOUND_QUEUE) ∅ [] [] events [] now.

Definition ctx_with_outbound (o : mpsc ClientFrame) (c : SessionCtx) : SessionCtx :=
  mkSessionCtx o (ctx_streams c) (ctx_bodies c) (ctx_credits c) (ctx_events c) (ctx_spawned c) (ctx_now c).
Definition ctx_with_events (e : mpsc AgentEvent) (c : SessionCtx) : SessionCtx :=
  mkSessionCtx (ctx_outbound c) (ctx_streams c) (ctx_bodies c) (ctx_credits c) e (ctx_spawned c) (ctx_now c).
Definition ctx_with_streams (m : gmap Z StreamState) (b : list (mpsc str)) (w : list semaphore)
    (c : SessionCtx) : SessionCtx :=
  mkSessionCtx (ctx_outbound c) m b w (ctx_events c) (ctx_spawned c) (ctx_now c).
Definition ctx_spawn (call : StreamOpen * nat * nat) (c : SessionCtx) : SessionCtx :=
  mkSessionCtx (ctx_outbound c) (ctx_streams c) (ctx_bodies c) (ctx_credits c) (ctx_events c)
    (ctx_spawned c ++ [call]) (ctx_now c).
Definition update_body (l : nat) (f : mpsc str → mpsc str) (c : SessionCtx) : SessionCtx :=
  ctx_with_streams (ctx_streams c) (alter f l (ctx_bodies c)) (ctx_credits c) c.
Definition update_credit (l : nat) (f : semaphore → semaphore) (c : SessionCtx) : SessionCtx :=
  ctx_with_streams (ctx_streams c) (ctx_bodies c) (alter f l (ctx_credits c)) c.

Definition ctx_send (payload : ClientPayload) : task SessionCtx bool :=
  await (λ c, match ch_send (Some payload : ClientFrame) (ctx_outbound c) with
              | Some (o, ok) => Some (ctx_with_outbound o c, ok)
              | None => None
              end).

(** [let _ = events.send(event).await]. *)
Definition emit (event : AgentEvent) : task SessionCtx unit :=
  await (λ c, match ch_send event (ctx_events c) with
              | Some (e, _) => Some (ctx_with_events e c, tt)
              | None => None
              end).

(** The entry goes, and its handles with it: the window is closed. *)
Definition drop_stream (stream_id : Z) (c : SessionCtx) : SessionCtx :=
  match ctx_streams c !! stream_id with
  | Some st =>
      ctx_with_streams (delete stream_id (ctx_streams c)) (alter ch_drop_tx (st_body_tx st) (ctx_bodies c))
        (alter sem_close (st_send_credit st) (ctx_credits c)) c
  | None => c
  end.

Definition reset (stream_id : Z) (code : ResetCode) (message : str) : task SessionCtx unit :=
  ctx_send (CReset stream_id (reset_code_i32 code) message) ;;! Ret tt.

Definition acquire_window (l : nat) (n : Z) : task SessionCtx bool :=
  await (λ c, match ctx_credits c !! l with
              | Some w =>
                  match sem_acquire_many n w with
                  | Some (w', ok) => Some (update_credit l (λ _, w') c, ok)
                  | None => None
                  end
              | None => None
              end).

Fixpoint send_pieces (stream_id : Z) (credit : nat) (chunks : list str) : task SessionCtx bool :=
  match chunks with
  | [] => Ret true
  | chunk :: rest =>
      let! permit := acquire_window credit (u32_saturate (byte_len chunk)) in
      if negb permit then Ret false
      else
        let! sent := ctx_send (CData stream_id chunk) in
        if negb sent then Ret false else send_pieces stream_id credit rest
  end.

Definition send_payload (stream_id : Z) (credit : nat) (payload : str) : task SessionCtx bool :=
  send_pieces stream_id credit (payload_chunks (length payload) payload).

(** The [while] loop over the response body, and what follows it. *)
Fixpoint relay_body (stream_id : Z) (credit : nat) (trailers : list Header)
    (frames : list (LocalFrame HeaderMap)) : task SessionCtx unit :=
  match frames with
  | [] => ctx_send (CEnd stream_id trailers) ;;! modify (drop_stream stream_id)
  | LocalData data :: rest =>
      let! sent := send_payload stream_id credit data in
      if negb sent then modify (drop_stream stream_id)
      else relay_body stream_id credit trailers rest
  | LocalTrailers map :: rest => relay_body stream_id credit (wire_headers map) rest
  | LocalFailed e :: _ =>
      reset stream_id ResetInternal (lit "local body error: " ++ e) ;;! modify (drop_stream stream_id)
  end.

(** [body] and [credit] are the receiver and the window it was spawned with. A
    request that is not sent, or fails, drops the receiver. *)
Definition serve_stream (open : StreamOpen) (body credit : nat) : task SessionCtx unit :=
  let stream_id := so_stream_id open in
  match so_http open with
  | None =>
      (reset stream_id ProtocolError (lit "Open frame without an HTTP head") ;;!
       modify (drop_stream stream_id)) ;;! modify (update_body body ch_drop_rx)
  | Some head =>
      match local_request valid_method valid_uri options open head with
      | Err e =>
          modify (update_body body ch_drop_rx) ;;!
          reset stream_id ProtocolError (lit "bad request: " ++ http_error e) ;;!
          modify (drop_stream stream_id)
      | Ok request =>
          match local_service request with
          | Err e =>
              modify (update_body body ch_drop_rx) ;;!
              reset stream_id LocalUnreachable
                (lit "cannot reach " ++ opt_forward_addr options ++ lit ": " ++ e) ;;!
              modify (drop_stream stream_id)
          | Ok response =>
              let! sent := ctx_send (CResponseHead (mkResponseHead stream_id (lr_status response)
                                                      (wire_headers (lr_headers response)))) in
              if negb sent then modify (drop_stream stream_id)
              else relay_body stream_id credit [] (lr_frames response)
          end
      end
  end.

(** ** Frames from the edge *)

Definition build_open_tunnel (now : Z) : OpenTunnel :=
  mkOpenTunnel (lit "req_" ++ dec now)
    (Some (SpecHttp (mkHttpSpec (default [] (opt_subdomain options)) (default [] (opt_domain options))
                       (opt_forward_addr options) (opt_rewrite_host options)))).

(** The [Open] arm up to spawning: the channel and the window are made and the
    stream is registered; an entry of the same id is replaced, dropping its sender. *)
Definition register_open (open : StreamOpen) (c : SessionCtx) : SessionCtx :=
  let body := length (ctx_bodies c) in
  let credit := length (ctx_credits c) in
  let bodies := match ctx_streams c !! so_stream_id open with
                | Some old => alter ch_drop_tx (st_body_tx old) (ctx_bodies c)
                | None => ctx_bodies c
                end in
  ctx_spawn (open, body, credit)
    (ctx_with_streams (<[so_stream_id open := mkStreamState body credit]> (ctx_streams c))
       (bodies ++ [ch_channel BODY_QUEUE]) (ctx_credits c ++ [sem_new (so_initial_window open)]) c).

(** A clone of the body sender of a registered stream. *)
Definition body_sender (stream_id : Z) (c : SessionCtx) : SessionCtx * option nat :=
  match ctx_streams c !! stream_id with
  | Some st => (update_body (st_body_tx st) ch_clone_tx c, Some (st_body_tx st))
  | None => (c, None)
  end.

Definition push_body (l : nat) (payload : str) : task SessionCtx bool :=
  await (λ c, match ctx_bodies c !! l with
              | Some b =>
                  match ch_send payload b with
                  | Some (b', ok) => Some (update_body l (λ _, b') c, ok)
                  | None => None
                  end
              | None => None
              end).

(** The replaced sender is dropped; the new one has no receiver. *)
Definition close_request_body (stream_id : Z) (c : SessionCtx) : SessionCtx :=
  match ctx_streams c !! stream_id with
  | Some st =>
      ctx_with_streams
        (<[stream_id := mkStreamState (length (ctx_bodies c)) (st_send_credit st)]> (ctx_streams c))
        (alter ch_drop_tx (st_body_tx st) (ctx_bodies c) ++ [ch_drop_rx (ch_channel 1)])
        (ctx_credits c) c
  | None => c
  end.

(** [false]: [add_permits] panics. *)
Definition on_window_update (stream_id increment : Z) (c : SessionCtx) : SessionCtx * bool :=
  match ctx_streams c !! stream_id with
  | Some st =>
      match ctx_credits c !! st_send_credit st with
      | Some w => match sem_add_permits increment w with
                  | Some w' => (update_credit (st_send_credit st) (λ _, w') c, true)
                  | None => (c, false)
                  end
      | None => (c, true)
      end
  | None => (c, true)
  end.

Definition on_data (stream_id : Z) (payload : str) : task SessionCtx unit :=
  let! sender := atomic (body_sender stream_id) in
  match sender with
  | None => Ret tt
  | Some l =>
      let! ok := push_body l payload in
      (if ok then
         ctx_send (CWindowUpdate stream_id (u32_saturate (byte_len payload))) ;;! Ret tt
       else modify (drop_stream stream_id)) ;;!
      modify (update_body l ch_drop_tx)
  end.

(** [false]: the handler panicked. *)
Definition handle_server_frame (payload : ServerPayload) : task SessionCtx bool :=
  match payload with
  | SWelcome welcome =>
      emit (Connected (w_session_id welcome) (w_node_id welcome)) ;;!
      let! now := query ctx_now in
      ctx_send (COpenTunnel (build_open_tunnel now)) ;;! Ret true
  | STunnelStatus status =>
      emit (if ts_accepted status then TunnelReady status else TunnelRejected (ts_error status)) ;;!
      Ret true
  | SOpen open => modify (register_open open) ;;! Ret true
  | SData stream_id payload => on_data stream_id payload ;;! Ret true
  | SEnd stream_id _ => modify (close_request_body stream_id) ;;! Ret true
  | SReset stream_id _ _ => modify (drop_stream stream_id) ;;! Ret true
  | SWindowUpdate stream_id increment => atomic (on_window_update stream_id increment)
  | SPing nonce _ =>
      let! now := query ctx_now in
      ctx_send (CPong nonce now) ;;! Ret true
  | SShutdown _ _ _ => Ret true
  | SResponseHead _ => Ret true
  end.

(** ** One session *)

(** What the read loop's [select!] yields; after the last item the edge has closed
    the stream. *)
Inductive Inbound :=
| InFrame (frame : ServerFrame)
| InStatus (text : str)
| InShutdown.

Inductive SessionEnd := Ended (r : result unit SessionError) | PanickedInFrame.

Fixpoint read_loop (inbound : list Inbound) : task SessionCtx SessionEnd :=
  match inbound with
  | [] => Ret (Ended (Ok tt))
  | InShutdown :: _ => Ret (Ended (Ok tt))
  | InStatus text :: _ => Ret (Ended (Err (Transient (lit "stream error: " ++ text))))
  | InFrame None :: rest => read_loop rest
  | InFrame (Some payload) :: rest =>
      let! alive := handle_server_frame payload in
      if alive then read_loop rest else Ret PanickedInFrame
  end.

(** How the edge's refusal of the RPC is classified; [status_text] is [Status]'s
    [Display]. *)
Definition classify_status (status_text : Status → str) (status : Status) : SessionError :=
  match st_code status with
  | Unauthenticated | PermissionDenied => Fatal (lit "authentication failed: " ++ st_message status)
  | FailedPrecondition => Fatal (lit "edge refused the session: " ++ st_message status)
  | Unavailable | OtherCode => Transient (lit "session RPC failed: " ++ status_text status)
  end.

Definition hello (metadata : gmap str str) : Hello :=
  mkHello (opt_token options) AGENT_VERSION PROTOCOL_VERSION metadata.

(** The connection attempt and the RPC's answer come from outside. *)
Definition run_session (status_text : Status → str) (metadata : gmap str str)
    (connect : result unit str) (rpc : result (list Inbound) Status) : task SessionCtx SessionEnd :=
  match connect with
  | Err e => Ret (Ended (Err (Transient (lit "connect to " ++ opt_server options ++ lit ": " ++ e))))
  | Ok _ =>
      let! sent := ctx_send (CHello (hello metadata)) in
      if negb sent then Ret (Ended (Err (Transient (lit "outbound queue closed"))))
      else match rpc with
           | Err status => Ret (Ended (Err (classify_status status_text status)))
           | Ok inbound => read_loop inbound
           end
  end.

(** ** [run]: sessions until told to stop, or out of retries *)

(** What one turn of the loop meets: the shutdown flag before and after the
    session, and whether it is raised during the delay. *)
Record Turn := mkTurn {
  turn_stop_before : bool;
  turn_session : result unit SessionError;
  turn_stop_after : bool;
  turn_stop_asleep : bool;
}.

Inductive Action := RanSession (r : result unit SessionError) | Notified (e : AgentEvent) | Slept (ms : Z).

(** [StillRunning]: the turns given are over. *)
Inductive RunEnd := Stopped | Failed (e : str) | StillRunning (attempt : Z).

Definition giving_up : str :=
  lit "giving up after " ++ dec (opt_max_retries options) ++ lit " reconnect attempts".

(** The turn from the end of the session on. *)
Definition after_session (attempt : Z) (turn : Turn) : list Action * RunEnd :=
  if turn_stop_after turn then ([], Stopped)
  else if (0 <? opt_max_retries options)%Z && (opt_max_retries options <=? attempt)%Z
  then ([], Failed giving_up)
  else
    let delay := reconnect_delay attempt in
    let attempt := u32_saturating_add attempt 1 in
    ([Slept delay], if turn_stop_asleep turn then Stopped else StillRunning attempt).

Definition run_turn (attempt : Z) (turn : Turn) : list Action * RunEnd :=
  if turn_stop_before turn then ([], Stopped)
  else
    let ran := RanSession (turn_session turn) in
    match turn_session turn with
    | Ok _ => let '(acts, e) := after_session 0 turn in (ran :: acts, e)
    | Err (Fatal e) => ([ran], Failed e)
    | Err (Transient e) =>
        let '(acts, r) := after_session attempt turn in (ran :: Notified (Disconnected e) :: acts, r)
    end.

Fixpoint run_agent (attempt : Z) (turns : list Turn) : list Action * RunEnd :=
  match turns with
  | [] => ([], StillRunning attempt)
  | turn :: rest =>
      let '(acts, e) := run_turn attempt turn in
      match e with
      | StillRunning attempt' =>
          let '(acts', e') := run_agent attempt' rest in (acts ++ acts', e')
      | _ => (acts, e)
      end
  end.
End agent.

(** ** Lemmas: what an agent task sends *)
Section sending.
Context `{Tokio} `{HttpCrate}.

Notation step_pair := (SessionCtx * SessionCtx)%type.

Definition out_queue (c : SessionCtx) : list ClientFrame := ch_queue (ch_view (ctx_outbound c)).
Definition permits (l : nat) (c : SessionCtx) : Z :=
  match ctx_credits c !! l with Some w => sem_permits (sem_view w) | None => 0 end.

(** The frames a task's own steps put on the queue, the body bytes in them, and
    the credit they took off window [l]. *)
Definition sent_frames (tr : list step_pair) : list ClientFrame :=
  tr ≫= λ p, drop (length (out_queue p.1)) (out_queue p.2).
Definition data_bytes (fs : list ClientFrame) : Z :=
  foldr (λ f n, match f with Some (CData _ d) => byte_len d + n | _ => n end)%Z 0%Z fs.
Definition spent (l : nat) (tr : list step_pair) : Z :=
  foldr (λ p n, permits l p.1 - permits l p.2 + n)%Z 0%Z tr.

(** A step that found the edge's queue or the window closed, and one that removes
    the stream. *)
Definition aborted (l : nat) (p : step_pair) : Prop :=
  ch_receiver (ch_view (ctx_outbound p.1)) = false ∨
  ∃ w, ctx_credits p.1 !! l = Some w ∧ sem_closed (sem_view w) = true.
Definition drops (id : Z) (p : step_pair) : Prop := p.2 = drop_stream id p.1.

Lemma sent_app tr1 tr2 : sent_frames (tr1 ++ tr2) = sent_frames tr1 ++ sent_frames tr2.
Proof using Type. apply bind_app. Qed.
Lemma data_app fs1 fs2 : data_bytes (fs1 ++ fs2) = (data_bytes fs1 + data_bytes fs2)%Z.
Proof using Type. induction fs1 as [|[[]|] fs1 IH]; simpl; lia. Qed.
Lemma spent_app l tr1 tr2 : spent l (tr1 ++ tr2) = (spent l tr1 + spent l tr2)%Z.
Proof using Type. induction tr1; simpl; lia. Qed.

(** A step that leaves the queue and the windows' permits alone. *)
Lemma silent_step l (s s' : SessionCtx) :
  ctx_outbound s' = ctx_outbound s → permits l s' = permits l s →
  sent_frames [(s, s')] = [] ∧ spent l [(s, s')] = 0%Z.
Proof using Type.
  intros Ho Hp. unfold sent_frames, out_queue. simpl. rewrite Ho, Hp, drop_all. split; [done|lia].
Qed.

Lemma permits_alter_close l k (c : SessionCtx) m b :
  permits l (ctx_with_streams m b (alter sem_close k (ctx_credits c)) c) = permits l c.
Proof using Type.
  unfold permits. simpl. destruct (decide (l = k)) as [->|].
  - rewrite list_lookup_alter_eq. destruct (ctx_credits c !! k); simpl; [by rewrite sem_close_view|done].
  - by rewrite list_lookup_alter_ne.
Qed.

Lemma drop_silent l id (c : SessionCtx) :
  ctx_outbound (drop_stream id c) = ctx_outbound c ∧ permits l (drop_stream id c) = permits l c.
Proof using Type.
  unfold drop_stream. destruct (ctx_streams c !! id); [|done]. split; [done|].
  apply permits_alter_close.
Qed.

Lemma exec_ctx_send {B} E p (k : bool → task SessionCtx B) s tr t' s' l :
  exec E (task_bind (ctx_send p) k) s tr t' s' →
  (tr = [] ∧ ∀ r, t' ≠ Ret r) ∨
  ∃ q tr' ok, tr = q :: tr' ∧ exec E (k ok) q.2 tr' t' s' ∧ spent l [q] = 0%Z ∧
    (if ok then sent_frames [q] = [Some p] else sent_frames [q] = [] ∧ aborted l q).
Proof using Type.
  intros [(-> & -> & _)|(s1 & s2 & ok & tr' & _ & Hf & -> & Hx)]%exec_await; [by left|right].
  exists (s1, s2), tr', ok. split_and!; [done|done| |].
  - destruct (ch_send _ _) as [[o b]|]; [|done]. injection Hf as <- <-.
    unfold spent, permits. simpl. lia.
  - pose proof (ch_send_view (Some p : ClientFrame) (ctx_outbound s1)) as Hv.
    destruct (ch_send _ (ctx_outbound s1)) as [[o b]|]; [|done]. injection Hf as <- <-.
    simpl in Hv. unfold send_spec in Hv. unfold sent_frames, out_queue, aborted. simpl.
    destruct (ch_receiver (ch_view (ctx_outbound s1))) eqn:Er; simpl in Hv.
    + destruct (decide _); [|done]. injection Hv as Ho ->. rewrite Ho. simpl.
      by rewrite drop_app_length.
    + injection Hv as Ho ->. rewrite Ho, drop_all. split; [done|]. by left.
Qed.

Lemma exec_acquire {B} E l n (k : bool → task SessionCtx B) s tr t' s' :
  exec E (task_bind (acquire_window l n) k) s tr t' s' →
  (tr = [] ∧ ∀ r, t' ≠ Ret r) ∨
  ∃ q tr' ok, tr = q :: tr' ∧ exec E (k ok) q.2 tr' t' s' ∧ sent_frames [q] = [] ∧
    (if ok then spent l [q] = n else spent l [q] = 0%Z ∧ aborted l q).
Proof using Type.
  intros [(-> & -> & _)|(s1 & s2 & ok & tr' & _ & Hf & -> & Hx)]%exec_await; [by left|right].
  exists (s1, s2), tr', ok.
  destruct (ctx_credits s1 !! l) as [w|] eqn:El; [|done].
  pose proof (sem_acquire_view n w) as Hv. destruct (sem_acquire_many n w) as [[w' b]|]; [|done].
  injection Hf as <- <-. simpl in Hv. unfold acquire_spec in Hv. split_and!; [done|done| |].
  - unfold sent_frames, out_queue. simpl. by rewrite drop_all.
  - unfold spent, permits, aborted. simpl.
    rewrite list_lookup_alter_eq, El. simpl.
    destruct (sem_closed (sem_view w)) eqn:Ec.
    + injection Hv as Hw ->. rewrite Hw. split; [lia|]. right. by exists w.
    + destruct (n <=? _)%Z; [|done]. injection Hv as Hw ->. rewrite Hw. simpl. lia.
Qed.

(** How far a stream's task has got: what it sent is a prefix of [full], every
    byte of it was paid for, and if it is over, it sent everything or was aborted,
    and the stream is gone. *)
Definition serves (id : Z) (l : nat) (full : list ClientFrame) (tr : list step_pair)
    (t' : task SessionCtx unit) : Prop :=
  sent_frames tr `prefix_of` full ∧ (data_bytes (sent_frames tr) ≤ spent l tr)%Z ∧
  (∀ r, t' = Ret r → (sent_frames tr = full ∨ Exists (aborted l) tr) ∧ Exists (drops id) tr).

Lemma serves_nil id l full t' : (∀ r, t' ≠ Ret r) → serves id l full [] t'.
Proof using Type.
  intros Hn. split; [apply prefix_nil|]. split; [done|]. intros r ->. by destruct (Hn r).
Qed.

Lemma serves_app id l fs full tr1 tr2 t' :
  sent_frames tr1 = fs → (data_bytes fs ≤ spent l tr1)%Z →
  serves id l full tr2 t' → serves id l (fs ++ full) (tr1 ++ tr2) t'.
Proof using Type.
  intros <- Hb (Hp & Hd & Hr). unfold serves. rewrite sent_app, data_app, spent_app. split_and!.
  - by apply prefix_app.
  - lia.
  - intros r ->. destruct (Hr r eq_refl) as [He Hx]. split; [|by apply Exists_app; right].
    destruct He as [->|He]; [by left|right]. apply Exists_app. by right.
Qed.

Lemma serves_drop E id l tr t' s s' :
  exec E (modify (drop_stream id)) s tr t' s' →
  serves id l [] tr t' ∧ (∀ r, t' = Ret r → tr ≠ []).
Proof using Type.
  intros [(-> & -> & _)|(s1 & s2 & t1 & tr' & _ & Hf & -> & Hx)]%exec_Step.
  { split; [by apply serves_nil|done]. }
  injection Hf as <- <-. apply exec_Ret in Hx as (-> & -> & _). split; [|done].
  destruct (drop_silent l id s1) as [Ho Hp]. destruct (silent_step l _ _ Ho Hp) as [Hs Hz].
  split; [by rewrite Hs|]. rewrite Hs, Hz. split; [done|]. intros r _. split; [by left|].
  by constructor.
Qed.

(** A task that was aborted and then drops the stream. *)
Lemma serves_abort E id l full tr1 tr2 t' s s' :
  exec E (modify (drop_stream id)) s tr2 t' s' →
  sent_frames tr1 `prefix_of` full → (data_bytes (sent_frames tr1) ≤ spent l tr1)%Z →
  Exists (aborted l) tr1 → serves id l full (tr1 ++ tr2) t'.
Proof using Type.
  intros Hx Hp Hb Ha. destruct (serves_drop E id l _ _ _ _ Hx) as [(Hp2 & Hb2 & Hr) _].
  apply prefix_nil_inv in Hp2. rewrite Hp2 in Hb2. unfold serves.
  rewrite sent_app, spent_app, Hp2, app_nil_r. simpl in Hb2. split_and!; [done|lia|].
  intros r ->. destruct (Hr r eq_refl) as [_ He].
  split; [right; apply Exists_app; by left|apply Exists_app; by right].
Qed.

(** A prefix that was paid for, on the way or at the abort. *)
Lemma exec_pieces E id l chunks s tr t' s' :
  Forall (λ c, (byte_len c ≤ u32_max)%Z) chunks →
  exec E (send_pieces id l chunks) s tr t' s' →
  sent_frames tr `prefix_of` ((λ c, Some (CData id c)) <$> chunks) ∧
  (data_bytes (sent_frames tr) ≤ spent l tr)%Z ∧
  match t' with
  | Ret true => sent_frames tr = (λ c, Some (CData id c)) <$> chunks
  | Ret false => Exists (aborted l) tr
  | Step _ => True
  end.
Proof using Type.
  intros Hc. revert s tr. induction Hc as [|c rest Hc _ IH]; intros s tr Hx.
  { apply exec_Ret in Hx as (-> & -> & _). done. }
  cbn [send_pieces] in Hx. rewrite u32_saturate_small in Hx by done.
  apply exec_acquire in Hx as [(-> & Hn)|(q & tr1 & ok & -> & Hx & Hs & Hq)].
  { split_and!; [apply prefix_nil|done|]. destruct t' as [r|]; [|done]. by destruct (Hn r). }
  assert (0 ≤ byte_len c)%Z as Hlen by (unfold byte_len; lia).
  assert (∀ tr, q :: tr = [q] ++ tr) as Happ by done.
  destruct ok; cbn [negb] in Hx; cycle 1.
  { apply exec_Ret in Hx as (-> & -> & _). destruct Hq as [Hz Ha]. rewrite Hs, Hz.
    split_and!; [apply prefix_nil|done|by constructor]. }
  apply (exec_ctx_send E _ _ _ _ _ _ l) in Hx as [(-> & Hn)|(q2 & tr2 & ok & -> & Hx & Hz & Hq2)].
  { rewrite Hs, Hq. split_and!; [apply prefix_nil|done|].
    destruct t' as [r|]; [|done]. by destruct (Hn r). }
  change (q :: q2 :: tr2) with ([q] ++ [q2] ++ tr2). rewrite !sent_app, !spent_app, Hs, Hq, Hz.
  destruct ok; cbn [negb] in Hx; cycle 1.
  { apply exec_Ret in Hx as (-> & -> & _). destruct Hq2 as [-> Ha]. simpl.
    split_and!; [apply prefix_nil|lia|by (right; constructor)]. }
  rewrite Hq2. destruct (IH _ _ Hx) as (Hp & Hb & Ht). simpl. split_and!.
  - by apply prefix_cons.
  - lia.
  - destruct t' as [[]|]; [by rewrite Ht|by (right; right)|done].
Qed.

Lemma max_chunk_pos : 0 < Z.to_nat MAX_CHUNK.
Proof using Type. unfold MAX_CHUNK. lia. Qed.

Lemma drop_shorter fuel (p : str) :
  p ≠ [] → length p ≤ S fuel → length (drop (Z.to_nat MAX_CHUNK) p) ≤ fuel.
Proof using Type.
  intros Hne Hp. pose proof max_chunk_pos as Hn. generalize dependent (Z.to_nat MAX_CHUNK).
  intros n Hn. rewrite length_drop. destruct p; [done|]. simpl in *. lia.
Qed.

Lemma chunks_concat fuel p : length p ≤ fuel → concat (payload_chunks fuel p) = p.
Proof using Type.
  revert p. induction fuel as [|fuel IH]; intros p Hp.
  { destruct p; [done|simpl in Hp; lia]. }
  cbn [payload_chunks]. case_bool_decide as Hd; [by subst|]. cbn [concat].
  rewrite IH by (by apply drop_shorter). apply take_drop.
Qed.

Lemma chunks_bounded fuel p :
  Forall (λ c, c ≠ [] ∧ (byte_len c ≤ MAX_CHUNK)%Z) (payload_chunks fuel p).
Proof using Type.
  revert p. induction fuel as [|fuel IH]; intros p; [constructor|]. cbn [payload_chunks].
  case_bool_decide as Hd; [constructor|]. constructor; [|apply IH].
  pose proof max_chunk_pos as Hn. pose proof (Z2Nat.id MAX_CHUNK ltac:(by unfold MAX_CHUNK)) as Hz.
  generalize dependent (Z.to_nat MAX_CHUNK). intros n Hn Hz. rewrite <- Hz. split.
  - by destruct p, n; [done..|lia|].
  - unfold byte_len. rewrite length_take. lia.
Qed.

(** All the frames that answer a request, from the local service's answer. *)
Definition data_frames (id : Z) (data : str) : list ClientFrame :=
  (λ c, Some (CData id c)) <$> payload_chunks (length data) data.
Fixpoint body_answer (id : Z) (trailers : list Header) (frames : list (LocalFrame HeaderMap))
  : list ClientFrame :=
  match frames with
  | [] => [Some (CEnd id trailers)]
  | LocalData data :: rest => data_frames id data ++ body_answer id trailers rest
  | LocalTrailers map :: rest => body_answer id (wire_headers map) rest
  | LocalFailed e :: _ => [Some (CReset id (reset_code_i32 ResetInternal) (lit "local body error: " ++ e))]
  end.

(** A reset, then the stream is dropped. *)
Lemma serves_reset E id l code message s tr t' s' :
  exec E (reset id code message ;;! modify (drop_stream id)) s tr t' s' →
  serves id l [Some (CReset id (reset_code_i32 code) message)] tr t'.
Proof using Type.
  intros [(f & Hx & ->)|(a & s1 & tr1 & tr2 & Hx & Hd & ->)]%exec_bind;
    apply (exec_ctx_send E _ _ _ _ _ _ l) in Hx as [(-> & Hn)|(q & tr3 & ok & -> & Hx & Hz & Hq)].
  - by apply serves_nil.
  - by apply exec_Ret in Hx as (_ & ? & _).
  - by destruct (Hn a).
  - apply exec_Ret in Hx as (-> & _ & _). destruct ok.
    + destruct (serves_drop E id l _ _ _ _ Hd) as [Hsv _].
      apply (serves_app id l [_] [] [q]); [done|by rewrite Hz|done].
    + destruct Hq as [Hq Ha].
      apply (serves_abort E id l _ [q] tr2 _ _ _ Hd);
        [rewrite Hq; apply prefix_nil|by rewrite Hq, Hz|by constructor].
Qed.

(** A last step that sends nothing. *)
Lemma serves_then_silent E id l full t f s tr t' s' :
  (∀ tr1 t1 s1, exec E t s tr1 t1 s1 → serves id l full tr1 t1) →
  (∀ c, ctx_outbound (f c) = ctx_outbound c) → (∀ c, ctx_credits (f c) = ctx_credits c) →
  exec E (t ;;! modify f) s tr t' s' → serves id l full tr t'.
Proof using Type.
  intros Hs Ho Hc [(g & Hx & ->)|([] & s1 & tr1 & tr2 & Hx & Hd & ->)]%exec_bind;
    destruct (Hs _ _ _ Hx) as (Hp & Hb & Hr); [by split_and!|].
  destruct (Hr tt eq_refl) as [He Hd'].
  apply exec_Step in Hd as [(-> & -> & _)|(s2 & s3 & t1 & tr' & _ & Hf & -> & Hd)].
  { rewrite app_nil_r. by split_and!. }
  injection Hf as <- <-. apply exec_Ret in Hd as (-> & -> & _).
  destruct (silent_step l s2 (f s2)) as [Hs2 Hz]; [done|unfold permits; by rewrite Hc|].
  unfold serves. rewrite sent_app, spent_app, Hs2, Hz, app_nil_r. split_and!; [done|lia|].
  intros r _. split; [|by apply Exists_app; left].
  destruct He as [->|He]; [by left|right]. by apply Exists_app; left.
Qed.

Lemma serves_end E id l trailers s tr t' s' :
  exec E (ctx_send (CEnd id trailers) ;;! modify (drop_stream id)) s tr t' s' →
  serves id l [Some (CEnd id trailers)] tr t'.
Proof using Type.
  intros [(-> & Hn)|(q & tr3 & ok & -> & Hd & Hz & Hq)]%(exec_ctx_send E _ _ _ _ _ _ l).
  { by apply serves_nil. }
  destruct ok.
  - destruct (serves_drop E id l _ _ _ _ Hd) as [Hsv _].
    apply (serves_app id l [_] [] [q]); [done|by rewrite Hz|done].
  - destruct Hq as [Hq Ha].
    apply (serves_abort E id l _ [q] tr3 _ _ _ Hd);
      [rewrite Hq; apply prefix_nil|by rewrite Hq, Hz|by constructor].
Qed.

Lemma data_fits data :
  Forall (λ c, (byte_len c ≤ u32_max)%Z) (payload_chunks (length data) data).
Proof using Type.
  eapply Forall_impl; [apply chunks_bounded|]. intros c [_ Hc]. simpl in *.
  unfold MAX_CHUNK, u32_max in *. lia.
Qed.

Lemma serves_relay E id l frames trailers s tr t' s' :
  exec E (relay_body id l trailers frames) s tr t' s' →
  serves id l (body_answer id trailers frames) tr t'.
Proof using Type.
  revert trailers s tr. induction frames as [|[data|map|e] rest IH]; intros trailers s tr Hx;
    cbn [relay_body body_answer] in *.
  - by eapply serves_end.
  - apply exec_bind in Hx as [(f & Hx & ->)|(a & s1 & tr1 & tr2 & Hx & Hd & ->)];
      apply exec_pieces in Hx as (Hp & Hb & Ht); [|apply data_fits| |apply data_fits].
    + split_and!; [by apply prefix_app_r|done|done].
    + destruct a; simpl in Hd.
      * apply serves_app; [done|unfold data_frames; by rewrite <- Ht|by eapply IH].
      * eapply serves_abort; [done|by apply prefix_app_r|done..].
  - eauto.
  - by eapply serves_reset.
Qed.
End sending.

Section serving.
Context `{Tokio} `{HttpCrate}.
Context (valid_method valid_uri : str → bool) (http_error : BuildError → str).
Context (local_service : LocalRequest → result LocalResponse str) (options : AgentOptions).

(** Every frame the agent owes the edge for a stream, from what the local service
    answers. *)
Definition stream_answer (open : StreamOpen) : list ClientFrame :=
  let id := so_stream_id open in
  let fails code message := [Some (CReset id (reset_code_i32 code) message)] in
  match so_http open with
  | None => fails ProtocolError (lit "Open frame without an HTTP head")
  | Some head =>
      match local_request valid_method valid_uri options open head with
      | Err e => fails ProtocolError (lit "bad request: " ++ http_error e)
      | Ok request =>
          match local_service request with
          | Err e => fails LocalUnreachable
                       (lit "cannot reach " ++ opt_forward_addr options ++ lit ": " ++ e)
          | Ok response =>
              Some (CResponseHead (mkResponseHead id (lr_status response)
                                     (wire_headers (lr_headers response)))) ::
              body_answer id [] (lr_frames response)
          end
      end
  end.

Lemma exec_drop_rx {B} E l body (k : unit → task SessionCtx B) s tr t' s' :
  exec E (task_bind (modify (update_body body ch_drop_rx)) k) s tr t' s' →
  (tr = [] ∧ ∀ r, t' ≠ Ret r) ∨
  ∃ q tr', tr = q :: tr' ∧ exec E (k tt) q.2 tr' t' s' ∧ sent_frames [q] = [] ∧ spent l [q] = 0%Z.
Proof using Type.
  intros [(-> & -> & _)|(s1 & tr' & _ & -> & Hx)]%exec_atomic; [by left|right].
  destruct (silent_step l s1 (update_body body ch_drop_rx s1)) as [Hs Hz]; [done..|].
  by eexists _, tr'.
Qed.

Lemma serve_stream_serves E open body credit s tr t' s' :
  exec E (serve_stream valid_method valid_uri http_error local_service options open body credit)
    s tr t' s' →
  serves (so_stream_id open) credit (stream_answer open) tr t'.
Proof using Type.
  unfold serve_stream, stream_answer. destruct (so_http open) as [head|]; cycle 1.
  { apply serves_then_silent; [|done..]. intros tr1 t1 s1. apply serves_reset. }
  destruct (local_request _ _ _ _ _) as [request|e].
  - destruct (local_service request) as [response|e].
    + intros [(-> & Hn)|(q & tr3 & ok & -> & Hd & Hz & Hq)]%(exec_ctx_send E _ _ _ _ _ _ credit).
      { by apply serves_nil. }
      destruct ok; cbn [negb] in Hd.
      * apply (serves_app _ _ [_] _ [q]); [done|by rewrite Hz|by eapply serves_relay].
      * destruct Hq as [Hq Ha]. apply (serves_abort E _ _ _ [q] tr3 _ _ _ Hd);
          [rewrite Hq; apply prefix_nil|by rewrite Hq, Hz|by constructor].
    + intros [(-> & Hn)|(q & tr3 & -> & Hd & Hq & Hz)]%(exec_drop_rx E credit); [by apply serves_nil|].
      apply (serves_app _ _ [] _ [q]); [done|by rewrite Hz|by eapply serves_reset].
  - intros [(-> & Hn)|(q & tr3 & -> & Hd & Hq & Hz)]%(exec_drop_rx E credit); [by apply serves_nil|].
    apply (serves_app _ _ [] _ [q]); [done|by rewrite Hz|by eapply serves_reset].
Qed.
End serving.

(** ** Lemmas: the request the local service gets *)
Section local_request_facts.
Context `{HttpCrate}.

Lemma add_client_header_get rewrite n map h :
  hm_get_all n (add_client_header rewrite map h) =
  hm_get_all n map ++
    (if decide (header_name (h_name h) = Some n ∧ ¬ (n = lit "host" ∧ rewrite = true))
     then option_list (header_value (h_value h)) else []).
Proof using Type.
  unfold add_client_header. destruct (header_name (h_name h)) as [n'|] eqn:En; cycle 1.
  { rewrite (decide_False (P := _ ∧ _)), app_nil_r by (by intros [? _]).
    by destruct (_ && _)%bool. }
  pose proof (header_name_lower _ _ En) as [Hl Hn]. rewrite <- Hl.
  destruct (bool_decide (n' = lit "host") && rewrite)%bool eqn:Hr.
  - apply andb_true_iff in Hr as [Hh%bool_decide_eq_true ->].
    rewrite decide_False, app_nil_r; [done|]. intros [[= ->] Hx]. by apply Hx.
  - rewrite header_value_spec. destruct (forallb header_value_byte (h_value h)) eqn:Ev; simpl.
    + rewrite hm_get_all_append by (first [done|by rewrite header_value_spec, Ev]). f_equal.
      destruct (decide (n = n')) as [->|Hd].
      * rewrite decide_True; [done|]. split; [done|]. intros [Hh ->]. rewrite andb_true_r in Hr.
        by apply bool_decide_eq_false in Hr.
      * rewrite decide_False; [done|]. intros [[= ->] _]. done.
    + destruct (decide _); by rewrite app_nil_r.
Qed.

(** The values of [n] that come from the public client. *)
Definition client_values (rewrite : bool) (n : str) (hs : list Header) : list str :=
  if decide (n = lit "host" ∧ rewrite = true) then [] else kept_values n hs.

Lemma client_headers_get rewrite n hs :
  hm_get_all n (fold_left (add_client_header rewrite) hs hm_new) = client_values rewrite n hs.
Proof using Type.
  enough (∀ m, hm_get_all n (fold_left (add_client_header rewrite) hs m) =
            hm_get_all n m ++ client_values rewrite n hs) as He by (by rewrite He, hm_get_all_new).
  unfold client_values. induction hs as [|h hs IH]; intros m; cbn [fold_left].
  { case_decide; by rewrite app_nil_r. }
  rewrite IH, add_client_header_get, <- app_assoc. f_equal. unfold kept_values.
  cbn [mbind list_bind]. repeat case_decide; naive_solver.
Qed.

(** The names the agent uses are header names. *)
Lemma fixed_name name :
  (byte_len name <=? 65535)%Z = true → token_name name = Some name → header_name name = Some name.
Proof using Type. intros Hb%Z.leb_le Ht. by rewrite header_name_token. Qed.

Lemma builder_header_get name value map map' n :
  header_name name = Some name → builder_header name value map = Ok map' →
  hm_get_all n map' = hm_get_all n map ++ (if decide (n = name) then [value] else []).
Proof using Type.
  intros Ht. unfold builder_header. destruct (value_to_str value) as [v|] eqn:Ev; [|done].
  intros [= <-]. pose proof Ev as Ev'. rewrite value_to_str_spec in Ev.
  destruct (forallb visible_byte value); [|done]. injection Ev as <-.
  apply hm_get_all_append; [done|by eapply visible_header_value].
Qed.

(** What the agent adds itself. *)
Definition agent_values (options : AgentOptions) (open : StreamOpen) (head : HttpRequestHead)
    (n : str) : list str :=
  (if decide (n = lit "host" ∧ opt_rewrite_host options = true) then [opt_forward_addr options] else []) ++
  (if decide (n = lit "x-forwarded-for") then option_list (forwarded_for (so_remote_addr open)) else []) ++
  (if decide (n = lit "x-forwarded-host") then [rq_authority head] else []) ++
  (if decide (n = lit "x-forwarded-proto") then [lit "https"] else []).

Lemma local_request_headers vm vu options open head request n :
  local_request vm vu options open head = Ok request →
  hm_get_all n (lq_headers request) =
    client_values (opt_rewrite_host options) n (rq_headers head) ++ agent_values options open head n.
Proof using Type.
  unfold local_request. destruct (vm _); [|done]. destruct (vu _); [|done]. cbn [res_bind].
  set (m0 := fold_left _ _ _). intros Hreq.
  apply res_bind_Ok in Hreq as (m1 & H1 & Hreq). apply res_bind_Ok in Hreq as (m2 & H2 & Hreq).
  apply res_bind_Ok in Hreq as (m3 & H3 & Hreq). apply res_bind_Ok in Hreq as (m4 & H4 & Hreq).
  injection Hreq as <-. cbn [lq_headers].
  rewrite (builder_header_get _ _ _ _ n (fixed_name (lit "x-forwarded-proto") eq_refl eq_refl) H4), (builder_header_get _ _ _ _ n (fixed_name (lit "x-forwarded-host") eq_refl eq_refl) H3).
  assert (hm_get_all n m2 = hm_get_all n m1 ++
    (if decide (n = lit "x-forwarded-for") then option_list (forwarded_for (so_remote_addr open)) else [])) as ->.
  { destruct (forwarded_for _) as [ip|].
    - by rewrite (builder_header_get _ _ _ _ n (fixed_name (lit "x-forwarded-for") eq_refl eq_refl) H2).
    - injection H2 as ->. case_decide; by rewrite app_nil_r. }
  assert (hm_get_all n m1 = hm_get_all n m0 ++
    (if decide (n = lit "host" ∧ opt_rewrite_host options = true) then [opt_forward_addr options] else [])) as ->.
  { destruct (opt_rewrite_host options).
    - rewrite (builder_header_get _ _ _ _ n (fixed_name (lit "host") eq_refl eq_refl) H1). repeat case_decide; naive_solver.
    - injection H1 as ->. rewrite decide_False by (by intros [_ ?]). by rewrite app_nil_r. }
  subst m0. rewrite client_headers_get. unfold agent_values. by rewrite <- !app_assoc.
Qed.
End local_request_facts.

(** ** Properties *)

(** C13: the task serving a stream sends the edge nothing but the answer it owes, in
    order: at any moment, whatever else the agent does, what it has sent is a prefix
    of the head, the body of the local service in pieces, and the end (or of the one
    reset that stands for it), and it has taken at least as much credit off the
    stream's window as the body bytes it sent. When it is over it has sent the whole
    answer, unless the edge hung up or the stream was torn down, and it has removed
    the stream. *)
Theorem agent_answers_exactly `{Tokio} `{HttpCrate} valid_method valid_uri http_error
    local_service options E open body credit s tr t' s' :
  exec E (serve_stream valid_method valid_uri http_error local_service options open body credit)
    s tr t' s' →
  sent_frames tr `prefix_of` stream_answer valid_method valid_uri http_error local_service options open ∧
  (data_bytes (sent_frames tr) ≤ spent credit tr)%Z ∧
  (∀ r, t' = Ret r →
    (sent_frames tr = stream_answer valid_method valid_uri http_error local_service options open ∨
     Exists (aborted credit) tr) ∧
    Exists (drops (so_stream_id open)) tr).
Proof. apply serve_stream_serves. Qed.

Definition demo_options : AgentOptions :=
  mkAgentOptions (lit "http://127.0.0.1:7000") (lit "tok") (lit "127.0.0.1:3000") (Some (lit "myapp"))
    None false 0.
Definition demo_stream : StreamOpen :=
  mkStreamOpen 1 (lit "tun_1") KindHttp
    (Some (mkRequestHead (lit "GET") (lit "/") (lit "api.tunnel.com") [] (lit "HTTP/1.1") []))
    (lit "1.2.3.4:5678") 65536.
Definition any_text (text : str) : bool := true.
Definition no_http_error (e : BuildError) : str := [].
Definition demo_service (req : @LocalRequest list_http) : result (@LocalResponse list_http) str :=
  Ok (@mkLocalResponse list_http 200 (@hm_new list_http) [LocalData (lit "hello")]).
Definition demo_ctx : @SessionCtx view_tokio :=
  @ctx_new view_tokio (@ch_channel view_tokio _ 64) 1000.
Definition demo_opened : @SessionCtx view_tokio := @register_open view_tokio demo_stream demo_ctx.
Definition demo_serve : task (@SessionCtx view_tokio) unit :=
  @serve_stream view_tokio list_http any_text any_text no_http_error demo_service demo_options
    demo_stream 0 0.

Lemma agent_answers_exactly_witness :
  ∃ tr s', exec (λ _ _, False) demo_serve demo_opened tr (Ret tt) s' ∧
    @sent_frames view_tokio tr `prefix_of`
      [Some (CResponseHead (mkResponseHead 1 200 [])); Some (CData 1 (lit "hello")); Some (CEnd 1 [])].
Proof.
  destruct (run_exec (λ _ _, False) demo_serve demo_opened) as [tr Htr].
  assert (match (run demo_serve demo_opened).2 with Ret _ => true | Step _ => false end = true) as Hb
    by (vm_compute; reflexivity).
  destruct (run demo_serve demo_opened) as [s' [[]|f]]; [|discriminate Hb].
  exists tr, s'. split; [exact Htr|].
  exact (proj1 (@agent_answers_exactly view_tokio list_http any_text any_text no_http_error demo_service
    demo_options (λ _ _, False) demo_stream 0 0 demo_opened tr (Ret tt) s' Htr)).
Defined.

(** The pieces of a body: nothing is lost or reordered, and every piece is a
    non-empty frame of at most [MAX_CHUNK] bytes, so one credit request never asks
    for more than that. *)
Theorem payload_pieces_spec payload :
  concat (payload_chunks (length payload) payload) = payload ∧
  Forall (λ c, c ≠ [] ∧ (byte_len c ≤ MAX_CHUNK)%Z ∧ u32_saturate (byte_len c) = byte_len c)
    (payload_chunks (length payload) payload).
Proof.
  split; [by apply chunks_concat|]. eapply Forall_impl; [apply chunks_bounded|].
  intros c [Hne Hc]. simpl in *. split_and!; [done|done|]. apply u32_saturate_small.
  unfold MAX_CHUNK, u32_max in *. lia.
Qed.

(** C33: the local service gets the client's header values, in order, for every header
    name (except [Host] when it is rewritten), followed by the agent's own: the
    forward address as [Host] if asked for, the client's address, the public host
    and scheme. The agent's values come last: they do not replace values of the same
    name that the public client sent. *)
Theorem local_request_spec `{HttpCrate} valid_method valid_uri options open head request :
  local_request valid_method valid_uri options open head = Ok request →
  lq_method request = rq_method head ∧
  lq_uri request = lit "http://" ++ opt_forward_addr options ++ rq_path head ∧
  ∀ n, hm_get_all n (lq_headers request) =
    client_values (opt_rewrite_host options) n (rq_headers head) ++ agent_values options open head n.
Proof.
  intros Hreq. split_and!; [..|intros n; by eapply local_request_headers];
    unfold local_request in Hreq; destruct (valid_method _), (valid_uri _); try done; by res_inv.
Qed.

(** A client that names its own address first. *)
Definition spoofed_head : HttpRequestHead :=
  mkRequestHead (lit "GET") (lit "/") (lit "api.tunnel.com")
    [mkHeader (lit "X-Forwarded-For") (lit "10.0.0.1")] (lit "HTTP/1.1") [].

Lemma local_request_spec_witness :
  ∃ request, @local_request list_http any_text any_text demo_options demo_stream spoofed_head = Ok request ∧
    @hm_get_all list_http (lit "x-forwarded-for") (@lq_headers list_http request) =
      [lit "10.0.0.1"; lit "1.2.3.4"].
Proof.
  destruct (@local_request list_http any_text any_text demo_options demo_stream spoofed_head)
    as [request|e] eqn:E; [|apply (f_equal is_ok) in E; vm_compute in E; discriminate E].
  exists request. split; [done|].
  rewrite (proj2 (proj2 (@local_request_spec list_http any_text any_text demo_options demo_stream
    spoofed_head request E))). vm_compute. reflexivity.
Defined.
