(* ===== verification/Executables.v ===== *)
(** * The two programs: [norupo-client/src/main.rs] and [norupo-server/src/main.rs]

    What each does with its parsed command line: what it prints, what it starts, how
    it ends. Parsing itself ([clap]), the logger, the clock and the signal handler are
    the environment's; how the agent's life goes is an argument here and is what
    [Agent] and [AgentSession] are about. *)

From S2P Require Import Prelude RustStr Crates CoreError Routing Auth Ids Tokens ServerConfig.
From S2P Require Import Registry MemoryRegistry RedisRegistry Async Proto Session Control Server.
From S2P Require Import ClientConfig Agent.

(** ** [norupo] *)

Inductive Command := Http (args : HttpArgs) | Doctor.

Record Cli := mkCli {
  cli_server : str;
  cli_token : str;
  cli_log : str;
  cli_command : Command;
}.

(** No flag and no variable given. *)
Definition default_cli (command : Command) : Cli :=
  mkCli (lit "http://127.0.0.1:7000") [] (lit "info") command.

(** [println!] and [eprintln!]. *)
Inductive Line := Out (text : str) | ErrOut (text : str).

Definition doctor_report (h : HealthResponse) : list Line :=
  [Out (lit "  reachable      yes");
   Out (lit "  node           " ++ health_node_id h);
   Out (lit "  server version " ++ health_version h);
   Out (lit "  sessions       " ++ dec (active_sessions h));
   Out (lit "  tunnels        " ++ dec (active_tunnels h));
   Out (lit "  agent protocol v" ++ dec PROTOCOL_VERSION)].

(** [connect] dials the edge, [health] is the call on the connection. *)
Definition doctor {C} (connect : str → result C str) (health : C → result HealthResponse str)
    (server : str) : list Line * result unit str :=
  let checking := Out (lit "checking " ++ server ++ lit " ...") in
  match connect server with
  | Err e => ([checking], Err e)
  | Ok client =>
      match health client with
      | Err e => ([checking], Err e)
      | Ok h => (checking :: doctor_report h, Ok tt)
      end
  end.

(** The task that renders events. *)
Definition render (forward : str) (event : AgentEvent) : list Line :=
  match event with
  | Connected session_id node_id =>
      [Out (lit "connected  session=" ++ session_id ++ lit " node=" ++ node_id)]
  | TunnelReady status =>
      [Out []; Out (lit "  " ++ ts_public_url status ++ lit "  ->  " ++ forward); Out [];
       Out (lit "  press Ctrl-C to stop")]
  | TunnelRejected reason => [ErrOut (lit "tunnel rejected: " ++ reason)]
  | Disconnected reason => [ErrOut (lit "disconnected: " ++ reason ++ lit " (reconnecting)")]
  end.

(** Which branch of the [select!] is taken: the agent's task is over (or panicked),
    or there is a signal (or none can be waited for). *)
Inductive Ending :=
| AgentJoined (joined : result (result unit str) str)
| CtrlC (signal : result unit str).

(** What is printed for the events received until then; whether the shutdown flag
    was raised; what [main] returns. *)
Definition client_serve (options : AgentOptions) (events : list AgentEvent) (ending : Ending)
  : list Line * bool * result unit str :=
  let printed := events ≫= render (opt_forward_addr options) in
  match ending with
  | AgentJoined (Err e) => (printed, false, Err e)
  | AgentJoined (Ok r) => (printed, false, r)
  | CtrlC (Err e) => (printed, false, Err e)
  | CtrlC (Ok _) => (printed ++ [Out (chr 10 :: lit "shutting down")], true, Ok tt)
  end.

(** [life options]: the events of the agent run with these options, and its end. *)
Definition client_main {C} (connect : str → result C str) (health : C → result HealthResponse str)
    (life : AgentOptions → list AgentEvent * Ending) (cli : Cli) : list Line * result unit str :=
  match cli_command cli with
  | Doctor => doctor connect health (cli_server cli)
  | Http args =>
      match agent_options (cli_server cli) (cli_token cli) args with
      | Err e => ([], Err e)
      | Ok options =>
          let '(events, ending) := life options in
          let '(printed, _, r) := client_serve options events ending in (printed, r)
      end
  end.

(** ** [norupo-server] *)

(** What a receiver of the shutdown flag sees. *)
Inductive FlagEvent := FlagSet (value : bool) | FlagDropped.

(** The future the control plane is stopped by: [true] if it has resolved. *)
Fixpoint shutdown_seen (events : list FlagEvent) : bool :=
  match events with
  | [] => false
  | FlagDropped :: _ => true
  | FlagSet value :: rest => if value then true else shutdown_seen rest
  end.

Section server.
Context `{Tokio} `{Rng} `{RedisServer}.
Context (from_json : str → result (gmap str PrincipalFile) str) (read_to_string : str → result str str).
Context (bind : SocketAddr → result SocketAddr str).
Context (redis_feature : bool) (open_client : str → result str str)
  (manager : str → result (rstore * list outcome) str).
Notation Table := (MemoryRegistry + RedisRegistry)%type.

(** The routing table chosen by the configuration; an error of the connection is
    rendered behind its context. *)
Definition connected (url table_prefix : str) : result RedisRegistry str :=
  map_err error_to_string (redis_connect open_client manager url table_prefix).

Definition start (config : ServerConfig) (seed : nat) (now later : Z)
  : list StartEffect * result (RunningServer (R:=Table)) str :=
  match build_registry redis_feature connected config with
  | Err e => ([], Err e)
  | Ok registry => start_with_registry from_json read_to_string bind config registry seed now later
  end.

(** Whether a listener's task is over: it saw [accepts] and then the flag. [idle]
    says that the calls the control plane still answers are over, for which its
    transport waits. *)
Definition listener_ended (accepts : list (AcceptEvent unit)) (idle : bool) (l : Listener) : bool :=
  match l with
  | PublicHttp | PeerHttp => (serve (accepts ++ [ShutdownChanged])).2
  | ControlPlane => shutdown_seen [FlagSet true] && idle
  end.

(** The flag is raised, then every task is waited for. *)
Definition shutdown (accepts : Listener → list (AcceptEvent unit)) (idle : bool)
    (server : RunningServer (R:=Table)) : bool :=
  forallb (λ l, listener_ended (accepts l) idle l) (srv_tasks server).

(** [None]: still waiting. *)
Definition server_main (config : ServerConfig) (seed : nat) (now later : Z) (ctrl_c : option (result unit str))
    (accepts : Listener → list (AcceptEvent unit)) (idle : bool)
  : list StartEffect * option (result unit str) :=
  let '(effects, started) := start config seed now later in
  (effects,
   match started with
   | Err e => Some (Err e)
   | Ok server =>
       match ctrl_c with
       | None => None
       | Some (Err e) => Some (Err e)
       | Some (Ok _) => if shutdown accepts idle server then Some (Ok tt) else None
       end
   end).
End server.

(** ** Properties *)

(** Against a node, [norupo doctor] reports that node: its identity, its version and
    the sessions and tunnels it has; an edge that cannot be dialled, or does not
    answer, is an error and nothing is reported. *)
Lemma doctor_reports_node `{Tokio} `{MapIteration} {R A} (s : AppState (R:=R) (A:=A)) server e :
  doctor (λ _, Ok s) (λ s, Ok (health s)) server =
    ([Out (lit "checking " ++ server ++ lit " ..."); Out (lit "  reachable      yes");
      Out (lit "  node           " ++ st_node_id s);
      Out (lit "  server version " ++ CARGO_PKG_VERSION);
      Out (lit "  sessions       " ++ dec (Z.of_nat (size (sessions s))));
      Out (lit "  tunnels        " ++ dec (manager_tunnel_count s));
      Out (lit "  agent protocol v" ++ dec PROTOCOL_VERSION)], Ok tt) ∧
  doctor (λ _, Err e : result unit str) (λ _, Ok (health s)) server =
    ([Out (lit "checking " ++ server ++ lit " ...")], Err e) ∧
  doctor (λ _, Ok s) (λ _, Err e) server = ([Out (lit "checking " ++ server ++ lit " ...")], Err e).
Proof. done. Qed.

(** It compares nothing: whatever version the edge has, and even if it says that it
    is not well, the verdict is the same. *)
Lemma doctor_accepts_any {C} (client : C) server h :
  (doctor (λ _, Ok client) (λ _, Ok h) server).2 = Ok tt.
Proof. done. Qed.

(** How [run] ended, as the task that ran it reports. *)
Definition run_joined (e : RunEnd) : option Ending :=
  match e with
  | Stopped => Some (AgentJoined (Ok (Ok tt)))
  | Failed e => Some (AgentJoined (Ok (Err e)))
  | StillRunning _ => None
  end.

(** [norupo http] dials nothing with a target that does not parse. Otherwise it ends
    as the agent's [run] does, with its error or without one, unless the user
    interrupts it first, which is no error, whatever state the agent is in. *)
Lemma client_main_http {C} connect health life cli args :
  cli_command cli = Http args →
  match forward_addr args with
  | Err e => client_main (C:=C) connect health life cli = ([], Err e)
  | Ok addr =>
      let options := mkAgentOptions (cli_server cli) (cli_token cli) addr (arg_subdomain args)
                       (arg_domain args) (arg_rewrite_host args) (arg_max_retries args) in
      let printed := (life options).1 ≫= render addr in
      (∀ e turns, run_joined (run_agent options 0 turns).2 = Some (life options).2 →
         (run_agent options 0 turns).2 = Failed e →
         client_main (C:=C) connect health life cli = (printed, Err e)) ∧
      (∀ turns, run_joined (run_agent options 0 turns).2 = Some (life options).2 →
         (run_agent options 0 turns).2 = Stopped →
         client_main (C:=C) connect health life cli = (printed, Ok tt)) ∧
      ((life options).2 = CtrlC (Ok tt) →
         client_main (C:=C) connect health life cli = (printed ++ [Out (chr 10 :: lit "shutting down")], Ok tt))
  end.
Proof.
  intros Hc. unfold client_main, agent_options. rewrite Hc.
  destruct (forward_addr args) as [addr|e]; simpl; [|done].
  destruct (life _) as [events ending]; simpl. split_and!.
  - intros e turns Hj He. rewrite He in Hj. by injection Hj as <-.
  - intros turns Hj He. rewrite He in Hj. by injection Hj as <-.
  - by intros ->.
Qed.

(** An accept loop always ends once the flag is raised, whatever it accepted before. *)
Lemma accept_loop_ends {C} (accepts : list (AcceptEvent C)) : (serve (accepts ++ [ShutdownChanged])).2 = true.
Proof. induction accepts as [|[c|e|] accepts IH]; simpl; [done| |done..]. by destruct (serve _). Qed.

(** The program's life: it serves only if it could start whole, ends with an error if
    it could not, and after the signal it ends exactly when no call to the control
    plane is left. An agent's session is such a call, and nothing here ends it: with
    one agent connected the program does not end. *)
Lemma server_main_spec `{Tokio} `{Rng} `{RedisServer} from_json read_to_string bind redis_feature open_client
    manager config seed now later ctrl_c accepts idle :
  let '(effects, ended) := server_main from_json read_to_string bind redis_feature open_client manager
    config seed now later ctrl_c accepts idle in
  match (start from_json read_to_string bind redis_feature open_client manager config seed now later).2 with
  | Err e => ended = Some (Err e) ∧ ∀ l, SpawnedListener l ∉ effects
  | Ok server =>
      [SpawnedListener PublicHttp; SpawnedListener PeerHttp; SpawnedListener ControlPlane] `suffix_of` effects ∧
      match ctrl_c with
      | None => ended = None
      | Some (Err e) => ended = Some (Err e)
      | Some (Ok _) => ended = if idle then Some (Ok tt) else None
      end
  end.
Proof.
  unfold server_main, start. destruct (build_registry _ _ _) as [registry|e]; simpl.
  2:{ split; [done|]. intros l. apply not_elem_of_nil. }
  pose proof (start_all_or_nothing from_json read_to_string bind config registry seed now later) as Hs.
  destruct (start_with_registry _ _ _ _ _ _ _ _) as [effects [server|e]] eqn:E; simpl; [|done].
  destruct Hs as (_ & _ & _ & -> & _). split.
  { exists [BoundListener PublicHttp (srv_http_addr server); BoundListener PeerHttp (srv_peer_addr server);
      BoundListener ControlPlane (srv_control_addr server)]. done. }
  assert (srv_tasks server = [PublicHttp; PeerHttp; ControlPlane]) as Ht.
  { revert E. unfold start_with_registry, bind_listener.
    destruct (cfg_node_id config), (build_auth from_json read_to_string config),
      (bind (ServerConfig.http_addr config)), (bind (ServerConfig.peer_addr config)),
      (bind (ServerConfig.control_addr config)); intros E; simplify_eq; done. }
  destruct ctrl_c as [[[]|e]|]; [|done..]. unfold shutdown. rewrite Ht. simpl.
  rewrite !accept_loop_ends. by destruct idle.
Qed.
