(* ===== verification/ClientTests.v ===== *)
(** * The unit tests of [norupo-client], run on the model

    As in [CoreTests]. The two tests that dial a port nobody listens on get an edge
    that refuses the connection. Tests of [clap] start from the parsed arguments. *)

From S2P Require Import Prelude RustStr Crates CoreError Routing Auth Registry MemoryRegistry Async Proto.
From S2P Require Import ClientConfig Agent CoreTests Executables.

(** ** [config.rs] *)
Module TargetTests.
Local Open Scope test_scope.

Definition bare_ports_become_loopback_addresses : bool :=
  (parse_forward_target (lit "3000") =? Ok (lit "127.0.0.1:3000")) &&
  (parse_forward_target (lit " 8080 ") =? Ok (lit "127.0.0.1:8080")).

Definition host_port_and_urls_are_both_accepted : bool :=
  (parse_forward_target (lit "127.0.0.1:3000") =? Ok (lit "127.0.0.1:3000")) &&
  (parse_forward_target (lit "localhost:3000") =? Ok (lit "localhost:3000")) &&
  (parse_forward_target (lit "http://localhost:3000") =? Ok (lit "localhost:3000")) &&
  (parse_forward_target (lit "http://localhost:3000/ignored") =? Ok (lit "localhost:3000")).

Definition nonsense_targets_are_rejected_with_a_useful_message : bool :=
  forallb (λ bad, is_err (parse_forward_target bad))
    [[]; lit "   "; lit "0"; lit "localhost"; lit "localhost:notaport"; lit ":3000"; lit "99999999"].

Definition backoff_grows_then_plateaus : bool :=
  (reconnect_delay 0 =? 250%Z) && (reconnect_delay 1 =? 500%Z) && (reconnect_delay 2 =? 1000%Z) &&
  (reconnect_delay 100 =? 30000%Z).

Definition cli_parses_the_documented_invocation : bool :=
  let cli := default_cli (Http (mkHttpArgs (lit "3000") (Some (lit "my-app")) None false 0)) in
  match cli_command cli with
  | Http args =>
      (forward_addr args =? Ok (lit "127.0.0.1:3000")) && (arg_subdomain args =? Some (lit "my-app"))
  | Doctor => false
  end.
End TargetTests.

(** ** [agent.rs] *)
Module AgentTests.
Local Open Scope test_scope.

Definition options : AgentOptions :=
  mkAgentOptions (lit "http://127.0.0.1:7000") (lit "tok") (lit "127.0.0.1:3000") (Some (lit "my-app"))
    None false 0.
(** [AgentOptions { subdomain, domain, ..options() }]. *)
Definition asking (subdomain domain : option str) : AgentOptions :=
  mkAgentOptions (opt_server options) (opt_token options) (opt_forward_addr options) subdomain domain
    (opt_rewrite_host options) (opt_max_retries options).
Definition spec_and (open : OpenTunnel) (p : HttpTunnelSpec → bool) : bool :=
  match ot_spec open with Some (SpecHttp spec) => p spec | _ => false end.

Definition open_tunnel_carries_the_requested_subdomain : bool :=
  let open := build_open_tunnel options 0 in
  spec_and open (λ spec, (spec_subdomain spec =? lit "my-app") && (spec_custom_domain spec =? []) &&
    (spec_forward_to spec =? lit "127.0.0.1:3000")).

Definition open_tunnel_with_neither_flag_asks_for_a_random_subdomain : bool :=
  let opts := asking None None in
  spec_and (build_open_tunnel opts 0) (λ spec, spec_subdomain spec =? []).

Definition custom_domains_take_the_domain_field : bool :=
  let opts := asking None (Some (lit "hooks.example.com")) in
  spec_and (build_open_tunnel opts 0) (λ spec,
    (spec_custom_domain spec =? lit "hooks.example.com") && (spec_subdomain spec =? [])).

Definition metadata_always_reports_os_and_arch : bool :=
  let meta := agent_metadata (lit "linux") (lit "x86_64") (λ _, None) in
  (meta !! lit "os" =? Some (lit "linux")) && is_some (meta !! lit "arch") && is_some (meta !! lit "hostname").

(** The address nobody listens on, and what the transport says of it. *)
Definition nowhere (max_retries : Z) : AgentOptions :=
  mkAgentOptions (lit "http://127.0.0.1:1") (opt_token options) (opt_forward_addr options)
    (opt_subdomain options) (opt_domain options) (opt_rewrite_host options) max_retries.
Definition refused : result unit str := Err (lit "transport error").

Definition session_nowhere : result unit SessionError :=
  match run (@run_session view_tokio (nowhere 0) (λ _, []) ∅ refused (Ok []))
            (@ctx_new view_tokio (@ch_channel view_tokio AgentEvent 8) 0) with
  | (_, Ret (Ended r)) => r
  | _ => Ok tt
  end.
Definition a_connection_refusal_is_transient_not_fatal : bool :=
  match session_nowhere with Err (Transient _) => true | _ => false end.

Definition run_gives_up_after_max_retries : bool :=
  match (run_agent (nowhere 1) 0 (replicate 2 (mkTurn false session_nowhere false false))).2 with
  | Failed err => ErrorTests.contains (lit "giving up") err
  | _ => false
  end.
End AgentTests.

(** ** They pass *)

Example client_config_tests_pass :
  TargetTests.bare_ports_become_loopback_addresses && TargetTests.host_port_and_urls_are_both_accepted &&
  TargetTests.nonsense_targets_are_rejected_with_a_useful_message &&
  TargetTests.backoff_grows_then_plateaus && TargetTests.cli_parses_the_documented_invocation = true.
Proof. vm_compute. reflexivity. Qed.

Example agent_tests_pass :
  AgentTests.open_tunnel_carries_the_requested_subdomain &&
  AgentTests.open_tunnel_with_neither_flag_asks_for_a_random_subdomain &&
  AgentTests.custom_domains_take_the_domain_field && AgentTests.metadata_always_reports_os_and_arch &&
  AgentTests.a_connection_refusal_is_transient_not_fatal && AgentTests.run_gives_up_after_max_retries = true.
Proof. vm_compute. reflexivity. Qed.
