(* ===== verification/Link.v ===== *)
(** * An agent and its edge, linked

    The two states with all their tasks, and a connection that keeps frames in
    order; and what it takes to follow an amount, such as the credit of one stream,
    wherever it is: in either state, in a task that holds it, in a frame that is
    queued or under way. *)

From S2P Require Import Prelude RustStr Crates CoreError Routing Auth Ids ServerConfig.
From S2P Require Import Registry MemoryRegistry Async Proto Http Session Control Ingress Node.
From S2P Require Import ClientConfig Agent.

(** ** What most calls of the agent leave alone

    Frames are only added to the queue to the edge, each in [P]; if [V], no window
    changes; no stream is opened. *)
Section placid.
Context `{Tokio} `{HttpCrate}.

Abbreviation spawned_call := (StreamOpen * nat * nat)%type.

(** The [j]-th window was made for the [j]-th call, and a stream in the table has a
    window made for its id. *)
Definition ctx_wf (c : SessionCtx) : Prop :=
  (ctx_spawned c).*2 = seq 0 (length (ctx_credits c)) ∧
  ∀ id st, ctx_streams c !! id = Some st →
    ∃ call, call ∈ ctx_spawned c ∧ call.2 = st_send_credit st ∧ so_stream_id call.1.1 = id.

Definition placid (P : ClientFrame → Prop) (V : Prop) (c c' : SessionCtx) : Prop :=
  (ctx_wf c → ctx_wf c') ∧ ctx_spawned c' = ctx_spawned c ∧
  (V → ∀ l, permits l c' = permits l c) ∧
  ∃ fs, out_queue c' = out_queue c ++ fs ∧ Forall P fs.

#[export] Instance placid_refl P V : Reflexive (placid P V).
Proof using Type. intros c. split_and!; [done..|]. exists []. by rewrite app_nil_r. Qed.

Lemma call_at c l call :
  ctx_wf c → call ∈ ctx_spawned c → call.2 = l → ctx_spawned c !! l = Some call ∧ l < length (ctx_credits c).
Proof using Type.
  intros [Hw _] [j Hj]%list_elem_of_lookup <-.
  assert ((ctx_spawned c).*2 !! j = Some call.2) as Hl by by rewrite list_lookup_fmap, Hj.
  rewrite Hw in Hl. apply lookup_seq in Hl as [Hl ?]. simpl in Hl. rewrite Hl. by split.
Qed.

Lemma wf_update_credit c l f : ctx_wf c → ctx_wf (update_credit l f c).
Proof using Type. intros [Hw Hs]. split; [|done]. simpl. by rewrite length_alter. Qed.

Lemma ctx_wf_register open c : ctx_wf c → ctx_wf (register_open open c).
Proof using Type.
  intros [Hw Ht]. unfold register_open. split; simpl.
  - rewrite fmap_app, Hw, length_app. simpl. by rewrite Nat.add_1_r, seq_S.
  - intros id st [[<- <-]|[_ Hid]]%lookup_insert_Some; simpl.
    + eexists. split; [apply elem_of_app; right; by left|done].
    + destruct (Ht id st Hid) as (call & Hc & ?). exists call. split; [|done].
      apply elem_of_app. by left.
Qed.

Lemma placid_silent P V c c' :
  ctx_spawned c' = ctx_spawned c → ctx_outbound c' = ctx_outbound c →
  length (ctx_credits c') = length (ctx_credits c) → (V → ∀ l, permits l c' = permits l c) →
  (∀ id st, ctx_streams c' !! id = Some st →
     ∃ st', ctx_streams c !! id = Some st' ∧ st_send_credit st' = st_send_credit st) →
  placid P V c c'.
Proof using Type.
  intros Hs Ho Hl Hp Hst. split; [|split; [done|split; [done|]]].
  - intros [Hw Ht]. split; [by rewrite Hs, Hl|]. intros id st Hid.
    destruct (Hst id st Hid) as (st' & Hid' & <-). rewrite Hs. by apply Ht.
  - exists []. unfold out_queue. by rewrite Ho, app_nil_r.
Qed.

Lemma placid_drop P V id c : placid P V c (drop_stream id c).
Proof using Type.
  apply placid_silent; [..|intros _ l; apply drop_silent|]; unfold drop_stream;
    destruct (ctx_streams c !! id) as [st|] eqn:E; simpl; rewrite ?length_alter; [done..| |eauto].
  intros id' st' [_ ?]%lookup_delete_Some. eauto.
Qed.

Lemma placid_close P V id c : placid P V c (close_request_body id c).
Proof using Type.
  apply placid_silent; unfold close_request_body;
    destruct (ctx_streams c !! id) as [st|] eqn:E; try done; [|eauto]. simpl.
  intros id' st' [[<- <-]|[_ ?]]%lookup_insert_Some; eauto.
Qed.

Lemma placid_body P V l f c : placid P V c (update_body l f c).
Proof using Type. apply placid_silent; try done. simpl. eauto. Qed.

Lemma placid_sender P V id c : placid P V c (body_sender id c).1.
Proof using Type. unfold body_sender. case_match; [apply placid_body|reflexivity]. Qed.

Lemma placid_events P V e c : placid P V c (ctx_with_events e c).
Proof using Type. apply placid_silent; try done. simpl. eauto. Qed.

Lemma placid_modify P V f : (∀ c, placid P V c (f c)) → obeys (placid P V) (modify f).
Proof using Type. apply obeys_modify. Qed.

Lemma placid_query {B} P V (f : SessionCtx → B) : obeys (placid P V) (query f).
Proof using Type. by apply obeys_query. Qed.

Lemma placid_emit P V e : obeys (placid P V) (emit e).
Proof using Type.
  apply obeys_await. intros c c' []. destruct (ch_send _ _) as [[o b]|]; [|done].
  intros [= <-]. apply placid_events.
Qed.

Lemma placid_push P V l payload : obeys (placid P V) (push_body l payload).
Proof using Type.
  apply obeys_await. intros c c' a. destruct (ctx_bodies c !! l); [|done].
  destruct (ch_send _ _) as [[o b]|]; [|done]. intros [= <- <-]. apply placid_body.
Qed.

Lemma ctx_send_queue (f : ClientFrame) c o ok :
  ch_send f (ctx_outbound c) = Some (o, ok) →
  out_queue (ctx_with_outbound o c) = if ok then out_queue c ++ [f] else out_queue c.
Proof using Type.
  intros Hs. pose proof (ch_send_view f (ctx_outbound c)) as Hv. rewrite Hs in Hv. simpl in Hv.
  unfold send_spec in Hv. unfold out_queue. simpl.
  destruct (negb _); [by injection Hv as -> ->|].
  destruct (decide _); [|done]. by injection Hv as -> ->.
Qed.

Lemma placid_send (P : ClientFrame → Prop) V p : P (Some p) → obeys (placid P V) (ctx_send p).
Proof using Type.
  intros Hp. apply obeys_await. intros c c' a. destruct (ch_send _ _) as [[o b]|] eqn:E; [|done].
  intros [= <- <-]. split; [done|]. split; [done|]. split; [done|].
  rewrite (ctx_send_queue _ _ _ _ E). destruct b; [by exists [Some p]; auto|exists []].
  by rewrite app_nil_r.
Qed.

Lemma placid_acquire P l n : obeys (placid P False) (acquire_window l n).
Proof using Type.
  apply obeys_await. intros c c' a. destruct (ctx_credits c !! l) as [w|]; [|done].
  destruct (sem_acquire_many n w) as [[w' b]|]; [|done]. intros [= <- <-].
  split; [apply wf_update_credit|]. split; [done|]. split; [done|]. exists []. by rewrite app_nil_r.
Qed.

Lemma placid_window P id increment : obeys (placid P False) (atomic (on_window_update id increment)).
Proof using Type.
  apply obeys_atomic. intros c. unfold on_window_update. destruct (ctx_streams c !! id); [|done].
  destruct (ctx_credits c !! _); [|done]. destruct (sem_add_permits _ _); [|done].
  split; [apply wf_update_credit|]. split; [done|]. split; [done|]. exists []. by rewrite app_nil_r.
Qed.
End placid.

Create HintDb placid.
#[export] Hint Resolve placid_drop placid_close placid_body placid_sender placid_query placid_emit
  placid_push placid_send placid_acquire placid_window : placid.

(** Goes through a task of the agent call by call. *)
Ltac agent_calls :=
  repeat match goal with
    | |- obeys _ (Ret _) => exact I
    | |- obeys _ (task_bind _ _) => apply obeys_bind; [|intros ?]
    | |- obeys _ (match ?x with _ => _ end) => destruct x
    | |- obeys _ (reset _ _ _) => unfold reset
    | |- obeys _ (modify _) => apply obeys_modify; intros ?; solve [eauto with placid]
    | |- obeys _ (atomic (body_sender _)) => apply obeys_atomic; intros ?; solve [eauto with placid]
    | |- obeys _ _ => solve [eauto with placid]
    end.

(** ** An amount to follow

    What frames to the agent and to the edge carry of it, and what of it is in
    either state: on the agent's side by the windows, if it [agent_watches] them, on
    the edge's by the upload credit of its streams, if it [edge_watches] that; and
    how much of it the opening of the stream is [worth], given the session's window. *)
Section ledger.
Context `{Tokio} `{MapIteration} `{HttpCrate}.

Record Ledger := mkLedger {
  down_value : ServerFrame → Z;
  up_value : ClientFrame → Z;
  agent_value : SessionCtx → Z;
  edge_value : Session → Z;
  worth : Z → Z;
  agent_watches : Prop;
  edge_watches : Prop;
  worth_nonneg w : (0 ≤ worth w)%Z;
  down_nonneg f : (0 ≤ down_value f)%Z;
  up_nonneg f : (0 ≤ up_value f)%Z;
  agent_same c c' :
    ctx_spawned c' = ctx_spawned c → (agent_watches → ∀ l, permits l c' = permits l c) →
    agent_value c' = agent_value c;
  edge_same x x' :
    (edge_watches → ∀ l, upload_credit l x' = upload_credit l x) → edge_value x' = edge_value x;
}.

Context (L : Ledger).
(** The session's window, and the stream. *)
Context (W k : Z).

Definition queued_value (f : result ServerFrame Status) : Z :=
  match f with Ok f => down_value L f | Err _ => 0 end.

(** What the session has ever granted the stream, once it is open. *)
Definition granted (x : Session) : Z :=
  if decide (1 ≤ k ≤ Z.of_nat (length (stream_objs x)))%Z then worth L W else 0.

Definition bounded (x : Session) : Prop := (1 + Z.of_nat (length (stream_objs x)) < 2 ^ 64)%Z.

(** A step of the edge's session: what is queued or kept comes from what the task
    holds, and opening the stream is what brings the amount into the world. *)
Definition grants (n : Z) (x : Session) (n' : Z) (x' : Session) : Prop :=
  rtc session_step x x' ∧
  (0 ≤ n → 0 ≤ n' ∧
   (session_wf x → initial_window x = W → bounded x' →
    n' + edge_value L x' + sum_of queued_value (frame_queue x') + granted x ≤
    n + edge_value L x + sum_of queued_value (frame_queue x) + granted x'))%Z.

(** A step of the agent; [K] is what the task knows of the state. *)
Definition pays (K : SessionCtx → Prop) (n : Z) (c : SessionCtx) (n' : Z) (c' : SessionCtx) : Prop :=
  (ctx_wf c → ctx_wf c') ∧ ctx_spawned c ⊆ ctx_spawned c' ∧
  (0 ≤ n → 0 ≤ n' ∧
   (ctx_wf c → K c →
    n' + agent_value L c' + sum_of (up_value L) (out_queue c') ≤
    n + agent_value L c + sum_of (up_value L) (out_queue c)))%Z.

Lemma step_window x x' :
  session_step x x' → initial_window x' = initial_window x ∧ (granted x ≤ granted x')%Z.
Proof using Type.
  intros Hs. pose proof (step_objs _ _ Hs) as Hl. split.
  - destruct Hs as [(_ & _ & _ & _ & _ & Hw & _)|[->|[id ->]]]; [done|done|].
    unfold close_stream. by case_match.
  - unfold granted. pose proof (worth_nonneg L W). repeat case_decide; lia.
Qed.

Lemma steps_window x x' :
  rtc session_step x x' → initial_window x' = initial_window x ∧ (granted x ≤ granted x')%Z ∧
    length (stream_objs x) ≤ length (stream_objs x').
Proof using Type.
  induction 1 as [x|x y z Hs _ (Hw & Hg & Hl)]; [by split|].
  destruct (step_window _ _ Hs) as [Hw1 Hg1]. apply step_objs in Hs. split_and!; [congruence|lia|lia].
Qed.

(** A step that moves nothing. *)
Definition idle (x x' : Session) : Prop :=
  rtc session_step x x' ∧ edge_value L x' = edge_value L x ∧
  (sum_of queued_value (frame_queue x') ≤ sum_of queued_value (frame_queue x))%Z.

#[export] Instance idle_refl : Reflexive idle.
Proof using Type. by split. Qed.

Lemma idle_grants n x x' : idle x x' → grants n x n x'.
Proof using Type.
  intros (Hs & Hv & Hq). split; [done|]. intros Hn. split; [done|]. intros _ _ _.
  destruct (steps_window _ _ Hs) as (_ & Hg & _). rewrite Hv. lia.
Qed.

Notation plain f := (queued_value f = 0%Z) (only parsing).

Lemma tame_idle x x' : tame (λ f, plain f) (edge_watches L) False False x x' → idle x x'.
Proof using Type.
  intros (Hs & _ & _ & Hc & _ & _ & fs & Hq & Hf). split; [done|]. split; [by apply edge_same|].
  by rewrite Hq, sum_of_app, (sum_of_zero _ fs), Z.add_0_r.
Qed.

Lemma idle_insert t : obeys idle (modify (insert_tunnel t)).
Proof using Type.
  apply obeys_modify. intros x. split; [by apply rtc_once, step_quiet, quiet_tunnels|].
  split; [by apply edge_same|done].
Qed.

Lemma idle_query {B} (f : Session → B) : obeys idle (query f).
Proof using Type. by apply obeys_query. Qed.

Lemma idle_send f : plain (Ok f) → obeys idle (send f).
Proof using Type.
  intros Hf. eapply obeys_weaken; [apply tame_idle|]. by apply follow_tame.
Qed.

(** A call that moves nothing. *)
Lemma grants_tame {A B} Q n (t : task Session A) (f : A → task Session B) :
  obeys (tame (λ f, plain f) (edge_watches L) False False) t → (∀ a, follows grants Q n (f a)) →
  follows grants Q n (task_bind t f).
Proof using Type. apply follows_then. intros x x' Ht. by apply idle_grants, tame_idle. Qed.

(** Sending a frame takes what is in it from the task. *)
Lemma grants_send n f :
  (down_value L f ≤ n)%Z → follows grants (λ _ m, m = n - down_value L f)%Z n (send f).
Proof using Type.
  intros Hn. pose proof (down_nonneg L f) as Hf.
  apply follows_await. intros x x' ok. destruct (ch_send _ _) as [[o b]|] eqn:E; [|done].
  intros [= <- <-]. eexists. split; [|done].
  split; [by eapply rtc_once, step_quiet, quiet_send|]. intros _. split; [lia|]. intros _ _ _.
  rewrite (send_queue _ _ _ _ E), (edge_same L x (with_outbound o x)) by done.
  unfold granted. cbn [stream_objs with_outbound].
  destruct b; rewrite ?sum_of_app; simpl; lia.
Qed.

(** The same for the agent. *)
Lemma placid_pays K n c c' :
  placid (λ f, up_value L f = 0%Z) (agent_watches L) c c' → pays K n c n c'.
Proof using Type.
  intros (Hw & Hs & Hp & fs & Hq & Hf). split; [done|]. split; [by rewrite Hs|].
  intros Hn. split; [done|]. intros _ _.
  rewrite (agent_same L c c'), Hq, sum_of_app, (sum_of_zero _ fs) by done. lia.
Qed.

Lemma placid_then {B C} K Q n (t : task SessionCtx B) (f : B → task SessionCtx C) :
  obeys (placid (λ f, up_value L f = 0%Z) (agent_watches L)) t →
  (∀ b, follows (pays K) Q n (f b)) → follows (pays K) Q n (task_bind t f).
Proof using Type. apply follows_then. intros c c'. apply placid_pays. Qed.

Lemma placid_last {B} K n (t : task SessionCtx B) :
  (0 ≤ n)%Z → obeys (placid (λ f, up_value L f = 0%Z) (agent_watches L)) t →
  follows (pays K) (λ _ m, 0 ≤ m)%Z n t.
Proof using Type.
  intros Hn Ht. eapply follows_mono; [|eapply follows_obeys, Ht; apply placid_pays]. by intros b m ->.
Qed.

Lemma pays_send K p n :
  (up_value L (Some p) ≤ n)%Z →
  follows (pays K) (λ _ m, m = n - up_value L (Some p))%Z n (ctx_send p).
Proof using Type.
  intros Hn. pose proof (up_nonneg L (Some p)) as Hp. apply follows_await.
  intros c c' a. destruct (ch_send _ _) as [[o b]|] eqn:E; [|done]. intros [= <- <-].
  eexists. split; [|done]. split; [done|]. split; [done|]. intros _. split; [lia|]. intros _ _.
  rewrite (ctx_send_queue _ _ _ _ E), (agent_same L c (ctx_with_outbound o c)) by done.
  destruct b; rewrite ?sum_of_app; simpl; lia.
Qed.
End ledger.

(** ** Running the two sides together *)
Section link.
Context `{Tokio} `{MapIteration} `{HttpCrate} `{Rng}.
Context {R : Type} `{RegistryOps R} {A : Type} `{AuthProvider A} {U : Type}.
Notation AppState := (AppState (R:=R) (A:=A)).
Context (health_json : HealthResponse → str → str) (tunnels_json : list SessionSnapshot → str).
Context (duration_debug : Z → str).
Context (parse_uri : str → option Uri) (upstream : Request → result (Response (EdgeBody U)) str).
Context (public : Request → Prop).
Context (valid_method valid_uri : str → bool) (http_error : BuildError → str).
Context (local_service : LocalRequest → result LocalResponse str) (options : AgentOptions).
(** The edge's session object. *)
Context (i : nat).

(** The two states, each with its read loop and its other tasks, how many of the
    calls of [ctx_spawned] are tasks already, and the frames under way. *)
Record Link := mkLink {
  agent : SessionCtx;
  agent_reader : task SessionCtx bool;
  agent_tasks : list (task SessionCtx unit);
  agent_started : nat;
  edge : AppState;
  edge_reader : task AppState bool;
  edge_tasks : list (task AppState unit);
  to_edge : list ClientFrame;
  to_agent : list ServerFrame;
}.

(** The agent's program reads events; a local service reads or drops a request
    body. *)
Definition host_step (a a' : SessionCtx) : Prop :=
  (∃ e event, ch_recv (ctx_events a) = Some (e, event) ∧ a' = ctx_with_events e a) ∨
  (∃ l b b' payload, ctx_bodies a !! l = Some b ∧ ch_recv b = Some (b', payload) ∧
     a' = update_body l (λ _, b') a) ∨
  (∃ l, a' = update_body l ch_drop_rx a).

(** A read loop takes the next frame when it is done with the last. *)
Inductive link_step : Link → Link → Prop :=
| agent_takes a ts g s r ns up f down :
    link_step (mkLink a (Ret true) ts g s r ns up (f :: down))
      (mkLink a (from_option (handle_server_frame options) (Ret true) f) ts g s r ns up down)
| agent_reads a h ts g s r ns up down a' h' :
    poll h a = Some (a', h') →
    link_step (mkLink a h ts g s r ns up down) (mkLink a' h' ts g s r ns up down)
| agent_starts a h ts g s r ns up down open body credit :
    ctx_spawned a !! g = Some (open, body, credit) →
    link_step (mkLink a h ts g s r ns up down)
      (mkLink a h (ts ++ [serve_stream valid_method valid_uri http_error local_service options
                            open body credit]) (S g) s r ns up down)
| agent_works a h ts g s r ns up down j t a' t' :
    ts !! j = Some t → poll t a = Some (a', t') →
    link_step (mkLink a h ts g s r ns up down) (mkLink a' h (<[j := t']> ts) g s r ns up down)
| agent_drops a h ts g s r ns up down j :
    link_step (mkLink a h ts g s r ns up down) (mkLink a h (delete j ts) g s r ns up down)
| agent_host a h ts g s r ns up down a' :
    host_step a a' → link_step (mkLink a h ts g s r ns up down) (mkLink a' h ts g s r ns up down)
| agent_emits a h ts g s r ns up down o f :
    ch_recv (ctx_outbound a) = Some (o, Some f) →
    link_step (mkLink a h ts g s r ns up down)
      (mkLink (ctx_with_outbound o a) h ts g s r ns (up ++ [f]) down)
| edge_takes a h ts g s ns f up down :
    link_step (mkLink a h ts g s (Ret true) ns (f :: up) down)
      (mkLink a h ts g s (handle_client_frame i f) ns up down)
| edge_reads a h ts g s r ns up down s' r' :
    poll r s = Some (s', r') →
    link_step (mkLink a h ts g s r ns up down) (mkLink a h ts g s' r' ns up down)
| edge_starts a h ts g s r ns up down t :
    node_task health_json tunnels_json duration_debug parse_uri upstream public i t →
    link_step (mkLink a h ts g s r ns up down) (mkLink a h ts g s r (ns ++ [t]) up down)
| edge_works a h ts g s r ns up down j t s' t' :
    ns !! j = Some t → poll t s = Some (s', t') →
    link_step (mkLink a h ts g s r ns up down) (mkLink a h ts g s' r (<[j := t']> ns) up down)
| edge_drops a h ts g s r ns up down j :
    link_step (mkLink a h ts g s r ns up down) (mkLink a h ts g s r (delete j ns) up down)
| edge_emits a h ts g s r ns up down x o f :
    session_objs s !! i = Some x → ch_recv (outbound x) = Some (o, Some (Ok f)) →
    link_step (mkLink a h ts g s r ns up down)
      (mkLink a h ts g (put_session i (with_outbound o x) s) r ns up (down ++ [f])).

Definition creditless_up (f : ClientFrame) : Prop :=
  match f with Some (CData _ _) | Some (CWindowUpdate _ _) => False | _ => True end.

(** A session that was just accepted: no stream, nothing under way. *)
Definition link_start (σ : Link) : Prop :=
  agent_reader σ = Ret true ∧ agent_tasks σ = [] ∧ agent_started σ = 0 ∧ edge_reader σ = Ret true ∧ edge_tasks σ = [] ∧
  to_edge σ = [] ∧ to_agent σ = [] ∧
  ctx_spawned (agent σ) = [] ∧ ctx_credits (agent σ) = [] ∧ ctx_streams (agent σ) = ∅ ∧
  Forall creditless_up (out_queue (agent σ)) ∧
  ∃ x, session_objs (edge σ) !! i = Some x ∧ session_wf x ∧ stream_objs x = [] ∧
    Forall creditless (frame_queue x).

(** *** Schedules

    A schedule as a list of moves; one that cannot be made is skipped. *)
Inductive move :=
| AgentTakes | AgentReads | AgentStarts | AgentWorks (j : nat) | AgentEmits
| EdgeTakes | EdgeReads | EdgeWorks (j : nat) | EdgeEmits
| RequestArrives (node_id : str) (role : Role) (req : Request) (addr : str)
| ClientReads (l : nat) | ServiceReads (b : nat).

Definition link_move (σ : Link) (m : move) : Link :=
  let '(mkLink a h ts g s r ns up down) := σ in
  match m with
  | AgentTakes =>
      match h, down with
      | Ret true, f :: down =>
          mkLink a (from_option (handle_server_frame options) (Ret true) f) ts g s r ns up down
      | _, _ => σ
      end
  | AgentReads =>
      match poll h a with Some (a, h) => mkLink a h ts g s r ns up down | None => σ end
  | AgentStarts =>
      match ctx_spawned a !! g with
      | Some (open, body, credit) =>
          mkLink a h (ts ++ [serve_stream valid_method valid_uri http_error local_service options
                               open body credit]) (S g) s r ns up down
      | None => σ
      end
  | AgentWorks j =>
      match ts !! j ≫= λ t, poll t a with
      | Some (a, t) => mkLink a h (<[j := t]> ts) g s r ns up down
      | None => σ
      end
  | AgentEmits =>
      match ch_recv (ctx_outbound a) with
      | Some (o, Some f) => mkLink (ctx_with_outbound o a) h ts g s r ns (up ++ [f]) down
      | _ => σ
      end
  | EdgeTakes =>
      match r, up with
      | Ret true, f :: up => mkLink a h ts g s (handle_client_frame i f) ns up down
      | _, _ => σ
      end
  | EdgeReads =>
      match poll r s with Some (s, r) => mkLink a h ts g s r ns up down | None => σ end
  | EdgeWorks j =>
      match ns !! j ≫= λ t, poll t s with
      | Some (s, t) => mkLink a h ts g s r (<[j := t]> ns) up down
      | None => σ
      end
  | EdgeEmits =>
      match session_objs s !! i with
      | Some x =>
          match ch_recv (outbound x) with
          | Some (o, Some (Ok f)) =>
              mkLink a h ts g (put_session i (with_outbound o x) s) r ns up (down ++ [f])
          | _ => σ
          end
      | None => σ
      end
  | RequestArrives node_id role req addr =>
      mkLink a h ts g s r
        (ns ++ [serve_request health_json tunnels_json duration_debug parse_uri upstream
                  node_id role req addr]) up down
  | ClientReads l => mkLink a h ts g s r (ns ++ [on_session i (next_chunk l) ;;! Ret tt]) up down
  | ServiceReads b =>
      match ctx_bodies a !! b ≫= ch_recv with
      | Some (v, _) => mkLink (update_body b (λ _, v) a) h ts g s r ns up down
      | None => σ
      end
  end.

Definition link_run (moves : list move) (σ : Link) : Link := foldl link_move σ moves.

(** Only public requests arrive. *)
Definition move_ok (m : move) : Prop :=
  match m with RequestArrives _ _ req _ => public req | _ => True end.

Lemma link_move_step m σ : move_ok m → link_move σ m = σ ∨ link_step σ (link_move σ m).
Proof using Type.
  intros Hm.
  destruct σ as [a h ts g s r ns up down], m as [| | |j| | | |j| |node_id role req addr|l|b]; simpl.
  - destruct h as [[]|]; [|by left..]. destruct down; [by left|]. right; by apply agent_takes.
  - destruct (poll h a) as [[a' h']|] eqn:E; [|by left]. right; by apply agent_reads.
  - destruct (ctx_spawned a !! g) as [[[open body] credit]|] eqn:E; [|by left].
    right; by apply agent_starts.
  - destruct (ts !! j) as [t|] eqn:Et; [|by left]. simpl.
    destruct (poll t a) as [[a' t']|] eqn:E; [|by left]. right; by eapply agent_works.
  - destruct (ch_recv (ctx_outbound a)) as [[o [f|]]|] eqn:E; [|by left..]. right; by apply agent_emits.
  - destruct r as [[]|]; [|by left..]. destruct up; [by left|]. right; apply edge_takes.
  - destruct (poll r s) as [[s' r']|] eqn:E; [|by left]. right; by apply edge_reads.
  - destruct (ns !! j) as [t|] eqn:Et; [|by left]. simpl.
    destruct (poll t s) as [[s' t']|] eqn:E; [|by left]. right; by eapply edge_works.
  - destruct (session_objs s !! i) as [x|] eqn:Ex; [|by left].
    destruct (ch_recv (outbound x)) as [[o [[f|e]|]]|] eqn:E; [|by left..]. right; by eapply edge_emits.
  - right; apply edge_starts. by apply nt_request.
  - right; apply edge_starts. apply nt_read.
  - destruct (ctx_bodies a !! b) as [v|] eqn:Eb; [|by left]. simpl.
    destruct (ch_recv v) as [[v' payload]|] eqn:E; [|by left]. right. apply agent_host.
    right. left. by exists b, v, v', payload.
Qed.

Lemma link_move_sound m σ : move_ok m → rtc link_step σ (link_move σ m).
Proof using Type. intros Hm. destruct (link_move_step m σ Hm) as [->|?]; [done|by apply rtc_once]. Qed.

Lemma link_run_sound moves σ : Forall move_ok moves → rtc link_step σ (link_run moves σ).
Proof using Type.
  intros Hm. revert σ. induction Hm as [|m moves Hm _ IH]; intros σ; [done|].
  etrans; [by apply link_move_sound|apply IH].
Qed.

(** ** Conservation

    What the calls of both sides owe the ledger. *)
Section conserved.
#[local] Hint Resolve idle_insert idle_query idle_send : tame.
Context (L : Ledger) (W k : Z).
Notation edge_account := (account_at i (grants L W k)) (only parsing).
Notation paid_by call := (pays L (λ c, call ∈ ctx_spawned c)) (only parsing).
Notation kept := (λ _ m, 0 ≤ m)%Z (only parsing).
Abbreviation spawned_call := (StreamOpen * nat * nat)%type.

Class Balanced : Prop := {
  bal_plain f : creditless f → queued_value L f = 0%Z;
  bal_open tunnel_id head addr n :
    (0 ≤ n)%Z → follows (grants L W k) kept n (open_http_stream tunnel_id head addr);
  bal_end id trailers : down_value L (Some (SEnd id trailers)) = 0%Z;
  bal_data id payload n :
    (0 ≤ n)%Z → follows (grants L W k) kept n (send_stream_data id payload);
  bal_edge_frame f : follows edge_account kept (up_value L f) (handle_client_frame (A:=A) (R:=R) i f);
  bal_agent_frame payload :
    follows (pays L (λ _, True)) kept (down_value L (Some payload)) (handle_server_frame options payload);
  bal_serve (call : spawned_call) :
    follows (paid_by call) kept 0%Z
      (serve_stream valid_method valid_uri http_error local_service options call.1.1 call.1.2 call.2);
}.

(** A call of this or another session that moves nothing. *)
Lemma idle_account n (s s' : AppState) : at_session i (idle L) s s' → edge_account n s n s'.
Proof using Type.
  intros Ha x Hx. destruct (Ha x Hx) as (x' & Hx' & Ht). exists x'.
  split; [done|by apply idle_grants].
Qed.

Lemma account_idle {B} n (t : task AppState B) :
  obeys (at_session i (idle L)) t → (0 ≤ n)%Z → follows edge_account kept n t.
Proof using Type.
  intros Ht Hn. eapply follows_mono; [|eapply follows_obeys, Ht; apply idle_account].
  by intros b m ->.
Qed.

Lemma account_tame {B} n (t : task AppState B) :
  obeys (at_session i (tame (λ f, queued_value L f = 0%Z) (edge_watches L) False False)) t → (0 ≤ n)%Z →
  follows edge_account kept n t.
Proof using Type.
  intros Ht. apply account_idle. eapply obeys_weaken; [|exact Ht]. intros s s' Hs x Hx.
  destruct (Hs x Hx) as (x' & Hx' & Hxx). exists x'. split; [done|by apply tame_idle].
Qed.

Lemma account_other {B} j n (t : task Session B) :
  j ≠ i → (0 ≤ n)%Z → follows edge_account kept n (on_session (A:=A) (R:=R) j t).
Proof using Type. intros Hj. apply account_idle, at_call; [exact _|by left]. Qed.

(** The frames from the agent that bring neither bytes nor credit. *)
Lemma account_frame payload n :
  (∀ f, creditless f → queued_value L f = 0%Z) →
  match payload with CData _ _ | CWindowUpdate _ _ => False | _ => True end → (0 ≤ n)%Z →
  follows edge_account kept n (handle_client_frame (A:=A) (R:=R) i (Some payload)).
Proof using Type.
  intros HP Hf Hn. destruct payload; try done; cbn [handle_client_frame].
  all: try (apply account_tame; [|done]; unfold close_tunnel; node_calls; fail).
  apply account_idle; [|done]. unfold register_tunnel, claim_tunnel. node_calls.
Qed.

Context `{!Balanced}.

Lemma account_pump j id frames n :
  (0 ≤ n)%Z → follows edge_account kept n (pump_body (A:=A) (R:=R) j id frames).
Proof using All.
  pose proof bal_plain as HP. pose proof bal_end as HE. revert n.
  induction frames as [|[data| |] frames IH]; intros n Hn; cbn [pump_body]; [| |by apply IH|].
  - apply account_tame; [|done]. unfold send_stream_end. node_calls.
  - case_bool_decide; [by apply IH|]. eapply (follows_bind _ kept).
    + destruct (decide (j = i)) as [->|Hj]; [by apply call_account, bal_data|by apply account_other].
    + intros [] m Hm; [by apply IH|done].
  - apply account_tame; [|done]. node_calls.
Qed.

Lemma account_request node_id role req addr :
  follows edge_account kept 0%Z
    (serve_request (A:=A) health_json tunnels_json duration_debug parse_uri upstream node_id role req addr).
Proof using All.
  apply follows_assoc. eapply follows_bind.
  { apply account_tame; [|done]. apply tame_route, bal_plain. }
  intros [response|j record|record] n Hn; [done| |done]. apply follows_assoc.
  eapply (follows_bind _ kept).
  - destruct (decide (j = i)) as [->|Hj]; [by apply call_account, bal_open|by apply account_other].
  - intros [opened|[]] m Hm; [by apply account_pump|done..].
Qed.

(** The tasks beside the read loop hold nothing at first, and never owe. *)
Lemma account_node_task t :
  node_task health_json tunnels_json duration_debug parse_uri upstream public i t →
  follows edge_account kept 0%Z t.
Proof using All.
  intros Ht. destruct Ht as
    [inbound|j inbound Hj| |j beats|node_id role req addr Hreq|j opened|j l|j id l|f Hf].
  5: by apply account_request.
  all: pose proof bal_plain as HP; apply account_tame; [|done].
  - by apply obeys_bind; [apply tame_handshake|].
  - by apply tame_run_session.
  - by apply tame_teardown.
  - by apply tame_heartbeat.
  - by apply obeys_bind; [apply tame_answer|].
  - by apply obeys_bind; [apply tame_read|].
  - by apply tame_drop.
  - by apply at_modify; [exact _|].
Qed.

(** The amount, beside what tasks hold. *)
Definition circulating (a : SessionCtx) (x : Session) (up : list ClientFrame) (down : list ServerFrame) : Z :=
  agent_value L a + sum_of (up_value L) (out_queue a) + sum_of (up_value L) up +
  edge_value L x + sum_of (queued_value L) (frame_queue x) + sum_of (down_value L) down.

Lemma circulating_start σ x :
  link_start σ → session_objs (edge σ) !! i = Some x →
  (∀ f, creditless f → queued_value L f = 0%Z) → (∀ f, creditless_up f → up_value L f = 0%Z) →
  (ctx_spawned (agent σ) = [] → agent_value L (agent σ) = 0%Z) →
  (stream_objs x = [] → edge_value L x = 0%Z) →
  (circulating (agent σ) x (to_edge σ) (to_agent σ) ≤ 0)%Z.
Proof using Type.
  intros (_ & _ & _ & _ & _ & Hu & Hd & Hsp & _ & _ & Hq & y & Hy & _ & Ho & Hf) Hx Hdown Hup Ha He.
  rewrite Hx in Hy. injection Hy as <-. unfold circulating. rewrite Hu, Hd, Ha, He by done. simpl.
  rewrite (sum_of_zero _ (frame_queue x)), (sum_of_zero _ (out_queue (agent σ))); [done|..].
  - eapply Forall_impl; [exact Hq|]. apply Hup.
  - eapply Forall_impl; [exact Hf|]. apply Hdown.
Qed.

(** What each task holds, with the call a stream's task serves. *)
Record holdings := mkHoldings {
  agent_reader_has : Z;
  agent_tasks_have : list (spawned_call * Z * task SessionCtx unit);
  edge_reader_has : Z;
  edge_tasks_have : list (Z * task AppState unit);
}.
Definition held (hs : holdings) : Z :=
  agent_reader_has hs + sum_of (λ p, p.1.2) (agent_tasks_have hs) +
  edge_reader_has hs + sum_of fst (edge_tasks_have hs).

Definition agent_task_ok (a : SessionCtx) (p : spawned_call * Z * task SessionCtx unit) : Prop :=
  (0 ≤ p.1.2)%Z ∧ p.1.1 ∈ ctx_spawned a ∧
  follows (paid_by p.1.1) kept p.1.2 p.2.
Definition edge_task_ok (p : Z * task AppState unit) : Prop :=
  (0 ≤ p.1)%Z ∧ follows edge_account kept p.1 p.2.

Record conserved (σ : Link) (hs : holdings) (x : Session) : Prop := {
  con_object : session_objs (edge σ) !! i = Some x;
  con_window : initial_window x = W;
  con_wf : ctx_wf (agent σ);
  con_agent_reader : (0 ≤ agent_reader_has hs)%Z ∧
    follows (pays L (λ _, True)) kept (agent_reader_has hs) (agent_reader σ);
  con_agent_tasks : agent_tasks σ = (agent_tasks_have hs).*2 ∧
    Forall (agent_task_ok (agent σ)) (agent_tasks_have hs);
  con_edge_reader : (0 ≤ edge_reader_has hs)%Z ∧
    follows edge_account kept (edge_reader_has hs) (edge_reader σ);
  con_edge_tasks : edge_tasks σ = (edge_tasks_have hs).*2 ∧ Forall edge_task_ok (edge_tasks_have hs);
  con_total : bounded x → session_wf x ∧
    (held hs + circulating (agent σ) x (to_edge σ) (to_agent σ) ≤ granted L W k x)%Z;
}.

Lemma agent_task_mono a a' ps :
  ctx_spawned a ⊆ ctx_spawned a' → Forall (agent_task_ok a) ps → Forall (agent_task_ok a') ps.
Proof using Type.
  intros Hs Hps. eapply Forall_impl; [exact Hps|]. intros p (Hn & Hp & Hf). split_and!; [done|by apply Hs|done].
Qed.

(** The agent's read loop, or a stream's task, takes a step. *)
Lemma agent_move K n a n' a' x up down :
  pays L K n a n' a' → (0 ≤ n)%Z → ctx_wf a → K a →
  ctx_wf a' ∧ ctx_spawned a ⊆ ctx_spawned a' ∧ (0 ≤ n')%Z ∧
  (n' + circulating a' x up down ≤ n + circulating a x up down)%Z.
Proof using Type.
  intros (Hw & Hs & Hb) Hn Hwf HK. destruct (Hb Hn) as [Hn' Hle]. specialize (Hle Hwf HK).
  split_and!; [auto|done|done|]. unfold circulating. lia.
Qed.

(** A task of the edge takes a step. *)
Lemma edge_move n (s : AppState) n' (s' : AppState) x a up down :
  edge_account n s n' s' → (0 ≤ n)%Z → session_objs s !! i = Some x → initial_window x = W →
  ∃ x', session_objs s' !! i = Some x' ∧ initial_window x' = W ∧ (0 ≤ n')%Z ∧
    (bounded x' → bounded x ∧ (session_wf x → session_wf x' ∧
       n' + circulating a x' up down + granted L W k x ≤ n + circulating a x up down + granted L W k x')%Z).
Proof using Type.
  intros Hg Hn Hx HW. destruct (Hg x Hx) as (x' & Hx' & Hs & Hb). exists x'.
  destruct (Hb Hn) as [Hn' Hle]. destruct (steps_window L W k _ _ Hs) as (Hw & _ & Hl).
  split_and!; [done|congruence|done|]. intros Hbd. unfold bounded in *. split; [lia|]. intros Hwf.
  split; [eapply wf_rtc; [exact Hs|lia|done]|]. specialize (Hle Hwf HW Hbd). unfold circulating. lia.
Qed.

Lemma agent_holdings_nonneg a ps : Forall (agent_task_ok a) ps → Forall (λ p, 0 ≤ p.1.2)%Z ps.
Proof using Type. intros Hp. eapply Forall_impl; [exact Hp|]. by intros p [? _]. Qed.

Lemma edge_holdings_nonneg es : Forall edge_task_ok es → Forall (λ p, 0 ≤ p.1)%Z es.
Proof using Type. intros Hp. eapply Forall_impl; [exact Hp|]. by intros p [? _]. Qed.

Lemma held_nonneg σ hs x : conserved σ hs x → (0 ≤ held hs)%Z.
Proof using Type.
  intros [_ _ _ [Ha _] [_ Hts] [He _] [_ Hns] _]. unfold held.
  pose proof (sum_of_nonneg _ _ (agent_holdings_nonneg _ _ Hts)).
  pose proof (sum_of_nonneg _ _ (edge_holdings_nonneg _ Hns)). lia.
Qed.

Notation keeps a h ts g s r ns up down hs x := (conserved (mkLink a h ts g s r ns up down) hs x) (only parsing).

(** What reaches the total when only the holdings change. *)
Lemma keep_total (a a' : SessionCtx) x up up' down down' hs hs' :
  (held hs' + circulating a' x up' down' ≤ held hs + circulating a x up down)%Z →
  (bounded x → session_wf x ∧ held hs + circulating a x up down ≤ granted L W k x)%Z →
  (bounded x → session_wf x ∧ held hs' + circulating a' x up' down' ≤ granted L W k x)%Z.
Proof using All. intros Hle Htot Hb. destruct (Htot Hb). split; [done|lia]. Qed.

Lemma keep_agent_reads a h ts g s r ns up down hs x a' h' :
  poll h a = Some (a', h') → keeps a h ts g s r ns up down hs x →
  ∃ hs' x', keeps a' h' ts g s r ns up down hs' x'.
Proof using All.
  intros Hp [Hx HW Hwf [Hna Hh] [Hts Hps] He Hes Htot]. simpl in *.
  destruct (follows_poll _ _ _ _ _ _ _ Hh Hp) as (n' & Hpay & Hh').
  destruct (agent_move _ _ _ _ _ x up down Hpay Hna Hwf I) as (Hwf' & Hs & Hn' & Hle).
  exists (mkHoldings n' (agent_tasks_have hs) (edge_reader_has hs) (edge_tasks_have hs)), x.
  split; simpl; try done.
  - split; [done|by eapply agent_task_mono].
  - eapply keep_total, Htot. unfold held in *. simpl. lia.
Qed.

Lemma keep_agent_works a h ts g s r ns up down hs x j t a' t' :
  ts !! j = Some t → poll t a = Some (a', t') → keeps a h ts g s r ns up down hs x →
  ∃ hs' x', keeps a' h (<[j := t']> ts) g s r ns up down hs' x'.
Proof using All.
  intros Hj Hp [Hx HW Hwf Hh [Hts Hps] He Hes Htot]. simpl in *. subst ts.
  rewrite list_lookup_fmap in Hj. apply fmap_Some in Hj as (p & Hj & ->).
  destruct (proj1 (Forall_lookup _ _) Hps j p Hj) as (Hn & Hcall & Hf).
  destruct (follows_poll _ _ _ _ _ _ _ Hf Hp) as (n' & Hpay & Hf').
  destruct (agent_move _ _ _ _ _ x up down Hpay Hn Hwf Hcall) as (Hwf' & Hs & Hn' & Hle).
  exists (mkHoldings (agent_reader_has hs) (<[j := (p.1.1, n', t')]> (agent_tasks_have hs))
            (edge_reader_has hs) (edge_tasks_have hs)), x.
  split; simpl; try done.
  - split; [by rewrite list_fmap_insert|]. apply Forall_insert; [by eapply agent_task_mono|].
    split_and!; simpl; [done|by apply Hs|done].
  - eapply keep_total, Htot. unfold held in *. simpl.
    pose proof (sum_of_insert (λ p, p.1.2) _ j p (p.1.1, n', t') Hj) as Hsum. simpl in Hsum. lia.
Qed.

Lemma keep_agent_starts a h ts g s r ns up down hs x open body credit :
  ctx_spawned a !! g = Some (open, body, credit) → keeps a h ts g s r ns up down hs x →
  ∃ hs' x', keeps a h (ts ++ [serve_stream valid_method valid_uri http_error local_service options
                             open body credit]) (S g) s r ns up down hs' x'.
Proof using All.
  intros Hsp%list_elem_of_lookup_2 [Hx HW Hwf Hh [Hts Hps] He Hes Htot]. simpl in *.
  exists (mkHoldings (agent_reader_has hs) (agent_tasks_have hs ++ [(open, body, credit, 0%Z,
    serve_stream valid_method valid_uri http_error local_service options open body credit)])
    (edge_reader_has hs) (edge_tasks_have hs)), x.
  split; simpl; try done.
  - split; [by rewrite fmap_app, Hts|]. apply Forall_app. split; [done|]. constructor; [|done].
    split_and!; simpl; [done..|]. apply (bal_serve (open, body, credit)).
  - eapply keep_total, Htot. unfold held. simpl. rewrite sum_of_app. simpl. lia.
Qed.

Lemma keep_agent_drops a h ts g s r ns up down hs x j :
  keeps a h ts g s r ns up down hs x → ∃ hs' x', keeps a h (delete j ts) g s r ns up down hs' x'.
Proof using All.
  intros [Hx HW Hwf Hh [Hts Hps] He Hes Htot]. simpl in *.
  exists (mkHoldings (agent_reader_has hs) (delete j (agent_tasks_have hs))
            (edge_reader_has hs) (edge_tasks_have hs)), x.
  split; simpl; try done.
  - split; [by rewrite Hts, list_fmap_delete|]. by apply Forall_delete.
  - eapply keep_total, Htot. unfold held. simpl.
    pose proof (sum_of_delete _ _ j (agent_holdings_nonneg _ _ Hps)). lia.
Qed.

Lemma keep_agent_placid a h ts g s r ns up down hs x a' :
  placid (λ f, up_value L f = 0%Z) (agent_watches L) a a' → keeps a h ts g s r ns up down hs x → ∃ hs' x', keeps a' h ts g s r ns up down hs' x'.
Proof using All.
  intros Hf [Hx HW Hwf Hh [Hts Hps] He Hes Htot]. simpl in *.
  destruct (agent_move (λ _, True) 0 _ 0 _ x up down (placid_pays L _ 0 _ _ Hf) ltac:(done) Hwf I)
    as (Hwf' & Hs & _ & Hle).
  exists hs, x. split; simpl; try done.
  - split; [done|by eapply agent_task_mono].
  - eapply keep_total, Htot. lia.
Qed.

Lemma keep_agent_emits a h ts g s r ns up down hs x o f :
  ch_recv (ctx_outbound a) = Some (o, Some f) → keeps a h ts g s r ns up down hs x →
  keeps (ctx_with_outbound o a) h ts g s r ns (up ++ [f]) down hs x.
Proof using All.
  intros Hr%recv_front [Hx HW Hwf Hh [Hts Hps] He Hes Htot]. simpl in *. split; simpl; try done.
  eapply keep_total, Htot. unfold circulating, out_queue. rewrite sum_of_app. simpl. rewrite Hr. simpl.
  rewrite (agent_same L a (ctx_with_outbound o a)) by done. lia.
Qed.
Lemma keep_edge_reads a h ts g s r ns up down hs x s' r' :
  poll r s = Some (s', r') → keeps a h ts g s r ns up down hs x →
  ∃ hs' x', keeps a h ts g s' r' ns up down hs' x'.
Proof using All.
  intros Hp [Hx HW Hwf Hh Hts [Hn Hr] Hes Htot]. simpl in *.
  destruct (follows_poll _ _ _ _ _ _ _ Hr Hp) as (n' & Hg & Hr').
  destruct (edge_move _ _ _ _ x a up down Hg Hn Hx HW) as (x' & Hx' & HW' & Hn' & Hle).
  exists (mkHoldings (agent_reader_has hs) (agent_tasks_have hs) n' (edge_tasks_have hs)), x'.
  split; simpl; try done. intros Hb. destruct (Hle Hb) as [Hb0 Hle']. destruct (Htot Hb0) as [Hwx Ht].
  destruct (Hle' Hwx). split; [done|]. unfold held in *. simpl. lia.
Qed.

Lemma keep_edge_works a h ts g s r ns up down hs x j t s' t' :
  ns !! j = Some t → poll t s = Some (s', t') → keeps a h ts g s r ns up down hs x →
  ∃ hs' x', keeps a h ts g s' r (<[j := t']> ns) up down hs' x'.
Proof using All.
  intros Hj Hp [Hx HW Hwf Hh Hts Hr [Hns Hes] Htot]. simpl in *. subst ns.
  rewrite list_lookup_fmap in Hj. apply fmap_Some in Hj as (p & Hj & ->).
  destruct (proj1 (Forall_lookup _ _) Hes j p Hj) as (Hn & Hf).
  destruct (follows_poll _ _ _ _ _ _ _ Hf Hp) as (n' & Hg & Hf').
  destruct (edge_move _ _ _ _ x a up down Hg Hn Hx HW) as (x' & Hx' & HW' & Hn' & Hle).
  exists (mkHoldings (agent_reader_has hs) (agent_tasks_have hs) (edge_reader_has hs)
            (<[j := (n', t')]> (edge_tasks_have hs))), x'.
  split; simpl; try done.
  - split; [by rewrite list_fmap_insert|]. by apply Forall_insert.
  - intros Hb. destruct (Hle Hb) as [Hb0 Hle']. destruct (Htot Hb0) as [Hwx Ht].
    destruct (Hle' Hwx). split; [done|]. unfold held in *. simpl.
    pose proof (sum_of_insert fst _ j p (n', t') Hj) as Hsum. simpl in Hsum. lia.
Qed.

Lemma keep_edge_starts a h ts g s r ns up down hs x t :
  node_task health_json tunnels_json duration_debug parse_uri upstream public i t →
  keeps a h ts g s r ns up down hs x → ∃ hs' x', keeps a h ts g s r (ns ++ [t]) up down hs' x'.
Proof using All.
  intros Ht [Hx HW Hwf Hh Hts Hr [Hns Hes] Htot]. simpl in *.
  exists (mkHoldings (agent_reader_has hs) (agent_tasks_have hs) (edge_reader_has hs)
            (edge_tasks_have hs ++ [(0%Z, t)])), x.
  split; simpl; try done.
  - split; [by rewrite fmap_app, Hns|]. apply Forall_app. split; [done|]. constructor; [|done].
    split; [done|]. by apply account_node_task.
  - eapply keep_total, Htot. unfold held. simpl. rewrite sum_of_app. simpl. lia.
Qed.

Lemma keep_edge_drops a h ts g s r ns up down hs x j :
  keeps a h ts g s r ns up down hs x → ∃ hs' x', keeps a h ts g s r (delete j ns) up down hs' x'.
Proof using All.
  intros [Hx HW Hwf Hh Hts Hr [Hns Hes] Htot]. simpl in *.
  exists (mkHoldings (agent_reader_has hs) (agent_tasks_have hs) (edge_reader_has hs)
            (delete j (edge_tasks_have hs))), x.
  split; simpl; try done.
  - split; [by rewrite Hns, list_fmap_delete|]. by apply Forall_delete.
  - eapply keep_total, Htot. unfold held. simpl.
    pose proof (sum_of_delete _ _ j (edge_holdings_nonneg _ Hes)). lia.
Qed.

Lemma keep_edge_emits a h ts g s r ns up down hs x y o f :
  session_objs s !! i = Some y → ch_recv (outbound y) = Some (o, Some (Ok f)) →
  keeps a h ts g s r ns up down hs x →
  keeps a h ts g (put_session i (with_outbound o y) s) r ns up (down ++ [f]) hs (with_outbound o y).
Proof using All.
  intros Hy Hrecv [Hx HW Hwf Hh Hts Hr Hes Htot]. pose proof (recv_front _ _ _ Hrecv) as Hf. simpl in *.
  rewrite Hy in Hx. injection Hx as <-. split; simpl; try done; [by apply (put_session_get i s y)|].
  intros Hb. destruct (Htot Hb) as [Hwx Hle]. split; [by apply (wf_quiet y), Hwx; eapply quiet_recv|].
  unfold circulating, frame_queue, granted in *. simpl in *. rewrite Hf in Hle. simpl in Hle.
  rewrite sum_of_app, (edge_same L y (with_outbound o y)) by done. simpl. lia.
Qed.

Lemma keep_takes n n' a h ts g s r ns up down hs x h' r' up' down' :
  keeps a h ts g s r ns up down hs x → (0 ≤ n)%Z → (0 ≤ n')%Z →
  follows (pays L (λ _, True)) kept n h' → follows edge_account kept n' r' →
  (n + n' + sum_of (up_value L) up' + sum_of (down_value L) down' ≤
   agent_reader_has hs + edge_reader_has hs + sum_of (up_value L) up + sum_of (down_value L) down)%Z →
  ∃ hs' x', keeps a h' ts g s r' ns up' down' hs' x'.
Proof using All.
  intros [Hx HW Hwf Hh Hts Hr Hes Htot] Hn Hn' Hh' Hr' Hle. simpl in *.
  exists (mkHoldings n (agent_tasks_have hs) n' (edge_tasks_have hs)), x. split; simpl; try done.
  eapply keep_total, Htot. unfold held, circulating. simpl. lia.
Qed.

Lemma step_conserved σ σ' :
  link_step σ σ' → (∃ hs x, conserved σ hs x) → ∃ hs x, conserved σ' hs x.
Proof using All.
  intros Hs (hs & x & Hc).
  pose proof (con_agent_reader _ _ _ Hc) as [Hn1 Hf1].
  pose proof (con_edge_reader _ _ _ Hc) as [Hn2 Hf2].
  destruct Hs as [| | | | |a h ts g s r ns up down a' Hh| | | | | | |]; simpl in *;
    eauto using keep_agent_reads, keep_agent_starts, keep_agent_works, keep_agent_drops,
      keep_agent_emits, keep_edge_reads, keep_edge_starts, keep_edge_works, keep_edge_drops,
      keep_edge_emits.
  - eapply (keep_takes (down_value L f) (edge_reader_has hs)); [exact Hc|apply down_nonneg|done| |done|].
    + destruct f; [apply bal_agent_frame|exact (down_nonneg L None)].
    + simpl. lia.
  - assert (placid (λ f, up_value L f = 0%Z) (agent_watches L) a a') as Hf
      by (destruct Hh as [(e & event & _ & ->)|[(l & b & b' & payload & _ & _ & ->)|[l ->]]];
        [apply placid_events|apply placid_body..]).
    eauto using keep_agent_placid.
  - eapply (keep_takes (agent_reader_has hs) (up_value L f));
      [exact Hc|done|apply up_nonneg|done|by apply bal_edge_frame|]. simpl. lia.
Qed.

Lemma start_conserved σ :
  link_start σ →
  (∀ x, session_objs (edge σ) !! i = Some x → initial_window x = W ∧
     (circulating (agent σ) x (to_edge σ) (to_agent σ) ≤ 0)%Z) →
  ∃ hs x, conserved σ hs x.
Proof using All.
  intros (H1' & H2' & _ & H3' & H4' & _ & _ & Hsp & Hcr & Hst & _ & x & Hx & Hwf & _) HW.
  destruct (HW x Hx) as [HWx Hc].
  exists (mkHoldings 0 [] 0 []), x. split; simpl; rewrite ?H1', ?H2', ?H3', ?H4'; try done.
  - split; [by rewrite Hsp, Hcr|]. intros id st. by rewrite Hst, lookup_empty.
  - intros _. split; [done|]. unfold held, granted. simpl. pose proof (worth_nonneg L W). case_decide; lia.
Qed.

Lemma reached_conserved σ σ' :
  rtc link_step σ σ' → (∃ hs x, conserved σ hs x) → ∃ hs x, conserved σ' hs x.
Proof using All. induction 1 as [|σ1 σ2 σ3 Hs _ IH]; eauto using step_conserved. Qed.

(** From a start with nothing in circulation, there is never more of it than was
    granted. *)
Lemma circulation_bound σ σ' x :
  link_start σ →
  (∀ x, session_objs (edge σ) !! i = Some x → initial_window x = W ∧
     (circulating (agent σ) x (to_edge σ) (to_agent σ) ≤ 0)%Z) →
  rtc link_step σ σ' → session_objs (edge σ') !! i = Some x → bounded x →
  (circulating (agent σ') x (to_edge σ') (to_agent σ') ≤ granted L W k x)%Z.
Proof using All.
  intros Hst HW Hr Hx Hb.
  destruct (reached_conserved σ σ' Hr (start_conserved σ Hst HW)) as (hs & y & Hc).
  pose proof (held_nonneg _ _ _ Hc) as Hh. destruct Hc as [Hy _ _ _ _ _ _ Htot].
  rewrite Hx in Hy. injection Hy as <-. destruct (Htot Hb) as [_ Hle]. lia.
Qed.
End conserved.
End link.
