(* ===== verification/FlowControl.v ===== *)
(** * The flow control of a stream, in both directions

    The bytes of a response may be sent only against credit, which starts with the
    window in [Open] and comes back as [WindowUpdate] for bytes the edge has
    buffered; the bytes of a request are under the same rule the other way round,
    with the window the edge starts with. Each direction is a ledger of [Link]. *)

From S2P Require Import Prelude RustStr Crates CoreError Routing Auth Ids ServerConfig.
From S2P Require Import Registry MemoryRegistry Async Proto Http Session Control Ingress Node.
From S2P Require Import ClientConfig Agent Link.

#[local] Notation kept := (λ _ m, 0 ≤ m)%Z (only parsing).

(** ** Opening a stream

    For a ledger that does not watch the edge's streams: what the stream is born
    with goes into the [Open] frame. *)
Section opening.
Context `{Tokio} `{MapIteration} `{HttpCrate}.
Context (L : Ledger) (W k : Z) (HL : edge_watches L → False).

Definition birth (id window : Z) : Z := if decide (id = k) then worth L window else 0.

Lemma birth_nonneg id window : (0 ≤ birth id window)%Z.
Proof using Type. unfold birth. pose proof (worth_nonneg L window). case_decide; lia. Qed.

Lemma register_grants n x :
  (0 ≤ n)%Z → grants L W k n x (birth (next_stream_id x) W) (register_stream x).1.
Proof using HL.
  intros Hn. pose proof (birth_nonneg (next_stream_id x) W) as Hb0.
  split; [by apply rtc_once; right; left|]. intros _. split; [done|]. intros Hwf _ Hb.
  rewrite (edge_same L x) by (by intros ?%HL).
  change (frame_queue (register_stream x).1) with (frame_queue x).
  unfold birth, granted. simpl. rewrite length_app. simpl.
  destruct Hwf as [Hnext _ _ _ _]. unfold bounded in Hb. simpl in Hb. rewrite length_app in Hb.
  simpl in Hb. rewrite Z.mod_small in Hnext by lia. rewrite Hnext.
  pose proof (worth_nonneg L W). repeat case_decide; lia.
Qed.

Lemma grants_open tunnel_id head addr n :
  (∀ id window, down_value L (Some (SOpen (mkStreamOpen id tunnel_id KindHttp (Some head) addr window)))
     ≤ birth id window)%Z →
  (0 ≤ n)%Z → follows (grants L W k) kept n (open_http_stream tunnel_id head addr).
Proof using HL.
  intros Hv Hn. unfold open_http_stream. apply grants_tame; [apply tame_query|]. intros [limit count].
  destruct (_ && _)%bool; [done|]. eapply follows_bind.
  { apply (follows_atomic _ (λ r m, m = birth r.1 W)). intros x.
    exists (birth (next_stream_id x) W). split; [by apply register_grants|done]. }
  intros [id l] m ->. cbn [fst]. eapply follows_bind.
  { apply (follows_atomic _ (λ window m, m = birth id window)). intros x.
    exists (birth id (initial_window x)). split; [|done]. split; [done|].
    intros _. split; [apply birth_nonneg|]. intros _ -> _. simpl. lia. }
  intros window m ->. specialize (Hv id window). eapply (follows_bind _ kept).
  { eapply follows_mono; [|by apply grants_send]. intros ok m ->. lia. }
  intros [] m Hm; [done|].
  apply grants_tame; [apply tame_modify_close|]. intros _.
  by apply grants_tame; [apply tame_receivers|].
Qed.
End opening.

(** ** Responses *)
Section download.
Context `{Tokio} `{MapIteration} `{HttpCrate} `{Rng}.
Context {R : Type} `{RegistryOps R} {A : Type} `{AuthProvider A}.
Context (W k : Z).

(** The credit a frame to the agent carries, and the bytes a frame from it does. *)
Definition frame_credit (f : ServerFrame) : Z :=
  match f with
  | Some (SOpen open) => if decide (so_stream_id open = k) then Z.max 0 (so_initial_window open) else 0
  | Some (SWindowUpdate id increment) => if decide (id = k) then Z.max 0 increment else 0
  | _ => 0
  end.
Definition frame_bytes (f : ClientFrame) : Z :=
  match f with Some (CData id payload) => if decide (id = k) then byte_len payload else 0 | _ => 0 end.

Lemma frame_credit_nonneg f : (0 ≤ frame_credit f)%Z.
Proof using Type. unfold frame_credit. repeat case_match; lia. Qed.
Lemma frame_bytes_nonneg f : (0 ≤ frame_bytes f)%Z.
Proof using Type. unfold frame_bytes, byte_len. repeat case_match; lia. Qed.

Abbreviation spawned_call := (StreamOpen * nat * nat)%type.

(** What is left of the windows of the stream; a window belongs to the stream it was
    made for, whether or not that is still in the table. *)
Definition call_window (c : SessionCtx) (call : spawned_call) : Z :=
  if decide (so_stream_id call.1.1 = k) then Z.max 0 (permits call.2 c) else 0.
Definition window_left (c : SessionCtx) : Z := sum_of (call_window c) (ctx_spawned c).

Lemma window_same c c' :
  ctx_spawned c' = ctx_spawned c → (True → ∀ l, permits l c' = permits l c) →
  window_left c' = window_left c.
Proof using Type.
  intros Hs Hp. unfold window_left. rewrite Hs. apply sum_of_ext. intros x _.
  unfold call_window. by rewrite Hp.
Qed.

Definition download : Ledger :=
  mkLedger frame_credit frame_bytes window_left (λ _, 0%Z) (Z.max 0) True False (Z.le_max_l 0)
    frame_credit_nonneg frame_bytes_nonneg window_same (λ _ _ _, eq_refl).

(** One window changes. *)
Lemma window_update c l f call :
  ctx_wf c → call ∈ ctx_spawned c → call.2 = l →
  (window_left (update_credit l f c) + call_window c call =
   window_left c + call_window (update_credit l f c) call)%Z.
Proof using Type.
  intros Hwf Hc Hl. destruct (call_at c l call Hwf Hc Hl) as [Hj _].
  apply (sum_of_except _ _ (ctx_spawned c) l call Hj). intros j call' Hj' Hne.
  assert (call'.2 = j) as Hj2.
  { destruct Hwf as [Hw _]. assert ((ctx_spawned c).*2 !! j = Some call'.2) as Hx
      by by rewrite list_lookup_fmap, Hj'. rewrite Hw in Hx. by apply lookup_seq in Hx as [-> _]. }
  unfold call_window, permits. cbn [ctx_credits update_credit ctx_with_streams].
  by rewrite list_lookup_alter_ne by congruence.
Qed.

(** *** The agent *)
#[local] Arguments frame_bytes : simpl never.

Lemma pays_acquire (call : spawned_call) amount n :
  (0 ≤ amount)%Z →
  follows (pays download (λ c, call ∈ ctx_spawned c))
    (λ ok m, m = if ok : bool then n + (if decide (so_stream_id call.1.1 = k) then amount else 0) else n)%Z
    n (acquire_window call.2 amount).
Proof using Type.
  intros Ha. apply follows_await. intros c c' ok.
  destruct (ctx_credits c !! call.2) as [w|] eqn:El; [|done].
  pose proof (sem_acquire_view amount w) as Hv. destruct (sem_acquire_many amount w) as [[w' b]|]; [|done].
  intros [= <- <-]. eexists. split; [|done]. split; [apply wf_update_credit|]. split; [done|].
  intros Hn. split; [destruct b; repeat case_decide; lia|]. intros Hwf Hc.
  pose proof (window_update c call.2 (λ _, w') call Hwf Hc eq_refl) as Hu.
  unfold call_window, permits in Hu. simpl in Hu.
  rewrite list_lookup_alter_eq, El in Hu. simpl in Hv, Hu. unfold acquire_spec in Hv.
  unfold out_queue. simpl.
  destruct (sem_closed (sem_view w)).
  - injection Hv as Hw ->. rewrite Hw in Hu. repeat case_decide; lia.
  - destruct (Z.leb_spec amount (sem_permits (sem_view w))); [|done]. injection Hv as Hw ->.
    rewrite Hw in Hu. simpl in Hu. repeat case_decide; lia.
Qed.

Notation paid_by call := (pays download (λ c, call ∈ ctx_spawned c)) (only parsing).

Lemma pays_pieces (call : spawned_call) chunks n :
  (0 ≤ n)%Z → Forall (λ c, byte_len c ≤ u32_max)%Z chunks →
  follows (paid_by call) kept n (send_pieces (so_stream_id call.1.1) call.2 chunks).
Proof using Type.
  intros Hn Hc. revert n Hn. induction Hc as [|c cs Hc _ IH]; intros n Hn; [done|].
  cbn [send_pieces]. rewrite u32_saturate_small by done. pose proof (byte_len_nonneg c) as Hl.
  eapply follows_bind; [by apply pays_acquire|]. intros [] m ->; [|done]. cbn [negb].
  eapply follows_bind.
  { apply (pays_send download). simpl. unfold frame_bytes. repeat case_decide; lia. }
  intros ok m ->. assert (0 ≤ n + (if decide (so_stream_id call.1.1 = k) then byte_len c else 0) -
    frame_bytes (Some (CData (so_stream_id call.1.1) c)))%Z as Hm.
  { unfold frame_bytes. case_decide; lia. }
  destruct ok; cbn [negb]; [by apply IH|exact Hm].
Qed.

Lemma pays_relay (call : spawned_call) trailers frames n :
  (0 ≤ n)%Z →
  follows (paid_by call) kept n (relay_body (so_stream_id call.1.1) call.2 trailers frames).
Proof using Type.
  revert trailers n. induction frames as [|[data|map|e] rest IH]; intros trailers n Hn;
    cbn [relay_body]; [|..|by apply IH|].
  - apply placid_last; [done|]. agent_calls.
  - eapply follows_bind; [apply pays_pieces; [done|apply data_fits]|].
    intros [] m Hm; cbn [negb]; [by apply IH|]. apply placid_last; [done|]. agent_calls.
  - apply placid_last; [done|]. agent_calls.
Qed.

Section tasks.
Context (valid_method valid_uri : str → bool) (http_error : BuildError → str).
Context (local_service : LocalRequest → result LocalResponse str) (options : AgentOptions).

(** A stream's task pays for every byte. *)
Lemma pays_serve (call : spawned_call) :
  follows (paid_by call) kept 0%Z
    (serve_stream valid_method valid_uri http_error local_service options call.1.1 call.1.2 call.2).
Proof using Type.
  unfold serve_stream. destruct (so_http call.1.1) as [head|].
  2: { apply placid_last; [done|]. agent_calls. }
  destruct (local_request _ _ _ _ _) as [request|e].
  2: { apply placid_last; [done|]. agent_calls. }
  destruct (local_service request) as [response|e].
  2: { apply placid_last; [done|]. agent_calls. }
  apply placid_then; [by apply placid_send|]. intros []; cbn [negb]; [by apply pays_relay|].
  apply placid_last; [done|]. agent_calls.
Qed.

Notation credited := (pays download (λ _, True)) (only parsing).

Lemma pays_register n open c :
  (frame_credit (Some (SOpen open)) ≤ n)%Z →
  credited n c (n - frame_credit (Some (SOpen open))) (register_open open c).
Proof using Type.
  intros Hn. pose proof (frame_credit_nonneg (Some (SOpen open))) as Hf.
  split; [|split].
  - apply ctx_wf_register.
  - apply list_subseteq_app_l. done.
  - intros _. split; [lia|]. intros [Hw _] _. simpl. unfold window_left, out_queue. simpl. rewrite sum_of_app.
    rewrite (sum_of_ext (call_window _) (call_window c) (ctx_spawned c)).
    + unfold call_window, permits, frame_credit. simpl.
      rewrite lookup_app_r, Nat.sub_diag by done. simpl. rewrite sem_new_view. simpl.
      case_decide; lia.
    + intros call [j Hj]%list_elem_of_lookup. unfold call_window, permits. simpl.
      assert ((ctx_spawned c).*2 !! j = Some call.2) as Hx by by rewrite list_lookup_fmap, Hj.
      rewrite Hw in Hx. apply lookup_seq in Hx as [-> Hx]. simpl. by rewrite lookup_app_l.
Qed.

Lemma pays_update n id increment c :
  (frame_credit (Some (SWindowUpdate id increment)) ≤ n)%Z →
  credited n c (n - frame_credit (Some (SWindowUpdate id increment))) (on_window_update id increment c).1.
Proof using Type.
  intros Hn. pose proof (frame_credit_nonneg (Some (SWindowUpdate id increment))) as Hf.
  assert (credited n c (n - frame_credit (Some (SWindowUpdate id increment))) c) as Hsame.
  { split; [done|]. split; [done|]. intros _. split; [lia|]. intros _ _. lia. }
  unfold on_window_update. destruct (ctx_streams c !! id) as [st|] eqn:E; [|done].
  destruct (ctx_credits c !! st_send_credit st) as [w|] eqn:El; [|done].
  pose proof (sem_add_view increment w) as Hv. destruct (sem_add_permits increment w) as [w'|]; [|done].
  simpl in *. unfold add_permits_spec in Hv. destruct (_ <=? _)%Z; [|done]. injection Hv as Hw'.
  split; [apply wf_update_credit|]. split; [done|]. intros _. split; [lia|]. intros Hwf _.
  destruct (proj2 Hwf id st E) as (call & Hc & Hl & Hid).
  pose proof (window_update c _ (λ _, w') call Hwf Hc Hl) as Hu.
  unfold call_window, permits in Hu. rewrite Hl, Hid in Hu. simpl in Hu.
  rewrite list_lookup_alter_eq, El in Hu. simpl in Hu. rewrite Hw' in Hu. simpl in Hu.
  unfold frame_credit, out_queue in *. simpl. repeat case_decide; lia.
Qed.

(** The read loop puts the credit of a frame into a window. *)
Lemma pays_frame payload :
  follows credited kept (frame_credit (Some payload)) (handle_server_frame options payload).
Proof using Type.
  pose proof (frame_credit_nonneg (Some payload)) as Hn.
  destruct payload as [w|st|open|head|id data|id trailers|id code message|id increment|nonce time|a1 a2 a3];
    cbn [handle_server_frame].
  8: { apply follows_atomic. intros c. eexists. split; [by apply pays_update|]. simpl. lia. }
  3: { eapply (follows_bind _ kept); [|done]. apply follows_atomic. intros c.
       eexists. split; [by apply pays_register|]. simpl. lia. }
  all: apply placid_last; [done|]; unfold on_data; agent_calls.
Qed.
End tasks.

(** *** The edge *)
Lemma download_plain f : creditless f → queued_value download f = 0%Z.
Proof using Type. destruct f as [[[]|]|]; done. Qed.

Lemma download_open tunnel_id head addr n :
  (0 ≤ n)%Z → follows (grants download W k) kept n (open_http_stream tunnel_id head addr).
Proof using Type.
  apply grants_open; [done|]. intros id window. unfold birth. simpl. by case_decide.
Qed.

(** Bytes of the stream that reach the edge turn into credit at most once. *)
Lemma grants_on_data id payload n :
  (0 ≤ n)%Z → (id = k → byte_len payload ≤ n)%Z →
  follows (grants download W k) (λ a m, 0 ≤ m ∧ (id = k → a ≤ m))%Z n (on_stream_data id payload).
Proof using Type.
  intros Hn Hk. apply grants_tame; [apply tame_body_sender|]. intros [l|]; [|done].
  apply grants_tame; [apply tame_send_body|]. intros []; cbn [negb].
  - by apply grants_tame; [apply tame_drop_body|].
  - apply grants_tame; [apply tame_modify_close|]. intros _.
    by apply grants_tame; [apply tame_drop_body|].
Qed.

(** A call on the edge that moves nothing. *)
Lemma grants_last {B} (L : Ledger) n (t : task Session B) :
  obeys (tame (λ f, queued_value L f = 0%Z) (edge_watches L) False False) t → (0 ≤ n)%Z →
  follows (grants L W k) kept n t.
Proof using Type.
  intros Ht Hn. eapply follows_mono; [|eapply follows_obeys, Ht].
  - by intros b m ->.
  - intros x x' Hx. by apply idle_grants, tame_idle.
Qed.

Lemma download_frame i f :
  follows (account_at (R:=R) (A:=A) i (grants download W k)) kept (frame_bytes f)
    (handle_client_frame i f).
Proof using Type.
  pose proof (frame_bytes_nonneg f) as Hn. destruct f as [payload|]; [|done].
  destruct payload as [| | | |id data| | |id increment|];
    try (apply account_frame; [apply download_plain|done|done]); cbn [handle_client_frame].
  - eapply follows_bind.
    { apply (call_account i _ (λ a m, 0 ≤ m ∧ (id = k → a ≤ m))%Z).
      apply grants_on_data; [done|]. intros ->. unfold frame_bytes. by rewrite decide_True. }
    intros a m [Hm Ha]. eapply (follows_bind _ kept); [|done].
    destruct (0 <? a)%Z; [|done]. apply call_account. unfold grant_window.
    case_match; [done|]. eapply follows_mono; [|apply (grants_send download)]; simpl.
    + intros ok m' ->. unfold u32_saturate. repeat case_match; lia.
    + unfold u32_saturate. repeat case_match; lia.
  - apply account_tame; [|done]. node_calls.
Qed.

#[export] Instance download_balanced valid_method valid_uri http_error local_service options i :
  Balanced (R:=R) (A:=A) valid_method valid_uri http_error local_service options i download W k.
Proof using Type.
  split.
  - apply download_plain.
  - apply download_open.
  - done.
  - intros id payload n. apply grants_last, tame_data. done.
  - apply download_frame.
  - apply pays_frame.
  - apply pays_serve.
Qed.
End download.

(** ** Requests *)
Section upload.
Context `{Tokio} `{MapIteration} `{HttpCrate} `{Rng}.
Context {R : Type} `{RegistryOps R} {A : Type} `{AuthProvider A}.
Context (W k : Z).

Definition sent_bytes (f : ServerFrame) : Z :=
  match f with Some (SData id payload) => if decide (id = k) then byte_len payload else 0 | _ => 0 end.
Definition returned_credit (f : ClientFrame) : Z :=
  match f with
  | Some (CWindowUpdate id increment) => if decide (id = k) then Z.max 0 increment else 0
  | _ => 0
  end.

Lemma sent_bytes_nonneg f : (0 ≤ sent_bytes f)%Z.
Proof using Type. unfold sent_bytes, byte_len. repeat case_match; lia. Qed.
Lemma returned_credit_nonneg f : (0 ≤ returned_credit f)%Z.
Proof using Type. unfold returned_credit. repeat case_match; lia. Qed.

(** What is left of the stream's window at the edge; the [l]-th object is stream
    [1 + l]. *)
Definition upload_window (x : Session) : Z :=
  if decide (1 ≤ k)%Z then Z.max 0 (upload_credit (Z.to_nat (k - 1)) x) else 0.

Lemma upload_window_same x x' :
  (True → ∀ l, upload_credit l x' = upload_credit l x) → upload_window x' = upload_window x.
Proof using Type. intros Hc. unfold upload_window. by rewrite Hc. Qed.

Definition upload : Ledger :=
  mkLedger sent_bytes returned_credit (λ _, 0%Z) upload_window (Z.max 0) False True (Z.le_max_l 0)
    sent_bytes_nonneg returned_credit_nonneg (λ _ _ _ _, eq_refl) upload_window_same.

Lemma upload_plain f : creditless f → queued_value upload f = 0%Z.
Proof using Type. destruct f as [[[]|]|]; done. Qed.

(** *** The edge *)
Lemma upload_credit_update x l f j :
  upload_credit j (update_stream l f x) =
  if decide (j = l) then match stream_objs x !! l with Some st => stream_credit (f st) | None => 0%Z end
  else upload_credit j x.
Proof using Type.
  unfold upload_credit. simpl. destruct (decide (j = l)) as [->|].
  - rewrite list_lookup_alter_eq. by destruct (stream_objs x !! l).
  - by rewrite list_lookup_alter_ne.
Qed.

Lemma upload_register n x : (0 ≤ n)%Z → grants upload W k n x n (register_stream x).1.
Proof using Type.
  intros Hn. split; [by apply rtc_once; right; left|]. intros _. split; [done|]. intros _ HW _.
  change (frame_queue (register_stream x).1) with (frame_queue x). simpl.
  unfold upload_window, upload_credit, granted. simpl. rewrite length_app. simpl.
  destruct (decide (1 ≤ k)%Z); [|repeat case_decide; lia].
  destruct (decide (Z.to_nat (k - 1) = length (stream_objs x))) as [Hk|Hk].
  - rewrite Hk, lookup_app_r, Nat.sub_diag, (lookup_ge_None_2 (stream_objs x)) by done. simpl.
    unfold stream_credit. simpl. rewrite sem_new_view, HW. simpl. repeat case_decide; lia.
  - destruct (decide (Z.to_nat (k - 1) < length (stream_objs x))).
    + rewrite lookup_app_l by done. repeat case_decide; lia.
    + rewrite !lookup_ge_None_2 by (rewrite ?length_app; simpl; lia). repeat case_decide; lia.
Qed.

Lemma upload_open tunnel_id head addr n :
  (0 ≤ n)%Z → follows (grants upload W k) kept n (open_http_stream tunnel_id head addr).
Proof using Type.
  intros Hn. unfold open_http_stream. apply grants_tame; [apply tame_query|]. intros [limit count].
  destruct (_ && _)%bool; [done|]. eapply (follows_bind _ (λ _ m, m = n)).
  { apply follows_atomic. intros x. exists n. split; [by apply upload_register|done]. }
  intros [id l] m ->. apply grants_tame; [apply tame_query|]. intros window.
  apply grants_tame; [by apply follow_tame|]. intros []; [done|]. cbn [negb].
  apply grants_tame; [apply tame_modify_close|]. intros _.
  by apply grants_tame; [apply tame_receivers|].
Qed.

(** Credit leaves the window for the task that took it. *)
Lemma upload_acquire l amount n :
  (0 ≤ amount)%Z →
  follows (grants upload W k)
    (λ ok m, m = if ok : bool then n + (if decide (k = 1 + Z.of_nat l) then amount else 0) else n)%Z
    n (acquire_credit l amount).
Proof using Type.
  intros Ha. apply follows_await. intros x x' ok.
  destruct (stream_objs x !! l) as [st|] eqn:El; [|done].
  pose proof (sem_acquire_view amount (send_credit st)) as Hv.
  destruct (sem_acquire_many amount (send_credit st)) as [[c b]|] eqn:Ea; [|done].
  intros [= <- <-]. eexists. split; [|done]. split.
  { apply rtc_once, step_quiet, quiet_update. intros st' Hst'. rewrite El in Hst'.
    injection Hst' as <-. apply evolves_credit. by eapply acquire_closed. }
  intros Hn. split; [destruct b; repeat case_decide; lia|]. intros _ _ _.
  unfold granted. simpl. rewrite length_alter. unfold upload_window.
  rewrite upload_credit_update, El. unfold upload_credit, frame_queue, stream_credit. simpl.
  simpl in Hv. unfold acquire_spec in Hv.
  destruct (sem_closed (sem_view (send_credit st))).
  - injection Hv as Hc ->. rewrite Hc.
    destruct (decide (Z.to_nat (k - 1) = l)) as [Hk|]; [rewrite Hk, El|]; unfold stream_credit;
      repeat case_decide; lia.
  - destruct (Z.leb_spec amount (sem_permits (sem_view (send_credit st)))); [|done].
    injection Hv as Hc ->. rewrite Hc. simpl.
    destruct (decide (Z.to_nat (k - 1) = l)) as [Hk|]; [rewrite Hk, El|]; unfold stream_credit;
      repeat case_decide; lia.
Qed.

(** A writer that holds the window of its stream pays from it; one that does not is
    given the whole amount. *)
Lemma upload_chunks id l chunks n :
  Forall (λ c, byte_len c ≤ u32_max)%Z chunks → (0 ≤ n)%Z →
  (id = 1 + Z.of_nat l ∨ byte_len (concat chunks) ≤ n)%Z →
  follows (grants upload W k) kept n (send_chunks id l chunks).
Proof using Type.
  intros Hc. revert n. induction Hc as [|c cs Hc _ IH]; intros n Hn Hpay; [done|].
  cbn [send_chunks concat] in *. rewrite u32_saturate_small by done.
  rewrite byte_len_app in Hpay. pose proof (byte_len_nonneg c). pose proof (byte_len_nonneg (concat cs)).
  eapply follows_bind; [by apply upload_acquire|]. intros [] m ->; [|done]. cbn [negb].
  assert (sent_bytes (Some (SData id c)) ≤ byte_len c)%Z as Hb.
  { unfold sent_bytes. case_decide; lia. }
  pose proof (sent_bytes_nonneg (Some (SData id c))).
  assert (sent_bytes (Some (SData id c)) ≤ n + (if decide (k = 1 + Z.of_nat l) then byte_len c else 0))%Z.
  { unfold sent_bytes in *. repeat case_decide; lia. }
  eapply follows_bind; [by apply (grants_send upload)|].
  change (down_value upload) with sent_bytes. intros [] m ->; cbn [negb]; [|cbn [follows]; lia].
  apply IH; [lia|]. destruct Hpay as [->|Hpay]; [by left|right].
  repeat case_decide; lia.
Qed.

Lemma upload_data id payload n :
  (0 ≤ n)%Z → follows (grants upload W k) kept n (send_stream_data id payload).
Proof using Type.
  intros Hn. unfold send_stream_data. eapply follows_bind.
  { apply (follows_atomic _ (λ r m, 0 ≤ m ∧ ∀ l, r = Some l →
      id = 1 + Z.of_nat l ∨ byte_len (concat (split_chunks payload)) ≤ m)%Z).
    intros x. simpl. pose proof (byte_len_nonneg (concat (split_chunks payload))) as Hb.
    destruct (streams x !! id) as [l|] eqn:E; cycle 1.
    { exists n. split; [by apply idle_grants|]. by split. }
    destruct (decide (id = 1 + Z.of_nat l)%Z) as [->|Hne].
    - exists n. split; [by apply idle_grants|]. split; [done|]. intros l' [= <-]. by left.
    - exists (byte_len (concat (split_chunks payload))). split.
      + split; [done|]. intros _. split; [done|]. intros Hwf _ _. by destruct (wf_ids x Hwf id l E).
      + split; [done|]. by right. }
  intros [l|] m [Hm Hpay]; [|done]. apply upload_chunks; [|done|by apply Hpay].
  eapply Forall_impl; [apply full_bound, split_chunks_full|]. intros c Hc. simpl in Hc.
  unfold Session.MAX_CHUNK, u32_max in *. lia.
Qed.

(** Returned credit goes back into the window it came from. *)
Lemma upload_return id increment n :
  (returned_credit (Some (CWindowUpdate id increment)) ≤ n)%Z →
  follows (grants upload W k) kept n
    (atomic (λ x, match Session.on_window_update id increment x with
                  | Some x' => (x', true)
                  | None => (x, false)
                  end)).
Proof using Type.
  intros Hn. pose proof (returned_credit_nonneg (Some (CWindowUpdate id increment))) as Hr.
  apply follows_atomic. intros x. cbn beta.
  destruct (Session.on_window_update id increment x) as [x'|] eqn:E; cycle 1.
  { exists n. split; [by apply idle_grants|simpl; lia]. }
  exists 0%Z. split; [|done]. simpl. split; [by apply rtc_once, step_quiet; eapply quiet_window_update|].
  intros _. split; [done|]. intros Hwf _ _. unfold Session.on_window_update in E.
  destruct (streams x !! id) as [l|] eqn:El; [|injection E as <-; simpl; lia].
  destruct (wf_ids x Hwf id l El) as [_ Hid].
  destruct (stream_objs x !! l) as [st|] eqn:Est; [|injection E as <-; simpl; lia].
  pose proof (sem_add_view increment (send_credit st)) as Hv.
  destruct (sem_add_permits increment (send_credit st)) as [c|]; [|done]. simpl in E, Hv.
  injection E as <-. unfold add_permits_spec in Hv. destruct (_ <=? _)%Z; [|done]. injection Hv as Hc.
  unfold granted. simpl. rewrite length_alter. unfold upload_window.
  rewrite upload_credit_update, Est. unfold frame_queue, stream_credit. simpl. rewrite Hc. simpl.
  unfold returned_credit in *. unfold upload_credit.
  destruct (decide (Z.to_nat (k - 1) = l)) as [Hk|Hk]; [rewrite Hk, Est|]; unfold stream_credit;
    repeat case_decide; lia.
Qed.

Lemma upload_frame i f :
  follows (account_at (R:=R) (A:=A) i (grants upload W k)) kept (returned_credit f)
    (handle_client_frame i f).
Proof using Type.
  pose proof (returned_credit_nonneg f) as Hn. destruct f as [payload|]; [|done].
  pose proof upload_plain as HP.
  destruct payload as [| | | |id data| | |id increment|];
    try (apply account_frame; [apply upload_plain|done|done]); cbn [handle_client_frame].
  - apply account_tame; [|done]. node_calls.
  - by apply call_account, upload_return.
Qed.

(** *** The agent *)
Section tasks.
Context (valid_method valid_uri : str → bool) (http_error : BuildError → str).
Context (local_service : LocalRequest → result LocalResponse str) (options : AgentOptions).

(** A stream's task returns no credit. *)
Lemma placid_serve P (call : StreamOpen * nat * nat) :
  (∀ f, match f with Some (CWindowUpdate _ _) => False | _ => True end → P f) →
  obeys (placid P False)
    (serve_stream valid_method valid_uri http_error local_service options call.1.1 call.1.2 call.2).
Proof using Type.
  intros HP. assert (∀ chunks, obeys (placid P False) (send_pieces (so_stream_id call.1.1) call.2 chunks)) as Hpieces.
  { induction chunks as [|c cs IH]; cbn [send_pieces]; agent_calls. }
  assert (∀ frames trailers, obeys (placid P False)
    (relay_body (so_stream_id call.1.1) call.2 trailers frames)) as Hrelay.
  { induction frames as [|[data|map|e] rest IH]; intros trailers; cbn [relay_body];
      unfold send_payload; agent_calls. }
  unfold serve_stream. agent_calls.
Qed.

Lemma upload_agent_frame payload :
  follows (pays upload (λ _, True)) kept (sent_bytes (Some payload)) (handle_server_frame options payload).
Proof using Type.
  pose proof (sent_bytes_nonneg (Some payload)) as Hn.
  destruct payload as [w|st|open|head|id data|id trailers|id code message|id increment|nonce time|a1 a2 a3];
    cbn [handle_server_frame]; try (apply placid_last; [done|agent_calls]; fail).
  - eapply (follows_bind _ kept); [|done]. apply follows_atomic. intros c. exists 0%Z. split; [|done].
    split; [apply ctx_wf_register|]. split; [by apply list_subseteq_app_l|]. intros _. split; [done|].
    intros _ _. simpl. change (out_queue (register_open open c)) with (out_queue c). lia.
  - eapply (follows_bind _ kept); [|done]. unfold on_data.
    apply placid_then; [agent_calls|]. intros [l|]; [|done].
    apply placid_then; [agent_calls|]. intros ok. eapply (follows_bind _ kept).
    + destruct ok; [|apply placid_last; [done|agent_calls]].
      eapply (follows_bind _ kept); [|done].
      assert (up_value upload (Some (CWindowUpdate id (u32_saturate (byte_len data)))) ≤
              sent_bytes (Some (SData id data)))%Z as Hle.
      { simpl. pose proof (byte_len_nonneg data). unfold u32_saturate. repeat case_match; lia. }
      eapply follows_mono; [|by apply (pays_send upload)]. intros b m ->. lia.
    + intros _ m Hm. apply placid_last; [done|agent_calls].
Qed.
End tasks.

#[export] Instance upload_balanced valid_method valid_uri http_error local_service options i :
  Balanced (R:=R) (A:=A) valid_method valid_uri http_error local_service options i upload W k.
Proof using Type.
  split.
  - apply upload_plain.
  - apply upload_open.
  - done.
  - apply upload_data.
  - apply upload_frame.
  - apply upload_agent_frame.
  - intros call. apply placid_last; [done|]. apply placid_serve. by intros [[]|].
Qed.
End upload.

(** ** What holds of every run *)
Lemma queued_under_way `{Tokio} (L : Ledger) q fs :
  sum_of (queued_value L) (q ++ (Ok <$> fs)) = (sum_of (queued_value L) q + sum_of (down_value L) fs)%Z.
Proof.
  rewrite sum_of_app. f_equal. induction fs as [|f fs IH]; [done|].
  change (down_value L f + sum_of (queued_value L) (Ok <$> fs) =
          down_value L f + sum_of (down_value L) fs)%Z. by rewrite IH.
Qed.

(** C7: the flow control of the agent's answers, end to end: whatever the tasks of
    both sides do, in any interleaving, what is left of a stream's window at the
    agent, the bytes of the stream on their way to the edge, and the credit on its
    way back never exceed together what the edge granted: nothing before it opened
    the stream, the session's window after. So no more than a window of a stream's
    bytes is ever unacknowledged. *)
Theorem credit_conserved `{Tokio} `{MapIteration} `{HttpCrate} `{Rng} {R} `{RegistryOps R}
    {A} `{AuthProvider A} {U} health_json tunnels_json duration_debug parse_uri upstream public
    valid_method valid_uri http_error local_service options i k x0 x σ σ' :
  link_start i σ → session_objs (edge σ) !! i = Some x0 →
  rtc (link_step (R:=R) (A:=A) (U:=U) health_json tunnels_json duration_debug parse_uri upstream public
         valid_method valid_uri http_error local_service options i) σ σ' →
  session_objs (edge σ') !! i = Some x →
  (1 + Z.of_nat (length (stream_objs x)) < 2 ^ 64)%Z →
  (window_left k (agent σ') + sum_of (frame_bytes k) (out_queue (agent σ') ++ to_edge σ') +
   sum_of (queued_value (download k)) (frame_queue x ++ (Ok <$> to_agent σ')) ≤
   granted (download k) (initial_window x0) k x)%Z.
Proof.
  intros Hst Hx0 Hr Hx Hb. rewrite queued_under_way, sum_of_app.
  assert (circulating (download k) (agent σ') x (to_edge σ') (to_agent σ') ≤
          granted (download k) (initial_window x0) k x)%Z as Hle; [|unfold circulating in Hle; simpl in *; lia].
  eapply circulation_bound; [apply download_balanced|exact Hst| |exact Hr|exact Hx|exact Hb].
  intros y Hy. assert (y = x0) as -> by congruence. split; [done|].
  eapply circulating_start; [exact Hst|exact Hx0|apply download_plain|by intros [[]|]| |done].
  intros Hs. simpl. unfold window_left. by rewrite Hs.
Qed.

(** C8: the same for the bytes of requests: the window left at the edge, the bytes
    of the stream queued for or on their way to the agent, and the credit on its way
    back never exceed together the window the stream was opened with. *)
Theorem upload_credit_conserved `{Tokio} `{MapIteration} `{HttpCrate} `{Rng} {R} `{RegistryOps R}
    {A} `{AuthProvider A} {U} health_json tunnels_json duration_debug parse_uri upstream public
    valid_method valid_uri http_error local_service options i k x0 x σ σ' :
  link_start i σ → session_objs (edge σ) !! i = Some x0 →
  rtc (link_step (R:=R) (A:=A) (U:=U) health_json tunnels_json duration_debug parse_uri upstream public
         valid_method valid_uri http_error local_service options i) σ σ' →
  session_objs (edge σ') !! i = Some x →
  (1 + Z.of_nat (length (stream_objs x)) < 2 ^ 64)%Z →
  (upload_window k x + sum_of (queued_value (upload k)) (frame_queue x ++ (Ok <$> to_agent σ')) +
   sum_of (returned_credit k) (out_queue (agent σ') ++ to_edge σ') ≤
   granted (upload k) (initial_window x0) k x)%Z.
Proof.
  intros Hst Hx0 Hr Hx Hb. rewrite queued_under_way, sum_of_app.
  assert (circulating (upload k) (agent σ') x (to_edge σ') (to_agent σ') ≤
          granted (upload k) (initial_window x0) k x)%Z as Hle; [|unfold circulating in Hle; simpl in *; lia].
  eapply circulation_bound; [apply upload_balanced|exact Hst| |exact Hr|exact Hx|exact Hb].
  intros y Hy. assert (y = x0) as -> by congruence. split; [done|].
  eapply circulating_start; [exact Hst|exact Hx0|apply upload_plain|by intros [[]|]|done|].
  intros Ho. simpl. unfold upload_window, upload_credit. rewrite Ho. by case_decide.
Qed.

(** A tunnel is registered, a request with a body is forwarded, and the answer is on
    its way. *)
Definition ping_request : @Request list_http :=
  @mkRequest list_http (lit "POST") demo_uri (lit "HTTP/1.1") (host_headers (lit "MyApp.localhost:8080"))
    [DataFrame (lit "ping")].
Definition demo_link : @Link view_tokio MemoryRegistry StaticTokenAuth :=
  @mkLink view_tokio _ _
    (@ctx_with_outbound view_tokio (@mkChan ClientFrame
       [Some (COpenTunnel (build_open_tunnel demo_options 1000))] 1024 1 true) demo_ctx)
    (Ret true) [] 0 fresh_node (Ret true) [] [] [].
Definition demo_moves : list (@move list_http) :=
  [AgentEmits; EdgeTakes] ++ replicate 20 EdgeReads ++
  [@RequestArrives list_http (lit "node_1") Public ping_request (lit "1.2.3.4:5")] ++
  replicate 20 (EdgeWorks 0) ++ [EdgeEmits; EdgeEmits; AgentTakes; AgentReads; AgentReads; AgentTakes;
  AgentReads; AgentStarts] ++ replicate 4 (AgentWorks 0) ++ [AgentEmits; EdgeEmits].
Definition demo_run : @Link view_tokio MemoryRegistry StaticTokenAuth :=
  @link_run view_tokio sorted_iteration list_http modular_rng MemoryRegistry _ StaticTokenAuth unit
    no_json1 no_json2 dec (λ _, None) (λ _, Err (lit "down")) any_text any_text no_http_error
    demo_service demo_options 0 demo_moves demo_link.

Lemma demo_link_start : @link_start view_tokio MemoryRegistry StaticTokenAuth 0 demo_link.
Proof.
  repeat (split; [reflexivity|]). split; [by repeat constructor|].
  exists fresh_session. split; [reflexivity|]. split; [|by repeat constructor]. split; try done.
Qed.

Lemma demo_moves_ok (P : @Request list_http → Prop) : P ping_request → Forall (@move_ok list_http P) demo_moves.
Proof. intros HP. by repeat constructor. Qed.

Lemma credit_conserved_witness :
  (sum_of (frame_bytes 1) (@out_queue view_tokio (agent demo_run) ++ to_edge demo_run) = 5)%Z ∧
  ∃ x, @session_objs view_tokio _ _ (edge demo_run) !! 0 = Some x ∧
    (@window_left view_tokio 1 (agent demo_run) +
     sum_of (frame_bytes 1) (@out_queue view_tokio (agent demo_run) ++ to_edge demo_run) +
     sum_of (@queued_value view_tokio (@download view_tokio 1))
       (@frame_queue view_tokio x ++ (Ok <$> to_agent demo_run)) ≤
     @granted view_tokio (@download view_tokio 1) 65536 1 x)%Z.
Proof.
  split; [vm_compute; reflexivity|].
  assert ((λ x, length (@stream_objs view_tokio x)) <$>
    @session_objs view_tokio _ _ (edge demo_run) !! 0 = Some 1) as Hl by (vm_compute; reflexivity).
  destruct (@session_objs view_tokio _ _ (edge demo_run) !! 0) as [x|] eqn:Hx; [|discriminate Hl].
  injection Hl as Hl. exists x. split; [reflexivity|].
  refine (@credit_conserved view_tokio sorted_iteration list_http modular_rng MemoryRegistry _
    StaticTokenAuth _ unit no_json1 no_json2 dec (λ _, None) (λ _, Err (lit "down"))
    (λ _, True) any_text any_text no_http_error demo_service demo_options 0 1 fresh_session x
    demo_link demo_run demo_link_start eq_refl _ Hx _).
  - by apply link_run_sound, demo_moves_ok.
  - rewrite Hl. reflexivity.
Defined.

Lemma upload_credit_conserved_witness :
  (sum_of (sent_bytes 1) (to_agent demo_run) = 4)%Z ∧
  ∃ x, @session_objs view_tokio _ _ (edge demo_run) !! 0 = Some x ∧
    (@upload_window view_tokio 1 x +
     sum_of (@queued_value view_tokio (@upload view_tokio 1))
       (@frame_queue view_tokio x ++ (Ok <$> to_agent demo_run)) +
     sum_of (returned_credit 1) (@out_queue view_tokio (agent demo_run) ++ to_edge demo_run) ≤
     @granted view_tokio (@upload view_tokio 1) 65536 1 x)%Z.
Proof.
  split; [vm_compute; reflexivity|].
  assert ((λ x, length (@stream_objs view_tokio x)) <$>
    @session_objs view_tokio _ _ (edge demo_run) !! 0 = Some 1) as Hl by (vm_compute; reflexivity).
  destruct (@session_objs view_tokio _ _ (edge demo_run) !! 0) as [x|] eqn:Hx; [|discriminate Hl].
  injection Hl as Hl. exists x. split; [reflexivity|].
  refine (@upload_credit_conserved view_tokio sorted_iteration list_http modular_rng MemoryRegistry _
    StaticTokenAuth _ unit no_json1 no_json2 dec (λ _, None) (λ _, Err (lit "down"))
    (λ _, True) any_text any_text no_http_error demo_service demo_options 0 1 fresh_session x
    demo_link demo_run demo_link_start eq_refl _ Hx _).
  - by apply link_run_sound, demo_moves_ok.
  - rewrite Hl. reflexivity.
Defined.
