(* ===== verification/Delivery.v ===== *)
(** * A response, in any interleaving

    What the public client reads of a response, against what the agent sends and
    what the local service answered: whatever the tasks of both sides do, and
    whichever of them are dropped, it is a prefix of the local service's answer,
    and while the stream is open nothing of what was sent is missing. *)

From S2P Require Import Prelude RustStr Crates CoreError Routing Auth Ids ServerConfig.
From S2P Require Import Registry MemoryRegistry Async Proto Http Session Control Ingress Node.
From S2P Require Import ClientConfig Agent Link FlowControl.

(** ** One [Open] frame for each stream

    An [Open] frame for stream [k], or a call it was turned into, is a token; a
    token comes into the world when the edge registers the stream. *)
Section tokens.
Context `{Tokio} `{MapIteration} `{HttpCrate} `{Rng}.
Context {R : Type} `{RegistryOps R} {A : Type} `{AuthProvider A}.
Context (W k : Z).

Abbreviation spawned_call := (StreamOpen * nat * nat)%type.

Definition open_token (f : ServerFrame) : Z :=
  match f with Some (SOpen open) => if decide (so_stream_id open = k) then 1 else 0 | _ => 0 end.
Definition call_token (call : spawned_call) : Z := if decide (so_stream_id call.1.1 = k) then 1 else 0.
Definition calls_made (c : SessionCtx) : Z := sum_of call_token (ctx_spawned c).

Lemma open_token_nonneg f : (0 ≤ open_token f)%Z.
Proof using Type. unfold open_token. repeat case_match; lia. Qed.

Lemma calls_same (c c' : SessionCtx) :
  ctx_spawned c' = ctx_spawned c → (False → ∀ l, permits l c' = permits l c) → calls_made c' = calls_made c.
Proof using Type. unfold calls_made. by intros ->. Qed.

Definition tokens : Ledger :=
  mkLedger open_token (λ _, 0%Z) calls_made (λ _, 0%Z) (λ _, 1%Z) False False (λ _, Z.le_0_1)
    open_token_nonneg (λ _, Z.le_refl 0) calls_same (λ _ _ _, eq_refl).

Lemma tokens_plain f : creditless f → queued_value tokens f = 0%Z.
Proof using Type. destruct f as [[[]|]|]; done. Qed.

Lemma tokens_edge_frame i f :
  follows (account_at (R:=R) (A:=A) i (grants tokens W k)) (λ _ m, 0 ≤ m)%Z 0%Z (handle_client_frame i f).
Proof using Type.
  destruct f as [payload|]; [|done]. pose proof tokens_plain as HP.
  destruct payload as [| | | |id data| | |id increment|];
    try (apply account_frame; [apply tokens_plain|done|done]); cbn [handle_client_frame].
  all: apply account_tame; [|done]; node_calls.
Qed.

Lemma tokens_agent_frame options payload :
  follows (pays tokens (λ _, True)) (λ _ m, 0 ≤ m)%Z (open_token (Some payload))
    (handle_server_frame options payload).
Proof using Type.
  pose proof (open_token_nonneg (Some payload)) as Hn.
  destruct payload; cbn [handle_server_frame]; try (apply placid_last; [done|agent_calls]; fail).
  - eapply (follows_bind _ (λ _ m, 0 ≤ m)%Z); [|done]. apply follows_atomic. intros c. exists 0%Z.
    split; [|done]. split; [apply ctx_wf_register|]. split; [by apply list_subseteq_app_l|].
    intros _. split; [done|]. intros _ _. simpl.
    change (out_queue (register_open open c)) with (out_queue c).
    unfold calls_made, register_open. cbn [ctx_spawned ctx_spawn ctx_with_streams].
    rewrite sum_of_app. simpl. unfold call_token. simpl. lia.
  - unfold on_data. apply placid_last; [done|]. agent_calls.
Qed.

#[export] Instance tokens_balanced valid_method valid_uri http_error local_service options i :
  Balanced (R:=R) (A:=A) valid_method valid_uri http_error local_service options i tokens W k.
Proof using Type.
  split.
  - apply tokens_plain.
  - intros tunnel_id head addr n. apply grants_open; [done|]. intros id window.
    unfold birth. simpl. by case_decide.
  - done.
  - intros id payload n. apply grants_last, tame_data. done.
  - apply tokens_edge_frame.
  - apply tokens_agent_frame.
  - intros call. apply placid_last; [done|]. apply placid_serve. done.
Qed.
End tokens.

(** ** What a frame from the agent brings a stream's reader *)
Definition chunk_of (k : Z) (f : ClientFrame) : option Chunk :=
  match f with
  | Some (CData id payload) => if decide (id = k) then Some (ChunkData payload) else None
  | Some (CEnd id trailers) => if decide (id = k) then Some (ChunkEnd trailers) else None
  | Some (CReset id code message) =>
      if decide (id = k) then Some (ChunkReset (reset_code_of code) message) else None
  | _ => None
  end.
Definition chunks_of (k : Z) (fs : list ClientFrame) : list Chunk := omap (chunk_of k) fs.

Lemma chunks_app k fs gs : chunks_of k (fs ++ gs) = chunks_of k fs ++ chunks_of k gs.
Proof. apply omap_app. Qed.

Lemma chunks_none k fs : Forall (λ f, chunk_of k f = None) fs → chunks_of k fs = [].
Proof. unfold chunks_of. induction 1 as [|f fs Hf _ IH]; [done|]. cbn. by rewrite Hf. Qed.

(** ** What a stream's task owes

    The frames it has still to send; when it gives up, the rest stays owed. *)
Section owing.
Context `{Tokio} `{HttpCrate}.

Definition owes (n : list ClientFrame) (c : SessionCtx) (n' : list ClientFrame) (c' : SessionCtx) : Prop :=
  ctx_spawned c' = ctx_spawned c ∧ ∃ fs, n = fs ++ n' ∧ out_queue c' = out_queue c ++ fs.

Notation given_up := (λ _ _, True) (only parsing).

(** A step that queues nothing. *)
Definition sends_nothing (c c' : SessionCtx) : Prop :=
  ctx_spawned c' = ctx_spawned c ∧ out_queue c' = out_queue c.

Lemma silent_owes n c c' : sends_nothing c c' → owes n c n c'.
Proof using Type. intros [Hs Ho]. split; [done|]. exists []. by rewrite Ho, app_nil_r. Qed.

Lemma placid_silent_sends V c c' : placid (λ _, False) V c c' → sends_nothing c c'.
Proof using Type.
  intros (_ & Hs & _ & fs & Ho & Hf). split; [done|]. destruct Hf as [|? ? []]. by rewrite Ho, app_nil_r.
Qed.

Lemma owes_silent {B C} Q n (t : task SessionCtx B) (k : B → task SessionCtx C) :
  obeys (placid (λ _, False) False) t → (∀ b, follows owes Q n (k b)) →
  follows owes Q n (task_bind t k).
Proof using Type. apply follows_then. intros c c' Hc. by eapply silent_owes, placid_silent_sends. Qed.

Lemma owes_last {B} n (t : task SessionCtx B) :
  obeys (placid (λ _, False) False) t → follows owes given_up n t.
Proof using Type.
  intros Ht. eapply follows_mono; [|eapply follows_obeys, Ht]; [done|].
  intros c c' Hc. by eapply silent_owes, placid_silent_sends.
Qed.

Lemma owes_send p n :
  follows owes (λ ok m, ok = true → m = n) (Some p :: n) (ctx_send p).
Proof using Type.
  apply follows_await. intros c c' ok. destruct (ch_send _ _) as [[o b]|] eqn:E; [|done].
  intros [= <- <-]. pose proof (ctx_send_queue _ _ _ _ E) as Hq. destruct b.
  - exists n. split; [|done]. split; [done|]. by exists [Some p].
  - exists (Some p :: n). split; [|done]. by apply silent_owes.
Qed.

Lemma owes_pieces id l chunks n :
  follows owes (λ ok m, ok = true → m = n) (((λ c, Some (CData id c)) <$> chunks) ++ n)
    (send_pieces id l chunks).
Proof using Type.
  induction chunks as [|c cs IH]; [done|]. cbn [send_pieces fmap list_fmap app].
  apply owes_silent; [apply placid_acquire|]. intros []; [|done]. cbn [negb].
  eapply follows_bind; [apply owes_send|]. intros [] m Hm; [|done]. cbn [negb].
  by rewrite (Hm eq_refl).
Qed.

Lemma owes_sent_last {B} p n (k : bool → task SessionCtx B) :
  (∀ ok, obeys (placid (λ _, False) False) (k ok)) →
  follows owes given_up (Some p :: n) (task_bind (ctx_send p) k).
Proof using Type.
  intros Hk. eapply follows_bind; [apply owes_send|]. intros ok m _. by apply owes_last.
Qed.

Lemma owes_reset {B} id code message n (k : unit → task SessionCtx B) :
  (∀ u, obeys (placid (λ _, False) False) (k u)) →
  follows owes given_up (Some (CReset id (reset_code_i32 code) message) :: n)
    (task_bind (reset id code message) k).
Proof using Type.
  intros Hk. unfold reset. eapply (follows_bind _ given_up).
  - apply owes_sent_last. intros ok. agent_calls.
  - intros u m _. by apply owes_last.
Qed.

Lemma owes_relay id l frames trailers :
  follows owes given_up (body_answer id trailers frames) (relay_body id l trailers frames).
Proof using Type.
  revert trailers. induction frames as [|[data|map|e] rest IH]; intros trailers;
    cbn [relay_body body_answer]; [| |apply IH|].
  - apply owes_sent_last. intros _. agent_calls.
  - eapply follows_bind; [apply owes_pieces|]. intros [] m Hm; cbn [negb].
    + by rewrite (Hm eq_refl).
    + apply owes_last. agent_calls.
  - apply owes_reset. intros _. agent_calls.
Qed.

Context (valid_method valid_uri : str → bool) (http_error : BuildError → str).
Context (local_service : LocalRequest → result LocalResponse str) (options : AgentOptions).

Notation answer := (stream_answer valid_method valid_uri http_error local_service options).

(** The task of a stream owes the answer to its request. *)
Lemma owes_serve open body credit :
  follows owes given_up (answer open)
    (serve_stream valid_method valid_uri http_error local_service options open body credit).
Proof using Type.
  unfold serve_stream, stream_answer. destruct (so_http open) as [head|]; cycle 1.
  { eapply (follows_bind _ given_up); [apply owes_reset; intros _; agent_calls|].
    intros _ m _. apply owes_last. agent_calls. }
  destruct (local_request _ _ _ _ _) as [request|e]; cycle 1.
  { apply owes_silent; [agent_calls|]. intros _. apply owes_reset. intros _. agent_calls. }
  destruct (local_service request) as [response|e]; cycle 1.
  { apply owes_silent; [agent_calls|]. intros _. apply owes_reset. intros _. agent_calls. }
  eapply follows_bind; [apply owes_send|]. intros [] m Hm; cbn [negb].
  - rewrite (Hm eq_refl). apply owes_relay.
  - apply owes_last. agent_calls.
Qed.

(** All of it is about the stream of the request. *)
Lemma answer_about k open : so_stream_id open ≠ k → chunks_of k (answer open) = [].
Proof using Type.
  intros Hk. apply chunks_none. unfold stream_answer.
  assert (∀ code m, chunk_of k (Some (CReset (so_stream_id open) code m)) = None) as Hr
    by (intros; simpl; by rewrite decide_False).
  destruct (so_http open) as [head|]; [|by repeat constructor].
  destruct (local_request _ _ _ _ _) as [request|e]; [|by repeat constructor].
  destruct (local_service request) as [response|e]; [|by repeat constructor].
  constructor; [done|]. generalize (@nil Header). induction (lr_frames response) as [|[d|m|e] rest IH];
    intros acc; cbn [body_answer]; [|apply Forall_app; split; [|apply IH]|apply IH|by repeat constructor].
  - constructor; [|done]. simpl. by rewrite decide_False.
  - apply Forall_fmap, Forall_true. intros c. simpl. by rewrite decide_False.
Qed.

(** The agent's read loop brings no stream's reader anything. *)
Definition quietly (k : Z) (c c' : SessionCtx) : Prop :=
  ∃ fs cs, out_queue c' = out_queue c ++ fs ∧ chunks_of k fs = [] ∧ ctx_spawned c' = ctx_spawned c ++ cs.

Lemma placid_quietly k V c c' : placid (λ f, chunk_of k f = None) V c c' → quietly k c c'.
Proof using Type.
  intros (_ & Hs & _ & fs & Ho & Hf). exists fs, []. by rewrite Hs, app_nil_r, (chunks_none k fs).
Qed.

Lemma quietly_frame k payload : obeys (quietly k) (handle_server_frame options payload).
Proof using Type.
  assert (∀ {B} (t : task SessionCtx B), obeys (placid (λ f, chunk_of k f = None) False) t →
            obeys (quietly k) t) as Hp.
  { intros B t Ht. eapply obeys_weaken; [|exact Ht]. intros c c'. apply placid_quietly. }
  destruct payload; cbn [handle_server_frame]; try (apply Hp; agent_calls; fail).
  - apply obeys_bind; [|done]. apply obeys_modify. intros c. exists [].
    eexists. split_and!; [|done|unfold register_open; reflexivity]. by rewrite app_nil_r.
  - apply Hp. unfold on_data. agent_calls.
Qed.
End owing.

(** ** What the edge's read loop carries

    The [l]-th object of a session is stream [1 + l]. A chunk that arrived for it
    is put into the object's channel by way of a sender taken from the table, or is
    discarded, when the stream is not in the table or nobody will read. *)
Section carrying.
Context `{Tokio} `{MapIteration} `{HttpCrate} `{Rng}.
Context {R : Type} `{RegistryOps R} {A : Type} `{AuthProvider A}.
Notation AppState := (AppState (R:=R) (A:=A)).
Context (l : nat).

Definition stream_no : Z := 1 + Z.of_nat l.

(** [Astray]: the table was wrong, which it never is. *)
Inductive carry := Nothing | Arrived (c : Chunk) | Pushing (c : Chunk) | Astray.

Definition carried (n : carry) : list Chunk :=
  match n with Arrived c | Pushing c => [c] | _ => [] end.

Inductive carry_step (x x' : Session) : carry → carry → Prop :=
| carry_on n : untouched l x x' → carry_step x x' n n
| carry_sender c : streams x !! stream_no = Some l → untouched l x x' → carry_step x x' (Arrived c) (Pushing c)
| carry_push c :
    listening l x = true → listening l x' = true → buffered l x' = buffered l x ++ [c] →
    carry_step x x' (Pushing c) Nothing
| carry_no_stream c : streams x !! stream_no = None → untouched l x x' → carry_step x x' (Arrived c) Nothing
| carry_no_reader c : listening l x = false → untouched l x x' → carry_step x x' (Pushing c) Nothing.

Definition carries (n : carry) (x : Session) (n' : carry) (x' : Session) : Prop :=
  rtc session_step x x' ∧
  (n ≠ Astray → session_wf x → n' ≠ Astray ∧ carry_step x x' n n').

Definition put_down {B} (_ : B) (n : carry) : Prop := n = Nothing ∨ n = Astray.

Lemma untouched_refl x : untouched l x x.
Proof using Type. by left. Qed.

Lemma tame_carries P V D n x x' : tame P V True D x x' → carries n x n x'.
Proof using Type.
  intros (Hs & _ & _ & _ & Hk & _). split; [done|]. intros Hn _. split; [done|].
  by apply carry_on, Hk.
Qed.

Lemma carries_last {B} P V D n (t : task Session B) :
  put_down tt n → obeys (tame P V True D) t → follows carries put_down n t.
Proof using Type.
  intros Hn Ht. eapply follows_mono; [|eapply follows_obeys, Ht; apply tame_carries]. by intros b m ->.
Qed.

Lemma carries_astray {B} V D (t : task Session B) :
  obeys (tame (λ _, True) V False D) t → follows carries put_down Astray t.
Proof using Type.
  intros Ht. eapply follows_mono; [|eapply follows_obeys, Ht].
  - intros b m ->. by right.
  - intros x x' (Hs & _). by split.
Qed.

(** Taking the sender of a stream, if it is there. *)
Definition chunk_for (id : Z) (c : Chunk) : carry := if decide (id = stream_no) then Arrived c else Nothing.

Lemma carries_sender id c :
  follows carries
    (λ r n, n = Astray ∨
       match r with
       | Some l' => if decide (l' = l) then n = Pushing c else n = Nothing
       | None => n = Nothing
       end)
    (chunk_for id c) (atomic (stream_body_sender id)).
Proof using Type.
  pose proof (tame_body_sender (D := False) (λ _, True) False True id) as Ht.
  apply follows_atomic. intros x. specialize (Ht x). simpl in Ht.
  destruct (stream_body_sender id x) as [x' r] eqn:E. destruct Ht as [Ht _].
  pose proof Ht as (Hs & _ & _ & _ & Hk & _). specialize (Hk I l). cbn [fst snd].
  unfold stream_body_sender in E. unfold chunk_for.
  destruct (streams x !! id) as [l'|] eqn:El; cycle 1.
  { injection E as <- <-. exists Nothing. split; [|by right]. split; [done|]. intros _ _.
    split; [done|]. case_decide; [|by apply carry_on]. apply carry_no_stream; [congruence|done]. }
  destruct (decide (id = 1 + Z.of_nat l')%Z) as [->|Hid]; cycle 1.
  { exists Astray. split; [|by left]. split; [done|]. intros _ Hwf. by destruct (wf_ids x Hwf id l' El). }
  destruct (stream_objs x !! l') as [st|] eqn:Est; cycle 1.
  { exists Astray. split; [|by left]. split; [done|]. intros _ Hwf.
    destruct (wf_ids x Hwf _ l' El) as [[? Hl]%lookup_lt_is_Some_2 _]. congruence. }
  destruct (stream_closed st) eqn:Hc; cbn [negb] in E.
  { exists Astray. split; [|by left]. split; [done|]. intros _ Hwf.
    destruct (wf_objs x Hwf l' st Est) as [_ Hi]. rewrite Hc in Hi. by apply Hi in El. }
  injection E as <- <-. unfold stream_no. destruct (decide (l' = l)) as [->|Hl].
  - rewrite decide_True by done. exists (Pushing c). split; [|by right]. split; [done|].
    intros _ _. split; [done|]. by apply carry_sender.
  - rewrite decide_False by lia. exists Nothing. split; [|by right]. split; [done|].
    intros _ _. split; [done|]. by apply carry_on.
Qed.

(** Putting a chunk into the channel of an object. *)
Lemma carries_push l' c :
  follows carries put_down (if decide (l' = l) then Pushing c else Nothing) (send_body l' c).
Proof using Type.
  pose proof (tame_send_body (D := False) (λ _, True) False l' c) as Ht.
  apply follows_await. intros x x' ok E. specialize (Ht x). cbn in Ht.
  exists Nothing. split; [|by left].
  destruct (stream_objs x !! l') as [st|] eqn:Est; [|done].
  pose proof (ch_send_view c (body_ch st)) as Hv.
  destruct (ch_send c (body_ch st)) as [[b ok']|]; [|done]. injection E as <- <-.
  destruct Ht as [(Hs & _) _]. split; [done|]. intros _ _. split; [done|].
  destruct (decide (l' = l)) as [->|Hl]; cycle 1.
  { apply carry_on. left. unfold listening, buffered, body_chan. cbn.
    by rewrite list_lookup_alter_ne. }
  simpl in Hv. unfold send_spec in Hv.
  assert (body_chan l x = Some (ch_view (body_ch st)) ∧
          body_chan l (update_stream l (with_body b) x) = Some (ch_view b)) as [Hb1 Hb2].
  { unfold body_chan. cbn. by rewrite list_lookup_alter_eq, Est. }
  destruct (ch_receiver (ch_view (body_ch st))) eqn:Hr; cbn in Hv.
  - destruct (decide _); [|done]. injection Hv as Hb _.
    apply carry_push; unfold listening, buffered; rewrite ?Hb1, ?Hb2; cbn; [done|by rewrite Hb..].
  - injection Hv as Hb _. apply carry_no_reader; [unfold listening; by rewrite Hb1|].
    left. unfold listening, buffered. by rewrite Hb1, Hb2, Hb.
Qed.

Lemma carries_then {B C} n (t : task Session B) (k : B → task Session C) :
  obeys (tame (λ _, True) False True False) t → (∀ b, follows carries put_down n (k b)) →
  follows carries put_down n (task_bind t k).
Proof using Type. apply follows_then. intros x x'. apply tame_carries. Qed.

Lemma put_down_last {B} n (t : task Session B) :
  put_down tt n → obeys (tame (λ _, True) False True False) t → follows carries put_down n t.
Proof using Type. apply carries_last. Qed.

(** A chunk goes to the stream it is for, or nowhere. *)
Lemma carries_data id payload :
  follows carries put_down (chunk_for id (ChunkData payload)) (on_stream_data id payload).
Proof using Type.
  unfold on_stream_data. eapply follows_bind; [apply carries_sender|]. intros r n Hn.
  destruct r as [l'|]; [|by destruct Hn as [->| ->]; [right|left]].
  eapply (follows_bind _ put_down).
  - destruct Hn as [->|Hn]; [apply (carries_astray False False); apply tame_send_body|].
    replace n with (if decide (l' = l) then Pushing (ChunkData payload) else Nothing) by by case_decide.
    apply carries_push.
  - intros [] m Hm; cbn [negb].
    + apply put_down_last; [exact Hm|]. by apply obeys_bind; [apply tame_drop_body|].
    + apply put_down_last; [exact Hm|]. apply obeys_bind; [apply tame_modify_close|].
      intros _. by apply obeys_bind; [apply tame_drop_body|].
Qed.

Lemma carries_finish id c : follows carries put_down (chunk_for id c) (finish_stream id c).
Proof using Type.
  unfold finish_stream. eapply follows_bind; [apply carries_sender|]. intros r n Hn.
  eapply (follows_bind _ put_down).
  - destruct r as [l'|]; [|by destruct Hn as [->| ->]; [right|left]].
    eapply (follows_bind _ put_down).
    + destruct Hn as [->|Hn]; [apply (carries_astray False False); apply tame_send_body|].
      replace n with (if decide (l' = l) then Pushing c else Nothing) by by case_decide.
      apply carries_push.
    + intros ok m Hm. apply put_down_last; [exact Hm|apply tame_drop_body].
  - intros u m Hm. apply put_down_last; [exact Hm|apply tame_modify_close].
Qed.

(** ** The read loop of the edge, frame by frame *)
Definition carry_of (f : ClientFrame) : carry := from_option Arrived Nothing (chunk_of stream_no f).

Lemma chunk_for_frame id c f :
  chunk_of stream_no f = (if decide (id = stream_no) then Some c else None) → carry_of f = chunk_for id c.
Proof using Type. unfold carry_of, chunk_for. intros ->. by case_decide. Qed.

(** A step of the node that leaves the channel alone. *)
Definition calm (x x' : Session) : Prop := rtc session_step x x' ∧ untouched l x x'.

#[local] Instance calm_refl : Reflexive calm.
Proof using Type. intros x. split; [done|apply untouched_refl]. Qed.

Lemma tame_calm P V D x x' : tame P V True D x x' → calm x x'.
Proof using Type. intros (Hs & _ & _ & _ & Hk & _). split; [done|by apply Hk]. Qed.

Lemma obeys_calm {B} P V D (t : task Session B) : obeys (tame P V True D) t → obeys calm t.
Proof using Type. apply obeys_weaken, tame_calm. Qed.

Lemma obeys_at_calm {B} P V D i (t : task AppState B) :
  obeys (at_session i (tame P V True D)) t → obeys (at_session i calm) t.
Proof using Type.
  apply obeys_weaken. intros s s' Ha x Hx. destruct (Ha x Hx) as (x' & Hx' & Hxx). exists x'.
  split; [done|by eapply tame_calm].
Qed.

Lemma calm_send f : obeys calm (send f).
Proof using Type. eapply obeys_calm, (follow_tame (D := False) (λ _, True) False True). done. Qed.

Lemma calm_insert t : obeys calm (modify (insert_tunnel t)).
Proof using Type.
  apply obeys_modify. intros x. split; [by apply rtc_once, step_quiet, quiet_tunnels|by apply untouched_objs].
Qed.

#[local] Hint Resolve calm_send calm_insert : tame.
#[local] Hint Extern 3 (obeys calm _) => eapply (obeys_calm (λ _, True) False False); solve [eauto with tame] : tame.

Lemma carries_calm {B} i (t : task AppState B) :
  obeys (at_session i calm) t → follows (account_at i carries) put_down Nothing t.
Proof using Type.
  intros Ht. eapply follows_mono; [|eapply follows_obeys, Ht].
  - intros b m ->. by left.
  - intros s s' Ha x Hx. destruct (Ha x Hx) as (x' & Hx' & Hs & Hu). exists x'.
    split; [done|]. split; [done|]. intros _ _. split; [done|by apply carry_on].
Qed.

Lemma carries_call {B} i n (t : task Session B) (k : B → task AppState bool) :
  follows carries put_down n t → (∀ b m, put_down tt m → follows (account_at i carries) put_down m (k b)) →
  follows (account_at i carries) put_down n (task_bind (on_session i t) k).
Proof using Type. intros Ht Hk. eapply follows_bind; [by apply call_account|]. intros b m Hm. by apply Hk. Qed.

Lemma carries_frame i f : follows (account_at (R:=R) (A:=A) i carries) put_down (carry_of f) (handle_client_frame i f).
Proof using Type.
  destruct f as [payload|]; [|by left].
  destruct payload as [h|open|tid|head|id data|id tr|id code msg|id inc|nonce t]; cbn [handle_client_frame];
    try (apply carries_calm; unfold close_tunnel, register_tunnel, claim_tunnel; by node_calls).
  - rewrite (chunk_for_frame id (ChunkData data)) by done.
    apply carries_call; [apply carries_data|]. intros a m Hm. eapply (follows_bind _ put_down); [|done].
    destruct (0 <? a)%Z; [|done]. apply call_account, put_down_last; [done|by apply tame_grant].
  - rewrite (chunk_for_frame id (ChunkEnd tr)) by done.
    by apply carries_call; [apply carries_finish|].
  - rewrite (chunk_for_frame id (ChunkReset (reset_code_of code) msg)) by done.
    by apply carries_call; [apply carries_finish|].
Qed.

(** ** Every other task of the node only reads *)
Definition reads (x x' : Session) : Prop :=
  rtc session_step x x' ∧
  (untouched l x x' ∨ listening l x' = listening l x ∧ ∃ c, buffered l x = c :: buffered l x').

#[local] Instance reads_refl : Reflexive reads.
Proof using Type. intros x. split; [done|]. left. apply untouched_refl. Qed.

Lemma obeys_at_reads {B} P V D i (t : task AppState B) :
  obeys (at_session i (tame P V True D)) t → obeys (at_session i reads) t.
Proof using Type.
  apply obeys_weaken. intros s s' Ha x Hx. destruct (Ha x Hx) as (x' & Hx' & Hxx). exists x'.
  split; [done|]. apply tame_calm in Hxx as [Hs Hu]. split; [done|by left].
Qed.

Lemma reads_next l' : obeys reads (next_chunk l').
Proof using Type.
  pose proof (tame_next (D := False) (λ _, True) False l') as Ht.
  apply obeys_await. intros x x' a E. specialize (Ht x). cbn in Ht.
  destruct (stream_objs x !! l') as [st|] eqn:Est; [|done]. cbn in E, Ht.
  pose proof (ch_recv_view (body_ch st)) as Hv.
  destruct (ch_recv (body_ch st)) as [[b c]|]; [|done]. injection E as <- <-.
  destruct Ht as [(Hs & _) _]. split; [done|].
  destruct (decide (l' = l)) as [->|Hl]; cycle 1.
  { left. left. unfold listening, buffered, body_chan. cbn. by rewrite list_lookup_alter_ne. }
  assert (body_chan l x = Some (ch_view (body_ch st)) ∧
          body_chan l (update_stream l (with_body b) x) = Some (ch_view b)) as [Hb1 Hb2].
  { unfold body_chan. cbn. by rewrite list_lookup_alter_eq, Est. }
  unfold untouched, listening, buffered. rewrite Hb1, Hb2. cbn.
  simpl in Hv. unfold recv_spec in Hv. destruct (ch_queue (ch_view (body_ch st))) as [|d q] eqn:Eq.
  - case_decide; [|done]. injection Hv as -> _. rewrite Eq. by left; left.
  - injection Hv as Hb _. rewrite Hb. cbn. right. split; [done|by exists d].
Qed.

Context `{HttpCrate} {U : Type}.
Context (health_json : HealthResponse → str → str) (tunnels_json : list SessionSnapshot → str).
Context (duration_debug : Z → str).
Context (parse_uri : str → option Uri) (upstream : Request → result (Response (EdgeBody U)) str).
Context (public : Request → Prop).

Lemma reads_node_task i t :
  node_task health_json tunnels_json duration_debug parse_uri upstream public i t →
  obeys (at_session (R:=R) (A:=A) i reads) t.
Proof using Type.
  intros Ht. destruct Ht; try (apply obeys_bind; [|done]; []).
  - by eapply obeys_at_reads, (tame_handshake _ (λ _, True) False True False).
  - by eapply obeys_at_reads, (tame_run_session _ (λ _, True) False True False).
  - by eapply obeys_at_reads, (tame_teardown _ (λ _, True) False True False).
  - by eapply obeys_at_reads, (tame_heartbeat _ (λ _, True) False True False).
  - by eapply obeys_at_reads, (tame_request _ _ _ _ _ _ (λ _, True) True False).
  - by eapply obeys_at_reads, (tame_answer _ _ (λ _, True) False True False).
  - apply at_call; [exact _|]. right. apply reads_next.
  - by eapply obeys_at_reads, (tame_drop _ (λ _, True) False True False).
  - by apply at_modify; [exact _|].
Qed.
End carrying.

(** ** What a reader takes

    The first of a channel's contents, when the rest is still there; a receiver that
    is dropped takes the contents with it. *)
Definition front_taken {C} (live live' : bool) (q q' : list C) : list C :=
  match q with
  | c :: rest => if decide (length q' = length rest ∧ live' = live) then [c] else []
  | [] => []
  end.

Definition read_from {C} (live live' : bool) (q q' : list C) : Prop :=
  (live' = live ∧ q' = q) ∨ (live' = false ∧ q' = []) ∨ (live' = live ∧ ∃ c, q = c :: q').

Lemma front_taken_spec {C} live live' (q q' : list C) :
  read_from live live' q q' →
  ∃ gone, q = front_taken live live' q q' ++ q' ++ gone ∧
    (gone ≠ [] → live' = false) ∧ (live = false → live' = false).
Proof.
  unfold front_taken. intros [[Hl Hb]|[[Hl Hb]|(Hl & c & Hb)]].
  - exists []. split; [|by rewrite Hl]. rewrite Hb, app_nil_r. destruct q as [|c q]; [done|].
    rewrite decide_False; [done|]. simpl. lia.
  - destruct q as [|c q]; [by exists []; rewrite Hb|].
    case_decide as Hd.
    + exists []. rewrite Hb in Hd |- *. destruct q; [done|]. by destruct Hd.
    + exists (c :: q). by rewrite Hb.
  - exists []. rewrite Hb, decide_True, app_nil_r by done. split; [done|by rewrite Hl].
Qed.

Lemma front_taken_same {C} live (q : list C) : front_taken live live q q = [].
Proof. unfold front_taken. destruct q as [|c q]; [done|]. rewrite decide_False; [done|]. simpl. lia. Qed.

Lemma front_taken_grown {C} live live' (c : C) q : front_taken live live' q (q ++ [c]) = [].
Proof.
  unfold front_taken. destruct q as [|d q]; [done|].
  rewrite decide_False; [done|]. rewrite length_app. simpl. lia.
Qed.

(** ** One step, seen by the reader of a stream *)
Section reading.
Context `{Tokio} (l : nat).

(** A stream that left the table does not come back. *)
Lemma wf_no_stream (x x' : Session) :
  rtc session_step x x' → session_wf x → bounded x' →
  streams x !! stream_no l = None → l < length (stream_objs x) → streams x' !! stream_no l = None.
Proof using Type.
  intros Hr Hwf Hb. revert Hwf. induction Hr as [x|x y z Hs Hr IH]; intros Hwf Hn Hl; [done|].
  pose proof (steps_objs _ _ Hr). pose proof (step_objs _ _ Hs). unfold bounded in *.
  apply IH; [done| | |lia]; [eapply wf_step; [done|lia|done]|].
  destruct Hs as [(_ & _ & _ & -> & _)|[->|[id ->]]]; [done| |].
  - simpl. rewrite lookup_insert_ne; [done|].
    rewrite (wf_next _ Hwf), Z.mod_small by lia. unfold stream_no. lia.
  - unfold close_stream. destruct (streams x !! id); [|done]. simpl.
    destruct (decide (id = stream_no l)) as [->|]; [apply lookup_delete_eq|by rewrite lookup_delete_ne].
Qed.

(** What a step took from the channel. *)
Definition taken_from (x x' : Session) : list Chunk :=
  front_taken (listening l x) (listening l x') (buffered l x) (buffered l x').

Lemma reads_taken x x' :
  reads l x x' →
  ∃ gone, buffered l x = taken_from x x' ++ buffered l x' ++ gone ∧
    (gone ≠ [] → listening l x' = false) ∧ (listening l x = false → listening l x' = false).
Proof using Type.
  intros [_ Hr]. apply front_taken_spec. destruct Hr as [[Hr|Hr]|Hr]; [by left|right; by left|by right; right].
Qed.

Lemma taken_pushed c x x' : buffered l x' = buffered l x ++ [c] → taken_from x x' = [].
Proof using Type. intros Hb. unfold taken_from. rewrite Hb. apply front_taken_grown. Qed.

(** No chunk will be put into the channel any more: nobody reads it, or the stream
    is not in the table and no sender of it is in use. *)
Definition dead (x : Session) (n : carry) : Prop :=
  listening l x = false ∨
  streams x !! stream_no l = None ∧ l < length (stream_objs x) ∧ ∀ c, n ≠ Pushing c.

(** What was sent is where it should be: with the reader, in the channel, lost, or
    with the read loop; the [rest] is still on its way. *)
Definition accounted (sent got : list Chunk) (x : Session) (n : carry) (lost rest : list Chunk) : Prop :=
  sent = got ++ buffered l x ++ lost ++ carried n ++ rest ∧ (lost ≠ [] → dead x n).

Lemma dead_steps x x' n :
  rtc session_step x x' → session_wf x → bounded x' → (listening l x = false → listening l x' = false) →
  dead x n → dead x' n.
Proof using Type.
  intros Hs Hwf Hb Hl [Hd|(Hd & Hlt & Hp)]; [left; auto|right].
  pose proof (steps_objs _ _ Hs). split_and!; [by eapply wf_no_stream|lia|done].
Qed.

Lemma accounted_reads sent got x x' n lost rest :
  session_wf x → bounded x' → reads l x x' → accounted sent got x n lost rest →
  ∃ gone, accounted sent (got ++ taken_from x x') x' n (gone ++ lost) rest ∧
    (gone ≠ [] → listening l x' = false).
Proof using Type.
  intros Hwf Hb Hr [-> Hdead]. destruct (reads_taken _ _ Hr) as (gone & Hg & Hgone & Hmono).
  exists gone. split; [|done]. split; [by rewrite Hg, <- !app_assoc|]. intros Hne.
  destruct (decide (gone = [])) as [->|Hg']; [|left; auto].
  apply (dead_steps x x' n); [apply Hr|done..|by apply Hdead].
Qed.

Lemma accounted_carry sent got x x' n n' lost rest :
  session_wf x → bounded x' → rtc session_step x x' → carry_step l x x' n n' →
  (carried n ≠ [] → l < length (stream_objs x)) →
  accounted sent got x n lost rest →
  ∃ lost', accounted sent (got ++ taken_from x x') x' n' lost' rest.
Proof using Type.
  intros Hwf Hb Hs Hc Hlen Hacc.
  assert (untouched l x x' → ∃ gone, accounted sent (got ++ taken_from x x') x' n (gone ++ lost) rest ∧
            (gone ≠ [] → listening l x' = false)) as Hun.
  { intros Hu. eapply accounted_reads; [done|done| |done]. split; [done|by left]. }
  pose proof (steps_objs _ _ Hs) as Hle.
  destruct Hc as [n Hu|c Hin Hu|c Hl1 Hl2 Hpush|c Hout Hu|c Hl Hu].
  - destruct (Hun Hu) as (gone & Ha & _). eauto.
  - destruct (Hun Hu) as (gone & [-> Hd] & Hgone). exists (gone ++ lost). split; [done|]. intros Hne.
    destruct (decide (gone = [])) as [->|Hg']; [|left; auto].
    destruct Hacc as [_ Hdead]. destruct (Hdead Hne) as [Hd'|(? & _)]; [left|congruence].
    by destruct Hu as [[-> _]|[-> _]].
  - destruct Hacc as [-> Hdead]. exists [].
    destruct (decide (lost = [])) as [->|Hne].
    + split; [|done]. rewrite (taken_pushed c), Hpush by done. cbn. by rewrite app_nil_r, <- !app_assoc.
    + destruct (Hdead Hne) as [|(_ & _ & Hn)]; [congruence|by destruct (Hn c)].
  - destruct (Hun Hu) as (gone & [-> Hd] & _). exists (gone ++ lost ++ [c]). split.
    + cbn. by rewrite <- !app_assoc.
    + intros _. right. split_and!; [|specialize (Hlen ltac:(done)); lia|done].
      eapply wf_no_stream; [done..|]. by apply Hlen.
  - destruct (Hun Hu) as (gone & [-> Hd] & _). exists (gone ++ lost ++ [c]). split.
    + cbn. by rewrite <- !app_assoc.
    + intros _. left. by destruct Hu as [[-> _]|[-> _]].
Qed.
End reading.

(** ** Histories

    A run, with the frames the agent has queued for the edge since the session was
    accepted, and the chunks that were read from the channel of the stream. *)
Section histories.
Context `{Tokio} `{MapIteration} `{HttpCrate} `{Rng}.
Context {R : Type} `{RegistryOps R} {A : Type} `{AuthProvider A} {U : Type}.
Notation AppState := (AppState (R:=R) (A:=A)).
Context (health_json : HealthResponse → str → str) (tunnels_json : list SessionSnapshot → str).
Context (duration_debug : Z → str).
Context (parse_uri : str → option Uri) (upstream : Request → result (Response (EdgeBody U)) str).
Context (public : Request → Prop).
Context (valid_method valid_uri : str → bool) (http_error : BuildError → str).
Context (local_service : LocalRequest → result LocalResponse str) (options : AgentOptions).
Context (i l : nat).

Notation Link := (Link (R:=R) (A:=A)).
Notation link_step := (link_step health_json tunnels_json duration_debug parse_uri upstream public
  valid_method valid_uri http_error local_service options i).
Notation answer := (stream_answer valid_method valid_uri http_error local_service options).
Notation k := (stream_no l).

Definition queued_since (a a' : SessionCtx) : list ClientFrame :=
  drop (length (out_queue a)) (out_queue a').
Definition taken (s s' : AppState) : list Chunk :=
  match session_objs s !! i, session_objs s' !! i with
  | Some x, Some x' => taken_from l x x'
  | _, _ => []
  end.

Inductive history (σ0 : Link) : Link → list ClientFrame → list Chunk → Prop :=
| history_start : history σ0 σ0 (out_queue (agent σ0)) []
| history_step σ σ' sent got :
    history σ0 σ sent got → link_step σ σ' →
    history σ0 σ' (sent ++ queued_since (agent σ) (agent σ')) (got ++ taken (edge σ) (edge σ')).

Lemma history_run σ0 σ sent got : history σ0 σ sent got → rtc link_step σ0 σ.
Proof using Type. induction 1 as [|σ σ' sent got _ IH Hs]; [done|]. by eapply rtc_r. Qed.

Abbreviation spawned_call := (StreamOpen * nat * nat)%type.
(** A schedule, recorded. *)
Definition record_move (h : Link * list ClientFrame * list Chunk) (m : move)
  : Link * list ClientFrame * list Chunk :=
  let '(σ, sent, got) := h in
  let σ' := link_move health_json tunnels_json duration_debug parse_uri upstream
              valid_method valid_uri http_error local_service options i σ m in
  (σ', sent ++ queued_since (agent σ) (agent σ'), got ++ taken (edge σ) (edge σ')).
Definition recorded (moves : list move) (σ0 : Link) : Link * list ClientFrame * list Chunk :=
  foldl record_move (σ0, out_queue (agent σ0), []) moves.

Lemma taken_same x : taken_from l x x = [].
Proof using Type. apply front_taken_same. Qed.

Lemma recorded_sound moves σ0 :
  Forall (move_ok public) moves →
  history σ0 (recorded moves σ0).1.1 (recorded moves σ0).1.2 (recorded moves σ0).2.
Proof using Type.
  intros Hm. assert (∀ h, history σ0 h.1.1 h.1.2 h.2 →
    history σ0 (foldl record_move h moves).1.1 (foldl record_move h moves).1.2
      (foldl record_move h moves).2) as Hf; [|apply Hf; constructor].
  induction Hm as [|m moves Hm _ IH]; intros [[σ s] g] Hh; [done|]. cbn [foldl]. apply IH.
  cbn [record_move fst snd] in *.
  destruct (link_move_step health_json tunnels_json duration_debug parse_uri upstream public
    valid_method valid_uri http_error local_service options i m σ Hm) as [He|Hs]; [|by constructor].
  rewrite He. unfold queued_since. rewrite drop_all, app_nil_r. unfold taken.
  destruct (session_objs (edge σ) !! i) as [x|]; rewrite ?taken_same, app_nil_r; exact Hh.
Qed.

Abbreviation debt := (StreamOpen * list ClientFrame * task SessionCtx unit)%type.

Definition debt_token (p : debt) : Z := if decide (so_stream_id p.1.1 = k) then 1 else 0.

(** The agent's side: what was sent for the stream is the beginning of the answer to
    the one request that opened it, and its task, if it is still there, owes the
    rest. *)
Definition answering (a : SessionCtx) (started : nat) (debts : list debt) (sent : list Chunk) : Prop :=
  (sum_of debt_token debts ≤ sum_of (call_token k) (take started (ctx_spawned a)))%Z ∧
  (sent = [] ∧ Forall (λ p : debt, so_stream_id p.1.1 ≠ k) debts ∨
   ∃ call rest, call ∈ take started (ctx_spawned a) ∧ so_stream_id call.1.1 = k ∧
     sent ++ rest = chunks_of k (answer call.1.1) ∧
     Forall (λ p : debt, so_stream_id p.1.1 = k → chunks_of k p.1.2 = rest) debts).

(** What a task owes it does send, unless it gives up, and it is about its stream. *)
Definition debt_ok (p : debt) : Prop :=
  follows owes (λ _ _, True) p.1.2 p.2 ∧ (so_stream_id p.1.1 ≠ k → chunks_of k p.1.2 = []).

Record on_the_way (σ : Link) (sent : list ClientFrame) (got : list Chunk) (x : Session) (n : carry)
    (debts : list debt) : Prop := {
  way_object : session_objs (edge σ) !! i = Some x;
  way_agent_reader : obeys (quietly k) (agent_reader σ);
  way_agent_tasks : agent_tasks σ = debts.*2;
  way_started : agent_started σ ≤ length (ctx_spawned (agent σ));
  way_debts : Forall debt_ok debts;
  way_edge_reader : follows (account_at i (carries l)) put_down n (edge_reader σ);
  way_edge_tasks : Forall (obeys (at_session i (reads l))) (edge_tasks σ);
  way_rest : bounded x → session_wf x ∧ n ≠ Astray ∧
    answering (agent σ) (agent_started σ) debts (chunks_of k sent) ∧
    ∃ lost, accounted l (chunks_of k sent) got x n lost
              (chunks_of k (to_edge σ) ++ chunks_of k (out_queue (agent σ)));
}.

(** Calls are only made for streams that were registered, once each. *)
Definition one_call (a : SessionCtx) (x : Session) : Prop :=
  (calls_made k a ≤ 1 ∧ (1 ≤ calls_made k a → Z.of_nat l < Z.of_nat (length (stream_objs x))))%Z.

Lemma run_one_call σ0 σ x :
  link_start i σ0 → rtc link_step σ0 σ → session_objs (edge σ) !! i = Some x → bounded x →
  one_call (agent σ) x.
Proof using Type.
  intros Hst Hr Hx Hb. pose proof Hst as (_ & _ & _ & _ & _ & _ & _ & _ & _ & _ & _ & x0 & Hx0 & _).
  assert (circulating (tokens k) (agent σ) x (to_edge σ) (to_agent σ) ≤
          granted (tokens k) (initial_window x0) k x)%Z as Hle.
  { eapply circulation_bound; [apply tokens_balanced|exact Hst| |exact Hr|exact Hx|exact Hb].
    intros y Hy. assert (y = x0) as -> by congruence. split; [done|].
    eapply circulating_start; [exact Hst|exact Hx0|apply tokens_plain|done| |done].
    intros Hs. simpl. unfold calls_made. by rewrite Hs. }
  assert (∀ {B} (f : B → Z) fs, (∀ y, 0 ≤ f y)%Z → (0 ≤ sum_of f fs)%Z) as Hn.
  { intros B f fs Hf. apply sum_of_nonneg, Forall_true, Hf. }
  pose proof (Hn _ (up_value (tokens k)) (out_queue (agent σ)) (up_nonneg _)).
  pose proof (Hn _ (up_value (tokens k)) (to_edge σ) (up_nonneg _)).
  pose proof (Hn _ (down_value (tokens k)) (to_agent σ) (down_nonneg _)).
  pose proof (Hn _ (queued_value (tokens k)) (frame_queue x)
    (λ f, match f with Ok f => down_nonneg (tokens k) f | Err _ => Z.le_refl 0 end)).
  unfold circulating, granted in Hle. cbn [agent_value edge_value worth tokens] in *.
  unfold one_call, stream_no in *. case_decide; lia.
Qed.

(** ** Steps of the agent *)
Lemma agent_queues a a' fs sent : 
  out_queue a' = out_queue a ++ fs →
  chunks_of k (sent ++ queued_since a a') = chunks_of k sent ++ chunks_of k fs.
Proof using Type.
  intros Ho. unfold queued_since. by rewrite Ho, drop_app_length, chunks_app.
Qed.

Lemma accounted_sent sent got x n lost rest cs :
  accounted l sent got x n lost rest → accounted l (sent ++ cs) got x n lost (rest ++ cs).
Proof using Type. intros [-> Hd]. split; [|done]. by rewrite <- !app_assoc. Qed.

Lemma debt_nonneg (p : debt) : (0 ≤ debt_token p)%Z.
Proof using Type. unfold debt_token. case_decide; lia. Qed.
Lemma call_nonneg (c : spawned_call) : (0 ≤ call_token k c)%Z.
Proof using Type. unfold call_token. case_decide; lia. Qed.

(** A task of the agent sends some of what it owes; with one token, only one task is
    the stream's. *)
Lemma answering_sends a a' g debts j open owed fs t t' sent :
  (calls_made k a ≤ 1)%Z → ctx_spawned a' = ctx_spawned a →
  debts !! j = Some (open, fs ++ owed, t) → (so_stream_id open ≠ k → chunks_of k (fs ++ owed) = []) →
  answering a g debts sent → answering a' g (<[j := (open, owed, t')]> debts) (sent ++ chunks_of k fs).
Proof using Type.
  intros Hone Hsp Hj Hk [Hsum Hans]. unfold answering. rewrite Hsp.
  assert (sum_of debt_token debts ≤ 1)%Z as Hone'.
  { unfold calls_made in Hone. rewrite <- (take_drop g (ctx_spawned a)), sum_of_app in Hone.
    pose proof (sum_of_nonneg (call_token k) (drop g (ctx_spawned a)) (Forall_true _ _ call_nonneg)). lia. }
  split.
  { pose proof (sum_of_insert debt_token debts j _ (open, owed, t') Hj) as Hi.
    unfold debt_token in Hi at 2 4. simpl in Hi. lia. }
  destruct (decide (so_stream_id open = k)) as [Ho|Ho].
  - right. destruct Hans as [[-> Hn]|(call & rest & Hc & Hid & Hs & Hd)].
    { by destruct (proj1 (Forall_lookup _ _) Hn j _ Hj). }
    assert (chunks_of k (fs ++ owed) = rest) as <- by exact (proj1 (Forall_lookup _ _) Hd j _ Hj Ho).
    exists call, (chunks_of k owed). split_and!; [done..|by rewrite <- app_assoc, <- chunks_app|].
    apply Forall_lookup. intros j' p' [(<- & <- & _)|[Hne Hj']]%list_lookup_insert_Some; [done|].
    intros Hp'. destruct Hne.
    eapply (sum_of_one debt_token debts j j'); [apply debt_nonneg|done..| |];
      unfold debt_token; simpl; by rewrite decide_True.
  - specialize (Hk Ho). rewrite chunks_app in Hk. apply app_eq_nil in Hk as [-> Hk]. rewrite app_nil_r.
    destruct Hans as [[-> Hn]|(call & rest & Hc & Hid & Hs & Hd)]; [left|right].
    + split; [done|]. by apply Forall_insert.
    + exists call, rest. split_and!; [done..|]. by apply Forall_insert.
Qed.

(** A call becomes a task. *)
Lemma answering_starts a g debts open body credit sent t :
  (calls_made k a ≤ 1)%Z → ctx_spawned a !! g = Some (open, body, credit) →
  answering a g debts sent → answering a (S g) (debts ++ [(open, answer open, t)]) sent.
Proof using Type.
  intros Hone Hg [Hsum Hans]. unfold answering. rewrite (take_S_r _ _ _ Hg), !sum_of_app.
  assert (calls_made k a = sum_of (call_token k) (take g (ctx_spawned a)) +
            call_token k (open, body, credit) + sum_of (call_token k) (drop (S g) (ctx_spawned a)))%Z as Hall.
  { unfold calls_made. rewrite <- (take_drop (S g) (ctx_spawned a)) at 1.
    rewrite (take_S_r _ _ _ Hg), !sum_of_app. simpl. lia. }
  pose proof (sum_of_nonneg (call_token k) (drop (S g) (ctx_spawned a)) (Forall_true _ _ call_nonneg)).
  split; [simpl; unfold debt_token, call_token in *; simpl in *; lia|].
  destruct (decide (so_stream_id open = k)) as [Ho|Ho].
  - right. destruct Hans as [[-> Hn]|(call & rest & Hc & Hid & _)].
    + exists (open, body, credit), (chunks_of k (answer open)).
      split_and!; [apply elem_of_app; right; by left|done|done|].
      apply Forall_app. split; [|by repeat constructor]. eapply Forall_impl; [exact Hn|]. by intros p ? ?.
    + pose proof (sum_of_elem (call_token k) _ _ call_nonneg Hc) as He.
      unfold call_token in He at 1, Hall at 2. simpl in Hall. rewrite !decide_True in * by done. lia.
  - destruct Hans as [[-> Hn]|(call & rest & Hc & Hid & Hs & Hd)]; [left|right].
    + split; [done|]. apply Forall_app. split; [done|by repeat constructor].
    + exists call, rest. split_and!; [apply elem_of_app; by left|done|done|].
      apply Forall_app. split; [done|]. by repeat constructor.
Qed.

Lemma answering_drops a g debts j sent : answering a g debts sent → answering a g (delete j debts) sent.
Proof using Type.
  intros [Hsum Hans]. split.
  { pose proof (sum_of_delete debt_token debts j (Forall_true _ _ debt_nonneg)). lia. }
  destruct Hans as [[-> Hn]|(call & rest & Hc & Hid & Hs & Hd)]; [left|right].
  - split; [done|by apply Forall_delete].
  - exists call, rest. split_and!; [done..|by apply Forall_delete].
Qed.

(** The read loop of the agent may make calls. *)
Lemma answering_calls a a' g debts sent cs :
  g ≤ length (ctx_spawned a) → ctx_spawned a' = ctx_spawned a ++ cs → answering a g debts sent → answering a' g debts sent.
Proof using Type. unfold answering. intros Hg ->. by rewrite take_app_le. Qed.
Lemma taken_at s s' x x' :
  session_objs s !! i = Some x → session_objs s' !! i = Some x' → taken s s' = taken_from l x x'.
Proof using Type. unfold taken. by intros -> ->. Qed.

Notation way a h ts g s r ns up down := (on_the_way (mkLink a h ts g s r ns up down)) (only parsing).

(** A step on the agent's side. *)
Lemma way_agent a h ts g s r ns up down sent got x n debts a' h' g' debts' fs down' :
  way a h ts g s r ns up down sent got x n debts →
  out_queue a' = out_queue a ++ fs → obeys (quietly k) h' → Forall debt_ok debts' →
  g' ≤ length (ctx_spawned a') →
  (bounded x → answering a g debts (chunks_of k sent) →
   answering a' g' debts' (chunks_of k sent ++ chunks_of k fs)) →
  way a' h' debts'.*2 g' s r ns up down' (sent ++ queued_since a a') (got ++ taken s s) x n debts'.
Proof using Type.
  intros [Hx Hh Hts Hg Hd Hr Hns Hrest] Ho Hh' Hd' Hg' Hans. simpl in *.
  rewrite (taken_at s s x x), taken_same, app_nil_r by done.
  split; simpl; try done. intros Hb. destruct (Hrest Hb) as (Hwf & Hn & Ha & lost & Hacc).
  rewrite (agent_queues a a' fs sent Ho). split_and!; [done..|by apply Hans|]. exists lost.
  rewrite Ho, chunks_app, app_assoc. by apply accounted_sent.
Qed.

(** What is carried was sent by a call, so the stream was registered. *)
Lemma carried_registered a g debts sent got x n lost rest :
  one_call a x → answering a g debts sent → accounted l sent got x n lost rest →
  carried n ≠ [] → l < length (stream_objs x).
Proof using Type.
  intros [_ Hlt] [_ [[-> _]|(call & owed & Hin & Hid & _)]] [Hac _] Hn.
  - symmetry in Hac. by repeat (apply app_eq_nil in Hac as [? Hac]).
  - apply Nat2Z.inj_lt, Hlt. unfold calls_made.
    rewrite <- (take_drop g (ctx_spawned a)), sum_of_app.
    pose proof (sum_of_elem (call_token k) _ _ call_nonneg Hin) as He.
    pose proof (sum_of_nonneg (call_token k) (drop g (ctx_spawned a)) (Forall_true _ _ call_nonneg)).
    unfold call_token in He at 1. rewrite decide_True in He by done. lia.
Qed.

(** A step on the edge's side. *)
Lemma way_edge a h ts g s r ns up down sent got x n debts s' r' ns' up' down' x' n' :
  way a h ts g s r ns up down sent got x n debts → (bounded x → one_call a x) →
  session_objs s' !! i = Some x' → rtc session_step x x' →
  follows (account_at i (carries l)) put_down n' r' → Forall (obeys (at_session i (reads l))) ns' →
  (∀ lost, bounded x' → session_wf x → n ≠ Astray → (carried n ≠ [] → l < length (stream_objs x)) →
   accounted l (chunks_of k sent) got x n lost (chunks_of k up ++ chunks_of k (out_queue a)) →
   n' ≠ Astray ∧ ∃ lost', accounted l (chunks_of k sent) (got ++ taken_from l x x') x' n' lost'
                            (chunks_of k up' ++ chunks_of k (out_queue a))) →
  way a h ts g s' r' ns' up' down' (sent ++ queued_since a a) (got ++ taken s s') x' n' debts.
Proof using Type.
  intros [Hx Hh Hts Hg Hd Hr Hns Hrest] Hone Hx' Hs Hr' Hns' Hacc. simpl in *.
  pose proof (steps_objs _ _ Hs) as Hlen.
  unfold queued_since. rewrite drop_all, app_nil_r, (taken_at s s' x x') by done.
  split; simpl; try done. intros Hb'. assert (bounded x) as Hb by (unfold bounded in *; lia).
  destruct (Hrest Hb) as (Hwf & Hn & Ha & lost & Hac).
  destruct (Hacc lost Hb' Hwf Hn) as (Hn' & Hl); [|done|].
  - by eapply carried_registered; [apply Hone| |].
  - split_and!; [|done..]. eapply wf_rtc; [exact Hs|unfold bounded in *; lia|done].
Qed.

(** A step on the agent's side that brings the stream nothing, and makes no task. *)
Lemma way_agent_quiet a h ts g s r ns up down sent got x n debts a' h' down' :
  way a h ts g s r ns up down sent got x n debts → quietly k a a' → obeys (quietly k) h' →
  way a' h' ts g s r ns up down' (sent ++ queued_since a a') (got ++ taken s s) x n debts.
Proof using Type.
  intros Hw (fs & cs & Ho & Hfs & Hsp) Hh'. pose proof (way_agent_tasks _ _ _ _ _ _ Hw) as Hts.
  pose proof (way_started _ _ _ _ _ _ Hw) as Hg. simpl in *. subst ts.
  eapply way_agent; [exact Hw|exact Ho|done|by eapply way_debts|rewrite Hsp, length_app; lia|].
  intros _. rewrite Hfs, app_nil_r. by apply (answering_calls a a' g _ _ cs).
Qed.

(** A step of another task of the edge. *)
Lemma way_edge_reads a h ts g s r ns up down sent got x n debts s' ns' :
  way a h ts g s r ns up down sent got x n debts → (bounded x → one_call a x) →
  at_session i (reads l) s s' → Forall (obeys (at_session i (reads l))) ns' →
  ∃ x', way a h ts g s' r ns' up down (sent ++ queued_since a a) (got ++ taken s s') x' n debts.
Proof using Type.
  intros Hw Hone Hs Hns. destruct (Hs x (way_object _ _ _ _ _ _ Hw)) as (x' & Hx' & Hr).
  exists x'. eapply way_edge; [exact Hw|done|done|apply Hr|by apply (way_edge_reader _ _ _ _ _ _ Hw)|done|].
  intros lost Hb Hwf Hn _ Hac. split; [done|].
  destruct (accounted_reads l _ _ x x' _ _ _ Hwf Hb Hr Hac) as (gone & Hac' & _). eauto.
Qed.

Lemma quietly_refl a : quietly k a a.
Proof using Type. exists [], []. by rewrite !app_nil_r. Qed.

Lemma reads_same s : at_session (R:=R) (A:=A) i (reads l) s s.
Proof using Type. intros x Hx. exists x. split; [done|]. split; [done|]. left. apply untouched_refl. Qed.

Lemma host_quietly a a' : host_step a a' → quietly k a a'.
Proof using Type.
  intros [(e & event & _ & ->)|[(j & b & b' & payload & _ & _ & ->)|[j ->]]];
    exists [], []; by rewrite !app_nil_r.
Qed.

Lemma way_agent_starts a h ts g s r ns up down sent got x n debts open body credit :
  way a h ts g s r ns up down sent got x n debts → (bounded x → one_call a x) →
  ctx_spawned a !! g = Some (open, body, credit) →
  ∃ debts', way a h (ts ++ [serve_stream valid_method valid_uri http_error local_service options open body credit])
              (S g) s r ns up down (sent ++ queued_since a a) (got ++ taken s s) x n debts'.
Proof using Type.
  intros Hw Hone Hsp. pose proof (way_agent_tasks _ _ _ _ _ _ Hw) as Hts.
  pose proof (way_debts _ _ _ _ _ _ Hw) as Hd. cbn in *. subst ts. set (t := serve_stream _ _ _ _ _ _ _ _).
  exists (debts ++ [(open, answer open, t)]).
  replace (debts.*2 ++ [t]) with ((debts ++ [(open, answer open, t)]).*2) by by rewrite fmap_app.
  eapply (way_agent _ _ _ _ _ _ _ _ _ _ _ _ _ _ a h (S g) _ []);
    [exact Hw|by rewrite app_nil_r|apply (way_agent_reader _ _ _ _ _ _ Hw)|..].
  - apply Forall_app. split; [done|]. constructor; [|done]. split; [apply owes_serve|apply answer_about].
  - by eapply lookup_lt_Some.
  - intros Hb Ha. rewrite app_nil_r. eapply answering_starts; [by apply Hone|done..].
Qed.

Lemma way_agent_works a h ts g s r ns up down sent got x n debts j t a' t' :
  way a h ts g s r ns up down sent got x n debts → (bounded x → one_call a x) →
  ts !! j = Some t → poll t a = Some (a', t') →
  ∃ debts', way a' h (<[j := t']> ts) g s r ns up down (sent ++ queued_since a a') (got ++ taken s s) x n debts'.
Proof using Type.
  intros Hw Hone Hj Hp. pose proof (way_agent_tasks _ _ _ _ _ _ Hw) as Hts.
  pose proof (way_debts _ _ _ _ _ _ Hw) as Hd. pose proof (way_started _ _ _ _ _ _ Hw) as Hg. cbn in *. subst ts.
  rewrite list_lookup_fmap in Hj. apply fmap_Some in Hj as ([[open owed] t0] & Hj & ->).
  destruct (proj1 (Forall_lookup _ _) Hd j _ Hj) as [Hf Habout]. cbn [fst snd] in *.
  destruct (follows_poll _ _ _ _ _ _ _ Hf Hp) as (owed' & (Hsp & fs & -> & Ho) & Hf').
  exists (<[j := (open, owed', t')]> debts).
  replace (<[j := t']> debts.*2) with ((<[j := (open, owed', t')]> debts).*2) by by rewrite list_fmap_insert.
  eapply (way_agent _ _ _ _ _ _ _ _ _ _ _ _ _ _ a' h g _ fs);
    [exact Hw|done|apply (way_agent_reader _ _ _ _ _ _ Hw)|..].
  - apply Forall_insert; [done|]. split; [done|]. cbn [fst snd]. intros Hk. specialize (Habout Hk).
    rewrite chunks_app in Habout. by apply app_eq_nil in Habout as [_ ?].
  - by rewrite Hsp.
  - intros Hb. eapply answering_sends; [by apply Hone|done..].
Qed.

Lemma way_agent_drops a h ts g s r ns up down sent got x n debts j :
  way a h ts g s r ns up down sent got x n debts →
  way a h (delete j ts) g s r ns up down (sent ++ queued_since a a) (got ++ taken s s) x n (delete j debts).
Proof using Type.
  intros Hw. pose proof (way_agent_tasks _ _ _ _ _ _ Hw) as Hts. pose proof (way_debts _ _ _ _ _ _ Hw) as Hd.
  cbn in *. subst ts. replace (delete j debts.*2) with ((delete j debts).*2) by by rewrite list_fmap_delete.
  eapply (way_agent _ _ _ _ _ _ _ _ _ _ _ _ _ _ a h g _ []);
    [exact Hw|by rewrite app_nil_r|apply (way_agent_reader _ _ _ _ _ _ Hw)|..].
  - by apply Forall_delete.
  - apply (way_started _ _ _ _ _ _ Hw).
  - intros _. rewrite app_nil_r. apply answering_drops.
Qed.

Lemma way_agent_emits a h ts g s r ns up down sent got x n debts o f :
  way a h ts g s r ns up down sent got x n debts → ch_recv (ctx_outbound a) = Some (o, Some f) →
  way (ctx_with_outbound o a) h ts g s r ns (up ++ [f]) down
    (sent ++ queued_since a (ctx_with_outbound o a)) (got ++ taken s s) x n debts.
Proof using Type.
  intros [Hx Hh Hts Hg Hd Hr Hns Hrest] Hf%recv_front.
  assert (out_queue a = f :: out_queue (ctx_with_outbound o a)) as Ho by exact Hf.
  unfold queued_since. rewrite Ho, drop_ge, app_nil_r by (simpl; lia).
  rewrite (taken_at s s x x), taken_same, app_nil_r by done. split; try done. intros Hb.
  destruct (Hrest Hb) as (Hwf & Hn & Ha & lost & Hac). cbn [agent to_edge agent_started] in *.
  split_and!; [done..|]. exists lost. rewrite Ho in Hac.
  rewrite chunks_app, <- app_assoc, <- chunks_app. exact Hac.
Qed.

Lemma way_edge_takes a h ts g s ns f up down sent got x n debts :
  way a h ts g s (Ret true) ns (f :: up) down sent got x n debts → (bounded x → one_call a x) →
  way a h ts g s (handle_client_frame i f) ns up down (sent ++ queued_since a a) (got ++ taken s s) x
    (carry_of l f) debts.
Proof using Type.
  intros Hw Hone. pose proof (way_edge_reader _ _ _ _ _ _ Hw) as Hr.
  eapply way_edge; [exact Hw|done|apply (way_object _ _ _ _ _ _ Hw)|done|apply carries_frame
    |apply (way_edge_tasks _ _ _ _ _ _ Hw)|].
  intros lost Hb Hwf Hn _ [Hac Hdead]. rewrite taken_same, app_nil_r.
  destruct Hr as [->|]; [|done]. unfold carry_of, accounted in *. cbn [chunks_of omap list_omap] in Hac.
  destruct (chunk_of k f) as [c|]; cbn [from_option carried] in *; (split; [done|]); exists lost;
    (split; [done|]); [|done].
  intros Hl. destruct (Hdead Hl) as [|(? & ? & _)]; [by left|by right].
Qed.

Lemma way_edge_emits a h ts g s r ns up down sent got x n debts o f :
  way a h ts g s r ns up down sent got x n debts → (bounded x → one_call a x) →
  ch_recv (outbound x) = Some (o, Some (Ok f)) →
  way a h ts g (put_session i (with_outbound o x) s) r ns up (down ++ [f]) (sent ++ queued_since a a)
    (got ++ taken s (put_session i (with_outbound o x) s)) (with_outbound o x) n debts.
Proof using Type.
  intros Hw Hone Hf. pose proof (quiet_recv _ _ _ Hf) as Hq.
  eapply way_edge; [exact Hw|done|by apply (put_session_get i s x), (way_object _ _ _ _ _ _ Hw)
    |by apply rtc_once, step_quiet|apply (way_edge_reader _ _ _ _ _ _ Hw)|apply (way_edge_tasks _ _ _ _ _ _ Hw)|].
  intros lost Hb Hwf Hn _ Hac. split; [done|].
  assert (reads l x (with_outbound o x)) as Hrd.
  { split; [by apply rtc_once, step_quiet|left; by apply untouched_objs]. }
  destruct (accounted_reads l _ _ _ _ _ _ _ Hwf Hb Hrd Hac) as (gone & Hac' & _). eauto.
Qed.

Lemma step_on_the_way σ σ' sent got :
  (∀ x, session_objs (edge σ) !! i = Some x → bounded x → one_call (agent σ) x) →
  link_step σ σ' → (∃ x n debts, on_the_way σ sent got x n debts) →
  ∃ x n debts, on_the_way σ' (sent ++ queued_since (agent σ) (agent σ'))
                 (got ++ taken (edge σ) (edge σ')) x n debts.
Proof using Type.
  intros Hone Hs (x & n & debts & Hw).
  pose proof (way_object _ _ _ _ _ _ Hw) as Hx. pose proof (way_agent_reader _ _ _ _ _ _ Hw) as Hh.
  pose proof (way_edge_reader _ _ _ _ _ _ Hw) as Hr. pose proof (way_edge_tasks _ _ _ _ _ _ Hw) as Hns.
  specialize (Hone x Hx).
  destruct Hs as [a ts g s r ns up f down|a h ts g s r ns up down a' h' Hp
    |a h ts g s r ns up down open body credit Hsp|a h ts g s r ns up down j t a' t' Hj Hp
    |a h ts g s r ns up down j|a h ts g s r ns up down a' Hhost|a h ts g s r ns up down o f Hf
    |a h ts g s ns f up down|a h ts g s r ns up down s' r' Hp|a h ts g s r ns up down t Ht
    |a h ts g s r ns up down j t s' t' Hj Hp|a h ts g s r ns up down j
    |a h ts g s r ns up down y o f Hy Hf];
    cbn [agent edge agent_reader agent_tasks agent_started edge_reader edge_tasks] in *.
  - exists x, n, debts. eapply way_agent_quiet; [exact Hw|apply quietly_refl|].
    destruct f; [apply quietly_frame|done].
  - exists x, n, debts. destruct (obeys_poll _ _ _ _ _ Hh Hp). by eapply way_agent_quiet.
  - exists x, n. by eapply way_agent_starts.
  - exists x, n. by eapply way_agent_works.
  - exists x, n, (delete j debts). by apply way_agent_drops.
  - exists x, n, debts. eapply way_agent_quiet; [exact Hw|by apply host_quietly|done].
  - exists x, n, debts. by eapply way_agent_emits.
  - exists x, (carry_of l f), debts. by eapply way_edge_takes.
  - destruct (follows_poll _ _ _ _ _ _ _ Hr Hp) as (n' & Hg' & Hr').
    destruct (Hg' x Hx) as (x' & Hx' & Hs & Hc). exists x', n', debts.
    eapply way_edge; [exact Hw|done..|]. intros lost Hb Hwf Hn Hlen Hac.
    destruct (Hc Hn Hwf) as [Hn' Hstep]. split; [done|]. by eapply accounted_carry.
  - destruct (way_edge_reads _ _ _ _ _ _ _ _ _ _ _ _ _ _ s (ns ++ [t]) Hw Hone) as [x' Hw'];
      [apply reads_same|apply Forall_app; split; [done|]; constructor; [by eapply reads_node_task|done]|].
    by exists x', n, debts.
  - destruct (obeys_poll _ _ _ _ _ (proj1 (Forall_lookup _ _) Hns j t Hj) Hp) as [Hrd Ht'].
    destruct (way_edge_reads _ _ _ _ _ _ _ _ _ _ _ _ _ _ s' (<[j := t']> ns) Hw Hone) as [x' Hw'];
      [done|by apply Forall_insert|]. by exists x', n, debts.
  - destruct (way_edge_reads _ _ _ _ _ _ _ _ _ _ _ _ _ _ s (delete j ns) Hw Hone) as [x' Hw'];
      [apply reads_same|by apply Forall_delete|]. by exists x', n, debts.
  - rewrite Hx in Hy. injection Hy as <-. exists (with_outbound o x), n, debts. by eapply way_edge_emits.
Qed.

Lemma start_on_the_way σ :
  link_start i σ → chunks_of k (out_queue (agent σ)) = [] →
  ∃ x n debts, on_the_way σ (out_queue (agent σ)) [] x n debts.
Proof using Type.
  intros (Har & Hat & Hg & Her & Het & Hte & _ & Hsp & _ & _ & _ & x & Hx & Hwf & Ho & _) Hq.
  exists x, Nothing, []. split; rewrite ?Har, ?Hat, ?Hg, ?Her, ?Het, ?Hte, ?Hsp; try done; [by left|].
  intros _. split_and!; [done|done| |].
  - rewrite Hq. split; [done|]. by left.
  - exists []. split; [|done]. rewrite Hq. unfold buffered, body_chan. by rewrite Ho.
Qed.

Lemma history_on_the_way σ0 σ sent got :
  link_start i σ0 → chunks_of k (out_queue (agent σ0)) = [] → history σ0 σ sent got →
  ∃ x n debts, on_the_way σ sent got x n debts.
Proof using Type.
  intros Hst Hq Hh. induction Hh as [|σ σ' sent got Hh IH Hs]; [by apply start_on_the_way|].
  apply step_on_the_way; [|done..]. intros x. eapply run_one_call; [done|by eapply history_run].
Qed.
(** What was read is the beginning of the answer to the stream's call. *)
Lemma history_read σ0 σ sent got x :
  link_start i σ0 → chunks_of k (out_queue (agent σ0)) = [] → history σ0 σ sent got →
  session_objs (edge σ) !! i = Some x → bounded x →
  got = [] ∨ ∃ call, call ∈ ctx_spawned (agent σ) ∧ so_stream_id call.1.1 = k ∧
               got `prefix_of` chunks_of k (answer call.1.1).
Proof using Type.
  intros Hst Hq Hh Hx Hb. destruct (history_on_the_way _ _ _ _ Hst Hq Hh) as (x' & n & debts & Hw).
  pose proof (way_object _ _ _ _ _ _ Hw) as Hx'. rewrite Hx in Hx'. injection Hx' as <-.
  destruct (way_rest _ _ _ _ _ _ Hw Hb) as (_ & _ & [_ Ha] & lost & Hac & _).
  destruct Ha as [[Hs _]|(call & rest & Hc & Hid & Hs & _)].
  - left. rewrite Hs in Hac. symmetry in Hac. by apply app_eq_nil in Hac as [? _].
  - right. exists call. split_and!; [|done|].
    { rewrite <- (take_drop (agent_started σ) (ctx_spawned _)). apply elem_of_app. by left. }
    rewrite <- Hs, Hac, <- app_assoc. by apply prefix_app_r.
Qed.
End histories.

(** C2: a response reaches the public client as the local service gave it, in any
    interleaving: whatever the tasks of agent and edge do, and whichever are dropped,
    what was read from the channel of a stream is a prefix of the answer (body pieces
    in order, then the end with its trailers or the reset) that the local service's
    response to that stream's one request amounts to; nothing comes twice, out of
    order, or from another stream. And while the stream is open and someone may read
    it, nothing the agent sent is missing: it was read, is in the channel, is in the
    hands of the edge's read loop (one chunk at most), or is on its way. *)
Theorem response_delivered_in_order `{Tokio} `{MapIteration} `{HttpCrate} `{Rng} {R} `{RegistryOps R}
    {A} `{AuthProvider A} {U} health_json tunnels_json duration_debug parse_uri upstream public
    valid_method valid_uri http_error local_service options i l x σ0 σ sent got :
  link_start i σ0 → chunks_of (stream_no l) (out_queue (agent σ0)) = [] →
  history (R:=R) (A:=A) (U:=U) health_json tunnels_json duration_debug parse_uri upstream public
    valid_method valid_uri http_error local_service options i l σ0 σ sent got →
  session_objs (edge σ) !! i = Some x → (1 + Z.of_nat (length (stream_objs x)) < 2 ^ 64)%Z →
  (got = [] ∨ ∃ call, call ∈ ctx_spawned (agent σ) ∧ so_stream_id call.1.1 = stream_no l ∧
     got `prefix_of` chunks_of (stream_no l)
       (stream_answer valid_method valid_uri http_error local_service options call.1.1)) ∧
  (streams x !! stream_no l = Some l → listening l x = true →
   ∃ held, length held ≤ 1 ∧
     chunks_of (stream_no l) sent = got ++ buffered l x ++ held ++
       chunks_of (stream_no l) (to_edge σ) ++ chunks_of (stream_no l) (out_queue (agent σ))).
Proof.
  intros Hst Hq Hh Hx Hb. split; [by eapply (history_read (U:=U))|].
  edestruct (history_on_the_way (U:=U)) as (x' & n & debts & [Hx' _ _ _ _ _ _ Hrest]);
    [exact Hst|exact Hq|exact Hh|]. rewrite Hx in Hx'. injection Hx' as <-.
  destruct (Hrest Hb) as (_ & _ & _ & lost & Hac & Hdead).
  intros Hin Hl. exists (carried n). split; [by destruct n; simpl; lia|].
  destruct (decide (lost = [])) as [->|Hne]; [done|]. destruct (Hdead Hne) as [|(? & _)]; congruence.
Qed.

(** A request is answered, and the client has read the body. *)
Definition delivery_moves : list (@move list_http) :=
  demo_moves ++ replicate 6 (AgentWorks 0) ++ replicate 3 AgentEmits ++
  [EdgeTakes; EdgeReads; EdgeTakes] ++ replicate 6 EdgeReads ++ [ClientReads 0; EdgeWorks 1].
Definition demo_record : @Link view_tokio MemoryRegistry StaticTokenAuth * list ClientFrame * list Chunk :=
  @recorded view_tokio sorted_iteration list_http modular_rng MemoryRegistry _ StaticTokenAuth unit
    no_json1 no_json2 dec (λ _, None) (λ _, Err (lit "down")) any_text any_text no_http_error
    demo_service demo_options 0 0 delivery_moves demo_link.

Lemma response_delivered_in_order_witness :
  demo_record.2 = [ChunkData (lit "hello")] ∧
  ∃ call, call ∈ ctx_spawned (agent demo_record.1.1) ∧
    demo_record.2 `prefix_of` chunks_of 1
      (@stream_answer list_http any_text any_text no_http_error demo_service demo_options call.1.1).
Proof.
  assert (demo_record.2 = [ChunkData (lit "hello")]) as Hg by (vm_compute; reflexivity).
  split; [exact Hg|].
  assert ((λ x, length (@stream_objs view_tokio x)) <$>
    @session_objs view_tokio _ _ (edge demo_record.1.1) !! 0 = Some 1) as Hl by (vm_compute; reflexivity).
  destruct (@session_objs view_tokio _ _ (edge demo_record.1.1) !! 0) as [x|] eqn:Hx; [|discriminate Hl].
  injection Hl as Hl.
  destruct (@response_delivered_in_order view_tokio sorted_iteration list_http modular_rng MemoryRegistry _
    StaticTokenAuth _ unit no_json1 no_json2 dec (λ _, None) (λ _, Err (lit "down")) (λ _, True)
    any_text any_text no_http_error demo_service demo_options 0 0 x demo_link demo_record.1.1
    demo_record.1.2 demo_record.2 demo_link_start eq_refl) as [[Hn|(call & Hc & _ & Hp)] _].
  - apply recorded_sound, Forall_app. split; [by apply demo_moves_ok|by repeat constructor].
  - exact Hx.
  - rewrite Hl. reflexivity.
  - rewrite Hg in Hn. discriminate Hn.
  - exists call. split; [exact Hc|exact Hp].
Defined.
