(* ===== verification/Upload.v ===== *)
(** * A request, in any interleaving

    What the local service is asked and reads of a request, against what the public
    client sent: whatever the tasks of both sides do, and whichever of them are
    dropped, the head is that of one public request, the body a prefix of that
    request's body, and while the stream is open nothing of what was sent is missing. *)

From S2P Require Import Prelude RustStr Crates CoreError Routing Auth Ids ServerConfig.
From S2P Require Import Registry MemoryRegistry Async Proto Http Session Control Ingress Node.
From S2P Require Import ClientConfig Agent Link FlowControl Delivery.

(** ** What a request is on its way to the agent *)
Inductive item := Opening (head : option HttpRequestHead) | Piece (bytes : str) | Finish.

Definition item_of (k : Z) (f : ServerFrame) : option item :=
  match f with
  | Some (SOpen open) => if decide (so_stream_id open = k) then Some (Opening (so_http open)) else None
  | Some (SData id payload) => if decide (id = k) then Some (Piece payload) else None
  | Some (SEnd id _) => if decide (id = k) then Some Finish else None
  | _ => None
  end.
Definition queued_item (k : Z) (f : result ServerFrame Status) : option item :=
  match f with Ok f => item_of k f | Err _ => None end.
Definition items_of (k : Z) (fs : list ServerFrame) : list item := omap (item_of k) fs.
Definition queued_items (k : Z) (q : list (result ServerFrame Status)) : list item := omap (queued_item k) q.

Lemma queued_app k q q' : queued_items k (q ++ q') = queued_items k q ++ queued_items k q'.
Proof. apply omap_app. Qed.
Lemma items_app k fs gs : items_of k (fs ++ gs) = items_of k fs ++ items_of k gs.
Proof. apply omap_app. Qed.

Lemma queued_none k q : Forall (λ f, queued_item k f = None) q → queued_items k q = [].
Proof. unfold queued_items. induction 1 as [|f q Hf _ IH]; [done|]. cbn. by rewrite Hf. Qed.

Lemma creditless_no_item k f : creditless f → queued_item k f = None.
Proof. by destruct f as [[[]|]|]. Qed.

(** The data frames of a request body, and whether it ends without failing. *)
Fixpoint body_pieces (frames : list BodyFrame) : list str :=
  match frames with
  | [] | FailedFrame :: _ => []
  | DataFrame data :: rest => (if bool_decide (data = []) then [] else split_chunks data) ++ body_pieces rest
  | TrailersFrame :: rest => body_pieces rest
  end.
Fixpoint body_ended (frames : list BodyFrame) : bool :=
  match frames with
  | [] => true
  | FailedFrame :: _ => false
  | _ :: rest => body_ended rest
  end.
Definition body_items (frames : list BodyFrame) : list item :=
  (Piece <$> body_pieces frames) ++ (if body_ended frames then [Finish] else []).

(** The pieces are the bytes the client sent until its body ended or failed. *)
Fixpoint body_bytes (frames : list BodyFrame) : str :=
  match frames with
  | [] | FailedFrame :: _ => []
  | DataFrame data :: rest => data ++ body_bytes rest
  | TrailersFrame :: rest => body_bytes rest
  end.

Lemma body_pieces_concat frames : concat (body_pieces frames) = body_bytes frames.
Proof.
  induction frames as [|[data| |] frames IH]; simpl; try done. rewrite concat_app, IH.
  case_bool_decide as Hd; [by rewrite Hd|]. f_equal. apply split_chunks_concat.
Qed.

(** ** What the task of a request owes

    Once it has stream [k] of session [i], the frames that carry the request; when it
    gives up, the rest stays owed. *)
Section dues.
Context `{Tokio} `{MapIteration} `{HttpCrate} `{Rng}.
Context {R : Type} `{RegistryOps R} {A : Type} `{AuthProvider A} {U : Type}.
Notation AppState := (AppState (R:=R) (A:=A)).
Context (health_json : HealthResponse → str → str) (tunnels_json : list SessionSnapshot → str).
Context (duration_debug : Z → str).
Context (parse_uri : str → option Uri) (upstream : Request → result (Response (EdgeBody U)) str).
Context (public : Request → Prop).
Context (i : nat) (k : Z).

Inductive debtor := Waiting | Owing (rest : list item).

Definition request_items (req : Request) : list item :=
  Opening (Some (request_head req)) :: body_items (req_body req).

Definition adds (x x' : Session) (its : list item) : Prop :=
  ∃ fs, frame_queue x' = frame_queue x ++ fs ∧ queued_items k fs = its.

Inductive due_step (x x' : Session) : debtor → debtor → Prop :=
| due_on n : adds x x' [] → due_step x x' n n
| due_open req : public req → next_stream_id x = k → x' = (register_stream x).1 →
    due_step x x' Waiting (Owing (request_items req))
| due_pay its rest : adds x x' its → due_step x x' (Owing (its ++ rest)) (Owing rest).

Definition due (n : debtor) (x : Session) (n' : debtor) (x' : Session) : Prop :=
  rtc session_step x x' ∧ due_step x x' n n'.

Notation given_up := (λ _ _, True) (only parsing).
Notation no_item f := (queued_item k f = None) (only parsing).

(** A step that puts nothing of the stream on the queue. *)
Definition still (x x' : Session) : Prop := rtc session_step x x' ∧ adds x x' [].

#[export] Instance still_refl : Reflexive still.
Proof using Type. intros x. split; [done|]. exists []. by rewrite app_nil_r. Qed.

Lemma tame_still V K x x' : tame (λ f, no_item f) V K False x x' → still x x'.
Proof using Type.
  intros (Hs & _ & _ & _ & _ & _ & fs & Hq & Hf). split; [done|]. exists fs. by rewrite queued_none.
Qed.

Lemma still_due n x x' : still x x' → due n x n x'.
Proof using Type. intros [Hs Ha]. split; [done|by apply due_on]. Qed.

Lemma due_silent {B C} V K Q n (t : task Session B) (f : B → task Session C) :
  obeys (tame (λ f, no_item f) V K False) t → (∀ b, follows due Q n (f b)) → follows due Q n (task_bind t f).
Proof using Type. apply follows_then. intros x x' Ht. by eapply still_due, tame_still. Qed.

Lemma due_last {B} V K n (t : task Session B) :
  obeys (tame (λ f, no_item f) V K False) t → follows due given_up n t.
Proof using Type.
  intros Ht. eapply follows_mono; [|eapply follows_obeys, Ht]; [done|].
  intros x x' Hx. by eapply still_due, tame_still.
Qed.

Lemma due_send f rest :
  follows due (λ ok m, ok = true → m = Owing rest) (Owing (option_list (item_of k f) ++ rest)) (send f).
Proof using Type.
  apply follows_await. intros x x' ok. destruct (ch_send _ _) as [[o b]|] eqn:E; [|done].
  intros [= <- <-]. pose proof (send_queue _ _ _ _ E) as Hq.
  assert (rtc session_step x (with_outbound o x)) as Hs by by eapply rtc_once, step_quiet, quiet_send.
  destruct b.
  - exists (Owing rest). split; [|done]. split; [done|]. apply due_pay. exists [Ok f]. split; [done|].
    cbn. by destruct (item_of k f).
  - exists (Owing (option_list (item_of k f) ++ rest)). split; [|done]. split; [done|].
    apply due_on. exists []. by rewrite app_nil_r.
Qed.

Lemma due_chunks l chunks rest :
  follows due (λ ok m, ok = true → m = Owing rest) (Owing ((Piece <$> chunks) ++ rest))
    (send_chunks k l chunks).
Proof using Type.
  induction chunks as [|c cs IH]; [done|]. cbn [send_chunks fmap list_fmap app].
  eapply (due_silent False True); [apply tame_acquire|]. intros []; [|done]. cbn [negb].
  eapply (follows_bind _ (λ ok m, ok = true → m = Owing ((Piece <$> cs) ++ rest))).
  { pose proof (due_send (Some (SData k c)) ((Piece <$> cs) ++ rest)) as Hs. cbn [item_of] in Hs.
    rewrite decide_True in Hs by done. exact Hs. }
  intros [] m Hm; [|done]. cbn [negb]. by rewrite (Hm eq_refl).
Qed.

Lemma due_data payload rest :
  follows due (λ ok m, ok = true → m = Owing rest) (Owing ((Piece <$> split_chunks payload) ++ rest))
    (send_stream_data k payload).
Proof using Type.
  eapply (due_silent False True); [apply tame_query|]. intros [l|]; [apply due_chunks|done].
Qed.

(** *** The body *)
Lemma due_pump frames :
  follows (account_at (R:=R) (A:=A) i due) given_up (Owing (body_items frames)) (pump_body i k frames).
Proof using Type.
  induction frames as [|[data| |] frames IH]; cbn [pump_body]; [| |exact IH|].
  - eapply (follows_bind _ given_up); [|done]. apply call_account.
    eapply follows_mono; [|pose proof (due_send (Some (SEnd k [])) []) as Hs]; [done|].
    cbn [item_of] in Hs. rewrite decide_True in Hs by done. exact Hs.
  - unfold body_items. cbn [body_pieces body_ended]. case_bool_decide as Hd; [exact IH|].
    rewrite fmap_app, <- app_assoc. eapply follows_bind; [apply call_account, due_data|].
    intros [] m Hm; [|done]. cbn [negb]. by rewrite (Hm eq_refl).
  - eapply call_account, (due_last False True), tame_reset. done.
Qed.

Definition quiet_task {B} (t : task AppState B) : Prop := obeys (at_session i still) t.

Lemma tame_quiet {B} V K (t : task AppState B) :
  obeys (at_session i (tame (λ f, no_item f) V K False)) t → quiet_task t.
Proof using Type.
  apply obeys_weaken. intros s s' Ha x Hx. destruct (Ha x Hx) as (x' & Hx' & Hxx). exists x'.
  split; [done|by eapply tame_still].
Qed.

Lemma still_account n (s s' : AppState) : at_session i still s s' → account_at i due n s n s'.
Proof using Type.
  intros Ha x Hx. destruct (Ha x Hx) as (x' & Hx' & Hxx). exists x'. split; [done|by apply still_due].
Qed.

Lemma due_quiet {B} n (t : task AppState B) : quiet_task t → follows (account_at i due) given_up n t.
Proof using Type.
  intros Ht. eapply follows_mono; [|eapply follows_obeys, Ht]; [done|]. apply still_account.
Qed.

(** The body of another stream, or of another session. *)
Lemma quiet_pump j id frames : j ≠ i ∨ id ≠ k → quiet_task (pump_body (A:=A) (R:=R) j id frames).
Proof using Type.
  intros [Hj|Hid]; apply (tame_quiet False False).
  - induction frames as [|[data| |] frames IH]; cbn [pump_body]; node_calls.
  - apply tame_pump; [apply creditless_no_item|intros; cbn; by rewrite decide_False..].
Qed.

(** *** The request *)
Lemma due_open_stream req tunnel_id addr :
  public req →
  follows due
    (λ r m, match r with
            | Ok opened => m = if decide (resp_stream_id opened = k) then Owing (body_items (req_body req))
                               else Waiting
            | Err _ => True
            end)
    Waiting (open_http_stream tunnel_id (request_head req) addr).
Proof using Type.
  intros Hreq. unfold open_http_stream. eapply (due_silent False True); [apply tame_query|].
  intros [limit count]. destruct (_ && _)%bool; [done|]. eapply follows_bind.
  { apply (follows_atomic _ (λ (r : Z * nat) m,
      m = if decide (r.1 = k) then Owing (request_items req) else Waiting)). intros x.
    exists (if decide (next_stream_id x = k) then Owing (request_items req) else Waiting).
    split; [|done]. split; [by apply rtc_once; right; left|]. case_decide; [by apply due_open|].
    apply due_on. exists []. by rewrite app_nil_r. }
  intros [id l] m ->. cbn [fst]. eapply (due_silent False True); [apply tame_query|]. intros window.
  eapply (follows_bind _ (λ ok m,
    ok = true → m = if decide (id = k) then Owing (body_items (req_body req)) else Waiting)).
  { destruct (decide (id = k)) as [->|Hid].
    - pose proof (due_send (Some (SOpen (mkStreamOpen k tunnel_id KindHttp (Some (request_head req))
                                           addr window))) (body_items (req_body req))) as Hs.
      cbn in Hs. rewrite decide_True in Hs by done. exact Hs.
    - eapply follows_mono; [|eapply follows_obeys, (follow_tame (λ f, no_item f) False True)].
      + by intros ok m -> _.
      + intros x x' Hx. by eapply still_due, tame_still.
      + cbn. by rewrite decide_False. }
  intros [] m Hm; cbn [negb]; [by rewrite (Hm eq_refl)|].
  eapply (due_silent False True); [apply tame_modify_close|]. intros _.
  by eapply (due_silent False True); [apply tame_receivers|].
Qed.

Lemma due_request node_id role req addr :
  public req →
  follows (account_at i due) given_up Waiting
    (serve_request (A:=A) health_json tunnels_json duration_debug parse_uri upstream node_id role req addr).
Proof using Type.
  intros Hreq. apply follows_assoc. eapply follows_then.
  { apply still_account. }
  { apply (tame_quiet False False), tame_route, creditless_no_item. }
  intros [response|j record|record]; [done| |done]. apply follows_assoc.
  destruct (decide (j = i)) as [->|Hj].
  - eapply follows_bind; [by apply call_account, due_open_stream|].
    intros [opened|[]] m Hm; [|done..]. cbn in Hm |- *. rewrite Hm.
    case_decide as Hk; [rewrite Hk; apply due_pump|]. apply due_quiet, quiet_pump. by right.
  - apply due_quiet, obeys_bind; [apply at_call; [exact _|by left]|].
    intros [opened|[]]; [|done..]. apply quiet_pump. by left.
Qed.

(** Every task starts with nothing owed. *)
Lemma due_node_task t :
  node_task health_json tunnels_json duration_debug parse_uri upstream public i t →
  follows (account_at (R:=R) (A:=A) i due) given_up Waiting t.
Proof using Type.
  pose proof (creditless_no_item k) as HP.
  intros [inbound|j inbound Hj| |j beats|node_id role req addr Hreq|j opened|j l|j id l|f Hf].
  5: by apply due_request.
  all: apply due_quiet, (tame_quiet False False).
  - by apply obeys_bind; [apply tame_handshake|].
  - by apply tame_run_session.
  - by apply tame_teardown.
  - by apply tame_heartbeat.
  - by apply obeys_bind; [apply tame_answer|].
  - by apply obeys_bind; [apply tame_read|].
  - by apply tame_drop.
  - by apply at_modify; [exact _|].
Qed.

(** *** The read loop of the edge sends nothing of a request *)
Lemma quiet_frame f : quiet_task (handle_client_frame (A:=A) (R:=R) i f).
Proof using Type.
  eapply obeys_weaken; [|apply (queues_frame i (λ f, no_item f)); [apply creditless_no_item|done]].
  intros s s' Ha x Hx. destruct (Ha x Hx) as (x' & Hx' & Hs & fs & Hq & Hf). exists x'.
  split; [done|]. split; [done|]. exists fs. by rewrite queued_none.
Qed.
End dues.

(** ** The agent's side of a stream

    The call made for stream [k], the channel of its request body, and its entry in
    the table: it may still lead to that channel, or, after the end of the body, to
    one that nobody reads. *)
Section receiving.
Context `{Tokio} `{HttpCrate} (k : Z).

Abbreviation spawned_call := (StreamOpen * nat * nat)%type.

Definition call_for (calls : list spawned_call) : option spawned_call :=
  head (filter (λ call, so_stream_id call.1.1 = k) calls).
Definition call_of (c : SessionCtx) : option spawned_call := call_for (ctx_spawned c).
Definition body_of (c : SessionCtx) : option nat := (λ call : spawned_call, call.1.2) <$> call_of c.
Definition request_chan (c : SessionCtx) : option (chan_state str) :=
  b ← body_of c; ch_view <$> ctx_bodies c !! b.
Definition pending (c : SessionCtx) : list str := from_option ch_queue [] (request_chan c).
Definition hears (c : SessionCtx) : bool := from_option ch_receiver true (request_chan c).
Definition entry (c : SessionCtx) : option StreamState := ctx_streams c !! k.

(** No other stream's entry leads to the channel. *)
Record bodies_ok (c : SessionCtx) : Prop := {
  bo_lt id st : ctx_streams c !! id = Some st → st_body_tx st < length (ctx_bodies c);
  bo_chan b : body_of c = Some b →
    b < length (ctx_bodies c) ∧ ∀ id st, ctx_streams c !! id = Some st → st_body_tx st = b → id = k;
  bo_none : call_of c = None → entry c = None;
}.

Definition unmoved (c c' : SessionCtx) : Prop :=
  call_of c' = call_of c ∧ (entry c' = entry c ∨ entry c' = None) ∧
  ((hears c' = hears c ∧ pending c' = pending c) ∨ (hears c' = false ∧ pending c' = [])).
Definition mild (c c' : SessionCtx) : Prop := bodies_ok c → bodies_ok c' ∧ unmoved c c'.

#[export] Instance mild_refl : Reflexive mild.
Proof using Type. intros c Hok. split; [done|]. split_and!; [done|by left|by left]. Qed.

Lemma call_for_app calls calls' :
  Forall (λ call : spawned_call, so_stream_id call.1.1 ≠ k) calls' → call_for (calls ++ calls') = call_for calls.
Proof using Type.
  intros Hc. unfold call_for. rewrite filter_app.
  replace (filter _ calls') with (@nil spawned_call); [by rewrite app_nil_r|]. symmetry.
  induction Hc as [|call calls' Hc _ IH]; [done|]. by rewrite filter_cons_False.
Qed.

(** A step that may change channels as their ends are dropped, remove entries, and
    add calls and entries for other streams. *)
Lemma mild_step c c' cs bs :
  ctx_spawned c' = ctx_spawned c ++ cs → Forall (λ call : spawned_call, so_stream_id call.1.1 ≠ k) cs →
  (∀ b v, ctx_bodies c !! b = Some v →
     ∃ v', ctx_bodies c' !! b = Some v' ∧ (body_of c = Some b → chan_kept (ch_view v) (ch_view v'))) →
  length (ctx_bodies c') = length (ctx_bodies c) + bs →
  (∀ id st, ctx_streams c' !! id = Some st →
     ctx_streams c !! id = Some st ∨ id ≠ k ∧ st_body_tx st = length (ctx_bodies c) ∧ 0 < bs) →
  (entry c' = entry c ∨ entry c' = None) → mild c c'.
Proof using Type.
  intros Hs Hcs Hb Hl Hst He [Hlt Hch Hno].
  assert (call_of c' = call_of c) as Hc by by unfold call_of; rewrite Hs, call_for_app.
  assert (body_of c' = body_of c) as Hbo by by unfold body_of; rewrite Hc.
  split.
  - split.
    + intros id st Hid. destruct (Hst id st Hid) as [Hid'|(_ & -> & ?)]; [|lia].
      specialize (Hlt id st Hid'). lia.
    + intros b Hbc. rewrite Hbo in Hbc. destruct (Hch b Hbc) as [Hb1 Hb2]. split; [lia|].
      intros id st Hid <-. destruct (Hst id st Hid) as [Hid'|(_ & Hn & ?)]; [by eapply Hb2|lia].
    + rewrite Hc. intros Hn. specialize (Hno Hn). destruct He as [->|]; done.
  - split; [done|]. split; [done|]. unfold hears, pending, request_chan. rewrite Hbo.
    destruct (body_of c) as [b|] eqn:Eb; [|by left]. simpl.
    destruct (lookup_lt_is_Some_2 (ctx_bodies c) b) as [v Hv]; [by apply Hch|].
    destruct (Hb b v Hv) as (v' & Hv' & Hk). rewrite Hv, Hv'. simpl. by apply Hk.
Qed.

Lemma mild_same c c' :
  ctx_spawned c' = ctx_spawned c → ctx_streams c' = ctx_streams c → ctx_bodies c' = ctx_bodies c → mild c c'.
Proof using Type.
  intros Hs Ht Hb. apply (mild_step c c' [] 0); rewrite ?app_nil_r, ?Hb; [done|done| |lia| |].
  - intros b v Hv. exists v. split; [done|]. intros _. by left.
  - rewrite Ht. by left.
  - left. unfold entry. by rewrite Ht.
Qed.

Lemma altered_body l (f : mpsc str → mpsc str) (bodies : list (mpsc str)) b v :
  (∀ v, b = l → chan_kept (ch_view v) (ch_view (f v))) → bodies !! b = Some v →
  ∃ v', alter f l bodies !! b = Some v' ∧ chan_kept (ch_view v) (ch_view v').
Proof using Type.
  intros Hf Hv. destruct (decide (b = l)) as [->|].
  - rewrite list_lookup_alter_eq, Hv. eexists. split; [done|]. by apply Hf.
  - rewrite list_lookup_alter_ne by done. exists v. split; [done|]. by left.
Qed.

Lemma mild_body l f c :
  (∀ v, body_of c = Some l → chan_kept (ch_view v) (ch_view (f v))) → mild c (update_body l f c).
Proof using Type.
  intros Hf. apply (mild_step c _ [] 0); cbn; rewrite ?app_nil_r, ?length_alter; [done|done| |lia| |by left].
  - intros b v Hv. destruct (decide (b = l)) as [->|].
    + rewrite list_lookup_alter_eq, Hv. eexists. split; [done|]. apply Hf.
    + rewrite list_lookup_alter_ne by done. exists v. split; [done|]. by left.
  - by left.
Qed.

Lemma kept_clone (v : mpsc str) : chan_kept (ch_view v) (ch_view (ch_clone_tx v)).
Proof using Type. left. by rewrite ch_clone_view. Qed.
Lemma kept_drop_tx (v : mpsc str) : chan_kept (ch_view v) (ch_view (ch_drop_tx v)).
Proof using Type. left. by rewrite ch_drop_tx_view. Qed.
Lemma kept_drop_rx (v : mpsc str) : chan_kept (ch_view v) (ch_view (ch_drop_rx v)).
Proof using Type. right. by rewrite ch_drop_rx_view. Qed.

Lemma mild_drop id c : mild c (drop_stream id c).
Proof using Type.
  unfold drop_stream. destruct (ctx_streams c !! id) as [st|]; [|reflexivity].
  apply (mild_step c _ [] 0); cbn; rewrite ?app_nil_r, ?length_alter; [done|done| |lia| |].
  - intros b v Hv. destruct (altered_body (st_body_tx st) ch_drop_tx _ b v (λ v _, kept_drop_tx v) Hv)
      as (v' & ? & ?). by exists v'.
  - intros id' st' [_ ?]%lookup_delete_Some. by left.
  - unfold entry. cbn. destruct (decide (id = k)) as [->|]; [right; apply lookup_delete_eq|left].
    by rewrite lookup_delete_ne.
Qed.

Lemma mild_drop_rx l c : mild c (update_body l ch_drop_rx c).
Proof using Type. apply mild_body. intros v _. apply kept_drop_rx. Qed.
Lemma mild_drop_tx l c : mild c (update_body l ch_drop_tx c).
Proof using Type. apply mild_body. intros v _. apply kept_drop_tx. Qed.
Lemma mild_sender id c : mild c (body_sender id c).1.
Proof using Type.
  unfold body_sender. case_match; [|reflexivity]. apply mild_body. intros v _. apply kept_clone.
Qed.

Lemma mild_query {B} (f : SessionCtx → B) : obeys mild (query f).
Proof using Type. by apply obeys_query. Qed.
Lemma mild_emit e : obeys mild (emit e).
Proof using Type.
  apply obeys_await. intros c c' []. destruct (ch_send _ _) as [[o b]|]; [|done].
  intros [= <-]. by apply mild_same.
Qed.
Lemma mild_send p : obeys mild (ctx_send p).
Proof using Type.
  apply obeys_await. intros c c' a. destruct (ch_send _ _) as [[o b]|]; [|done].
  intros [= <- <-]. by apply mild_same.
Qed.
Lemma mild_acquire l n : obeys mild (acquire_window l n).
Proof using Type.
  apply obeys_await. intros c c' a. destruct (ctx_credits c !! l) as [w|]; [|done].
  destruct (sem_acquire_many n w) as [[w' b]|]; [|done]. intros [= <- <-]. by apply mild_same.
Qed.
Lemma mild_window id increment : obeys mild (atomic (on_window_update id increment)).
Proof using Type.
  apply obeys_atomic. intros c. unfold on_window_update. destruct (ctx_streams c !! id); [|reflexivity].
  destruct (ctx_credits c !! _); [|reflexivity]. destruct (sem_add_permits _ _); [|reflexivity].
  by apply mild_same.
Qed.

#[local] Hint Resolve mild_drop mild_drop_rx mild_drop_tx mild_sender mild_query mild_emit mild_send
  mild_acquire mild_window : placid.

(** The task of a stream reads nothing of any request. *)
Lemma mild_serve valid_method valid_uri http_error local_service options open body credit :
  obeys mild (serve_stream valid_method valid_uri http_error local_service options open body credit).
Proof using Type.
  assert (∀ id chunks, obeys mild (send_pieces id credit chunks)) as Hpieces.
  { intros id. induction chunks as [|c cs IH]; cbn [send_pieces]; agent_calls. }
  assert (∀ id frames trailers, obeys mild (relay_body id credit trailers frames)) as Hrelay.
  { intros id. induction frames as [|[data|map|e] rest IH]; intros trailers; cbn [relay_body];
      unfold send_payload; agent_calls. }
  unfold serve_stream. agent_calls.
Qed.

(** *** What the agent's read loop has in its hands

    [Mixed]: a request opened twice, or data after its end, which never arrive. *)
Inductive taking := Idle | Came (it : item) | Pushing (l : nat) (p : str) | Other (l : nat) | Mixed.

Definition in_hand (n : taking) : list item :=
  match n with Came it => [it] | Pushing _ p => [Piece p] | _ => [] end.

Inductive take_step (c c' : SessionCtx) : taking → taking → Prop :=
| take_on n : unmoved c c' → take_step c c' n n
| take_open call st :
    call_of c = None → call_of c' = Some call → entry c' = Some st → st_body_tx st = call.1.2 →
    pending c' = [] → take_step c c' (Came (Opening (so_http call.1.1))) Idle
| take_again h : call_of c ≠ None → take_step c c' (Came (Opening h)) Mixed
| take_sender p st :
    entry c = Some st → body_of c = Some (st_body_tx st) → unmoved c c' →
    take_step c c' (Came (Piece p)) (Pushing (st_body_tx st) p)
| take_late p st :
    entry c = Some st → body_of c ≠ Some (st_body_tx st) → take_step c c' (Came (Piece p)) Mixed
| take_nowhere p : entry c = None → unmoved c c' → take_step c c' (Came (Piece p)) Idle
| take_other l : body_of c ≠ Some l → unmoved c c' → take_step c c' Idle (Other l)
| take_push l p :
    body_of c = Some l → call_of c' = call_of c → entry c' = entry c → hears c = true →
    hears c' = true → pending c' = pending c ++ [p] → take_step c c' (Pushing l p) Idle
| take_deaf l p : body_of c = Some l → hears c = false → unmoved c c' → take_step c c' (Pushing l p) Idle
| take_wrong l p : body_of c ≠ Some l → take_step c c' (Pushing l p) Mixed
| take_elsewhere l : unmoved c c' → take_step c c' (Other l) Idle
| take_clash l : body_of c = Some l → take_step c c' (Other l) Mixed
| take_finish :
    call_of c' = call_of c → hears c' = hears c → pending c' = pending c →
    (entry c = None ∧ entry c' = None ∨
     entry c ≠ None ∧ ∃ st, entry c' = Some st ∧ body_of c' ≠ Some (st_body_tx st)) →
    take_step c c' (Came Finish) Idle.

Definition takes (n : taking) (c : SessionCtx) (n' : taking) (c' : SessionCtx) : Prop :=
  n ≠ Mixed → bodies_ok c → (n' ≠ Mixed → bodies_ok c') ∧ take_step c c' n n'.

Notation rested := (λ _ n, n = Idle ∨ n = Mixed).

Lemma mild_takes n c c' : mild c c' → takes n c n c'.
Proof using Type. intros Hm _ Hok. destruct (Hm Hok). split; [done|by apply take_on]. Qed.

Lemma takes_mixed {B} (t : task SessionCtx B) : follows takes rested Mixed t.
Proof using Type.
  induction t as [a|f IH] using task_induction; [by right|]. apply follows_step. intros c c' t' E.
  exists Mixed. split; [by intros ?|by eapply IH].
Qed.

Lemma takes_last {B} n (t : task SessionCtx B) :
  n = Idle ∨ n = Mixed → obeys mild t → follows takes rested n t.
Proof using Type.
  intros Hn Ht. eapply follows_mono; [|eapply follows_obeys, Ht; apply mild_takes]. by intros b m ->.
Qed.

Lemma takes_idle {B} (t : task SessionCtx B) : obeys mild t → follows takes rested Idle t.
Proof using Type. apply takes_last. by left. Qed.

(** Taking the sender of a stream, if it has an entry. *)
Lemma takes_sender id p :
  follows takes
    (λ r n, n = Mixed ∨
       match r with
       | Some l => if decide (id = k) then n = Pushing l p else n = Other l
       | None => n = Idle
       end)
    (if decide (id = k) then Came (Piece p) else Idle) (atomic (body_sender id)).
Proof using Type.
  apply follows_atomic. intros c. pose proof (mild_sender id c) as Hm.
  unfold body_sender in *. destruct (ctx_streams c !! id) as [st|] eqn:E; cbn [fst snd] in *.
  - destruct (decide (id = k)) as [->|Hid].
    + destruct (decide (body_of c = Some (st_body_tx st))) as [Hb|Hb].
      * exists (Pushing (st_body_tx st) p). split; [|by right]. intros _ Hok. destruct (Hm Hok).
        split; [done|by apply take_sender].
      * exists Mixed. split; [|by left]. intros _ Hok. destruct (Hm Hok). split; [done|by eapply take_late].
    + exists (Other (st_body_tx st)). split; [|by right]. intros _ Hok. destruct (Hm Hok) as [Hok' Hu].
      split; [done|]. apply take_other; [|done]. intros Hb.
      destruct (bo_chan c Hok _ Hb) as [_ Hch]. by specialize (Hch id st E eq_refl).
  - exists Idle. split; [|by right]. intros _ Hok. destruct (Hm Hok). split; [done|].
    case_decide as Hid; [|by apply take_on]. apply take_nowhere; [by subst|done].
Qed.

Lemma request_chan_body l f c v :
  body_of c = Some l → ctx_bodies c !! l = Some v →
  request_chan c = Some (ch_view v) ∧ request_chan (update_body l f c) = Some (ch_view (f v)).
Proof using Type.
  intros Hb Hv. unfold request_chan.
  change (body_of (update_body l f c)) with (body_of c). rewrite Hb. cbn.
  by rewrite list_lookup_alter_eq, Hv.
Qed.

(** Putting bytes into the channel of a request. *)
Lemma takes_push l p :
  follows takes rested (Pushing l p) (push_body l p) ∧ follows takes rested (Other l) (push_body l p).
Proof using Type.
  assert (∀ c c' ok v, ctx_bodies c !! l = Some v →
    (match ch_send p v with Some (b', ok) => Some (update_body l (λ _, b') c, ok) | None => None end) =
      Some (c', ok) → body_of c ≠ Some l → mild c c') as Hmild.
  { intros c c' ok v Hv E Hb. destruct (ch_send p v) as [[b' ok']|]; [|done]. injection E as <- <-.
    apply mild_body. intros w ?. congruence. }
  split; apply follows_await; intros c c' ok E;
    destruct (ctx_bodies c !! l) as [v|] eqn:Ev; try done;
    (destruct (decide (body_of c = Some l)) as [Hb|Hb]; [|specialize (Hmild c c' ok v Ev E Hb)]).
  - exists Idle. split; [|by left]. intros _ Hok.
    pose proof (ch_send_view p v) as Hv. destruct (ch_send p v) as [[b' ok']|]; [|done]. injection E as <- <-.
    simpl in Hv. destruct (request_chan_body l (λ _, b') c v Hb Ev) as [H1 H2].
    assert (bodies_ok (update_body l (λ _, b') c)) as Hok'.
    { destruct Hok as [Hlt Hch Hno]. split; cbn; rewrite ?length_alter; done. }
    split; [done|]. unfold send_spec in Hv.
    destruct (ch_receiver (ch_view v)) eqn:Er; cbn in Hv.
    + destruct (decide _); [|done]. injection Hv as Hb' _.
      apply take_push; unfold hears, pending; rewrite ?H1, ?H2; cbn; rewrite ?Hb'; done.
    + injection Hv as Hb' _. apply take_deaf; [done|unfold hears; by rewrite H1|].
      split; [done|]. split; [by left|]. left. unfold hears, pending. by rewrite H1, H2, Hb'.
  - exists Mixed. split; [|by right]. intros _ Hok. destruct (Hmild Hok). split; [done|by apply take_wrong].
  - exists Mixed. split; [|by right]. intros _ Hok.
    destruct (ch_send p v) as [[b' ok']|]; [|done]. injection E as <- <-.
    split; [destruct Hok as [Hlt Hch Hno]; split; cbn; rewrite ?length_alter; done|by apply take_clash].
  - exists Idle. split; [|by left]. intros _ Hok. destruct (Hmild Hok). split; [done|by apply take_elsewhere].
Qed.

Lemma takes_data id payload :
  follows takes rested (if decide (id = k) then Came (Piece payload) else Idle) (on_data id payload).
Proof using Type.
  unfold on_data. eapply follows_bind; [apply takes_sender|]. intros r n [->|Hr]; [apply takes_mixed|].
  destruct r as [l|]; [|subst n; by left]. eapply (follows_bind _ rested).
  - destruct (takes_push l payload). case_decide; by subst n.
  - intros ok m Hm. eapply (follows_bind _ rested).
    + apply takes_last; [done|]. destruct ok; agent_calls.
    + intros u m' Hm'. apply takes_last; [done|]. agent_calls.
Qed.

(** The end of a body: the entry leads to a channel nobody reads. *)
Lemma takes_finish id :
  follows takes rested (if decide (id = k) then Came Finish else Idle) (modify (close_request_body id)).
Proof using Type.
  apply follows_atomic. intros c. exists Idle. split; [|by left]. intros _ Hok. cbn [fst].
  unfold close_request_body. destruct (ctx_streams c !! id) as [st|] eqn:E; cycle 1.
  { split; [done|]. case_decide as Hid; [|apply take_on, (mild_refl c Hok)]. subst.
    by apply take_finish; [..|left]. }
  set (c' := ctx_with_streams _ _ _ c).
  assert (∀ b v, ctx_bodies c !! b = Some v → ∃ v', ctx_bodies c' !! b = Some v' ∧
            chan_kept (ch_view v) (ch_view v') ∧ ch_receiver (ch_view v') = ch_receiver (ch_view v) ∧
            ch_queue (ch_view v') = ch_queue (ch_view v)) as Hb.
  { intros b v Hv. cbn. rewrite lookup_app_l by (rewrite length_alter; by eapply lookup_lt_Some).
    destruct (decide (b = st_body_tx st)) as [->|].
    - rewrite list_lookup_alter_eq, Hv. eexists. split; [done|]. rewrite ch_drop_tx_view. split; [by left|done].
    - rewrite list_lookup_alter_ne by done. exists v. split; [done|]. split; [by left|done]. }
  assert (length (ctx_bodies c') = length (ctx_bodies c) + 1) as Hl
    by (cbn; rewrite length_app, length_alter; simpl; lia).
  assert (ctx_streams c' = <[id := mkStreamState (length (ctx_bodies c)) (st_send_credit st)]> (ctx_streams c))
    as Ht by done.
  assert (ctx_spawned c' = ctx_spawned c) as Hs by done. clearbody c'.
  assert (call_of c' = call_of c) as Hc by by unfold call_of; rewrite Hs.
  assert (body_of c' = body_of c) as Hbo by by unfold body_of; rewrite Hc.
  destruct (decide (id = k)) as [->|Hid]; cycle 1.
  { destruct (mild_step c c' [] 1) as [Hok' Hu]; try done.
    - by rewrite app_nil_r.
    - intros b v Hv. destruct (Hb b v Hv) as (v' & ? & ? & _). by exists v'.
    - intros id' st'. rewrite Ht. intros [[<- <-]|[_ ?]]%lookup_insert_Some;
        [right; split_and!; [done|done|lia]|by left].
    - left. unfold entry. rewrite Ht. by rewrite lookup_insert_ne.
    - split; [done|by apply take_on]. }
  pose proof Hok as [Hlt Hch Hno]. rewrite <- Hbo in Hch.
  assert (bodies_ok c') as Hok'.
  { split.
    - intros id' st'. rewrite Ht. intros [[_ <-]|[_ Hid']]%lookup_insert_Some; cbn [st_body_tx]; [lia|].
      specialize (Hlt id' st' Hid'). lia.
    - intros b Hbc. destruct (Hch b Hbc) as [Hb1 Hb2]. split; [lia|]. intros id' st'. rewrite Ht.
      intros [[? _]|[_ Hid']]%lookup_insert_Some Hb'; [done|by eapply Hb2].
    - rewrite Hc. intros Hn. specialize (Hno Hn). unfold entry in Hno. congruence. }
  split; [done|].
  assert (hears c' = hears c ∧ pending c' = pending c) as [Hh Hp].
  { unfold hears, pending, request_chan. rewrite <- Hbo.
    destruct (body_of c') as [b|] eqn:Eb; [|done]. simpl.
    destruct (lookup_lt_is_Some_2 (ctx_bodies c) b) as [v Hv]; [by apply Hch|].
    destruct (Hb b v Hv) as (v' & -> & _ & Hr & Hq). rewrite Hv. simpl. by rewrite Hr, Hq. }
  apply take_finish; [done|done|done|]. right. split; [unfold entry; congruence|].
  eexists. split; [unfold entry; rewrite Ht; apply lookup_insert_eq|]. cbn [st_body_tx].
  intros Hbc. destruct (Hch _ Hbc). lia.
Qed.

(** A stream is opened. *)
Lemma takes_open open :
  follows takes rested (if decide (so_stream_id open = k) then Came (Opening (so_http open)) else Idle)
    (modify (register_open open)).
Proof using Type.
  apply follows_atomic. intros c. cbn [fst].
  set (call := (open, length (ctx_bodies c), length (ctx_credits c)) : spawned_call).
  assert (ctx_spawned (register_open open c) = ctx_spawned c ++ [call]) as Hs by done.
  assert (ctx_streams (register_open open c) =
    <[so_stream_id open := mkStreamState (length (ctx_bodies c)) (length (ctx_credits c))]> (ctx_streams c))
    as Ht by done.
  assert (∃ bs, ctx_bodies (register_open open c) = bs ++ [ch_channel BODY_QUEUE] ∧
            length bs = length (ctx_bodies c) ∧
            ∀ b v, ctx_bodies c !! b = Some v → ∃ v', bs !! b = Some v' ∧ chan_kept (ch_view v) (ch_view v'))
    as (bs & Hbs & Hl & Hb).
  { unfold register_open. cbn. destruct (ctx_streams c !! so_stream_id open) as [old|].
    - eexists. split; [done|]. rewrite length_alter. split; [done|]. intros b v.
      apply altered_body. intros v' _. apply kept_drop_tx.
    - exists (ctx_bodies c). split_and!; [done|done|]. intros b v Hv. exists v. split; [done|by left]. }
  set (c' := register_open open c) in *.
  destruct (decide (so_stream_id open = k)) as [Hk|Hk]; cycle 1.
  { exists Idle. split; [|by left]. apply mild_takes.
    apply (mild_step c c' [call] 1); [done|by repeat constructor|..].
    - intros b v Hv. destruct (Hb b v Hv) as (v' & Hv' & Hkept). exists v'. split; [|done].
      rewrite Hbs. by apply lookup_app_l_Some.
    - rewrite Hbs, length_app, Hl. simpl. lia.
    - intros id st. rewrite Ht. intros [[<- <-]|[_ ?]]%lookup_insert_Some; [right|by left].
      split_and!; [done|done|lia].
    - left. unfold entry. rewrite Ht. by rewrite lookup_insert_ne. }
  destruct (call_of c) as [old|] eqn:Ec.
  { exists Mixed. split; [|by right]. intros _ _. split; [by intros ?|]. apply take_again. by rewrite Ec. }
  exists Idle. split; [|by left]. intros _ [Hlt Hch Hno].
  assert (call_of c' = Some call) as Hc'.
  { unfold call_of, call_for in *. rewrite Hs, filter_app. apply head_None in Ec. rewrite Ec.
    by rewrite filter_cons_True. }
  assert (body_of c' = Some (length (ctx_bodies c))) as Hb' by by unfold body_of; rewrite Hc'.
  assert (length (ctx_bodies c') = S (length (ctx_bodies c))) as Hl' by (rewrite Hbs, length_app, Hl; simpl; lia).
  split.
  - split; rewrite ?Hl', ?Hb', ?Hc', ?Ht.
    + intros id st [[_ <-]|[_ Hid]]%lookup_insert_Some; [cbn; lia|]. specialize (Hlt id st Hid). lia.
    + intros b [= <-]. split; [lia|]. intros id st [[<- <-]|[_ Hid]]%lookup_insert_Some; [done|].
      intros Heq. specialize (Hlt id st Hid). lia.
    + done.
  - eapply (take_open _ _ call); [done|done|unfold entry; rewrite Ht, Hk; apply lookup_insert_eq|done|].
    unfold pending, request_chan. rewrite Hb', Hbs. cbn.
    rewrite lookup_app_r, Hl, Nat.sub_diag by lia. cbn. by rewrite ch_channel_view.
Qed.

(** *** Frame by frame *)
Definition came (f : ServerFrame) : taking := from_option Came Idle (item_of k f).

Lemma came_if id it f :
  item_of k f = (if decide (id = k) then Some it else None) →
  came f = if decide (id = k) then Came it else Idle.
Proof using Type. unfold came. intros ->. by case_decide. Qed.

Lemma takes_frame options payload :
  follows takes rested (came (Some payload)) (handle_server_frame options payload).
Proof using Type.
  destruct payload as [w|st|open|head|id data|id trailers|id code message|id increment|nonce time|a1 a2 a3];
    cbn [handle_server_frame]; try (apply takes_idle; agent_calls; fail).
  - rewrite (came_if (so_stream_id open) (Opening (so_http open))) by done.
    by eapply follows_bind; [apply takes_open|].
  - rewrite (came_if id (Piece data)) by done. by eapply follows_bind; [apply takes_data|].
  - rewrite (came_if id Finish) by done. by eapply follows_bind; [apply takes_finish|].
Qed.

(** The agent's program and the local service: bodies are read from the front. *)
Definition listens (c c' : SessionCtx) : Prop :=
  bodies_ok c → bodies_ok c' ∧
  (unmoved c c' ∨
   call_of c' = call_of c ∧ entry c' = entry c ∧ hears c' = hears c ∧ ∃ p, pending c = p :: pending c').

Lemma mild_listens c c' : mild c c' → listens c c'.
Proof using Type. intros Hm Hok. destruct (Hm Hok). split; [done|by left]. Qed.

Lemma listens_host c c' : host_step c c' → listens c c'.
Proof using Type.
  intros [(e & event & _ & ->)|[(l & v & v' & payload & Hl & Hr & ->)|[l ->]]].
  - by apply mild_listens, mild_same.
  - pose proof (ch_recv_view v) as Hv. rewrite Hr in Hv. simpl in Hv. unfold recv_spec in Hv.
    destruct (decide (body_of c = Some l)) as [Hb|Hb]; cycle 1.
    { apply mild_listens, mild_body. intros w ?. congruence. }
    destruct (ch_queue (ch_view v)) as [|p q] eqn:Eq.
    + apply mild_listens. intros Hok.
      destruct (request_chan_body l (λ _, v') c v Hb Hl) as [H1 H2].
      assert (ch_view v' = ch_view v) as Hvv by (case_decide; by simplify_eq).
      split; [destruct Hok; split; cbn; by rewrite ?length_alter|]. split; [done|]. split; [by left|].
      left. unfold hears, pending. by rewrite H1, H2, Hvv.
    + intros Hok. destruct (request_chan_body l (λ _, v') c v Hb Hl) as [H1 H2].
      injection Hv as Hv' _. split; [destruct Hok; split; cbn; by rewrite ?length_alter|]. right.
      unfold hears, pending. rewrite H1, H2, Hv'. cbn. split_and!; [done..|]. by exists p.
  - apply mild_listens, mild_drop_rx.
Qed.
End receiving.

(** ** The order of a request *)
Lemma body_items_follow ps e (before : list item) it after :
  before ++ it :: after = (Piece <$> ps) ++ (if e : bool then [Finish] else []) →
  (∃ p, it = Piece p) ∨ it = Finish ∧ after = [] ∧ e = true.
Proof.
  revert ps. induction before as [|b before IH]; intros ps Hb.
  - destruct ps as [|p ps]; [|injection Hb as -> _; left; eauto].
    destruct e; [|done]. injection Hb as -> ->. by right.
  - destruct ps as [|p ps]; [|injection Hb as _ Hb; by apply (IH ps)].
    destruct e; [|done]. injection Hb as _ Hb. by destruct before.
Qed.

(** ** Accounts of what was sent *)
Section accounts.
Context `{Tokio} `{HttpCrate} (k : Z).

(** What the agent has dealt with: the call, the bytes read from its channel, in it,
    or lost, and the end. *)
Definition received (c : SessionCtx) (got lost : list str) (ended : bool) : list item :=
  match call_of k c with
  | None => []
  | Some call =>
      Opening (so_http call.1.1) :: (Piece <$> got ++ pending k c ++ lost) ++ (if ended then [Finish] else [])
  end.

(** Nothing will be put into the channel any more. *)
Definition shut (c : SessionCtx) (n : taking) : Prop :=
  hears k c = false ∨ entry k c = None ∧ ∀ l p, n ≠ Pushing l p.

Definition hand_ok (c : SessionCtx) (n : taking) : Prop :=
  match n with
  | Pushing l _ => body_of k c = Some l
  | Other l => body_of k c ≠ Some l
  | Mixed => False
  | _ => True
  end.

Record settled (sent : list item) (got : list str) (c : SessionCtx) (n : taking) (lost : list str)
    (ended : bool) (rest : list item) : Prop := {
  set_all : sent = received c got lost ended ++ in_hand n ++ rest;
  set_call : call_of k c = None → got = [];
  set_lost : lost ≠ [] → shut c n;
  set_entry st : entry k c = Some st → ended = false ↔ body_of k c = Some (st_body_tx st);
  set_hand : hand_ok c n;
  set_bodies : bodies_ok k c;
}.

(** What was sent is the beginning of one request. *)
Definition of_request (sent : list item) : Prop :=
  sent = [] ∨ ∃ req rest, sent ++ rest = request_items req.

Definition read (c c' : SessionCtx) : list str :=
  front_taken (hears k c) (hears k c') (pending k c) (pending k c').

Lemma body_of_call c c' : call_of k c' = call_of k c → body_of k c' = body_of k c.
Proof using Type. unfold body_of. by intros ->. Qed.

(** A step that at most reads. *)
Lemma settled_reads sent got c c' n lost ended rest :
  call_of k c' = call_of k c → (entry k c' = entry k c ∨ entry k c' = None) → bodies_ok k c' →
  read_from (hears k c) (hears k c') (pending k c) (pending k c') →
  settled sent got c n lost ended rest →
  ∃ gone, settled sent (got ++ read c c') c' n (gone ++ lost) ended rest ∧
    (gone ≠ [] ∨ hears k c = false → hears k c' = false).
Proof using Type.
  intros Hc He Hok Hr [Ha Hn Hs Hed Hh Hb]. destruct (front_taken_spec _ _ _ _ Hr) as (gone & Hg & Hgone & Hm).
  pose proof (body_of_call _ _ Hc) as Hbo. exists gone. split; [|intros [?|?]; auto]. split.
  - rewrite Ha. unfold received. rewrite Hc. destruct (call_of k c) as [call|] eqn:Ec; [|done].
    unfold read. by rewrite Hg at 1; rewrite <- !app_assoc.
  - rewrite Hc. intros Ec. rewrite (Hn Ec). unfold read, front_taken, pending, request_chan, body_of.
    by rewrite Ec.
  - intros Hne. destruct (decide (gone = [])) as [->|Hg']; [|left; auto].
    destruct (Hs Hne) as [?|[Hen ?]]; [left; auto|right]. split; [|done]. destruct He as [->|]; done.
  - rewrite Hbo. destruct He as [-> | ->]; [done|by intros ?].
  - destruct n; try done; cbn in *; by rewrite Hbo.
  - done.
Qed.

Lemma settled_unmoved sent got c c' n lost ended rest :
  unmoved k c c' → bodies_ok k c' → settled sent got c n lost ended rest →
  ∃ gone, settled sent (got ++ read c c') c' n (gone ++ lost) ended rest ∧
    (gone ≠ [] ∨ hears k c = false → hears k c' = false).
Proof using Type.
  intros (Hc & He & Hr) Hok. apply settled_reads; [done..|]. destruct Hr; [by left|right; by left].
Qed.

Lemma settled_mild sent got c c' n lost ended rest :
  mild k c c' → settled sent got c n lost ended rest →
  ∃ lost', settled sent (got ++ read c c') c' n lost' ended rest.
Proof using Type.
  intros Hm Hs. destruct (Hm (set_bodies _ _ _ _ _ _ _ Hs)) as [Hok Hu].
  destruct (settled_unmoved _ _ _ _ _ _ _ _ Hu Hok Hs) as (gone & ? & _). eauto.
Qed.

Lemma settled_listens sent got c c' n lost ended rest :
  listens k c c' → settled sent got c n lost ended rest →
  ∃ lost', settled sent (got ++ read c c') c' n lost' ended rest.
Proof using Type.
  intros Hm Hs. destruct (Hm (set_bodies _ _ _ _ _ _ _ Hs)) as [Hok [Hu|(Hc & He & Hl & Hp)]].
  - destruct (settled_unmoved _ _ _ _ _ _ _ _ Hu Hok Hs) as (gone & ? & _). eauto.
  - destruct (settled_reads sent got c c' n lost ended rest) as (gone & ? & _); eauto. right. by right.
Qed.

(** More is sent. *)
Lemma settled_sent sent got c n lost ended rest its :
  settled sent got c n lost ended rest → settled (sent ++ its) got c n lost ended (rest ++ its).
Proof using Type. intros [Ha Hn Hs Hed Hh Hb]. split; [by rewrite Ha, <- !app_assoc|done..]. Qed.

Lemma of_request_tail sent before it after :
  of_request sent → sent = before ++ it :: after → before ≠ [] →
  (∃ p, it = Piece p) ∨ it = Finish ∧ after = [].
Proof using Type.
  intros [->|(req & rest & Hr)] Hs Hb; [by destruct before|].
  destruct before as [|b before]; [done|]. rewrite Hs in Hr. cbn in Hr. injection Hr as _ Hr.
  rewrite <- app_assoc in Hr. cbn in Hr. unfold body_items in Hr.
  destruct (body_items_follow _ _ _ _ _ Hr) as [|(-> & Hn & _)]; [by left|right].
  by apply app_eq_nil in Hn as [-> _].
Qed.

Lemma of_request_head sent it rest : of_request sent → sent = it :: rest → ∃ h, it = Opening h.
Proof using Type.
  intros [->|(req & owed & Hr)] Hs; [done|]. rewrite Hs in Hr. injection Hr as -> _. eauto.
Qed.

Lemma body_needs_call c b : body_of k c = Some b → ∃ call, call_of k c = Some call.
Proof using Type. unfold body_of. destruct (call_of k c) as [call|]; [eauto|done]. Qed.

(** Whatever arrives first opens the stream; nothing else does, and nothing follows
    the end. *)
Lemma arrived_first sent got c it lost ended rest :
  of_request sent → settled sent got c (Came it) lost ended rest → call_of k c = None → ∃ h, it = Opening h.
Proof using Type.
  intros Ho [Ha _ _ _ _ _] Hc. unfold received in Ha. rewrite Hc in Ha. exact (of_request_head _ _ _ Ho Ha).
Qed.

Lemma arrived_later sent got c n it lost ended rest call :
  of_request sent → settled sent got c n lost ended rest → call_of k c = Some call → in_hand n = [it] →
  ended = false ∧ ∀ h, it ≠ Opening h.
Proof using Type.
  intros Ho [Ha _ _ _ _ _] Hc Hn. unfold received in Ha. rewrite Hc, Hn in Ha. split.
  - destruct ended; [|done]. cbn [app] in Ha. rewrite <- app_assoc in Ha. cbn [app] in Ha.
    rewrite app_comm_cons in Ha. by destruct (of_request_tail _ _ _ _ Ho Ha) as [[p ?]|[_ ?]].
  - intros h ->. by destruct (of_request_tail _ _ _ _ Ho Ha) as [[p ?]|[? _]].
Qed.

Lemma pieces_snoc (qs : list str) p rest :
  ((Piece <$> qs) ++ []) ++ Piece p :: rest = ((Piece <$> qs ++ [p]) ++ []) ++ rest.
Proof using Type. by rewrite !app_nil_r, fmap_app, <- app_assoc. Qed.

(** What is lost is accounted for, once the channel is shut. *)
Lemma settled_loses sent got c c' n p lost ended rest gone :
  settled sent got c' n (gone ++ lost) ended rest → call_of k c' = call_of k c → (∃ call, call_of k c = Some call) →
  ended = false → in_hand n = [Piece p] → hears k c' = false ∨ entry k c' = None →
  settled sent got c' Idle (gone ++ lost ++ [p]) false rest.
Proof using Type.
  intros [Ha Hn Hs Hed Hh Hb] Hc [call Ec] -> Hp Hshut. split; try done.
  - rewrite Ha, Hp. unfold received. rewrite Hc, Ec. cbn. f_equal.
    by rewrite pieces_snoc, <- !app_assoc.
  - intros _. destruct Hshut as [?|?]; [by left|right]. by split.
Qed.

(** The reader holds what it held, and the channel at most falls silent. *)
Lemma settled_holds sent got c c' n m lost ended rest :
  settled sent got c n lost ended rest → unmoved k c c' → bodies_ok k c' →
  in_hand m = in_hand n → hand_ok c m → (∀ l p, m = Pushing l p → n = m ∨ entry k c ≠ None) →
  ∃ lost' ended', settled sent (got ++ read c c') c' m lost' ended' rest.
Proof using Type.
  intros Hs Hu Hok Hin Hhm Hpush. pose proof Hs as [_ _ Hl _ _ _].
  destruct (settled_unmoved _ _ _ _ _ _ _ _ Hu Hok Hs) as (gone & [Ha' Hn' Hl' Hed' Hh' Hb'] & Hdeaf).
  exists (gone ++ lost), ended. split; try done.
  - by rewrite Hin.
  - intros Hne. destruct (Hl' Hne) as [?|[Hen Hpu]]; [by left|].
    destruct (decide (gone = [])) as [->|Hg]; [|left; by apply Hdeaf; left].
    destruct (Hl Hne) as [?|[Hen0 Hpu0]]; [left; apply Hdeaf; by right|right]. split; [done|].
    intros l p ->. destruct (Hpush l p eq_refl) as [->|?]; [by apply (Hpu0 l p)|done].
  - destruct Hu as (Hc & _). destruct m; try done; cbn in *; by rewrite (body_of_call _ _ Hc).
Qed.

(** The reader lets a piece go, and the channel takes nothing any more. *)
Lemma settled_drops sent got c c' n p lost ended rest :
  of_request sent → settled sent got c n lost ended rest → unmoved k c c' → bodies_ok k c' →
  (∃ call, call_of k c = Some call) → in_hand n = [Piece p] → hears k c = false ∨ entry k c = None →
  ∃ lost' ended', settled sent (got ++ read c c') c' Idle lost' ended' rest.
Proof using Type.
  intros Ho Hs Hu Hok [call Ec] Hin Hsh.
  destruct (arrived_later _ _ _ _ _ _ _ _ _ Ho Hs Ec Hin) as [-> _].
  destruct (settled_unmoved _ _ _ _ _ _ _ _ Hu Hok Hs) as (gone & Hs' & Hdeaf).
  exists (gone ++ lost ++ [p]), false. destruct Hu as (Hc & He & _).
  eapply settled_loses; [exact Hs'|done|by exists call|done|done|].
  destruct Hsh as [?|Hen]; [left; apply Hdeaf; by right|right]. by destruct He as [->|].
Qed.

(** The stream opens. *)
Lemma settled_opens sent got c c' call st lost ended rest :
  settled sent got c (Came (Opening (so_http call.1.1))) lost ended rest →
  call_of k c = None → call_of k c' = Some call → entry k c' = Some st →
  st_body_tx st = call.1.2 → pending k c' = [] → bodies_ok k c' →
  ∃ lost' ended', settled sent (got ++ read c c') c' Idle lost' ended' rest.
Proof using Type.
  intros [Ha Hn _ _ _ _] Hc Hc' He Hb Hp Hok.
  assert (pending k c = []) as Hp0 by (unfold pending, request_chan, body_of; by rewrite Hc).
  exists [], false. rewrite (Hn Hc). unfold read, front_taken. rewrite Hp0. split; cbn; try done.
  - rewrite Ha. unfold received. rewrite Hc, Hc', Hp. done.
  - intros st' Hst'. split; [intros _|done]. unfold body_of. rewrite Hc'. cbn. congruence.
Qed.

(** A piece enters the channel. *)
Lemma settled_grows sent got c c' l p lost ended rest :
  of_request sent → settled sent got c (Pushing l p) lost ended rest →
  body_of k c = Some l → call_of k c' = call_of k c → entry k c' = entry k c →
  hears k c = true → hears k c' = true → pending k c' = pending k c ++ [p] → bodies_ok k c' →
  ∃ lost' ended', settled sent (got ++ read c c') c' Idle lost' ended' rest.
Proof using Type.
  intros Ho Hs Hb Hc He H1 H2 Hp Hok. pose proof Hs as [Ha Hn Hl Hed Hh _].
  destruct (body_needs_call c l Hb) as [call Ec].
  destruct (arrived_later _ _ _ _ _ _ _ _ _ Ho Hs Ec eq_refl) as [-> _].
  assert (lost = []) as ->.
  { destruct (decide (lost = [])) as [|Hne]; [done|].
    destruct (Hl Hne) as [?|[_ Hpu]]; [congruence|by destruct (Hpu l p)]. }
  pose proof (body_of_call _ _ Hc) as Hbo. exists [], false.
  unfold read. rewrite Hp, front_taken_grown, app_nil_r. split; try done.
  - rewrite Ha. unfold received. rewrite Hc, Ec, Hp. cbn. f_equal. by rewrite pieces_snoc, <- !app_assoc.
  - by rewrite Hc.
  - rewrite He, Hbo. done.
Qed.

(** The end arrives. *)
Lemma settled_ends sent got c c' lost ended rest :
  of_request sent → settled sent got c (Came Finish) lost ended rest →
  call_of k c' = call_of k c → hears k c' = hears k c → pending k c' = pending k c →
  (entry k c = None ∧ entry k c' = None ∨
   entry k c ≠ None ∧ ∃ st, entry k c' = Some st ∧ body_of k c' ≠ Some (st_body_tx st)) →
  bodies_ok k c' →
  ∃ lost' ended', settled sent (got ++ read c c') c' Idle lost' ended' rest.
Proof using Type.
  intros Ho Hs Hc Hhe Hp He Hok. pose proof Hs as [Ha Hn Hl Hed Hh _].
  destruct (call_of k c) as [call|] eqn:Ec; cycle 1.
  { destruct (arrived_first _ _ _ _ _ _ _ Ho Hs Ec) as [h ?]. done. }
  destruct (arrived_later _ _ _ _ _ _ _ _ _ Ho Hs Ec eq_refl) as [-> _].
  exists lost, true. unfold read. rewrite Hhe, Hp, front_taken_same, app_nil_r. split; try done.
  - rewrite Ha. unfold received. rewrite Hc, Ec, Hp. cbn. by rewrite app_nil_r, <- app_assoc.
  - by rewrite Hc.
  - intros Hne. destruct (Hl Hne) as [?|[Hen _]]; [left; congruence|right]. split; [|done].
    by destruct He as [[_ ?]|[? _]].
  - intros st Hst. split; [done|]. destruct He as [[_ ?]|(_ & st' & ? & ?)]; congruence.
Qed.

Lemma settled_take sent got c c' n n' lost ended rest :
  of_request sent → takes k n c n' c' → settled sent got c n lost ended rest →
  ∃ lost' ended', settled sent (got ++ read c c') c' n' lost' ended' rest.
Proof using Type.
  intros Ho Ht Hs. pose proof Hs as [Ha Hn Hl Hed Hh Hok].
  destruct Ht as [Hok' Hstep]; [intros ->; exact Hh|done|].
  destruct Hstep as [n Hu|call st Hc Hc' He' Hb Hp|h Hc|p st He Hb Hu|p st He Hb|p He Hu|l Hb Hu
    |l p Hb Hc He H1 H2 Hp|l p Hb Hd Hu|l p Hb|l Hu|l Hb|Hc Hhe Hp He].
  - eapply settled_holds; [exact Hs|done| |done|done|by left]. apply Hok'. by intros ->.
  - eapply settled_opens; [exact Hs|done..|by apply Hok'].
  - destruct (call_of k c) as [call|] eqn:Ec; [|done].
    destruct (arrived_later _ _ _ _ _ _ _ _ _ Ho Hs Ec eq_refl) as [_ Hno]. by destruct (Hno h).
  - eapply settled_holds; [exact Hs|done|by apply Hok'|done|done|]. intros l q [= <- <-]. right. congruence.
  - destruct (call_of k c) as [call|] eqn:Ec; [|by rewrite (bo_none k c Hok Ec) in He].
    destruct (arrived_later _ _ _ _ _ _ _ _ _ Ho Hs Ec eq_refl) as [-> _].
    destruct Hb. by apply (Hed st He).
  - destruct (call_of k c) as [call|] eqn:Ec; cycle 1.
    { destruct (arrived_first _ _ _ _ _ _ _ Ho Hs Ec) as [h ?]. done. }
    eapply settled_drops; [done|exact Hs|done|by apply Hok'|by exists call|done|by right].
  - eapply settled_holds; [exact Hs|done|by apply Hok'|done..].
  - eapply settled_grows; [done|exact Hs|done..|by apply Hok'].
  - destruct (body_needs_call c l Hb) as [call Ec].
    eapply settled_drops; [done|exact Hs|done|by apply Hok'|by exists call|done|by left].
  - done.
  - eapply settled_holds; [exact Hs|done|by apply Hok'|done..].
  - done.
  - eapply settled_ends; [done|exact Hs|done..|by apply Hok'].
Qed.
End accounts.

(** ** Histories

    A run, with the frames the edge has queued for the agent since the session was
    accepted, and the bytes that were read from the channel of the request's body. *)
Section histories.
Context `{Tokio} `{MapIteration} `{HttpCrate} `{Rng}.
Context {R : Type} `{RegistryOps R} {A : Type} `{AuthProvider A} {U : Type}.
Notation AppState := (AppState (R:=R) (A:=A)).
Context (health_json : HealthResponse → str → str) (tunnels_json : list SessionSnapshot → str).
Context (duration_debug : Z → str).
Context (parse_uri : str → option Uri) (upstream : Request → result (Response (EdgeBody U)) str).
Context (public : Request → Prop).
Context (valid_method valid_uri : str → bool) (http_error : BuildError → str).
Context (local_service : LocalRequest → result LocalResponse str) (options : AgentOptions).
Context (i l : nat).

Notation Link := (Link (R:=R) (A:=A)).
Notation link_step := (link_step health_json tunnels_json duration_debug parse_uri upstream public
  valid_method valid_uri http_error local_service options i).
Notation k := (stream_no l).
Notation given_up := (λ _ _, True) (only parsing).
Notation rested := (λ _ n, n = Idle ∨ n = Mixed) (only parsing).
Notation edge_due := (account_at i (due public k)) (only parsing).

(** The queue of session [i], and what was added to it. *)
Definition edge_queue (s : AppState) : list (result ServerFrame Status) :=
  from_option frame_queue [] (session_objs s !! i).
Definition queued_by_edge (s s' : AppState) : list (result ServerFrame Status) :=
  drop (length (edge_queue s)) (edge_queue s').

Inductive upload_history (σ0 : Link) : Link → list (result ServerFrame Status) → list str → Prop :=
| upload_start : upload_history σ0 σ0 (edge_queue (edge σ0)) []
| upload_step σ σ' sent got :
    upload_history σ0 σ sent got → link_step σ σ' →
    upload_history σ0 σ' (sent ++ queued_by_edge (edge σ) (edge σ')) (got ++ read k (agent σ) (agent σ')).

Lemma upload_history_run σ0 σ sent got : upload_history σ0 σ sent got → rtc link_step σ0 σ.
Proof using Type. induction 1 as [|σ σ' sent got _ IH Hs]; [done|]. by eapply rtc_r. Qed.

Abbreviation payer := (debtor * task AppState unit)%type.
Definition owing (p : payer) : Z := match p.1 with Owing _ => 1 | Waiting => 0 end.

Lemma owing_nonneg p : (0 ≤ owing p)%Z.
Proof using Type. unfold owing. by destruct p.1. Qed.

(** The edge's side: one request has the stream, and its task, if it is still there,
    owes the rest of it. *)
Definition requesting (x : Session) (ps : list payer) (sent : list item) : Prop :=
  (sum_of owing ps ≤ if decide (l < length (stream_objs x))%nat then 1 else 0)%Z ∧
  (sent = [] ∧ Forall (λ p : payer, p.1 = Waiting) ps ∨
   (l < length (stream_objs x))%nat ∧ ∃ req rest, public req ∧ sent ++ rest = request_items req ∧
     Forall (λ p : payer, ∀ r, p.1 = Owing r → r = rest) ps).

Lemma requesting_of x ps sent : requesting x ps sent → of_request sent.
Proof using Type. intros [_ [[-> _]|(_ & req & rest & _ & Hr & _)]]; [by left|right; eauto]. Qed.

Lemma requesting_objs x x' ps sent :
  length (stream_objs x) ≤ length (stream_objs x') → requesting x ps sent → requesting x' ps sent.
Proof using Type.
  intros Hl [Hc Hr]. split; [repeat case_decide; lia|]. destruct Hr as [?|(? & ?)]; [by left|right].
  split; [lia|done].
Qed.

Lemma requesting_starts x ps sent t : requesting x ps sent → requesting x (ps ++ [(Waiting, t)]) sent.
Proof using Type.
  intros [Hc Hr]. split; [rewrite sum_of_app; cbn; lia|].
  destruct Hr as [[-> Hw]|(Hl & req & rest & ? & ? & Hd)]; [left|right].
  - split; [done|]. apply Forall_app. by split; [|repeat constructor].
  - split; [done|]. exists req, rest. split_and!; [done..|]. apply Forall_app. by split; [|repeat constructor].
Qed.

Lemma requesting_drops x ps sent j : requesting x ps sent → requesting x (delete j ps) sent.
Proof using Type.
  intros [Hc Hr]. split.
  { pose proof (sum_of_delete owing ps j (Forall_true _ _ owing_nonneg)). lia. }
  destruct Hr as [[-> Hw]|(Hl & req & rest & ? & ? & Hd)]; [left|right].
  - split; [done|]. by apply Forall_delete.
  - split; [done|]. exists req, rest. split_and!; [done..|]. by apply Forall_delete.
Qed.

Lemma requesting_works x x' ps sent j n t n' t' its :
  ps !! j = Some (n, t) → session_wf x → bounded x' → rtc session_step x x' →
  due_step public k x x' n n' → adds k x x' its →
  requesting x ps sent → requesting x' (<[j := (n', t')]> ps) (sent ++ its).
Proof using Type.
  intros Hj Hwf Hb Hs Hd Ha [Hc Hr]. pose proof (steps_objs _ _ Hs) as Hlen.
  pose proof (sum_of_insert owing ps j _ (n', t') Hj) as Hsum.
  assert (∀ its', adds k x x' its' → its' = its) as Hits.
  { intros its' (fs & Hq & <-). destruct Ha as (gs & Hq' & <-). rewrite Hq in Hq'. by apply app_inv_head in Hq' as ->. }
  destruct Hd as [n Hn|req Hreq Hk ->|paid rest0 Hp].
  - rewrite <- (Hits [] Hn), app_nil_r. unfold owing in Hsum at 2 4. cbn in Hsum.
    apply (requesting_objs x); [done|]. split; [lia|].
    destruct Hr as [[-> Hw]|(Hl & req & rest & ? & ? & Hf)]; [left|right].
    + split; [done|]. apply Forall_insert; [done|]. exact (proj1 (Forall_lookup _ _) Hw j _ Hj).
    + split; [done|]. exists req, rest. split_and!; [done..|]. apply Forall_insert; [done|].
      exact (proj1 (Forall_lookup _ _) Hf j _ Hj).
  - assert (length (stream_objs x) = l) as Hl.
    { destruct Hwf as [Hnext _ _ _ _]. unfold bounded in Hb. unfold stream_no in Hk. simpl in Hb.
      rewrite length_app in Hb. simpl in Hb. rewrite Z.mod_small in Hnext by lia. lia. }
    assert (its = []) as -> by (symmetry; apply Hits; exists []; by rewrite app_nil_r).
    rewrite decide_False in Hc by lia.
    destruct Hr as [[-> Hw]|(? & _)]; [|lia]. cbn [app]. unfold requesting.
    rewrite decide_True by (simpl; rewrite length_app; simpl; lia).
    unfold owing in Hsum at 2 4. cbn in Hsum. split; [lia|]. right.
    split; [simpl; rewrite length_app; simpl; lia|]. exists req, (request_items req).
    split_and!; [done..|]. apply Forall_insert; [|by intros r [= <-]].
    eapply Forall_impl; [exact Hw|]. intros p -> r ?. done.
  - rewrite (Hits paid Hp) in *. unfold owing in Hsum at 2 4. cbn in Hsum.
    destruct Hr as [[_ Hw]|(Hl & req & rest & ? & Hsent & Hf)].
    { by pose proof (proj1 (Forall_lookup _ _) Hw j _ Hj). }
    pose proof (proj1 (Forall_lookup _ _) Hf j _ Hj _ eq_refl) as <-.
    rewrite decide_True in Hc by done. unfold requesting. rewrite decide_True by lia.
    split; [lia|]. right. split; [lia|]. exists req, rest0.
    split_and!; [done|by rewrite <- app_assoc|]. apply Forall_lookup.
    intros j' p' [(<- & <- & _)|[Hne Hj']]%list_lookup_insert_Some r Hr; [by injection Hr|].
    destruct Hne. eapply (sum_of_one owing ps j j'); [apply owing_nonneg|lia|done|done|done|].
    unfold owing. by rewrite Hr.
Qed.

Record in_order (σ : Link) (sent : list (result ServerFrame Status)) (got : list str) (x : Session)
    (n : taking) (ps : list payer) : Prop := {
  ord_object : session_objs (edge σ) !! i = Some x;
  ord_agent_reader : follows (takes k) rested n (agent_reader σ);
  ord_agent_tasks : Forall (obeys (mild k)) (agent_tasks σ);
  ord_edge_reader : quiet_task i k (edge_reader σ);
  ord_edge_tasks : edge_tasks σ = ps.*2;
  ord_payers : Forall (λ p : payer, follows edge_due given_up p.1 p.2) ps;
  ord_rest : bounded x → session_wf x ∧ requesting x ps (queued_items k sent) ∧
    ∃ lost ended, settled k (queued_items k sent) got (agent σ) n lost ended
                    (items_of k (to_agent σ) ++ queued_items k (frame_queue x));
}.

Notation order a h ts g s r ns up down := (in_order (mkLink a h ts g s r ns up down)) (only parsing).

Lemma edge_queue_at s x : session_objs s !! i = Some x → edge_queue s = frame_queue x.
Proof using Type. unfold edge_queue. by intros ->. Qed.

(** A step on the agent's side. *)
Lemma order_agent a h ts g s r ns up down sent got x n ps a' h' ts' g' up' down' n' :
  order a h ts g s r ns up down sent got x n ps →
  follows (takes k) rested n' h' → Forall (obeys (mild k)) ts' →
  (∀ lost ended q, of_request (queued_items k sent) →
     settled k (queued_items k sent) got a n lost ended (items_of k down ++ q) →
     ∃ lost' ended', settled k (queued_items k sent) (got ++ read k a a') a' n' lost' ended'
                       (items_of k down' ++ q)) →
  order a' h' ts' g' s r ns up' down' (sent ++ queued_by_edge s s) (got ++ read k a a') x n' ps.
Proof using Type.
  intros [Hx Hh Hts Hr Hns Hps Hrest] Hh' Hts' Hset. cbn in *.
  unfold queued_by_edge. rewrite drop_all, app_nil_r. split; cbn; try done.
  intros Hb. destruct (Hrest Hb) as (Hwf & Hreq & lost & ended & Hs). split_and!; [done..|].
  eapply Hset; [by eapply requesting_of|exact Hs].
Qed.

Lemma order_agent_mild a h ts g s r ns up down sent got x n ps a' ts' g' up' :
  order a h ts g s r ns up down sent got x n ps → listens k a a' → Forall (obeys (mild k)) ts' →
  order a' h ts' g' s r ns up' down (sent ++ queued_by_edge s s) (got ++ read k a a') x n ps.
Proof using Type.
  intros Ho Ha Hts'. eapply order_agent; [exact Ho|apply (ord_agent_reader _ _ _ _ _ _ Ho)|done|].
  intros lost ended q _ Hs. destruct (settled_listens _ _ _ _ _ _ _ _ _ Ha Hs) as [lost' ?]. eauto.
Qed.

(** A step on the edge's side. *)
Lemma order_edge a h ts g s r ns up down sent got x n ps s' r' up' x' ps' its :
  order a h ts g s r ns up down sent got x n ps →
  session_objs s' !! i = Some x' → rtc session_step x x' → adds k x x' its →
  quiet_task i k r' → Forall (λ p : payer, follows edge_due given_up p.1 p.2) ps' →
  (session_wf x → bounded x' → requesting x ps (queued_items k sent) →
   requesting x' ps' (queued_items k sent ++ its)) →
  order a h ts g s' r' ps'.*2 up' down (sent ++ queued_by_edge s s') (got ++ read k a a) x' n ps'.
Proof using Type.
  intros [Hx Hh Hts Hr Hns Hps Hrest] Hx' Hs (fs & Hq & Hits) Hr' Hps' Hreq. cbn in *.
  unfold read. rewrite front_taken_same, app_nil_r. split; cbn; try done.
  intros Hb'. pose proof (steps_objs _ _ Hs) as Hl.
  assert (bounded x) as Hb by (unfold bounded in *; lia).
  destruct (Hrest Hb) as (Hwf & Hrq & lost & ended & Hset).
  assert (queued_items k (sent ++ queued_by_edge s s') = queued_items k sent ++ its) as ->.
  { unfold queued_by_edge. rewrite (edge_queue_at s x), (edge_queue_at s' x'), Hq by done.
    by rewrite drop_app_length, queued_app, Hits. }
  split_and!; [eapply wf_rtc; [exact Hs|unfold bounded in *; lia|done]|by apply Hreq|].
  exists lost, ended. rewrite Hq, queued_app, Hits, app_assoc. by apply settled_sent.
Qed.

Lemma order_edge_still a h ts g s r ns up down sent got x n ps s' r' up' ps' :
  order a h ts g s r ns up down sent got x n ps → at_session i (still k) s s' →
  quiet_task i k r' → Forall (λ p : payer, follows edge_due given_up p.1 p.2) ps' →
  (∀ sent, requesting x ps sent → requesting x ps' sent) →
  ∃ x', order a h ts g s' r' ps'.*2 up' down (sent ++ queued_by_edge s s') (got ++ read k a a) x' n ps'.
Proof using Type.
  intros Ho Hs Hr Hps Hreq. destruct (Hs x (ord_object _ _ _ _ _ _ Ho)) as (x' & Hx' & Hxx & Ha).
  exists x'. eapply order_edge; [exact Ho|done..|]. intros _ _ Hrq. rewrite app_nil_r.
  eapply requesting_objs; [by apply steps_objs|by apply Hreq].
Qed.

Lemma still_same s : at_session (R:=R) (A:=A) i (still k) s s.
Proof using Type. intros x Hx. exists x. split; [done|apply still_refl]. Qed.

Lemma due_adds x x' n n' : due_step public k x x' n n' → ∃ its, adds k x x' its.
Proof using Type.
  intros [m Ha|req _ _ ->|its rest Ha]; [eauto|..|eauto]. exists [], []. by rewrite app_nil_r.
Qed.

(** A frame reaches the agent. *)
Lemma order_arrives a ts g s r ns up f down sent got x n ps :
  order a (Ret true) ts g s r ns up (f :: down) sent got x n ps →
  order a (from_option (handle_server_frame options) (Ret true) f) ts g s r ns up down
    (sent ++ queued_by_edge s s) (got ++ read k a a) x (came k f) ps.
Proof using Type.
  intros Ho. pose proof (ord_agent_reader _ _ _ _ _ _ Ho) as Hh.
  eapply order_agent; [exact Ho| |apply (ord_agent_tasks _ _ _ _ _ _ Ho)|].
  - destruct f as [payload|]; [apply takes_frame|by left].
  - intros lost ended q _ [Ha Hc Hl Hed Hhand Hok]. exists lost, ended. unfold read.
    rewrite front_taken_same, app_nil_r. cbn [agent_reader] in Hh. destruct Hh as [->| ->]; [|done].
    cbn [items_of omap list_omap] in Ha. unfold came. destruct (item_of k f); split; try done;
      intros Hne; (destruct (Hl Hne) as [?|[? _]]; [by left|by right]).
Qed.

(** A task of the edge runs. *)
Lemma order_pays a h ts g s r ns up down sent got x n ps j t s' t' :
  order a h ts g s r ns up down sent got x n ps → ns !! j = Some t → poll t s = Some (s', t') →
  ∃ x' ps', order a h ts g s' r (<[j := t']> ns) up down (sent ++ queued_by_edge s s')
              (got ++ read k a a) x' n ps'.
Proof using Type.
  intros Ho Hj Hp. pose proof (ord_object _ _ _ _ _ _ Ho) as Hx. pose proof (ord_payers _ _ _ _ _ _ Ho) as Hps.
  pose proof (ord_edge_tasks _ _ _ _ _ _ Ho) as Hns. pose proof (ord_edge_reader _ _ _ _ _ _ Ho) as Hr. cbn in *.
  subst ns. rewrite list_lookup_fmap in Hj. apply fmap_Some in Hj as ([m t0] & Hj & ->).
  pose proof (proj1 (Forall_lookup _ _) Hps j _ Hj) as Hfol. cbn [fst snd] in *.
  destruct (follows_poll _ _ _ _ _ _ _ Hfol Hp) as (m' & Hd & Hfol').
  destruct (Hd x Hx) as (x' & Hx' & Hst & Hdue). destruct (due_adds _ _ _ _ Hdue) as [its Ha].
  exists x', (<[j := (m', t')]> ps).
  replace (<[j := t']> ps.*2) with ((<[j := (m', t')]> ps).*2) by by rewrite list_fmap_insert.
  eapply order_edge; [exact Ho|done..| |].
  - by apply Forall_insert.
  - intros Hwf Hb. by eapply requesting_works.
Qed.

(** A frame leaves the edge. *)
Lemma order_emits a h ts g s r ns up down sent got x n ps o f :
  order a h ts g s r ns up down sent got x n ps → ch_recv (outbound x) = Some (o, Some (Ok f)) →
  order a h ts g (put_session i (with_outbound o x) s) r ns up (down ++ [f])
    (sent ++ queued_by_edge s (put_session i (with_outbound o x) s)) (got ++ read k a a)
    (with_outbound o x) n ps.
Proof using Type.
  intros Ho Hf. pose proof (ord_object _ _ _ _ _ _ Ho) as Hx. cbn in Hx.
  pose proof (recv_front _ _ _ Hf) as Hq. change (frame_queue x = Ok f :: frame_queue (with_outbound o x)) in Hq.
  assert (session_objs (put_session i (with_outbound o x) s) !! i = Some (with_outbound o x)) as Hx'
    by by apply (put_session_get i s x).
  unfold queued_by_edge, read. rewrite (edge_queue_at s x), (edge_queue_at _ _ Hx'), Hq by done.
  rewrite drop_ge, front_taken_same, !app_nil_r by (simpl; lia).
  destruct Ho as [_ Hh Hts Hr Hns Hps Hrest]. split; try done. intros Hb.
  destruct (Hrest Hb) as (Hwf & Hreq & lost & ended & Hset). cbn [agent to_agent] in *.
  split_and!; [by apply (wf_quiet x), Hwf; eapply quiet_recv|done|]. exists lost, ended.
  rewrite Hq in Hset. rewrite items_app, <- app_assoc. cbn in Hset |- *. by destruct (item_of k f).
Qed.

Lemma step_in_order σ σ' sent got :
  link_step σ σ' → (∃ x n ps, in_order σ sent got x n ps) →
  ∃ x n ps, in_order σ' (sent ++ queued_by_edge (edge σ) (edge σ'))
              (got ++ read k (agent σ) (agent σ')) x n ps.
Proof using Type.
  intros Hs (x & n & ps & Ho).
  pose proof (ord_object _ _ _ _ _ _ Ho) as Hx. pose proof (ord_agent_reader _ _ _ _ _ _ Ho) as Hh.
  pose proof (ord_agent_tasks _ _ _ _ _ _ Ho) as Hts. pose proof (ord_edge_reader _ _ _ _ _ _ Ho) as Hr.
  pose proof (ord_edge_tasks _ _ _ _ _ _ Ho) as Hns. pose proof (ord_payers _ _ _ _ _ _ Ho) as Hps.
  destruct Hs as [a ts g s r ns up f down|a h ts g s r ns up down a' h' Hp
    |a h ts g s r ns up down open body credit Hsp|a h ts g s r ns up down j t a' t' Hj Hp
    |a h ts g s r ns up down j|a h ts g s r ns up down a' Hhost|a h ts g s r ns up down o f Hf
    |a h ts g s ns f up down|a h ts g s r ns up down s' r' Hp|a h ts g s r ns up down t Ht
    |a h ts g s r ns up down j t s' t' Hj Hp|a h ts g s r ns up down j
    |a h ts g s r ns up down y o f Hy Hf];
    cbn [agent edge agent_reader agent_tasks agent_started edge_reader edge_tasks] in *.
  - exists x, (came k f), ps. by eapply order_arrives.
  - destruct (follows_poll _ _ _ _ _ _ _ Hh Hp) as (n' & Ht & Hh').
    exists x, n', ps. eapply order_agent; [exact Ho|done..|]. intros lost ended q Hof Hset.
    by eapply settled_take.
  - exists x, n, ps. eapply order_agent_mild; [exact Ho|apply mild_listens, mild_refl|].
    apply Forall_app. split; [done|]. constructor; [apply mild_serve|done].
  - destruct (obeys_poll _ _ _ _ _ (proj1 (Forall_lookup _ _) Hts j t Hj) Hp) as [Hm Ht'].
    exists x, n, ps. eapply order_agent_mild; [exact Ho|by apply mild_listens|by apply Forall_insert].
  - exists x, n, ps. eapply order_agent_mild; [exact Ho|apply mild_listens, mild_refl|by apply Forall_delete].
  - exists x, n, ps. eapply order_agent_mild; [exact Ho|by apply listens_host|done].
  - exists x, n, ps. eapply order_agent_mild; [exact Ho|by apply mild_listens, mild_same|done].
  - subst ns. destruct (order_edge_still _ _ _ _ _ _ _ _ _ _ _ _ _ _ s (handle_client_frame i f) up ps Ho)
      as [x' Ho']; [apply still_same|apply quiet_frame|done|done|]. by exists x', n, ps.
  - destruct (obeys_poll _ _ _ _ _ Hr Hp) as [Hst Hr']. subst ns.
    destruct (order_edge_still _ _ _ _ _ _ _ _ _ _ _ _ _ _ s' r' up ps Ho) as [x' Ho']; [done..|].
    by exists x', n, ps.
  - subst ns. destruct (order_edge_still _ _ _ _ _ _ _ _ _ _ _ _ _ _ s r up (ps ++ [(Waiting, t)]) Ho)
      as [x' Ho']; [apply still_same|done| |intros ?; apply requesting_starts|].
    + apply Forall_app. split; [done|]. constructor; [by eapply due_node_task|done].
    + exists x', n, (ps ++ [(Waiting, t)]). by rewrite fmap_app in Ho'.
  - destruct (order_pays _ _ _ _ _ _ _ _ _ _ _ _ _ _ _ _ _ _ Ho Hj Hp) as (x' & ps' & ?). by exists x', n, ps'.
  - subst ns. destruct (order_edge_still _ _ _ _ _ _ _ _ _ _ _ _ _ _ s r up (delete j ps) Ho)
      as [x' Ho']; [apply still_same|done|by apply Forall_delete|intros ?; apply requesting_drops|].
    exists x', n, (delete j ps). by rewrite list_fmap_delete in Ho'.
  - exists (with_outbound o y), n, ps. rewrite Hx in Hy. injection Hy as <-. by eapply order_emits.
Qed.

Lemma start_in_order σ :
  link_start i σ → ∃ x n ps, in_order σ (edge_queue (edge σ)) [] x n ps.
Proof using Type.
  intros (Har & Hat & _ & Her & Het & _ & Hta & Hsp & _ & Hst & _ & x & Hx & Hwf & Ho & Hq).
  assert (queued_items k (frame_queue x) = []) as Hno.
  { apply queued_none. eapply Forall_impl; [exact Hq|]. apply creditless_no_item. }
  exists x, Idle, []. rewrite (edge_queue_at _ x) by done.
  split; rewrite ?Har, ?Hat, ?Her, ?Het; try done; [by left|]. intros _. split; [done|]. split.
  { split; [cbn; case_decide; lia|]. by left. }
  assert (call_of k (agent σ) = None) as Hc by (unfold call_of, call_for; by rewrite Hsp).
  assert (entry k (agent σ) = None) as He by (unfold entry; by rewrite Hst).
  exists [], false. rewrite Hno, Hta. split; try done.
  - unfold received. by rewrite Hc.
  - intros st. by rewrite He.
  - split; [intros id ?; by rewrite Hst|unfold body_of; by rewrite Hc|done].
Qed.

Lemma history_in_order σ0 σ sent got :
  link_start i σ0 → upload_history σ0 σ sent got → ∃ x n ps, in_order σ sent got x n ps.
Proof using Type.
  intros Hst Hh. induction Hh as [|σ σ' sent got Hh IH Hs]; [by apply start_in_order|].
  by apply step_in_order.
Qed.

(** The one call of the stream. *)
Lemma call_of_only c call :
  (calls_made k c ≤ 1)%Z → call ∈ ctx_spawned c → so_stream_id call.1.1 = k → call_of k c = Some call.
Proof using Type.
  intros Hone [j Hj]%list_elem_of_lookup Hid. unfold call_of, call_for.
  destruct (filter (λ call, so_stream_id call.1.1 = k) (ctx_spawned c)) as [|call' calls] eqn:E.
  - assert (call ∈ filter (λ call, so_stream_id call.1.1 = k) (ctx_spawned c)) as Hin
      by (apply list_elem_of_filter; split; [done|by eapply list_elem_of_lookup_2]).
    rewrite E in Hin. by apply not_elem_of_nil in Hin.
  - assert (call' ∈ filter (λ call, so_stream_id call.1.1 = k) (ctx_spawned c)) as Hin by (rewrite E; left).
    apply list_elem_of_filter in Hin as [Hid' [j' Hj']%list_elem_of_lookup].
    assert (j = j') as <-; [|by rewrite Hj in Hj'; injection Hj' as ->].
    eapply (sum_of_one (call_token k)); [apply call_nonneg|exact Hone|done..| |];
      unfold call_token; by rewrite decide_True.
Qed.

Lemma pieces_injective (ps qs : list str) : Piece <$> ps = Piece <$> qs → ps = qs.
Proof using Type. apply list_fmap_eq_inj. by intros x y [= ->]. Qed.

Lemma pieces_prefix ps qs (e : bool) more :
  (Piece <$> ps) ++ more = (Piece <$> qs) ++ (if e then [Finish] else []) → ps `prefix_of` qs.
Proof using Type.
  revert qs. induction ps as [|p ps IH]; intros qs Hp; [apply prefix_nil|].
  destruct qs as [|q qs]; [by destruct e|]. injection Hp as -> Hp. by apply prefix_cons, IH.
Qed.

(** What an account of a request's beginning says of its body. *)
Lemma received_body req sent got c n lost ended rest owed call :
  sent ++ owed = request_items req → call_of k c = Some call → settled k sent got c n lost ended rest →
  so_http call.1.1 = Some (request_head req) ∧ concat got `prefix_of` body_bytes (req_body req) ∧
  (ended = true → concat (got ++ pending k c ++ lost) = body_bytes (req_body req) ∧ body_ended (req_body req) = true).
Proof using Type.
  intros Hr Hc [-> _ _ _ _ _]. unfold received in Hr. rewrite Hc in Hr. cbn in Hr.
  injection Hr as Hh Hr. rewrite <- !app_assoc in Hr. unfold body_items in Hr. split; [done|].
  rewrite <- body_pieces_concat. split.
  - apply pieces_prefix in Hr as [tail ->]. rewrite !concat_app, <- app_assoc. by apply prefix_app_r.
  - intros ->. destruct (body_items_follow _ _ _ _ _ Hr) as [[p ?]|(_ & Hn & He)]; [done|].
    rewrite He in Hr |- *. rewrite Hn in Hr. apply app_inj_tail in Hr as [Hr _].
    by apply pieces_injective in Hr as ->.
Qed.

(** The call of a stream has the head of a request, and its account is that request's. *)
Lemma history_asked σ0 σ sent got x call :
  link_start i σ0 → upload_history σ0 σ sent got → session_objs (edge σ) !! i = Some x → bounded x →
  call ∈ ctx_spawned (agent σ) → so_stream_id call.1.1 = k →
  ∃ req n lost ended, call_of k (agent σ) = Some call ∧ public req ∧ so_http call.1.1 = Some (request_head req) ∧
    concat got `prefix_of` body_bytes (req_body req) ∧
    (ended = true → concat (got ++ pending k (agent σ) ++ lost) = body_bytes (req_body req) ∧
                    body_ended (req_body req) = true) ∧
    settled k (queued_items k sent) got (agent σ) n lost ended
      (items_of k (to_agent σ) ++ queued_items k (frame_queue x)).
Proof using Type.
  intros Hst Hh Hx Hb Hin Hid.
  edestruct (run_one_call (U:=U)) as [Hone _]; [exact Hst|by eapply upload_history_run|exact Hx|exact Hb|].
  pose proof (call_of_only _ _ Hone Hin Hid) as Hc.
  destruct (history_in_order _ _ _ _ Hst Hh) as (x' & n & ps & [Hx' _ _ _ _ _ Hrest]).
  rewrite Hx in Hx'. injection Hx' as <-. destruct (Hrest Hb) as (_ & Hreq & lost & ended & Hset).
  destruct Hreq as [_ [[Hno _]|(_ & req & owed & Hpub & Hreq & _)]].
  { pose proof (set_all _ _ _ _ _ _ _ _ Hset) as Ha. unfold received in Ha. by rewrite Hno, Hc in Ha. }
  destruct (received_body _ _ _ _ _ _ _ _ _ _ Hreq Hc Hset) as (Hhead & Hpre & Hend).
  by exists req, n, lost, ended.
Qed.

(** A schedule, recorded. *)
Definition record_upload (h : Link * list (result ServerFrame Status) * list str) (m : move)
  : Link * list (result ServerFrame Status) * list str :=
  let '(σ, sent, got) := h in
  let σ' := link_move health_json tunnels_json duration_debug parse_uri upstream
              valid_method valid_uri http_error local_service options i σ m in
  (σ', sent ++ queued_by_edge (edge σ) (edge σ'), got ++ read k (agent σ) (agent σ')).
Definition uploaded (moves : list move) (σ0 : Link) : Link * list (result ServerFrame Status) * list str :=
  foldl record_upload (σ0, edge_queue (edge σ0), []) moves.

Lemma uploaded_sound moves σ0 :
  Forall (move_ok public) moves →
  upload_history σ0 (uploaded moves σ0).1.1 (uploaded moves σ0).1.2 (uploaded moves σ0).2.
Proof using Type.
  intros Hm. assert (∀ h, upload_history σ0 h.1.1 h.1.2 h.2 →
    upload_history σ0 (foldl record_upload h moves).1.1 (foldl record_upload h moves).1.2
      (foldl record_upload h moves).2) as Hf; [|apply Hf; constructor].
  induction Hm as [|m moves Hm _ IH]; intros [[σ s] g] Hh; [done|]. cbn [foldl]. apply IH.
  cbn [record_upload fst snd] in *.
  destruct (link_move_step health_json tunnels_json duration_debug parse_uri upstream public
    valid_method valid_uri http_error local_service options i m σ Hm) as [He|Hs]; [|by constructor].
  rewrite He. unfold queued_by_edge, read. by rewrite drop_all, front_taken_same, !app_nil_r.
Qed.
End histories.

(** C3: a request reaches the local service as the public client sent it, in any
    interleaving: whatever the tasks of agent and edge do, and whichever are dropped,
    the call the agent makes for a stream has the head of one public request, and
    what the local service read of its body is a prefix of what that client sent, byte
    for byte. While the stream is in the agent's table and its body is read, nothing
    the edge sent is missing: it was read, is in the channel, is in the hands of the
    agent's read loop (one frame at most), or is on its way; and once the agent has
    ended the body, all of the client's body, which did not fail, was read or is in
    the channel. *)
Theorem request_delivered_in_order `{Tokio} `{MapIteration} `{HttpCrate} `{Rng} {R} `{RegistryOps R}
    {A} `{AuthProvider A} {U} health_json tunnels_json duration_debug parse_uri upstream public
    valid_method valid_uri http_error local_service options i l x σ0 σ sent got call :
  link_start i σ0 →
  upload_history (R:=R) (A:=A) (U:=U) health_json tunnels_json duration_debug parse_uri upstream public
    valid_method valid_uri http_error local_service options i l σ0 σ sent got →
  session_objs (edge σ) !! i = Some x → (1 + Z.of_nat (length (stream_objs x)) < 2 ^ 64)%Z →
  call ∈ ctx_spawned (agent σ) → so_stream_id call.1.1 = stream_no l →
  ∃ req, public req ∧ so_http call.1.1 = Some (request_head req) ∧
    concat got `prefix_of` body_bytes (req_body req) ∧
    ∀ st, ctx_streams (agent σ) !! stream_no l = Some st → hears (stream_no l) (agent σ) = true →
      if decide (st_body_tx st = call.1.2) then
        ∃ held, length held ≤ 1 ∧
          queued_items (stream_no l) sent =
            Opening (so_http call.1.1) :: (Piece <$> got ++ pending (stream_no l) (agent σ)) ++ held ++
            items_of (stream_no l) (to_agent σ) ++ queued_items (stream_no l) (frame_queue x)
      else
        concat (got ++ pending (stream_no l) (agent σ)) = body_bytes (req_body req) ∧
        body_ended (req_body req) = true.
Proof.
  intros Hst Hh Hx Hb Hin Hid.
  edestruct (history_asked (U:=U)) as (req & n & lost & ended & Hc & Hpub & Hhead & Hpre & Hend & Hset);
    [exact Hst|exact Hh|exact Hx|exact Hb|exact Hin|exact Hid|].
  exists req. split_and!; [done..|]. intros st Hst' Hhears.
  destruct Hset as [Ha _ Hl Hed _ _].
  assert (lost = []) as ->.
  { destruct (decide (lost = [])) as [|Hne]; [done|].
    destruct (Hl Hne) as [?|[He _]]; [congruence|]. unfold entry in He. congruence. }
  rewrite app_nil_r in Hend. case_decide as Hbt.
  - assert (ended = false) as -> by (apply (Hed st Hst'); unfold body_of; rewrite Hc; cbn; congruence).
    exists (in_hand n). split; [by destruct n; simpl; lia|].
    rewrite Ha. unfold received. by rewrite Hc, !app_nil_r.
  - apply Hend. destruct ended; [done|]. destruct Hbt.
    assert (body_of (stream_no l) (agent σ) = Some (st_body_tx st)) as Hbo by by apply (Hed st).
    unfold body_of in Hbo. rewrite Hc in Hbo. by injection Hbo.
Qed.

(** A client sends "ping", and the local service has read it. *)
Definition upload_moves : list (@move list_http) :=
  demo_moves ++ [AgentTakes] ++ replicate 5 AgentReads ++ [ServiceReads 0].
Definition demo_upload
  : @Link view_tokio MemoryRegistry StaticTokenAuth * list (result ServerFrame Status) * list str :=
  @uploaded view_tokio sorted_iteration list_http modular_rng MemoryRegistry _ StaticTokenAuth unit
    no_json1 no_json2 dec (λ _, None) (λ _, Err (lit "down")) any_text any_text no_http_error
    demo_service demo_options 0 0 upload_moves demo_link.

Lemma request_delivered_in_order_witness :
  demo_upload.2 = [lit "ping"] ∧
  ∃ call, call ∈ ctx_spawned (agent demo_upload.1.1) ∧ so_stream_id call.1.1 = stream_no 0 ∧
    so_http call.1.1 = Some (request_head ping_request) ∧
    concat demo_upload.2 `prefix_of` body_bytes (req_body ping_request).
Proof.
  split; [vm_compute; reflexivity|].
  assert ((λ x, length (@stream_objs view_tokio x)) <$>
    @session_objs view_tokio _ _ (edge demo_upload.1.1) !! 0 = Some 1) as Hl by (vm_compute; reflexivity).
  destruct (@session_objs view_tokio _ _ (edge demo_upload.1.1) !! 0) as [x|] eqn:Hx; [|discriminate Hl].
  injection Hl as Hl.
  assert ((λ call : StreamOpen * nat * nat, so_stream_id call.1.1) <$>
    ctx_spawned (agent demo_upload.1.1) = [stream_no 0]) as Hc by (vm_compute; reflexivity).
  destruct (ctx_spawned (agent demo_upload.1.1)) as [|call calls] eqn:Ec; [discriminate Hc|].
  injection Hc as Hid _. assert (call ∈ ctx_spawned (agent demo_upload.1.1)) as Hin by (rewrite Ec; left).
  exists call. split; [left|]. split; [exact Hid|].
  destruct (@request_delivered_in_order view_tokio sorted_iteration list_http modular_rng MemoryRegistry _
    StaticTokenAuth _ unit no_json1 no_json2 dec (λ _, None) (λ _, Err (lit "down"))
    (λ req, req = ping_request) any_text any_text no_http_error demo_service demo_options 0 0 x demo_link
    demo_upload.1.1 demo_upload.1.2 demo_upload.2 call demo_link_start) as (req & -> & Hh & Hp & _).
  - apply uploaded_sound, Forall_app. split; [by apply demo_moves_ok|by repeat constructor].
  - exact Hx.
  - rewrite Hl. reflexivity.
  - exact Hin.
  - exact Hid.
  - split; [exact Hh|exact Hp].
Defined.
