(* ===== verification/Progress.v ===== *)
(** * Nothing panics, nothing is stuck

    Two things that must not happen to a session, in any interleaving of the tasks
    of an agent and its edge: that a [WindowUpdate] overflows a semaphore, which
    would end the read loop that handles it; and that a read loop waits for what can
    no longer come. *)

From S2P Require Import Prelude RustStr Crates CoreError Routing Auth Ids ServerConfig.
From S2P Require Import Registry MemoryRegistry Async Proto Http Session Control Ingress Node.
From S2P Require Import ClientConfig Agent Link FlowControl.

(** ** How a task may end *)
Definition yields {S R} (Q : R → Prop) (t : task S R) : Prop :=
  follows (λ (_ : unit) (_ : S) (_ : unit) (_ : S), True) (λ r _, Q r) tt t.

Lemma yields_bind {S R R'} (Q : R' → Prop) (t : task S R) (k : R → task S R') :
  (∀ a, yields Q (k a)) → yields Q (task_bind t k).
Proof.
  intros Hk. eapply (follows_bind _ (λ _ _, True)); [|by intros a [] _; apply Hk].
  induction t as [a|f IH] using task_induction; [done|]. apply follows_step. intros s s' t' E.
  exists tt. split; [done|by eapply IH].
Qed.

Lemma yields_helped {S R} (Q : R → Prop) (Hp : S → S → Prop) p p' :
  rtc (helped Hp) p p' → yields Q p.2 → yields Q p'.2.
Proof.
  induction 1 as [p|p p1 p2 Hs _ IH]; [done|]. intros Hy. apply IH.
  destruct Hs as [s s' t Hh|s s' t t' Hpoll]; [done|]. cbn in *. destruct t as [r|f]; [done|].
  specialize (Hy s). cbn in Hpoll. rewrite Hpoll in Hy. by destruct Hy as ([] & _ & ?).
Qed.

Lemma yields_poll {S R} (Q : R → Prop) (t t' : task S R) s s' :
  yields Q t → poll t s = Some (s', t') → yields Q t'.
Proof. intros Ht Hp. destruct (follows_poll _ _ _ _ _ _ _ Ht Hp) as ([] & _ & ?). done. Qed.

(** ** Increments that fit

    Every [WindowUpdate] on its way is for the bytes of one frame. *)
Definition fits (increment : Z) : Prop := (0 ≤ increment ≤ u32_max)%Z.
Definition fits_down (f : result ServerFrame Status) : Prop :=
  match f with
  | Ok (Some (SWindowUpdate _ increment)) => fits increment
  | Ok _ => True
  | Err _ => False
  end.
Definition fits_up (f : ClientFrame) : Prop :=
  match f with Some (CWindowUpdate _ increment) => fits increment | _ => True end.

Lemma creditable_fits f : creditable f → fits_down f.
Proof. by destruct f as [[[]|]|]. Qed.
Lemma creditless_fits f : creditless f → fits_down f.
Proof. by destruct f as [[[]|]|]. Qed.
Lemma creditless_fits_up f : creditless_up f → fits_up f.
Proof. by destruct f as [[]|]. Qed.
#[local] Hint Resolve creditable_fits creditless_fits creditless_fits_up : core.

Lemma fits_length (data : str) : fits (u32_saturate (byte_len data)).
Proof.
  pose proof (byte_len_nonneg data). unfold fits, u32_saturate, u32_max.
  destruct (Z.leb_spec (byte_len data) 4294967295); lia.
Qed.

Section agent_side.
Context `{Tokio} `{HttpCrate}.

(** What the agent queues. *)
Definition posts (P : ClientFrame → Prop) (c c' : SessionCtx) : Prop :=
  ∃ fs, out_queue c' = out_queue c ++ fs ∧ Forall P fs.

Lemma placid_posts P V c c' : placid P V c c' → posts P c c'.
Proof using Type. by intros (_ & _ & _ & Hq). Qed.

Lemma obeys_posts {B} P V (t : task SessionCtx B) : obeys (placid P V) t → obeys (posts P) t.
Proof using Type. apply obeys_weaken. intros c c'. apply placid_posts. Qed.

#[local] Hint Extern 1 (fits_up _) => first [exact I|apply fits_length] : placid.

Lemma posts_frame options payload : obeys (posts fits_up) (handle_server_frame options payload).
Proof using Type.
  destruct payload; cbn [handle_server_frame]; try (apply (obeys_posts _ False); agent_calls; fail).
  - apply obeys_bind; [|done]. apply obeys_modify. intros c. exists []. by rewrite app_nil_r.
  - apply (obeys_posts _ False). unfold on_data. agent_calls.
Qed.

Lemma posts_serve valid_method valid_uri http_error local_service options open body credit :
  obeys (posts fits_up) (serve_stream valid_method valid_uri http_error local_service options open body credit).
Proof using Type.
  apply (obeys_posts _ False), (placid_serve valid_method valid_uri http_error local_service options fits_up
    (open, body, credit)). by intros [[]|].
Qed.
End agent_side.

(** ** A [WindowUpdate] that is handled

    The handler holds what the frame brings; with what is left of the window that is
    at most what was granted, so the semaphore has room for it. *)
Section updates.
Context `{Tokio} `{MapIteration} `{HttpCrate} `{Rng}.
Context {R : Type} `{RegistryOps R} {A : Type} `{AuthProvider A}.
Notation AppState := (AppState (R:=R) (A:=A)).
Notation kept := (λ _ m, 0 ≤ m)%Z.

Lemma add_fits increment w :
  (sem_permits (sem_view w) + increment ≤ MAX_PERMITS)%Z →
  ∃ w', sem_add_permits increment w = Some w' ∧
    sem_permits (sem_view w') = (sem_permits (sem_view w) + increment)%Z.
Proof using Type.
  intros Hle. pose proof (sem_add_view increment w) as Hv. unfold add_permits_spec in Hv.
  destruct (Z.leb_spec (sem_permits (sem_view w) + increment) MAX_PERMITS); [|lia].
  destruct (sem_add_permits increment w) as [w'|]; [|done]. injection Hv as Hv. exists w'. by rewrite Hv.
Qed.

Lemma new_fits increment :
  fits increment → ∃ w', sem_add_permits increment (sem_new 0) = Some w' ∧ sem_permits (sem_view w') = increment.
Proof using Type.
  intros Hf. unfold fits, u32_max in Hf. destruct (add_fits increment (sem_new 0)) as (w' & ? & Hw).
  - rewrite sem_new_view. unfold MAX_PERMITS. simpl. lia.
  - exists w'. split; [done|]. by rewrite Hw, sem_new_view.
Qed.

(** *** The agent *)

(** What the handler holds: into an empty window it could put all of it. *)
Lemma agent_holds k increment n c st :
  ctx_wf c → ctx_streams c !! k = Some st → fits increment → (0 ≤ n)%Z →
  follows (pays (download k) (λ _, True)) kept n (atomic (on_window_update k increment)) → (increment ≤ n)%Z.
Proof using Type.
  intros Hwf Hst Hf Hn Ht. destruct (new_fits increment Hf) as (w' & Ew & Hw').
  destruct (proj2 Hwf k st Hst) as (call & Hc & Hl & Hid).
  destruct (call_at c _ call Hwf Hc Hl) as [_ [w Elw]%lookup_lt_is_Some_2].
  set (c1 := update_credit (st_send_credit st) (λ _, sem_new 0) c).
  assert (ctx_wf c1) as Hwf1 by by apply wf_update_credit.
  assert (ctx_credits c1 !! st_send_credit st = Some (sem_new 0)) as El
    by by cbn; rewrite list_lookup_alter_eq, Elw.
  assert (poll (atomic (on_window_update k increment)) c1 =
    Some (update_credit (st_send_credit st) (λ _, w') c1, Ret true)) as Hp.
  { cbn [poll atomic]. unfold on_window_update. change (ctx_streams c1) with (ctx_streams c).
    by rewrite Hst, El, Ew. }
  destruct (follows_poll _ _ _ _ _ _ _ Ht Hp) as (m & (_ & _ & Hb) & _).
  destruct (Hb Hn) as [Hm Hle]. specialize (Hle Hwf1 I).
  pose proof (window_update k c1 _ (λ _, w') call Hwf1 Hc Hl) as Hu.
  assert (call_window k c1 call = 0%Z) as Hempty.
  { unfold call_window, permits. by rewrite decide_True, Hl, El, sem_new_view by done. }
  assert (call_window k (update_credit (st_send_credit st) (λ _, w') c1) call = increment) as Hfull.
  { unfold call_window, permits. rewrite decide_True, Hl by done. cbn [ctx_credits update_credit ctx_with_streams].
    rewrite list_lookup_alter_eq, El. cbn. rewrite Hw'. unfold fits in Hf. lia. }
  unfold out_queue in Hle. simpl in Hle. lia.
Qed.

Lemma circulating_values (L : Ledger) a x up down :
  (agent_value L a + edge_value L x ≤ circulating L a x up down)%Z.
Proof using Type.
  unfold circulating.
  pose proof (sum_of_nonneg _ (out_queue a) (Forall_true _ _ (up_nonneg L))).
  pose proof (sum_of_nonneg _ up (Forall_true _ _ (up_nonneg L))).
  pose proof (sum_of_nonneg _ down (Forall_true _ _ (down_nonneg L))).
  assert (∀ f, 0 ≤ queued_value L f)%Z as Hq by (intros [f|]; [apply down_nonneg|done]).
  pose proof (sum_of_nonneg _ (frame_queue x) (Forall_true _ _ Hq)). lia.
Qed.

Lemma granted_bound (L : Ledger) W k x : worth L W = Z.max 0 W → (0 ≤ W ≤ u32_max)%Z → (granted L W k x ≤ u32_max)%Z.
Proof using Type. intros HL HW. unfold granted. rewrite HL. case_decide; unfold u32_max in *; lia. Qed.

Lemma agent_room k increment n c x up down :
  ctx_wf c → fits increment → (0 ≤ n)%Z →
  follows (pays (download k) (λ _, True)) kept n (atomic (on_window_update k increment)) →
  (n + circulating (download k) c x up down ≤ u32_max)%Z →
  (on_window_update k increment c).2 = true.
Proof using Type.
  intros Hwf Hf Hn Ht Hle. unfold on_window_update.
  destruct (ctx_streams c !! k) as [st|] eqn:Est; [|done].
  destruct (ctx_credits c !! st_send_credit st) as [w|] eqn:Ew; [|done].
  pose proof (agent_holds k increment n c st Hwf Est Hf Hn Ht) as Hi.
  destruct (proj2 Hwf k st Est) as (call & Hc & Hl & Hid).
  destruct (add_fits increment w) as (w' & -> & _); [|done].
  pose proof (circulating_values (download k) c x up down) as Hv.
  assert (call_window k c call ≤ window_left k c)%Z as Hs.
  { apply (sum_of_elem (call_window k c)); [|done]. intros y. unfold call_window. case_decide; lia. }
  unfold call_window, permits in Hs. rewrite decide_True, Hl, Ew in Hs by done. simpl in *.
  unfold u32_max, MAX_PERMITS in *. lia.
Qed.

(** *** The edge *)
Definition edge_update (i : nat) (k increment : Z) : task AppState bool :=
  on_session i (atomic (λ x, match Session.on_window_update k increment x with
                             | Some x' => (x', true)
                             | None => (x, false)
                             end)).

Lemma edge_update_poll i k increment (s : AppState) x :
  session_objs s !! i = Some x →
  poll (edge_update i k increment) s =
  match Session.on_window_update k increment x with
  | Some x' => Some (put_session i x' s, Ret true)
  | None => Some (put_session i x s, Ret false)
  end.
Proof using Type.
  intros Hx. cbn. change (session_objs s !! i) with (session_objs s !! i). rewrite Hx.
  by destruct (Session.on_window_update k increment x).
Qed.

Lemma edge_holds i W k increment n (s : AppState) x l st :
  session_objs s !! i = Some x → session_wf x → bounded x → initial_window x = W →
  streams x !! k = Some l → stream_objs x !! l = Some st → fits increment → (0 ≤ n)%Z →
  follows (account_at i (grants (upload k) W k)) kept n (edge_update i k increment) → (increment ≤ n)%Z.
Proof using Type.
  intros Hx Hwf Hb HW Hk Hl Hf Hn Ht. destruct (new_fits increment Hf) as (w' & Ew & Hw').
  destruct (wf_ids x Hwf k l Hk) as [Hlt Hid]. destruct (wf_objs x Hwf l st Hl) as [(_ & Hcl & _) Hop].
  rewrite <- Hid in Hop. apply Hop in Hk as Hopen.
  set (x1 := update_stream l (with_credit (sem_new 0)) x).
  assert (quiet x x1) as Hq.
  { apply quiet_update. intros st' [= <-]%(eq_trans (eq_sym Hl)). apply evolves_credit.
    by rewrite sem_new_view, Hcl, Hopen. }
  assert (stream_objs x1 !! l = Some (with_credit (sem_new 0) st)) as Hl1
    by by cbn; rewrite list_lookup_alter_eq, Hl.
  set (x2 := update_stream l (with_credit w') x1).
  assert (Session.on_window_update k increment x1 = Some x2) as Hu.
  { unfold Session.on_window_update. change (streams x1) with (streams x). rewrite Hk, Hl1. cbn. by rewrite Ew. }
  assert (session_objs (put_session i x1 s) !! i = Some x1) as Hx1 by by apply (put_session_get i s x).
  pose proof (edge_update_poll i k increment _ x1 Hx1) as Hp. rewrite Hu in Hp.
  destruct (follows_poll _ _ _ _ _ _ _ Ht Hp) as (m & Hg & _).
  destruct (Hg x1 Hx1) as (y & Hy & _ & Hgr). assert (y = x2) as ->.
  { rewrite (put_session_get i (put_session i x1 s) x1 x2 Hx1) in Hy. by injection Hy. }
  destruct (Hgr Hn) as [Hm Hle].
  assert (bounded x2) as Hb2 by (unfold bounded, x2, x1 in *; cbn; by rewrite !length_alter).
  specialize (Hle (wf_quiet _ _ Hq Hwf) HW Hb2). change (frame_queue x2) with (frame_queue x1) in Hle.
  assert (granted (upload k) W k x2 = granted (upload k) W k x1) as Hgg
    by (unfold granted, x2; cbn; by rewrite length_alter).
  rewrite Hgg in Hle. simpl in Hle. unfold upload_window in Hle. rewrite !decide_True in Hle by lia.
  assert (Z.to_nat (k - 1) = l) as Hkl by lia. rewrite Hkl in Hle. unfold x2 in Hle.
  rewrite upload_credit_update, Hl1 in Hle.
  rewrite decide_True in Hle by done. unfold upload_credit in Hle. rewrite Hl1 in Hle.
  unfold stream_credit in Hle. cbn in Hle. rewrite sem_new_view, Hw' in Hle. simpl in Hle.
  unfold fits in Hf. lia.
Qed.

Lemma edge_room i W k increment n (s : AppState) x a up down :
  session_objs s !! i = Some x → session_wf x → bounded x → initial_window x = W →
  fits increment → (0 ≤ n)%Z →
  follows (account_at i (grants (upload k) W k)) kept n (edge_update i k increment) →
  (n + circulating (upload k) a x up down ≤ u32_max)%Z →
  is_Some (Session.on_window_update k increment x).
Proof using Type.
  intros Hx Hwf Hb HW Hf Hn Ht Hle. unfold Session.on_window_update.
  destruct (streams x !! k) as [l|] eqn:Hk; [|done].
  destruct (stream_objs x !! l) as [st|] eqn:Hl; [|done].
  pose proof (edge_holds i W k increment n s x l st Hx Hwf Hb HW Hk Hl Hf Hn Ht) as Hi.
  destruct (wf_ids x Hwf k l Hk) as [_ Hid].
  destruct (add_fits increment (send_credit st)) as (w' & -> & _); [|done].
  pose proof (circulating_values (upload k) a x up down) as Hv. simpl in Hv.
  unfold upload_window in Hv. rewrite decide_True in Hv by lia.
  assert (Z.to_nat (k - 1) = l) as Hkl by lia. rewrite Hkl in Hv.
  unfold upload_credit in Hv. rewrite Hl in Hv. unfold stream_credit in Hv.
  unfold u32_max, MAX_PERMITS in *. lia.
Qed.
End updates.

(** ** Runs *)
Section runs.
Context `{Tokio} `{MapIteration} `{HttpCrate} `{Rng}.
Context {R : Type} `{RegistryOps R} {A : Type} `{AuthProvider A} {U : Type}.
Notation AppState := (AppState (R:=R) (A:=A)).
Context (health_json : HealthResponse → str → str) (tunnels_json : list SessionSnapshot → str).
Context (duration_debug : Z → str).
Context (parse_uri : str → option Uri) (upstream : Request → result (Response (EdgeBody U)) str).
Context (public : Request → Prop).
Context (valid_method valid_uri : str → bool) (http_error : BuildError → str).
Context (local_service : LocalRequest → result LocalResponse str) (options : AgentOptions).
Context (i : nat).

Notation Link := (Link (R:=R) (A:=A)).
Notation link_step := (link_step health_json tunnels_json duration_debug parse_uri upstream public
  valid_method valid_uri http_error local_service options i).

(** A read loop that is at an update, or will not panic. *)
Definition sure {S} (update : Z → Z → task S bool) (t : task S bool) : Prop :=
  yields (λ b, b = true) t ∨ ∃ id increment, t = update id increment ∧ fits increment.
Definition agent_update (id increment : Z) : task SessionCtx bool := atomic (on_window_update id increment).

Lemma agent_sure f :
  fits_down (Ok f) → sure agent_update (from_option (handle_server_frame options) (Ret true) f).
Proof using Type.
  intros Hf. destruct f as [payload|]; [|by left]. cbn [from_option].
  destruct payload as [w|st|open|head|id data|id trailers|id code message|id increment|nonce time|a1 a2 a3];
    cbn [handle_server_frame]; try (left; repeat (apply yields_bind; intros ?); done).
  right. by exists id, increment.
Qed.

Lemma edge_sure f : fits_up f → sure (edge_update i) (handle_client_frame (R:=R) (A:=A) i f).
Proof using Type.
  intros Hf. destruct f as [payload|]; [|by left].
  destruct payload as [h|o|c|h|id d|id t|id c m|id increment|n t]; cbn [handle_client_frame];
    try (left; repeat (apply yields_bind; intros ?); done).
  right. by exists id, increment.
Qed.

Lemma sure_poll {S} (update : Z → Z → task S bool) t t' s s' :
  sure update t → poll t s = Some (s', t') →
  (∀ id increment, t = update id increment → fits increment → t' = Ret true) → sure update t'.
Proof using Type.
  intros [Ht|(id & increment & -> & Hf)] Hp Hu; left; [by eapply yields_poll|]. by rewrite (Hu id increment).
Qed.

Notation quietly := (obeys (at_session i (queues fits_down))) (only parsing).

Record sane (σ : Link) (x : Session) : Prop := {
  san_object : session_objs (edge σ) !! i = Some x;
  san_queue : Forall fits_down (frame_queue x);
  san_down : Forall (λ f, fits_down (Ok f)) (to_agent σ);
  san_out : Forall fits_up (out_queue (agent σ));
  san_up : Forall fits_up (to_edge σ);
  san_edge_reader : quietly (edge_reader σ);
  san_edge_tasks : Forall (λ t, quietly t) (edge_tasks σ);
  san_agent_reader : obeys (posts fits_up) (agent_reader σ);
  san_agent_tasks : Forall (obeys (posts fits_up)) (agent_tasks σ);
  san_sure : bounded x → sure agent_update (agent_reader σ) ∧ sure (edge_update i) (edge_reader σ);
}.

Notation held_by σ W := (∀ k,
  (∃ hs x, conserved i (download k) W k σ hs x) ∧ (∃ hs x, conserved i (upload k) W k σ hs x))
  (only parsing).

(** The queue of the agent, and that of the session, grow by frames that fit. *)
Lemma posts_out a a' : posts fits_up a a' → Forall fits_up (out_queue a) → Forall fits_up (out_queue a').
Proof using Type. intros (fs & -> & Hfs) Ha. by apply Forall_app. Qed.

Lemma queues_object (s s' : AppState) x :
  at_session i (queues fits_down) s s' → session_objs s !! i = Some x → Forall fits_down (frame_queue x) →
  ∃ x', session_objs s' !! i = Some x' ∧ Forall fits_down (frame_queue x') ∧ (bounded x' → bounded x).
Proof using Type.
  intros Hs Hx Hq. destruct (Hs x Hx) as (x' & Hx' & Hr & fs & Hq' & Hfs). exists x'.
  split; [done|]. rewrite Hq', Forall_app. split; [done|]. pose proof (steps_objs _ _ Hr). unfold bounded. lia.
Qed.

(** What the ledgers say when a reader is at an update. *)
Lemma agent_reader_room W (σ : Link) x id increment a' t' :
  (0 ≤ W ≤ u32_max)%Z → held_by σ W → session_objs (edge σ) !! i = Some x → bounded x →
  agent_reader σ = agent_update id increment → fits increment →
  poll (agent_reader σ) (agent σ) = Some (a', t') → t' = Ret true.
Proof using Type.
  intros HW Hh Hx Hb Hr Hf Hp. destruct (Hh id) as [(hs & y & Hc) _].
  pose proof (held_nonneg _ _ _ _ _ _ _ Hc) as Hheld.
  destruct Hc as [Hy _ Hwf [Hn Ht] [_ Hts] [He _] [_ Hns] Htot]. rewrite Hx in Hy. injection Hy as <-.
  destruct (Htot Hb) as [_ Hle]. rewrite Hr in Ht, Hp.
  pose proof (granted_bound (download id) W id x eq_refl HW).
  pose proof (sum_of_nonneg _ _ (agent_holdings_nonneg _ _ _ Hts)).
  pose proof (sum_of_nonneg _ _ (edge_holdings_nonneg _ _ _ _ _ Hns)).
  cbn [poll agent_update atomic] in Hp.
  rewrite (surjective_pairing (on_window_update id increment (agent σ))) in Hp. injection Hp as _ <-.
  f_equal. eapply (agent_room id increment (agent_reader_has hs) _ x (to_edge σ) (to_agent σ));
    [done..|exact Ht|].
  unfold held in Hle. lia.
Qed.

Lemma edge_reader_room W (σ : Link) x id increment s' t' :
  (0 ≤ W ≤ u32_max)%Z → held_by σ W → session_objs (edge σ) !! i = Some x → bounded x →
  edge_reader σ = edge_update i id increment → fits increment →
  poll (edge_reader σ) (edge σ) = Some (s', t') → t' = Ret true.
Proof using Type.
  intros HW Hh Hx Hb Hr Hf Hp. destruct (Hh id) as [_ (hs & y & Hc)].
  destruct Hc as [Hy HWx _ [Ha _] [_ Hts] [Hn Ht] [_ Hns] Htot]. rewrite Hx in Hy. injection Hy as <-.
  destruct (Htot Hb) as [Hwf Hle]. rewrite Hr in Ht, Hp.
  pose proof (granted_bound (upload id) W id x eq_refl HW).
  pose proof (sum_of_nonneg _ _ (agent_holdings_nonneg _ _ _ Hts)).
  pose proof (sum_of_nonneg _ _ (edge_holdings_nonneg _ _ _ _ _ Hns)).
  destruct (edge_room i W id increment (edge_reader_has hs) (edge σ) x (agent σ) (to_edge σ) (to_agent σ))
    as [x' Hu]; [done..| |].
  - unfold held in Hle. lia.
  - rewrite (edge_update_poll _ _ _ _ x Hx), Hu in Hp. by injection Hp as _ <-.
Qed.

Notation sanely a h ts g s r ns up down x := (sane (mkLink a h ts g s r ns up down) x) (only parsing).

Lemma step_sane W σ σ' :
  (0 ≤ W ≤ u32_max)%Z → held_by σ W → link_step σ σ' → (∃ x, sane σ x) → ∃ x, sane σ' x.
Proof using Type.
  intros HW Hh Hs (x & Hsane). pose proof Hsane as [Hx Hq Hd Ho Hu Hr Hns Har Hts Hsure].
  destruct Hs as [a ts g s r ns up f down|a h ts g s r ns up down a' h' Hp
    |a h ts g s r ns up down open body credit Hsp|a h ts g s r ns up down j t a' t' Hj Hp
    |a h ts g s r ns up down j|a h ts g s r ns up down a' Hhost|a h ts g s r ns up down o f Hf
    |a h ts g s ns f up down|a h ts g s r ns up down s' r' Hp|a h ts g s r ns up down t Ht
    |a h ts g s r ns up down j t s' t' Hj Hp|a h ts g s r ns up down j
    |a h ts g s r ns up down y o f Hy Hf];
    cbn [agent edge agent_reader agent_tasks agent_started edge_reader edge_tasks to_agent to_edge] in *.
  - apply Forall_cons in Hd as [Hf Hd]. exists x. split; cbn; try done.
    + destruct f as [payload|]; [apply posts_frame|done].
    + intros Hb. destruct (Hsure Hb). split; [by apply agent_sure|done].
  - destruct (obeys_poll _ _ _ _ _ Har Hp) as [Hpost Har']. exists x. split; cbn; try done.
    + by eapply posts_out.
    + intros Hb. destruct (Hsure Hb) as [Hsa ?]. split; [|done]. eapply sure_poll; [done..|].
      intros id increment -> Hf. by eapply (agent_reader_room W _ x id increment).
  - exists x. split; cbn; try done. apply Forall_app. split; [done|]. constructor; [apply posts_serve|done].
  - destruct (obeys_poll _ _ _ _ _ (proj1 (Forall_lookup _ _) Hts j t Hj) Hp) as [Hpost Ht'].
    exists x. split; cbn; try done; [by eapply posts_out|by apply Forall_insert].
  - exists x. split; cbn; try done. by apply Forall_delete.
  - exists x. split; cbn; try done.
    by destruct Hhost as [(e & event & _ & ->)|[(l & b & b' & payload & _ & _ & ->)|[l ->]]].
  - apply recv_front in Hf. unfold out_queue in Ho. rewrite Hf in Ho. apply Forall_cons in Ho as [? Ho].
    exists x. split; cbn; try done. apply Forall_app. by split; [|constructor].
  - apply Forall_cons in Hu as [Hf Hu]. exists x. split; cbn; try done.
    + apply queues_frame; [apply creditless_fits|]. by intros id increment.
    + intros Hb. destruct (Hsure Hb). split; [done|by apply edge_sure].
  - destruct (obeys_poll _ _ _ _ _ Hr Hp) as [Hst Hr'].
    destruct (queues_object _ _ _ Hst Hx Hq) as (x' & Hx' & Hq' & Hb). exists x'. split; cbn; try done.
    intros Hb'. destruct (Hsure (Hb Hb')) as [? Hse]. split; [done|]. eapply sure_poll; [done..|].
    intros id increment -> Hf. by eapply (edge_reader_room W _ x id increment); [..|apply Hb| | |].
  - exists x. split; cbn; try done. apply Forall_app. split; [done|]. constructor; [|done].
    eapply obeys_weaken; [|by eapply (node_task_tame _ _ _ _ _ _ fits_down False), Ht; apply creditable_fits].
    intros s1 s2 Ha y Hy. destruct (Ha y Hy) as (y' & ? & ?). exists y'. split; [done|by eapply tame_queues].
  - destruct (obeys_poll _ _ _ _ _ (proj1 (Forall_lookup _ _) Hns j t Hj) Hp) as [Hst Ht'].
    destruct (queues_object _ _ _ Hst Hx Hq) as (x' & Hx' & Hq' & Hb). exists x'. split; cbn; try done.
    + by apply Forall_insert.
    + intros Hb'. by apply Hsure, Hb.
  - exists x. split; cbn; try done. by apply Forall_delete.
  - rewrite Hx in Hy. injection Hy as <-. apply recv_front in Hf. unfold frame_queue in Hq.
    rewrite Hf in Hq. apply Forall_cons in Hq as [? Hq]. exists (with_outbound o x). split; cbn; try done.
    + by apply (put_session_get i s x).
    + apply Forall_app. by split; [|constructor].
Qed.

Lemma start_sane σ : link_start i σ → ∃ x, sane σ x.
Proof using Type.
  intros (Har & Hat & _ & Her & Het & Hu & Hd & _ & _ & _ & Ho & x & Hx & _ & _ & Hq). exists x.
  split; rewrite ?Har, ?Hat, ?Her, ?Het, ?Hu, ?Hd; try done.
  - eapply Forall_impl; [exact Hq|]. apply creditless_fits.
  - eapply Forall_impl; [exact Ho|]. apply creditless_fits_up.
  - intros _. by split; left.
Qed.

Lemma start_held (σ : Link) x :
  link_start i σ → session_objs (edge σ) !! i = Some x → held_by σ (initial_window x).
Proof using All.
  intros Hst Hx k.
  assert (∀ L, (∀ f, creditless f → queued_value L f = 0%Z) → (∀ f, creditless_up f → up_value L f = 0%Z) →
    (ctx_spawned (agent σ) = [] → agent_value L (agent σ) = 0%Z) →
    (stream_objs x = [] → edge_value L x = 0%Z) →
    ∀ y, session_objs (edge σ) !! i = Some y → initial_window y = initial_window x ∧
      (circulating L (agent σ) y (to_edge σ) (to_agent σ) ≤ 0)%Z) as Hc.
  { intros L HL1 HL2 HL3 HL4 y Hy. rewrite Hx in Hy. injection Hy as <-. split; [done|].
    by eapply circulating_start. }
  split; eapply (start_conserved health_json tunnels_json duration_debug parse_uri upstream public
    valid_method valid_uri http_error local_service options); try exact _; try exact Hst.
  - apply Hc; [apply download_plain|by intros [[]|]| |done]. intros Hs. simpl. unfold window_left. by rewrite Hs.
  - apply Hc; [apply upload_plain|by intros [[]|]|done|]. intros Ho. simpl.
    unfold upload_window, upload_credit. rewrite Ho. by case_decide.
Qed.

Lemma step_held σ σ' W : link_step σ σ' → held_by σ W → held_by σ' W.
Proof using Type.
  intros Hs Hh k. destruct (Hh k) as [Hd Hu].
  split; eapply step_conserved; [exact _|exact Hs|done|exact _|exact Hs|done].
Qed.

Lemma reached_sane σ σ' x :
  link_start i σ → session_objs (edge σ) !! i = Some x → (0 ≤ initial_window x ≤ u32_max)%Z →
  rtc link_step σ σ' → ∃ x', sane σ' x'.
Proof using Type.
  intros Hst Hx HW Hr. pose proof (start_held σ x Hst Hx) as Hh. pose proof (start_sane σ Hst) as Hs.
  revert Hh Hs. clear Hst Hx. induction Hr as [σ|σ1 σ2 σ3 Hs _ IH]; [done|]. intros Hh Hsane.
  apply IH; [by eapply step_held|by eapply step_sane].
Qed.

Lemma sure_no_panic {S} (update : Z → Z → task S bool) t :
  (∀ id increment, update id increment ≠ Ret false) → sure update t → t ≠ Ret false.
Proof using Type. intros Hu [Ht|(id & increment & -> & _)] Hf; [by subst|by apply Hu in Hf]. Qed.
End runs.

(** ** Waiting for room

    A sender waits for a full queue, and for nothing once its receiver takes what is
    in it. *)
Section room.
Context `{Tokio} {B : Type} (P : B → Prop).

Definition received (c c' : mpsc B) : Prop := ∃ x, P x ∧ ch_recv c = Some (c', Some x).

Lemma room_made c x :
  0 < capacity c → Forall P (ch_queue (ch_view c)) → ∃ c', rtc received c c' ∧ is_Some (ch_send x c').
Proof using Type.
  intros Hc HP. remember (ch_queue (ch_view c)) as q eqn:Hq. revert c Hc Hq.
  induction HP as [|y q Hy HP IH]; intros c Hc Hq; pose proof (ch_recv_view c) as Hr; unfold recv_spec in Hr.
  - exists c. split; [done|]. pose proof (ch_send_view x c) as Hs. unfold send_spec in Hs. rewrite <- Hq in Hs.
    destruct (negb _); [|unfold capacity in Hc; simpl in Hs; rewrite decide_True in Hs by done];
      by destruct (ch_send x c).
  - rewrite <- Hq in Hr. destruct (ch_recv c) as [[c1 z]|] eqn:E; [|done]. injection Hr as Hc1 ->.
    destruct (IH c1) as (c' & Hr & Hs); [by erewrite recv_capacity|by rewrite Hc1|].
    exists c'. split; [|done]. eapply rtc_l; [|exact Hr]. by exists y.
Qed.
End room.

(** ** The edge's read loop *)
Section edge_able.
Context `{Tokio} `{MapIteration} `{Rng}.
Context {R : Type} `{RegistryOps R} {A : Type} `{AuthProvider A}.
Notation AppState := (AppState (R:=R) (A:=A)).
Context (i : nat).

(** What a session may become. *)
Definition healthy (x : Session) : Prop := roomy x ∧ Forall fits_down (frame_queue x).
Definition becomes (x x' : Session) : Prop := healthy x' ∧ rtc session_step x x'.

#[export] Instance becomes_transitive : Transitive becomes.
Proof using Type. intros x y z [_ Hxy] [Hz Hyz]. split; [done|by etrans]. Qed.

Lemma becomes_self x y : becomes x y → becomes y y.
Proof using Type. by intros [? _]. Qed.

Lemma queues_becomes x x' : becomes x x → queues fits_down x x' → becomes x x'.
Proof using Type.
  intros [[Hr Hq] _] (Hs & fs & Hq' & Hf). split; [|done]. split; [by eapply roomy_steps|].
  rewrite Hq'. by apply Forall_app.
Qed.

(** The transport takes a frame; a public client reads a chunk of its response. *)
Inductive edge_help (x : Session) : Session → Prop :=
| help_emit o f : ch_recv (outbound x) = Some (o, Some (Ok f)) → edge_help x (with_outbound o x)
| help_client l st c chunk :
    stream_objs x !! l = Some st → ch_recv (body_ch st) = Some (c, chunk) →
    edge_help x (update_stream l (with_body c) x).

Lemma help_becomes x x' : becomes x x → edge_help x x' → becomes x x'.
Proof using Type.
  intros [[Hr Hq] _] Hh.
  assert (session_step x x') as Hs.
  { apply step_quiet. destruct Hh as [o f Hf|l st c chunk Hl Hc]; [by eapply quiet_recv|].
    apply quiet_update. intros st' [= <-]%(eq_trans (eq_sym Hl)). eauto using evolves_body, recv_capacity. }
  split; [|by apply rtc_once]. split; [by eapply roomy_step|].
  destruct Hh as [o f Hf|]; [|done]. apply recv_front in Hf. unfold frame_queue in *. simpl.
  rewrite Hf in Hq. by apply Forall_cons in Hq as [_ ?].
Qed.

Notation able_x := (able becomes edge_help) (only parsing).

Lemma outbound_help x o :
  rtc (received (λ f, is_ok f = true)) (outbound x) o → rtc edge_help x (with_outbound o x).
Proof using Type.
  intros Hr. remember (outbound x) as c eqn:Hc. revert x Hc.
  induction Hr as [c|c c1 c2 (f & Hf & Hrecv) _ IH]; intros x ->; [by destruct x|].
  eapply rtc_l; [|apply (IH (with_outbound c1 x)); done]. destruct f as [f|]; [|done]. by eapply help_emit.
Qed.

Lemma able_send x frame : able_x x (send frame).
Proof using Type.
  apply able_await. intros x1 [[[Hr _] Hq] _].
  destruct (room_made (λ f, is_ok f = true) (outbound x1) (Ok frame) Hr) as (o & Ho & [[o' ok] Hs]).
  - eapply Forall_impl; [exact Hq|]. by intros [f|].
  - exists (with_outbound o x1). split; [by apply outbound_help|]. cbn. by rewrite Hs.
Qed.

Lemma body_same x l st : stream_objs x !! l = Some st → update_stream l (with_body (body_ch st)) x = x.
Proof using Type.
  intros Hl. destruct x. unfold update_stream, with_streams. cbn in *. f_equal.
  apply list_eq. intros j. destruct (decide (j = l)) as [->|].
  - rewrite list_lookup_alter_eq, Hl. by destruct st.
  - by rewrite list_lookup_alter_ne.
Qed.

Lemma body_twice x l c c' :
  update_stream l (with_body c') (update_stream l (with_body c) x) = update_stream l (with_body c') x.
Proof using Type.
  destruct x. unfold update_stream, with_streams. cbn. f_equal.
  apply list_eq. intros j. destruct (decide (j = l)) as [->|].
  - rewrite !list_lookup_alter_eq. by destruct (_ !! l).
  - by rewrite !list_lookup_alter_ne.
Qed.

Lemma body_help x l st c :
  stream_objs x !! l = Some st → rtc (received (λ _, True)) (body_ch st) c →
  rtc edge_help x (update_stream l (with_body c) x).
Proof using Type.
  intros Hl Hr. remember (body_ch st) as c0 eqn:Hc. revert x st Hl Hc.
  induction Hr as [c|c c1 c2 (f & _ & Hrecv) _ IH]; intros x st Hl ->.
  - by rewrite (body_same x l st).
  - eapply rtc_l; [by eapply help_client|].
    rewrite <- (body_twice x l c1 c2). eapply IH; [by cbn; rewrite list_lookup_alter_eq, Hl|done].
Qed.

Lemma able_send_body x l chunk : l < length (stream_objs x) → able_x x (send_body l chunk).
Proof using Type.
  intros Hl. apply able_await. intros x1 [[[_ Hb] _] Hs].
  destruct (lookup_lt_is_Some_2 (stream_objs x1) l) as [st Hst].
  { apply steps_objs in Hs. lia. }
  destruct (room_made (λ _, True) (body_ch st) chunk) as (c & Hc & [[c' ok] Hsend]).
  - exact (proj1 (Forall_lookup _ _) Hb l st Hst).
  - by apply Forall_true.
  - exists (update_stream l (with_body c) x1). split; [by eapply body_help|].
    cbn. rewrite list_lookup_alter_eq, Hst. cbn. by rewrite Hsend.
Qed.

(** The handler of a stream's last frames, and of its data. *)
Lemma able_with_sender {B} x id (k : option nat → task Session B) :
  (∀ x1 tx, becomes x1 x1 → (∀ l, tx = Some l → l < length (stream_objs x1)) → able_x x1 (k tx)) →
  able_x x (task_bind (atomic (stream_body_sender id)) k).
Proof using Type.
  intros Hk. apply able_then. intros x1 Hx1 Hs. apply Hk; [by eapply becomes_self|].
  intros l. unfold stream_body_sender. destruct (streams x1 !! id) as [l'|]; [|done].
  destruct (stream_objs x1 !! l') as [st|] eqn:E; [|done]. case_match; [|done]. intros [= <-].
  cbn. rewrite length_alter. by eapply lookup_lt_Some.
Qed.

Ltac able_steps :=
  repeat match goal with
    | |- able _ _ _ (Ret _) => exact I
    | |- able _ _ _ (task_bind (atomic (stream_body_sender _)) _) => apply able_with_sender; intros ? [?|] ? ?
    | |- able _ _ _ (task_bind (task_bind _ _) _) => apply able_bind; [exact _|exact becomes_self|by eapply becomes_self| |intros ? ? ?]
    | |- able _ _ _ (task_bind _ _) => apply able_bind; [exact _|exact becomes_self|by eapply becomes_self| |intros ? ? ?]
    | |- able _ _ _ (match ?x with _ => _ end) => destruct x
    | |- able _ _ _ (modify _) => apply able_atomic
    | |- able _ _ _ (query _) => apply able_atomic
    | |- able _ _ _ (atomic _) => apply able_atomic
    | |- able _ _ _ (send _) => apply able_send
    | |- able _ _ _ (send_body _ _) => apply able_send_body; auto
    end; try (by eapply becomes_self).

Lemma able_data x id payload : becomes x x → able_x x (on_stream_data id payload).
Proof using Type. intros Hx. unfold on_stream_data. able_steps. Qed.

Lemma able_finish x id chunk : becomes x x → able_x x (finish_stream id chunk).
Proof using Type. intros Hx. unfold finish_stream. able_steps. Qed.

Lemma able_grant x id increment : becomes x x → able_x x (grant_window id increment).
Proof using Type. intros Hx. unfold grant_window. able_steps. Qed.

(** The same of the node. *)
Definition node_becomes (s s' : AppState) : Prop :=
  ∃ x x', session_objs s !! i = Some x ∧ session_objs s' !! i = Some x' ∧ becomes x x'.
Definition node_help (s s' : AppState) : Prop :=
  ∃ x x', session_objs s !! i = Some x ∧ edge_help x x' ∧ s' = put_session i x' s.

#[export] Instance node_becomes_transitive : Transitive node_becomes.
Proof using Type.
  intros s1 s2 s3 (x & y & Hx & Hy & Hxy) (y' & z & Hy' & Hz & Hyz). rewrite Hy in Hy'. injection Hy' as <-.
  exists x, z. split_and!; [done..|by etrans].
Qed.

Lemma node_self s s' : node_becomes s s' → node_becomes s' s'.
Proof using Type. intros (x & y & _ & Hy & Hxy). exists y, y. split_and!; [done..|by eapply becomes_self]. Qed.

Lemma node_good s : node_becomes s s → ∃ x, session_objs s !! i = Some x ∧ becomes x x.
Proof using Type. intros (x & y & Hx & Hy & Hxy). rewrite Hx in Hy. injection Hy as <-. by exists x. Qed.

Lemma node_help_becomes s s' : node_becomes s s → node_help s s' → node_becomes s s'.
Proof using Type.
  intros (x & Hx & Hxx)%node_good (x1 & x2 & Hx1 & Hh & ->). rewrite Hx in Hx1. injection Hx1 as <-.
  exists x, x2. split_and!; [done|by apply (put_session_get i s x)|by apply help_becomes].
Qed.

Lemma node_queues s s' : node_becomes s s → at_session i (queues fits_down) s s' → node_becomes s s'.
Proof using Type.
  intros (x & Hx & Hxx)%node_good Ha. destruct (Ha x Hx) as (z & Hz & Hq).
  exists x, z. split_and!; [done..|by apply queues_becomes].
Qed.

Notation able_s := (able node_becomes node_help) (only parsing).

Lemma able_session {B} s (t : task Session B) :
  node_becomes s s → (∀ x, becomes x x → able_x x t) → able_s s (on_session i t).
Proof using Type.
  intros (x & Hx & Hxx)%node_good Ht.
  eapply (able_zoom _ _ _ _ becomes edge_help s x); [exact _| | | |done|by apply Ht].
  - intros s1 s2 z (x1 & x2 & Ha1 & Ha2 & Hb) Hz. rewrite Ha1 in Hz. injection Hz as <-. by exists x2.
  - intros s1 x1 x2 Hx1. by apply (put_session_get i s1 x1).
  - intros s1 x1 x2 Hx1 Hh. by exists x1, x2.
Qed.

Ltac node_able :=
  repeat match goal with
    | |- able _ _ _ (Ret _) => exact I
    | |- able _ _ _ (task_bind _ _) =>
        apply able_bind; [exact _|exact node_self|by eapply node_self| |intros ? ? ?]
    | |- able _ _ _ (match ?x with _ => _ end) => destruct x
    | |- able _ _ _ (on_session _ _) => apply able_session; [by eapply node_self|intros ? ?]
    | |- able _ _ _ (call_registry _) => apply able_atomic
    | |- able _ _ _ (draw _) => apply able_atomic
    | |- able _ _ _ (modify _) => apply able_atomic
    | |- able _ _ _ (query _) => apply able_atomic
    | |- able _ _ _ (atomic _) => apply able_atomic
    | |- able _ _ _ (send _) => apply able_send
    end; auto using able_data, able_finish, able_grant.

Lemma able_frame s f : node_becomes s s → able_s s (handle_client_frame i f).
Proof using Type.
  intros Hs. destruct f as [payload|]; [|done]. destruct payload; cbn [handle_client_frame];
    unfold register_tunnel, claim_tunnel, close_tunnel, on_stream_end, on_stream_reset; node_able.
Qed.
End edge_able.

(** ** The agent's read loop *)
Section agent_able.
Context `{Tokio} `{HttpCrate}.

(** There is room in every channel, and an entry leads to one. *)
Definition ctx_healthy (c : SessionCtx) : Prop :=
  0 < capacity (ctx_outbound c) ∧ 0 < capacity (ctx_events c) ∧ Forall (λ b, 0 < capacity b) (ctx_bodies c) ∧
  ∀ id st, ctx_streams c !! id = Some st → st_body_tx st < length (ctx_bodies c).

Definition grows (c c' : SessionCtx) : Prop :=
  ctx_healthy c → ctx_healthy c' ∧ length (ctx_bodies c) ≤ length (ctx_bodies c').

Lemma grows_step c c' bs :
  capacity (ctx_outbound c') = capacity (ctx_outbound c) → capacity (ctx_events c') = capacity (ctx_events c) →
  capacity <$> ctx_bodies c' = (capacity <$> ctx_bodies c) ++ bs → Forall (λ n, 0 < n) bs →
  (∀ id st, ctx_streams c' !! id = Some st →
     ctx_streams c !! id = Some st ∨ st_body_tx st = length (ctx_bodies c) ∧ bs ≠ []) → grows c c'.
Proof using Type.
  intros Ho He Hb Hbs Hst (Hco & Hce & Hcb & Hent).
  assert (length (ctx_bodies c') = length (ctx_bodies c) + length bs) as Hl.
  { rewrite <- (length_fmap capacity (ctx_bodies c')), Hb, length_app, length_fmap. done. }
  split; [|lia]. split_and!; [by rewrite Ho|by rewrite He| |].
  - assert (Forall (λ n, 0 < n) (capacity <$> ctx_bodies c')) as Hall; [|exact (proj1 (Forall_fmap _ _ _) Hall)].
    rewrite Hb. apply Forall_app. split; [by apply Forall_fmap|done].
  - intros id st Hid. destruct (Hst id st Hid) as [Hid'|[-> Hne]]; [specialize (Hent id st Hid'); lia|].
    destruct bs; [done|]. simpl in Hl. lia.
Qed.

#[export] Instance grows_refl : Reflexive grows.
Proof using Type. by intros c Hc. Qed.

Lemma same_grows c c' :
  capacity (ctx_outbound c') = capacity (ctx_outbound c) → capacity (ctx_events c') = capacity (ctx_events c) →
  ctx_bodies c' = ctx_bodies c → ctx_streams c' = ctx_streams c → grows c c'.
Proof using Type.
  intros Ho He Hb Hs. apply (grows_step c c' []); [done..| |done|]; rewrite ?Hb, ?Hs, ?app_nil_r; by auto.
Qed.

Lemma alter_capacity (l : nat) (f : mpsc str → mpsc str) (bodies : list (mpsc str)) :
  (∀ b, capacity (f b) = capacity b) → capacity <$> alter f l bodies = capacity <$> bodies.
Proof using Type.
  intros Hf. apply list_eq. intros j. rewrite !list_lookup_fmap. destruct (decide (j = l)) as [->|].
  - rewrite list_lookup_alter_eq. destruct (bodies !! l); [|done]. simpl. by rewrite Hf.
  - by rewrite list_lookup_alter_ne.
Qed.

Lemma grows_body l f c :
  (∀ b, ctx_bodies c !! l = Some b → capacity (f b) = capacity b) → grows c (update_body l f c).
Proof using Type.
  intros Hf. apply (grows_step c _ []); [done..| |done|by auto]. rewrite app_nil_r. cbn.
  apply list_eq. intros j. rewrite !list_lookup_fmap. destruct (decide (j = l)) as [->|].
  - rewrite list_lookup_alter_eq. destruct (ctx_bodies c !! l) as [b|] eqn:E; [|done]. simpl. by rewrite Hf.
  - by rewrite list_lookup_alter_ne.
Qed.

Lemma grows_drop id c : grows c (drop_stream id c).
Proof using Type.
  unfold drop_stream. destruct (ctx_streams c !! id) as [st|]; [|reflexivity].
  apply (grows_step c _ []); [done..| |done|].
  - cbn. rewrite app_nil_r. apply alter_capacity. apply drop_tx_capacity.
  - cbn. intros id' st' [_ ?]%lookup_delete_Some. by left.
Qed.

Lemma grows_close id c : grows c (close_request_body id c).
Proof using Type.
  unfold close_request_body. destruct (ctx_streams c !! id) as [st|]; [|reflexivity].
  apply (grows_step c _ [1]); [done..| |by repeat constructor|].
  - cbn. rewrite fmap_app, alter_capacity by apply drop_tx_capacity. f_equal. cbn.
    by rewrite drop_rx_capacity; unfold capacity; rewrite ch_channel_view.
  - cbn. intros id' st' [[<- <-]|[_ ?]]%lookup_insert_Some; [by right|by left].
Qed.

Lemma grows_open open c : grows c (register_open open c).
Proof using Type.
  unfold register_open. apply (grows_step c _ [BODY_QUEUE]); [done..| |by repeat constructor|].
  - cbn. rewrite fmap_app. f_equal.
    + destruct (ctx_streams c !! so_stream_id open); [|done]. apply alter_capacity, drop_tx_capacity.
    + cbn. by unfold capacity; rewrite ch_channel_view.
  - cbn. intros id st [[<- <-]|[_ ?]]%lookup_insert_Some; [by right|by left].
Qed.

Lemma grows_sender id c : grows c (body_sender id c).1.
Proof using Type.
  unfold body_sender. case_match; [|reflexivity]. apply grows_body. intros b _. apply clone_capacity.
Qed.

Lemma grows_emit e : obeys grows (emit e).
Proof using Type.
  apply obeys_await. intros c c' []. destruct (ch_send _ _) as [[o b]|] eqn:E; [|done].
  intros [= <-]. apply same_grows; try done. by eapply send_capacity.
Qed.

Lemma grows_send p : obeys grows (ctx_send p).
Proof using Type.
  apply obeys_await. intros c c' a. destruct (ch_send _ _) as [[o b]|] eqn:E; [|done].
  intros [= <- <-]. apply same_grows; try done. by eapply send_capacity.
Qed.

Lemma grows_push l payload : obeys grows (push_body l payload).
Proof using Type.
  apply obeys_await. intros c c' a. destruct (ctx_bodies c !! l) as [b|] eqn:Eb; [|done].
  destruct (ch_send payload b) as [[b' ok]|] eqn:E; [|done]. intros [= <- <-].
  apply grows_body. intros b0 [= <-]%(eq_trans (eq_sym Eb)). by eapply send_capacity.
Qed.

Lemma grows_acquire l n : obeys grows (acquire_window l n).
Proof using Type.
  apply obeys_await. intros c c' a. destruct (ctx_credits c !! l) as [w|]; [|done].
  destruct (sem_acquire_many n w) as [[w' b]|]; [|done]. intros [= <- <-]. by apply same_grows.
Qed.

Lemma grows_window id increment : obeys grows (atomic (on_window_update id increment)).
Proof using Type.
  apply obeys_atomic. intros c. unfold on_window_update. destruct (ctx_streams c !! id); [|reflexivity].
  destruct (ctx_credits c !! _); [|reflexivity]. destruct (sem_add_permits _ _); [|reflexivity].
  by apply same_grows.
Qed.

Lemma grows_drop_rx l c : grows c (update_body l ch_drop_rx c).
Proof using Type. apply grows_body. intros b _. apply drop_rx_capacity. Qed.
Lemma grows_drop_tx l c : grows c (update_body l ch_drop_tx c).
Proof using Type. apply grows_body. intros b _. apply drop_tx_capacity. Qed.
Lemma grows_query {B} (f : SessionCtx → B) : obeys grows (query f).
Proof using Type. by apply obeys_query. Qed.

#[local] Hint Resolve grows_drop grows_close grows_open grows_sender grows_emit grows_send grows_push
  grows_acquire grows_window grows_drop_rx grows_drop_tx grows_query : placid.

Lemma grows_frame options payload : obeys grows (handle_server_frame options payload).
Proof using Type. destruct payload; cbn [handle_server_frame]; unfold on_data; agent_calls. Qed.

Lemma grows_serve valid_method valid_uri http_error local_service options open body credit :
  obeys grows (serve_stream valid_method valid_uri http_error local_service options open body credit).
Proof using Type.
  assert (∀ id chunks, obeys grows (send_pieces id credit chunks)) as Hpieces.
  { intros id. induction chunks as [|c cs IH]; cbn [send_pieces]; agent_calls. }
  assert (∀ id frames trailers, obeys grows (relay_body id credit trailers frames)) as Hrelay.
  { intros id. induction frames as [|[data|map|e] rest IH]; intros trailers; cbn [relay_body];
      unfold send_payload; agent_calls. }
  unfold serve_stream. agent_calls.
Qed.

Lemma grows_host c c' : host_step c c' → grows c c'.
Proof using Type.
  intros [(e & event & He & ->)|[(l & b & b' & payload & Hl & Hr & ->)|[l ->]]].
  - apply same_grows; try done. by eapply recv_capacity.
  - apply grows_body. intros b0 [= <-]%(eq_trans (eq_sym Hl)). by eapply recv_capacity.
  - apply grows_drop_rx.
Qed.

(** What the agent's state may become, and who helps: the transport takes a frame,
    the program takes an event, the local service reads a body. *)
Definition ctx_becomes (c c' : SessionCtx) : Prop :=
  ctx_healthy c' ∧ length (ctx_bodies c) ≤ length (ctx_bodies c').

#[export] Instance ctx_becomes_transitive : Transitive ctx_becomes.
Proof using Type. intros x y z [_ ?] [? ?]. split; [done|lia]. Qed.

Lemma ctx_self c c' : ctx_becomes c c' → ctx_becomes c' c'.
Proof using Type. by intros [? _]. Qed.

Lemma grows_becomes c c' : ctx_becomes c c → grows c c' → ctx_becomes c c'.
Proof using Type. intros [Hc _] Hg. by apply Hg. Qed.

Inductive agent_help (c : SessionCtx) : SessionCtx → Prop :=
| help_frame o f : ch_recv (ctx_outbound c) = Some (o, Some f) → agent_help c (ctx_with_outbound o c)
| help_event e event : ch_recv (ctx_events c) = Some (e, event) → agent_help c (ctx_with_events e c)
| help_body l b b' payload :
    ctx_bodies c !! l = Some b → ch_recv b = Some (b', payload) → agent_help c (update_body l (λ _, b') c).

Lemma agent_help_becomes c c' : ctx_becomes c c → agent_help c c' → ctx_becomes c c'.
Proof using Type.
  intros Hc Hh. apply grows_becomes; [done|]. destruct Hh as [o f Hf|e event He|l b b' payload Hl Hb].
  - apply same_grows; try done. by eapply recv_capacity.
  - apply same_grows; try done. by eapply recv_capacity.
  - apply grows_body. intros b0 [= <-]%(eq_trans (eq_sym Hl)). by eapply recv_capacity.
Qed.

Notation able_c := (able ctx_becomes agent_help) (only parsing).

Lemma able_emit c e : able_c c (emit e).
Proof using Type.
  apply able_await. intros c1 [(_ & He & _) _].
  destruct (room_made (λ _, True) (ctx_events c1) e) as (q & Hq & [[q' ok] Hs]); [done|by apply Forall_true|].
  exists (ctx_with_events q c1). split; [|cbn; by rewrite Hs].
  remember (ctx_events c1) as q0 eqn:E. clear Hs He. revert c1 E.
  induction Hq as [q0|q0 q1 q2 (f & _ & Hr) _ IH]; intros c1 ->; [by destruct c1|].
  eapply rtc_l; [by eapply help_event|]. by apply (IH (ctx_with_events q1 c1)).
Qed.

Lemma able_ctx_send c p : able_c c (ctx_send p).
Proof using Type.
  apply able_await. intros c1 [(Ho & _) _].
  destruct (room_made (λ _, True) (ctx_outbound c1) (Some p : ClientFrame)) as (q & Hq & [[q' ok] Hs]);
    [done|by apply Forall_true|].
  exists (ctx_with_outbound q c1). split; [|cbn; by rewrite Hs].
  remember (ctx_outbound c1) as q0 eqn:E. clear Hs Ho. revert c1 E.
  induction Hq as [q0|q0 q1 q2 (f & _ & Hr) _ IH]; intros c1 ->; [by destruct c1|].
  eapply rtc_l; [by eapply help_frame|]. by apply (IH (ctx_with_outbound q1 c1)).
Qed.

Lemma update_body_same l b c : ctx_bodies c !! l = Some b → update_body l (λ _, b) c = c.
Proof using Type.
  intros Hl. destruct c. unfold update_body, ctx_with_streams. cbn in *. f_equal.
  apply list_eq. intros j. destruct (decide (j = l)) as [->|].
  - by rewrite list_lookup_alter_eq, Hl.
  - by rewrite list_lookup_alter_ne.
Qed.

Lemma update_body_twice l b b' c : update_body l (λ _, b') (update_body l (λ _, b) c) = update_body l (λ _, b') c.
Proof using Type.
  destruct c. unfold update_body, ctx_with_streams. cbn. f_equal.
  apply list_eq. intros j. destruct (decide (j = l)) as [->|].
  - rewrite !list_lookup_alter_eq. by destruct (_ !! l).
  - by rewrite !list_lookup_alter_ne.
Qed.

Lemma able_push c l payload : l < length (ctx_bodies c) → able_c c (push_body l payload).
Proof using Type.
  intros Hl. apply able_await. intros c1 [(_ & _ & Hb & _) Hlen].
  destruct (lookup_lt_is_Some_2 (ctx_bodies c1) l) as [b Eb]; [lia|].
  destruct (room_made (λ _, True) b payload) as (q & Hq & [[q' ok] Hs]).
  - exact (proj1 (Forall_lookup _ _) Hb l b Eb).
  - by apply Forall_true.
  - exists (update_body l (λ _, q) c1). split; [|cbn; by rewrite list_lookup_alter_eq, Eb; cbn; rewrite Hs].
    clear Hs Hb Hlen Hl. revert c1 Eb. induction Hq as [q|q q1 q2 (f & _ & Hr) _ IH]; intros c1 Eb.
    + by rewrite update_body_same.
    + eapply rtc_l; [by eapply help_body|]. rewrite <- (update_body_twice l q1 q2).
      apply IH. by cbn; rewrite list_lookup_alter_eq, Eb.
Qed.

Ltac agent_able :=
  repeat match goal with
    | |- able _ _ _ (Ret _) => exact I
    | |- able _ _ _ (task_bind _ _) => apply able_bind; [exact _|exact ctx_self|by eapply ctx_self| |intros ? ? ?]
    | |- able _ _ _ (match ?x with _ => _ end) => destruct x
    | |- able _ _ _ (emit _) => apply able_emit
    | |- able _ _ _ (ctx_send _) => apply able_ctx_send
    | |- able _ _ _ _ => apply able_atomic
    end.

Lemma able_server_frame options c payload : ctx_becomes c c → able_c c (handle_server_frame options payload).
Proof using Type.
  intros Hc. destruct payload; cbn [handle_server_frame]; try (agent_able; fail).
  apply able_bind; [exact _|exact ctx_self|done| |done]. unfold on_data. apply able_then.
  intros c1 Hc1 Hs. pose proof (ctx_self _ _ Hs) as Hself. unfold body_sender in *.
  destruct (ctx_streams c1 !! stream_id) as [st|] eqn:E; [|exact I]. cbn [fst snd] in *.
  apply able_bind; [exact _|exact ctx_self|done| |intros ok c2 Hc2; agent_able].
  apply able_push. destruct Hc1 as [(_ & _ & _ & Hent) _]. cbn. rewrite length_alter. by eapply Hent.
Qed.
End agent_able.

(** ** Both loops of a run *)
Section both.
Context `{Tokio} `{MapIteration} `{HttpCrate} `{Rng}.
Context {R : Type} `{RegistryOps R} {A : Type} `{AuthProvider A} {U : Type}.
Notation AppState := (AppState (R:=R) (A:=A)).
Context (health_json : HealthResponse → str → str) (tunnels_json : list SessionSnapshot → str).
Context (duration_debug : Z → str).
Context (parse_uri : str → option Uri) (upstream : Request → result (Response (EdgeBody U)) str).
Context (public : Request → Prop).
Context (valid_method valid_uri : str → bool) (http_error : BuildError → str).
Context (local_service : LocalRequest → result LocalResponse str) (options : AgentOptions).
Context (i : nat).

Notation Link := (Link (R:=R) (A:=A)).
Notation link_step := (link_step health_json tunnels_json duration_debug parse_uri upstream public
  valid_method valid_uri http_error local_service options i).

(** What the two read loops may count on: their own steps; that what the agent and
    the edge put out is taken, by the transport, the agent's program, the local
    service and the public clients. No other task of either side. *)
Inductive serves : Link → Link → Prop :=
| serves_agent a h ts g s r ns up down a' h' :
    poll h a = Some (a', h') →
    serves (mkLink a h ts g s r ns up down) (mkLink a' h' ts g s r ns up down)
| serves_agent_frame a h ts g s r ns up down o f :
    ch_recv (ctx_outbound a) = Some (o, Some f) →
    serves (mkLink a h ts g s r ns up down) (mkLink (ctx_with_outbound o a) h ts g s r ns (up ++ [f]) down)
| serves_event a h ts g s r ns up down e event :
    ch_recv (ctx_events a) = Some (e, event) →
    serves (mkLink a h ts g s r ns up down) (mkLink (ctx_with_events e a) h ts g s r ns up down)
| serves_body a h ts g s r ns up down l b b' payload :
    ctx_bodies a !! l = Some b → ch_recv b = Some (b', payload) →
    serves (mkLink a h ts g s r ns up down) (mkLink (update_body l (λ _, b') a) h ts g s r ns up down)
| serves_edge a h ts g s r ns up down s' r' :
    poll r s = Some (s', r') →
    serves (mkLink a h ts g s r ns up down) (mkLink a h ts g s' r' ns up down)
| serves_edge_frame a h ts g s r ns up down x o f :
    session_objs s !! i = Some x → ch_recv (outbound x) = Some (o, Some (Ok f)) →
    serves (mkLink a h ts g s r ns up down)
      (mkLink a h ts g (put_session i (with_outbound o x) s) r ns up (down ++ [f]))
| serves_client a h ts g s r ns up down x l st c chunk :
    session_objs s !! i = Some x → stream_objs x !! l = Some st → ch_recv (body_ch st) = Some (c, chunk) →
    serves (mkLink a h ts g s r ns up down)
      (mkLink a h ts g (put_session i (update_stream l (with_body c) x) s) r ns up down).

Lemma serves_sound σ σ' : serves σ σ' → rtc link_step σ σ'.
Proof using Type.
  intros [a h ts g s r ns up down a' h' Hp|a h ts g s r ns up down o f Hf|a h ts g s r ns up down e event He
    |a h ts g s r ns up down l b b' payload Hl Hb|a h ts g s r ns up down s' r' Hp
    |a h ts g s r ns up down x o f Hx Hf|a h ts g s r ns up down x l st c chunk Hx Hl Hc].
  - by apply rtc_once, agent_reads.
  - by apply rtc_once, agent_emits.
  - apply rtc_once, agent_host. left. by exists e, event.
  - apply rtc_once, agent_host. right. left. by exists l, b, b', payload.
  - by apply rtc_once, edge_reads.
  - by apply rtc_once, edge_emits.
  - set (t := on_session i (next_chunk l) ;;! Ret tt : task AppState unit).
    set (s' := put_session i (update_stream l (with_body c) x) s).
    eapply rtc_l; [apply (edge_starts _ _ _ _ _ _ _ _ _ _ _ _ _ _ _ _ _ _ _ _ _ t), nt_read|].
    eapply rtc_l; [apply (edge_works _ _ _ _ _ _ _ _ _ _ _ _ _ _ _ _ _ _ _ _ _ (length ns) t s' (Ret tt))|].
    + by rewrite lookup_app_r, Nat.sub_diag.
    + cbn. by rewrite Hx, Hl; cbn; rewrite Hc.
    + eapply rtc_l; [apply (edge_drops _ _ _ _ _ _ _ _ _ _ _ _ _ _ _ _ _ _ _ _ _ (length ns))|].
      rewrite insert_app_r_alt, Nat.sub_diag by done. cbn.
      by rewrite delete_middle, app_nil_r.
Qed.

Record alive (σ : Link) : Prop := {
  alv_edge : node_becomes i (edge σ) (edge σ);
  alv_edge_reader : able (node_becomes i) (node_help i) (edge σ) (edge_reader σ);
  alv_agent : ctx_becomes (agent σ) (agent σ);
  alv_agent_reader : able ctx_becomes agent_help (agent σ) (agent_reader σ);
  alv_agent_grows : obeys grows (agent_reader σ);
  alv_agent_tasks : Forall (obeys grows) (agent_tasks σ);
}.

Lemma alive_edge (σ : Link) s' :
  alive σ → node_becomes i (edge σ) s' →
  node_becomes i s' s' ∧ able (node_becomes i) (node_help i) s' (edge_reader σ).
Proof using Type.
  intros Ha Hs. split; [by eapply node_self|]. eapply able_later; [exact _|apply (alv_edge_reader _ Ha)|done].
Qed.

Lemma alive_agent (σ : Link) a' :
  alive σ → grows (agent σ) a' → ctx_becomes a' a' ∧ able ctx_becomes agent_help a' (agent_reader σ).
Proof using Type.
  intros Ha Hg. pose proof (grows_becomes _ _ (alv_agent _ Ha) Hg) as Hb. split; [by eapply ctx_self|].
  eapply able_later; [exact _|apply (alv_agent_reader _ Ha)|done].
Qed.

Lemma step_alive σ σ' x : link_step σ σ' → sane i σ x → alive σ → alive σ'.
Proof using Type.
  intros Hs Hsane Ha. pose proof Hsane as [Hx Hq Hd Ho Hu Hr Hns Har Hts _].
  pose proof Ha as [He Her Hc Hcr Hg Hgt].
  destruct Hs as [a ts g s r ns up f down|a h ts g s r ns up down a' h' Hp
    |a h ts g s r ns up down open body credit Hsp|a h ts g s r ns up down j t a' t' Hj Hp
    |a h ts g s r ns up down j|a h ts g s r ns up down a' Hhost|a h ts g s r ns up down o f Hf
    |a h ts g s ns f up down|a h ts g s r ns up down s' r' Hp|a h ts g s r ns up down t Ht
    |a h ts g s r ns up down j t s' t' Hj Hp|a h ts g s r ns up down j
    |a h ts g s r ns up down y o f Hy Hf];
    cbn [agent edge agent_reader agent_tasks agent_started edge_reader edge_tasks to_agent to_edge] in *.
  - split; cbn; try done; destruct f as [payload|]; try done; [by apply able_server_frame|apply grows_frame].
  - destruct (obeys_poll _ _ _ _ _ Hg Hp) as [Hga Hg']. pose proof (grows_becomes _ _ Hc Hga) as Hb.
    split; cbn; try done; [by eapply ctx_self|by eapply (able_poll _ _ a a)].
  - split; cbn; try done. apply Forall_app. split; [done|]. constructor; [apply grows_serve|done].
  - destruct (obeys_poll _ _ _ _ _ (proj1 (Forall_lookup _ _) Hgt j t Hj) Hp) as [Hga Hg'].
    destruct (alive_agent _ _ Ha Hga). split; cbn; try done. by apply Forall_insert.
  - split; cbn; try done. by apply Forall_delete.
  - destruct (alive_agent _ _ Ha (grows_host _ _ Hhost)). by split.
  - assert (grows a (ctx_with_outbound o a)) as Hga by (apply same_grows; try done; by eapply recv_capacity).
    destruct (alive_agent _ _ Ha Hga). by split.
  - split; cbn; try done. by apply able_frame.
  - destruct (obeys_poll _ _ _ _ _ Hr Hp) as [Hst _]. pose proof (node_queues _ _ _ He Hst) as Hb.
    split; cbn; try done; [by eapply node_self|by eapply (able_poll _ _ s s)].
  - by split.
  - destruct (obeys_poll _ _ _ _ _ (proj1 (Forall_lookup _ _) Hns j t Hj) Hp) as [Hst _].
    destruct (alive_edge _ _ Ha (node_queues _ _ _ He Hst)). by split.
  - by split.
  - assert (node_becomes i s (put_session i (with_outbound o y) s)) as Hb.
    { apply node_help_becomes; [done|]. exists y, (with_outbound o y).
      split_and!; [done|by eapply help_emit|done]. }
    destruct (alive_edge _ _ Ha Hb). by split.
Qed.

(** With what they may count on, both loops return. *)
Lemma agent_loop_returns (σ : Link) :
  alive σ → ∃ σ' b, rtc serves σ σ' ∧ agent_reader σ' = Ret b ∧ edge σ' = edge σ ∧ edge_reader σ' = edge_reader σ ∧
    (yields (λ b, b = true) (agent_reader σ) → b = true).
Proof using Type.
  intros Ha. destruct (able_returns ctx_becomes agent_help grows (agent σ) (agent_reader σ))
    as (a' & b & Hr & _); [exact ctx_self|exact agent_help_becomes|exact grows_becomes|by apply Ha..|].
  destruct σ as [a h ts g s r ns up down]. cbn in *.
  assert (∃ up', rtc serves (mkLink a h ts g s r ns up down) (mkLink a' (Ret b) ts g s r ns up' down)) as [up' Hr'];
    [|exists (mkLink a' (Ret b) ts g s r ns up' down), b; split_and!; try done; exact (yields_helped (λ b, b = true) _ _ _ Hr)].
  remember (a, h) as p eqn:Hp. remember (a', Ret b) as p' eqn:Hp'. clear Ha. revert a h up Hp.
  induction Hr as [p|p p1 p2 Hs _ IH]; intros a h up ->; [injection Hp' as <- ->; by exists up|].
  inversion Hs as [c c' t Hh|c c' t t' Hpoll]; subst; clear Hs.
  - destruct Hh as [o f Hf|e event He|l v v' payload Hl Hv].
    + destruct (IH eq_refl _ _ (up ++ [f]) eq_refl) as [up' ?]. exists up'.
      eapply rtc_l; [by eapply serves_agent_frame|done].
    + destruct (IH eq_refl _ _ up eq_refl) as [up' ?]. exists up'. eapply rtc_l; [by eapply serves_event|done].
    + destruct (IH eq_refl _ _ up eq_refl) as [up' ?]. exists up'. eapply rtc_l; [by eapply serves_body|done].
  - destruct (IH eq_refl _ _ up eq_refl) as [up' ?]. exists up'. eapply rtc_l; [by eapply serves_agent|done].
Qed.

Lemma edge_loop_returns (σ : Link) x :
  sane i σ x → alive σ →
  ∃ σ' b, rtc serves σ σ' ∧ edge_reader σ' = Ret b ∧ agent σ' = agent σ ∧ agent_reader σ' = agent_reader σ ∧
    (yields (λ b, b = true) (edge_reader σ) → b = true).
Proof using Type.
  intros Hsane Ha. destruct (able_returns (node_becomes i) (node_help i) (at_session i (queues fits_down))
    (edge σ) (edge_reader σ)) as (s' & b & Hr & _);
    [apply node_self|apply node_help_becomes|apply node_queues|by apply Ha|by apply (san_edge_reader _ _ _ Hsane)
    |by apply Ha|].
  destruct σ as [a h ts g s r ns up down]. cbn in *. clear Ha Hsane.
  assert (∃ down', rtc serves (mkLink a h ts g s r ns up down) (mkLink a h ts g s' (Ret b) ns up down')) as [down' Hr'];
    [|exists (mkLink a h ts g s' (Ret b) ns up down'), b; split_and!; try done; exact (yields_helped (λ b, b = true) _ _ _ Hr)].
  remember (s, r) as p eqn:Hp. remember (s', Ret b) as p' eqn:Hp'. revert s r down Hp.
  induction Hr as [p|p p1 p2 Hs _ IH]; intros s r down ->; [injection Hp' as <- ->; by exists down|].
  inversion Hs as [c c' t (y & y' & Hy & Hh & ->)|c c' t t' Hpoll]; subst; clear Hs.
  - destruct Hh as [o f Hf|l st v chunk Hl Hv].
    + destruct (IH eq_refl _ _ (down ++ [f]) eq_refl) as [down' ?]. exists down'.
      eapply rtc_l; [by eapply serves_edge_frame|done].
    + destruct (IH eq_refl _ _ down eq_refl) as [down' ?]. exists down'.
      eapply rtc_l; [by eapply serves_client|done].
  - destruct (IH eq_refl _ _ down eq_refl) as [down' ?]. exists down'. eapply rtc_l; [by eapply serves_edge|done].
Qed.

Notation held_by σ W := (∀ k,
  (∃ hs x, conserved i (download k) W k σ hs x) ∧ (∃ hs x, conserved i (upload k) W k σ hs x))
  (only parsing).

Lemma agent_loop_goes_on W (σ : Link) x :
  (0 ≤ W ≤ u32_max)%Z → held_by σ W → sane i σ x → bounded x → alive σ →
  ∃ σ', rtc serves σ σ' ∧ agent_reader σ' = Ret true ∧ edge σ' = edge σ ∧ edge_reader σ' = edge_reader σ.
Proof using Type.
  intros HW Hh Hs Hb Ha. destruct (proj1 (san_sure _ _ _ Hs Hb)) as [Hy|(id & increment & Hu & Hf)].
  { destruct (agent_loop_returns σ Ha) as (σ' & b & Hr & Hret & He & Her & Hy'). exists σ'.
    by rewrite Hret, (Hy' Hy). }
  destruct (poll (agent_reader σ) (agent σ)) as [[a' t']|] eqn:Hp; cycle 1.
  { rewrite Hu in Hp. cbn in Hp. by destruct (on_window_update id increment (agent σ)). }
  pose proof (agent_reader_room i W σ x id increment a' t' HW Hh (san_object _ _ _ Hs) Hb Hu Hf Hp) as ->.
  destruct σ as [a h ts g s r ns up down]. exists (mkLink a' (Ret true) ts g s r ns up down).
  split; [|done]. by apply rtc_once, serves_agent.
Qed.

Lemma edge_loop_goes_on W (σ : Link) x :
  (0 ≤ W ≤ u32_max)%Z → held_by σ W → sane i σ x → bounded x → alive σ →
  ∃ σ', rtc serves σ σ' ∧ edge_reader σ' = Ret true ∧ agent_reader σ' = agent_reader σ.
Proof using Type.
  intros HW Hh Hs Hb Ha. destruct (proj2 (san_sure _ _ _ Hs Hb)) as [Hy|(id & increment & Hu & Hf)].
  { destruct (edge_loop_returns σ x Hs Ha) as (σ' & b & Hr & Hret & _ & Har & Hy'). exists σ'.
    by rewrite Hret, (Hy' Hy). }
  destruct (poll (edge_reader σ) (edge σ)) as [[s' t']|] eqn:Hp; cycle 1.
  { rewrite Hu, (edge_update_poll _ _ _ _ x (san_object _ _ _ Hs)) in Hp.
    by destruct (Session.on_window_update id increment x). }
  pose proof (edge_reader_room i W σ x id increment s' t' HW Hh (san_object _ _ _ Hs) Hb Hu Hf Hp) as ->.
  destruct σ as [a h ts g s r ns up down]. exists (mkLink a h ts g s' (Ret true) ns up down).
  split; [|done]. by apply rtc_once, serves_edge.
Qed.

Lemma start_alive σ x :
  link_start i σ → session_objs (edge σ) !! i = Some x → roomy x → ctx_healthy (agent σ) → alive σ.
Proof using Type.
  intros (Har & Hat & _ & Her & _ & _ & _ & _ & _ & _ & _ & y & Hy & _ & _ & Hq) Hx Hroom Hc.
  rewrite Hx in Hy. injection Hy as <-. split; rewrite ?Har, ?Hat, ?Her; try done.
  exists x, x. split_and!; [done..|]. split; [|done]. split; [done|].
  eapply Forall_impl; [exact Hq|]. apply creditless_fits.
Qed.

Lemma reached_alive W σ σ' :
  (0 ≤ W ≤ u32_max)%Z → rtc link_step σ σ' → held_by σ W → (∃ x, sane i σ x) → alive σ →
  held_by σ' W ∧ (∃ x, sane i σ' x) ∧ alive σ'.
Proof using Type.
  intros HW Hr. induction Hr as [σ|σ1 σ2 σ3 Hs _ IH]; [done|]. intros Hh Hsane Ha.
  apply IH; [by eapply step_held|by eapply step_sane|]. destruct Hsane as [x Hx]. by eapply step_alive.
Qed.

Lemma serves_run σ σ' : rtc serves σ σ' → rtc link_step σ σ'.
Proof using Type. induction 1 as [|σ1 σ2 σ3 Hs _ IH]; [done|]. etrans; [by apply serves_sound|done]. Qed.
End both.

(** C5: no read loop panics: from a fresh session on, whatever the tasks of agent and
    edge do, in any interleaving, a [WindowUpdate] never takes a semaphore above its
    maximum, so neither loop ever ends in the panic of [add_permits]. (The increments
    are for bytes that were sent against the same window, and a window is a [u32].) *)
Theorem read_loops_never_panic `{Tokio} `{MapIteration} `{HttpCrate} `{Rng} {R} `{RegistryOps R}
    {A} `{AuthProvider A} {U} health_json tunnels_json duration_debug parse_uri upstream public
    valid_method valid_uri http_error local_service options i x0 x σ σ' :
  link_start i σ → session_objs (edge σ) !! i = Some x0 → (0 ≤ initial_window x0 ≤ u32_max)%Z →
  rtc (link_step (R:=R) (A:=A) (U:=U) health_json tunnels_json duration_debug parse_uri upstream public
         valid_method valid_uri http_error local_service options i) σ σ' →
  session_objs (edge σ') !! i = Some x → (1 + Z.of_nat (length (stream_objs x)) < 2 ^ 64)%Z →
  agent_reader σ' ≠ Ret false ∧ edge_reader σ' ≠ Ret false.
Proof.
  intros Hst Hx0 HW Hr Hx Hb.
  edestruct (reached_sane (U:=U)) as (y & Hs); [exact Hst|exact Hx0|exact HW|exact Hr|].
  pose proof (san_object _ _ _ Hs) as Hy. rewrite Hx in Hy. injection Hy as <-.
  destruct (san_sure _ _ _ Hs Hb) as [Ha He]. split; [eapply sure_no_panic, Ha|eapply sure_no_panic, He]; done.
Qed.

(** C4: no read loop is stuck: from a fresh session on, whatever the tasks of agent
    and edge have done, in any interleaving, each read loop finishes the frame it is
    handling and is ready for the next, without help from any other task of either
    side: it may have to wait, but only until the connection takes queued frames, the
    agent's program its events, the local service the bodies of requests, and public
    clients those of responses. (The connection is one that takes every frame: what the
    transport's own windows may hold back is not modelled.) *)
Theorem read_loops_go_on `{Tokio} `{MapIteration} `{HttpCrate} `{Rng} {R} `{RegistryOps R}
    {A} `{AuthProvider A} {U} health_json tunnels_json duration_debug parse_uri upstream public
    valid_method valid_uri http_error local_service options i x0 x σ σ' :
  link_start i σ → session_objs (edge σ) !! i = Some x0 → (0 ≤ initial_window x0 ≤ u32_max)%Z →
  roomy x0 → ctx_healthy (agent σ) →
  rtc (link_step (R:=R) (A:=A) (U:=U) health_json tunnels_json duration_debug parse_uri upstream public
         valid_method valid_uri http_error local_service options i) σ σ' →
  session_objs (edge σ') !! i = Some x → (1 + Z.of_nat (length (stream_objs x)) < 2 ^ 64)%Z →
  ∃ σ'', rtc (serves i) σ' σ'' ∧ agent_reader σ'' = Ret true ∧ edge_reader σ'' = Ret true.
Proof.
  intros Hst Hx0 HW Hroom Hc Hr Hx Hb.
  edestruct (reached_alive (U:=U)) as (Hh & [y Hs] & Ha); [exact HW|exact Hr| | | |].
  { by eapply start_held. }
  { by apply start_sane. }
  { by eapply start_alive. }
  pose proof (san_object _ _ _ Hs) as Hy. rewrite Hx in Hy. injection Hy as <-.
  destruct (agent_loop_goes_on _ _ _ _ HW Hh Hs Hb Ha) as (σ1 & Hr1 & Hret1 & He1 & _).
  edestruct (reached_alive (U:=U)) as (Hh1 & [x1 Hs1] & Ha1);
    [exact HW|by eapply (serves_run health_json tunnels_json duration_debug parse_uri upstream public
       valid_method valid_uri http_error local_service options), Hr1|exact Hh|by exists x|exact Ha|].
  pose proof (san_object _ _ _ Hs1) as Hx1. rewrite He1, Hx in Hx1. injection Hx1 as <-.
  destruct (edge_loop_goes_on _ _ _ _ HW Hh1 Hs1 Hb Ha1) as (σ2 & Hr2 & Hret2 & Har2).
  exists σ2. split_and!; [by etrans|by rewrite Har2|done].
Qed.

(** A request whose body is cut into seventeen frames, and a local service that does
    not read: the agent's read loop waits with the last of them in its hands, until
    the service reads. *)
Definition clog_request : @Request list_http :=
  @mkRequest list_http (lit "POST") demo_uri (lit "HTTP/1.1") (host_headers (lit "MyApp.localhost:8080"))
    (replicate 17 (DataFrame (lit "a"))).
Definition clog_moves : list (@move list_http) :=
  [AgentEmits; EdgeTakes] ++ replicate 20 EdgeReads ++
  [@RequestArrives list_http (lit "node_1") Public clog_request (lit "1.2.3.4:5")] ++
  replicate 80 (EdgeWorks 0) ++ replicate 20 EdgeEmits ++
  concat (replicate 19 (AgentTakes :: replicate 6 AgentReads)).
Definition clog_run (moves : list (@move list_http)) : @Link view_tokio MemoryRegistry StaticTokenAuth :=
  @link_run view_tokio sorted_iteration list_http modular_rng MemoryRegistry _ StaticTokenAuth unit
    no_json1 no_json2 dec (λ _, None) (λ _, Err (lit "down")) any_text any_text no_http_error
    demo_service demo_options 0 moves demo_link.

Definition waits {S B} (t : task S B) (s : S) : bool :=
  match t with
  | Ret _ => false
  | Step f => match f s with Some _ => false | None => true end
  end.

Lemma clog_moves_ok : Forall (@move_ok list_http (λ _, True)) clog_moves.
Proof. unfold clog_moves. repeat (apply Forall_app; split); by repeat constructor. Qed.

Lemma read_loops_go_on_witness :
  waits (agent_reader (clog_run clog_moves)) (agent (clog_run clog_moves)) = true ∧
  ∃ σ, rtc (@serves view_tokio _ _ 0) (clog_run clog_moves) σ ∧
    agent_reader σ = Ret true ∧ edge_reader σ = Ret true.
Proof.
  split; [vm_compute; reflexivity|].
  assert ((λ x, length (@stream_objs view_tokio x)) <$>
    @session_objs view_tokio _ _ (edge (clog_run clog_moves)) !! 0 = Some 1) as Hl by (vm_compute; reflexivity).
  destruct (@session_objs view_tokio _ _ (edge (clog_run clog_moves)) !! 0) as [x|] eqn:Hx; [|discriminate Hl].
  injection Hl as Hl.
  refine (@read_loops_go_on view_tokio sorted_iteration list_http modular_rng MemoryRegistry _
    StaticTokenAuth _ unit no_json1 no_json2 dec (λ _, None) (λ _, Err (lit "down"))
    (λ _, True) any_text any_text no_http_error demo_service demo_options 0 fresh_session x
    demo_link (clog_run clog_moves) demo_link_start eq_refl _ _ _ _ Hx _).
  - split; [apply Z.leb_le; reflexivity|apply Z.leb_le; reflexivity].
  - split; [apply Nat.ltb_lt; reflexivity|constructor].
  - split; [apply Nat.ltb_lt; reflexivity|]. split; [apply Nat.ltb_lt; reflexivity|]. split; [constructor|].
    intros id st Hid. exact (False_ind _ (lookup_empty_Some id st Hid)).
  - apply link_run_sound, clog_moves_ok.
  - rewrite Hl. reflexivity.
Defined.

(** The service reads, and both sides return the credit of what was read. *)
Definition credit_moves : list (@move list_http) :=
  clog_moves ++ [ServiceReads 0] ++ replicate 6 AgentReads ++ replicate 20 AgentEmits ++
  concat (replicate 20 (EdgeTakes :: replicate 4 EdgeReads)).

Lemma read_loops_never_panic_witness :
  (@upload_window view_tokio 1 <$> @session_objs view_tokio _ _ (edge (clog_run clog_moves)) !! 0 =
     Some 65519%Z) ∧
  (@upload_window view_tokio 1 <$> @session_objs view_tokio _ _ (edge (clog_run credit_moves)) !! 0 =
     Some 65536%Z) ∧
  agent_reader (clog_run credit_moves) ≠ Ret false ∧ edge_reader (clog_run credit_moves) ≠ Ret false.
Proof.
  split; [vm_compute; reflexivity|]. split; [vm_compute; reflexivity|].
  assert ((λ x, length (@stream_objs view_tokio x)) <$>
    @session_objs view_tokio _ _ (edge (clog_run credit_moves)) !! 0 = Some 1) as Hl by (vm_compute; reflexivity).
  destruct (@session_objs view_tokio _ _ (edge (clog_run credit_moves)) !! 0) as [x|] eqn:Hx; [|discriminate Hl].
  injection Hl as Hl.
  refine (@read_loops_never_panic view_tokio sorted_iteration list_http modular_rng MemoryRegistry _
    StaticTokenAuth _ unit no_json1 no_json2 dec (λ _, None) (λ _, Err (lit "down"))
    (λ _, True) any_text any_text no_http_error demo_service demo_options 0 fresh_session x
    demo_link (clog_run credit_moves) demo_link_start eq_refl _ _ Hx _).
  - split; [apply Z.leb_le; reflexivity|apply Z.leb_le; reflexivity].
  - apply link_run_sound, Forall_app. split; [apply clog_moves_ok|by repeat constructor].
  - rewrite Hl. reflexivity.
Defined.
