(* ===== verification/AgentSession.v ===== *)
(** * [norupo-client/src/agent.rs]: what one agent session, and a row of them, guarantee *)

From S2P Require Import Prelude RustStr Crates Async Proto Http ClientConfig Agent.

(** ** Frames that follow [Open] *)
Section frames.
Context `{Tokio}.

(** Room for [n] more frames on the queue to the edge. *)
Definition room (n : nat) (c : SessionCtx) : Prop :=
  ch_receiver (ch_view (ctx_outbound c)) = true ∧
  length (out_queue c) + n ≤ ch_capacity (ch_view (ctx_outbound c)).

Lemma run_ctx_send {B} p (k : bool → task SessionCtx B) c :
  room 1 c →
  ∃ o, run (task_bind (ctx_send p) k) c = run (k true) (ctx_with_outbound o c) ∧
    ch_view o = mkChan (out_queue c ++ [Some p]) (ch_capacity (ch_view (ctx_outbound c)))
                  (ch_senders (ch_view (ctx_outbound c))) true.
Proof using Type.
  intros [Hr Hn]. unfold ctx_send. simpl.
  pose proof (ch_send_view (Some p : ClientFrame) (ctx_outbound c)) as Hv.
  unfold send_spec in Hv. rewrite Hr in Hv. unfold out_queue in *. simpl in Hv.
  rewrite decide_True in Hv by lia.
  destruct (ch_send _ (ctx_outbound c)) as [[o b]|]; [|done]. injection Hv as Ho ->.
  by exists o.
Qed.

(** A stream of the table whose body channel holds [q]. *)
Record streaming (id : Z) (st : StreamState) (window : Z) (q : list str) (c : SessionCtx) : Prop := {
  str_entry : ctx_streams c !! id = Some st;
  str_body : ∃ b, ctx_bodies c !! st_body_tx st = Some b ∧ ch_view b = mkChan q BODY_QUEUE 1 true;
  str_window : ∃ w, ctx_credits c !! st_send_credit st = Some w ∧ sem_view w = mkSem window false;
}.

Lemma streaming_open open c :
  streaming (so_stream_id open) (mkStreamState (length (ctx_bodies c)) (length (ctx_credits c)))
    (so_initial_window open) [] (register_open open c).
Proof using Type.
  unfold register_open. split; simpl.
  - apply lookup_insert_eq.
  - exists (ch_channel BODY_QUEUE). rewrite ch_channel_view. split; [|done].
    apply list_lookup_middle. destruct (ctx_streams c !! so_stream_id open); [|done].
    by rewrite length_alter.
  - exists (sem_new (so_initial_window open)). rewrite sem_new_view. split; [|done].
    by apply list_lookup_middle.
Qed.

Lemma run_on_data id st window q payload c :
  streaming id st window q c → length q < BODY_QUEUE → room 1 c →
  ∃ c', run (on_data id payload) c = (c', Ret tt) ∧ streaming id st window (q ++ [payload]) c' ∧
    out_queue c' = out_queue c ++ [Some (CWindowUpdate id (u32_saturate (byte_len payload)))] ∧
    ctx_spawned c' = ctx_spawned c ∧
    ch_receiver (ch_view (ctx_outbound c')) = true ∧
    ch_capacity (ch_view (ctx_outbound c')) = ch_capacity (ch_view (ctx_outbound c)).
Proof using Type.
  intros [He (b & Hb & Hv) Hw] Hq Hroom. unfold on_data. rewrite run_atomic.
  unfold body_sender. rewrite He. cbn [fst snd].
  set (c1 := update_body (st_body_tx st) ch_clone_tx c).
  assert (ctx_bodies c1 !! st_body_tx st = Some (ch_clone_tx b)) as Hb1
    by (by subst c1; simpl; rewrite list_lookup_alter_eq, Hb).
  unfold push_body. cbn [task_bind await run]. rewrite Hb1.
  pose proof (ch_send_view payload (ch_clone_tx b)) as Hs.
  rewrite ch_clone_view, Hv in Hs. unfold send_spec in Hs. simpl in Hs.
  rewrite decide_True in Hs by done.
  destruct (ch_send payload (ch_clone_tx b)) as [[b' ok]|]; [|done]. injection Hs as Hb' ->.
  set (c2 := update_body (st_body_tx st) (λ _, b') c1).
  destruct (run_ctx_send (CWindowUpdate id (u32_saturate (byte_len payload)))
              (λ _, Ret tt) c2) as (o & Hrun & Ho); [done|].
  eexists. split.
  { transitivity (run ((ctx_send (CWindowUpdate id (u32_saturate (byte_len payload))) ;;! Ret tt) ;;!
                       modify (update_body (st_body_tx st) ch_drop_tx)) c2); [reflexivity|].
    rewrite (run_bind _ _ _ _ _ Hrun). reflexivity. }
  simpl. split_and!; [|by unfold out_queue; simpl; rewrite Ho|done|by rewrite Ho|by rewrite Ho].
  split; simpl; [done| |done].
  exists (ch_drop_tx b'). rewrite !list_lookup_alter_eq, Hb. split; [done|].
  by rewrite ch_drop_tx_view, Hb'.
Qed.

(** ** The read loop over a list of frames *)
Section loop.
Context (options : AgentOptions).

Lemma run_frame p rest c c' :
  run (handle_server_frame options p) c = (c', Ret true) →
  run (read_loop options (InFrame (Some p) :: rest)) c = run (read_loop options rest) c'.
Proof using Type. intros Hr. cbn [read_loop]. by rewrite (run_bind _ _ _ _ _ Hr). Qed.

Definition data_items (id : Z) (payloads : list str) : list Inbound :=
  (λ p, InFrame (Some (SData id p))) <$> payloads.
Definition window_updates (id : Z) (payloads : list str) : list ClientFrame :=
  (λ p, Some (CWindowUpdate id (u32_saturate (byte_len p)))) <$> payloads.

Lemma run_data_items id st window payloads q rest c :
  streaming id st window q c → length q + length payloads ≤ BODY_QUEUE → room (length payloads) c →
  ∃ c', run (read_loop options (data_items id payloads ++ rest)) c = run (read_loop options rest) c' ∧
    streaming id st window (q ++ payloads) c' ∧
    out_queue c' = out_queue c ++ window_updates id payloads ∧ ctx_spawned c' = ctx_spawned c.
Proof using Type.
  revert q c. induction payloads as [|p payloads IH]; intros q c Hs Hq [Hr Hn].
  { exists c. by rewrite !app_nil_r. }
  simpl in Hq, Hn. destruct (run_on_data id st window q p c) as (c1 & Hrun & Hs1 & Ho1 & Hsp & Hr1 & Hc1);
    [done|lia|split; [done|lia]|].
  destruct (IH (q ++ [p]) c1) as (c2 & Hrun2 & Hs2 & Ho2 & Hsp2); [done| | |].
  - rewrite length_app. simpl. lia.
  - split; [done|]. rewrite Ho1, Hc1, length_app. simpl. lia.
  - exists c2. split.
    + cbn [data_items fmap list_fmap app]. rewrite (run_frame _ _ c c1); [exact Hrun2|].
      cbn [handle_server_frame]. by rewrite (run_bind _ _ _ _ _ Hrun).
    + rewrite <- app_assoc in Hs2. split_and!; [done| |congruence].
      by rewrite Ho2, Ho1, <- app_assoc.
Qed.
End loop.
End frames.

(** Frames that follow [Open] at once are not lost: after the read loop has taken
    [Open], up to [BODY_QUEUE] body frames and [End], the stream's task is spawned on
    a body channel that holds exactly the payloads, in order, and then ends, its
    window is the one the edge granted, and each payload's length was returned to
    the edge as credit, once. *)
Theorem early_frames_kept `{Tokio} options open payloads trailers c :
  length payloads ≤ BODY_QUEUE → room (length payloads) c →
  ∃ c', run (read_loop options (InFrame (Some (SOpen open)) ::
               data_items (so_stream_id open) payloads ++
               [InFrame (Some (SEnd (so_stream_id open) trailers))])) c = (c', Ret (Ended (Ok tt))) ∧
    ctx_spawned c' = ctx_spawned c ++ [(open, length (ctx_bodies c), length (ctx_credits c))] ∧
    (∃ b, ctx_bodies c' !! length (ctx_bodies c) = Some b ∧ ch_view b = mkChan payloads BODY_QUEUE 0 true) ∧
    (∃ w, ctx_credits c' !! length (ctx_credits c) = Some w ∧ sem_view w = mkSem (so_initial_window open) false) ∧
    out_queue c' = out_queue c ++ window_updates (so_stream_id open) payloads.
Proof.
  intros Hlen Hroom. set (id := so_stream_id open).
  rewrite (run_frame options _ _ c (register_open open c)) by reflexivity.
  destruct (run_data_items options id _ _ payloads []
              [InFrame (Some (SEnd id trailers))] _ (streaming_open open c))
    as (c1 & Hrun & [He (b & Hb & Hv) (w & Hw & Hwv)] & Ho & Hsp); [done|done|].
  cbn [st_body_tx st_send_credit app] in *.
  rewrite Hrun, (run_frame options _ _ c1 (close_request_body id c1)) by reflexivity.
  eexists. split; [reflexivity|]. unfold close_request_body. rewrite He. simpl. split_and!.
  - by rewrite Hsp.
  - exists (ch_drop_tx b). rewrite lookup_app_l by (rewrite length_alter; by eapply lookup_lt_Some).
    rewrite list_lookup_alter_eq, Hb. split; [done|]. by rewrite ch_drop_tx_view, Hv.
  - by exists w.
  - exact Ho.
Qed.

Lemma early_frames_kept_witness :
  ∃ c', run (@read_loop view_tokio demo_options (InFrame (Some (SOpen demo_stream)) ::
               data_items 1 [lit "abc"] ++ [InFrame (Some (SEnd 1 []))])) demo_ctx
          = (c', Ret (Ended (Ok tt))) ∧
    @out_queue view_tokio c' = [Some (CWindowUpdate 1 3)].
Proof.
  destruct (@early_frames_kept view_tokio demo_options demo_stream [lit "abc"] [] demo_ctx)
    as (c' & Hr & _ & _ & _ & Ho);
    [by apply Nat.leb_le|split; [done|by apply Nat.leb_le]|].
  exists c'. split; [exact Hr|exact Ho].
Defined.

(** ** A local service that does not read *)

(** The receiver is alive and its channel is full. *)
Definition full_body `{Tokio} (l : nat) (c : SessionCtx) : Prop :=
  ∃ b, ctx_bodies c !! l = Some b ∧ ch_receiver (ch_view b) = true ∧
       ch_capacity (ch_view b) ≤ length (ch_queue (ch_view b)).

Lemma full_clone `{Tokio} l c : full_body l c → full_body l (update_body l ch_clone_tx c).
Proof.
  intros (b & Hb & Hr & Hq). exists (ch_clone_tx b). simpl. rewrite list_lookup_alter_eq, Hb.
  by rewrite ch_clone_view.
Qed.

Lemma push_full `{Tokio} l payload c :
  full_body l c → poll (push_body l payload) c = None.
Proof.
  intros (b & Hb & Hr & Hq). simpl. rewrite Hb. pose proof (ch_send_view payload b) as Hv.
  unfold send_spec in Hv. rewrite Hr, decide_False in Hv by lia.
  by destruct (ch_send payload b) as [[]|].
Qed.

(** C38: a stream whose local service does not read its request body stops the whole
    session: once [BODY_QUEUE] frames are waiting, the next body frame for it blocks
    the read loop for as long as the service does not read, and nothing that follows
    is handled or answered: no ping, no other stream. *)
Theorem slow_service_stalls_session `{Tokio} options (E : SessionCtx → SessionCtx → Prop)
    id st payload rest c tr t' c' :
  ctx_streams c !! id = Some st → full_body (st_body_tx st) c →
  (∀ x y, E x y → ctx_streams y !! id = ctx_streams x !! id) →
  (∀ x y, E x y → full_body (st_body_tx st) x → full_body (st_body_tx st) y) →
  exec E (read_loop options (InFrame (Some (SData id payload)) :: rest)) c tr t' c' →
  (∀ r, t' ≠ Ret r) ∧ sent_frames tr = [] ∧ full_body (st_body_tx st) c'.
Proof.
  intros Hst Hfull HE1 HE2 Hx.
  assert (∀ x y, rtc E x y → full_body (st_body_tx st) x → full_body (st_body_tx st) y) as Hf
    by (intros x y; induction 1; eauto).
  apply exec_Step in Hx as [(-> & -> & Hr)|(c1 & c2 & t1 & tr1 & Hr & Hp & -> & Hx)]; [by eauto|].
  assert (ctx_streams c1 !! id = Some st) as Hst1.
  { rewrite <- Hst. clear -Hr HE1. induction Hr as [|x y z Hxy _ IH]; [done|].
    by rewrite IH, (HE1 _ _ Hxy). }
  cbn in Hp. unfold body_sender in Hp. rewrite Hst1 in Hp. cbn in Hp. injection Hp as <- <-.
  assert (full_body (st_body_tx st) (update_body (st_body_tx st) ch_clone_tx c1)) as Hf2
    by (apply full_clone; eauto).
  assert (sent_frames [(c1, update_body (st_body_tx st) ch_clone_tx c1)] = []) as Hs
    by (apply (silent_step 0); done).
  apply exec_Step in Hx as [(-> & -> & Hr2)|(c3 & c4 & t2 & tr2 & Hr2 & Hp & -> & Hx)]; [by eauto|].
  exfalso. pose proof (push_full (st_body_tx st) payload c3 (Hf _ _ Hr2 Hf2)) as Hn.
  cbn in Hn, Hp. destruct (ctx_bodies c3 !! st_body_tx st) as [b|]; [|done].
  by destruct (ch_send payload b) as [[]|].
Qed.

(** Sixteen frames wait for a service that does not read. *)
Definition clogged_ctx : @SessionCtx view_tokio :=
  (run (@read_loop view_tokio demo_options (InFrame (Some (SOpen demo_stream)) ::
          data_items 1 (replicate 16 (lit "a")))) demo_ctx).1.

Lemma clogged_streaming :
  @streaming view_tokio 1 (mkStreamState 0 0) 65536 (replicate 16 (lit "a")) clogged_ctx.
Proof.
  unfold clogged_ctx.
  rewrite (@run_frame view_tokio demo_options _ _ demo_ctx (@register_open view_tokio demo_stream demo_ctx))
    by reflexivity.
  destruct (@run_data_items view_tokio demo_options 1 _ _ (replicate 16 (lit "a")) [] [] _
              (@streaming_open view_tokio demo_stream demo_ctx)) as (c & Hr & Hs & _);
    [by apply Nat.leb_le|split; [done|by apply Nat.leb_le]|].
  rewrite app_nil_r in Hr. rewrite Hr. exact Hs.
Qed.

Lemma clogged_full : @full_body view_tokio 0 clogged_ctx.
Proof.
  destruct clogged_streaming as [_ (b & Hb & Hv) _]. exists b. rewrite Hv.
  split; [exact Hb|]. split; [done|by apply Nat.leb_le].
Qed.

Lemma slow_service_stalls_session_witness :
  ∃ tr t' c', exec (λ _ _, False)
      (@read_loop view_tokio demo_options [InFrame (Some (SData 1 (lit "a"))); InFrame (Some (SPing 7 0))])
      clogged_ctx tr t' c' ∧ (∀ r, t' ≠ Ret r) ∧ @sent_frames view_tokio tr = [].
Proof.
  destruct (run_exec (λ _ _, False)
      (@read_loop view_tokio demo_options [InFrame (Some (SData 1 (lit "a"))); InFrame (Some (SPing 7 0))])
      clogged_ctx) as [tr Htr].
  destruct (run _ clogged_ctx) as [c' t'].
  exists tr, t', c'. split; [exact Htr|].
  destruct (@slow_service_stalls_session view_tokio demo_options (λ _ _, False) 1 (mkStreamState 0 0)
    (lit "a") [InFrame (Some (SPing 7 0))] clogged_ctx tr t' c') as (H1 & H2 & _);
    [apply clogged_streaming|apply clogged_full|by intros|by intros|exact Htr|by split].
Defined.

(** ** A request body that was cut short

    A client that fails in the middle of its body makes the edge reset the stream; the
    local service then reads what an [End] in its place would have given it: the bytes
    so far, and the end of the body. Only a length it was told can tell the two apart. *)
Lemma cut_body_reads_as_complete `{Tokio} options id st b code message trailers c :
  ctx_streams c !! id = Some st → ctx_bodies c !! st_body_tx st = Some b → ch_senders (ch_view b) = 1 →
  ∃ c1 c2 b',
    run (handle_server_frame options (SReset id code message)) c = (c1, Ret true) ∧
    run (handle_server_frame options (SEnd id trailers)) c = (c2, Ret true) ∧
    ctx_bodies c1 !! st_body_tx st = Some b' ∧ ctx_bodies c2 !! st_body_tx st = Some b' ∧
    ch_view b' = mkChan (ch_queue (ch_view b)) (ch_capacity (ch_view b)) 0 (ch_receiver (ch_view b)).
Proof.
  intros Hst Hb Hs. exists (drop_stream id c), (close_request_body id c), (ch_drop_tx b).
  split; [done|]. split; [done|]. unfold drop_stream, close_request_body. rewrite Hst. cbn.
  split; [by rewrite list_lookup_alter_eq, Hb|]. split.
  - rewrite lookup_app_l by (rewrite length_alter; by eapply lookup_lt_Some).
    by rewrite list_lookup_alter_eq, Hb.
  - rewrite ch_drop_tx_view. unfold drop_tx_spec. by rewrite Hs.
Qed.

(** ** What the read loop sends *)

(** The frames one frame of the edge may be answered with. *)
Definition reply_to (options : AgentOptions) (p : ServerPayload) (f : ClientFrame) : Prop :=
  match p, f with
  | SWelcome _, Some (COpenTunnel open) => ∃ now, open = build_open_tunnel options now
  | SData id d, Some (CWindowUpdate id' n) => id' = id ∧ n = u32_saturate (byte_len d)
  | SPing nonce _, Some (CPong nonce' _) => nonce' = nonce
  | _, _ => False
  end.

(** A step that queues nothing, or one frame in [P]. *)
Definition sends `{Tokio} (P : ClientFrame → Prop) (c c' : SessionCtx) : Prop :=
  out_queue c' = out_queue c ∨ ∃ f, out_queue c' = out_queue c ++ [f] ∧ P f.

Section replies.
Context `{Tokio} (options : AgentOptions).

Lemma sends_weaken (P Q : ClientFrame → Prop) c c' :
  (∀ f, P f → Q f) → sends P c c' → sends Q c c'.
Proof using Type. intros HPQ [He|(f & He & Hf)]; [by left|right; eauto]. Qed.

Lemma sends_same P (c c' : SessionCtx) : ctx_outbound c' = ctx_outbound c → sends P c c'.
Proof using Type. intros Ho. left. unfold out_queue. by rewrite Ho. Qed.

Lemma obeys_ctx_send (P : ClientFrame → Prop) p : P (Some p) → obeys (sends P) (ctx_send p).
Proof using Type.
  intros Hp. apply obeys_await. intros c c' ok.
  pose proof (ch_send_view (Some p : ClientFrame) (ctx_outbound c)) as Hv.
  destruct (ch_send _ (ctx_outbound c)) as [[o b]|]; [|done]. intros [= <- <-].
  simpl in Hv. unfold send_spec in Hv. unfold sends, out_queue. simpl.
  destruct (ch_receiver (ch_view (ctx_outbound c))); simpl in Hv.
  - destruct (decide _); [|done]. injection Hv as Ho _. rewrite Ho. right. by exists (Some p).
  - injection Hv as Ho _. left. by rewrite Ho.
Qed.

Lemma obeys_silent (P : ClientFrame → Prop) f :
  (∀ c, ctx_outbound (f c) = ctx_outbound c) → obeys (sends P) (modify f).
Proof using Type. intros Ho. apply obeys_modify. intros c. by apply sends_same. Qed.

Lemma obeys_emit (P : ClientFrame → Prop) e : obeys (sends P) (emit e).
Proof using Type.
  apply obeys_await. intros c c' []. destruct (ch_send e _) as [[o b]|]; [|done].
  intros [= <-]. by apply sends_same.
Qed.

Lemma drop_outbound id (c : SessionCtx) : ctx_outbound (drop_stream id c) = ctx_outbound c.
Proof using Type. unfold drop_stream. by destruct (ctx_streams c !! id). Qed.

Lemma obeys_on_data id payload : obeys (sends (reply_to options (SData id payload))) (on_data id payload).
Proof using Type.
  apply obeys_bind.
  { apply obeys_atomic. intros c. apply sends_same. unfold body_sender.
    by destruct (ctx_streams c !! id). }
  intros [l|]; [|done]. apply obeys_bind.
  { apply obeys_await. intros c c' ok. destruct (ctx_bodies c !! l) as [b|]; [|done].
    destruct (ch_send payload b) as [[b' ok']|]; [|done]. intros [= <- <-]. by apply sends_same. }
  intros ok. apply obeys_bind.
  - destruct ok; [by apply obeys_bind; [apply obeys_ctx_send|]|].
    apply obeys_silent. apply drop_outbound.
  - intros _. by apply obeys_silent.
Qed.

Lemma obeys_frame p : obeys (sends (reply_to options p)) (handle_server_frame options p).
Proof using Type.
  destruct p; cbn [handle_server_frame]; try done; (apply obeys_bind || idtac); try (intros; done);
    try apply obeys_emit.
  - intros _. apply obeys_bind; [apply obeys_query; by left|]. intros now.
    apply obeys_bind; [|done]. apply obeys_ctx_send. by eexists.
  - by apply obeys_silent.
  - apply obeys_on_data.
  - apply obeys_silent. intros c. unfold close_request_body. by destruct (ctx_streams c !! _).
  - apply obeys_silent. apply drop_outbound.
  - apply obeys_atomic. intros c. apply sends_same. unfold on_window_update. by repeat case_match.
  - apply obeys_query. by left.
  - intros now. apply obeys_bind; [by apply obeys_ctx_send|done].
Qed.

Definition replies (inbound : list Inbound) (f : ClientFrame) : Prop :=
  ∃ p, InFrame (Some p) ∈ inbound ∧ reply_to options p f.

Lemma obeys_read_loop inbound : obeys (sends (replies inbound)) (read_loop options inbound).
Proof using Type.
  assert (∀ i rest f, replies rest f → replies (i :: rest) f) as Hr.
  { intros i rest f (p & Hp & Hf). exists p. split; [by right|done]. }
  induction inbound as [|[[p|]|text|] inbound IH]; cbn [read_loop]; try done.
  - apply obeys_bind.
    + eapply obeys_weaken; [|apply obeys_frame]. intros c c'. apply sends_weaken.
      intros f Hf. exists p. split; [left|done].
    + intros []; [|done]. eapply obeys_weaken; [|apply IH]. intros c c'. apply sends_weaken. auto.
  - eapply obeys_weaken; [|apply IH]. intros c c'. apply sends_weaken. auto.
Qed.

Lemma sends_sent P (tr : list (SessionCtx * SessionCtx)) :
  Forall (λ p, sends P p.1 p.2) tr → Forall P (sent_frames tr).
Proof using Type.
  induction 1 as [|[c c'] tr Hp _ IH]; [constructor|]. change ((c, c') :: tr) with ([(c, c')] ++ tr).
  rewrite sent_app. apply Forall_app. split; [|done]. unfold sent_frames. simpl in *.
  rewrite app_nil_r. destruct Hp as [-> |(f & -> & Hf)]; [by rewrite drop_all|].
  rewrite drop_app_length. by constructor.
Qed.
End replies.

(** Everything the read loop sends is a reply to a frame of the edge: credit for a
    body frame, a pong for a ping, a tunnel request for a welcome. In particular a
    session asks for its tunnel only when it is welcomed: an edge that reports a lost
    tunnel ([TunnelStatus] with [accepted] false) is not asked for it again, and the
    session goes on without one. *)
Theorem read_loop_replies `{Tokio} options E inbound c tr t' c' :
  exec E (read_loop options inbound) c tr t' c' →
  Forall (replies options inbound) (sent_frames tr) ∧
  ((∀ w, InFrame (Some (SWelcome w)) ∉ inbound) → ∀ open, Some (COpenTunnel open) ∉ sent_frames tr).
Proof.
  intros Hx. destruct (obeys_exec (sends (replies options inbound)) E _ _ _ _ _ Hx
                         (obeys_read_loop options inbound)) as (_ & Htr & _).
  pose proof (sends_sent _ _ Htr) as Hf. split; [done|]. intros Hw open Hin.
  destruct (proj1 (Forall_forall _ _) Hf _ Hin) as (p & Hp & Hr).
  destruct p; try done. by destruct (Hw welcome).
Qed.

Definition lost_status : TunnelStatus :=
  mkTunnelStatus [] (lit "tun_1") false (lit "routing claim lost; reconnect to re-register") [] [].

Lemma read_loop_replies_witness :
  ∃ tr t' c', exec (λ _ _, False)
      (@read_loop view_tokio demo_options [InFrame (Some (STunnelStatus lost_status))]) demo_ctx tr t' c' ∧
    ∀ open, Some (COpenTunnel open) ∉ @sent_frames view_tokio tr.
Proof.
  destruct (run_exec (λ _ _, False)
      (@read_loop view_tokio demo_options [InFrame (Some (STunnelStatus lost_status))]) demo_ctx) as [tr Htr].
  destruct (run _ demo_ctx) as [c' t']. exists tr, t', c'. split; [exact Htr|].
  refine (proj2 (@read_loop_replies view_tokio demo_options (λ _ _, False) _ demo_ctx tr t' c' Htr) _).
  intros w [?|?%not_elem_of_nil]%elem_of_cons; done.
Defined.

(** ** The handshake and what ends a session *)

Lemma read_loop_not_fatal `{Tokio} options E inbound c tr e c' :
  ¬ exec E (read_loop options inbound) c tr (Ret (Ended (Err (Fatal e)))) c'.
Proof.
  revert c tr. induction inbound as [|[[p|]|text|] inbound IH]; intros c tr Hx; cbn [read_loop] in Hx.
  - by apply exec_Ret in Hx as (_ & ? & _).
  - apply exec_bind_inv in Hx as ([] & c1 & tr1 & tr2 & _ & Hx & _); [by eapply IH|].
    by apply exec_Ret in Hx as (_ & ? & _).
  - by eapply IH.
  - by apply exec_Ret in Hx as (_ & ? & _).
  - by apply exec_Ret in Hx as (_ & ? & _).
Qed.

(** The edge's refusals that retrying cannot cure. *)
Definition final_refusal (code : Code) : bool :=
  match code with
  | FailedPrecondition | Unauthenticated | PermissionDenied => true
  | Unavailable | OtherCode => false
  end.

(** C30: an agent session starts with [Hello], carrying the configured token and the
    protocol version, before anything else is sent; and it ends in a fatal error,
    which stops the agent, exactly when the edge refused that hello with one of the
    three codes that retrying cannot cure. Every other failure is transient. *)
Theorem session_starts_with_hello `{Tokio} options status_text metadata connect rpc E c tr t' c' :
  exec E (run_session options status_text metadata connect rpc) c tr t' c' →
  (sent_frames tr = [] ∨ connect = Ok tt ∧ ∃ rest,
     sent_frames tr = Some (CHello (mkHello (opt_token options) AGENT_VERSION PROTOCOL_VERSION metadata)) :: rest) ∧
  ((∃ e, t' = Ret (Ended (Err (Fatal e)))) ↔
   ∃ r status, t' = Ret r ∧ sent_frames tr ≠ [] ∧ rpc = Err status ∧
     final_refusal (st_code status) = true).
Proof.
  intros Hx. destruct connect as [[]|e]; cbn [run_session] in Hx; cycle 1.
  { apply exec_Ret in Hx as (-> & -> & _). split; [by left|].
    split; [by intros [? ?]|by intros (? & ? & _ & ? & _)]. }
  apply (exec_ctx_send E _ _ _ _ _ _ 0) in Hx as [(-> & Hn)|(q & tr2 & ok & -> & Hx & _ & Hq)].
  { split; [by left|]. split; [intros [e ->]; by destruct (Hn (Ended (Err (Fatal e))))|].
    by intros (? & ? & _ & ? & _). }
  change (q :: tr2) with ([q] ++ tr2). rewrite sent_app. destruct ok; cbn [negb] in Hx; cycle 1.
  { destruct Hq as [-> _]. apply exec_Ret in Hx as (-> & -> & _). split; [by left|].
    split; [by intros [? ?]|by intros (? & ? & _ & ? & _)]. }
  rewrite Hq. split; [right; split; [done|by eexists]|].
  destruct rpc as [inbound|status].
  - split; [intros [e ->]; by destruct (read_loop_not_fatal options E inbound _ _ _ _ Hx)|].
    by intros (? & ? & _ & _ & ? & _).
  - apply exec_Ret in Hx as (-> & -> & _). unfold classify_status. split.
    + intros [e He]. eexists _, status. split_and!; [done|done|done|]. by destruct (st_code status).
    + intros (r & status' & _ & _ & [= <-] & Hf). destruct (st_code status); try done; by eexists.
Qed.

Definition status_debug (s : Status) : str := st_message s.

Lemma session_starts_with_hello_witness :
  ∃ tr c', exec (λ _ _, False) (@run_session view_tokio demo_options status_debug ∅ (Ok tt)
      (Err (mkStatus Unauthenticated (lit "unknown token")))) demo_ctx tr
      (Ret (Ended (Err (Fatal (lit "authentication failed: unknown token"))))) c' ∧
    @sent_frames view_tokio tr ≠ [].
Proof.
  destruct (run_exec (λ _ _, False) (@run_session view_tokio demo_options status_debug ∅ (Ok tt)
      (Err (mkStatus Unauthenticated (lit "unknown token")))) demo_ctx) as [tr Htr].
  exists tr. eexists. split; [exact Htr|].
  destruct (proj1 (proj2 (@session_starts_with_hello view_tokio demo_options status_debug ∅ (Ok tt)
    (Err (mkStatus Unauthenticated (lit "unknown token"))) (λ _ _, False) demo_ctx tr _ _ Htr)))
    as (_ & _ & _ & Hs & _); [by eexists|exact Hs].
Defined.

(** ** Reconnecting *)

(** Reconnect attempts since the last clean end, as the counter of [run] has it
    after some actions. *)
Definition count_attempt (n : Z) (a : Action) : Z :=
  match a with
  | RanSession (Ok _) => 0
  | Slept _ => u32_saturating_add n 1
  | _ => n
  end.
Definition attempts (n : Z) (acts : list Action) : Z := fold_left count_attempt acts n.

(** Every delay is the backoff for the attempts counted so far. *)
Fixpoint backed_off (n : Z) (acts : list Action) : Prop :=
  match acts with
  | [] => True
  | a :: rest =>
      match a with Slept ms => ms = reconnect_delay n | _ => True end ∧ backed_off (count_attempt n a) rest
  end.

Lemma backed_off_app n acts1 acts2 :
  backed_off n (acts1 ++ acts2) ↔ backed_off n acts1 ∧ backed_off (attempts n acts1) acts2.
Proof.
  revert n. induction acts1 as [|a acts1 IH]; intros n; simpl; [by intuition|].
  rewrite IH. unfold attempts. simpl. tauto.
Qed.

Lemma attempts_app n acts1 acts2 : attempts n (acts1 ++ acts2) = attempts (attempts n acts1) acts2.
Proof. apply fold_left_app. Qed.

(** Why [run] returned. *)
Definition ended_for_cause (options : AgentOptions) (turns : list Turn) (n : Z) (acts : list Action)
    (e : RunEnd) : Prop :=
  match e with
  | Stopped => Exists (λ t, turn_stop_before t = true ∨ turn_stop_after t = true ∨
                            turn_stop_asleep t = true) turns
  | Failed msg => Exists (λ t, turn_session t = Err (Fatal msg)) turns ∨
      msg = giving_up options ∧ (0 < opt_max_retries options ≤ attempts n acts)%Z
  | StillRunning n' => n' = attempts n acts
  end.

Lemma run_turn_policy options n turn acts e :
  run_turn options n turn = (acts, e) →
  backed_off n acts ∧ ended_for_cause options [turn] n acts e ∧
  (opt_max_retries options = 0%Z → (∀ m, turn_session turn ≠ Err (Fatal m)) →
   turn_stop_before turn = false → turn_stop_after turn = false → turn_stop_asleep turn = false →
   ∃ n', e = StillRunning n').
Proof.
  unfold run_turn, after_session.
  destruct (turn_stop_before turn) eqn:Hb.
  { intros [= <- <-]. split_and!; [done|constructor; by left|done]. }
  assert (∀ b, (0 <? opt_max_retries options)%Z && b = true → opt_max_retries options ≠ 0%Z) as Hz.
  { intros b Hc H0. by rewrite H0 in Hc. }
  destruct (turn_session turn) as [u|[m|m]] eqn:Hs.
  - destruct (turn_stop_after turn) eqn:Ha.
    { intros [= <- <-]. split_and!; [done|constructor; by right; left|done]. }
    destruct (_ && _)%bool eqn:Hm.
    { intros [= <- <-]. split_and!; [done| |naive_solver].
      right. split; [done|]. unfold attempts. simpl. lia. }
    destruct (turn_stop_asleep turn) eqn:Hp; intros [= <- <-].
    + split_and!; [done|constructor; by right; right|done].
    + split_and!; [done|done|by eexists].
  - destruct (turn_stop_after turn) eqn:Ha.
    { intros [= <- <-]. split_and!; [done|constructor; by right; left|done]. }
    destruct (_ && _)%bool eqn:Hm.
    { intros [= <- <-]. split_and!; [done| |naive_solver].
      right. split; [done|]. unfold attempts. simpl. lia. }
    destruct (turn_stop_asleep turn) eqn:Hp; intros [= <- <-].
    + split_and!; [done|constructor; by right; right|done].
    + split_and!; [done|done|by eexists].
  - intros [= <- <-]. split_and!; [done|left; by constructor|]. intros _ Hf. by destruct (Hf m).
Qed.

Definition quiet_turn (turn : Turn) : Prop :=
  turn_stop_before turn = false ∧ turn_stop_after turn = false ∧ turn_stop_asleep turn = false ∧
  ∀ m, turn_session turn ≠ Err (Fatal m).

Lemma run_agent_policy options n turns acts e :
  run_agent options n turns = (acts, e) →
  backed_off n acts ∧ ended_for_cause options turns n acts e ∧
  (opt_max_retries options = 0%Z → Forall quiet_turn turns → ∃ n', e = StillRunning n').
Proof.
  revert n acts. induction turns as [|turn turns IH]; intros n acts; cbn [run_agent].
  { intros [= <- <-]. split_and!; [done|done|by eexists]. }
  destruct (run_turn options n turn) as [acts1 e1] eqn:E1.
  apply run_turn_policy in E1 as (Hb & He & Hq).
  assert (∀ acts' e', e1 = e' → (acts1, e1) = (acts', e') → (∀ n', e1 ≠ StillRunning n') →
    backed_off n acts' ∧ ended_for_cause options (turn :: turns) n acts' e' ∧
    (opt_max_retries options = 0%Z → Forall quiet_turn (turn :: turns) →
     ∃ n', e' = StillRunning n')) as Hdone.
  { intros acts' e' _ [= <- <-] Hn. split_and!; [done| |].
    - destruct e1 as [|m|n']; simpl in *; [|destruct He as [He|He]; [left|by right]|by destruct (Hn n')];
        change (turn :: turns) with ([turn] ++ turns); apply Exists_app; by left.
    - intros Hz Hf. apply Forall_cons in Hf as [(? & ? & ? & ?) _].
      destruct Hq as [n' ->]; [done..|]. by destruct (Hn n'). }
  destruct e1 as [|m|n']; [intros Heq; by apply Hdone; [injection Heq|..]..|]. clear Hdone.
  destruct (run_agent options n' turns) as [acts2 e2] eqn:E2. intros [= <- <-].
  simpl in He. subst n'. apply IH in E2 as (Hb2 & He2 & Hq2). split_and!.
  - by apply backed_off_app.
  - destruct e2 as [|m|n2]; simpl in *; rewrite ?attempts_app; [by right|
      destruct He2 as [He2|He2]; [left; by right|by right]|done].
  - intros Hz Hf. apply Forall_cons in Hf as [_ Hf]. by apply Hq2.
Qed.

(** C27: the retry policy of [run]: every delay is the backoff for the number of
    reconnects since the last clean end of a session (or the start); the agent gives
    up only on a fatal error, or when [max_retries] is set and that many reconnects
    in a row have been made; and with [max_retries] 0 it goes on for ever, however
    many sessions fail, until it is told to stop. *)
Theorem run_policy options turns :
  let '(acts, e) := run_agent options 0 turns in
  backed_off 0 acts ∧ ended_for_cause options turns 0 acts e ∧
  (opt_max_retries options = 0%Z → Forall quiet_turn turns → ∃ n', e = StillRunning n').
Proof. destruct (run_agent options 0 turns) as [acts e] eqn:E. by apply run_agent_policy. Qed.

(** A turn whose session fails, while nobody stops the agent. *)
Definition failing (turn : Turn) : Prop :=
  turn_stop_before turn = false ∧ turn_stop_after turn = false ∧ turn_stop_asleep turn = false ∧
  ∃ m, turn_session turn = Err (Transient m).

Definition delays (acts : list Action) : list Z :=
  acts ≫= λ a, match a with Slept ms => [ms] | _ => [] end.
Definition sessions_run (acts : list Action) : Z :=
  foldr (λ a n, match a with RanSession _ => n + 1 | _ => n end)%Z 0%Z acts.

Lemma sessions_run_app acts1 acts2 :
  sessions_run (acts1 ++ acts2) = (sessions_run acts1 + sessions_run acts2)%Z.
Proof. induction acts1 as [|[] acts1 IH]; simpl; lia. Qed.

Lemma delays_app acts1 acts2 : delays (acts1 ++ acts2) = delays acts1 ++ delays acts2.
Proof. apply bind_app. Qed.

Lemma failing_turn options n turn :
  failing turn → (0 ≤ n < opt_max_retries options)%Z → (opt_max_retries options ≤ u32_max)%Z →
  ∃ r e, run_turn options n turn = ([RanSession r; Notified e; Slept (reconnect_delay n)], StillRunning (n + 1)).
Proof.
  intros (H1 & H2 & H3 & m & Hs) Hn Hmax. unfold run_turn, after_session. rewrite H1, Hs, H2, H3.
  replace (_ && _)%bool with false by lia. unfold u32_saturating_add. rewrite Z.min_l by lia. by eexists _, _.
Qed.

Lemma exhausted options k n turns :
  Z.of_nat k = (opt_max_retries options - n)%Z → (0 ≤ n)%Z → (0 < opt_max_retries options ≤ u32_max)%Z →
  Forall failing turns → k < length turns →
  ∃ acts, run_agent options n turns = (acts, Failed (giving_up options)) ∧
    sessions_run acts = (Z.of_nat k + 1)%Z ∧ delays acts = reconnect_delay <$> seqZ n (Z.of_nat k).
Proof.
  revert n turns. induction k as [|k IH]; intros n turns Hk Hn Hmax Hf Hl;
    (destruct Hf as [|turn turns Ht Hf]; [simpl in Hl; lia|]); cbn [run_agent].
  - destruct Ht as (H1 & H2 & H3 & m & Hs). unfold run_turn, after_session. rewrite H1, Hs, H2.
    replace (_ && _)%bool with true by lia. by eexists.
  - destruct (failing_turn options n turn) as (r & e & ->); [done|lia|lia|].
    destruct (IH (n + 1)%Z turns) as (acts & -> & Hs & Hd); [lia|lia|done|done|simpl in Hl; lia|].
    eexists. split; [done|]. split; [simpl; lia|].
    rewrite (seqZ_cons n) by lia. cbn [app delays mbind list_bind fmap list_fmap].
    unfold delays in Hd. rewrite Hd. by replace (Z.pred (Z.of_nat (S k))) with (Z.of_nat k) by lia.
Qed.

(** C26: with a retry limit and an edge that never answers, [run] terminates: after the
    first session and exactly [max_retries] reconnects, with the delays of the
    backoff from 0 on, it gives up. *)
Theorem retries_exhausted options turns :
  (0 < opt_max_retries options ≤ u32_max)%Z → Forall failing turns →
  (opt_max_retries options < Z.of_nat (length turns))%Z →
  ∃ acts, run_agent options 0 turns = (acts, Failed (giving_up options)) ∧
    sessions_run acts = (opt_max_retries options + 1)%Z ∧
    delays acts = reconnect_delay <$> seqZ 0 (opt_max_retries options).
Proof.
  intros Hmax Hf Hl.
  destruct (exhausted options (Z.to_nat (opt_max_retries options)) 0 turns)
    as (acts & Hr & Hs & Hd); [lia|lia|done|done|lia|].
  exists acts. rewrite Z2Nat.id in Hs, Hd by lia. done.
Qed.

Definition down : Turn := mkTurn false (Err (Transient (lit "connect"))) false false.
Definition two_retries : AgentOptions :=
  mkAgentOptions (lit "http://127.0.0.1:1") (lit "tok") (lit "127.0.0.1:3000") None None false 2.

Lemma retries_exhausted_witness :
  ∃ acts, run_agent two_retries 0 [down; down; down; down] = (acts, Failed (giving_up two_retries)) ∧
    sessions_run acts = 3%Z ∧ delays acts = [250; 500]%Z.
Proof.
  apply (retries_exhausted two_retries [down; down; down; down]);
    [by vm_compute|repeat constructor; by eexists|by vm_compute].
Defined.
