(* ===== verification/EndToEnd.v ===== *)
(** * The agent and the edge together

    A frame travels when one side's queue yields it and the other side handles it.
    These theorems compose the agent's handlers with the edge's, over the frames
    they exchange, for the handshake, the registration of a tunnel, and one request. *)

From S2P Require Import Prelude RustStr Crates CoreError Routing Auth Ids ServerConfig.
From S2P Require Import Registry MemoryRegistry Async Proto Http ClientConfig.
From S2P Require Import Agent AgentSession.
From S2P Require Import Session Control Ingress.

(** ** The handshake *)

(** C31: the edge's answer to the hello an agent sends: a token the edge does not accept
    stops the agent at once, without a retry; an accepted one gives it a session
    object of its own, whose first frame is the welcome. The protocol versions of the
    two always agree. *)
Theorem hello_meets_edge `{Tokio} `{Rng} {R A} `{AuthProvider A} options metadata rest
    (s : AppState (R:=R) (A:=A)) :
  let '(s', t) := run (session (Ok (Some (CHello (hello options metadata))) :: rest)) s in
  match authenticate (auth s) (opt_token options) with
  | Ok principal => t = Ret (Ok (length (session_objs s))) ∧
      sessions s' = <[session_id (draws s) := length (session_objs s)]> (sessions s) ∧
      ∃ x, session_objs s' = session_objs s ++ [x] ∧ fresh_session_object s principal x
  | Err e => s' = s ∧ ∃ status, t = Ret (Err status) ∧
      ∀ status_text n turn, turn_stop_before turn = false →
        turn_session turn = Err (classify_status status_text status) →
        ∃ msg, run_turn options n turn = ([RanSession (turn_session turn)], Failed msg)
  end.
Proof.
  cbn [session]. change (opt_token options) with (hello_token (hello options metadata)).
  destruct (authenticate (auth s) (hello_token (hello options metadata))) as [principal|e] eqn:Ha.
  - destruct (run_accept_session (hello options metadata) principal s eq_refl Ha)
      as (s' & x & -> & _ & _ & Hs & Ho & Hx). split_and!; [done..|]. by exists x.
  - unfold accept_session. change (hello_protocol_version (hello options metadata)) with PROTOCOL_VERSION.
    rewrite Z.eqb_refl. cbn [negb]. rewrite run_query, Ha. split; [done|].
    eexists. split; [done|]. intros status_text n turn Hb Ht. unfold run_turn. rewrite Hb, Ht.
    cbn. by eexists.
Qed.

(** ** Bringing a tunnel up *)
Section tunnel.
Context `{Tokio}.

Definition events_room (n : nat) (c : SessionCtx) : Prop :=
  ch_receiver (ch_view (ctx_events c)) = true ∧
  length (ch_queue (ch_view (ctx_events c))) + n ≤ ch_capacity (ch_view (ctx_events c)).

Definition seen_events (c : SessionCtx) : list AgentEvent := ch_queue (ch_view (ctx_events c)).

Lemma run_emit {B} e (k : unit → task SessionCtx B) c n :
  events_room (S n) c →
  ∃ c', run (task_bind (emit e) k) c = run (k tt) c' ∧ seen_events c' = seen_events c ++ [e] ∧
    events_room n c' ∧ Agent.ctx_outbound c' = Agent.ctx_outbound c ∧ ctx_now c' = ctx_now c.
Proof using Type.
  intros [Hr Hn]. unfold emit. simpl. pose proof (ch_send_view e (ctx_events c)) as Hv.
  unfold send_spec in Hv. rewrite Hr in Hv. simpl in Hv. rewrite decide_True in Hv by lia.
  destruct (ch_send e (ctx_events c)) as [[o b]|]; [|done]. injection Hv as Ho ->.
  exists (ctx_with_events o c). unfold seen_events, events_room. simpl. rewrite Ho. simpl.
  rewrite length_app. simpl. split_and!; done || lia.
Qed.

(** The agent's side: what it does on [Welcome] and on the answer. *)
Lemma run_welcome options w c :
  AgentSession.room 1 c → events_room 2 c →
  ∃ c1, run (handle_server_frame options (SWelcome w)) c = (c1, Ret true) ∧
    out_queue c1 = out_queue c ++ [Some (COpenTunnel (build_open_tunnel options (ctx_now c)))] ∧
    seen_events c1 = seen_events c ++ [Connected (w_session_id w) (w_node_id w)] ∧ events_room 1 c1.
Proof using Type.
  intros Hroom He. cbn [handle_server_frame].
  destruct (run_emit (Connected (w_session_id w) (w_node_id w))
    (λ _, let! now := query ctx_now in
          Agent.ctx_send (COpenTunnel (build_open_tunnel options now)) ;;! Ret true) c 1 He)
    as (c0 & Hr & Hs & Hr0 & Ho & Hn).
  rewrite Hr. unfold query. rewrite run_atomic. cbn [fst snd].
  assert (AgentSession.room 1 c0) as Hroom0
    by (unfold AgentSession.room, out_queue in *; by rewrite Ho).
  destruct (AgentSession.run_ctx_send (COpenTunnel (build_open_tunnel options (ctx_now c0)))
              (λ _, Ret true) c0 Hroom0) as (o & Hr1 & Hv).
  rewrite Hr1. eexists. split; [reflexivity|]. split_and!; [|done|done].
  unfold out_queue. simpl. rewrite Hv. unfold out_queue. by rewrite Ho, Hn.
Qed.

Lemma run_status options st c n :
  events_room (S n) c →
  ∃ c1, run (handle_server_frame options (STunnelStatus st)) c = (c1, Ret true) ∧
    out_queue c1 = out_queue c ∧
    seen_events c1 = seen_events c ++
      [if ts_accepted st then TunnelReady st else TunnelRejected (ts_error st)].
Proof using Type.
  intros He. cbn [handle_server_frame].
  destruct (run_emit (if ts_accepted st then TunnelReady st else TunnelRejected (ts_error st))
    (λ _, Ret true) c n He) as (c1 & Hr & Hs & _ & Ho & _).
  exists c1. rewrite Hr. split_and!; [done| |done]. unfold out_queue. by rewrite Ho.
Qed.
End tunnel.

Definition edge_room `{Tokio} (n : nat) (x : Session) : Prop :=
  ch_receiver (ch_view (outbound x)) = true ∧
  length (ch_queue (ch_view (outbound x))) + n ≤ ch_capacity (ch_view (outbound x)).
Definition edge_queue `{Tokio} (x : Session) : list (result ServerFrame Status) :=
  ch_queue (ch_view (outbound x)).

(** Sending on a session whose queue has room. *)
Lemma run_edge_send `{Tokio} {R A B} i frame (k : bool → task AppState B) (s : AppState (R:=R) (A:=A)) x n :
  session_objs s !! i = Some x → edge_room (S n) x →
  ∃ o, run (task_bind (on_session i (send frame)) k) s = run (k true) (put_session i (with_outbound o x) s) ∧
    ch_queue (ch_view o) = edge_queue x ++ [Ok frame] ∧ edge_room n (with_outbound o x).
Proof.
  intros Hx [Hr Hn]. rewrite (run_session_send _ _ _ _ _ Hx).
  pose proof (ch_send_view (Ok frame : result ServerFrame Status) (outbound x)) as Hv.
  unfold send_spec in Hv. rewrite Hr in Hv. simpl in Hv. rewrite decide_True in Hv by lia.
  destruct (ch_send _ (outbound x)) as [[o b]|]; [|done]. injection Hv as Ho ->.
  exists o. unfold edge_queue, edge_room. simpl. rewrite Ho. simpl. rewrite length_app. simpl.
  split_and!; done || lia.
Qed.

(** The edge's side: the registration and its answer. *)
Lemma run_open_tunnel `{Tokio} `{MapIteration} `{Rng} {R A} `{RegistryContract R} i open
    (s : AppState (R:=R) (A:=A)) x :
  session_objs s !! i = Some x → reg_inv (registry s) →
  (∀ record url, requested_record s x open = Ok (record, url) → reg_wf record) →
  reg_ttl (route_ttl (config s)) → (clock s ≤ clock_later s)%Z → edge_room 1 x →
  ∃ s' st x', run (handle_client_frame i (Some (COpenTunnel open))) s = (s', Ret true) ∧
    session_objs s' !! i = Some x' ∧
    edge_queue x' = edge_queue x ++ [Ok (Some (STunnelStatus st))] ∧ reg_inv (registry s') ∧
    if ts_accepted st
    then ∃ record url, requested_record s x open = Ok (record, url) ∧
         ts_public_url st = url ∧ ts_routing_key st = routing_key record ∧
         acquired_lease record s s' ∧
         tunnels x' !! rec_tunnel_id record =
           Some (mkTunnel (rec_tunnel_id record) (routing_key record) url)
    else tunnels x' = tunnels x ∧
         (agree_from (clock s) (registry s) (registry s') ∨
          ∃ record url, requested_record s x open = Ok (record, url) ∧ acquired_lease record s s').
Proof.
  intros Hx Hi Hwf Ht Hc Hroom. cbn [handle_client_frame].
  destruct (run_register_tunnel i open s x Hx Hi Hwf Ht Hc) as (s1 & st & Hr & Hi1 & Hst).
  rewrite (run_bind _ _ _ _ _ Hr).
  assert (∃ x1, session_objs s1 !! i = Some x1 ∧ outbound x1 = outbound x ∧
    if ts_accepted st then ∃ record url, requested_record s x open = Ok (record, url) ∧
         ts_public_url st = url ∧ ts_routing_key st = routing_key record ∧ acquired_lease record s s1 ∧
         tunnels x1 !! rec_tunnel_id record =
           Some (mkTunnel (rec_tunnel_id record) (routing_key record) url)
    else tunnels x1 = tunnels x ∧
         (agree_from (clock s) (registry s) (registry s1) ∨
          ∃ record url, requested_record s x open = Ok (record, url) ∧ acquired_lease record s s1))
    as (x1 & Hx1 & Ho1 & Hst1).
  { destruct (ts_accepted st).
    - destruct Hst as (record & url & Hreq & _ & -> & Hl & _ & Ho). eexists. split_and!.
      + rewrite Ho. apply list_lookup_insert_eq. by eapply lookup_lt_Some.
      + done.
      + exists record, url. split_and!; [done..|]. simpl. apply lookup_insert_eq.
    - destruct Hst as (_ & Ho & _ & Hl). exists x. rewrite Ho. split_and!; [done..|].
      destruct Hl as [Hl|(record & Hreq & Hl)]; [by left|right].
      destruct (requested_record s x open) as [[rec url]|] eqn:E; [|done]. injection Hreq as <-.
      by exists rec, url. }
  destruct (run_edge_send i (Some (STunnelStatus st)) (λ _, Ret true) s1 x1 0 Hx1)
    as (o & Hr2 & Hq & _).
  { unfold edge_room in *. by rewrite Ho1. }
  eexists _, st, (with_outbound o x1). split; [exact Hr2|]. split_and!.
  - by eapply put_session_get.
  - unfold edge_queue in *. simpl. by rewrite Hq, Ho1.
  - done.
  - exact Hst1.
Qed.

(** What an agent with a requested subdomain is given, if anything. *)
Lemma requested_subdomain `{Tokio} `{Rng} {R A} options now (s : AppState (R:=R) (A:=A)) x record url l :
  opt_domain options = None → opt_subdomain options = Some l → l ≠ [] →
  requested_record s x (build_open_tunnel options now) = Ok (record, url) →
  ∃ label host, validate_subdomain_syntax l = Ok label ∧
    public_host label (base_domain (config s)) = Ok host ∧
    routing_key record = as_storage_key (Host host) ∧ url = public_url (config s) host.
Proof.
  intros Hd Hl Hne. unfold requested_record, build_open_tunnel. rewrite Hd, Hl. cbn.
  unfold resolve_http_target. cbn.
  rewrite bool_decide_eq_false_2 by done.
  destruct (validate_subdomain_syntax l) as [label|e]; cbn; [|done].
  destruct (_ && _)%bool; [done|].
  destruct (public_host label (base_domain (config s))) as [host|e] eqn:Hh; [|done]. cbn.
  intros [= <- <-]. by exists label, host.
Qed.

(** C14: an agent that is welcomed gets its tunnel: the request it sends on [Welcome] is
    registered by the edge, and the agent reports [TunnelReady], with the public URL,
    exactly when the edge holds the lease for the key and lists the tunnel on the
    session; with a subdomain asked for, key and URL are those of that label under
    the edge's base domain. Otherwise it reports the rejection and the session has
    no new tunnel. *)
Theorem tunnel_comes_up `{Tokio} `{MapIteration} `{Rng} {R A} `{RegistryContract R} options w i
    (s : AppState (R:=R) (A:=A)) x c :
  let open := build_open_tunnel options (ctx_now c) in
  session_objs s !! i = Some x → reg_inv (registry s) →
  (∀ record url, requested_record s x open = Ok (record, url) → reg_wf record) →
  reg_ttl (route_ttl (config s)) → (clock s ≤ clock_later s)%Z → edge_room 1 x →
  AgentSession.room 1 c → events_room 2 c →
  ∃ c1 s' x' st c2,
    run (handle_server_frame options (SWelcome w)) c = (c1, Ret true) ∧
    out_queue c1 = out_queue c ++ [Some (COpenTunnel open)] ∧
    run (handle_client_frame i (Some (COpenTunnel open))) s = (s', Ret true) ∧
    session_objs s' !! i = Some x' ∧ edge_queue x' = edge_queue x ++ [Ok (Some (STunnelStatus st))] ∧
    run (handle_server_frame options (STunnelStatus st)) c1 = (c2, Ret true) ∧
    seen_events c2 = seen_events c ++ [Connected (w_session_id w) (w_node_id w);
      if ts_accepted st then TunnelReady st else TunnelRejected (ts_error st)] ∧
    if ts_accepted st
    then ∃ record, requested_record s x open = Ok (record, ts_public_url st) ∧
         ts_routing_key st = routing_key record ∧ acquired_lease record s s' ∧
         tunnels x' !! rec_tunnel_id record =
           Some (mkTunnel (rec_tunnel_id record) (routing_key record) (ts_public_url st)) ∧
         ∀ l, opt_domain options = None → opt_subdomain options = Some l → l ≠ [] →
           ∃ label host, validate_subdomain_syntax l = Ok label ∧
             public_host label (base_domain (config s)) = Ok host ∧
             routing_key record = as_storage_key (Host host) ∧
             ts_public_url st = public_url (config s) host
    else tunnels x' = tunnels x.
Proof.
  intros open Hx Hi Hwf Ht Hc Hroom Hroom2 He.
  destruct (run_welcome options w c Hroom2 He) as (c1 & Hr1 & Ho1 & Hs1 & He1).
  destruct (run_open_tunnel i open s x Hx Hi Hwf Ht Hc Hroom) as (s' & st & x' & Hr2 & Hx' & Hq & _ & Hst).
  destruct (run_status options st c1 0 He1) as (c2 & Hr3 & _ & Hs3).
  exists c1, s', x', st, c2. rewrite Hs3, Hs1, <- app_assoc. split_and!; [done..|].
  destruct (ts_accepted st); [|apply Hst].
  destruct Hst as (record & url & Hreq & -> & Hk & Hl & Htun). exists record.
  split_and!; [done..|]. intros l Hd Hsub Hne. by apply (requested_subdomain options (ctx_now c) s x).
Qed.

Lemma tunnel_comes_up_witness :
  ∃ s' st c1 c2,
    run (@handle_client_frame view_tokio modular_rng _ _ _ 0
           (Some (COpenTunnel (build_open_tunnel demo_options 1000)))) fresh_node = (s', Ret true) ∧
    run (@handle_server_frame view_tokio demo_options (STunnelStatus st)) c1 = (c2, Ret true) ∧
    @seen_events view_tokio c2 = [Connected (lit "sess_1") (lit "node_1");
      if ts_accepted st then TunnelReady st else TunnelRejected (ts_error st)].
Proof.
  destruct (@tunnel_comes_up view_tokio sorted_iteration modular_rng MemoryRegistry StaticTokenAuth
      MemoryRegistry_ops MemoryRegistry_view MemoryRegistry_contract demo_options
      (mkWelcome (lit "sess_1") [] (lit "node_1") 15000 65536 None) 0 fresh_node fresh_session demo_ctx)
    as (c1 & s' & x' & st & c2 & _ & _ & Hr2 & _ & _ & Hr3 & Hs & _);
    [reflexivity|done|done|done|done|split; [reflexivity|apply Nat.leb_le; reflexivity]..|].
  exists s', st, c1, c2. split; [exact Hr2|]. split; [exact Hr3|exact Hs].
Defined.

(** ** One response, from the local service to the public client *)
Section response.
Context `{Tokio} {R A : Type} `{RegistryOps R} `{Rng}.
Notation AppState := (AppState (R:=R) (A:=A)).

Lemma open_at_outbound id l q h o (x : Session) : open_at id l q h x → open_at id l q h (with_outbound o x).
Proof using Type. done. Qed.

Lemma run_data_frame i id l q h c (s : AppState) x n :
  session_objs s !! i = Some x → open_at id l q h x → length q < STREAM_BUFFER_FRAMES → c ≠ [] →
  edge_room (S n) x →
  ∃ s' x', run (handle_client_frame i (Some (CData id c))) s = (s', Ret true) ∧
    session_objs s' !! i = Some x' ∧ open_at id l (q ++ [ChunkData c]) h x' ∧ edge_room n x' ∧
    edge_queue x' = edge_queue x ++ [Ok (Some (SWindowUpdate id (u32_saturate (byte_len c))))].
Proof using Type.
  intros Hx Ho Hq Hc Hroom. destruct (open_at_data id l q h c x Ho Hq) as (x1 & Hr & Ho1 & Hout).
  assert (0 < byte_len c)%Z as Hpos by (destruct c; [done|unfold byte_len; simpl; lia]).
  assert (0 < u32_saturate (byte_len c))%Z as Hinc.
  { unfold u32_saturate. destruct (_ <=? _)%Z; [done|by unfold u32_max]. }
  assert (edge_room (S n) x1) as Hroom1 by (unfold edge_room in *; by rewrite Hout).
  pose proof (put_session_get i s x x1 Hx) as Hx1.
  destruct (run_edge_send i (Some (SWindowUpdate id (u32_saturate (byte_len c)))) (λ _, Ret true)
              (put_session i x1 s) x1 n Hx1 Hroom1) as (o & Hr2 & Hq2 & Hroom2).
  eexists _, (with_outbound o x1). split.
  { cbn [handle_client_frame]. rewrite (run_bind _ _ _ _ _ (run_on_session i _ s x x1 _ Hx Hr)).
    rewrite (proj2 (Z.ltb_lt _ _) Hpos). unfold grant_window.
    rewrite (proj2 (Z.eqb_neq _ _)) by lia. exact Hr2. }
  rewrite put_session_put. split; [by eapply put_session_get|]. split; [by apply open_at_outbound|].
  split; [done|]. unfold edge_queue in *. simpl. by rewrite Hq2, Hout.
Qed.

Lemma run_edge_frame i f rest (s s' : AppState) :
  run (handle_client_frame i f) s = (s', Ret true) →
  run (Control.read_loop i (Ok f :: rest)) s = run (Control.read_loop i rest) s'.
Proof using Type. intros Hr. cbn [Control.read_loop]. by rewrite (run_bind _ _ _ _ _ Hr). Qed.

Definition data_of (id : Z) (pieces : list str) : list (result ClientFrame Status) :=
  (λ c, Ok (Some (CData id c))) <$> pieces.

Lemma run_data_frames i id l h pieces q rest (s : AppState) x :
  session_objs s !! i = Some x → open_at id l q h x →
  length q + length pieces ≤ STREAM_BUFFER_FRAMES → Forall (λ c, c ≠ []) pieces →
  edge_room (length pieces) x →
  ∃ s' x', run (Control.read_loop i (data_of id pieces ++ rest)) s = run (Control.read_loop i rest) s' ∧
    session_objs s' !! i = Some x' ∧ open_at id l (q ++ map ChunkData pieces) h x'.
Proof using Type.
  intros Hx Ho Hq Hp. revert q s x Hx Ho Hq.
  induction Hp as [|c pieces Hc _ IH]; intros q s x Hx Ho Hq Hroom.
  { exists s, x. by rewrite app_nil_r. }
  simpl in Hq, Hroom.
  destruct (run_data_frame i id l q h c s x (length pieces)) as (s1 & x1 & Hr & Hx1 & Ho1 & Hroom1 & _);
    [done|done|lia|done|done|].
  destruct (IH (q ++ [ChunkData c]) s1 x1 Hx1 Ho1) as (s2 & x2 & Hr2 & Hx2 & Ho2);
    [rewrite length_app; simpl; lia|done|].
  exists s2, x2. cbn [data_of fmap list_fmap app]. rewrite (run_edge_frame i _ _ s s1 Hr).
  rewrite <- app_assoc in Ho2. by split_and!.
Qed.

Lemma run_answer i id l head pieces trailers (s : AppState) x :
  session_objs s !! i = Some x → open_at id l [] (mkOneshot None true true) x → rs_stream_id head = id →
  length pieces < STREAM_BUFFER_FRAMES → Forall (λ c, c ≠ []) pieces → edge_room (length pieces) x →
  ∃ s' x' st, run (Control.read_loop i (Ok (Some (CResponseHead head)) :: data_of id pieces ++
                     [Ok (Some (CEnd id trailers))])) s = (s', Ret true) ∧
    session_objs s' !! i = Some x' ∧ streams x' !! id = None ∧ stream_objs x' !! l = Some st ∧
    os_recv (head_ch st) = Some (Some head) ∧
    drain (S (S (length pieces))) (body_ch st) = (map ChunkData pieces ++ [ChunkEnd trailers], true).
Proof using Type.
  intros Hx Ho Hid Hlen Hne Hroom. eapply open_at_head in Ho; [|done].
  set (x1 := on_response_head head x) in *.
  assert (outbound x1 = outbound x) as Hout
    by (subst x1; unfold on_response_head; by destruct (streams x !! _)).
  assert (run (handle_client_frame i (Some (CResponseHead head))) s = (put_session i x1 s, Ret true)) as Hr.
  { cbn [handle_client_frame]. by rewrite (run_bind _ _ _ _ _ (run_on_session i (modify (on_response_head head)) s x x1 tt Hx eq_refl)). }
  rewrite (run_edge_frame i _ _ s _ Hr).
  destruct (run_data_frames i id l (mkOneshot (Some head) false true) pieces [] [Ok (Some (CEnd id trailers))] (put_session i x1 s) x1)
    as (s2 & x2 & Hr2 & Hx2 & Ho2); [by eapply put_session_get|done|simpl; lia|done|
    unfold edge_room in *; by rewrite Hout|].
  destruct (open_at_end id l _ _ (ChunkEnd trailers) x2 Ho2) as (x3 & Hr3 & Hs & st & Hst & Hb & Hv & _).
  { simpl. by rewrite length_map. }
  exists (put_session i x3 s2), x3, st. split.
  { rewrite Hr2. rewrite (run_edge_frame i _ _ s2 (put_session i x3 s2)); [done|].
    cbn [handle_client_frame]. unfold on_stream_end.
    by rewrite (run_bind _ _ _ _ _ (run_on_session i _ s2 x2 x3 tt Hx2 Hr3)). }
  split_and!; [by eapply put_session_get|done|done| |].
  - rewrite os_recv_view. unfold os_recv_spec. by rewrite Hv.
  - eapply drain_closed; [exact Hb|]. simpl. rewrite length_app, length_map. simpl. lia.
Qed.
End response.

(** *** What the answer is made of *)
Section answer.
Context `{HttpCrate}.

Definition body_completes (frames : list (LocalFrame HeaderMap)) : Prop :=
  Forall (λ f, match f with LocalFailed _ => False | _ => True end) frames.
Definition local_pieces (frames : list (LocalFrame HeaderMap)) : list str :=
  frames ≫= λ f, match f with LocalData d => payload_chunks (length d) d | _ => [] end.
Definition local_bytes (frames : list (LocalFrame HeaderMap)) : str :=
  frames ≫= λ f, match f with LocalData d => d | _ => [] end.
Definition local_trailers (acc : list Header) (frames : list (LocalFrame HeaderMap)) : list Header :=
  fold_left (λ acc f, match f with LocalTrailers m => wire_headers m | _ => acc end) frames acc.

(** The bytes in a list of chunks. *)
Definition chunk_bytes (chunks : list Chunk) : str :=
  chunks ≫= λ c, match c with ChunkData d => d | _ => [] end.

Lemma body_answer_complete id frames acc :
  body_completes frames →
  body_answer id acc frames =
    ((λ c, Some (CData id c)) <$> local_pieces frames) ++ [Some (CEnd id (local_trailers acc frames))].
Proof using Type.
  intros Hc. revert acc. induction Hc as [|[d|m|e] frames Hf _ IH]; intros acc; [done| | |done].
  - cbn [body_answer local_pieces mbind list_bind]. unfold data_frames.
    rewrite fmap_app, <- app_assoc. f_equal. apply IH.
  - apply IH.
Qed.

Lemma concat_pieces frames : concat (local_pieces frames) = local_bytes frames.
Proof using Type.
  induction frames as [|[d|m|e] frames IH]; [done| |done..].
  cbn [local_pieces local_bytes mbind list_bind]. rewrite concat_app. f_equal; [|apply IH].
  by apply chunks_concat.
Qed.

Lemma pieces_nonempty frames : Forall (λ c, c ≠ []) (local_pieces frames).
Proof using Type.
  induction frames as [|[d|m|e] frames IH]; [constructor| |done..].
  cbn [local_pieces mbind list_bind]. apply Forall_app. split; [|done].
  eapply Forall_impl; [apply chunks_bounded|]. by intros c [Hc _].
Qed.

Lemma chunk_bytes_pieces pieces trailers :
  chunk_bytes (map ChunkData pieces ++ [ChunkEnd trailers]) = concat pieces.
Proof using Type.
  unfold chunk_bytes. induction pieces as [|c pieces IH]; [done|].
  cbn [map app mbind list_bind concat]. f_equal. exact IH.
Qed.

(** A header map survives the wire, hop-by-hop headers apart. *)
Lemma wire_roundtrip n m :
  hm_get_all n (to_header_map (wire_headers m)) = if decide (n ∈ HOP_BY_HOP) then [] else hm_get_all n m.
Proof using Type.
  rewrite to_header_map_get. case_decide; [done|]. unfold kept_values, wire_headers, hm_get_all.
  assert (∀ p, p ∈ hm_iter m → header_name p.1 = Some p.1 ∧ header_value p.2 = Some p.2) as Hv
    by (intros [k v] Hp; by eapply hm_iter_valid).
  induction (hm_iter m) as [|p l IH]; [done|]. cbn [fmap list_fmap mbind list_bind h_name h_value].
  destruct (Hv p) as [H1 H2]; [left|]. rewrite H1, H2, filter_cons.
  rewrite IH by (intros q Hq; apply Hv; by right).
  destruct (decide (p.1 = n)) as [->|Hn]; [by rewrite decide_True|]. rewrite decide_False; [done|congruence].
Qed.

Lemma build_response_headers {U} i id l head n :
  (0 ≤ id ≤ u64_max)%Z → n ≠ lit "x-norupo-stream" →
  hm_get_all n (headers (build_response (U:=U) i id l head)) = hm_get_all n (to_header_map (rs_headers head)).
Proof using Type.
  intros Hid Hn. unfold build_response. cbn [headers]. rewrite hm_get_all_insert.
  - by rewrite decide_False.
  - by apply (fixed_name (lit "x-norupo-stream")).
  - rewrite header_value_spec. destruct (dec_spec id Hid) as (_ & Hd & _).
    replace (forallb header_value_byte (dec id)) with true; [done|]. symmetry. apply forallb_elem.
    intros a Ha. apply (proj1 (forallb_elem _ _) Hd) in Ha. revert Ha. unfold header_value_byte.
    byte_cases a.
Qed.
End answer.


(** A node with one stream open on its session. *)
Definition open_session : @Session view_tokio := (@register_stream view_tokio fresh_session).1.
Definition open_node : @AppState view_tokio MemoryRegistry StaticTokenAuth :=
  @put_session view_tokio _ _ 0 open_session fresh_node.

Lemma open_session_at : @open_at view_tokio 1 0 [] (mkOneshot None true true) open_session.
Proof. split; [reflexivity|]. eexists. split; [reflexivity|]. split_and!; reflexivity. Qed.

