(* ===== verification/Exchange.v ===== *)
(** * An exchange: the response is the answer to the request

    What a public client gets on a stream, head and body, is what the local service
    answered to the one call the agent made for the stream, and that call has the head
    of a request that reached the node; a body whose end arrives is all of the local
    service's body. The end of a session cuts a body short without that end. *)

From S2P Require Import Prelude RustStr Crates CoreError Routing Auth Ids ServerConfig.
From S2P Require Import Registry MemoryRegistry Async Proto Http Session Control Ingress Node.
From S2P Require Import ClientConfig Agent Link FlowControl Delivery Upload Progress AgentSession EndToEnd.

(** ** The chunks of an answer *)
Section body.
Context `{HttpCrate}.

Lemma chunk_bytes_data (ds : list str) : chunk_bytes (ChunkData <$> ds) = concat ds.
Proof using Type. unfold chunk_bytes. induction ds as [|d ds IH]; [done|]. cbn. by f_equal. Qed.

Lemma chunk_bytes_snoc cs c : chunk_bytes (cs ++ [c]) = chunk_bytes cs ++ chunk_bytes [c].
Proof using Type. unfold chunk_bytes. apply bind_app. Qed.

Lemma chunks_of_data id ds : chunks_of id ((λ c, Some (CData id c)) <$> ds) = ChunkData <$> ds.
Proof using Type.
  induction ds as [|d ds IH]; [done|]. cbn. rewrite decide_True by done. cbn. by f_equal.
Qed.

(** Pieces, then one that says how it ended. *)
Lemma answer_shape id frames trailers :
  ∃ ds last, chunks_of id (body_answer id trailers frames) = (ChunkData <$> ds) ++ [last] ∧
    concat ds `prefix_of` local_bytes frames ∧ chunk_bytes [last] = [] ∧
    ∀ t, last = ChunkEnd t →
      concat ds = local_bytes frames ∧ body_completes frames ∧ t = local_trailers trailers frames.
Proof using Type.
  revert trailers. induction frames as [|[data|map|e] rest IH]; intros trailers; cbn [body_answer].
  - exists [], (ChunkEnd trailers). cbn. rewrite decide_True by done. split_and!; [done..|].
    intros t [= <-]. split_and!; [done|constructor|done].
  - destruct (IH trailers) as (ds & last & Hc & Hb & Hl & Ht).
    exists (payload_chunks (length data) data ++ ds), last. unfold data_frames.
    rewrite chunks_app, chunks_of_data, Hc, fmap_app, <- app_assoc, concat_app, chunks_concat by done.
    change (local_bytes (LocalData data :: rest)) with (data ++ local_bytes rest).
    split_and!; [done|by apply prefix_app|done|]. intros t Hlast.
    destruct (Ht t Hlast) as (-> & ? & ?). split_and!; [done|by constructor|done].
  - destruct (IH (wire_headers map)) as (ds & last & Hc & Hb & Hl & Ht). exists ds, last.
    split_and!; [done..|]. intros t Hlast. destruct (Ht t Hlast) as (? & ? & ?).
    split_and!; [done|by constructor|done].
  - exists [], (ChunkReset (reset_code_of (reset_code_i32 ResetInternal)) (lit "local body error: " ++ e)).
    cbn. rewrite decide_True by done. split_and!; [done|apply prefix_nil|done..].
Qed.

(** A reader has a prefix of the bytes, and all of them once it was given the end. *)
Lemma answer_read id frames trailers got :
  got `prefix_of` chunks_of id (body_answer id trailers frames) →
  chunk_bytes got `prefix_of` local_bytes frames ∧
  ∀ t, ChunkEnd t ∈ got →
    chunk_bytes got = local_bytes frames ∧ body_completes frames ∧ t = local_trailers trailers frames.
Proof using Type.
  destruct (answer_shape id frames trailers) as (ds & last & -> & Hb & Hl & Ht). intros [more Hm].
  rewrite <- chunk_bytes_data in Hb, Ht.
  induction more as [|c more' _] using rev_ind.
  - rewrite app_nil_r in Hm. subst got. rewrite chunk_bytes_snoc, Hl, app_nil_r. split; [done|].
    intros t [Hin|Hin%list_elem_of_singleton]%elem_of_app; [|by apply Ht].
    by apply list_elem_of_fmap in Hin as (d & ? & _).
  - rewrite app_assoc in Hm. apply app_inj_tail in Hm as [Hm _]. split.
    + etrans; [|exact Hb]. rewrite Hm. unfold chunk_bytes. rewrite bind_app. by apply prefix_app_r.
    + intros t Hin.
      assert (ChunkEnd t ∈ ChunkData <$> ds) as (d & ? & _)%list_elem_of_fmap by (rewrite Hm; apply elem_of_app; by left).
      done.
Qed.
End body.

(** ** Heads on their way *)

(** A frame that brings no head. *)
Definition headless (f : ClientFrame) : Prop :=
  match f with Some (CResponseHead _) => False | _ => True end.

Section agent_side.
Context `{Tokio} `{HttpCrate}.
Context (valid_method valid_uri : str → bool) (http_error : BuildError → str).
Context (local_service : LocalRequest → result LocalResponse str) (options : AgentOptions).

Notation answer := (stream_answer valid_method valid_uri http_error local_service options).

(** Its head, if it has one, is the answer's of some call. *)
Definition credible (c : SessionCtx) (f : ClientFrame) : Prop :=
  headless f ∨ ∃ call, call ∈ ctx_spawned c ∧ f ∈ answer call.1.1.

(** The agent makes calls, and queues frames in [P]. *)
Definition tells (P : ClientFrame → Prop) (c c' : SessionCtx) : Prop :=
  ctx_spawned c ⊆ ctx_spawned c' ∧ posts P c c'.

Lemma credible_calls c c' f : ctx_spawned c ⊆ ctx_spawned c' → credible c f → credible c' f.
Proof using Type. intros Hs [?|(call & Hc & Hf)]; [by left|right]. exists call. split; [by apply Hs|done]. Qed.

Lemma headless_credible c f : headless f → credible c f.
Proof using Type. by left. Qed.

Lemma tells_weaken (P P' : ClientFrame → Prop) {B} (t : task SessionCtx B) :
  (∀ f, P f → P' f) → obeys (tells P) t → obeys (tells P') t.
Proof using Type.
  intros HP. apply obeys_weaken. intros c c' (Hs & fs & Ho & Hf). split; [done|].
  exists fs. split; [done|]. by eapply Forall_impl.
Qed.

Lemma tells_frame payload : obeys (tells headless) (handle_server_frame options payload).
Proof using Type.
  assert (∀ {B} (t : task SessionCtx B), obeys (placid headless False) t → obeys (tells headless) t) as Hp.
  { intros B t. apply obeys_weaken. intros c c' Hc. split; [|by eapply placid_posts].
    by destruct Hc as (_ & -> & _). }
  assert (headless (Some (CPong 0 0))) as Hpong by exact I.
  destruct payload; cbn [handle_server_frame]; try (apply Hp; agent_calls; fail).
  - apply obeys_bind; [|done]. apply obeys_modify. intros c. split; [by apply list_subseteq_app_l|].
    exists []. by rewrite app_nil_r.
  - apply Hp. unfold on_data. agent_calls.
Qed.

Lemma tells_serve c call :
  call ∈ ctx_spawned c →
  obeys (tells (credible c)) (serve_stream valid_method valid_uri http_error local_service options
                                call.1.1 call.1.2 call.2).
Proof using Type.
  intros Hc. apply (follows_within owes _ (λ n, Forall (credible c) n) (λ _ _, True) (answer call.1.1));
    [..|apply owes_serve].
  - intros n a n' a' Hn (Hs & fs & -> & Ho). apply Forall_app in Hn as [Hfs Hn]. split; [|done].
    split; [by rewrite Hs|by exists fs].
  - apply Forall_forall. intros f Hf. right. by exists call.
Qed.

(** A head that answers a call is its local service's. *)
Lemma answered_head call h :
  Some (CResponseHead h) ∈ answer call →
  ∃ head request response, so_http call = Some head ∧
    local_request valid_method valid_uri options call head = Ok request ∧ local_service request = Ok response ∧
    h = mkResponseHead (so_stream_id call) (lr_status response) (wire_headers (lr_headers response)) ∧
    chunks_of (so_stream_id call) (answer call) =
      chunks_of (so_stream_id call) (body_answer (so_stream_id call) [] (lr_frames response)).
Proof using Type.
  unfold stream_answer. intros Hin. destruct (so_http call) as [head|]; cycle 1.
  { by apply list_elem_of_singleton in Hin. }
  destruct (local_request _ _ _ _ _) as [request|e] eqn:Hreq; cycle 1.
  { by apply list_elem_of_singleton in Hin. }
  destruct (local_service request) as [response|e] eqn:Hres; cycle 1.
  { by apply list_elem_of_singleton in Hin. }
  exists head, request, response. split_and!; [done..| |done].
  apply elem_of_cons in Hin as [[= ->]|Hin]; [done|exfalso]. revert Hin. generalize (@nil Header).
  induction (lr_frames response) as [|[d|m|e] rest IH]; intros tr; cbn [body_answer].
  - by intros ?%list_elem_of_singleton.
  - intros [(d' & ? & _)%list_elem_of_fmap|Hin]%elem_of_app; [done|]. by eapply IH.
  - apply IH.
  - by intros ?%list_elem_of_singleton.
Qed.
End agent_side.

Section edge_side.
Context `{Tokio} `{MapIteration} `{HttpCrate} `{Rng}.
Context {R : Type} `{RegistryOps R} {A : Type} `{AuthProvider A}.
Notation AppState := (AppState (R:=R) (A:=A)).

(** A head that is put in a slot is in [D], and is for the stream of the slot. *)
Definition heads_from (D : HttpResponseHead → Prop) (x x' : Session) : Prop :=
  rtc session_step x x' ∧
  (session_wf x → ∀ l h, head_in l x' = Some h →
   head_in l x = Some h ∨ D h ∧ rs_stream_id h = stream_no l).

#[export] Instance heads_from_refl D : Reflexive (heads_from D).
Proof using Type. intros x. split; [done|]. by left. Qed.

Lemma tame_heads P V K D x x' : tame P V K True x x' → heads_from D x x'.
Proof using Type. intros (Hs & _ & _ & _ & _ & Hd & _). split; [done|]. intros _ l h Hh. left. by apply Hd. Qed.

Lemma obeys_heads {B} P V K D (t : task Session B) : obeys (tame P V K True) t → obeys (heads_from D) t.
Proof using Type. apply obeys_weaken. intros x x'. apply tame_heads. Qed.

Lemma heads_weaken {B} i (D D' : HttpResponseHead → Prop) (t : task AppState B) :
  (∀ h, D h → D' h) → obeys (at_session i (heads_from D)) t → obeys (at_session i (heads_from D')) t.
Proof using Type.
  intros HD. apply obeys_weaken. intros s s' Ha x Hx. destruct (Ha x Hx) as (x' & Hx' & Hs & Hh).
  exists x'. split; [done|]. split; [done|]. intros Hwf l h Hl.
  destruct (Hh Hwf l h Hl) as [?|[? ?]]; [by left|right; auto].
Qed.

Lemma heads_insert D t : obeys (heads_from D) (modify (insert_tunnel t)).
Proof using Type.
  apply obeys_modify. intros x. split; [by apply rtc_once, step_quiet, quiet_tunnels|]. by left.
Qed.

Lemma heads_response head : obeys (heads_from (λ h, h = head)) (modify (on_response_head head)).
Proof using Type.
  apply obeys_modify. intros x. split; [apply rtc_once, step_quiet, quiet_response_head|].
  intros Hwf l h. unfold on_response_head. destruct (streams x !! rs_stream_id head) as [l'|] eqn:El; [|by left].
  destruct (wf_ids x Hwf _ _ El) as [_ Hid]. unfold head_in. cbn.
  destruct (decide (l = l')) as [->|]; [|rewrite list_lookup_alter_ne by done; by left].
  rewrite list_lookup_alter_eq. destruct (stream_objs x !! l') as [st|]; [|done]. cbn.
  destruct (head_tx st); [|by left]. cbn. rewrite os_send_view. cbn.
  destruct (os_receiver _); [|done]. intros [= <-]. by right.
Qed.

#[local] Hint Resolve heads_insert : tame.
#[local] Hint Extern 3 (obeys (heads_from _) _) => eapply (obeys_heads (λ _, True) False False); solve [eauto with tame] : tame.

Lemma heads_frame i f :
  obeys (at_session i (heads_from (λ h, f = Some (CResponseHead h)))) (handle_client_frame (A:=A) (R:=R) i f).
Proof using Type.
  destruct f as [payload|]; [|done]. destruct payload; cbn [handle_client_frame];
    unfold close_tunnel, register_tunnel, claim_tunnel; try (node_calls; fail).
  apply obeys_bind; [|done]. apply at_call; [exact _|right].
  eapply obeys_weaken; [|apply heads_response]. intros x x' [Hs Hh]. split; [done|].
  intros Hwf l h Hl. destruct (Hh Hwf l h Hl) as [?|[-> ?]]; [by left|by right].
Qed.
End edge_side.

(** ** Agent and edge together *)
Section exchange.
Context `{Tokio} `{MapIteration} `{HttpCrate} `{Rng}.
Context {R : Type} `{RegistryOps R} {A : Type} `{AuthProvider A} {U : Type}.
Notation AppState := (AppState (R:=R) (A:=A)).
Context (health_json : HealthResponse → str → str) (tunnels_json : list SessionSnapshot → str).
Context (duration_debug : Z → str).
Context (parse_uri : str → option Uri) (upstream : Request → result (Response (EdgeBody U)) str).
Context (public : Request → Prop).
Context (valid_method valid_uri : str → bool) (http_error : BuildError → str).
Context (local_service : LocalRequest → result LocalResponse str) (options : AgentOptions).
Context (i : nat).

Notation Link := (Link (R:=R) (A:=A)).
Notation link_step := (link_step health_json tunnels_json duration_debug parse_uri upstream public
  valid_method valid_uri http_error local_service options i).
Notation answer := (stream_answer valid_method valid_uri http_error local_service options).
Notation credible := (credible valid_method valid_uri http_error local_service options).

Definition offered (a : SessionCtx) (h : HttpResponseHead) : Prop :=
  ∃ call, call ∈ ctx_spawned a ∧ Some (CResponseHead h) ∈ answer call.1.1.

Lemma credible_offered a h : credible a (Some (CResponseHead h)) → offered a h.
Proof using Type. by intros [[]|]. Qed.

Notation edge_calls a t := (obeys (at_session i (heads_from (offered a))) t) (only parsing).

(** Every head, wherever it is, answers a call. *)
Record heads_match (σ : Link) (x : Session) : Prop := {
  hm_object : session_objs (edge σ) !! i = Some x;
  hm_slots : bounded x → session_wf x ∧
    ∀ l h, head_in l x = Some h → offered (agent σ) h ∧ rs_stream_id h = stream_no l;
  hm_out : Forall (credible (agent σ)) (out_queue (agent σ));
  hm_up : Forall (credible (agent σ)) (to_edge σ);
  hm_agent_reader : obeys (tells headless) (agent_reader σ);
  hm_agent_tasks : Forall (λ t, obeys (tells (credible (agent σ))) t) (agent_tasks σ);
  hm_edge_reader : edge_calls (agent σ) (edge_reader σ);
  hm_edge_tasks : Forall (λ t, edge_calls (agent σ) t) (edge_tasks σ);
}.

Notation matching a h ts g s r ns up down := (heads_match (mkLink a h ts g s r ns up down)) (only parsing).

(** A step on the agent's side. *)
Lemma match_agent a h ts g s r ns up down x a' h' ts' g' down' :
  matching a h ts g s r ns up down x → tells (credible a) a a' → obeys (tells headless) h' →
  Forall (λ t, obeys (tells (credible a)) t) ts' →
  matching a' h' ts' g' s r ns up down' x.
Proof using Type.
  intros [Hx Hsl Ho Hu Hh Hts Hr Hns] (Hs & fs & Hq & Hfs) Hh' Hts'. cbn in *.
  assert (∀ f, credible a f → credible a' f) as Hc by (intros f; by apply credible_calls).
  assert (∀ h, offered a h → offered a' h) as Hof
    by (intros hd (call & Hin & ?); exists call; split; [by apply Hs|done]).
  split; cbn; try done.
  - intros Hb. destruct (Hsl Hb) as [Hwf Hl]. split; [done|]. intros l hd Hhd.
    destruct (Hl l hd Hhd). auto.
  - rewrite Hq. apply Forall_app. split; (eapply Forall_impl; [|exact Hc]); done.
  - by eapply Forall_impl.
  - eapply Forall_impl; [exact Hts'|]. intros t. by apply tells_weaken.
  - by eapply heads_weaken.
  - eapply Forall_impl; [exact Hns|]. intros t. by apply heads_weaken.
Qed.

Lemma tells_still (P : ClientFrame → Prop) a a' :
  ctx_spawned a' = ctx_spawned a → out_queue a' = out_queue a → tells P a a'.
Proof using Type. intros Hs Ho. split; [by rewrite Hs|]. exists []. by rewrite Ho, app_nil_r. Qed.

(** A step on the edge's side. *)
Lemma match_edge a h ts g s r ns up down x s' r' ns' up' down' :
  matching a h ts g s r ns up down x → at_session i (heads_from (offered a)) s s' →
  edge_calls a r' → Forall (λ t, edge_calls a t) ns' → Forall (credible a) up' →
  ∃ x', matching a h ts g s' r' ns' up' down' x'.
Proof using Type.
  intros [Hx Hsl Ho Hu Hh Hts Hr Hns] Hs Hr' Hns' Hu'. cbn in *.
  destruct (Hs x Hx) as (x' & Hx' & Hst & Hd). exists x'. split; cbn; try done.
  intros Hb'. pose proof (steps_objs _ _ Hst).
  destruct Hsl as [Hwf Hl]; [unfold bounded in *; lia|].
  split; [eapply wf_rtc; [exact Hst|unfold bounded in *; lia|done]|].
  intros l hd Hhd. destruct (Hd Hwf l hd Hhd) as [?|[? ?]]; [by apply Hl|by split].
Qed.

Lemma heads_node_task D t :
  node_task health_json tunnels_json duration_debug parse_uri upstream public i t →
  obeys (at_session i (heads_from D)) t.
Proof using Type.
  intros Ht. eapply obeys_weaken; [|by eapply (node_task_tame _ _ _ _ _ _ (λ _, True) True), Ht].
  intros s s' Ha x Hx. destruct (Ha x Hx) as (x' & Hx' & Hxx). exists x'. split; [done|].
  by eapply tame_heads.
Qed.

Lemma at_same G `{!Reflexive G} (s : AppState) : at_session i G s s.
Proof using Type. by apply at_objs. Qed.

Lemma step_matches σ σ' : link_step σ σ' → (∃ x, heads_match σ x) → ∃ x, heads_match σ' x.
Proof using Type.
  intros Hs (x & Hm). pose proof Hm as [Hx Hsl Ho Hu Hh Hts Hr Hns].
  destruct Hs as [a ts g s r ns up f down|a h ts g s r ns up down a' h' Hp
    |a h ts g s r ns up down open body credit Hsp|a h ts g s r ns up down j t a' t' Hj Hp
    |a h ts g s r ns up down j|a h ts g s r ns up down a' Hhost|a h ts g s r ns up down o f Hf
    |a h ts g s ns f up down|a h ts g s r ns up down s' r' Hp|a h ts g s r ns up down t Ht
    |a h ts g s r ns up down j t s' t' Hj Hp|a h ts g s r ns up down j
    |a h ts g s r ns up down y o f Hy Hf];
    cbn [agent edge agent_reader agent_tasks agent_started edge_reader edge_tasks to_agent to_edge] in *.
  - exists x. eapply match_agent; [exact Hm|by apply tells_still| |done].
    destruct f as [payload|]; [apply tells_frame|done].
  - destruct (obeys_poll _ _ _ _ _ Hh Hp) as [Hst Hh']. exists x. eapply match_agent; [exact Hm| |done..].
    destruct Hst as (? & fs & ? & Hfs). split; [done|]. exists fs. split; [done|].
    eapply Forall_impl; [exact Hfs|]. by left.
  - exists x. eapply match_agent; [exact Hm|by apply tells_still|done|].
    apply Forall_app. split; [done|]. constructor; [|done].
    apply (tells_serve _ _ _ _ _ a (open, body, credit)). by eapply list_elem_of_lookup_2.
  - destruct (obeys_poll _ _ _ _ _ (proj1 (Forall_lookup _ _) Hts j t Hj) Hp) as [Hst Ht'].
    exists x. eapply match_agent; [exact Hm|done..|]. by apply Forall_insert.
  - exists x. eapply match_agent; [exact Hm|by apply tells_still|done|by apply Forall_delete].
  - exists x. eapply match_agent; [exact Hm| |done..].
    by destruct Hhost as [(e & event & _ & ->)|[(l & b & b' & payload & _ & _ & ->)|[l ->]]]; apply tells_still.
  - apply recv_front in Hf. unfold out_queue in Ho. rewrite Hf in Ho. apply Forall_cons in Ho as [? Ho].
    exists x. split; cbn; try done. apply Forall_app. by split; [|constructor].
  - apply Forall_cons in Hu as [Hf Hu]. eapply match_edge; [exact Hm|apply at_same, _| |done..].
    eapply heads_weaken; [|apply heads_frame]. intros hd ->. by apply credible_offered.
  - destruct (obeys_poll _ _ _ _ _ Hr Hp) as [Hst Hr']. by eapply match_edge.
  - eapply match_edge; [exact Hm|apply at_same, _|done| |done]. apply Forall_app. split; [done|].
    constructor; [by apply heads_node_task|done].
  - destruct (obeys_poll _ _ _ _ _ (proj1 (Forall_lookup _ _) Hns j t Hj) Hp) as [Hst Ht'].
    eapply match_edge; [exact Hm|done..| |done]. by apply Forall_insert.
  - eapply match_edge; [exact Hm|apply at_same, _|done|by apply Forall_delete|done].
  - eapply match_edge; [exact Hm| |done..]. intros z Hz. exists (with_outbound o z).
    rewrite Hy in Hz. injection Hz as <-. split; [by apply (put_session_get i s y)|].
    split; [eapply rtc_once, step_quiet, quiet_recv; exact Hf|]. by left.
Qed.

Lemma run_matches σ0 σ :
  link_start i σ0 → Forall headless (out_queue (agent σ0)) → rtc link_step σ0 σ → ∃ x, heads_match σ x.
Proof using Type.
  intros (Har & Hat & _ & Her & Het & Hte & _ & _ & _ & _ & _ & x & Hx & Hwf & Hobjs & _) Hq Hr.
  assert (∃ x, heads_match σ0 x) as Hm.
  { exists x. split; rewrite ?Har, ?Hat, ?Her, ?Het, ?Hte; try done.
    - intros _. split; [done|]. intros l h. unfold head_in. by rewrite Hobjs.
    - eapply Forall_impl; [exact Hq|]. by left. }
  clear -Hr Hm. induction Hr; eauto using step_matches.
Qed.

(** Of every run there is a record of the uploads of a stream. *)
Lemma run_recorded l σ0 σ :
  rtc link_step σ0 σ → ∃ sent got,
    upload_history health_json tunnels_json duration_debug parse_uri upstream public valid_method valid_uri
      http_error local_service options i l σ0 σ sent got.
Proof using Type.
  revert σ. apply rtc_ind_r; [eexists _, _; constructor|].
  intros σ σ' _ Hs (sent & got & Hh). eexists _, _. by eapply upload_step.
Qed.
End exchange.

(** C1: a public client gets the answer to its stream's request, in any interleaving:
    when a response head waits for it in stream [l]'s slot, then there is one request
    that reached the node and one call of the local service made with that request's
    head, and that service's response is where status and headers come from; the
    bytes read from the stream are a prefix of that response's body; and a reader that
    was given the body's end, which carries the trailers, has read all of a body that
    did not fail. So heads and bodies of different streams are never mixed up, and the
    end is never given early. *)
Theorem response_answers_request `{Tokio} `{MapIteration} `{HttpCrate} `{Rng} {R} `{RegistryOps R}
    {A} `{AuthProvider A} {U} health_json tunnels_json duration_debug parse_uri upstream public
    valid_method valid_uri http_error local_service options i l x head σ0 σ sent got :
  link_start i σ0 → Forall headless (out_queue (agent σ0)) →
  chunks_of (stream_no l) (out_queue (agent σ0)) = [] →
  history (R:=R) (A:=A) (U:=U) health_json tunnels_json duration_debug parse_uri upstream public
    valid_method valid_uri http_error local_service options i l σ0 σ sent got →
  session_objs (edge σ) !! i = Some x → (1 + Z.of_nat (length (stream_objs x)) < 2 ^ 64)%Z →
  head_in l x = Some head →
  ∃ open req request response,
    open ∈ (ctx_spawned (agent σ)).*1.*1 ∧ so_stream_id open = stream_no l ∧
    public req ∧ so_http open = Some (request_head req) ∧
    local_request valid_method valid_uri options open (request_head req) = Ok request ∧
    local_service request = Ok response ∧
    head = mkResponseHead (stream_no l) (lr_status response) (wire_headers (lr_headers response)) ∧
    chunk_bytes got `prefix_of` local_bytes (lr_frames response) ∧
    ∀ trailers, ChunkEnd trailers ∈ got →
      chunk_bytes got = local_bytes (lr_frames response) ∧ body_completes (lr_frames response) ∧
      trailers = local_trailers [] (lr_frames response).
Proof.
  intros Hst Hq Hc Hh Hx Hb Hhd. epose proof (history_run (U:=U) _ _ _ _ _ _ _ _ _ _ _ _ _ _ _ _ _ Hh) as Hr.
  edestruct (run_matches (U:=U)) as (x' & Hm); [exact Hst|exact Hq|exact Hr|].
  pose proof (hm_object _ _ _ _ _ _ _ _ Hm) as Hx'. rewrite Hx in Hx'. injection Hx' as <-.
  destruct (hm_slots _ _ _ _ _ _ _ _ Hm Hb) as [_ Hsl].
  destruct (Hsl l head Hhd) as [(call & Hin & Hans) Hid].
  destruct (answered_head _ _ _ _ _ _ _ Hans) as (hd & request & response & Hhttp & Hreq & Hres & -> & Hch).
  cbn in Hid. edestruct (run_recorded (U:=U)) with (l := l) as (s & g & Hu); [exact Hr|].
  edestruct (history_asked (U:=U)) as (req & _ & _ & _ & Hcall & Hpub & Hhead & _);
    [exact Hst|exact Hu|exact Hx|exact Hb|exact Hin|exact Hid|].
  rewrite Hhttp in Hhead. injection Hhead as ->.
  rewrite Hid in Hch |- *. assert (got `prefix_of` chunks_of (stream_no l)
    (body_answer (stream_no l) [] (lr_frames response))) as [Hp He]%answer_read.
  { rewrite <- Hch. edestruct (history_read (U:=U)) as [->|(call' & Hin' & Hid' & Hp)];
      [exact Hst|exact Hc|exact Hh|exact Hx|exact Hb|apply prefix_nil|].
    edestruct (history_asked (U:=U)) as (_ & _ & _ & _ & Hcall' & _);
      [exact Hst|exact Hu|exact Hx|exact Hb|exact Hin'|exact Hid'|].
    rewrite Hcall in Hcall'. by injection Hcall' as <-. }
  exists call.1.1, req, request, response. split; [|done].
  rewrite <- list_fmap_compose. apply list_elem_of_fmap. by exists call.
Qed.

(** A client has the head of its response, and has read the body to its end. *)
Definition exchange_moves : list (@move list_http) :=
  delivery_moves ++ [EdgeTakes] ++ replicate 8 EdgeReads ++ [ClientReads 0; EdgeWorks 2].
Definition demo_exchange : @Link view_tokio MemoryRegistry StaticTokenAuth * list ClientFrame * list Chunk :=
  @recorded view_tokio sorted_iteration list_http modular_rng MemoryRegistry _ StaticTokenAuth unit
    no_json1 no_json2 dec (λ _, None) (λ _, Err (lit "down")) any_text any_text no_http_error
    demo_service demo_options 0 0 exchange_moves demo_link.

Lemma response_answers_request_witness :
  demo_exchange.2 = [ChunkData (lit "hello"); ChunkEnd []] ∧
  ∃ x response, @session_objs view_tokio _ _ (edge demo_exchange.1.1) !! 0 = Some x ∧
    @head_in view_tokio 0 x = Some (mkResponseHead 1 200 []) ∧
    lr_status response = 200%Z ∧
    chunk_bytes demo_exchange.2 = @local_bytes list_http (lr_frames response) ∧
    @body_completes list_http (lr_frames response) ∧ [] = @local_trailers list_http [] (lr_frames response).
Proof.
  assert (demo_exchange.2 = [ChunkData (lit "hello"); ChunkEnd []]) as Hg by (vm_compute; reflexivity).
  split; [exact Hg|].
  assert ((λ x, (length (@stream_objs view_tokio x), @head_in view_tokio 0 x)) <$>
    @session_objs view_tokio _ _ (edge demo_exchange.1.1) !! 0 = Some (1, Some (mkResponseHead 1 200 []))) as Hl
    by (vm_compute; reflexivity).
  destruct (@session_objs view_tokio _ _ (edge demo_exchange.1.1) !! 0) as [x|] eqn:Hx; [|discriminate Hl].
  injection Hl as Hl Hhd.
  destruct (@response_answers_request view_tokio sorted_iteration list_http modular_rng MemoryRegistry _
    StaticTokenAuth _ unit no_json1 no_json2 dec (λ _, None) (λ _, Err (lit "down")) (λ req, req = ping_request)
    any_text any_text no_http_error demo_service demo_options 0 0 x (mkResponseHead 1 200 []) demo_link
    demo_exchange.1.1 demo_exchange.1.2 demo_exchange.2 demo_link_start)
    as (open & req & request & response & _ & _ & _ & _ & _ & _ & Hhead & _ & Hend).
  - by repeat constructor.
  - reflexivity.
  - apply recorded_sound, Forall_app. split; [|by repeat constructor].
    apply Forall_app. split; [by apply demo_moves_ok|by repeat constructor].
  - exact Hx.
  - rewrite Hl. reflexivity.
  - exact Hhd.
  - exists x, response. split; [reflexivity|]. split; [exact Hhd|]. split; [by injection Hhead as <-|].
    apply (Hend []). rewrite Hg. right. left.
Defined.

(** ** A session that ends

    The streams of a session that ends are closed with it. The public client of a
    response that was under way then reads what was buffered and the end of its body,
    and no error, although the end of the local service's body never came. *)
Section session_end.
Context `{Tokio} `{MapIteration}.

(** Stream [id], object [l], was closed with [q] in its channel and [value] in its slot. *)
Definition closed_at (id : Z) (l : nat) (q : list Chunk) (value : option HttpResponseHead) (x : Session) : Prop :=
  streams x !! id = None ∧ ∃ st, stream_objs x !! l = Some st ∧
    ch_view (body_ch st) = mkChan q STREAM_BUFFER_FRAMES 0 true ∧ os_value (os_view (head_ch st)) = value.

Lemma close_elsewhere id l k x :
  session_wf x → id = (1 + Z.of_nat l)%Z → k ≠ id →
  stream_objs (close_stream k x) !! l = stream_objs x !! l ∧ streams (close_stream k x) !! id = streams x !! id.
Proof using Type.
  intros Hwf -> Hk. unfold close_stream. destruct (streams x !! k) as [l'|] eqn:E; [|done].
  destruct (wf_ids x Hwf k l' E) as [_ Hid]. simpl.
  rewrite list_lookup_alter_ne, lookup_delete_ne by (done || lia). done.
Qed.

Lemma open_at_close id l q h x : open_at id l q h x → closed_at id l q (os_value h) (close_stream id x).
Proof using Type.
  intros (Hs & st & Hst & _ & Hb & Hh & Ht). unfold close_stream. rewrite Hs.
  split; [apply lookup_delete_eq|]. exists (end_stream st). simpl. rewrite list_lookup_alter_eq, Hst.
  split; [done|]. rewrite ch_drop_tx_view, Hb. split; [done|].
  destruct (head_tx st); [by rewrite os_drop_tx_view, Hh|by rewrite Hh].
Qed.

Lemma closed_at_close id l q v k x :
  session_wf x → id = (1 + Z.of_nat l)%Z → closed_at id l q v x → closed_at id l q v (close_stream k x).
Proof using Type.
  intros Hwf Hid Hc. destruct (decide (k = id)) as [->|Hk].
  - destruct Hc as [Hs ?]. unfold close_stream. by rewrite Hs.
  - destruct (close_elsewhere id l k x Hwf Hid Hk) as [Ho Hs]. destruct Hc as [Hn (st & Hst & ?)].
    split; [by rewrite Hs|]. exists st. by rewrite Ho.
Qed.

Lemma open_at_keeps id l q h k x :
  session_wf x → k ≠ id → open_at id l q h x → open_at id l q h (close_stream k x).
Proof using Type.
  intros Hwf Hk (Hs & st & Hst & Hrest). destruct (wf_ids x Hwf id l Hs) as [_ Hid].
  destruct (close_elsewhere id l k x Hwf Hid Hk) as [Ho Hs']. split; [by rewrite Hs'|].
  exists st. by rewrite Ho.
Qed.

Lemma run_close_open id l q h ids x :
  session_wf x → bounded x → id = (1 + Z.of_nat l)%Z →
  (open_at id l q h x ∧ id ∈ ids ∨ closed_at id l q (os_value h) x) →
  closed_at id l q (os_value h) (run (close_streams ids) x).1.
Proof using Type.
  intros Hwf Hb Hid. revert x Hwf Hb. induction ids as [|k ids IH]; intros x Hwf Hb Hat.
  { by destruct Hat as [[_ ?%not_elem_of_nil]|]. }
  cbn [close_streams]. unfold modify. rewrite run_atomic. cbn [fst snd].
  assert (length (stream_objs (close_stream k x)) = length (stream_objs x)) as Hl.
  { unfold close_stream. case_match; [simpl; by rewrite length_alter|done]. }
  apply IH; [apply wf_close; [done|unfold bounded in Hb; lia]|unfold bounded in *; lia|].
  destruct Hat as [[Ho Hin]|Hc]; [|right; by apply closed_at_close].
  destruct (decide (k = id)) as [->|Hk]; [right; by apply open_at_close|left].
  split; [by apply open_at_keeps|]. by apply elem_of_cons in Hin as [?|].
Qed.

Lemma cut_response_reads_as_complete `{HttpCrate} {R A} `{RegistryContract R} reset_code_text i
    (s : AppState (R:=R) (A:=A)) x id l pieces head :
  session_objs s !! i = Some x → reg_inv (registry s) → session_wf x → bounded x →
  open_at id l (ChunkData <$> pieces) (mkOneshot (Some head) false true) x →
  ∃ s' x' st, run (teardown i) s = (s', Ret tt) ∧ session_objs s' !! i = Some x' ∧
    stream_objs x' !! l = Some st ∧ os_recv (head_ch st) = Some (Some head) ∧
    ∃ chunks, drain (S (length pieces)) (body_ch st) = (chunks, true) ∧
      body_frame reset_code_text <$> chunks = OutData <$> pieces.
Proof using Type.
  intros Hx Hi Hwf Hb Ho. unfold teardown. rewrite (run_bind _ _ _ _ _ (run_query_session i s x Hx)).
  destruct (run_release_tunnels (ses_id x) (session_tunnels x) s Hi) as (r & Hr & _).
  rewrite (run_bind _ _ _ _ _ Hr). destruct (run_close_all x) as (x' & Hc & _).
  rewrite (run_bind _ _ _ _ _ (run_on_session i _ (with_registry r s) x x' tt Hx Hc)).
  pose proof Ho as [Hs _]. destruct (wf_ids x Hwf id l Hs) as [_ Hid].
  assert (closed_at id l (ChunkData <$> pieces) (Some head) x') as (_ & st & Hst & Hv & Hh).
  { replace x' with (run (close_streams (map_iter (streams x)).*1) x).1.
    - apply (run_close_open _ _ _ (mkOneshot (Some head) false true)); [done..|]. left. split; [done|].
      apply list_elem_of_fmap. exists (id, l). split; [done|]. rewrite map_iter_perm. by apply elem_of_map_to_list.
    - unfold close_all_streams in Hc. cbn in Hc. by rewrite Hc. }
  eexists _, x', st. split; [reflexivity|]. split; [simpl; eapply list_lookup_insert_eq, lookup_lt_Some, Hx|].
  split; [done|]. split; [by rewrite os_recv_view; unfold os_recv_spec; rewrite Hh|].
  exists (ChunkData <$> pieces). split; [eapply drain_closed; [exact Hv|rewrite length_fmap; lia]|].
  by rewrite <- list_fmap_compose.
Qed.
End session_end.
